(* ===== verification/_CoqProject ===== *)
-Q . S2P
Prelude.v
Wheel.v
WheelSlab.v
WheelTime.v
WheelInv.v
WheelSpec.v
WheelProps.v
Errors.v
Bus.v
WheelCache.v
WheelTrace.v
Episode.v
Interceptor.v
Supervisor.v
SupervisorWatch.v
Dig62.v
Bytes.v
Text.v
Metrics.v
Collector.v
Token.v
Crypto.v
TtlCache.v
TtlWorker.v
Runtime.v
RuntimeGraceful.v
NetFrame.v
NetWriter.v
NetSinks.v
NetWait.v
NetClose.v
NetConn.v
NetDelivery.v
NetInbound.v
NetDirect.v
NetEndpoint.v
NetStart.v
NetHandle.v
NetState.v
Logger.v
Constructor.v
Config.v
Yaml.v
Daemon.v
RuntimeExit.v
Db.v
Broadcast.v
Rpc.v
