(* ===== verification/Prelude.v ===== *)
(** * pigs: a verification library

    pigs is a collection of Rust crates for network services: [base] (caches,
    message bus, managed runtimes, packet input and output, daemon control,
    small codecs), [exception] (error values), [base_rpc] (support for gRPC),
    [base_db], [sys_metrics] and a few procedural macros.  This library models
    the parts with logic of their own as Rocq definitions that can be
    evaluated, and proves what makes them correct.

    ** Reading the models

    - An unsigned integer of width [w] is an [N] below [2 ^ w], with its
      wrap-around or saturation written out ([wadd32], [sat_add64], ...).  The
      workspace sets no overflow checks for release builds, so [+] wraps.
    - [exec] is code that may panic ([Panic]) or read uninitialised memory
      ([Undef]); [result] is [Result]; an index out of range panics.
    - [returns m Q] is total correctness: [m] comes back, with a value in [Q].
    - Shared objects (an [Arc], a channel, a cancellation token) are numbers
      or maps in an explicit state.  Tasks interleave at the lock sections and
      awaits of the source, which are separate definitions; "however tasks
      interleave" is a theorem over the reflexive transitive closure of a step
      relation, or over the inductive set of reachable states.
    - What an await waits for is an argument: an arbitrary run of the other
      tasks, or the result of the task that is joined.
    - Code of other crates is an argument of the definitions that use it, with
      its documented laws as hypotheses of the section: base64, the ciphers
      and digests, tokio's [DelayQueue] (classes [DelayQueue] and
      [DelayQueueFires]), bounded channel (class [Channel]), broadcast channel
      (class [Broadcast]) and [Notify] (class [Notify]), [AsyncWrite], tonic's
      header values and builders, fern's dispatch tree
      (class [Fern]), serde and YAML, the SQL engine (class [Engine]), the
      calls of the operating system (class [Os], functions over a map of
      files), sysinfo's objects, the splitters (class [Splitter]) and
      dispatchers of the applications.  Each such theorem has a witness with a
      concrete instance.  Texts of foreign errors are placeholders.
    - Time is a number of nanoseconds (in [Daemon] of milliseconds) and always
      an argument.

    ** The parts, their files, and what the theorems show

    This file: outcomes, machine integers, the loop rule of [exec], lists.
    [Bytes] and [Text]: bytes, UTF-8, formatting and parsing of numbers, lines
    and fields, shared by the codecs and the parsers.

    The expiring key set, base/src/cache/c100k.rs.  [Wheel] has the slab with
    its free list and version counters, the hash index, the three wheels
    ([schedule], [cascade_l2], [cascade_l3]), the tick ([tick_once],
    [on_tick]), the commands ([handle]) and the task ([run]); [Cache] is the
    sharded front end.  [WheelSlab] is the representation invariant of slab
    and index, [WheelTime] the invariant of the buckets, [WheelInv] the
    invariant [wf] and its preservation, [WheelSpec] the abstract map from
    keys to deadlines, and [WheelProps] the guarantees: a shard's task refines
    that map and never panics or reads a slot without a key; keys expire in
    time, and never early; each expiry is reported once.  [WheelCache] puts the
    front end, the command channels, the shards and the shared event channel
    together: under every interleaving they are one expiring map.
    [WheelTrace] tells the life of a key from that map alone, up to pointwise
    equality: it stays until its deadline and is gone after it.

    The cache with time-to-live, base/src/cache/mod.rs, in [TtlCache]: client
    calls, timer worker and callback worker as steps.  An insert and a remove
    are two steps each, one on the map and one on the command queue, with
    anything in between.  No call on the timer queue panics, no key has two
    timers, an expiry takes one key whose timer is due, and for a key whose
    own inserts and removes do not overlap ([exclusive]) timers and values
    agree once the worker caught up.  [TtlWorker]: however the worker picks
    between commands and timers it comes to rest, with no timer due.

    Errors, exception/src and base/src/err.rs and base_rpc/src/error.rs, in
    [Errors]: values with the lines their logging closures received, the
    registry of outputs, the codes and their gRPC status.

    The typed bus, base/src/bus/mpsc.rs, in [Bus]: messages of a type arrive
    in order, with their type, under every interleaving.  The broadcast bus,
    base/src/bus/broadcast.rs, in [Broadcast], over [Bus]'s boxed messages:
    receivers that do not lag get everything sent since they subscribed,
    however publishers, subscribers and the clean-up task interleave.

    Managed runtimes, base/src/utils/rt.rs, in [Runtime]: registry and
    handles over a heap of shared entries, task guards, ordered shutdown.
    No task is lost or counted twice; the shutdown order; every stage gets
    its share of the time; what the reports and the outcome mean.
    [RuntimeGraceful]: without panics and with tasks that end in time, the
    shutdown is graceful and the reports account for every task.
    [RuntimeExit]: creation of runtimes, the wait for the exit signal of
    base/src/daemon/signal.rs, and [order_shutdown] as a whole with its log.

    Packet input and output, base/src/net/rw.rs.  [NetFrame]: prefixes,
    encoders, vectored writes.  [NetWriter]: sinks and their registry, all
    write paths, close; [NetSinks]: every sink that was ever handed out;
    [NetWait]: the wait for a peer's sink.
    [NetClose]: reports, listener, endpoints and connections with close
    futures that may be dropped and resumed, and outgoing connections;
    [NetHandle]: sinks, connect reservations and reference-counted handles,
    and the drops that cancel.  [NetConn]: the tasks of a connection, turn by
    turn.  [NetDelivery]: from a write call over channel, write task and
    stream to the peer; [NetInbound]: from the peer's stream over the read
    loop to its dispatcher, against the class [Splitter]; [NetDirect]: the same
    for direct writes, many tasks under one lock.  [NetEndpoint]: the
    close of an endpoint, await by await over the runs of its tasks, which end
    because the close cancels their tokens.  [NetStart]: from
    bound sockets to these tasks, all of them or none.  [NetState] has the
    values of base/src/net/state.rs and the binding of listen.rs.  What the
    theorems show: accepted data reaches the peer's dispatcher in order,
    however it is cut; the two maps of the registry agree under every
    interleaving and stay empty after a close, and no sink handed out before
    takes data then; no wakeup is lost; no connection's task is lost sight of; a connect adds
    one connection or closes and awaits the one it spawned; cancelled tasks
    end, so a close does, with everything awaited and counted once; a close
    that is dropped and resumed reports the same, but for a failed shutdown of
    a stream.

    Logging, base/src/logger.rs, in [Logger]: the dispatch tree that is built
    from the configuration routes every record as the configuration reads.

    Configuration.  [Constructor] (macros/constructor): the derive macros Get,
    Set and New from a parsed item to methods, the typing of these and what
    they compute.  [Config] (macros/cfg_lib): the [conf] attribute with its
    arguments, the code it emits, and the start-up that checks every
    registered type, each with its own deserialiser ([Struct]).  [Yaml]: the macros that load single fields.

    Daemon control, base/src/daemon, in [Daemon]: pid file, signals, and the
    commands start, stop, restart and status, over [Config]'s world.  Stopping
    ends within its time, with its calls and its answer told exactly for every
    branch, and a process that ends in time is stopped without force.

    Databases, base_db/src, in [Db]: migrations are applied in order, each
    once, across failures and reruns; backups and restores are verified, over
    a file system where two paths may name one file.

    RPC set-up, base_rpc/src and base_rpc_build/src, in [Rpc]: configuration,
    certificates and what they make a server demand, delays of the retry
    policy, include paths of the build job.

    Small parts: [Dig62] and [Token] and [Crypto] (base/src/utils), [Episode]
    (base/src/logger/episode.rs), [Interceptor] and [Supervisor]
    and [SupervisorWatch] (base_rpc/src), [Metrics] and [Collector]
    (sys_metrics/src/lib.rs): round trips of the codecs and parsers,
    accounting of failures, the state machine of supervised streams, its
    progress and what its watchers see, rounding of the metrics and their sum
    over a run of samples.

    Sections named "What modelling showed" hold examples of behaviour that
    surprises: a key due at a multiple of 512 ticks expires one tick late,
    stale wheel tokens of a reused slot come to life again, a due timer evicts
    a value stored in its place meanwhile, two inserts of one key that race
    leave a value that never expires, a failing splitter leaves its
    connection registered, a close that is dropped leaves sinks open and forgets failures, a
    queued write under way is not cancelled and keeps a close waiting, a direct
    one that is dropped tears the stream, a late
    reporter overwrites the stopped state, the clean-up of the broadcast bus can cut off a new subscriber, a stop counts
    another user's process as gone, a restore can destroy what it replaces, or
    what it restores when both are one file,
    client authentication follows the authority file and not its mode, and a
    few inputs that make fallible functions panic.

    ** Bounds and fuel

    - [Wheel.tick_loop] has the ticks left to its target as fuel, at most
      [MAX_CATCHUP]; [WheelInv.tick_loop_spec] shows that it reaches the
      target.
    - [NetFrame.vectored_loop] has the number of bytes to write as fuel: each
      turn writes at least one or ends; [write_encoded_packet_spec] shows
      that a result always comes.
    - [NetClose.close_connections] passes over the active connections until
      none is left; [close_connections_spec] shows that one pass is enough,
      since a closing endpoint registers no new one.
    - [NetInbound.cut_frames] has the length of the buffer, and its splitter's
      [feed] the bytes it stands for: each turn takes a length of two bytes;
      [cut_frames_fuel] and [feed_spec] show that this is enough.
    - [Dig62.chunks_go] has the length of the list, each chunk takes one or
      more elements.
    - [Daemon.wait_loop] has one unit per poll of 200 ms and one for the last
      look at the clock; [wait_total] shows that a result always comes.
    - [Broadcast.cleanup] removes as often as it collected.
    - Counts of tasks and of connections in reports are natural numbers: they
      are bounded by the tasks that ever existed.

    ** Not modelled

    Module roots and re-exports, and what other crates do with the values they
    are given (tokio's runtimes, tonic's transport, sqlx's pools, fern's
    files).  The turns of a shard's tick and of a command have no await and
    are single steps; so is a write of the write task.  Poisoned locks are
    recovered by the source and have no counterpart.  A select with a
    cancelled token picks at random among its ready branches: [NetEndpoint]
    lets it make any number of turns by the others and then takes it to its
    cancelled branch, that is, it leaves out the run in which the random
    choice never falls on it.  [NetHandle] takes the end of a connect, from
    the number to the registration, as one step, where [NetClose] has the
    await between the two.  [NetDirect] has no step for a direct write that is
    dropped half way; the example [dropped_write_tears_stream] has.  The
    floating-point fields of [Supervisor]'s retry policy are left out, and
    with them panics of its delay and of the connector; [Rpc] has the delay.
    The typing of [Constructor] does not know unsized fields, packed structs
    or [Drop].  Scripts of migrations with a [COMMIT] of their own are outside
    [Db]'s laws. *)
From stdpp Require Export base numbers strings gmap fin_maps list.

(** ** Outcomes of Rust code

    [exec A] is what running a piece of Rust code can give: a value, a
    panic (out-of-range index, failed [expect]), or undefined behaviour (an
    [unsafe] read of memory that was never initialised). *)

Inductive exec (A : Type) : Type :=
  | Ret (a : A)
  | Panic
  | Undef.
Arguments Ret {A} a.
Arguments Panic {A}.
Arguments Undef {A}.

#[export] Instance exec_ret : MRet exec := @Ret.
#[export] Instance exec_bind : MBind exec := λ A B k m,
  match m with
  | Ret a => k a
  | Panic => Panic
  | Undef => Undef
  end.

(** A loop over a vector that threads a state: [for x in xs { s = f(s, x) }]. *)
Fixpoint exec_fold {St A : Type} (f : St → A → exec St) (s : St) (xs : list A) : exec St :=
  match xs with
  | [] => Ret s
  | x :: xs => f s x ≫= λ s', exec_fold f s' xs
  end.

(** [returns m Q]: the code [m] comes back with a value, and the value
    satisfies [Q].  It is a total-correctness statement: a panic and an
    undefined behaviour both falsify it. *)
Definition returns {A : Type} (m : exec A) (Q : A → Prop) : Prop :=
  match m with
  | Ret a => Q a
  | Panic | Undef => False
  end.

(** [Result<T, E>]. *)
Inductive result (A E : Type) : Type :=
  | Ok (a : A)
  | Err (e : E).
Arguments Ok {A E} a.
Arguments Err {A E} e.

Definition is_ok {A E : Type} (r : result A E) : bool :=
  match r with Ok _ => true | Err _ => false end.

(** The [?] operator. *)
Definition result_bind {A B E : Type} (m : result A E) (k : A → result B E) : result B E :=
  match m with
  | Ok a => k a
  | Err e => Err e
  end.
Notation "'let?' x ':=' m 'in' k" := (result_bind m (λ x, k))
  (at level 10, x name, m at level 100, k at level 200).

(** ** Machine integers

    An unsigned integer of width [w] is an [N] below [2 ^ w]. *)

Declare Scope machine_scope.
Delimit Scope machine_scope with machine.

Definition u8_mod : N := 256.
Definition u16_max : N := 65535.
Definition u32_mod : N := 4294967296.
Definition u32_max : N := 4294967295.
Definition u64_mod : N := 18446744073709551616.
Definition u64_max : N := 18446744073709551615.
Definition u128_max : N := 340282366920938463463374607431768211455.

(** Wrapping addition, the release-profile [+]. *)
Definition wadd32 (a b : N) : N := ((a + b) mod u32_mod)%N.
Definition wadd64 (a b : N) : N := ((a + b) mod u64_mod)%N.
Definition as_u32 (a : N) : N := (a mod u32_mod)%N.
Definition as_u64 (a : N) : N := (a mod u64_mod)%N.
(** [saturating_add] and [saturating_mul]; [saturating_sub] is [N.sub]. *)
Definition sat_add64 (a b : N) : N := N.min (a + b) u64_max.
Definition sat_mul64 (a b : N) : N := N.min (a * b) u64_max.

Notation "a +₃₂ b" := (wadd32 a b) (at level 50, left associativity) : machine_scope.
Notation "a +₆₄ b" := (wadd64 a b) (at level 50, left associativity) : machine_scope.

(** ** Tactics *)

Ltac unfold_machine :=
  unfold wadd32, wadd64, as_u32, as_u64, sat_add64, sat_mul64,
    u8_mod, u16_max, u32_mod, u32_max, u64_mod, u64_max, u128_max in *.

(** [lia] with division and modulo by a positive quantity. *)
Ltac lia_div := zify; Z.to_euclidean_division_equations; lia.

(** Case analysis on the boolean comparisons of [N] in the goal. *)
Ltac case_N :=
  match goal with
  | |- context [(?a <? ?b)%N] => destruct (N.ltb_spec a b)
  | |- context [(?a <=? ?b)%N] => destruct (N.leb_spec a b)
  | |- context [(?a =? ?b)%N] => destruct (N.eqb_spec a b)
  end.

(** ** The [exec] monad *)

Create HintDb exec_db.

Section exec_lemmas.
Context {A B : Type}.

Lemma returns_mono (m : exec A) (P Q : A → Prop) :
  returns m P → (∀ a, P a → Q a) → returns m Q.
Proof. destruct m; simpl; auto. Qed.

Lemma returns_bind (m : exec A) (k : A → exec B) (Q : B → Prop) :
  returns m (λ a, returns (k a) Q) → returns (m ≫= k) Q.
Proof. by destruct m. Qed.

Lemma returns_Ret (m : exec A) (Q : A → Prop) :
  returns m Q ↔ ∃ a, m = Ret a ∧ Q a.
Proof. destruct m; simpl; naive_solver. Qed.

Lemma returns_and (m : exec A) (P Q : A → Prop) :
  returns m P → returns m Q → returns m (λ a, P a ∧ Q a).
Proof. by destruct m. Qed.

Lemma bind_Ret (m : exec A) (k : A → exec B) (b : B) :
  (m ≫= k) = Ret b ↔ ∃ a, m = Ret a ∧ k a = Ret b.
Proof. destruct m; cbn; naive_solver. Qed.

End exec_lemmas.

Section exec_fold_lemmas.
Context {A St : Type}.

(** The loop rule: [I rest s] relates the state to the items still to come. *)
Lemma returns_fold (f : St → A → exec St) (I : list A → St → Prop) (xs : list A) (s : St) :
  (∀ x xs' s', I (x :: xs') s' → returns (f s' x) (I xs')) →
  I xs s → returns (exec_fold f s xs) (I []).
Proof.
  intros Hf. revert s. induction xs as [|x xs IH]; intros s HI; [done|].
  simpl. apply returns_bind, (returns_mono _ (I xs)); [by apply Hf|]. auto.
Qed.

Lemma exec_fold_app (f : St → A → exec St) (xs ys : list A) (s : St) :
  exec_fold f s (xs ++ ys) = exec_fold f s xs ≫= λ s', exec_fold f s' ys.
Proof.
  revert s. induction xs as [|x xs IH]; intros s; [done|].
  simpl. destruct (f s x); cbn; auto.
Qed.
End exec_fold_lemmas.

#[export] Hint Resolve returns_bind : exec_db.

(** ** Lists and options *)

Section list_lemmas.
Context {A : Type}.

(** [Vec::swap_remove]: the last element takes the place of the removed one. *)
Definition swap_remove (i : nat) (l : list A) : list A :=
  match last l with
  | Some x => take (length l - 1) (<[i := x]> l)
  | None => l
  end.

Lemma swap_remove_perm (i : nat) (l : list A) (y : A) :
  l !! i = Some y → l ≡ₚ y :: swap_remove i l.
Proof.
  intros Hi. destruct l as [|z l' _] using rev_ind; [done|].
  unfold swap_remove. rewrite last_snoc, length_app. simpl.
  replace (length l' + 1 - 1) with (length l') by lia.
  apply lookup_app_Some in Hi as [Hi|[Hlen Hi]].
  - rewrite insert_app_l by by eapply lookup_lt_Some.
    rewrite take_app_length' by by rewrite length_insert.
    apply list_elem_of_split_length in Hi as (l1 & l2 & -> & ->).
    rewrite insert_app_r_alt, Nat.sub_diag by lia. simpl.
    solve_Permutation.
  - apply list_lookup_singleton_Some in Hi as [Hi ->].
    assert (i = length l') as -> by lia.
    rewrite insert_app_r_alt, Nat.sub_diag by lia. simpl.
    rewrite take_app_length. solve_Permutation.
Qed.

Lemma NoDup_fmap_filter {B : Type} (f : A → B) (P : A → Prop) `{!∀ x, Decision (P x)} (l : list A) :
  NoDup (f <$> l) → NoDup (f <$> filter P l).
Proof.
  induction l as [|x l IH]; [done|]. rewrite fmap_cons. intros [Hni Hn]%NoDup_cons.
  rewrite filter_cons. case_decide; [|by apply IH]. rewrite fmap_cons. constructor; [|by apply IH].
  intros (y & Hy & [_ Hin]%list_elem_of_filter)%list_elem_of_fmap.
  apply Hni. rewrite Hy. by apply list_elem_of_fmap_2.
Qed.

Lemma filter_Forall_id (P : A → Prop) `{!∀ x, Decision (P x)} (l : list A) :
  Forall P l → filter P l = l.
Proof. induction 1; [done|]. rewrite filter_cons_True by done. by f_equal. Qed.
End list_lemmas.
