(* ===== verification/Wheel.v ===== *)
(** * The hierarchical timing wheel (base/src/cache/c100k.rs)

    One shard of the expiring key set: a slab of entries with an intrusive
    free list, an index from key hashes to slab slots, and three levels of
    time buckets.  [Shard.handle] and [Shard.on_tick] are the two things the
    shard's task does ([Shard.run]); [Cache] is the sharded front end.

    The slab's [unsafe] code is modelled with an [option K] per slot: [None]
    is memory that holds no key, and reading it is [Undef]. *)
From S2P Require Import Prelude.

Definition SHARDS : N := 4.
Definition WHEEL_L1 : N := 512.
Definition WHEEL_L2 : N := 128.
Definition WHEEL_L3 : N := 128.
Definition MAX_CATCHUP : N := 1024.
Definition TICK_MS : N := 200.
Definition BATCH : nat := 64.
Definition COMPACT_THRESHOLD : nat := 1024.

#[global] Arguments BATCH : simpl never.
#[global] Arguments COMPACT_THRESHOLD : simpl never.

Record CacheEvent (K : Type) := mkEvent {
  ev_key : K;
  ev_hash : N;
  ev_version : N;
}.
Arguments mkEvent {K}.
Arguments ev_key {K}.
Arguments ev_hash {K}.
Arguments ev_version {K}.

Inductive Command (K : Type) :=
  | Insert (key : K) (ttl : N)
  | Refresh (key : K)
  | Delete (key : K).
Arguments Insert {K}.
Arguments Refresh {K}.
Arguments Delete {K}.

Record Entry (K : Type) := mkEntry {
  e_key : option K;
  e_hash : N;
  e_version : N;
  e_expire_tick : N;
  e_ttl_tick : N;
  e_next_free : N;
  e_in_use : bool;
}.
Arguments mkEntry {K}.
Arguments e_key {K}.
Arguments e_hash {K}.
Arguments e_version {K}.
Arguments e_expire_tick {K}.
Arguments e_ttl_tick {K}.
Arguments e_next_free {K}.
Arguments e_in_use {K}.

(** A reference to an entry stored in a bucket: slot and version. *)
Definition token : Type := N * N.

Record Shard (K Tx : Type) := mkShard {
  entries : list (Entry K);
  free_head : N;
  index_map : gmap N (list N);
  wheel_l1 : list (list token);
  wheel_l2 : list (list token);
  wheel_l3 : list (list token);
  tick : N;
  start : N;
  event_tx : Tx;
  batch : list (CacheEvent K);
}.
Arguments mkShard {K Tx}.
Arguments entries {K Tx}.
Arguments free_head {K Tx}.
Arguments index_map {K Tx}.
Arguments wheel_l1 {K Tx}.
Arguments wheel_l2 {K Tx}.
Arguments wheel_l3 {K Tx}.
Arguments tick {K Tx}.
Arguments start {K Tx}.
Arguments event_tx {K Tx}.
Arguments batch {K Tx}.

(** ** Entry *)

Section Entry.
Context {K : Type}.
Implicit Types e : Entry K.

Definition new_empty (next_free : N) : Entry K :=
  mkEntry None 0 0 0 0 next_free false.

(** [Entry::write]; the [+] wraps at 64 bits. *)
Definition write (e : Entry K) (key : K) (hash ttl_tick now_tick : N) : Entry K :=
  mkEntry (Some key) hash 1 (wadd64 now_tick ttl_tick) ttl_tick (e_next_free e) true.

(** [Entry::key]: [assume_init_ref]. *)
Definition key_ref e : exec K :=
  match e_key e with Some k => Ret k | None => Undef end.

(** [Entry::drop_key]: dropping memory that holds no key is undefined. *)
Definition drop_key e : exec (Entry K) :=
  match e_key e with
  | Some _ => Ret (mkEntry None (e_hash e) (e_version e) (e_expire_tick e)
                     (e_ttl_tick e) (e_next_free e) (e_in_use e))
  | None => Undef
  end.

(** [Entry::take_key]: clears [in_use] and moves the key out. *)
Definition take_key e : exec (K * Entry K) :=
  match e_key e with
  | Some k => Ret (k, mkEntry None (e_hash e) (e_version e) (e_expire_tick e)
                        (e_ttl_tick e) (e_next_free e) false)
  | None => Undef
  end.

(** The field assignments [e.in_use = b; e.next_free = i] of the slab. *)
Definition set_in_use (b : bool) e : Entry K :=
  mkEntry (e_key e) (e_hash e) (e_version e) (e_expire_tick e) (e_ttl_tick e) (e_next_free e) b.
Definition set_next_free (i : N) e : Entry K :=
  mkEntry (e_key e) (e_hash e) (e_version e) (e_expire_tick e) (e_ttl_tick e) i (e_in_use e).
(** [e.version += 1; e.expire_tick = now + e.ttl_tick] of a refresh. *)
Definition bump (now : N) e : Entry K :=
  mkEntry (e_key e) (e_hash e) (wadd32 (e_version e) 1) (wadd64 now (e_ttl_tick e))
    (e_ttl_tick e) (e_next_free e) (e_in_use e).
End Entry.

(** ** Shard *)

Section Shard.
Context {K : Type} `{EqDecision K}.
(** [HASHER.hash_one], the process-wide random hasher. *)
Context (hash : K → N).
(** The bounded event channel: [try_send] answers whether it took the batch. *)
Context {Tx : Type} (try_send : Tx → list (CacheEvent K) → Tx * bool).
Implicit Types s : Shard K Tx.

Definition set_entries (es : list (Entry K)) s : Shard K Tx :=
  mkShard es (free_head s) (index_map s) (wheel_l1 s) (wheel_l2 s) (wheel_l3 s)
    (tick s) (start s) (event_tx s) (batch s).
Definition set_free_head (i : N) s : Shard K Tx :=
  mkShard (entries s) i (index_map s) (wheel_l1 s) (wheel_l2 s) (wheel_l3 s)
    (tick s) (start s) (event_tx s) (batch s).
Definition set_index_map (m : gmap N (list N)) s : Shard K Tx :=
  mkShard (entries s) (free_head s) m (wheel_l1 s) (wheel_l2 s) (wheel_l3 s)
    (tick s) (start s) (event_tx s) (batch s).
Definition set_l1 (w : list (list token)) s : Shard K Tx :=
  mkShard (entries s) (free_head s) (index_map s) w (wheel_l2 s) (wheel_l3 s)
    (tick s) (start s) (event_tx s) (batch s).
Definition set_l2 (w : list (list token)) s : Shard K Tx :=
  mkShard (entries s) (free_head s) (index_map s) (wheel_l1 s) w (wheel_l3 s)
    (tick s) (start s) (event_tx s) (batch s).
Definition set_l3 (w : list (list token)) s : Shard K Tx :=
  mkShard (entries s) (free_head s) (index_map s) (wheel_l1 s) (wheel_l2 s) w
    (tick s) (start s) (event_tx s) (batch s).
Definition set_tick (t : N) s : Shard K Tx :=
  mkShard (entries s) (free_head s) (index_map s) (wheel_l1 s) (wheel_l2 s) (wheel_l3 s)
    t (start s) (event_tx s) (batch s).
Definition set_out (tx : Tx) (b : list (CacheEvent K)) s : Shard K Tx :=
  mkShard (entries s) (free_head s) (index_map s) (wheel_l1 s) (wheel_l2 s) (wheel_l3 s)
    (tick s) (start s) tx b.

(** [Shard::new]: slot [i] links to slot [i + 1], cast to 32 bits. *)
Definition new (capacity : nat) (now : N) (tx : Tx) : Shard K Tx :=
  mkShard ((λ i, new_empty (as_u32 (N.of_nat (i + 1)))) <$> seq 0 capacity)
    0 ∅
    (replicate (N.to_nat WHEEL_L1) []) (replicate (N.to_nat WHEEL_L2) [])
    (replicate (N.to_nat WHEEL_L3) [])
    0 now tx [].

(** [self.entries[idx as usize]], for reading and for writing. *)
Definition entry_at s (idx : N) : exec (Entry K) :=
  match entries s !! N.to_nat idx with Some e => Ret e | None => Panic end.
Definition put_entry s (idx : N) (e : Entry K) : exec (Shard K Tx) :=
  match entries s !! N.to_nat idx with
  | Some _ => Ret (set_entries (<[N.to_nat idx := e]> (entries s)) s)
  | None => Panic
  end.

Definition alloc s : exec (option N * Shard K Tx) :=
  let idx := free_head s in
  if (N.of_nat (length (entries s)) <=? idx)%N then Ret (None, s)
  else
    e ← entry_at s idx;
    Ret (Some idx, set_free_head (e_next_free e) s).

Definition free s (idx : N) : exec (Shard K Tx) :=
  e ← entry_at s idx;
  e ← (if e_in_use e then drop_key e else Ret e);
  s ← put_entry s idx (set_next_free (free_head s) (set_in_use false e));
  Ret (set_free_head idx s).

Definition insert_index s (h idx : N) : Shard K Tx :=
  set_index_map (<[h := default [] (index_map s !! h) ++ [idx]]> (index_map s)) s.

Definition remove_index s (h idx : N) : Shard K Tx :=
  match index_map s !! h with
  | None => s
  | Some v =>
      let v := match list_find (idx =.) v with
               | Some (pos, _) => swap_remove pos v
               | None => v
               end in
      set_index_map (if decide (v = []) then delete h (index_map s)
                     else <[h := v]> (index_map s)) s
  end.

(** The loop of [find_entry] over the slots that share a hash. *)
Fixpoint find_in s (key : K) (list : list N) : exec (option N) :=
  match list with
  | [] => Ret None
  | idx :: rest =>
      e ← entry_at s idx;
      if e_in_use e then
        k ← key_ref e;
        if decide (k = key) then Ret (Some idx) else find_in s key rest
      else find_in s key rest
  end.

Definition find_entry s (key : K) (h : N) : exec (option N) :=
  match index_map s !! h with
  | None => Ret None
  | Some list => find_in s key list
  end.

(** [wheel[slot].push(token)] and [std::mem::take(&mut wheel[slot])]. *)
Definition push_slot (w : list (list token)) (slot : N) (t : token) : exec (list (list token)) :=
  match w !! N.to_nat slot with
  | Some b => Ret (<[N.to_nat slot := b ++ [t]]> w)
  | None => Panic
  end.
Definition take_slot (w : list (list token)) (slot : N) : exec (list token * list (list token)) :=
  match w !! N.to_nat slot with
  | Some b => Ret (b, <[N.to_nat slot := []]> w)
  | None => Panic
  end.

Definition schedule s (idx : N) : exec (Shard K Tx) :=
  e ← entry_at s idx;
  if (e_expire_tick e <=? tick s)%N then
    w ← push_slot (wheel_l1 s) (wadd64 (tick s) 1 mod WHEEL_L1) (idx, e_version e);
    Ret (set_l1 w s)
  else
    let diff := (e_expire_tick e - tick s)%N in
    if (diff <? WHEEL_L1)%N then
      w ← push_slot (wheel_l1 s) (e_expire_tick e mod WHEEL_L1) (idx, e_version e);
      Ret (set_l1 w s)
    else if (diff <? WHEEL_L1 * WHEEL_L2)%N then
      w ← push_slot (wheel_l2 s) ((e_expire_tick e / WHEEL_L1) mod WHEEL_L2) (idx, e_version e);
      Ret (set_l2 w s)
    else
      w ← push_slot (wheel_l3 s) ((e_expire_tick e / (WHEEL_L1 * WHEEL_L2)) mod WHEEL_L3)
            (idx, e_version e);
      Ret (set_l3 w s).

(** [e.in_use && e.version == ver]: the token still refers to the entry. *)
Definition live (e : Entry K) (ver : N) : bool := e_in_use e && (e_version e =? ver)%N.

(** The loop body the two cascades share. *)
Definition recast s (t : token) : exec (Shard K Tx) :=
  e ← entry_at s t.1;
  if live e t.2 then schedule s t.1 else Ret s.

Definition cascade_l2 s : exec (Shard K Tx) :=
  '(bucket, w) ← take_slot (wheel_l2 s) ((tick s / WHEEL_L1) mod WHEEL_L2);
  exec_fold recast (set_l2 w s) bucket.

Definition cascade_l3 s : exec (Shard K Tx) :=
  '(bucket, w) ← take_slot (wheel_l3 s) ((tick s / (WHEEL_L1 * WHEEL_L2)) mod WHEEL_L3);
  exec_fold recast (set_l3 w s) bucket.

(** [let _ = self.event_tx.try_send(std::mem::take(&mut self.batch))]. *)
Definition flush s : Shard K Tx :=
  set_out (try_send (event_tx s) (batch s)).1 [] s.

(** One iteration of [process_bucket]. *)
Definition process_token s (t : token) : exec (Shard K Tx) :=
  let '(idx, ver) := t in
  e ← entry_at s idx;
  if negb (live e ver) then Ret s
  else if (tick s <? e_expire_tick e)%N then schedule s idx
  else
    '(key, e') ← take_key e;
    s ← put_entry s idx e';
    let s := remove_index s (e_hash e) idx in
    e' ← entry_at s idx;
    s ← put_entry s idx (set_next_free (free_head s) e');
    let s := set_free_head idx s in
    let s := set_out (event_tx s) (batch s ++ [mkEvent key (e_hash e) (e_version e)]) s in
    Ret (if (BATCH <=? length (batch s))%nat then flush s else s).

Definition process_bucket s (bucket : list token) : exec (Shard K Tx) :=
  exec_fold process_token s bucket.

(** [bucket.retain(..)] of an overlong bucket. *)
Fixpoint retain s (bucket : list token) : exec (list token) :=
  match bucket with
  | [] => Ret []
  | t :: rest =>
      e ← entry_at s t.1;
      rest ← retain s rest;
      Ret (if live e t.2 then t :: rest else rest)
  end.

(** The body of the [while] loop of [on_tick]. *)
Definition tick_once s : exec (Shard K Tx) :=
  let s := set_tick (wadd64 (tick s) 1) s in
  s ← (if (tick s mod WHEEL_L1 =? 0)%N then
         s ← cascade_l2 s;
         if ((tick s / WHEEL_L1) mod WHEEL_L2 =? 0)%N then cascade_l3 s else Ret s
       else Ret s);
  '(bucket, w) ← take_slot (wheel_l1 s) (tick s mod WHEEL_L1);
  let s := set_l1 w s in
  bucket ← (if (COMPACT_THRESHOLD <? length bucket)%nat then retain s bucket else Ret bucket);
  process_bucket s bucket.

(** [while self.tick < target { .. }]; the fuel is the number of ticks left. *)
Fixpoint tick_loop (fuel : nat) (target : N) s : exec (Shard K Tx) :=
  match fuel with
  | O => Ret s
  | S fuel =>
      if (tick s <? target)%N then s ← tick_once s; tick_loop fuel target s else Ret s
  end.

(** [(now - start).as_millis() as u64 / TICK_MS]; instants are nanoseconds. *)
Definition expected_tick s (now : N) : N :=
  (as_u64 ((now - start s) / 1000000) / TICK_MS)%N.

Definition on_tick s (now : N) : exec (Shard K Tx) :=
  let target := N.min (expected_tick s now) (wadd64 (tick s) MAX_CATCHUP) in
  s ← tick_loop (N.to_nat (target - tick s)) target s;
  Ret (if decide (batch s = []) then s else flush s).

Definition insert s (key : K) (ttl_tick : N) : exec (Shard K Tx) :=
  let h := hash key in
  old ← find_entry s key h;
  s ← match old with
      | Some old_idx => free (remove_index s h old_idx) old_idx
      | None => Ret s
      end;
  '(slot, s) ← alloc s;
  match slot with
  | Some idx =>
      e ← entry_at s idx;
      s ← put_entry s idx (write e key h ttl_tick (tick s));
      schedule (insert_index s h idx) idx
  | None => Ret s
  end.

Definition refresh s (key : K) : exec (Shard K Tx) :=
  let h := hash key in
  found ← find_entry s key h;
  match found with
  | Some idx =>
      e ← entry_at s idx;
      s ← put_entry s idx (bump (tick s) e);
      schedule s idx
  | None => Ret s
  end.

Definition delete s (key : K) : exec (Shard K Tx) :=
  let h := hash key in
  found ← find_entry s key h;
  match found with
  | Some idx => free (remove_index s h idx) idx
  | None => Ret s
  end.

Definition handle s (cmd : Command K) : exec (Shard K Tx) :=
  match cmd with
  | Insert key ttl => insert s key ttl
  | Refresh key => refresh s key
  | Delete key => delete s key
  end.

(** What [cmd_rx.try_recv] reports once the queued commands are drained. *)
Inductive drained := Empty | Disconnected.

(** One turn of the outer loop of [Shard::run]: drain the commands, then
    wait for the ticker and tick; [inr] is the task's return. *)
Definition run_turn s (inbox : list (Command K)) (d : drained) (now : N) :
    exec (Shard K Tx + Shard K Tx) :=
  s ← exec_fold handle s inbox;
  match d with
  | Disconnected => Ret (inr (if decide (batch s = []) then s else flush s))
  | Empty => s ← on_tick s now; Ret (inl s)
  end.

(** [Shard::run]: the turns while some sender is left, each with the
    commands queued by then and the time of the tick, and the last drain. *)
Fixpoint run s (turns : list (list (Command K) * N)) (last : list (Command K)) :
    exec (Shard K Tx) :=
  match turns with
  | [] =>
      r ← run_turn s last Disconnected (start s);
      Ret (match r with inl s | inr s => s end)
  | (inbox, now) :: turns =>
      r ← run_turn s inbox Empty now;
      match r with inl s => run s turns last | inr s => Ret s end
  end.
End Shard.

(** ** Cache, the sharded front end *)

Section Cache.
Context {K : Type} (hash : K → N).
(** The command channel of one shard: bounded, [try_send] may refuse. *)
Context {CTx E : Type} (cmd_try_send : CTx → Command K → CTx * result unit E).

(** The mask [hash & (shards.len() - 1)] of [Cache::shard]; the subtraction
    wraps on an empty vector, and indexing past the end panics. *)
Definition shard_index (shard_len : N) (h : N) : exec N :=
  let i := N.land h ((shard_len + u64_max) mod u64_mod) in
  if (i <? shard_len)%N then Ret i else Panic.

(** [Cache::ttl_to_tick]; a [Duration] is given in nanoseconds. *)
Definition ttl_to_tick (ttl : N) : N :=
  let ms := as_u64 (ttl / 1000000) in
  if (ms =? 0)%N then 1%N
  else if (0 <? ms mod TICK_MS)%N then (ms / TICK_MS + 1)%N else (ms / TICK_MS)%N.

(** [self.shard(h).try_send(cmd)]. *)
Definition send_to (shards : list CTx) (h : N) (cmd : Command K) :
    exec (list CTx * result unit E) :=
  i ← shard_index (N.of_nat (length shards)) h;
  match shards !! N.to_nat i with
  | Some tx =>
      let '(tx', r) := cmd_try_send tx cmd in
      Ret (<[N.to_nat i := tx']> shards, r)
  | None => Panic
  end.

Definition cache_insert (shards : list CTx) (key : K) (ttl : N) :=
  send_to shards (hash key) (Insert key (ttl_to_tick ttl)).
Definition cache_refresh (shards : list CTx) (key : K) :=
  send_to shards (hash key) (Refresh key).
Definition cache_delete (shards : list CTx) (key : K) :=
  send_to shards (hash key) (Delete key).
End Cache.
