(* ===== verification/WheelSlab.v ===== *)
(** * The slab of the timing wheel: free list, keys and index

    The representation invariant [slab_wf] of a shard's slab and hash index,
    and the effect of the two ways a slot changes hands: [vacate] (an entry
    is freed or expires) and [occupy] (a key takes a free slot). *)
From S2P Require Import Prelude Wheel.

(** The free list threaded through [next_free], from a head to the first
    index past the end. *)
Inductive free_chain {K : Type} (es : list (Entry K)) : N → list N → Prop :=
  | chain_nil h :
      (N.of_nat (length es) ≤ h)%N → free_chain es h []
  | chain_cons h e l :
      es !! N.to_nat h = Some e → e_in_use e = false →
      free_chain es (e_next_free e) l → free_chain es h (h :: l).

Section slab.
Context {K : Type} `{EqDecision K} (hash : K → N) {Tx : Type}.
Context (try_send : Tx → list (CacheEvent K) → Tx * bool).
Implicit Types s : Shard K Tx.

Definition slot s (idx : N) : option (Entry K) := entries s !! N.to_nat idx.
Definition indexed s (h : N) : list N := default [] (index_map s !! h).

Record slab_wf s : Prop := {
  sw_size : (N.of_nat (length (entries s)) < u32_mod)%N;
  sw_free : ∃ fl, free_chain (entries s) (free_head s) fl ∧ NoDup fl ∧
    ∀ idx e, slot s idx = Some e → (e_in_use e = false ↔ idx ∈ fl);
  sw_key : ∀ idx e, slot s idx = Some e →
    if e_in_use e then ∃ k, e_key e = Some k ∧ e_hash e = hash k else e_key e = None;
  sw_nodup : ∀ h, NoDup (indexed s h) ∧ index_map s !! h ≠ Some [];
  sw_index : ∀ h idx, idx ∈ indexed s h ↔
    ∃ e, slot s idx = Some e ∧ e_in_use e = true ∧ e_hash e = h;
  sw_uniq : ∀ i j e e', slot s i = Some e → slot s j = Some e' →
    e_in_use e = true → e_in_use e' = true → e_key e = e_key e' → i = j;
}.

(** [idx] is the live entry [e] of key [k]. *)
Definition holds s (k : K) (idx : N) (e : Entry K) : Prop :=
  slot s idx = Some e ∧ e_in_use e = true ∧ e_key e = Some k.

(** ** Slots *)

Lemma slot_insert s es idx j e :
  es = <[N.to_nat idx := e]> (entries s) → is_Some (slot s idx) →
  es !! N.to_nat j = if decide (idx = j) then Some e else slot s j.
Proof.
  intros -> [e' He']. unfold slot in *. case_decide as Hd.
  - subst j. apply list_lookup_insert_eq. by eapply lookup_lt_Some.
  - apply list_lookup_insert_ne. lia.
Qed.

Lemma slot_lt s idx e : slot s idx = Some e → (idx < N.of_nat (length (entries s)))%N.
Proof. intros H%lookup_lt_Some. lia. Qed.

Lemma entry_at_slot s idx e : slot s idx = Some e → entry_at s idx = Ret e.
Proof. unfold slot, entry_at. by intros ->. Qed.

Lemma put_entry_slot s idx e e' :
  slot s idx = Some e → put_entry s idx e' = Ret (set_entries (<[N.to_nat idx := e']> (entries s)) s).
Proof. unfold slot, put_entry. by intros ->. Qed.

(** ** The free chain *)

Lemma free_chain_update (es : list (Entry K)) h l i e :
  free_chain es h l → i ∉ l → free_chain (<[N.to_nat i := e]> es) h l.
Proof.
  induction 1 as [h Hh|h e' l Hh Hu Hc IH]; intros Hi.
  - constructor. by rewrite length_insert.
  - apply not_elem_of_cons in Hi as [Hne Hi].
    econstructor; [|done|by apply IH].
    rewrite list_lookup_insert_ne by lia. done.
Qed.

Lemma free_chain_head (es : list (Entry K)) h l :
  free_chain es h l → (h < N.of_nat (length es))%N →
  ∃ e l', es !! N.to_nat h = Some e ∧ e_in_use e = false ∧ l = h :: l' ∧
    free_chain es (e_next_free e) l'.
Proof. destruct 1; [lia|]. intros _. eauto 6. Qed.

Lemma free_chain_full (es : list (Entry K)) h l :
  free_chain es h l → (N.of_nat (length es) ≤ h)%N → l = [].
Proof. destruct 1 as [|h e l Hl]; [done|]. apply lookup_lt_Some in Hl. lia. Qed.

(** ** The hash index *)

Lemma list_find_eq (idx : N) (l : list N) :
  idx ∈ l → ∃ pos, list_find (idx =.) l = Some (pos, idx) ∧ l !! pos = Some idx.
Proof.
  intros Hin. destruct (list_find_elem_of (idx =.) l idx Hin eq_refl) as [[pos y] Hf].
  exists pos. pose proof Hf as Hf'. apply list_find_Some in Hf' as (Hl & <- & _). done.
Qed.

(** Removing a present index leaves the other members, in some order. *)
Lemma remove_index_indexed s h idx :
  NoDup (indexed s h) → idx ∈ indexed s h →
  let m := index_map (remove_index s h idx) in
  (∀ h', h' ≠ h → m !! h' = index_map s !! h') ∧ m !! h ≠ Some [] ∧
  NoDup (default [] (m !! h)) ∧
  (∀ j, j ∈ default [] (m !! h) ↔ j ∈ indexed s h ∧ j ≠ idx).
Proof.
  unfold indexed, remove_index. destruct (index_map s !! h) as [v|] eqn:Hm; simpl.
  2:{ intros _ []%not_elem_of_nil. }
  intros Hnd Hin. destruct (list_find_eq idx v Hin) as (pos & -> & Hpos). simpl.
  pose proof (swap_remove_perm pos v idx Hpos) as Hp.
  remember (swap_remove pos v) as w eqn:Hw. clear Hw.
  rewrite Hp in Hnd. apply NoDup_cons in Hnd as [Hni Hnd].
  assert (Hmem : ∀ j, j ∈ w ↔ j ∈ v ∧ j ≠ idx).
  { intros j. rewrite Hp, elem_of_cons. naive_solver. }
  case_decide as Hnil.
  - subst w. split_and!.
    + intros h' Hne. by rewrite lookup_delete_ne.
    + by rewrite lookup_delete_eq.
    + by rewrite lookup_delete_eq.
    + intros j. rewrite lookup_delete_eq. simpl. apply Hmem.
  - split_and!.
    + intros h' Hne. by rewrite lookup_insert_ne.
    + rewrite lookup_insert_eq. congruence.
    + by rewrite lookup_insert_eq.
    + intros j. rewrite lookup_insert_eq. simpl. apply Hmem.
Qed.

Lemma remove_index_frame s h idx :
  remove_index s h idx = set_index_map (index_map (remove_index s h idx)) s.
Proof. unfold remove_index. destruct s; simpl. by destruct (_ !! h). Qed.

Lemma find_in_spec s key l :
  slab_wf s → (∀ idx, idx ∈ l → ∃ e, slot s idx = Some e ∧ e_in_use e = true) →
  returns (find_in s key l) (λ r,
    match r with
    | Some idx => idx ∈ l ∧ ∃ e, holds s key idx e
    | None => ∀ idx e, idx ∈ l → ¬ holds s key idx e
    end).
Proof.
  intros Hwf. induction l as [|idx l IH]; intros Hl; simpl.
  { intros idx e []%not_elem_of_nil. }
  destruct (Hl idx) as (e & He & Hu); [left|].
  rewrite (entry_at_slot _ _ _ He). simpl. rewrite Hu.
  pose proof (sw_key s Hwf idx e He) as Hk. rewrite Hu in Hk. destruct Hk as (k & Hk & _).
  unfold key_ref. rewrite Hk. simpl. case_decide as Hd.
  - subst. simpl. split; [left|]. exists e. done.
  - eapply returns_mono; [apply IH; intros; apply Hl; by right|].
    intros [j|]; simpl.
    + intros [? ?]. split; [by right|done].
    + intros Hno j e' [->|Hin]%elem_of_cons Hh; [|by eapply Hno].
      destruct Hh as (Hs & _ & Hk'). congruence.
Qed.

(** [find_entry] finds the slot of a key if the key has one; it never reads
    a slot that holds no key. *)
Lemma find_entry_spec s key :
  slab_wf s →
  returns (find_entry s key (hash key)) (λ r,
    match r with
    | Some idx => ∃ e, holds s key idx e
    | None => ∀ idx e, ¬ holds s key idx e
    end).
Proof.
  intros Hwf. unfold find_entry.
  assert (Hall : ∀ idx e, holds s key idx e → idx ∈ indexed s (hash key)).
  { intros idx e (He & Hu & Hk). apply (sw_index s Hwf). exists e. split_and!; [done..|].
    pose proof (sw_key s Hwf idx e He) as Hk'. rewrite Hu in Hk'.
    destruct Hk' as (k & Hk' & ->). congruence. }
  unfold indexed in Hall. destruct (index_map s !! hash key) as [l|] eqn:Hm; simpl in *.
  2:{ intros idx e H. by apply Hall, not_elem_of_nil in H. }
  eapply returns_mono.
  { apply find_in_spec; [done|]. intros idx Hin.
    destruct (sw_index s Hwf (hash key) idx) as [H _].
    unfold indexed in H. rewrite Hm in H. simpl in H. destruct (H Hin) as (e & ? & ? & _). eauto. }
  intros [idx|]; simpl; [naive_solver|]. intros Hno idx e H. by eapply Hno; [eapply Hall|].
Qed.

(** The invariant only looks at the slab, the free head and the index. *)
Lemma slab_wf_ext s s' :
  entries s' = entries s → free_head s' = free_head s → index_map s' = index_map s →
  slab_wf s → slab_wf s'.
Proof.
  intros He Hf Hi []. unfold slot, indexed in *.
  split; unfold slot, indexed; rewrite ?He, ?Hf, ?Hi; done.
Qed.

(** ** Vacating a slot *)

Definition emptied (e : Entry K) (next : N) : Entry K :=
  mkEntry None (e_hash e) (e_version e) (e_expire_tick e) (e_ttl_tick e) next false.

(** The state after slot [idx], holding [e], has been freed or has expired. *)
Definition vacate s (idx : N) (e : Entry K) : Shard K Tx :=
  set_free_head idx
    (set_entries (<[N.to_nat idx := emptied e (free_head s)]> (entries s))
      (remove_index s (e_hash e) idx)).

Lemma vacate_slot s idx e j :
  slot s idx = Some e →
  slot (vacate s idx e) j =
    if decide (idx = j) then Some (emptied e (free_head s)) else slot s j.
Proof. intros He. unfold slot at 1. simpl. apply slot_insert; [done|by eexists]. Qed.

Lemma free_vacate s idx e :
  slab_wf s → slot s idx = Some e → e_in_use e = true →
  free (remove_index s (e_hash e) idx) idx = Ret (vacate s idx e).
Proof.
  intros Hwf He Hu. pose proof (sw_key s Hwf idx e He) as Hk.
  rewrite Hu in Hk. destruct Hk as (k & Hk & _).
  unfold free, vacate. rewrite remove_index_frame.
  rewrite (entry_at_slot _ idx e) by exact He. cbn. rewrite Hu. unfold drop_key. rewrite Hk. cbn.
  rewrite (put_entry_slot _ idx e) by exact He. done.
Qed.

Lemma vacate_wf s idx e :
  slab_wf s → slot s idx = Some e → e_in_use e = true → slab_wf (vacate s idx e).
Proof.
  intros Hwf He Hu. pose proof (vacate_slot s idx e) as Hslot.
  assert (Hidx : idx ∈ indexed s (e_hash e)) by (apply (sw_index s Hwf); eauto).
  destruct (sw_nodup s Hwf (e_hash e)) as [Hnd _].
  destruct (remove_index_indexed s (e_hash e) idx Hnd Hidx) as (Hother & Hne & Hnd' & Hmem).
  assert (Hold : ∀ j e', slot (vacate s idx e) j = Some e' → e_in_use e' = true →
                   slot s j = Some e' ∧ j ≠ idx).
  { intros j e' Hj Hu'. rewrite Hslot in Hj by done. case_decide; simplify_eq/=; done. }
  split.
  - simpl. rewrite length_insert. apply Hwf.
  - destruct (sw_free s Hwf) as (fl & Hc & Hndf & Hfl). exists (idx :: fl).
    assert (Hni : idx ∉ fl) by (rewrite <- (Hfl idx e He); congruence).
    split_and!.
    + simpl. apply (chain_cons _ _ (emptied e (free_head s))); [|done|].
      * apply list_lookup_insert_eq. by eapply lookup_lt_Some.
      * simpl. by apply free_chain_update.
    + by constructor.
    + intros j e' Hj. rewrite Hslot in Hj by done. rewrite elem_of_cons. case_decide as Hd.
      * simplify_eq. simpl. naive_solver.
      * rewrite (Hfl j e' Hj). naive_solver.
  - intros j e' Hj. rewrite Hslot in Hj by done. case_decide; simplify_eq/=; [done|].
    by apply (sw_key s Hwf j).
  - intros h. unfold indexed. simpl. destruct (decide (h = e_hash e)) as [->|Hh]; [done|].
    rewrite Hother by done. apply (sw_nodup s Hwf).
  - intros h j. unfold indexed. simpl. destruct (decide (h = e_hash e)) as [->|Hh].
    + rewrite Hmem, (sw_index s Hwf). split.
      * intros [(e' & ? & ? & ?) Hj]. exists e'. rewrite Hslot by done. rewrite decide_False by done. done.
      * intros (e' & Hj & Hu' & ?). destruct (Hold j e' Hj Hu') as [? ?]. naive_solver.
    + rewrite Hother by done. etrans; [apply (sw_index s Hwf h j)|]. split.
      * intros (e' & Hj & ? & ?). exists e'. rewrite Hslot by done.
        rewrite decide_False; [done|]. intros Hd. subst j. congruence.
      * intros (e' & Hj & Hu' & ?). destruct (Hold j e' Hj Hu'). eauto.
  - intros i j e1 e2 Hi Hj Hu1 Hu2. destruct (Hold i e1 Hi Hu1), (Hold j e2 Hj Hu2).
    by apply (sw_uniq s Hwf i j e1 e2).
Qed.

Lemma vacate_holds s idx e k j e' :
  slot s idx = Some e → holds (vacate s idx e) k j e' ↔ holds s k j e' ∧ j ≠ idx.
Proof.
  intros He. unfold holds. rewrite vacate_slot by done. case_decide; [|naive_solver].
  subst. split; [|naive_solver]. intros (Hs & Hu & _). by simplify_eq/=.
Qed.

(** ** Occupying a slot *)

Definition used s : nat := length (filter (λ e : Entry K, e_in_use e = true) (entries s)).

Lemma used_le s : used s ≤ length (entries s).
Proof. apply length_filter. Qed.

Lemma used_lt s : used s < length (entries s) ↔ ∃ idx e, slot s idx = Some e ∧ e_in_use e = false.
Proof.
  unfold used, slot. split.
  - intros Hlt. destruct (decide (Forall (λ e : Entry K, e_in_use e = true) (entries s))) as [Hf|Hf].
    + rewrite filter_Forall_id in Hlt by done. lia.
    + apply not_Forall_Exists, Exists_exists in Hf as (e & Hin & Hu); [|apply _].
      apply list_elem_of_lookup in Hin as [i Hi]. exists (N.of_nat i), e.
      rewrite Nat2N.id. split; [done|]. by apply not_true_is_false.
  - intros (idx & e & He & Hu).
    apply (length_filter_lt _ (entries s) e); [by eapply list_elem_of_lookup_2|by rewrite Hu].
Qed.

Lemma alloc_spec s :
  slab_wf s →
  if decide (used s < length (entries s)) then
    ∃ e, slot s (free_head s) = Some e ∧ e_in_use e = false ∧
      alloc s = Ret (Some (free_head s), set_free_head (e_next_free e) s)
  else alloc s = Ret (None, s).
Proof.
  intros Hwf. destruct (sw_free s Hwf) as (fl & Hc & Hnd & Hfl). unfold alloc. case_decide as Hd.
  - apply used_lt in Hd as (idx & e & He & Hu). apply (Hfl idx e He) in Hu.
    case_N; [apply free_chain_full in Hc; [subst; by apply not_elem_of_nil in Hu|done]|].
    destruct (free_chain_head _ _ _ Hc) as (e' & l' & He' & Hu' & _); [done|].
    exists e'. split_and!; [done..|]. by rewrite (entry_at_slot _ _ _ He').
  - case_N; [done|]. exfalso. apply Hd, used_lt.
    destruct (free_chain_head _ _ _ Hc) as (e' & l' & He' & Hu' & _); [done|]. eauto.
Qed.

(** The state after key [k] has been written to the free slot [idx]. *)
Definition occupy s (k : K) (ttl : N) (idx : N) (e : Entry K) : Shard K Tx :=
  insert_index
    (set_entries (<[N.to_nat idx := write e k (hash k) ttl (tick s)]> (entries s))
      (set_free_head (e_next_free e) s)) (hash k) idx.

Lemma occupy_slot s k ttl idx e j :
  slot s idx = Some e →
  slot (occupy s k ttl idx e) j =
    if decide (idx = j) then Some (write e k (hash k) ttl (tick s)) else slot s j.
Proof. intros He. unfold slot at 1. simpl. apply slot_insert; [done|by eexists]. Qed.

(** The head of the free list is a free slot, in no index list. *)
Lemma head_free s e :
  slab_wf s → slot s (free_head s) = Some e → e_in_use e = false →
  (∀ h, free_head s ∉ indexed s h) ∧
  ∃ fl, free_chain (entries s) (e_next_free e) fl ∧ NoDup fl ∧ free_head s ∉ fl ∧
    ∀ j e', slot s j = Some e' → e_in_use e' = false ↔ j = free_head s ∨ j ∈ fl.
Proof.
  intros Hwf He Hu. split.
  { intros h (e' & Hs & Hu' & _)%(sw_index s Hwf). congruence. }
  destruct (sw_free s Hwf) as (fl & Hc & Hndf & Hfl).
  destruct (free_chain_head _ _ _ Hc) as (e0 & fl' & He0 & _ & -> & Hc').
  { by apply slot_lt in He. }
  assert (e0 = e) as -> by (unfold slot in He; congruence).
  apply NoDup_cons in Hndf as [Hni Hndf]. exists fl'. split_and!; [done..|].
  intros j e' Hj. by rewrite (Hfl j e' Hj), elem_of_cons.
Qed.

Lemma occupy_indexed s k ttl idx e h :
  indexed (occupy s k ttl idx e) h = if decide (h = hash k) then indexed s h ++ [idx] else indexed s h.
Proof.
  unfold indexed. simpl. case_decide as Hh.
  - subst h. by rewrite lookup_insert_eq.
  - by rewrite lookup_insert_ne.
Qed.

Lemma occupy_wf s k ttl e :
  let idx := free_head s in
  slab_wf s → slot s idx = Some e → e_in_use e = false → (∀ j e', ¬ holds s k j e') →
  slab_wf (occupy s k ttl idx e).
Proof.
  intros idx Hwf He Hu Hfresh. pose proof (occupy_slot s k ttl idx e) as Hslot.
  destruct (head_free s e Hwf He Hu) as (Hnot & fl & Hc & Hndf & Hni & Hfl). fold idx in Hnot, Hni, Hfl.
  split.
  - simpl. rewrite length_insert. apply Hwf.
  - exists fl. split_and!; [simpl; by apply free_chain_update|done|].
    intros j e' Hj. rewrite Hslot in Hj by done. case_decide as Hd.
    + simplify_eq/=. done.
    + rewrite (Hfl j e' Hj). naive_solver.
  - intros j e' Hj. rewrite Hslot in Hj by done. case_decide; simplify_eq/=; [by eauto|].
    by apply (sw_key s Hwf j).
  - intros h. rewrite occupy_indexed. destruct (sw_nodup s Hwf h) as [Hnd Hne]. split.
    + case_decide; [|done]. apply NoDup_app. split_and!; [done| |apply NoDup_singleton].
      intros j Hj ->%list_elem_of_singleton. by eapply Hnot.
    + simpl. destruct (decide (hash k = h)) as [<-|].
      * rewrite lookup_insert_eq. intros [=Heq]. by destruct (default [] _).
      * by rewrite lookup_insert_ne.
  - intros h j. rewrite occupy_indexed, Hslot by done.
    assert (Hiff := sw_index s Hwf h j). destruct (decide (idx = j)) as [Hj|Hj].
    + subst j. split.
      * intros Hin. exists (write e k (hash k) ttl (tick s)). split_and!; [done..|].
        case_decide; [done|]. by apply Hnot in Hin.
      * intros (e' & [= <-] & _ & <-). simpl. rewrite decide_True by done.
        apply elem_of_app. right. by apply list_elem_of_singleton.
    + etrans; [|exact Hiff]. case_decide; [|done].
      rewrite elem_of_app, list_elem_of_singleton. naive_solver.
  - intros i j e1 e2. rewrite !Hslot by done. intros Hi Hj Hu1 Hu2 Hk.
    assert (Hno : ∀ j e', slot s j = Some e' → e_in_use e' = true → e_key e' ≠ Some k).
    { intros j' e' ? ? ?. by apply (Hfresh j' e'). }
    destruct (decide (idx = i)) as [Hdi|Hdi], (decide (idx = j)) as [Hdj|Hdj].
    + congruence.
    + injection Hi as <-. simpl in Hk. exfalso. by eapply (Hno j e2).
    + injection Hj as <-. simpl in Hk. exfalso. by eapply (Hno i e1).
    + by apply (sw_uniq s Hwf i j e1 e2).
Qed.

Lemma occupy_holds s k ttl idx e k' j e' :
  slot s idx = Some e → e_in_use e = false →
  holds (occupy s k ttl idx e) k' j e' ↔
    (j = idx ∧ k' = k ∧ e' = write e k (hash k) ttl (tick s)) ∨ holds s k' j e'.
Proof.
  intros He Hu. unfold holds. rewrite occupy_slot by done. case_decide as Hd.
  - subst j. split.
    + intros ([= <-] & _ & [= ->]). by left.
    + intros [(_ & -> & ->)|(? & ? & _)]; [done|congruence].
  - split; [by right|]. intros [(-> & _)|]; done.
Qed.

(** ** Rewriting a live slot in place (refresh) *)

Definition rewrite_slot s (idx : N) (e' : Entry K) : Shard K Tx :=
  set_entries (<[N.to_nat idx := e']> (entries s)) s.

Lemma rewrite_slot_slot s idx e e' j :
  slot s idx = Some e →
  slot (rewrite_slot s idx e') j = if decide (idx = j) then Some e' else slot s j.
Proof. intros He. unfold slot at 1. simpl. apply slot_insert; [done|by eexists]. Qed.

Lemma rewrite_slot_wf s idx e e' :
  slab_wf s → slot s idx = Some e → e_in_use e = true → e_in_use e' = true →
  e_key e' = e_key e → e_hash e' = e_hash e → slab_wf (rewrite_slot s idx e').
Proof.
  intros Hwf He Hu Hu' Hk Hh. pose proof (rewrite_slot_slot s idx e e') as Hslot.
  split.
  - simpl. rewrite length_insert. apply Hwf.
  - destruct (sw_free s Hwf) as (fl & Hc & Hndf & Hfl). exists fl.
    assert (Hni : idx ∉ fl) by (rewrite <- (Hfl idx e He); congruence).
    split_and!; [simpl; by apply free_chain_update|done|].
    intros j e1. rewrite Hslot by done. case_decide; [|apply Hfl]. intros [= <-]. naive_solver.
  - intros j e1. rewrite Hslot by done. case_decide; [|apply (sw_key s Hwf)].
    intros [= <-]. pose proof (sw_key s Hwf idx e He) as H'. rewrite Hu in H'.
    by rewrite Hu', Hk, Hh.
  - apply (sw_nodup s Hwf).
  - intros h j. rewrite Hslot by done. etrans; [apply (sw_index s Hwf h j)|]. case_decide; [|done]. subst. naive_solver.
  - intros i j e1 e2. rewrite !Hslot by done. intros Hi Hj Hu1 Hu2 Hke.
    assert (Hu3 := sw_uniq s Hwf).
    destruct (decide (idx = i)) as [Hdi|Hdi], (decide (idx = j)) as [Hdj|Hdj].
    + congruence.
    + injection Hi as <-. subst i. apply (Hu3 idx j e e2); congruence.
    + injection Hj as <-. subst j. apply (Hu3 i idx e1 e); congruence.
    + by apply (Hu3 i j e1 e2).
Qed.
End slab.
