(* ===== verification/WheelTime.v ===== *)
(** * The time buckets of the timing wheel

    Where [schedule] puts a token, and the invariant [cov] that every live
    entry has a token in a bucket that a future tick will visit in time.

    A bucket of level [lv] is visited at the ticks that are multiples of
    [gran lv]; the visit at tick [τ] takes bucket [(τ / gran lv) mod size lv]. *)
From S2P Require Import Prelude Wheel WheelSlab.

Inductive level := L1 | L2 | L3.

#[export] Instance level_eq_dec : EqDecision level.
Proof. solve_decision. Defined.

Definition gran (lv : level) : N :=
  match lv with L1 => 1 | L2 => 512 | L3 => 65536 end.
Definition size (lv : level) : N :=
  match lv with L1 => 512 | L2 => 128 | L3 => 128 end.

(** The bucket for an entry that expires at [x], scheduled at tick [t]. *)
Definition place (t x : N) : level * N :=
  (if x <=? t then (L1, (t + 1) mod 512)
   else if x - t <? 512 then (L1, x mod 512)
   else if x - t <? 65536 then (L2, (x / 512) mod 128)
   else (L3, (x / 65536) mod 128))%N.

Lemma place_lt t x : ((place t x).2 < size (place t x).1)%N.
Proof. unfold place. repeat case_N; simpl; lia_div. Qed.

(** [in_time lo τ x lv]: the visit at tick [τ] of level [lv] is still to come
    (the visits before [lo] are past), it is the first of its bucket, and it
    is not too late for an expiry at [x]: at most one tick late, and only
    when [x] is a multiple of 512. *)
Definition in_time (lo τ x : N) (lv : level) : Prop :=
  (τ mod gran lv = 0 ∧ lo ≤ τ < lo + gran lv * size lv ∧
   (τ ≤ x ∨ (lv = L1 ∧ τ = x + 1 ∧ x mod 512 = 0)))%N.

Lemma place_in_time t x (lo : level → N) :
  (∀ lv, t ≤ lo lv ≤ t + 1)%N → (t ≤ x)%N → (x = t → t mod 512 = 0)%N →
  ∃ τ, in_time (lo (place t x).1) τ x (place t x).1 ∧
       (place t x).2 = ((τ / gran (place t x).1) mod size (place t x).1)%N.
Proof.
  intros Hlo Hx Heq. unfold in_time, place.
  destruct (N.leb_spec x t); [|destruct (N.ltb_spec (x - t) 512); [|destruct (N.ltb_spec (x - t) 65536)]];
    cbn [fst snd gran size].
  - specialize (Hlo L1). exists (t + 1)%N. assert (x = t) as -> by lia. specialize (Heq eq_refl).
    rewrite N.div_1_r, N.mod_1_r. split_and!; [done|lia..| |done]. by right.
  - specialize (Hlo L1). exists x. rewrite N.div_1_r, N.mod_1_r. split_and!; [done|lia..|done].
  - specialize (Hlo L2). exists (512 * (x / 512))%N.
    replace ((512 * (x / 512)) / 512)%N with (x / 512)%N by lia_div. split; [|done].
    split_and!; [lia_div..|left; lia_div].
  - specialize (Hlo L3).
    set (w := (x / 65536)%N). set (l := ((lo L3 + 65535) / 65536)%N).
    exists (65536 * (w - 128 * ((w - l) / 128)))%N.
    assert (l ≤ w)%N by (subst l w; lia_div).
    assert (l * 65536 < lo L3 + 65536)%N by (subst l; lia_div).
    assert (lo L3 ≤ l * 65536)%N by (subst l; lia_div).
    assert (w * 65536 ≤ x)%N by (subst w; lia_div).
    clearbody w l. split.
    + split_and!; [lia_div..|left; lia_div].
    + replace (65536 * (w - 128 * ((w - l) / 128)) / 65536)%N
        with (w - 128 * ((w - l) / 128))%N by lia_div. lia_div.
Qed.

(** Two pending visits of one level that fall on one bucket are the same. *)
Lemma in_time_slot lo τ x lv :
  in_time lo τ x lv → (lo mod gran lv = 0)%N →
  ((τ / gran lv) mod size lv = (lo / gran lv) mod size lv)%N → τ = lo.
Proof. unfold in_time. destruct lv; simpl; intros (? & ? & _) ? ?; lia_div. Qed.

Lemma in_time_next lo τ x lv : in_time lo τ x lv → τ ≠ lo → in_time (lo + 1) τ x lv.
Proof. unfold in_time. intros (? & ? & ?) ?. split_and!; [done|lia..|done]. Qed.

Section time.
Context {K : Type} `{EqDecision K} (hash : K → N) {Tx : Type}.
Context (try_send : Tx → list (CacheEvent K) → Tx * bool).
Implicit Types s : Shard K Tx.

Definition wheel (lv : level) s : list (list token) :=
  match lv with L1 => wheel_l1 s | L2 => wheel_l2 s | L3 => wheel_l3 s end.
Definition set_wheel (lv : level) (w : list (list token)) s : Shard K Tx :=
  match lv with L1 => set_l1 w s | L2 => set_l2 w s | L3 => set_l3 w s end.

Lemma wheel_set_wheel lv lv' w s :
  wheel lv' (set_wheel lv w s) = if decide (lv' = lv) then w else wheel lv' s.
Proof. by destruct lv, lv'. Qed.

(** Everything but the buckets is the same. *)
Record same_slab s s' : Prop := {
  ss_entries : entries s' = entries s;
  ss_free : free_head s' = free_head s;
  ss_index : index_map s' = index_map s;
  ss_tick : tick s' = tick s;
  ss_start : start s' = start s;
  ss_tx : event_tx s' = event_tx s;
  ss_batch : batch s' = batch s;
}.

#[export] Instance same_slab_preorder : PreOrder same_slab.
Proof. split; [done|]. intros ??? [] []. split; congruence. Qed.

Lemma same_slab_slot s s' idx : same_slab s s' → slot s' idx = slot s idx.
Proof. unfold slot. by intros [-> _ _ _ _ _ _]. Qed.

Lemma same_slab_wf s s' : same_slab s s' → slab_wf hash s → slab_wf hash s'.
Proof. intros []. by apply slab_wf_ext. Qed.

Lemma set_wheel_same lv w s : same_slab s (set_wheel lv w s).
Proof. by destruct lv. Qed.

(** Bucket vectors have their sizes and tokens refer to slots of the slab. *)
Definition wheels_wf s : Prop :=
  (∀ lv, length (wheel lv s) = N.to_nat (size lv)) ∧
  (∀ lv i b t, wheel lv s !! i = Some b → t ∈ b → is_Some (slot s t.1)).

Definition tok_in s (lv : level) (i : N) (t : token) : Prop :=
  ∃ b, wheel lv s !! N.to_nat i = Some b ∧ t ∈ b.

Lemma wheels_bucket s lv i :
  wheels_wf s → (i < size lv)%N → ∃ b, wheel lv s !! N.to_nat i = Some b.
Proof. intros [Hlen _] Hi. apply lookup_lt_is_Some. rewrite Hlen. lia. Qed.

Lemma wheels_ext s s' :
  (∀ lv, wheel lv s' = wheel lv s) → (∀ i, is_Some (slot s i) → is_Some (slot s' i)) →
  wheels_wf s → wheels_wf s'.
Proof.
  intros Hw Hs [Hlen Htok]. split; [intros lv; by rewrite Hw|].
  intros lv i b t. rewrite Hw. intros Hb Hin. by eapply Hs, Htok.
Qed.

(** ** Scheduling *)

Definition push_at s (p : level * N) (t : token) : Shard K Tx :=
  set_wheel p.1 (<[N.to_nat p.2 := default [] (wheel p.1 s !! N.to_nat p.2) ++ [t]]> (wheel p.1 s)) s.

Lemma push_at_same s p t : same_slab s (push_at s p t).
Proof. apply set_wheel_same. Qed.

Lemma push_at_tok s p t lv i t' :
  wheels_wf s → (p.2 < size p.1)%N →
  tok_in (push_at s p t) lv i t' ↔ tok_in s lv i t' ∨ ((lv, i) = p ∧ t' = t).
Proof.
  intros Hwf Hlt. destruct p as [lv0 i0]. simpl in *.
  destruct (wheels_bucket s lv0 i0 Hwf Hlt) as [b0 Hb0].
  unfold tok_in, push_at. simpl. rewrite wheel_set_wheel, Hb0. simpl.
  case_decide as Hlv; [subst lv|naive_solver].
  destruct (decide (i = i0)) as [->|Hi].
  - rewrite list_lookup_insert_eq by by eapply lookup_lt_Some. rewrite Hb0. split.
    + intros (b & [= <-] & [Hin|Hin%list_elem_of_singleton]%elem_of_app); naive_solver.
    + intros [(b & [= <-] & Hin)|[_ ->]]; (eexists; split; [done|]; apply elem_of_app);
        [by left|right; by apply list_elem_of_singleton].
  - rewrite list_lookup_insert_ne by lia. naive_solver.
Qed.

Lemma push_at_wf s p t :
  wheels_wf s → (p.2 < size p.1)%N → is_Some (slot s t.1) → wheels_wf (push_at s p t).
Proof.
  intros Hwf Hlt Ht. split.
  - intros lv. unfold push_at. rewrite wheel_set_wheel. case_decide; [|apply Hwf].
    subst. rewrite length_insert. apply Hwf.
  - intros lv i b t' Hb Hin. rewrite (same_slab_slot s) by apply push_at_same.
    assert (Htok : tok_in (push_at s p t) lv (N.of_nat i) t').
    { exists b. by rewrite Nat2N.id. }
    apply push_at_tok in Htok as [(b' & Hb' & Hin')|[_ ->]]; [|done..].
    destruct Hwf as [_ Hwf]. by eapply Hwf.
Qed.

Lemma schedule_push s idx e :
  wheels_wf s → slot s idx = Some e → (tick s + 1 < u64_mod)%N →
  schedule s idx = Ret (push_at s (place (tick s) (e_expire_tick e)) (idx, e_version e)).
Proof.
  intros Hwf He Ht. unfold schedule. rewrite (entry_at_slot _ _ _ He). cbn [mbind exec_bind].
  pose proof (place_lt (tick s) (e_expire_tick e)) as Hlt. revert Hlt. unfold place, push_at.
  change (WHEEL_L1 * WHEEL_L2)%N with 65536%N.
  change WHEEL_L1 with 512%N. change WHEEL_L2 with 128%N. change WHEEL_L3 with 128%N.
  assert (wadd64 (tick s) 1 = tick s + 1)%N as -> by (unfold wadd64; by apply N.mod_small).
  repeat case_N; cbn [fst snd wheel set_wheel]; intros Hlt;
    (match type of Hlt with (?i < size ?lv)%N =>
       destruct (wheels_bucket s lv i Hwf Hlt) as [b Hb] end);
    unfold push_slot; cbn [wheel] in Hb; rewrite Hb; done.
Qed.

(** ** Coverage *)

(** Entry [e] of slot [idx] has a token that is visited in time. *)
Definition reach (lo : level → N) s (idx : N) (e : Entry K) : Prop :=
  ∃ lv τ, in_time (lo lv) τ (e_expire_tick e) lv ∧
    tok_in s lv ((τ / gran lv) mod size lv)%N (idx, e_version e).

(** Every live entry is reached, or its token is among [P], the tokens a
    loop still has in hand, and it does not expire before [xlo]. *)
Definition cov (lo : level → N) (xlo : N) (P : list token) s : Prop :=
  ∀ idx e, slot s idx = Some e → e_in_use e = true →
    reach lo s idx e ∨ ((idx, e_version e) ∈ P ∧ (xlo ≤ e_expire_tick e)%N).

Lemma reach_push lo s p t idx e :
  wheels_wf s → (p.2 < size p.1)%N → reach lo s idx e → reach lo (push_at s p t) idx e.
Proof.
  intros Hwf Hlt (lv & τ & Hin & Htok). exists lv, τ. split; [done|].
  rewrite push_at_tok by done. by left.
Qed.

Lemma reach_scheduled lo s idx e :
  wheels_wf s → (∀ lv, tick s ≤ lo lv ≤ tick s + 1)%N →
  (tick s ≤ e_expire_tick e)%N → (e_expire_tick e = tick s → tick s mod 512 = 0)%N →
  reach lo (push_at s (place (tick s) (e_expire_tick e)) (idx, e_version e)) idx e.
Proof.
  intros Hwf Hlo Hx Heq.
  destruct (place_in_time (tick s) (e_expire_tick e) lo) as (τ & Hin & Hp); [done..|].
  exists (place (tick s) (e_expire_tick e)).1, τ. split; [done|].
  rewrite push_at_tok by (done || apply place_lt). right. split; [|done].
  rewrite <- Hp. by destruct (place _ _).
Qed.

Lemma cov_ext lo xlo P s s' :
  entries s' = entries s → (∀ lv, wheel lv s' = wheel lv s) → cov lo xlo P s → cov lo xlo P s'.
Proof.
  unfold cov, reach, tok_in, slot. intros -> Hw Hc idx e Hs Hu.
  destruct (Hc idx e Hs Hu) as [(lv & τ & ?)|]; [left|by right].
  exists lv, τ. by rewrite Hw.
Qed.

(** Handling one token of a loop: a token whose entry is gone or has a newer
    version covers nothing. *)
Lemma cov_skip_dead lo xlo t P s :
  (∀ e, slot s t.1 = Some e → live e t.2 = false) →
  cov lo xlo (t :: P) s → cov lo xlo P s.
Proof.
  intros Hdead Hc idx e Hs Hu. destruct (Hc idx e Hs Hu) as [|[Hin ?]]; [by left|].
  apply elem_of_cons in Hin as [<-|]; [|by right].
  specialize (Hdead e Hs). unfold live in Hdead. simpl in Hdead.
  by rewrite Hu, N.eqb_refl in Hdead.
Qed.

Lemma cov_reschedule lo xlo t P s e :
  wheels_wf s → slot s t.1 = Some e → live e t.2 = true →
  (∀ lv, tick s ≤ lo lv ≤ tick s + 1)%N →
  (xlo ≤ e_expire_tick e → tick s ≤ e_expire_tick e ∧ (e_expire_tick e = tick s → tick s mod 512 = 0))%N →
  cov lo xlo (t :: P) s →
  cov lo xlo P (push_at s (place (tick s) (e_expire_tick e)) (t.1, e_version e)).
Proof.
  intros Hwf He Hlive Hlo Hx Hc idx e' Hs Hu.
  rewrite (same_slab_slot s) in Hs by apply push_at_same.
  destruct (Hc idx e' Hs Hu) as [Hr|[Hin Hxlo]].
  { left. apply reach_push; [done|apply place_lt|done]. }
  apply elem_of_cons in Hin as [Ht|]; [left|by right].
  destruct t as [i v]. simplify_eq/=. destruct (Hx Hxlo). by apply reach_scheduled.
Qed.

(** Taking the bucket visited now moves its tokens in hand. *)
Definition upd (lo : level → N) (lv : level) (x : N) : level → N :=
  λ lv', if decide (lv' = lv) then x else lo lv'.

Lemma take_slot_bucket lv i s :
  wheels_wf s → (i < size lv)%N →
  ∃ b, wheel lv s !! N.to_nat i = Some b ∧
    take_slot (wheel lv s) i = Ret (b, <[N.to_nat i := []]> (wheel lv s)).
Proof.
  intros Hwf Hi. destruct (wheels_bucket s lv i Hwf Hi) as [b Hb]. exists b.
  unfold take_slot. by rewrite Hb.
Qed.

Lemma take_wf lv i s :
  wheels_wf s → wheels_wf (set_wheel lv (<[i := []]> (wheel lv s)) s).
Proof.
  intros [Hlen Htok]. split.
  - intros lv'. rewrite wheel_set_wheel. case_decide; [|done]. subst. by rewrite length_insert.
  - intros lv' j b t. rewrite wheel_set_wheel, (same_slab_slot s) by apply set_wheel_same.
    case_decide; [|apply Htok]. intros [(_ & <- & _)|[_ ?]]%list_lookup_insert_Some;
      [by intros ?%not_elem_of_nil|by eapply Htok].
Qed.

Lemma cov_take lo lv s b :
  let i := ((lo lv / gran lv) mod size lv)%N in
  cov lo 0 [] s → (lo lv mod gran lv = 0)%N → wheel lv s !! N.to_nat i = Some b →
  cov (upd lo lv (lo lv + 1)) (if decide (lv = L1) then 0 else lo lv) b
    (set_wheel lv (<[N.to_nat i := []]> (wheel lv s)) s).
Proof.
  intros i Hc Hlo Hb idx e Hs Hu. rewrite (same_slab_slot s) in Hs by apply set_wheel_same.
  destruct (Hc idx e Hs Hu) as [(lv' & τ & Hin & b' & Hb' & Hmem)|[[]%not_elem_of_nil _]].
  destruct (decide (lv' = lv)) as [->|Hne].
  2:{ left. exists lv', τ. unfold upd, tok_in. rewrite decide_False by done. split; [done|].
      exists b'. by rewrite wheel_set_wheel, decide_False. }
  destruct (decide (τ = lo lv)) as [->|Hτ].
  - right. fold i in Hb'. rewrite Hb in Hb'. simplify_eq. split; [done|].
    destruct Hin as (_ & _ & Hle). case_decide as HL; [lia|].
    destruct Hle as [?|(? & _)]; [lia|done].
  - left. exists lv, τ. unfold upd, tok_in. rewrite decide_True by done.
    split; [by apply in_time_next|]. exists b'.
    rewrite wheel_set_wheel, decide_True by done. rewrite list_lookup_insert_ne; [done|].
    intros Heq. apply Hτ. eapply in_time_slot; [done..|]. fold i. lia.
Qed.

(** A level whose visits do not fall on [lo] can wait for the next tick. *)
Lemma cov_skip lo lv s :
  (lo lv mod gran lv ≠ 0)%N → cov lo 0 [] s → cov (upd lo lv (lo lv + 1)) 0 [] s.
Proof.
  intros Hlo Hc idx e Hs Hu.
  destruct (Hc idx e Hs Hu) as [(lv' & τ & Hin & Htok)|[[]%not_elem_of_nil _]].
  left. exists lv', τ. split; [|done]. unfold upd. case_decide; [subst|done].
  apply in_time_next; [done|]. intros ->. by destruct Hin.
Qed.

Lemma cov_weaken_lo lo lo' xlo P s : (∀ lv, lo lv = lo' lv) → cov lo xlo P s → cov lo' xlo P s.
Proof.
  intros Heq Hc idx e Hs Hu. destruct (Hc idx e Hs Hu) as [(lv & τ & ?)|]; [left|by right].
  exists lv, τ. by rewrite <- Heq.
Qed.

Lemma cov_weaken_xlo lo xlo s : cov lo xlo [] s → cov lo 0 [] s.
Proof. intros Hc idx e Hs Hu. destruct (Hc idx e Hs Hu) as [|[[]%not_elem_of_nil _]]. by left. Qed.

(** ** Cascades *)

Lemma recast_cov lo xlo t P s :
  wheels_wf s → cov lo xlo (t :: P) s → is_Some (slot s t.1) →
  (∀ lv, tick s ≤ lo lv ≤ tick s + 1)%N → xlo = tick s → (tick s mod 512 = 0)%N →
  (tick s + 1 < u64_mod)%N →
  returns (recast s t) (λ s', same_slab s s' ∧ wheels_wf s' ∧ cov lo xlo P s').
Proof.
  intros Hwf Hc [e He] Hlo -> Hmod Hb. unfold recast. rewrite (entry_at_slot _ _ _ He). simpl.
  destruct (live e t.2) eqn:Hl.
  - rewrite (schedule_push s t.1 e) by done. simpl. split_and!.
    + apply push_at_same.
    + apply push_at_wf; [done|apply place_lt|by eexists].
    + by apply (cov_reschedule lo (tick s) t P s e).
  - simpl. split_and!; [done..|]. apply (cov_skip_dead _ _ t); [|done]. intros. congruence.
Qed.

Lemma recast_all lo xlo P s :
  wheels_wf s → cov lo xlo P s → Forall (λ t, is_Some (slot s t.1)) P →
  (∀ lv, tick s ≤ lo lv ≤ tick s + 1)%N → xlo = tick s → (tick s mod 512 = 0)%N →
  (tick s + 1 < u64_mod)%N →
  returns (exec_fold recast s P) (λ s', same_slab s s' ∧ wheels_wf s' ∧ cov lo xlo [] s').
Proof.
  intros Hwf Hc HP Hlo Hx Hmod Hb.
  eapply returns_mono.
  - apply (returns_fold recast (λ P' s', same_slab s s' ∧ wheels_wf s' ∧ cov lo xlo P' s' ∧
              Forall (λ t, is_Some (slot s t.1)) P')); [|done].
    intros t P' s' (Hss & Hwf' & Hc' & HP'). apply Forall_cons in HP' as [Ht HP'].
    eapply returns_mono; [apply (recast_cov lo xlo t P'); rewrite ?(ss_tick _ _ Hss); try done|].
    + by rewrite (same_slab_slot s).
    + intros s'' (? & ? & ?). split_and!; [by etrans|done..].
  - by intros s' (? & ? & ? & _).
Qed.

Lemma bucket_slots s lv i b :
  wheels_wf s → wheel lv s !! i = Some b → Forall (λ t : token, is_Some (slot s t.1)) b.
Proof. intros [_ Hwf] Hb. apply Forall_forall. intros t Ht. by eapply Hwf. Qed.

(** A cascade of level [lv] at a tick that visits it. *)
Lemma cascade_cov lo lv s :
  lv ≠ L1 → wheels_wf s → cov lo 0 [] s → lo lv = tick s → (tick s mod gran lv = 0)%N →
  (∀ lv, tick s ≤ lo lv ≤ tick s + 1)%N → (tick s + 1 < u64_mod)%N →
  returns (take_slot (wheel lv s) ((tick s / gran lv) mod size lv) ≫= λ '(bucket, w),
             exec_fold recast (set_wheel lv w s) bucket)
    (λ s', same_slab s s' ∧ wheels_wf s' ∧ cov (upd lo lv (tick s + 1)) 0 [] s').
Proof.
  intros Hlv Hwf Hc Hlo Hmod Hb Hu.
  destruct (take_slot_bucket lv ((tick s / gran lv) mod size lv)%N s) as (b & Hbk & ->);
    [done|destruct lv; simpl; lia_div|]. cbn [mbind exec_bind fst snd].
  pose proof (cov_take lo lv s b) as Hct. cbv zeta in Hct. rewrite Hlo in Hct.
  rewrite decide_False in Hct by done.
  set (s1 := set_wheel lv _ s). fold s1 in Hct. specialize (Hct Hc Hmod Hbk).
  assert (Hss : same_slab s s1) by apply set_wheel_same.
  assert (Hwf1 : wheels_wf s1) by by apply take_wf.
  clearbody s1. rewrite <- (ss_tick _ _ Hss) in *.
  eapply returns_mono; [apply (recast_all _ _ b s1 Hwf1 Hct); try done|].
  - pose proof (bucket_slots s lv _ b Hwf Hbk) as Hsl. eapply Forall_impl; [exact Hsl|].
    intros t Ht. rewrite (same_slab_slot s s1) by done. exact Ht.
  - intros lv'. unfold upd. case_decide; [lia|]. apply Hb.
  - destruct lv; simpl in *; [done|done|lia_div].
  - intros s' (Hss' & Hwf' & Hc'). split_and!; [by etrans|done|].
    by eapply cov_weaken_xlo.
Qed.
End time.
