(* ===== verification/WheelInv.v ===== *)
(** * Invariant and behaviour of a shard of the timing wheel

    [wf] is the invariant of a shard between two steps of its task;
    [expires] relates a shard to a later one by the events emitted in
    between.  Both are established for [tick_once], [on_tick] and the three
    commands. *)
From S2P Require Import Prelude Wheel WheelSlab WheelTime.

(** No tick and no time-to-live reaches beyond [u64::MAX / 200] rounded up,
    because both are computed from 64-bit milliseconds. *)
Definition TICK_BOUND : N := 92233720368547759.

Section inv.
Context {K : Type} `{EqDecision K} (hash : K → N) {Tx : Type}.
Context (try_send : Tx → list (CacheEvent K) → Tx * bool).
Implicit Types s : Shard K Tx.

Record wf s : Prop := {
  wf_slab : slab_wf hash s;
  wf_wheels : wheels_wf s;
  wf_cov : cov (λ _, tick s + 1)%N 0 [] s;
  wf_tick : (tick s ≤ TICK_BOUND)%N;
  wf_ttl : ∀ idx e, slot s idx = Some e → e_in_use e = true →
    (1 ≤ e_ttl_tick e ≤ TICK_BOUND)%N;
  wf_batch : (length (batch s) < BATCH)%nat;
}.

(** Commands as the front end sends them. *)
Definition cmd_ok (c : Command K) : Prop :=
  match c with Insert _ ttl => (1 ≤ ttl ≤ TICK_BOUND)%N | _ => True end.

(** ** Events *)

Definition event_of (k : K) (e : Entry K) : CacheEvent K := mkEvent k (e_hash e) (e_version e).

Definition out s : Tx * list (CacheEvent K) := (event_tx s, batch s).

(** Appending an event to the batch, and sending a full batch. *)
Definition out_step (o : Tx * list (CacheEvent K)) (ev : CacheEvent K) : Tx * list (CacheEvent K) :=
  let b := o.2 ++ [ev] in
  if (BATCH <=? length b)%nat then ((try_send o.1 b).1, []) else (o.1, b).

(** [expires T s evs s']: between [s] and [s'] the keys of [evs] expired,
    none of them before its tick, [T] being the latest tick, and no other
    entry changed. *)
Record expires (T : N) s (evs : list (CacheEvent K)) s' : Prop := {
  exp_out : out s' = foldl out_step (out s) evs;
  exp_keep : ∀ k idx e, holds s' k idx e → holds s k idx e;
  exp_gone : ∀ k idx e, holds s k idx e → holds s' k idx e ∨ event_of k e ∈ evs;
  exp_event : ∀ ev, ev ∈ evs → ∃ idx e, holds s (ev_key ev) idx e ∧
    ev = event_of (ev_key ev) e ∧ (e_expire_tick e ≤ T)%N ∧
    ∀ idx' e', ¬ holds s' (ev_key ev) idx' e';
  exp_nodup : NoDup (ev_key <$> evs);
}.

Lemma expires_trans T T' s s' s'' evs evs' :
  (T ≤ T')%N → expires T s evs s' → expires T' s' evs' s'' →
  expires T' s (evs ++ evs') s''.
Proof.
  intros HT [Ho Hk Hg He Hn] [Ho' Hk' Hg' He' Hn']. split.
  - by rewrite foldl_app, <- Ho.
  - eauto.
  - intros k idx e Hh. rewrite elem_of_app. destruct (Hg k idx e Hh) as [Hh'|]; [|by eauto].
    destruct (Hg' k idx e Hh'); eauto.
  - intros ev [Hin|Hin]%elem_of_app.
    + destruct (He ev Hin) as (idx & e & ? & ? & ? & Hno). exists idx, e. split_and!; [done..|lia|].
      intros idx' e' H'. by eapply Hno, Hk'.
    + destruct (He' ev Hin) as (idx & e & ? & ? & ? & Hno). exists idx, e. split_and!; eauto.
  - rewrite fmap_app. apply NoDup_app. split_and!; [done| |done].
    intros k (ev & -> & Hin)%list_elem_of_fmap (ev' & Heq & Hin')%list_elem_of_fmap.
    destruct (He ev Hin) as (_ & _ & _ & _ & _ & Hno).
    destruct (He' ev' Hin') as (idx & e & Hh & _). rewrite <- Heq in Hh. by eapply Hno.
Qed.

Lemma expires_nil T s s' : entries s' = entries s → out s' = out s → expires T s [] s'.
Proof.
  intros He Ho.
  assert (Hh : ∀ k idx e, holds s' k idx e ↔ holds s k idx e) by (unfold holds, slot; by rewrite He).
  split; [done|by intros ??? ?%Hh|by intros ??? ?%Hh; left|by intros ev ?%not_elem_of_nil|constructor].
Qed.

Lemma same_slab_expires T s s' : same_slab s s' → expires T s [] s'.
Proof. intros []. apply expires_nil; [done|]. unfold out. congruence. Qed.

Lemma holds_uniq s k i j e e' : slab_wf hash s → holds s k i e → holds s k j e' → i = j ∧ e = e'.
Proof.
  intros Hwf (Hi & Hu & Hk) (Hj & Hu' & Hk').
  assert (i = j) as -> by (apply (sw_uniq hash s Hwf i j e e'); congruence). split; congruence.
Qed.

(** ** One token *)

Lemma out_step_batch o ev : (length o.2 < BATCH)%nat → (length (out_step o ev).2 < BATCH)%nat.
Proof.
  unfold out_step. destruct o as [tx b]. cbn [fst snd].
  destruct (Nat.leb_spec BATCH (length (b ++ [ev]))); cbn [fst snd]; [|done].
  intros _. unfold BATCH. simpl. lia.
Qed.

Definition fire s (k : K) (idx : N) (e : Entry K) : Shard K Tx :=
  let o := out_step (out s) (event_of k e) in set_out o.1 o.2 (vacate s idx e).

Lemma fire_wheel s k idx e lv : wheel lv (fire s k idx e) = wheel lv s.
Proof. unfold fire, vacate. rewrite remove_index_frame. by destruct lv. Qed.

Lemma process_fire s k idx e :
  holds s k idx e → (e_expire_tick e ≤ tick s)%N →
  process_token try_send s (idx, e_version e) = Ret (fire s k idx e).
Proof.
  intros (He & Hu & Hk) Hx. unfold process_token. rewrite (entry_at_slot _ _ _ He).
  cbn [mbind exec_bind]. unfold live. rewrite Hu, N.eqb_refl. cbn [andb negb].
  destruct (N.ltb_spec (tick s) (e_expire_tick e)); [lia|].
  unfold take_key. rewrite Hk. cbn [mbind exec_bind].
  rewrite (put_entry_slot _ _ e) by done. cbn [mbind exec_bind].
  rewrite remove_index_frame. unfold entry_at. cbn.
  rewrite list_lookup_insert_eq by by eapply lookup_lt_Some.
  cbn. unfold put_entry. cbn. rewrite list_lookup_insert_eq by by eapply lookup_lt_Some.
  cbn. unfold fire, vacate, out_step, out. cbn. rewrite (remove_index_frame s). cbn.
  rewrite list_insert_insert_eq. unfold event_of.
  assert (Hri : ∀ es, index_map (remove_index (set_entries es s) (e_hash e) idx) =
                      index_map (remove_index s (e_hash e) idx)).
  { intros es. unfold remove_index. simpl. by destruct (index_map s !! e_hash e). }
  rewrite Hri. by match goal with |- context [Nat.leb ?a ?b] => destruct (Nat.leb a b) end.
Qed.

Lemma fire_expires T s k idx e :
  slab_wf hash s → holds s k idx e → (e_expire_tick e ≤ T)%N →
  expires T s [event_of k e] (fire s k idx e).
Proof.
  intros Hwf Hh Hx. pose proof Hh as (He & Hu & Hk).
  assert (Hv : ∀ k' j e', holds (fire s k idx e) k' j e' ↔ holds s k' j e' ∧ j ≠ idx).
  { intros. etrans; [|by apply (vacate_holds hash s idx e)]. done. }
  split.
  - simpl. unfold fire, out. simpl. by destruct (out_step _ _).
  - intros k' j e' ?%Hv. naive_solver.
  - intros k' j e' Hh'. destruct (decide (j = idx)) as [->|Hne]; [right|left; by apply Hv].
    destruct Hh' as (He' & _ & Hk'). apply list_elem_of_singleton. unfold event_of. congruence.
  - intros ev ->%list_elem_of_singleton. exists idx, e. split_and!; [done..|].
    intros j e' [Hh' Hne]%Hv. simpl in Hh'. by destruct (holds_uniq s k idx j e e').
  - apply NoDup_singleton.
Qed.

Lemma fire_cov lo xlo P s k idx e :
  holds s k idx e → cov lo xlo ((idx, e_version e) :: P) s → cov lo xlo P (fire s k idx e).
Proof.
  intros Hh Hc j e' Hs Hu'. pose proof Hh as (He & Hu & Hk).
  assert (Hs' : slot s j = Some e' ∧ j ≠ idx).
  { change (slot (vacate s idx e) j = Some e') in Hs. rewrite vacate_slot in Hs by done.
    case_decide; simplify_eq/=; done. }
  destruct Hs' as [Hs' Hne]. destruct (Hc j e' Hs' Hu') as [Hr|[Hin ?]].
  - left. destruct Hr as (lv & τ & ? & b & Hb & ?). exists lv, τ. split; [done|]. exists b.
    by rewrite fire_wheel.
  - right. split; [|done]. apply elem_of_cons in Hin as [Heq|]; [congruence|done].
Qed.

Lemma fire_wheels s k idx e : holds s k idx e → wheels_wf s → wheels_wf (fire s k idx e).
Proof.
  intros (He & _). apply wheels_ext; [apply fire_wheel|]. intros i Hi.
  change (is_Some (slot (vacate s idx e) i)). rewrite vacate_slot by done. by case_decide.
Qed.

(** The invariant of the loop of [process_bucket]: [P] is what is left of
    the bucket, [s0] the state before the loop. *)
Record draining s0 (P : list token) s : Prop := {
  dr_slab : slab_wf hash s;
  dr_wheels : wheels_wf s;
  dr_cov : cov (λ _, tick s0 + 1)%N 0 P s;
  dr_toks : Forall (λ t : token, is_Some (slot s t.1)) P;
  dr_tick : tick s = tick s0;
  dr_start : start s = start s0;
  dr_size : length (entries s) = length (entries s0);
  dr_batch : (length (batch s) < BATCH)%nat;
  dr_exp : ∃ evs, expires (tick s0) s0 evs s;
}.

Lemma process_token_draining s0 t P s :
  (tick s0 + 1 < u64_mod)%N → draining s0 (t :: P) s →
  returns (process_token try_send s t) (draining s0 P).
Proof.
  intros Hb [Hslab Hwh Hcov Htoks Ht Hst Hsz Hba [evs Hexp]].
  apply Forall_cons in Htoks as [[e He] Htoks]. destruct t as [idx ver]. simpl in He.
  destruct (live e ver) eqn:Hl.
  2:{ unfold process_token. rewrite (entry_at_slot _ _ _ He). cbn [mbind exec_bind]. rewrite Hl. simpl.
      split; try done; [|by eexists].
      apply (cov_skip_dead _ _ (idx, ver)); [|done]. simpl. intros. congruence. }
  pose proof Hl as Hl'. unfold live in Hl'. apply andb_true_iff in Hl' as [Hu <-%N.eqb_eq].
  pose proof (sw_key hash s Hslab idx e He) as Hk. rewrite Hu in Hk. destruct Hk as (k & Hk & _).
  destruct (N.lt_ge_cases (tick s) (e_expire_tick e)) as [Hlt|Hge].
  - unfold process_token. rewrite (entry_at_slot _ _ _ He). cbn [mbind exec_bind]. rewrite Hl. simpl.
    destruct (N.ltb_spec (tick s) (e_expire_tick e)); [|lia].
    rewrite (schedule_push s idx e) by (done || lia). simpl.
    pose proof (push_at_same s (place (tick s) (e_expire_tick e)) (idx, e_version e)) as Hss.
    split; [by eapply same_slab_wf| | | | | | | |].
    + apply push_at_wf; [done|apply place_lt|by eexists].
    + apply (cov_reschedule _ 0%N (idx, e_version e) P s e); [done..|simpl; lia| |done]. lia.
    + eapply Forall_impl; [exact Htoks|]. intros t Hs. by rewrite (same_slab_slot s).
    + by rewrite (ss_tick _ _ Hss).
    + by rewrite (ss_start _ _ Hss).
    + by rewrite (ss_entries _ _ Hss).
    + by rewrite (ss_batch _ _ Hss).
    + exists (evs ++ []). eapply expires_trans; [|done|by apply (same_slab_expires (tick s0))]. lia.
  - rewrite (process_fire s k) by done. simpl.
    assert (Hh : holds s k idx e) by done. split.
    + eapply slab_wf_ext; [..|by apply (vacate_wf hash s idx e)]; done.
    + by apply fire_wheels.
    + by apply fire_cov.
    + eapply Forall_impl; [exact Htoks|]. intros t Hs.
      change (is_Some (slot (vacate s idx e) t.1)). rewrite vacate_slot by done.
      by case_decide.
    + simpl. by rewrite remove_index_frame.
    + simpl. by rewrite remove_index_frame.
    + simpl. by rewrite length_insert.
    + simpl. by apply out_step_batch.
    + exists (evs ++ [event_of k e]). eapply expires_trans; [|done|]; [lia|].
      apply fire_expires; [done..|lia].
Qed.

(** ** One tick *)

Lemma retain_spec lo xlo b s :
  Forall (λ t : token, is_Some (slot s t.1)) b → cov lo xlo b s →
  returns (retain s b) (λ b', Forall (λ t : token, is_Some (slot s t.1)) b' ∧ cov lo xlo b' s).
Proof.
  intros Hs Hc.
  assert (Hr : returns (retain s b) (λ b', (∀ t, t ∈ b' → t ∈ b) ∧
    ∀ t e, t ∈ b → slot s t.1 = Some e → live e t.2 = true → t ∈ b')).
  { clear Hc. induction Hs as [|t b [e He] Hs IH]; simpl.
    { split; [done|]. by intros t e ?%not_elem_of_nil. }
    rewrite (entry_at_slot _ _ _ He). simpl. apply returns_bind.
    eapply returns_mono; [exact IH|]. intros b' [Hsub Hlive]. simpl.
    destruct (live e t.2) eqn:Hl; (split; [intros t'|intros t' e']); rewrite ?elem_of_cons.
    - naive_solver.
    - intros [->|]; naive_solver.
    - naive_solver.
    - intros [->|] ?; [congruence|naive_solver]. }
  eapply returns_mono; [exact Hr|]. simpl. intros b' [Hsub Hlive]. split.
  - rewrite Forall_forall in Hs |- *. auto.
  - intros idx e He Hu. destruct (Hc idx e He Hu) as [|[Hin ?]]; [by left|right].
    split; [|done]. eapply Hlive; [done..|]. unfold live. by rewrite Hu, N.eqb_refl.
Qed.

(** The cascades of tick [t], before bucket [t mod 512] of level 1 is taken. *)
Lemma cascades_spec s :
  wheels_wf s → cov (λ _, tick s) 0 [] s → (tick s + 1 < u64_mod)%N →
  returns
    (if (tick s mod WHEEL_L1 =? 0)%N then
       s ← cascade_l2 s;
       if ((tick s / WHEEL_L1) mod WHEEL_L2 =? 0)%N then cascade_l3 s else Ret s
     else Ret s)
    (λ s', same_slab s s' ∧ wheels_wf s' ∧
       cov (upd (λ _, tick s + 1)%N L1 (tick s)) 0 [] s').
Proof.
  intros Hwf Hc Hb. change WHEEL_L1 with 512%N. change WHEEL_L2 with 128%N.
  set (lo2 := upd (λ _, tick s) L2 (tick s + 1)).
  set (lo3 := upd lo2 L3 (tick s + 1)).
  assert (Hlo3 : ∀ lv, lo3 lv = upd (λ _, tick s + 1)%N L1 (tick s) lv) by (by intros []).
  assert (Hskip3 : ∀ s', cov lo2 0 [] s' → (tick s mod 65536 ≠ 0)%N → cov lo3 0 [] s').
  { intros s' Hc' Hne. pose proof (cov_skip lo2 L3 s' Hne Hc') as H3. done. }
  destruct (N.eqb_spec (tick s mod 512) 0) as [Hm2|Hm2].
  - apply returns_bind. eapply returns_mono.
    { unfold cascade_l2. change WHEEL_L1 with 512%N. change WHEEL_L2 with 128%N.
      apply (cascade_cov (λ _, tick s) L2 s); try done. intros. lia. }
    cbn beta. intros s1 (Hss & Hwf1 & Hc1). fold lo2 in Hc1. rewrite (ss_tick _ _ Hss).
    destruct (N.eqb_spec ((tick s / 512) mod 128) 0) as [Hm3|Hm3].
    + eapply returns_mono.
      { unfold cascade_l3. change (WHEEL_L1 * WHEEL_L2)%N with 65536%N. change WHEEL_L3 with 128%N.
        apply (cascade_cov lo2 L3 s1); rewrite ?(ss_tick _ _ Hss); try done; [cbn [gran]; lia_div|].
        intros []; unfold lo2, upd; simpl; lia. }
      simpl. intros s2 (Hss2 & Hwf2 & Hc2). rewrite (ss_tick _ _ Hss) in Hc2.
      split_and!; [by etrans|done|]. by eapply cov_weaken_lo.
    + simpl. split_and!; [done..|]. eapply cov_weaken_lo; [exact Hlo3|].
      apply Hskip3; [done|lia_div].
  - simpl. split_and!; [done..|]. eapply cov_weaken_lo; [exact Hlo3|].
    apply Hskip3; [|lia_div]. unfold lo2. by apply (cov_skip (λ _, tick s) L2).
Qed.

(** The second half of a tick, on the bucket that was taken. *)
Lemma drain_bucket s b :
  slab_wf hash s → wheels_wf s → cov (λ _, tick s + 1)%N 0 b s →
  Forall (λ t : token, is_Some (slot s t.1)) b →
  (length (batch s) < BATCH)%nat → (tick s + 1 < u64_mod)%N →
  returns (b ← (if (COMPACT_THRESHOLD <? length b)%nat then retain s b else Ret b);
           process_bucket try_send s b) (draining s []).
Proof.
  intros Hslab Hwh Hcov Htok Hba Ht.
  apply returns_bind, (returns_mono _
    (λ b', Forall (λ t : token, is_Some (slot s t.1)) b' ∧ cov (λ _, tick s + 1)%N 0 b' s)).
  { destruct (COMPACT_THRESHOLD <? length b)%nat; [|done]. by apply retain_spec. }
  intros b' [Htok' Hcov']. apply (returns_fold _ (draining s)).
  - intros t P s' Hd. by apply process_token_draining.
  - split; try done. exists []. by apply expires_nil.
Qed.

(** A time-to-live in range stays so: entries only leave. *)
Lemma expires_ttl now s evs s' :
  slab_wf hash s' → expires now s evs s' →
  (∀ idx e, slot s idx = Some e → e_in_use e = true → (1 ≤ e_ttl_tick e ≤ TICK_BOUND)%N) →
  ∀ idx e, slot s' idx = Some e → e_in_use e = true → (1 ≤ e_ttl_tick e ≤ TICK_BOUND)%N.
Proof.
  intros Hsl Hex Httl idx e He Hu. pose proof (sw_key hash s' Hsl idx e He) as Hk. rewrite Hu in Hk.
  destruct Hk as (k & Hk & _). destruct (exp_keep _ _ _ _ Hex k idx e) as (? & ? & _); [done|].
  by apply (Httl idx e).
Qed.

Lemma tick_once_spec s :
  wf s → (tick s + 1 ≤ TICK_BOUND)%N →
  returns (tick_once try_send s) (λ s', wf s' ∧ tick s' = (tick s + 1)%N ∧ start s' = start s ∧
    length (entries s') = length (entries s) ∧ ∃ evs, expires (tick s + 1) s evs s').
Proof.
  intros [Hslab Hwh Hcov Ht Httl Hba] Hb. unfold tick_once.
  assert (HB : (TICK_BOUND + 1 < u64_mod)%N) by done.
  replace (wadd64 (tick s) 1) with (tick s + 1)%N
    by (symmetry; apply N.mod_small; lia).
  set (s1 := set_tick (tick s + 1) s).
  assert (Hwf1 : wheels_wf s1) by done.
  assert (Hc1 : cov (λ _, tick s1) 0 [] s1).
  { eapply cov_ext; [..|exact Hcov]; [done|by intros []]. }
  assert (He1 : expires (tick s + 1) s [] s1) by by apply expires_nil.
  assert (Hslab1 : slab_wf hash s1) by by eapply slab_wf_ext; [..|exact Hslab].
  assert (Hf1 : tick s1 = (tick s + 1)%N ∧ start s1 = start s ∧ entries s1 = entries s ∧ batch s1 = batch s) by done.
  clearbody s1. destruct Hf1 as (Ht1 & Hst1 & Hen1 & Hb1).
  apply returns_bind. eapply returns_mono; [apply cascades_spec; [done..|lia]|]. cbn beta.
  intros s2 (Hss & Hwf2 & Hc2). rewrite (ss_tick _ _ Hss), Ht1.
  pose proof (λ b, cov_take (upd (λ _, tick s1 + 1)%N L1 (tick s1)) L1 s2 b Hc2) as Htake.
  cbv zeta in Htake.
  destruct (take_slot_bucket L1 ((tick s + 1) mod 512)%N s2) as (b & Hb2 & Heq); [done|simpl; lia_div|].
  change WHEEL_L1 with 512%N. cbn [wheel] in Heq. rewrite Heq. cbn [mbind exec_bind].
  specialize (Htake b). cbn [wheel set_wheel gran size] in Htake.
  change (upd (λ _, tick s1 + 1)%N L1 (tick s1) L1) with (tick s1) in Htake.
  rewrite N.div_1_r, N.mod_1_r, Ht1 in Htake. specialize (Htake eq_refl Hb2). simpl in Htake.
  set (s3 := set_l1 _ s2) in *.
  assert (Hss3 : same_slab s1 s3) by (etrans; [exact Hss|apply (set_wheel_same L1)]).
  assert (Hwf3 : wheels_wf s3) by (by apply (take_wf L1)).
  assert (Htok3 : Forall (λ t : token, is_Some (slot s3 t.1)) b).
  { pose proof (bucket_slots s2 L1 _ b Hwf2 Hb2) as Hsl. done. }
  assert (Hc3 : cov (λ _, tick s3 + 1)%N 0 b s3).
  { rewrite (ss_tick _ _ Hss3), Ht1. eapply cov_weaken_lo; [|exact Htake]. by intros []. }
  clearbody s3. clear Htake Hb2 Heq.
  eapply returns_mono; [apply drain_bucket; try done|].
  { by eapply same_slab_wf. }
  { by rewrite (ss_batch _ _ Hss3), Hb1. }
  { rewrite (ss_tick _ _ Hss3), Ht1. lia. }
  intros s' [Hsl' Hwh' Hcov' _ Ht' Hst' Hsz' Hba' [evs Hexp]].
  rewrite (ss_tick _ _ Hss3), Ht1 in Ht', Hexp, Hcov'.
  assert (Hex : expires (tick s + 1) s evs s').
  { apply (expires_trans (tick s + 1) (tick s + 1) s s1 s' [] evs); [lia|done|].
    apply (expires_trans (tick s + 1) (tick s + 1) s1 s3 s' [] evs); [lia| |done].
    by apply same_slab_expires. }
  split_and!; [|done| | |by eexists].
  - split; try done; rewrite ?Ht'; [done|done|by eapply expires_ttl].
  - by rewrite Hst', (ss_start _ _ Hss3).
  - by rewrite Hsz', (ss_entries _ _ Hss3), Hen1.
Qed.

(** ** Catching up with the clock *)

Lemma tick_loop_spec fuel target s :
  wf s → (tick s ≤ target ≤ TICK_BOUND)%N → (target - tick s ≤ N.of_nat fuel)%N →
  returns (tick_loop try_send fuel target s) (λ s', wf s' ∧ tick s' = target ∧ start s' = start s ∧
    length (entries s') = length (entries s) ∧ ∃ evs, expires target s evs s').
Proof.
  revert s. induction fuel as [|fuel IH]; intros s Hwf Ht Hf; simpl.
  - assert (tick s = target) as -> by lia. split_and!; [done..|]. exists []. by apply expires_nil.
  - destruct (N.ltb_spec (tick s) target).
    + apply returns_bind. eapply returns_mono; [apply tick_once_spec; [done|lia]|].
      cbn beta. intros s1 (Hwf1 & Ht1 & Hst1 & Hsz1 & evs1 & He1).
      eapply returns_mono; [apply IH; [done|lia..]|]. cbn beta.
      intros s2 (Hwf2 & Ht2 & Hst2 & Hsz2 & evs2 & He2). split_and!; [done|done|congruence..|].
      exists (evs1 ++ evs2). eapply expires_trans; [|done..]. lia.
    + simpl. assert (tick s = target) as -> by lia. split_and!; [done..|].
      exists []. by apply expires_nil.
Qed.

Lemma expected_tick_bound s now : (expected_tick s now ≤ TICK_BOUND)%N.
Proof.
  unfold expected_tick, as_u64, TICK_MS, TICK_BOUND, u64_mod.
  pose proof (N.mod_lt ((now - start s) / 1000000) 18446744073709551616). lia_div.
Qed.

Lemma flush_wf s : wf s → wf (flush try_send s).
Proof.
  intros [Hslab Hwh Hcov Ht Httl Hba]. split; try done.
  - by eapply slab_wf_ext; [..|exact Hslab].
  - unfold BATCH. simpl. lia.
Qed.

(** The tick a call of [on_tick] at time [now] advances to. *)
Definition tick_target s (now : N) : N :=
  N.max (tick s) (N.min (expected_tick s now) (tick s + MAX_CATCHUP)).

Lemma on_tick_spec s now :
  wf s →
  returns (on_tick try_send s now) (λ s', wf s' ∧ tick s' = tick_target s now ∧
    start s' = start s ∧ length (entries s') = length (entries s) ∧ batch s' = [] ∧
    ∃ s1 evs, expires (tick s') s evs s1 ∧
      s' = (if decide (batch s1 = []) then s1 else flush try_send s1)).
Proof.
  intros Hwf. unfold on_tick, tick_target. pose proof (expected_tick_bound s now).
  pose proof (wf_tick _ Hwf).
  assert (wadd64 (tick s) MAX_CATCHUP = tick s + MAX_CATCHUP)%N as ->.
  { apply N.mod_small. unfold TICK_BOUND, MAX_CATCHUP, u64_mod in *. lia. }
  set (target := N.min _ _).
  apply returns_bind, (returns_mono _ (λ s', wf s' ∧ tick s' = N.max (tick s) target ∧ start s' = start s ∧
    length (entries s') = length (entries s) ∧ ∃ evs, expires (N.max (tick s) target) s evs s')).
  { destruct (N.le_ge_cases (tick s) target).
    - rewrite N.max_r by done. apply tick_loop_spec; [done|lia..].
    - replace (target - tick s)%N with 0%N by lia. simpl.
      split_and!; [done|lia|done..|]. exists []. by apply expires_nil. }
  intros s1 (Hwf1 & Ht1 & Hst1 & Hsz1 & evs & Hex). simpl.
  case_decide as Hb; (split_and!; [| | | | |exists s1, evs; rewrite ?decide_True, ?decide_False by done;
    split; [|done]; rewrite <- Ht1 in Hex; exact Hex]); try done.
  by apply flush_wf.
Qed.
End inv.
