(* ===== verification/WheelSpec.v ===== *)
(** * What a shard promises: an expiring map

    The abstract state of a shard is a finite map from keys to deadlines
    ([view]); each command is a function on it ([spec_handle]), and time
    removes the keys whose deadline has come.  The theorems say that the
    slab, the index and the three wheels implement it. *)
From S2P Require Import Prelude Wheel WheelSlab WheelTime WheelInv.

(** What the shard knows of a key. *)
Record Deadline := mkDeadline {
  d_expire : N;
  d_ttl : N;
  d_version : N;
}.

Section spec.
Context {K : Type} `{EqDecision K} (hash : K → N) {Tx : Type}.
Context (try_send : Tx → list (CacheEvent K) → Tx * bool).
Implicit Types s : Shard K Tx.

Definition deadline (e : Entry K) : Deadline :=
  mkDeadline (e_expire_tick e) (e_ttl_tick e) (e_version e).

(** The abstraction function. *)
Definition view s (k : K) : option Deadline :=
  r ← list_find (λ e : Entry K, e_in_use e = true ∧ e_key e = Some k) (entries s);
  Some (deadline r.2).

Definition capacity s : nat := length (entries s).

(** The abstract effect of a command at tick [now], [n] being the number of
    keys present and [cap] the capacity. *)
Definition spec_handle (now : N) (n cap : nat) (c : Command K) (m : K → option Deadline) :
    K → option Deadline :=
  λ k,
  match c with
  | Insert key ttl =>
      if decide (k = key) then
        if decide (m key ≠ None ∨ n < cap) then Some (mkDeadline (now + ttl) ttl 1) else None
      else m k
  | Refresh key =>
      if decide (k = key) then
        d ← m key; Some (mkDeadline (now + d_ttl d) (d_ttl d) (wadd32 (d_version d) 1))
      else m k
  | Delete key => if decide (k = key) then None else m k
  end.

Lemma view_Some s k d :
  slab_wf hash s → view s k = Some d ↔ ∃ idx e, holds s k idx e ∧ d = deadline e.
Proof.
  intros Hwf. unfold view. destruct (list_find _ _) as [[i e]|] eqn:Hf; cbn.
  - apply list_find_Some in Hf as (Hi & [Hu Hk] & _).
    assert (Hh : holds s k (N.of_nat i) e).
    { split_and!; [|done..]. unfold slot. by rewrite Nat2N.id. }
    split; [intros [= <-]; eauto|]. intros (idx & e' & Hh' & ->).
    by destruct (holds_uniq hash s k (N.of_nat i) idx e e') as [_ ->].
  - split; [done|]. intros (idx & e & (He & Hu & Hk) & _). apply list_find_None in Hf.
    rewrite Forall_forall in Hf. destruct (Hf e); [|done]. by eapply list_elem_of_lookup_2.
Qed.

Lemma view_None s k : slab_wf hash s → view s k = None ↔ ∀ idx e, ¬ holds s k idx e.
Proof.
  intros Hwf. split.
  - intros Hv idx e Hh. assert (view s k = Some (deadline e)) by (apply view_Some; eauto). congruence.
  - intros Hno. destruct (view s k) as [d|] eqn:Hv; [|done].
    apply view_Some in Hv as (idx & e & Hh & _); [|done]. by apply Hno in Hh.
Qed.

(** Two shards with the same live entries look the same. *)
Lemma view_ext s s' k k' :
  slab_wf hash s → slab_wf hash s' →
  (∀ idx e, holds s' k' idx e ↔ holds s k idx e) → view s' k' = view s k.
Proof.
  intros Hwf Hwf' Hh. destruct (view s k) as [d|] eqn:Hv.
  - apply view_Some; [done|]. apply view_Some in Hv as (idx & e & ? & ->); [|done].
    exists idx, e. by rewrite Hh.
  - apply view_None; [done|]. intros idx e. rewrite Hh. revert idx e. by apply view_None.
Qed.

Lemma view_same_slab s s' k : same_slab s s' → view s' k = view s k.
Proof. intros []. unfold view. congruence. Qed.

(** ** Scheduling a new or refreshed entry *)

Lemma schedule_fresh s idx e :
  slab_wf hash s → wheels_wf s → slot s idx = Some e → e_in_use e = true →
  (∀ j e', slot s j = Some e' → e_in_use e' = true → j ≠ idx → reach (λ _, tick s + 1)%N s j e') →
  (tick s ≤ TICK_BOUND)%N →
  (∀ j e', slot s j = Some e' → e_in_use e' = true → 1 ≤ e_ttl_tick e' ≤ TICK_BOUND)%N →
  (length (batch s) < BATCH)%nat → e_expire_tick e = (tick s + e_ttl_tick e)%N →
  returns (schedule s idx) (λ s', wf hash s' ∧ same_slab s s').
Proof.
  intros Hslab Hwh He Hu Hcov Ht Httl Hba Hx.
  assert (HB : (TICK_BOUND + 1 < u64_mod)%N) by done.
  rewrite (schedule_push s idx e) by (done || lia). simpl.
  pose proof (push_at_same s (place (tick s) (e_expire_tick e)) (idx, e_version e)) as Hss.
  pose proof (Httl idx e He Hu) as Hte. split; [|done]. split.
  - by eapply same_slab_wf.
  - apply push_at_wf; [done|apply place_lt|by eexists].
  - rewrite (ss_tick _ _ Hss). intros j e' Hj Hu'. rewrite (same_slab_slot s) in Hj by done. left.
    destruct (decide (j = idx)) as [->|Hne].
    + simplify_eq. apply reach_scheduled; [done|lia..].
    + apply reach_push; [done|apply place_lt|by apply Hcov].
  - by rewrite (ss_tick _ _ Hss).
  - intros j e'. rewrite (same_slab_slot s) by done. apply Httl.
  - by rewrite (ss_batch _ _ Hss).
Qed.

Lemma cov_reach lo s idx e :
  cov lo 0 [] s → slot s idx = Some e → e_in_use e = true → reach lo s idx e.
Proof. intros Hc He Hu. by destruct (Hc idx e He Hu) as [|[?%not_elem_of_nil _]]. Qed.

Lemma reach_ext lo s s' idx e :
  (∀ lv, wheel lv s' = wheel lv s) → reach lo s idx e → reach lo s' idx e.
Proof. unfold reach, tok_in. intros Hw (lv & τ & ?). exists lv, τ. by rewrite Hw. Qed.

(** ** Removing a key *)

Lemma vacate_wheel s idx e lv : wheel lv (vacate s idx e) = wheel lv s.
Proof. unfold vacate. rewrite remove_index_frame. by destruct lv. Qed.

Lemma vacate_frame s idx e :
  tick (vacate s idx e) = tick s ∧ start (vacate s idx e) = start s ∧
  out (vacate s idx e) = out s ∧ capacity (vacate s idx e) = capacity s.
Proof.
  unfold vacate, capacity, out. rewrite remove_index_frame. simpl. by rewrite length_insert.
Qed.

Lemma vacate_inv s k idx e : wf hash s → holds s k idx e → wf hash (vacate s idx e).
Proof.
  intros [Hslab Hwh Hcov Ht Httl Hba] Hh. pose proof Hh as (He & Hu & Hk).
  destruct (vacate_frame s idx e) as (Htk & _ & Hout & _).
  pose proof (f_equal snd Hout : batch (vacate s idx e) = batch s) as Hb. clear Hout.
  assert (Hold : ∀ j e', slot (vacate s idx e) j = Some e' → e_in_use e' = true → slot s j = Some e').
  { intros j e'. rewrite vacate_slot by done. case_decide; [intros [= <-]|]; done. }
  split.
  - by apply vacate_wf.
  - eapply wheels_ext; [intros; apply vacate_wheel| |exact Hwh]. intros i Hi.
    rewrite vacate_slot by done. by case_decide.
  - rewrite Htk. intros j e' Hj Hu'. left. apply (reach_ext _ s); [intros; apply vacate_wheel|].
    apply cov_reach; [done| |done]. by apply Hold.
  - by rewrite Htk.
  - intros j e' Hj Hu'. apply (Httl j); [by apply Hold|done].
  - by rewrite Hb.
Qed.

Lemma vacate_view s k idx e k' :
  wf hash s → holds s k idx e →
  view (vacate s idx e) k' = if decide (k' = k) then None else view s k'.
Proof.
  intros Hwf Hh. pose proof (wf_slab _ _ (vacate_inv s k idx e Hwf Hh)) as Hwf'.
  pose proof (wf_slab _ _ Hwf) as Hsl. pose proof Hh as (He & Hu & Hk). case_decide as Hd.
  - subst k'. apply view_None; [done|]. intros j e'. rewrite (vacate_holds hash) by done.
    intros [Hh' Hne]. by destruct (holds_uniq hash s k j idx e' e).
  - apply view_ext; [done..|]. intros j e'. rewrite (vacate_holds hash) by done.
    split; [by intros []|]. intros Hh'. split; [done|]. intros ->.
    destruct Hh as (_ & _ & Hk1), Hh' as (He2 & _ & Hk2). congruence.
Qed.

(** The frame of a command: it moves neither time nor the event channel. *)
Definition cmd_frame s s' : Prop :=
  tick s' = tick s ∧ start s' = start s ∧ out s' = out s ∧ capacity s' = capacity s.

Lemma cmd_frame_trans s s' s'' : cmd_frame s s' → cmd_frame s' s'' → cmd_frame s s''.
Proof. unfold cmd_frame. intuition congruence. Qed.

Lemma same_slab_frame s s' : same_slab s s' → cmd_frame s s'.
Proof. intros []. unfold cmd_frame, out, capacity. by repeat split; congruence. Qed.

(** [remove_index] followed by [free], on the slot a lookup found. *)
Lemma remove_found s key :
  wf hash s →
  returns (find_entry s key (hash key)) (λ r,
    match r with
    | Some idx => ∃ e, holds s key idx e ∧
        free (remove_index s (hash key) idx) idx = Ret (vacate s idx e)
    | None => view s key = None
    end).
Proof.
  intros Hwf. pose proof (wf_slab _ _ Hwf) as Hsl.
  eapply returns_mono; [by apply find_entry_spec|]. intros [idx|]; cbn beta iota.
  - intros (e & Hh). exists e. split; [done|]. destruct Hh as (He & Hu & Hk).
    pose proof (sw_key hash s Hsl idx e He) as Hk'. rewrite Hu in Hk'.
    destruct Hk' as (k & Hk' & Hhash). rewrite Hk in Hk'. simplify_eq.
    rewrite <- Hhash. by apply (free_vacate hash).
  - intros Hno. by apply view_None.
Qed.

Lemma delete_spec s key :
  wf hash s → returns (delete hash s key) (λ s', wf hash s' ∧ cmd_frame s s' ∧
    ∀ k, view s' k = spec_handle (tick s) (used s) (capacity s) (Delete key) (view s) k).
Proof.
  intros Hwf. unfold delete. apply returns_bind.
  eapply returns_mono; [by apply remove_found|]. intros [idx|]; cbn beta iota.
  - intros (e & Hh & ->). simpl. split_and!; [by eapply vacate_inv|apply vacate_frame|].
    intros k. by apply vacate_view.
  - intros Hv. simpl. split_and!; [done..|]. intros k. by case_decide; subst.
Qed.

(** ** Refreshing a key *)

Lemma refresh_spec s key :
  wf hash s → returns (refresh hash s key) (λ s', wf hash s' ∧ cmd_frame s s' ∧
    ∀ k, view s' k = spec_handle (tick s) (used s) (capacity s) (Refresh key) (view s) k).
Proof.
  intros Hwf. pose proof Hwf as [Hsl Hwh Hcov Ht Httl Hba]. unfold refresh. apply returns_bind.
  eapply returns_mono; [by apply remove_found|]. intros [idx|]; cbn beta iota.
  2:{ intros Hv. simpl. split_and!; [done..|]. intros k. case_decide; [|done]. subst. by rewrite Hv. }
  intros (e & Hh & _). pose proof Hh as (He & Hu & Hk).
  rewrite (entry_at_slot _ _ _ He). cbn [mbind exec_bind].
  rewrite (put_entry_slot _ _ e) by done. cbn [mbind exec_bind].
  set (e' := bump (tick s) e). change (set_entries _ s) with (rewrite_slot s idx e').
  assert (Hslot : ∀ j, slot (rewrite_slot s idx e') j = if decide (idx = j) then Some e' else slot s j).
  { intros j. by apply (rewrite_slot_slot s idx e). }
  assert (Hsl' : slab_wf hash (rewrite_slot s idx e')) by by apply (rewrite_slot_wf hash s idx e e').
  destruct (Httl idx e He Hu) as [Hlo Hhi].
  assert (Hfr : cmd_frame s (rewrite_slot s idx e')).
  { unfold cmd_frame, capacity. simpl. by rewrite length_insert. }
  assert (Hx : e_expire_tick e' = (tick s + e_ttl_tick e)%N).
  { apply N.mod_small. unfold TICK_BOUND, u64_mod in *. lia. }
  eapply returns_mono; [apply (schedule_fresh _ idx e')|]; try done.
  - apply (wheels_ext s); [by intros []|intros i Hi; rewrite Hslot; destruct (decide _); [by eexists|done]|exact Hwh].
  - rewrite Hslot. by rewrite decide_True.
  - intros j e1. rewrite Hslot. case_decide; [done|].
    intros Hj Hu1 _. apply (reach_ext _ s); [by intros []|]. by apply cov_reach.
  - intros j e1. rewrite Hslot. case_decide; [|by apply Httl]. by intros [= <-] _.
  - cbn beta. intros s' [Hwf' Hss]. split_and!; [done|apply (cmd_frame_trans _ _ _ Hfr), same_slab_frame, Hss|].
    intros k. rewrite (view_same_slab _ _ _ Hss). unfold spec_handle. case_decide as Hd.
    + subst k. assert (view s key = Some (deadline e)) as -> by (apply view_Some; eauto).
      cbn [mbind option_bind].
      apply view_Some; [done|]. exists idx, e'. unfold holds. rewrite Hslot, decide_True by done.
      split; [done|]. unfold deadline. by rewrite Hx.
    + apply view_ext; [done..|]. intros j e1. unfold holds. rewrite Hslot. case_decide; [|done].
      subst j. split; intros (H1 & H2 & H3); simplify_eq/=; congruence.
Qed.

(** ** Inserting a key *)

(** Insertion of a key that is not there. *)
Lemma insert_fresh s key ttl :
  wf hash s → (1 ≤ ttl ≤ TICK_BOUND)%N → view s key = None →
  returns
    ('(slot, s) ← alloc s;
     match slot with
     | Some idx =>
         e ← entry_at s idx;
         s ← put_entry s idx (write e key (hash key) ttl (tick s));
         schedule (insert_index s (hash key) idx) idx
     | None => Ret s
     end)
    (λ s', wf hash s' ∧ cmd_frame s s' ∧
       ∀ k, view s' k = if decide (k = key) then
         if decide (used s < capacity s) then Some (mkDeadline (tick s + ttl) ttl 1) else None
       else view s k).
Proof.
  intros Hwf Httl' Hv. pose proof Hwf as [Hsl Hwh Hcov Ht Httl Hba].
  pose proof (alloc_spec hash s Hsl) as Ha. unfold capacity. destruct (decide (used s < _)) as [Hroom|Hfull].
  2:{ rewrite Ha. simpl. split_and!; [done..|]. intros k. case_decide; [by subst|done]. }
  destruct Ha as (e & He & Hu & ->). cbn [mbind exec_bind].
  rewrite (entry_at_slot _ _ e) by done. cbn [mbind exec_bind].
  rewrite (put_entry_slot _ _ e) by done. cbn [mbind exec_bind].
  set (idx := free_head s) in *. set (e' := write e key (hash key) ttl (tick s)).
  change (returns (schedule (occupy hash s key ttl idx e) idx) (λ s', wf hash s' ∧ cmd_frame s s' ∧
       ∀ k, view s' k = if decide (k = key) then Some (mkDeadline (tick s + ttl) ttl 1) else view s k)).
  assert (Hslot : ∀ j, slot (occupy hash s key ttl idx e) j = if decide (idx = j) then Some e' else slot s j).
  { intros j. by apply occupy_slot. }
  assert (Hfresh : ∀ j e1, ¬ holds s key j e1) by by apply view_None.
  assert (Hsl' : slab_wf hash (occupy hash s key ttl idx e)) by by apply occupy_wf.
  assert (Hx : e_expire_tick e' = (tick s + ttl)%N).
  { apply N.mod_small. unfold TICK_BOUND, u64_mod in *. lia. }
  assert (Hfr : cmd_frame s (occupy hash s key ttl idx e)).
  { unfold cmd_frame, capacity. simpl. by rewrite length_insert. }
  eapply returns_mono; [apply (schedule_fresh _ idx e')|]; try done.
  - apply (wheels_ext s); [by intros []|intros i Hi; rewrite Hslot; destruct (decide _); [by eexists|done]|exact Hwh].
  - rewrite Hslot. by rewrite decide_True.
  - intros j e1. rewrite Hslot. case_decide; [done|].
    intros Hj Hu1 _. apply (reach_ext _ s); [by intros []|]. by apply cov_reach.
  - intros j e1. rewrite Hslot. case_decide; [|by apply Httl]. by intros [= <-] _.
  - cbn beta. intros s' [Hwf' Hss]. split_and!; [done|apply (cmd_frame_trans _ _ _ Hfr), same_slab_frame, Hss|].
    intros k. rewrite (view_same_slab _ _ _ Hss). case_decide as Hd.
    + subst k. apply view_Some; [done|]. exists idx, e'. rewrite (occupy_holds hash) by done.
      split; [by left|]. unfold deadline. by rewrite Hx.
    + apply view_ext; [done..|]. intros j e1. rewrite (occupy_holds hash) by done.
      split; [|by right]. intros [(_ & -> & _)|]; done.
Qed.

Lemma insert_spec s key ttl :
  wf hash s → (1 ≤ ttl ≤ TICK_BOUND)%N → returns (insert hash s key ttl) (λ s', wf hash s' ∧ cmd_frame s s' ∧
    ∀ k, view s' k = spec_handle (tick s) (used s) (capacity s) (Insert key ttl) (view s) k).
Proof.
  intros Hwf Httl. unfold insert. apply returns_bind.
  eapply returns_mono; [by apply remove_found|]. intros [idx|]; cbn beta iota.
  - intros (e & Hh & ->). cbn [mbind exec_bind].
    pose proof (vacate_frame s idx e) as Hfr. destruct Hfr as (Htk & Hst & Hout & Hcap).
    pose proof (vacate_inv s key idx e Hwf Hh) as Hwf1. pose proof Hh as (He & Hu & Hk).
    assert (Hroom : used (vacate s idx e) < capacity s).
    { rewrite <- Hcap. apply used_lt. exists idx, (emptied e (free_head s)).
      rewrite vacate_slot, decide_True by done. done. }
    eapply returns_mono; [apply (insert_fresh _ key ttl Hwf1 Httl)|].
    { rewrite (vacate_view s key) by done. by rewrite decide_True. }
    cbn beta. rewrite Htk, Hcap. intros s' (Hwf' & Hfr & Hv).
    split; [done|]. split.
    { destruct Hfr as (H1 & H2 & H3 & H4). unfold cmd_frame. by repeat split; congruence. }
    intros k. rewrite Hv.
    assert (view s key = Some (deadline e)) as Hve by (apply view_Some; [by destruct Hwf|eauto]).
    unfold spec_handle. rewrite (vacate_view s key) by done.
    destruct (decide (k = key)) as [->|]; [|done].
    rewrite (decide_True _ _ Hroom), decide_True; [done|]. left. by rewrite Hve.
  - intros Hv. cbn [mbind exec_bind].
    eapply returns_mono; [by apply insert_fresh|]. cbn beta. intros s' (Hwf' & Hfr & Hv').
    split; [done|]. split; [done|]. intros k. rewrite Hv'. unfold spec_handle. destruct (decide (k = key)) as [->|]; [|done].
    rewrite Hv. destruct (decide (used s < capacity s)); case_decide; naive_solver.
Qed.
End spec.
