(* ===== verification/WheelProps.v ===== *)
(** * What the timing wheel guarantees to its clients

    A run of a shard's task refines an abstract expiring map; keys expire in
    time, never early; each expired key is reported once; time-to-live and
    shard arithmetic stay in range. *)
From S2P Require Import Prelude Wheel WheelSlab WheelTime WheelInv WheelSpec.

Section abstract.
Context {K : Type} `{EqDecision K} (hash : K → N) {Tx : Type}.
Context (try_send : Tx → list (CacheEvent K) → Tx * bool).
Implicit Types s : Shard K Tx.
Implicit Types m : K → option Deadline.

(** The map [m] has [n] keys. *)
Definition card m (n : nat) : Prop :=
  ∃ l, NoDup l ∧ length l = n ∧ ∀ k, m k ≠ None ↔ k ∈ l.

(** Time moves to tick [t]: only keys whose deadline has come disappear,
    and what stays is not overdue (one tick of grace at multiples of 512). *)
Definition spec_tick (t : N) m m' : Prop :=
  ∀ k,
  match m' k with
  | Some d => m k = Some d ∧
      (t < d_expire d ∨ t = d_expire d ∧ t mod WHEEL_L1 = 0)%N
  | None => ∀ d, m k = Some d → (d_expire d ≤ t)%N
  end.

Inductive spec_step (cap : nat) : N * (K → option Deadline) → N * (K → option Deadline) → Prop :=
  | spec_cmd t n c m m' :
      cmd_ok c → card m n → (∀ k, m' k = spec_handle t n cap c m k) →
      spec_step cap (t, m) (t, m')
  | spec_time t t' m m' :
      (t ≤ t')%N → spec_tick t' m m' → spec_step cap (t, m) (t', m').

Lemma live_in_time s k d :
  wf hash s → view s k = Some d →
  (tick s < d_expire d ∨ tick s = d_expire d ∧ tick s mod WHEEL_L1 = 0)%N.
Proof.
  intros Hwf Hv. apply (view_Some hash) in Hv as (idx & e & (He & Hu & _) & ->); [|by destruct Hwf].
  destruct (cov_reach _ _ _ _ (wf_cov _ _ Hwf) He Hu) as (lv & τ & (Hm & Hlo & Hx) & _).
  unfold WHEEL_L1, deadline. simpl. destruct Hx as [|(-> & -> & ?)]; [lia|].
  destruct (N.eq_dec (tick s) (e_expire_tick e)) as [Heq|]; [|lia]. rewrite Heq. by right.
Qed.

Definition live_key (e : Entry K) : option K := if e_in_use e then e_key e else None.

Lemma live_keys (es : list (Entry K)) :
  (∀ i j e e', es !! i = Some e → es !! j = Some e' →
     e_in_use e = true → e_in_use e' = true → e_key e = e_key e' → i = j) →
  (∀ e, e ∈ es → e_in_use e = true → is_Some (e_key e)) →
  NoDup (omap live_key es) ∧
  length (omap live_key es) = length (filter (λ e : Entry K, e_in_use e = true) es).
Proof.
  induction es as [|e es IH]; intros Hu Hk; [by split; [constructor|]|].
  destruct IH as [IHn IHl].
  { intros i j e1 e2 H1 H2 ???. by apply (Hu (S i) (S j) e1 e2) in H1 as [= ->]. }
  { intros e1 He1. apply Hk. by right. }
  change (omap live_key (e :: es)) with
    (match live_key e with Some k => k :: omap live_key es | None => omap live_key es end).
  destruct (live_key e) as [k|] eqn:He; unfold live_key in He.
  - destruct (e_in_use e) eqn:Hiu; [|done]. rewrite filter_cons_True by done.
    split; [|simpl; by f_equal]. constructor; [|done]. intros (e' & Hin & He')%list_elem_of_omap.
    unfold live_key in He'. destruct (e_in_use e') eqn:Hiu'; [|done].
    apply list_elem_of_lookup in Hin as [j Hj].
    by assert (0 = S j) by (apply (Hu 0 (S j) e e'); [..|congruence]; done).
  - destruct (e_in_use e) eqn:Hiu.
    + destruct (Hk e) as [? Hs]; [left|done|congruence].
    + rewrite filter_cons_False by congruence. done.
Qed.

Lemma used_card s : slab_wf hash s → card (view s) (used s).
Proof.
  intros Hwf. exists (omap live_key (entries s)). destruct (live_keys (entries s)) as [Hn Hl].
  - intros i j e e' Hi Hj ? ? ?.
    assert (N.of_nat i = N.of_nat j); [|lia].
    apply (sw_uniq hash s Hwf _ _ e e'); unfold slot; by rewrite ?Nat2N.id.
  - intros e [i Hi]%list_elem_of_lookup Hu. rewrite <- (Nat2N.id i) in Hi.
    pose proof (sw_key hash s Hwf _ _ Hi) as Hk. rewrite Hu in Hk. destruct Hk as (k & -> & _). by eexists.
  - split_and!; [done..|]. intros k. rewrite list_elem_of_omap. split.
    + destruct (view s k) as [d|] eqn:Hv; [|done]. intros _.
      apply (view_Some hash) in Hv as (idx & e & (He & Hu & Hk) & _); [|done]. exists e.
      split; [by eapply list_elem_of_lookup_2|]. unfold live_key. by rewrite Hu.
    + intros (e & [i Hi]%list_elem_of_lookup & Hk) Hv. unfold live_key in Hk.
      destruct (e_in_use e) eqn:Hu; [|done]. rewrite <- (Nat2N.id i) in Hi.
      by apply (proj1 (view_None hash s k Hwf) Hv (N.of_nat i) e).
Qed.

Lemma on_tick_view s now :
  wf hash s →
  returns (on_tick try_send s now) (λ s', wf hash s' ∧ tick s' = tick_target s now ∧
    start s' = start s ∧ capacity s' = capacity s ∧ spec_tick (tick s') (view s) (view s')).
Proof.
  intros Hwf. eapply returns_mono; [by apply on_tick_spec|]. cbn beta.
  intros s' (Hwf' & Ht & Hst & Hcap & Hb & s1 & evs & Hex & Hs1).
  split_and!; [done..|]. pose proof (wf_slab _ _ Hwf) as Hsl. pose proof (wf_slab _ _ Hwf') as Hsl'.
  assert (Hes : ∀ k idx e, holds s' k idx e ↔ holds s1 k idx e) by (subst s'; by case_decide).
  intros k. destruct (view s' k) as [d|] eqn:Hv.
  - split; [|by eapply live_in_time]. apply (view_Some hash) in Hv as (idx & e & Hh & ->); [|done].
    apply (view_Some hash); [done|]. exists idx, e. split; [|done]. by apply (exp_keep _ _ _ _ _ Hex), Hes.
  - intros d Hd. apply (view_Some hash) in Hd as (idx & e & Hh & ->); [|done].
    pose proof (proj1 (view_None hash s' k Hsl') Hv) as Hno.
    destruct (exp_gone _ _ _ _ _ Hex k idx e Hh) as [H1|Hin]; [by apply Hes, Hno in H1|].
    destruct (exp_event _ _ _ _ _ Hex _ Hin) as (j & e' & Hh' & Heq & Hle & _).
    simpl in Hh'. by destruct (holds_uniq hash s k idx j e e') as [_ <-].
Qed.

(** ** The initial state *)

Lemma new_slot cap now (tx : Tx) idx e :
  slot (new (K:=K) cap now tx) idx = Some e → N.to_nat idx < cap ∧ e = new_empty (as_u32 (idx + 1)).
Proof.
  unfold slot, new. simpl. rewrite list_lookup_fmap. intros (i & Hi & ->)%fmap_Some.
  apply lookup_seq in Hi as [-> Hlt]. simpl. split; [done|]. do 2 f_equal. lia.
Qed.

Lemma new_chain cap now (tx : Tx) n i :
  (N.of_nat cap < u32_mod)%N → i + n = cap →
  free_chain (entries (new (K:=K) cap now tx)) (N.of_nat i) (N.of_nat <$> seq i n).
Proof.
  intros Hcap. revert i. induction n as [|n IH]; intros i Hi.
  - constructor. simpl. rewrite length_fmap, length_seq. lia.
  - simpl. eapply chain_cons.
    + simpl. rewrite list_lookup_fmap, lookup_seq_lt by lia. simpl. rewrite Nat2N.id. reflexivity.
    + done.
    + simpl. assert (as_u32 (N.of_nat (i + 1)) = N.of_nat (S i)) as ->.
      { unfold as_u32. rewrite N.mod_small; lia. }
      apply IH. lia.
Qed.

Lemma new_slab_wf cap now (tx : Tx) : (N.of_nat cap < u32_mod)%N → slab_wf hash (new (K:=K) cap now tx).
Proof.
  intros Hcap. split.
  - simpl. by rewrite length_fmap, length_seq.
  - exists (N.of_nat <$> seq 0 cap). split_and!.
    + by apply (new_chain cap now tx cap 0).
    + apply NoDup_fmap; [apply _|apply NoDup_seq].
    + intros idx e [Hlt ->]%new_slot. split; [|done]. intros _. apply list_elem_of_fmap.
      exists (N.to_nat idx). split; [lia|]. apply elem_of_seq. lia.
  - intros idx e [_ ->]%new_slot. done.
  - intros h. unfold indexed. simpl. rewrite lookup_empty. by split; [constructor|].
  - intros h idx. unfold indexed. simpl. rewrite lookup_empty. split; [by intros []%not_elem_of_nil|].
    by intros (e & [_ ->]%new_slot & ? & _).
  - intros i j e e' [_ ->]%new_slot _ ?. done.
Qed.

Lemma new_wf cap now (tx : Tx) : (N.of_nat cap < u32_mod)%N → wf hash (new (K:=K) cap now tx).
Proof.
  intros Hcap. split.
  - by apply new_slab_wf.
  - split.
    + by intros [].
    + intros lv i b t Hb Hin. assert (b = []) as ->; [|by apply not_elem_of_nil in Hin].
      destruct lv; by apply lookup_replicate in Hb as [-> _].
  - intros idx e [_ ->]%new_slot. done.
  - done.
  - intros idx e [_ ->]%new_slot. done.
  - unfold BATCH. simpl. lia.
Qed.

Lemma handle_view s c :
  wf hash s → cmd_ok c → returns (handle hash s c) (λ s', wf hash s' ∧ cmd_frame s s' ∧
    ∀ k, view s' k = spec_handle (tick s) (used s) (capacity s) c (view s) k).
Proof.
  intros Hwf Hc. destruct c as [key ttl|key|key]; [by apply insert_spec|by apply refresh_spec|by apply delete_spec].
Qed.

(** One step of the invariant of a run. *)
Definition simulates cap s0 s : Prop :=
  wf hash s ∧ capacity s = cap ∧ start s = start s0 ∧
  rtc (spec_step cap) (tick s0, view s0) (tick s, view s).

Lemma handle_simulates cap s0 s c :
  simulates cap s0 s → cmd_ok c → returns (handle hash s c) (simulates cap s0).
Proof.
  intros (Hwf & Hcap & Hst & Hr) Hc. eapply returns_mono; [by apply handle_view|].
  intros s' (Hwf' & (Ht & Hst' & _ & Hcap') & Hv). split_and!; [done|congruence..|].
  eapply rtc_r; [done|]. rewrite Ht. eapply spec_cmd; [done|by apply used_card, wf_slab|].
  intros k. by rewrite Hv, Hcap.
Qed.

Lemma inbox_simulates cap s0 s inbox :
  simulates cap s0 s → Forall cmd_ok inbox →
  returns (exec_fold (handle hash) s inbox) (simulates cap s0).
Proof.
  intros Hs Hc. eapply returns_mono.
  - apply (returns_fold _ (λ cs s, simulates cap s0 s ∧ Forall cmd_ok cs)); [|done].
    intros c cs s' [Hs' [Hc' Hcs]%Forall_cons].
    eapply returns_mono; [by apply handle_simulates|]. done.
  - by intros s' [].
Qed.

Lemma on_tick_simulates cap s0 s now :
  simulates cap s0 s → returns (on_tick try_send s now) (simulates cap s0).
Proof.
  intros (Hwf & Hcap & Hst & Hr). eapply returns_mono; [by apply on_tick_view|].
  intros s' (Hwf' & Ht & Hst' & Hcap' & Hv). split_and!; [done|congruence..|].
  eapply rtc_r; [done|]. apply spec_time; [|done]. rewrite Ht. unfold tick_target. lia.
Qed.

Lemma run_simulates cap s0 turns last s :
  simulates cap s0 s → Forall (λ t, Forall cmd_ok t.1) turns → Forall cmd_ok last →
  returns (run hash try_send s turns last) (simulates cap s0).
Proof.
  intros Hs Ht Hl. revert s Hs. induction Ht as [|[inbox now] turns Hi _ IH]; intros s Hs; simpl.
  - unfold run_turn. apply returns_bind, returns_bind.
    eapply returns_mono; [by apply inbox_simulates|]. intros s' (Hwf' & Hs'). simpl.
    case_decide; [done|]. by split; [apply flush_wf|].
  - unfold run_turn. apply returns_bind, returns_bind.
    eapply returns_mono; [by apply inbox_simulates|]. intros s' Hs'.
    apply returns_bind. eapply returns_mono; [by apply on_tick_simulates|].
    intros s'' Hs''. by apply IH.
Qed.
End abstract.

(** ** Events *)

Section events.
Context {K : Type} `{EqDecision K} (hash : K → N) {Tx : Type}.
Context (try_send : Tx → list (CacheEvent K) → Tx * bool).
Implicit Types s : Shard K Tx.

(** The channel after a list of batches was offered to it. *)
Definition offered (tx : Tx) (bs : list (list (CacheEvent K))) : Tx :=
  foldl (λ tx b, (try_send tx b).1) tx bs.

Definition batch_ok (b : list (CacheEvent K)) : Prop := 0 < length b ≤ BATCH.

Lemma out_batches tx b evs :
  length b < BATCH →
  ∃ bs, Forall batch_ok bs ∧ length (foldl (out_step try_send) (tx, b) evs).2 < BATCH ∧
    concat bs ++ (foldl (out_step try_send) (tx, b) evs).2 = b ++ evs ∧
    (foldl (out_step try_send) (tx, b) evs).1 = offered tx bs.
Proof.
  revert tx b. induction evs as [|ev evs IH]; intros tx b Hb.
  - exists []. simpl. by rewrite app_nil_r.
  - cbn [foldl].
    assert (out_step try_send (tx, b) ev = if (BATCH <=? length (b ++ [ev]))%nat
      then ((try_send tx (b ++ [ev])).1, []) else (tx, b ++ [ev])) as -> by done.
    destruct (Nat.leb_spec BATCH (length (b ++ [ev]))) as [Hge|Hlt].
    + rewrite length_app in Hge. simpl in Hge.
      destruct (IH (try_send tx (b ++ [ev])).1 []) as (bs & Hbs & Hl & Hc & Ho).
      { unfold BATCH. simpl. lia. }
      exists ((b ++ [ev]) :: bs). split_and!; [|done| |done].
      * constructor; [|done]. unfold batch_ok. rewrite length_app. simpl. lia.
      * simpl. by rewrite <- app_assoc, Hc, <- app_assoc.
    + destruct (IH tx (b ++ [ev])) as (bs & Hbs & Hl & Hc & Ho); [done|].
      exists bs. split_and!; [done..| |done]. by rewrite Hc, <- app_assoc.
Qed.

(** The event a client reads for a key that held [d]. *)
Definition event_for (k : K) (d : Deadline) : CacheEvent K := mkEvent k (hash k) (d_version d).

Lemma on_tick_out s now :
  wf hash s →
  returns (on_tick try_send s now) (λ s', ∃ evs bs,
    batch s' = [] ∧ event_tx s' = offered (event_tx s) bs ∧
    Forall batch_ok bs ∧ concat bs = batch s ++ evs ∧ NoDup (ev_key <$> evs) ∧
    ∀ ev, ev ∈ evs ↔ ∃ k d, ev = event_for k d ∧ view s k = Some d ∧ view s' k = None).
Proof.
  intros Hwf. eapply returns_mono.
  { apply returns_and; [by apply (on_tick_spec hash)|by apply (on_tick_view hash)]. } cbn beta.
  intros s' ((Hwf' & _ & _ & _ & Hb & s1 & evs & [Ho Hk Hg He Hn] & Hs1) & _).
  pose proof (wf_slab _ _ Hwf) as Hsl. pose proof (wf_slab _ _ Hwf') as Hsl'.
  destruct (out_batches (event_tx s) (batch s) evs) as (bs & Hbs & Hl & Hc & Hof).
  { by destruct Hwf. }
  change (event_tx s, batch s) with (out s) in *. rewrite <- Ho in *. cbn [out fst snd] in *.
  assert (Hes : ∀ k idx e, holds s' k idx e ↔ holds s1 k idx e) by (subst s'; by case_decide).
  set (bs' := if decide (batch s1 = []) then bs else bs ++ [batch s1]).
  assert (event_tx s' = offered (event_tx s) bs' ∧ Forall batch_ok bs' ∧ concat bs' = batch s ++ evs)
    as (Hout1 & Hout2 & Hout3).
  { subst s' bs'. case_decide as Hd.
    - by rewrite Hd, app_nil_r in Hc.
    - split_and!; [| |by rewrite concat_app; simpl; rewrite app_nil_r].
      + unfold offered in *. by rewrite foldl_app, <- Hof.
      + apply Forall_app. split; [done|]. constructor; [|done]. unfold batch_ok.
        destruct (batch s1); simpl in *; [done|lia]. }
  exists evs, bs'. split_and!; [done..|].
  intros ev. split.
  - intros Hin. destruct (He ev Hin) as (idx & e & Hh & Hev & _ & Hno).
      pose proof Hh as (Hs & Hu & Hke). pose proof (sw_key hash s Hsl idx e Hs) as Hk'.
      rewrite Hu in Hk'. destruct Hk' as (k & Hk' & Hhash). rewrite Hke in Hk'. simplify_eq.
      exists (ev_key ev), (deadline e). split_and!.
      * rewrite Hev at 1. unfold event_of, event_for. by rewrite Hhash.
      * apply (view_Some hash); eauto.
      * apply (view_None hash); [done|]. intros j e'. by rewrite Hes.
  - intros (k & d & -> & Hv & Hv'). apply (view_Some hash) in Hv as (idx & e & Hh & ->); [|done].
      destruct (Hg k idx e Hh) as [H1|Hin].
      { by apply Hes, (proj1 (view_None hash s' k Hsl') Hv') in H1. }
      destruct Hh as (Hs & Hu & Hke). pose proof (sw_key hash s Hsl idx e Hs) as Hk'.
      rewrite Hu in Hk'. destruct Hk' as (k1 & Hk' & Hhash). rewrite Hke in Hk'. simplify_eq.
      unfold event_of in Hin. by rewrite Hhash in Hin.
Qed.
End events.

(** ** The properties *)

Section properties.
Context {K : Type} `{EqDecision K} (hash : K → N) {Tx : Type}.
Context (try_send : Tx → list (CacheEvent K) → Tx * bool).
Implicit Types s : Shard K Tx.

(** C1: A shard's task, run from the empty shard on any sequence of turns with
    in-range time-to-live values, never panics and never reads uninitialised
    memory, keeps its invariant, and refines the abstract expiring map. *)
Theorem run_refines cap now (tx : Tx) turns last :
  (N.of_nat cap < u32_mod)%N →
  Forall (λ t, Forall cmd_ok t.1) turns → Forall cmd_ok last →
  returns (run hash try_send (new cap now tx) turns last) (λ s,
    wf hash s ∧ ∃ m0, (∀ k, m0 k = None) ∧ rtc (spec_step cap) (0%N, m0) (tick s, view s)).
Proof.
  intros Hcap Ht Hl. eapply returns_mono.
  - apply (run_simulates hash try_send cap (new cap now tx)); [|done..].
    split_and!; [by apply new_wf|unfold capacity; simpl; by rewrite length_fmap, length_seq|done|done].
  - cbn beta. intros s (Hwf & _ & _ & Hr). split; [done|].
    exists (view (new cap now tx)). split; [|done]. intros k.
    apply (view_None hash); [by apply new_slab_wf|]. intros idx e ([_ ->]%new_slot & ? & _). done.
Qed.

(** Every command has its abstract effect on the keys of the shard: an
    insert sets the deadline or, for a new key in a full shard, changes
    nothing; a refresh moves the deadline by the original time-to-live; a
    delete removes the key.  Time and the event channel are left alone. *)
Theorem handle_refines s c :
  wf hash s → cmd_ok c →
  returns (handle hash s c) (λ s', wf hash s' ∧ cmd_frame s s' ∧
    ∀ k, view s' k = spec_handle (tick s) (used s) (capacity s) c (view s) k).
Proof. apply handle_view. Qed.

(** A tick at time [now] advances the wheel to the elapsed tick, by at most
    [MAX_CATCHUP] ticks, and then a key is gone only if its deadline has come,
    and is still there only if its deadline lies ahead (or is the current
    tick, at the multiples of 512, where it expires one tick late). *)
Theorem on_tick_expiry s now :
  wf hash s →
  returns (on_tick try_send s now) (λ s', wf hash s' ∧
    tick s' = N.max (tick s) (N.min (expected_tick s now) (tick s + MAX_CATCHUP)) ∧
    ∀ k, match view s' k with
         | Some d => view s k = Some d ∧
             (tick s' < d_expire d ∨ tick s' = d_expire d ∧ tick s' mod WHEEL_L1 = 0)%N
         | None => ∀ d, view s k = Some d → (d_expire d ≤ tick s')%N
         end).
Proof.
  intros Hwf. eapply returns_mono; [by apply (on_tick_view hash)|].
  intros s' (? & ? & _ & _ & ?). done.
Qed.

(** The batches a tick offers to the event channel are the events kept from
    before followed by one event for each key that expired, no key twice, in
    batches of 1 to 64, and nothing is kept back. *)
Theorem on_tick_events s now :
  wf hash s →
  returns (on_tick try_send s now) (λ s', ∃ evs bs,
    batch s' = [] ∧ event_tx s' = offered try_send (event_tx s) bs ∧
    Forall batch_ok bs ∧ concat bs = batch s ++ evs ∧ NoDup (ev_key <$> evs) ∧
    ∀ ev, ev ∈ evs ↔ ∃ k d, ev = event_for hash k d ∧ view s k = Some d ∧ view s' k = None).
Proof. apply on_tick_out. Qed.

End properties.

(** [ttl_to_tick] rounds the time-to-live up to ticks, never to zero, and
    stays in the range the wheel's arithmetic needs, for every duration. *)
Theorem ttl_to_tick_bounds ttl :
  let ms := as_u64 (ttl / 1000000) in
  let t := ttl_to_tick ttl in
  (1 ≤ t ≤ TICK_BOUND ∧ ms ≤ t * TICK_MS ∧ (ms ≠ 0 → (t - 1) * TICK_MS < ms))%N.
Proof.
  cbv zeta. unfold ttl_to_tick. set (ms := as_u64 (ttl / 1000000)).
  assert (ms < u64_mod)%N by (apply N.mod_lt; done). clearbody ms.
  unfold TICK_MS, TICK_BOUND, u64_mod in *. repeat case_N; lia_div.
Qed.

(** The shard of a hash exists for every non-empty shard vector, and for a
    power of two it is the hash modulo the number of shards. *)
Theorem shard_index_spec len h :
  (0 < len < u64_mod)%N →
  ∃ i, shard_index len h = Ret i ∧ (i < len)%N ∧ (∀ n, len = 2 ^ n → i = h mod 2 ^ n)%N.
Proof.
  intros Hlen. unfold shard_index.
  assert ((len + u64_max) mod u64_mod = len - 1)%N as ->.
  { unfold u64_max, u64_mod in *. replace (len + _)%N with (len - 1 + 1 * 18446744073709551616)%N by lia.
    rewrite N.Div0.mod_add, N.mod_small; lia. }
  pose proof (N.land_le_r h (len - 1)). exists (N.land h (len - 1)).
  destruct (N.ltb_spec (N.land h (len - 1)) len); [|lia]. split_and!; [done|done|].
  intros n ->. rewrite <- N.land_ones, N.ones_equiv. f_equal. lia.
Qed.

(** ** Witnesses *)

Module Example.
(** A shard whose keys are their own hashes and whose channel never fills. *)
Definition log : Type := list (list (CacheEvent N)).
Definition hash (k : N) : N := k mod 2.
Definition try_send (tx : log) (b : list (CacheEvent N)) : log * bool := (tx ++ [b], true).
Definition turns : list (list (Command N) * N) :=
  [([Insert 7 3; Insert 9 600; Insert 11 5], 200000000); ([Delete 9; Insert 9 10], 900000000)]%N.
Definition final : exec (Shard N log) := run hash try_send (new 2 0 []) turns [Refresh 9%N].

Lemma cmds_ok : Forall (λ t, Forall cmd_ok t.1) turns ∧ Forall cmd_ok [Refresh 9%N].
Proof. split; repeat constructor; done. Qed.

Lemma start_wf : wf hash (new 2 0 ([] : log)).
Proof. by apply new_wf. Qed.

(** The third insert finds the shard full; key 9 is deleted and inserted
    again; key 7 is reported. *)
Lemma final_run :
  returns final (λ s, event_tx s = [[mkEvent 7 1 1]]%N ∧ tick s = 4%N ∧
    view s 7%N = None ∧ view s 11%N = None ∧ view s 9%N = Some (mkDeadline 14 10 2)).
Proof. vm_compute. done. Qed.
End Example.

Lemma run_refines_witness :
  returns Example.final (λ s, wf Example.hash s ∧
    ∃ m0, (∀ k, m0 k = None) ∧ rtc (spec_step 2) (0%N, m0) (tick s, view s)).
Proof. apply run_refines; [done|apply Example.cmds_ok..]. Defined.

(** The state after the first turn's commands, where the hypotheses hold. *)
Lemma example_loaded (Q : Shard N Example.log → Prop) :
  (∀ s, wf Example.hash s → Q s) →
  returns (exec_fold (handle Example.hash) (new 2 0 []) [Insert 7 3; Insert 9 512]%N) Q.
Proof.
  intros HQ. eapply returns_mono; [|intros s Hs; apply HQ, Hs].
  eapply returns_mono; [apply (inbox_simulates _ 2 (new 2 0 []))|by intros s []].
  - split_and!; [apply Example.start_wf|done..].
  - repeat constructor; done.
Qed.

Lemma handle_refines_witness :
  returns (exec_fold (handle Example.hash) (new 2 0 []) [Insert 7 3; Insert 9 512]%N)
    (λ s : Shard N Example.log, returns (handle Example.hash s (Insert 7 40)%N) (λ s',
      wf Example.hash s' ∧ cmd_frame s s' ∧
      ∀ k, view s' k = spec_handle (tick s) (used s) (capacity s) (Insert 7 40)%N (view s) k)).
Proof. apply example_loaded. intros s Hs. by apply handle_refines. Defined.

Lemma on_tick_expiry_witness :
  returns (exec_fold (handle Example.hash) (new 2 0 []) [Insert 7 3; Insert 9 512]%N)
    (λ s, returns (on_tick Example.try_send s 1000000000) (λ s', wf Example.hash s' ∧
      tick s' = N.max (tick s) (N.min (expected_tick s 1000000000) (tick s + MAX_CATCHUP)) ∧
      ∀ k, match view s' k with
           | Some d => view s k = Some d ∧
               (tick s' < d_expire d ∨ tick s' = d_expire d ∧ tick s' mod WHEEL_L1 = 0)%N
           | None => ∀ d, view s k = Some d → (d_expire d ≤ tick s')%N
           end)).
Proof. apply example_loaded. intros s Hs. by apply (on_tick_expiry Example.hash Example.try_send). Defined.

Lemma on_tick_events_witness :
  returns (exec_fold (handle Example.hash) (new 2 0 []) [Insert 7 3; Insert 9 512]%N)
    (λ s, returns (on_tick Example.try_send s 1000000000) (λ s', ∃ evs bs,
      batch s' = [] ∧ event_tx s' = offered Example.try_send (event_tx s) bs ∧
      Forall batch_ok bs ∧ concat bs = batch s ++ evs ∧ NoDup (ev_key <$> evs) ∧
      ∀ ev, ev ∈ evs ↔ ∃ k d, ev = event_for Example.hash k d ∧
        view s k = Some d ∧ view s' k = None)).
Proof. apply example_loaded. intros s Hs. by apply (on_tick_events Example.hash Example.try_send). Defined.

Lemma shard_index_spec_witness :
  ∃ i, shard_index 4 1023 = Ret i ∧ (i < 4)%N ∧ (∀ n, 4 = 2 ^ n → i = 1023 mod 2 ^ n)%N.
Proof. by apply shard_index_spec. Defined.

(** ** What modelling showed *)

(** Inserting a key that is present reuses its slot with version 1 again, so
    the token of the first insert is live again: the bucket keeps one live
    token per insert, and [retain] drops none of them. *)
Example reinsert_keeps_old_tokens :
  returns (exec_fold (handle Example.hash) (new 2 0 ([] : Example.log))
             [Insert 7 100; Insert 7 100; Insert 7 100]%N)
    (λ s, wheel_l1 s !! 100%nat = Some [(0, 1); (0, 1); (0, 1)]%N ∧
       retain s [(0, 1); (0, 1); (0, 1)]%N = Ret [(0, 1); (0, 1); (0, 1)]%N).
Proof. vm_compute. done. Qed.

(** With a shard count that is no power of two some shards get no key. *)
Example shard_1_of_3_unused (h : N) : shard_index 3 h ≠ Ret 1%N.
Proof.
  unfold shard_index. change ((3 + u64_max) mod u64_mod)%N with 2%N.
  case_N; [|done]. intros [= Heq]. assert (N.testbit (N.land h 2) 0 = N.testbit 1 0) by by rewrite Heq.
  rewrite N.land_spec in *. simpl in *. by rewrite andb_false_r in *.
Qed.

(** A key due at tick 512 is cascaded at tick 512, finds its deadline reached
    and goes to the next slot: it is still there after that tick. *)
Example multiple_of_512_late :
  returns (exec_fold (handle Example.hash) (new 2 0 ([] : Example.log)) [Insert 7 512]%N) (λ s,
    returns (on_tick Example.try_send s (512 * 200 * 1000000)) (λ s',
      tick s' = 512%N ∧ (d_expire <$> view s' 7%N) = Some 512%N ∧ event_tx s' = [])).
Proof. vm_compute. done. Qed.
