(* ===== verification/Errors.v ===== *)
(** * Errors: the exception crate, base/src/err.rs, base_rpc/src/error.rs

    Errors are values; the logging closure every constructor takes is modelled
    by the list of lines it was called with ([logged]).  The error registry is
    a map from codes to outputs filled by the registrations of every crate. *)
From stdpp Require Import pretty.
From S2P Require Import Prelude.

(** A computation together with the lines its logging closures received. *)
Definition logged (A : Type) : Type := A * list string.

Record BizError := mkBizError { biz_code : N; biz_msg : string }.

Definition dquote : string := String (Ascii.ascii_of_nat 34) EmptyString.
Definition quoted (s : string) : string := dquote +:+ s +:+ dquote.

(** [Display] of a business error. *)
Definition biz_display (e : BizError) : string :=
  "BizError: [code = " +:+ pretty (biz_code e) +:+ ", msg = " +:+ quoted (biz_msg e) +:+ "]".

(** An [anyhow::Error] is known by what its [Display] gives. *)
Inductive GlobalError :=
  | BizErr (e : BizError)
  | SysErr (display : string).

Notation GlobalResult A := (result A GlobalError).

Inductive MessageBusError :=
  | BusFull | BusEmpty | BusTimeout | BusChannelClosed | BusTypeMismatch
  | BusLagged | BusNotFound | BusAlreadyExists.

#[export] Instance MessageBusError_eq_dec : EqDecision MessageBusError.
Proof. solve_decision. Defined.

Section exception.
(** A foreign error type with its two renderings. *)
Context {E : Type} (display debug : E → string).

Definition new_biz_error (code : N) (msg : string) : logged GlobalError :=
  (BizErr (mkBizError code msg),
   ["biz err = [code = " +:+ pretty code +:+ ", msg=" +:+ quoted msg +:+ "]"]).

Definition new_sys_error (msg : string) : logged GlobalError :=
  (SysErr msg, ["sys err = [" +:+ msg +:+ "]"]).

Definition from_external_error (e : E) : logged GlobalError :=
  (SysErr (display e), ["Trace = [" +:+ debug e +:+ "]"]).

Definition from_external_biz_error (e : E) (code : N) (msg : string) : logged GlobalError :=
  (BizErr (mkBizError code msg),
   ["Trace = [code = " +:+ pretty code +:+ ", msg=" +:+ quoted msg +:+ "]; source = [" +:+ debug e +:+ "]"]).

(** [map_err] with a closure that logs. *)
Definition map_err_logged {A : Type} (f : E → logged GlobalError) (r : result A E) :
    logged (GlobalResult A) :=
  match r with
  | Ok a => (Ok a, [])
  | Err e => let '(e', l) := f e in (Err e', l)
  end.

Definition hand_log {A : Type} (r : result A E) : logged (GlobalResult A) :=
  map_err_logged from_external_error r.
Definition hand_log_str {A : Type} (r : result A E) : logged (GlobalResult A) :=
  map_err_logged (λ e, (SysErr (display e), ["Trace = [" +:+ debug e +:+ "]"])) r.
Definition hand_biz_log {A : Type} (code : N) (msg : string) (r : result A E) :
    logged (GlobalResult A) :=
  map_err_logged (λ e, from_external_biz_error e code msg) r.
End exception.

(** ** base/src/err.rs *)

Record ErrorOutput := mkErrorOutput {
  eo_code : N;
  code_name : string;
  user_message : string;
  retryable : bool;
}.

Definition FALLBACK_USER_MESSAGE : string := "系统繁忙！请稍后重试。".

(** A registry of outputs; every registration of a code that is already there
    replaces it and warns. *)
Notation registry := (gmap N ErrorOutput).

Definition register_one (m : registry) (o : ErrorOutput) : logged registry :=
  (<[eo_code o := o]> m,
   match m !! eo_code o with
   | Some old => ["Err replaced; code=" +:+ pretty (eo_code o) +:+ ", old=" +:+
                  user_message old +:+ ", new=" +:+ user_message o]
   | None => []
   end).

(** The function [define_errors!] generates for an enum with these outputs. *)
Fixpoint register_all (m : registry) (os : list ErrorOutput) : logged registry :=
  match os with
  | [] => (m, [])
  | o :: os =>
      let '(m, l) := register_one m o in
      let '(m, l') := register_all m os in (m, l ++ l')
  end.

(** [REGISTRY]: the registrations the program was linked with, in link order. *)
Definition REGISTRY (regs : list (list ErrorOutput)) : logged registry :=
  register_all ∅ (concat regs).

Inductive BaseErrorCode :=
  | NotFound | InvalidRequest | AlreadyExists | Unauthorized | PermissionDenied
  | InvalidState | Unsupported | Timeout | Network | IoBusy | Internal.

#[export] Instance BaseErrorCode_eq_dec : EqDecision BaseErrorCode.
Proof. solve_decision. Defined.

Definition base_errors : list BaseErrorCode :=
  [NotFound; InvalidRequest; AlreadyExists; Unauthorized; PermissionDenied;
   InvalidState; Unsupported; Timeout; Network; IoBusy; Internal].

Definition base_code (e : BaseErrorCode) : N :=
  match e with
  | NotFound => 1140
  | InvalidRequest => 1150
  | AlreadyExists => 1160
  | Unauthorized => 1170
  | PermissionDenied => 1180
  | InvalidState => 1190
  | Unsupported => 1200
  | Timeout => 1210
  | Network => 1220
  | IoBusy => 1230
  | Internal => 1240
  end.

Definition out_msg (e : BaseErrorCode) : string :=
  match e with
  | NotFound => "请求的资源不存在或已被删除。"
  | InvalidRequest => "无效的请求。"
  | AlreadyExists => "已存在，请勿重复操作。"
  | Unauthorized => "未登录用户，无法操作。"
  | PermissionDenied => "用户操作权限不足。"
  | InvalidState => "数据校验失败！请检查输入。"
  | Unsupported => "系统暂不支持！敬请期待。"
  | Timeout => "设备响应超时或网络异常！请稍后重试。"
  | Network => "网络异常！请稍后重试。"
  | IoBusy => "系统繁忙！请稍后重试。"
  | Internal => "系统繁忙！请稍后重试。"
  end.

Definition base_code_name (e : BaseErrorCode) : string :=
  match e with
  | NotFound => "NotFound"
  | InvalidRequest => "InvalidRequest"
  | AlreadyExists => "AlreadyExists"
  | Unauthorized => "Unauthorized"
  | PermissionDenied => "PermissionDenied"
  | InvalidState => "InvalidState"
  | Unsupported => "Unsupported"
  | Timeout => "Timeout"
  | Network => "Network"
  | IoBusy => "IoBusy"
  | Internal => "Internal"
  end.

Definition base_retryable (e : BaseErrorCode) : bool :=
  match e with Timeout | Network | IoBusy => true | _ => false end.

Definition output (e : BaseErrorCode) : ErrorOutput :=
  mkErrorOutput (base_code e) (base_code_name e) (out_msg e) (base_retryable e).

Definition from_code (code : N) : option BaseErrorCode :=
  match code with
  | 1140 => Some NotFound
  | 1150 => Some InvalidRequest
  | 1160 => Some AlreadyExists
  | 1170 => Some Unauthorized
  | 1180 => Some PermissionDenied
  | 1190 => Some InvalidState
  | 1200 => Some Unsupported
  | 1210 => Some Timeout
  | 1220 => Some Network
  | 1230 => Some IoBusy
  | 1240 => Some Internal
  | _ => None
  end%N.

Definition error_output (reg : registry) (code : N) : option ErrorOutput := reg !! code.

Definition global_error_output (reg : registry) (error : GlobalError) : ErrorOutput :=
  match error with
  | BizErr e =>
      default (mkErrorOutput (biz_code e) "Unregistered" FALLBACK_USER_MESSAGE false)
        (error_output reg (biz_code e))
  | SysErr _ =>
      default (mkErrorOutput (base_code Internal) "Internal" FALLBACK_USER_MESSAGE false)
        (error_output reg (base_code Internal))
  end.

Definition out_err (reg : registry) (error : GlobalError) : string :=
  user_message (global_error_output reg error).

(** ** base_rpc/src/error.rs *)

(** The gRPC codes the mapping uses. *)
Inductive Code :=
  | CNotFound | CInvalidArgument | CAlreadyExists | CUnauthenticated | CPermissionDenied
  | CFailedPrecondition | CUnimplemented | CDeadlineExceeded | CUnavailable
  | CResourceExhausted | CInternal.

#[export] Instance Code_eq_dec : EqDecision Code.
Proof. solve_decision. Defined.

Section status.
(** tonic's metadata: values parsed from text, and a map that keeps them. *)
Context {Value : Type} (parse : string → option Value).

Record Status := mkStatus {
  st_code : Code;
  st_message : string;
  st_metadata : gmap string Value;
}.

Definition biz_status_code (code : N) : Code :=
  if (code =? base_code NotFound)%N then CNotFound
  else if (code =? base_code InvalidRequest)%N then CInvalidArgument
  else if (code =? base_code AlreadyExists)%N then CAlreadyExists
  else if (code =? base_code Unauthorized)%N then CUnauthenticated
  else if (code =? base_code PermissionDenied)%N then CPermissionDenied
  else if (code =? base_code InvalidState)%N then CFailedPrecondition
  else if (code =? base_code Unsupported)%N then CUnimplemented
  else if (code =? base_code Timeout)%N then CDeadlineExceeded
  else if (code =? base_code Network)%N then CUnavailable
  else if (code =? base_code IoBusy)%N then CResourceExhausted
  else CInternal.

Definition status_from_biz_error (error : BizError) : Status :=
  mkStatus (biz_status_code (biz_code error)) (biz_msg error)
    (match parse (pretty (biz_code error)) with
     | Some value => {["x-error-code" := value]}
     | None => ∅
     end).

Definition status_from_global_error (error : GlobalError) : Status :=
  match error with
  | BizErr error => status_from_biz_error error
  | SysErr display => mkStatus CInternal display ∅
  end.
End status.
Arguments Status : clear implicits.
Arguments mkStatus {Value}.
Arguments st_code {Value}.
Arguments st_message {Value}.
Arguments st_metadata {Value}.

(** ** The registry *)

(** What a registry built from [os], in order, holds for a code: the last
    registration wins. *)
Definition last_registered (os : list ErrorOutput) (code : N) : option ErrorOutput :=
  last (filter (λ o, eo_code o = code) os).

Lemma register_all_lookup m os code :
  (register_all m os).1 !! code =
  match last_registered os code with Some o => Some o | None => m !! code end.
Proof.
  revert m. induction os as [|o os IH]; intros m; [done|].
  simpl. specialize (IH (<[eo_code o := o]> m)).
  destruct (register_all (<[eo_code o := o]> m) os) as [m'' l']. cbn [fst] in *.
  rewrite IH. unfold last_registered. rewrite filter_cons. case_decide as Hc.
  - subst code. destruct (filter _ os) as [|o' os']; [by rewrite lookup_insert_eq|].
    rewrite last_cons_cons. destruct (last (o' :: os')) eqn:Hl; [done|]. by apply last_None in Hl.
  - destruct (last _); [done|]. by rewrite lookup_insert_ne.
Qed.

Lemma last_registered_code os code o : last_registered os code = Some o → eo_code o = code.
Proof.
  unfold last_registered. intros Hl. apply last_Some in Hl as [l Hl].
  assert (o ∈ filter (λ o, eo_code o = code) os) as Hin by (rewrite Hl; set_solver).
  by apply list_elem_of_filter in Hin as [? _].
Qed.

Lemma register_all_silent m os :
  NoDup (eo_code <$> os) → (∀ o, o ∈ os → m !! eo_code o = None) → (register_all m os).2 = [].
Proof.
  revert m. induction os as [|o os IH]; intros m Hnd Hm; [done|].
  apply NoDup_cons in Hnd as [Hni Hnd]. simpl. rewrite (Hm o) by left.
  destruct (register_all _ os) as [m' l'] eqn:Hr. simpl.
  change l' with (m', l').2. rewrite <- Hr. apply IH; [done|].
  intros o' Ho'. rewrite lookup_insert_ne; [by apply Hm; right|].
  intros Heq. apply Hni. rewrite Heq. by apply list_elem_of_fmap_2.
Qed.

(** Whatever the linked crates registered, the output of an error carries
    the error's own code; it is the last registration for that code when
    there is one, and otherwise the fallback message, not retryable. *)
Theorem global_error_output_spec (regs : list (list ErrorOutput)) (error : GlobalError) :
  let reg := (REGISTRY regs).1 in
  let code := match error with BizErr e => biz_code e | SysErr _ => base_code Internal end in
  let out := global_error_output reg error in
  eo_code out = code ∧
  match last_registered (concat regs) code with
  | Some o => out = o
  | None => user_message out = FALLBACK_USER_MESSAGE ∧ retryable out = false
  end.
Proof.
  cbv zeta. unfold global_error_output, error_output, REGISTRY.
  destruct error as [e|d]; rewrite register_all_lookup;
    (destruct (last_registered _ _) as [o|] eqn:Hl; [|done]);
    by apply last_registered_code in Hl.
Qed.

(** The generated enum converts to its code and back, the registrations of
    the base crate conflict with none of their own, and the gRPC status of a
    base error tells it apart and is one of the three retryable codes exactly
    when the error is marked retryable. *)
Theorem base_errors_spec :
  (∀ code e, from_code code = Some e ↔ code = base_code e) ∧
  (REGISTRY [output <$> base_errors]).2 = [] ∧
  (∀ e e', biz_status_code (base_code e) = biz_status_code (base_code e') → e = e') ∧
  (∀ e, base_retryable e = true ↔
     biz_status_code (base_code e) ∈ [CDeadlineExceeded; CUnavailable; CResourceExhausted]).
Proof.
  split_and!.
  - intros code e. split; [|intros ->; by destruct e].
    unfold from_code. intros H. repeat (case_match; try done); by simplify_eq.
  - done.
  - intros [] []; vm_compute; congruence.
  - intros []; vm_compute; (split; [intros; try done; set_solver|]);
      intros H; repeat (apply elem_of_cons in H as [H|H]; [done|]); by apply not_elem_of_nil in H.
Qed.

(** Converting a result logs nothing on success and exactly one line on
    failure; the business conversion keeps the given code and message, which
    the gRPC status carries on, with the code in its [x-error-code] header. *)
Theorem hand_biz_log_status {A E Value : Type} (debug : E → string)
    (parse : string → option Value) (code : N) (msg : string) (r : result A E) :
  (∀ n : N, is_Some (parse (pretty n))) →
  match r with
  | Ok a => hand_biz_log debug code msg r = (Ok a, [])
  | Err e => ∃ err line, hand_biz_log debug code msg r = (Err err, [line]) ∧
      let st := status_from_global_error parse err in
      st_message st = msg ∧ st_code st = biz_status_code code ∧
      st_metadata st !! "x-error-code" = parse (pretty code)
  end.
Proof.
  intros Hp. destruct r as [a|e]; [done|]. unfold hand_biz_log, map_err_logged, from_external_biz_error.
  eexists _, _. split; [reflexivity|]. simpl. split_and!; [done..|].
  destruct (Hp code) as [v ->]. by rewrite lookup_singleton_eq.
Qed.

Lemma hand_biz_log_status_witness :
  ∃ err line, hand_biz_log id 1210 "slow" (Err (A:=unit) "timeout") = (Err err, [line]) ∧
    let st := status_from_global_error (λ s, Some s) err in
    st_message st = "slow" ∧ st_code st = biz_status_code 1210 ∧
    st_metadata st !! "x-error-code" = Some (pretty 1210%N).
Proof.
  apply (hand_biz_log_status id (λ s, Some s) 1210 "slow" (Err (A:=unit) "timeout")). by eexists.
Defined.
