(* ===== verification/Bus.v ===== *)
(** * The typed message bus (base/src/bus/mpsc.rs)

    One bounded channel per message type, created by the type's only
    subscriber.  A Rust type is a code [t : Ty] with the type [val t] of its
    values; a boxed message carries its code, and a downcast compares codes.
    The channels are tokio's, known by the interface [Channel] alone.  The
    map keeps a sender for ever, so a channel is never without one. *)
From S2P Require Import Prelude Errors.

(** ** The interface of a bounded channel

    [ch_items] are the messages sent and not yet received, [ch_open] says
    whether the receiver is there. *)
Inductive TrySend := Sent | Full | Closed.

Class Channel (A C : Type) := {
  ch_new : nat → C;
  ch_items : C → list A;
  ch_cap : C → nat;
  ch_open : C → bool;
  ch_try_send : C → A → TrySend * C;
  (** The next message, if there is one. *)
  ch_recv : C → option A * C;
  (** The receiver is dropped. *)
  ch_close : C → C;
}.

Class ChannelLaws (A C : Type) `{Channel A C} : Prop := {
  ch_new_spec n : ch_items (ch_new n) = [] ∧ ch_cap (ch_new n) = n ∧ ch_open (ch_new n) = true;
  ch_try_send_spec c a :
    let '(r, c') := ch_try_send c a in
    ch_cap c' = ch_cap c ∧ ch_open c' = ch_open c ∧
    match r with
    | Sent => ch_open c = true ∧ length (ch_items c) < ch_cap c ∧ ch_items c' = ch_items c ++ [a]
    | Full => ch_open c = true ∧ ch_cap c ≤ length (ch_items c) ∧ ch_items c' = ch_items c
    | Closed => ch_open c = false ∧ ch_items c' = ch_items c
    end;
  ch_recv_spec c :
    let '(r, c') := ch_recv c in
    ch_cap c' = ch_cap c ∧ ch_open c' = ch_open c ∧
    ch_items c = (if r is Some a then [a] else []) ++ ch_items c' ∧
    (r = None → ch_items c' = []);
  ch_close_spec c : ch_cap (ch_close c) = ch_cap c ∧ ch_open (ch_close c) = false;
}.

Definition DEFAULT_CHANNEL_SIZE : nat := 64.

Section bus.
Context {Ty : Type} `{Countable Ty} (val : Ty → Type).

(** [Box<dyn Any + Send + Sync>]. *)
Notation any := {t : Ty & val t}.

(** [TypedReceiver::try_cast]. *)
Definition try_cast (t : Ty) (bo : any) : result (val t) MessageBusError :=
  match decide (projT1 bo = t) with
  | left e => Ok (eq_rect _ val (projT2 bo) t e)
  | right _ => Err BusTypeMismatch
  end.

Context {C : Type} `{!Channel any C}.

(** The map of channels, and the types whose [publish] is waiting for room:
    it holds the read lock of the type's shard of the map while it waits. *)
Record TypedMessageBus := mkBus { channels : gmap Ty C; publishing : list Ty }.

Definition bus_new : TypedMessageBus := mkBus ∅ [].

Definition set_channel (t : Ty) (c : C) (b : TypedMessageBus) : TypedMessageBus :=
  mkBus (<[t := c]> (channels b)) (publishing b).

(** [DashMap::entry] takes the write lock of the type's shard; [None] is a
    thread that blocks on it. *)
Definition sub_type_channel (shard : Ty → N) (t : Ty) (b : TypedMessageBus) :
    option (result unit MessageBusError * TypedMessageBus) :=
  if decide (shard t ∈ shard <$> publishing b) then None
  else
    Some match channels b !! t with
         | Some _ => (Err BusAlreadyExists, b)
         | None => (Ok (), set_channel t (ch_new DEFAULT_CHANNEL_SIZE) b)
         end.

Definition try_publish (t : Ty) (msg : val t) (b : TypedMessageBus) :
    result unit MessageBusError * TypedMessageBus :=
  match channels b !! t with
  | None => (Err BusNotFound, b)
  | Some c =>
      let '(r, c) := ch_try_send c (existT t msg) in
      (match r with Sent => Ok () | Full => Err BusFull | Closed => Err BusChannelClosed end,
       set_channel t c b)
  end.

(** [publish]: the call that finds no room waits with the map's entry held;
    [publish_poll] is such a poll of its future, [None] if it still waits. *)
Definition publish_poll (t : Ty) (msg : val t) (b : TypedMessageBus) :
    option (result unit MessageBusError) * TypedMessageBus :=
  match channels b !! t with
  | None => (Some (Err BusNotFound), b)
  | Some c =>
      let '(r, c) := ch_try_send c (existT t msg) in
      (match r with Sent => Some (Ok ()) | Full => None | Closed => Some (Err BusChannelClosed) end,
       set_channel t c b)
  end.
Definition publish_start (t : Ty) (msg : val t) (b : TypedMessageBus) :
    option (result unit MessageBusError) * TypedMessageBus :=
  let '(r, b) := publish_poll t msg b in
  match r with
  | Some r => (Some r, b)
  | None => (None, mkBus (channels b) (t :: publishing b))
  end.
Definition publish_resume (t : Ty) (msg : val t) (rest : list Ty) (b : TypedMessageBus) :
    option (result unit MessageBusError) * TypedMessageBus :=
  let '(r, b) := publish_poll t msg b in
  match r with
  | Some r => (Some r, mkBus (channels b) rest)
  | None => (None, b)
  end.

(** The future of a waiting [publish] is dropped. *)
Definition publish_drop (rest : list Ty) (b : TypedMessageBus) : TypedMessageBus :=
  mkBus (channels b) rest.

(** The receiver of [t], which exists once [t] has been subscribed. *)
Definition try_recv (t : Ty) (b : TypedMessageBus) :
    option (result (val t) MessageBusError * TypedMessageBus) :=
  c ← channels b !! t;
  let '(r, c) := ch_recv c in
  Some (match r with Some bo => try_cast t bo | None => Err BusEmpty end, set_channel t c b).

(** One poll of [recv]; the inner [None] waits. *)
Definition recv_poll (t : Ty) (b : TypedMessageBus) :
    option (option (result (val t) MessageBusError) * TypedMessageBus) :=
  c ← channels b !! t;
  let '(r, c) := ch_recv c in
  Some (try_cast t <$> r, set_channel t c b).

(** [recv_with_timeout]: the last poll is made when the time has elapsed. *)
Definition recv_with_timeout_poll (t : Ty) (elapsed : bool) (b : TypedMessageBus) :
    option (option (result (val t) MessageBusError) * TypedMessageBus) :=
  '(r, b) ← recv_poll t b;
  Some (match r with
        | Some r => Some r
        | None => if elapsed then Some (Err BusTimeout) else None
        end, b).

Definition drop_receiver (t : Ty) (b : TypedMessageBus) : TypedMessageBus :=
  match channels b !! t with
  | Some c => set_channel t (ch_close c) b
  | None => b
  end.

(** ** Executions

    [reach pub rcv b]: the bus is in state [b] after the messages [pub] were
    accepted, in that order, and the messages [rcv] received. *)
Definition has_receiver (t : Ty) (b : TypedMessageBus) : Prop :=
  ∃ c, channels b !! t = Some c ∧ ch_open c = true.

Inductive reach (shard : Ty → N) : list any → list any → TypedMessageBus → Prop :=
  | reach_new : reach shard [] [] bus_new
  | reach_sub pub rcv b t r b' :
      reach shard pub rcv b → sub_type_channel shard t b = Some (r, b') → reach shard pub rcv b'
  | reach_try pub rcv b t msg r b' :
      reach shard pub rcv b → try_publish t msg b = (r, b') →
      reach shard (if r is Ok _ then pub ++ [existT t msg] else pub) rcv b'
  | reach_start pub rcv b t msg r b' :
      reach shard pub rcv b → publish_start t msg b = (r, b') →
      reach shard (if r is Some (Ok _) then pub ++ [existT t msg] else pub) rcv b'
  | reach_resume pub rcv b t msg l1 l2 r b' :
      reach shard pub rcv b → publishing b = l1 ++ t :: l2 →
      publish_resume t msg (l1 ++ l2) b = (r, b') →
      reach shard (if r is Some (Ok _) then pub ++ [existT t msg] else pub) rcv b'
  | reach_cancel pub rcv b t l1 l2 :
      reach shard pub rcv b → publishing b = l1 ++ t :: l2 →
      reach shard pub rcv (publish_drop (l1 ++ l2) b)
  | reach_recv pub rcv b t elapsed r b' :
      reach shard pub rcv b → has_receiver t b →
      recv_with_timeout_poll t elapsed b = Some (r, b') →
      reach shard pub (if r is Some (Ok v) then rcv ++ [existT t v] else rcv) b'
  | reach_drop pub rcv b t :
      reach shard pub rcv b → reach shard pub rcv (drop_receiver t b).

(** ** Invariant *)

Context `{!ChannelLaws any C}.

Definition of_type (t : Ty) (l : list any) : list any := filter (λ m, projT1 m = t) l.

(** What was published for a type is what was received, then what waits in
    its channel; of a type whose receiver is gone, the rest is lost. *)
Definition delivered_of (pub rcv : list any) (t : Ty) (c : option C) : Prop :=
  match c with
  | None => of_type t pub = [] ∧ of_type t rcv = []
  | Some c =>
      ch_cap c = DEFAULT_CHANNEL_SIZE ∧
      (ch_open c = true →
        of_type t pub = of_type t rcv ++ ch_items c ∧ length (ch_items c) ≤ DEFAULT_CHANNEL_SIZE) ∧
      ∃ rest, of_type t pub = of_type t rcv ++ rest
  end.
Definition delivered (pub rcv : list any) (b : TypedMessageBus) : Prop :=
  ∀ t, delivered_of pub rcv t (channels b !! t).

Lemma of_type_app t l l' : of_type t (l ++ l') = of_type t l ++ of_type t l'.
Proof. apply filter_app. Qed.

Lemma of_type_one t (m : any) : of_type t [m] = if decide (projT1 m = t) then [m] else [].
Proof. unfold of_type. rewrite filter_cons, filter_nil. done. Qed.

Lemma delivered_set pub rcv b t c :
  (∀ t', t' ≠ t → delivered_of pub rcv t' (channels b !! t')) →
  delivered_of pub rcv t (Some c) → delivered pub rcv (set_channel t c b).
Proof.
  intros Hother Ht t'. simpl. destruct (decide (t' = t)) as [->|Hne].
  - by rewrite lookup_insert_eq.
  - rewrite lookup_insert_ne by done. by apply Hother.
Qed.

(** Sending a message of type [t], whichever call does it. *)
Lemma send_delivered pub rcv b t msg c r c' :
  delivered pub rcv b → channels b !! t = Some c → ch_try_send c (existT t msg) = (r, c') →
  delivered (if r is Sent then pub ++ [existT t msg] else pub) rcv (set_channel t c' b).
Proof.
  intros Hd Hc Hs. pose proof (ch_try_send_spec (A:=any) c (existT t msg)) as Hspec. rewrite Hs in Hspec.
  destruct Hspec as (Hcap & Hop & Hr). apply delivered_set.
  - intros t' Hne. specialize (Hd t'). destruct r; [|done..].
    unfold delivered_of in *. rewrite of_type_app, of_type_one, decide_False, app_nil_r by done. exact Hd.
  - specialize (Hd t). rewrite Hc in Hd. destruct Hd as (Hcap' & Hopen & rest & Hrest).
    split; [congruence|]. rewrite Hop. destruct r.
    + destruct Hr as (Ho & Hlt & Hi). destruct (Hopen Ho) as [Hpub Hlen].
      rewrite of_type_app, of_type_one, decide_True, Hi, Hpub, <- !app_assoc by done. split.
      * intros _. split; [done|]. rewrite length_app. simpl. rewrite Hcap' in Hlt. lia.
      * by eexists.
    + destruct Hr as (Ho & _ & Hi). rewrite Hi. split; [done|by eexists].
    + destruct Hr as (Ho & Hi). split; [congruence|by eexists].
Qed.

Lemma poll_delivered pub rcv b t msg r b' :
  delivered pub rcv b → publish_poll t msg b = (r, b') →
  delivered (if r is Some (Ok _) then pub ++ [existT t msg] else pub) rcv b'.
Proof.
  intros Hd. unfold publish_poll. destruct (channels b !! t) as [c|] eqn:Hc; [|by intros [= <- <-]].
  destruct (ch_try_send c _) as [r' c'] eqn:Hs. intros [= <- <-].
  pose proof (send_delivered _ _ _ _ _ _ _ _ Hd Hc Hs) as Hd'. by destruct r'.
Qed.

(** A message that comes out of a channel of type [t] has type [t]. *)
Lemma recv_typed pub rcv b t c m c' :
  delivered pub rcv b → channels b !! t = Some c → ch_open c = true → ch_recv c = (Some m, c') →
  projT1 m = t ∧ delivered pub (rcv ++ [m]) (set_channel t c' b).
Proof.
  intros Hd Hc Ho Hr. pose proof (ch_recv_spec (A:=any) c) as Hspec. rewrite Hr in Hspec.
  destruct Hspec as (Hcap & Hop & Hi & _). pose proof (Hd t) as Hdt. rewrite Hc in Hdt.
  destruct Hdt as (Hcap' & Hopen & _). destruct (Hopen Ho) as [Hpub Hlen]. rewrite Hi in Hpub, Hlen.
  assert (projT1 m = t) as Hm.
  { assert (m ∈ of_type t pub) as Hin by (rewrite Hpub; set_solver).
    by apply list_elem_of_filter in Hin as [? _]. }
  split; [done|]. apply delivered_set.
  - intros t' Hne. specialize (Hd t'). unfold delivered_of in *.
    rewrite of_type_app, of_type_one, decide_False, app_nil_r by congruence. exact Hd.
  - split; [congruence|]. rewrite of_type_app, of_type_one, decide_True, Hpub, <- !app_assoc by done.
    simpl in *. split; [|exists (ch_items c'); by rewrite <- app_assoc]. intros _. split; [done|lia].
Qed.

Lemma try_cast_typed t (m : any) : projT1 m = t → ∃ v, try_cast t m = Ok v ∧ existT t v = m.
Proof.
  intros <-. unfold try_cast. destruct (decide _) as [e|]; [|done].
  exists (projT2 m). rewrite <- Eqdep_dec.eq_rect_eq_dec by apply EqDecision0.
  by destruct m.
Qed.

Lemma recv_poll_delivered pub rcv b t r b' :
  delivered pub rcv b → has_receiver t b → recv_poll t b = Some (r, b') →
  r ≠ Some (Err BusTypeMismatch) ∧
  delivered pub (if r is Some (Ok v) then rcv ++ [existT t v] else rcv) b'.
Proof.
  intros Hd (c & Hc & Ho). unfold recv_poll. rewrite Hc. simpl.
  destruct (ch_recv c) as [[m|] c'] eqn:Hr; intros [= <- <-].
  - destruct (recv_typed _ _ _ _ _ _ _ Hd Hc Ho Hr) as [Hm Hd'].
    destruct (try_cast_typed t m Hm) as (v & Hv & Hmv). simpl. rewrite Hv. split; [done|].
    by rewrite Hmv.
  - split; [done|]. simpl. pose proof (ch_recv_spec (A:=any) c) as Hspec. rewrite Hr in Hspec.
    destruct Hspec as (Hcap & Hop & Hi & Hnil). apply delivered_set; [intros; apply Hd|].
    specialize (Hd t). rewrite Hc in Hd. unfold delivered_of in *. rewrite Hcap, Hop.
    simpl in Hi. by rewrite <- Hi.
Qed.

Lemma reach_delivered shard pub rcv b : reach shard pub rcv b → delivered pub rcv b.
Proof.
  induction 1 as [|pub rcv b t r b' _ IH Hs|pub rcv b t msg r b' _ IH Hs|pub rcv b t msg r b' _ IH Hs
    |pub rcv b t msg l1 l2 r b' _ IH _ Hs|pub rcv b t l1 l2 _ IH _|pub rcv b t el r b' _ IH Ho Hs|pub rcv b t _ IH].
  - intros t. cbn [bus_new channels]. by rewrite lookup_empty.
  - unfold sub_type_channel in Hs. case_decide; [done|].
    destruct (channels b !! t) as [c|] eqn:Hc; simplify_eq; [done|].
    destruct (ch_new_spec (A:=any) (C:=C) DEFAULT_CHANNEL_SIZE) as (Hi & Hcap & Ho).
    apply delivered_set; [intros; apply IH|]. specialize (IH t). rewrite Hc in IH.
    destruct IH as [Hp Hr]. unfold delivered_of. rewrite Hp, Hr, Hi. split; [done|]. split; [split; [done|simpl; lia]|by eexists].
  - unfold try_publish in Hs. destruct (channels b !! t) as [c|] eqn:Hc; [|by simplify_eq].
    destruct (ch_try_send c _) as [r' c'] eqn:Hts. simplify_eq.
    pose proof (send_delivered _ _ _ _ _ _ _ _ IH Hc Hts) as Hd'. by destruct r'.
  - unfold publish_start in Hs. destruct (publish_poll t msg b) as [r' b''] eqn:Hp.
    pose proof (poll_delivered _ _ _ _ _ _ _ IH Hp) as Hd'. by destruct r'; simplify_eq.
  - unfold publish_resume in Hs. destruct (publish_poll t msg b) as [r' b''] eqn:Hp.
    pose proof (poll_delivered _ _ _ _ _ _ _ IH Hp) as Hd'. by destruct r'; simplify_eq.
  - exact IH.
  - unfold recv_with_timeout_poll in Hs. destruct (recv_poll t b) as [[r' b'']|] eqn:Hp; [|done].
    destruct (recv_poll_delivered _ _ _ _ _ _ IH Ho Hp) as [_ Hd'].
    simpl in Hs. destruct r'; simplify_eq; [done|]. by destruct el.
  - unfold drop_receiver. destruct (channels b !! t) as [c|] eqn:Hc; [|done].
    destruct (ch_close_spec (A:=any) c) as [Hcap Ho]. apply delivered_set; [intros; apply IH|].
    specialize (IH t). rewrite Hc in IH. destruct IH as (? & _ & ?). split; [congruence|].
    split; [congruence|done].
Qed.

(** C40: Whatever calls, polls and drops interleave, the messages a subscriber
    received are the first ones published for its type, in order and with
    their type; while it listens, the others wait in its channel, at most 64
    of them; no receiver ever sees a message of another type; and a type that
    was subscribed once can never be subscribed again. *)
Theorem bus_delivery shard pub rcv b t :
  reach shard pub rcv b →
  (∃ rest, of_type t pub = of_type t rcv ++ rest) ∧
  (∀ c, channels b !! t = Some c → ch_open c = true →
    of_type t pub = of_type t rcv ++ ch_items c ∧ length (ch_items c) ≤ DEFAULT_CHANNEL_SIZE) ∧
  (has_receiver t b → ∀ r b', try_recv t b = Some (r, b') → r ≠ Err BusTypeMismatch) ∧
  (is_Some (channels b !! t) → ∀ r b', sub_type_channel shard t b = Some (r, b') → r = Err BusAlreadyExists).
Proof.
  intros Hr. apply reach_delivered in Hr as Hd. split_and!.
  - specialize (Hd t). destruct (channels b !! t) as [c|]; [by destruct Hd as (_ & _ & ?)|].
    destruct Hd as [-> ->]. by exists [].
  - intros c Hc Ho. specialize (Hd t). rewrite Hc in Hd. by apply Hd.
  - intros (c & Hc & Ho) r b' Ht. unfold try_recv in Ht. rewrite Hc in Ht. simpl in Ht.
    destruct (ch_recv c) as [[m|] c'] eqn:Hrc; simplify_eq; [|done].
    destruct (recv_typed _ _ _ _ _ _ _ Hd Hc Ho Hrc) as [Hm _].
    by destruct (try_cast_typed t m Hm) as (v & -> & _).
  - intros [c Hc] r b' Hs. unfold sub_type_channel in Hs. rewrite Hc in Hs. case_decide; by simplify_eq.
Qed.
End bus.

(** ** A concrete channel and a witness *)

Module BusExample.
Record chan (A : Type) := mkChan { items : list A; cap : nat; open : bool }.
Arguments mkChan {A}.
Arguments items {A}.
Arguments cap {A}.
Arguments open {A}.

#[export] Instance chan_ops (A : Type) : Channel A (chan A) := {
  ch_new n := mkChan [] n true;
  ch_items := items;
  ch_cap := cap;
  ch_open := open;
  ch_try_send c a :=
    if negb (open c) then (Closed, c)
    else if (cap c <=? length (items c))%nat then (Full, c)
    else (Sent, mkChan (items c ++ [a]) (cap c) true);
  ch_recv c :=
    match items c with
    | [] => (None, c)
    | a :: l => (Some a, mkChan l (cap c) (open c))
    end;
  ch_close c := mkChan [] (cap c) false;
}.

#[export] Instance chan_laws (A : Type) : ChannelLaws A (chan A).
Proof.
  split; simpl.
  - done.
  - intros [l n o] a. simpl. destruct o; simpl; [|done].
    destruct (Nat.leb_spec n (length l)); simpl; split_and!; (done || lia).
  - by intros [[|a l] n o].
  - done.
Qed.

(** Two message types, numbers and texts. *)
Definition val (t : bool) : Type := if t then N else string.
Definition Bus : Type := TypedMessageBus (Ty:=bool) (C:=chan {t : bool & val t}).
Definition shard (_ : bool) : N := 0.
Definition subscribed (t : bool) (b : Bus) : Bus :=
  match sub_type_channel val shard t b with Some (_, b) => b | None => b end.
Definition number (n : N) : {t : bool & val t} := existT true n.

Definition b1 : Bus := subscribed true (bus_new).
Definition b2 : Bus := (try_publish val true 7%N b1).2.
Definition b3 : Bus := (publish_start val true 8%N b2).2.
Definition received : option (option (result N MessageBusError) * Bus) :=
  recv_with_timeout_poll val true false b3.
Definition b4 : Bus := match received with Some (_, b) => b | None => b3 end.

Lemma bus_reach4 : reach val shard [number 7; number 8]%N [number 7%N] b4.
Proof.
  assert (reach val shard [] [] b1) as H1.
  { by apply (reach_sub val shard [] [] bus_new true (Ok ())); [apply reach_new|]. }
  assert (reach val shard [number 7%N] [] b2) as H2.
  { by apply (reach_try val shard [] [] b1 true 7%N (Ok ()) b2). }
  assert (reach val shard [number 7; number 8]%N [] b3) as H3.
  { by apply (reach_start val shard [number 7%N] [] b2 true 8%N (Some (Ok ())) b3). }
  apply (reach_recv val shard [number 7; number 8]%N [] b3 true false (Some (Ok 7%N)) b4); [done| |done].
  eexists. by split.
Qed.

(** The channel of numbers filled up, and one more [publish] waiting. *)
Definition full : Bus := foldl (λ b n, (try_publish val true (N.of_nat n) b).2) b1 (seq 0 64).
Definition waiting : Bus := (publish_start val true 64%N full).2.
End BusExample.
Import BusExample.

Lemma bus_delivery_witness :
  (∃ rest, of_type val true [number 7; number 8]%N = of_type val true [number 7%N] ++ rest) ∧
  (∀ c, channels b4 !! true = Some c → ch_open c = true →
    of_type val true [number 7; number 8]%N = of_type val true [number 7%N] ++ ch_items c ∧
    length (ch_items c) ≤ 64) ∧
  (has_receiver val true b4 → ∀ r b', try_recv val true b4 = Some (r, b') → r ≠ Err BusTypeMismatch) ∧
  (is_Some (channels b4 !! true) →
    ∀ r b', sub_type_channel val shard true b4 = Some (r, b') → r = Err BusAlreadyExists).
Proof. apply (bus_delivery val shard _ _ b4 true bus_reach4). Defined.

(** ** What modelling showed *)

(** A [publish] that waits for room holds its entry of the map, and with it a
    lock: subscribing another type of the same shard blocks its thread until
    the receiver of the first type makes room. *)
Example waiting_publish_blocks_subscribe :
  (publish_start val true 64%N full).1 = None ∧ sub_type_channel val shard false waiting = None.
Proof. vm_compute. done. Qed.

(** After its receiver is dropped, a type can neither be published to nor be
    subscribed again. *)
Example dropped_type_is_dead :
  let b := drop_receiver val true b1 in
  (try_publish val true 1%N b).1 = Err BusChannelClosed ∧
  fst <$> sub_type_channel val shard true b = Some (Err BusAlreadyExists).
Proof. vm_compute. done. Qed.
