(* ===== verification/WheelCache.v ===== *)
(** * The expiring key set as a whole (base/src/cache/c100k.rs)

    The front end with its shards, their command channels and the event
    channel they share.  Client calls, the turns of the shards' tasks and the
    reader of the events interleave at the calls on the channels; a command
    and a tick are handled without an await.  The channels are tokio's, known
    by the interface of [Bus]. *)
From S2P Require Import Prelude Wheel WheelSlab WheelTime WheelInv WheelSpec WheelProps Bus.

Definition CHANNEL : nat := N.to_nat 65536.
Definition DEFAULT_CAPACITY_PER_SHARD : nat := N.to_nat 128000.
#[global] Arguments CHANNEL : simpl never.

Section cache.
Context {K : Type} `{EqDecision K} (hash : K → N).
Context {CC EC : Type} `{!Channel (Command K) CC, !Channel (list (CacheEvent K)) EC}.

(** A shard's task: the shard, its end of the command channel, and whether
    the inner loop found the channel empty, so that the task waits for its
    ticker.  A shard's [event_tx] is a handle to the shared channel: it is
    set to that channel when the shard runs. *)
Record Worker := mkWorker { w_shard : Shard K EC; cmd_rx : CC; w_drained : bool }.
Record Cache := mkCache { shards : list Worker; event_rx : EC }.

(** One shard for each start time. *)
Definition with_capacity (capacity_per_shard : nat) (starts : list N) : Cache :=
  let events := ch_new CHANNEL in
  mkCache ((λ now, mkWorker (new capacity_per_shard now events) (ch_new CHANNEL) false) <$> starts) events.
Definition cache_default (s0 s1 s2 s3 : N) : Cache := with_capacity DEFAULT_CAPACITY_PER_SHARD [s0; s1; s2; s3].

(** ** Client calls *)

Definition cmd_try_send (w : Worker) (cmd : Command K) : Worker * result () TrySend :=
  let '(r, q) := ch_try_send (cmd_rx w) cmd in
  (mkWorker (w_shard w) q (w_drained w), match r with Sent => Ok () | e => Err e end).

Definition with_shards (r : exec (list Worker * result () TrySend)) (c : Cache) :
    exec (Cache * result () TrySend) :=
  '(ws, res) ← r; Ret (mkCache ws (event_rx c), res).

Definition insert (key : K) (ttl : N) (c : Cache) : exec (Cache * result () TrySend) :=
  with_shards (cache_insert hash cmd_try_send (shards c) key ttl) c.
Definition refresh (key : K) (c : Cache) : exec (Cache * result () TrySend) :=
  with_shards (cache_refresh hash cmd_try_send (shards c) key) c.
Definition delete (key : K) (c : Cache) : exec (Cache * result () TrySend) :=
  with_shards (cache_delete hash cmd_try_send (shards c) key) c.

(** A poll of [next_batch]; [None] waits. *)
Definition next_batch (c : Cache) : option (list (CacheEvent K)) * Cache :=
  let '(b, ev) := ch_recv (event_rx c) in (b, mkCache (shards c) ev).

(** ** The shards' tasks *)

Definition event_try_send (ev : EC) (b : list (CacheEvent K)) : EC * bool :=
  let '(r, ev) := ch_try_send ev b in (ev, match r with Sent => true | _ => false end).

(** [cmd_rx.try_recv] in the inner loop of [Shard::run]. *)
Definition worker_recv (w : Worker) : exec Worker :=
  let '(r, q) := ch_recv (cmd_rx w) in
  match r with
  | Some cmd => s ← handle hash (w_shard w) cmd; Ret (mkWorker s q false)
  | None => Ret (mkWorker (w_shard w) q true)
  end.

(** [ticker.tick().await] came back at [now]. *)
Definition worker_tick (ev : EC) (now : N) (w : Worker) : exec (Worker * EC) :=
  s ← on_tick event_try_send (set_out ev (batch (w_shard w)) (w_shard w)) now;
  Ret (mkWorker s (cmd_rx w) false, event_tx s).

Definition set_worker (i : nat) (w : Worker) (c : Cache) : Cache :=
  mkCache (<[i := w]> (shards c)) (event_rx c).
Definition tick_shard (i : nat) (now : N) (w : Worker) (c : Cache) : exec Cache :=
  '(w, ev) ← worker_tick (event_rx c) now w; Ret (mkCache (<[i := w]> (shards c)) ev).

Inductive step (c : Cache) : exec Cache → Prop :=
  | step_insert key ttl : step c (r ← insert key ttl c; Ret r.1)
  | step_refresh key : step c (r ← refresh key c; Ret r.1)
  | step_delete key : step c (r ← delete key c; Ret r.1)
  | step_next_batch : step c (Ret (next_batch c).2)
  | step_recv i w : shards c !! i = Some w → w_drained w = false →
      step c (w ← worker_recv w; Ret (set_worker i w c))
  | step_tick i w now : shards c !! i = Some w → w_drained w = true → step c (tick_shard i now w c).

Inductive reachable (cap : nat) (starts : list N) : Cache → Prop :=
  | reachable_start : reachable cap starts (with_capacity cap starts)
  | reachable_step c c' : reachable cap starts c → step c (Ret c') → reachable cap starts c'.

(** ** What the cache promises

    A map from keys to deadlines, a clock for each shard, and for each key the
    accepted commands that still wait. *)

Definition cmd_key (cmd : Command K) : K :=
  match cmd with Insert k _ | Refresh k | Delete k => k end.

(** The shard of a key, among [n]. *)
Definition place (n : N) (k : K) : option nat :=
  match shard_index n (hash k) with Ret i => Some (N.to_nat i) | _ => None end.

Record Abs := mkAbs {
  a_pending : K → list (Command K);
  a_present : K → option Deadline;
  a_clock : nat → N
}.

Definition at_place {A : Type} (c : Cache) (k : K) (d : A) (f : Worker → A) : A :=
  match (i ← place (N.of_nat (length (shards c))) k; shards c !! i) with Some w => f w | None => d end.

Definition waiting (k : K) (w : Worker) : list (Command K) :=
  filter (λ cmd, cmd_key cmd = k) (ch_items (cmd_rx w)).

Definition abs (c : Cache) : Abs := mkAbs
  (λ k, at_place c k [] (waiting k))
  (λ k, at_place c k None (λ w, view (w_shard w) k))
  (λ i, match shards c !! i with Some w => tick (w_shard w) | None => 0%N end).

(** The number of keys of shard [i]. *)
Definition keys_at (pl : K → option nat) (i : nat) (m : K → option Deadline) (n : nat) : Prop :=
  card (λ k, if decide (pl k = Some i) then m k else None) n.

Inductive abs_step (cap : nat) (pl : K → option nat) (a a' : Abs) : Prop :=
  | abs_stay :
      (∀ k, a_pending a' k = a_pending a k) → (∀ k, a_present a' k = a_present a k) →
      (∀ i, a_clock a' i = a_clock a i) → abs_step cap pl a a'
  | abs_accept cmd : cmd_ok cmd →
      (∀ k, a_pending a' k = a_pending a k ++ (if decide (k = cmd_key cmd) then [cmd] else [])) →
      (∀ k, a_present a' k = a_present a k) → (∀ i, a_clock a' i = a_clock a i) → abs_step cap pl a a'
  | abs_apply i n cmd : pl (cmd_key cmd) = Some i → keys_at pl i (a_present a) n →
      (∀ k, a_pending a k = (if decide (k = cmd_key cmd) then [cmd] else []) ++ a_pending a' k) →
      (∀ k, a_present a' k = spec_handle (a_clock a i) n cap cmd (a_present a) k) →
      (∀ i, a_clock a' i = a_clock a i) → abs_step cap pl a a'
  | abs_time i t : (a_clock a i ≤ t)%N →
      (∀ k, a_pending a' k = a_pending a k) →
      (∀ k, pl k ≠ Some i → a_present a' k = a_present a k) →
      (∀ k, pl k = Some i →
        match a_present a' k with
        | Some d => a_present a k = Some d ∧
            (t < d_expire d ∨ t = d_expire d ∧ t mod WHEEL_L1 = 0)%N
        | None => ∀ d, a_present a k = Some d → (d_expire d ≤ t)%N
        end) →
      (∀ j, a_clock a' j = if decide (j = i) then t else a_clock a j) → abs_step cap pl a a'.
End cache.

(** ** Invariant *)

Section invariant.
Context {K : Type} `{EqDecision K} (hash : K → N).
Context {CC EC : Type} `{!Channel (Command K) CC, !Channel (list (CacheEvent K)) EC}.
Context `{!ChannelLaws (Command K) CC}.
Notation Cache := (Cache (K := K) (CC := CC) (EC := EC)).
Notation Worker := (Worker (K := K) (CC := CC) (EC := EC)).
Notation place := (place hash).
Implicit Types (c : Cache) (w : Worker).

Record worker_ok (cap : nat) (n : N) (i : nat) w : Prop := {
  wo_wf : wf hash (w_shard w);
  wo_capacity : capacity (w_shard w) = cap;
  wo_batch : batch (w_shard w) = [];
  wo_cmds : Forall (λ cmd, cmd_ok cmd ∧ place n (cmd_key cmd) = Some i) (ch_items (cmd_rx w));
  wo_open : ch_open (cmd_rx w) = true;
  wo_cap : ch_cap (cmd_rx w) = CHANNEL;
  wo_place : ∀ k, view (w_shard w) k ≠ None → place n k = Some i
}.

Definition number (c : Cache) : N := N.of_nat (length (shards c)).

Record cache_ok (cap : nat) c : Prop := {
  co_number : (0 < number c < u64_mod)%N;
  co_workers : ∀ i w, shards c !! i = Some w → worker_ok cap (number c) i w
}.

Lemma place_spec c k : (0 < number c < u64_mod)%N →
  ∃ i w, place (number c) k = Some i ∧ shards c !! i = Some w ∧
    shard_index (number c) (hash k) = Ret (N.of_nat i).
Proof.
  intros Hn. destruct (shard_index_spec (number c) (hash k) Hn) as (j & Hj & Hlt & _).
  destruct (lookup_lt_is_Some_2 (shards c) (N.to_nat j)) as [w Hw]; [unfold number in Hlt; lia|].
  exists (N.to_nat j), w. unfold place. rewrite Hj, N2Nat.id. done.
Qed.

Lemma at_place_eq {A : Type} c k (d : A) (f : Worker → A) i w :
  place (number c) k = Some i → shards c !! i = Some w → at_place hash c k d f = f w.
Proof. intros Hp Hw. unfold at_place. fold (number c). rewrite Hp. simpl. by rewrite Hw. Qed.

Lemma number_insert i w ev c : number (mkCache (<[i := w]> (shards c)) ev) = number c.
Proof. unfold number. simpl. by rewrite length_insert. Qed.

(** One worker is replaced. *)
Lemma set_worker_ok cap i w w' ev c : cache_ok cap c → shards c !! i = Some w →
  worker_ok cap (number c) i w' → cache_ok cap (mkCache (<[i := w']> (shards c)) ev).
Proof.
  intros [Hn Hws] Hw Hw'. split; rewrite number_insert; [done|]. simpl. intros j w1.
  rewrite list_lookup_insert_Some. intros [(-> & <- & _)|[_ H]]; [done|by apply Hws].
Qed.

Lemma at_place_insert {A : Type} c k (d : A) (f : Worker → A) i w ev :
  (0 < number c < u64_mod)%N → is_Some (shards c !! i) →
  at_place hash (mkCache (<[i := w]> (shards c)) ev) k d f =
  if decide (place (number c) k = Some i) then f w else at_place hash c k d f.
Proof.
  intros Hn [w0 Hw0]. destruct (place_spec c k Hn) as (j & wj & Hp & Hwj & _).
  rewrite (at_place_eq c k d f j wj) by done. set (c' := mkCache _ ev).
  assert (Hp' : place (number c') k = Some j) by (unfold c'; by rewrite number_insert).
  case_decide as Hd; rewrite Hp in Hd.
  - injection Hd as ->. apply (at_place_eq c' k d f i w Hp'). simpl.
    apply list_lookup_insert_eq. by eapply lookup_lt_Some.
  - apply (at_place_eq c' k d f j wj Hp'). simpl. rewrite list_lookup_insert_ne; [done|congruence].
Qed.

Lemma with_capacity_ok cap starts :
  (N.of_nat cap < u32_mod)%N → (0 < N.of_nat (length starts) < u64_mod)%N →
  cache_ok cap (with_capacity cap starts).
Proof.
  intros Hcap Hn. split.
  { unfold number. simpl. by rewrite length_fmap. }
  intros i w Hw. simpl in Hw. rewrite list_lookup_fmap in Hw.
  apply fmap_Some in Hw as (now & _ & ->).
  destruct (ch_new_spec (A := Command K) (C := CC) CHANNEL) as (Hi & Hc & Ho).
  pose proof (new_wf hash cap now (ch_new (C := EC) CHANNEL) Hcap) as Hwf. split; simpl; [done| |done| |done..|].
  - unfold capacity. simpl. by rewrite length_fmap, length_seq.
  - by rewrite Hi.
  - intros k Hk. destruct Hk. apply (view_None hash); [by destruct Hwf|].
    intros idx e ([_ ->]%new_slot & ? & _). done.
Qed.

(** ** Client calls *)

(** Every call comes to this: the command goes to the channel of its key's
    shard, or the channel is full. *)
Definition accepts c cmd (res : result () TrySend) c' : Prop :=
  match res with
  | Ok _ => ∀ k, a_pending (abs hash c') k =
      a_pending (abs hash c) k ++ (if decide (k = cmd_key cmd) then [cmd] else [])
  | Err e => e = Full ∧ (∀ k, a_pending (abs hash c') k = a_pending (abs hash c) k) ∧
      ∃ i w, place (number c) (cmd_key cmd) = Some i ∧ shards c !! i = Some w ∧
        CHANNEL ≤ length (ch_items (cmd_rx w))
  end.

Lemma call_spec cap c cmd : cache_ok cap c → cmd_ok cmd →
  returns (with_shards (send_to cmd_try_send (shards c) (hash (cmd_key cmd)) cmd) c) (λ '(c', res),
    cache_ok cap c' ∧ number c' = number c ∧ event_rx c' = event_rx c ∧ accepts c cmd res c' ∧
    (∀ k, a_present (abs hash c') k = a_present (abs hash c) k) ∧
    (∀ i, a_clock (abs hash c') i = a_clock (abs hash c) i)).
Proof.
  intros Hc Hcmd. destruct (co_number _ _ Hc) as [Hn1 Hn2].
  destruct (place_spec c (cmd_key cmd)) as (i & w & Hp & Hw & Hi); [done|].
  unfold with_shards, send_to. fold (number c). rewrite Hi. cbn [mbind exec_bind]. rewrite Nat2N.id, Hw.
  unfold cmd_try_send. pose proof (ch_try_send_spec (cmd_rx w) cmd) as Hs.
  destruct (ch_try_send (cmd_rx w) cmd) as [r q]. destruct Hs as (Hcap & Hop & Hr). cbn [mbind exec_bind returns].
  destruct (co_workers _ _ Hc i w Hw) as [Hwf Hcp Hb Hcs Ho Hca Hpl].
  set (w' := mkWorker (w_shard w) q (w_drained w)).
  assert (Hitems : Forall (λ cmd, cmd_ok cmd ∧ place (number c) (cmd_key cmd) = Some i) (ch_items q)).
  { destruct r; [destruct Hr as (_ & _ & ->)|destruct Hr as (_ & _ & ->)|destruct Hr as (_ & ->)]; [|done..].
    apply Forall_app. split; [done|]. by apply Forall_singleton. }
  split_and!.
  - apply (set_worker_ok cap i w); [done..|]. split; simpl; [done..|congruence|congruence|done].
  - apply number_insert.
  - done.
  - unfold accepts. simpl.
    assert (Hq : ∀ k, at_place hash (mkCache (<[i := w']> (shards c)) (event_rx c)) k [] (waiting k) =
      if decide (place (number c) k = Some i) then waiting k w' else at_place hash c k [] (waiting k)).
    { intros k. by apply at_place_insert. }
    destruct r; [destruct Hr as (_ & _ & Hr)|destruct Hr as (_ & Hfull & Hr)|destruct Hr as (Hcl & _); congruence].
    + intros k. rewrite Hq. unfold waiting, w' at 1. simpl. rewrite Hr, filter_app.
      case_decide as Hk.
      * rewrite (at_place_eq c k _ _ i w) by done. f_equal. rewrite filter_cons, filter_nil.
        destruct (decide (cmd_key cmd = k)) as [<-|]; [by rewrite decide_True|by rewrite decide_False by congruence].
      * rewrite decide_False by congruence. by rewrite app_nil_r.
    + split_and!; [done| |by exists i, w; rewrite <- Hca]. intros k. rewrite Hq. case_decide as Hk; [|done].
      rewrite (at_place_eq c k _ _ i w) by done. unfold waiting. simpl. by rewrite Hr.
  - intros k. simpl. rewrite (at_place_insert c) by done. case_decide; [|done]. by rewrite (at_place_eq c k _ _ i w).
  - intros j. simpl. destruct (decide (j = i)) as [->|].
    + rewrite list_lookup_insert_eq by by eapply lookup_lt_Some. by rewrite Hw.
    + by rewrite list_lookup_insert_ne by congruence.
Qed.

(** ** The shards' tasks *)

Lemma waiting_at c k i w : place (number c) k = Some i → shards c !! i = Some w →
  a_pending (abs hash c) k = waiting k w.
Proof. intros. by apply (at_place_eq c k [] (waiting k) i w). Qed.

Lemma present_at c k i w : place (number c) k = Some i → shards c !! i = Some w →
  a_present (abs hash c) k = view (w_shard w) k.
Proof. intros. by apply (at_place_eq c k None (λ w, view (w_shard w) k) i w). Qed.

(** The keys of a shard are those the cache has at its place. *)
Lemma present_view cap c i w k : cache_ok cap c → shards c !! i = Some w →
  view (w_shard w) k = if decide (place (number c) k = Some i) then a_present (abs hash c) k else None.
Proof.
  intros Hc Hw. case_decide as Hp; [by rewrite (present_at c k i w)|].
  destruct (view (w_shard w) k) eqn:Hv; [|done]. destruct Hp.
  apply (wo_place _ _ _ _ (co_workers _ _ Hc i w Hw)). congruence.
Qed.

Lemma keys_at_used cap c i w : cache_ok cap c → shards c !! i = Some w →
  keys_at (place (number c)) i (a_present (abs hash c)) (used (w_shard w)).
Proof.
  intros Hc Hw. pose proof (co_workers _ _ Hc i w Hw) as Ho.
  destruct (used_card hash (w_shard w)) as (l & Hn & Hl & Hk); [apply Ho|].
  exists l. split_and!; [done..|]. intros k. by rewrite <- (present_view cap c i w k), Hk.
Qed.

Lemma clock_at c i w : shards c !! i = Some w → a_clock (abs hash c) i = tick (w_shard w).
Proof. intros Hw. simpl. by rewrite Hw. Qed.

(** The abstract state after one worker was replaced. *)
Lemma abs_set c i w w' ev : (0 < number c < u64_mod)%N → shards c !! i = Some w →
  let c' := mkCache (<[i := w']> (shards c)) ev in
  (∀ k, a_pending (abs hash c') k =
     if decide (place (number c) k = Some i) then waiting k w' else a_pending (abs hash c) k) ∧
  (∀ k, a_present (abs hash c') k =
     if decide (place (number c) k = Some i) then view (w_shard w') k else a_present (abs hash c) k) ∧
  (∀ j, a_clock (abs hash c') j = if decide (j = i) then tick (w_shard w') else a_clock (abs hash c) j).
Proof.
  intros Hn Hw. cbv zeta. split_and!.
  - intros k. by apply at_place_insert.
  - intros k. by apply (at_place_insert c k None (λ w, view (w_shard w) k)).
  - intros j. simpl. case_decide as Hj.
    + subst j. by rewrite list_lookup_insert_eq by by eapply lookup_lt_Some.
    + by rewrite list_lookup_insert_ne by congruence.
Qed.

Lemma worker_recv_spec cap c i w : cache_ok cap c → shards c !! i = Some w →
  returns (worker_recv hash w) (λ w', cache_ok cap (set_worker i w' c) ∧
    abs_step cap (place (number c)) (abs hash c) (abs hash (set_worker i w' c))).
Proof.
  intros Hc Hw. pose proof (co_number _ _ Hc) as Hn. pose proof (co_workers _ _ Hc i w Hw) as Ho.
  destruct Ho as [Hwf Hcp Hb Hcs Hop Hca Hpl].
  unfold worker_recv. pose proof (ch_recv_spec (cmd_rx w)) as Hr.
  destruct (ch_recv (cmd_rx w)) as [[cmd|] q]; destruct Hr as (Hcap & Hop' & Hitems & Hnone); simpl in Hitems.
  2:{ simpl. destruct (abs_set c i w (mkWorker (w_shard w) q true) (event_rx c) Hn Hw) as (Hp & Hv & Ht).
      split.
      - apply (set_worker_ok cap i w); [done..|]. rewrite Hitems in Hcs. by split; simpl; try congruence.
      - apply abs_stay.
        + intros k. rewrite Hp. case_decide; [|done]. rewrite (waiting_at c k i w) by done.
          unfold waiting. by rewrite Hitems.
        + intros k. rewrite Hv. case_decide; [|done]. by rewrite (present_at c k i w).
        + intros j. rewrite Ht. case_decide; [|done]. subst j. by rewrite (clock_at c i w). }
  rewrite Hitems, Forall_cons in Hcs. destruct Hcs as [[Hok Hpc] Hcs].
  apply returns_bind. eapply returns_mono; [by apply handle_view|].
  intros s' (Hwf' & (Htk & _ & Hout & Hcp') & Hview). cbn [returns].
  destruct (abs_set c i w (mkWorker s' q false) (event_rx c) Hn Hw) as (Hp & Hv & Ht). split.
  - apply (set_worker_ok cap i w); [done..|]. unfold out in Hout. split; simpl; try congruence.
    intros k Hk. rewrite Hview in Hk. destruct (decide (k = cmd_key cmd)) as [->|Hne]; [done|].
    apply Hpl. by destruct cmd; simpl in *; rewrite decide_False in Hk.
  - apply (abs_apply _ _ _ _ i (used (w_shard w)) cmd); [done|by eapply keys_at_used|..].
    + intros k. rewrite Hp. destruct (decide (place (number c) k = Some i)) as [Hk|Hk].
      * rewrite (waiting_at c k i w) by done. unfold waiting. rewrite Hitems. simpl. rewrite filter_cons.
        destruct (decide (cmd_key cmd = k)) as [<-|]; [by rewrite decide_True|by rewrite decide_False by congruence].
      * by rewrite decide_False by congruence.
    + rewrite (clock_at c i w) by done. rewrite <- Hcp.
      assert (Hkey : a_present (abs hash c) (cmd_key cmd) = view (w_shard w) (cmd_key cmd)) by by apply (present_at c _ i w).
      intros k. rewrite Hv. simpl w_shard. rewrite Hview.
      destruct (decide (place (number c) k = Some i)) as [Hk|Hk].
      * pose proof (present_at c k i w Hk Hw) as Hpk. destruct cmd; cbn [spec_handle cmd_key] in *; by rewrite ?Hkey, Hpk.
      * destruct cmd; cbn [spec_handle cmd_key] in *; by rewrite decide_False by congruence.
    + intros j. rewrite Ht. case_decide; [|done]. subst j. rewrite (clock_at c i w) by done. simpl. congruence.
Qed.

Lemma set_out_wf (s : Shard K EC) tx : wf hash s → wf hash (set_out tx (batch s) s).
Proof. intros [Hslab Hwh Hcov Ht Httl Hba]. split; try done. by eapply slab_wf_ext; [..|exact Hslab]. Qed.

Lemma tick_shard_spec cap c i w now : cache_ok cap c → shards c !! i = Some w →
  returns (tick_shard i now w c) (λ c', cache_ok cap c' ∧ number c' = number c ∧
    abs_step cap (place (number c)) (abs hash c) (abs hash c') ∧
    ∃ bs, event_rx c' = offered event_try_send (event_rx c) bs ∧ Forall batch_ok bs ∧
      NoDup (ev_key <$> concat bs) ∧
      ∀ ev, ev ∈ concat bs ↔ ∃ k d, ev = event_for hash k d ∧
        a_present (abs hash c) k = Some d ∧ a_present (abs hash c') k = None).
Proof.
  intros Hc Hw. pose proof (co_number _ _ Hc) as Hn. pose proof (co_workers _ _ Hc i w Hw) as Ho.
  destruct Ho as [Hwf Hcp Hb Hcs Hop Hca Hpl]. unfold tick_shard, worker_tick.
  pose proof (set_out_wf (w_shard w) (event_rx c) Hwf) as Hwf0. set (s0 := set_out _ _ _) in *.
  assert (Hv0 : ∀ k, view s0 k = view (w_shard w) k) by done.
  apply returns_bind, returns_bind. eapply returns_mono.
  { apply returns_and; [by apply (on_tick_view hash)|by apply (on_tick_out hash)]. } cbn beta.
  intros s' ((Hwf' & Htk & _ & Hcp' & Hsp) & evs & bs & Hb' & Hev & Hbs & Hcc & Hnd & Hin). cbn [returns].
  destruct (abs_set c i w (mkWorker s' (cmd_rx w) false) (event_tx s') Hn Hw) as (Hp & Hv & Ht).
  simpl w_shard in *.
  assert (Hvs : ∀ k, place (number c) k = Some i → view s0 k = a_present (abs hash c) k).
  { intros k Hk. by rewrite (present_at c k i w). }
  split_and!.
  - apply (set_worker_ok cap i w); [done..|]. split; simpl; try done; [by rewrite Hcp'|].
    intros k Hk. apply Hpl. rewrite <- Hv0. specialize (Hsp k). destruct (view s' k); [|done].
    destruct Hsp as [-> _]. done.
  - apply number_insert.
  - apply (abs_time _ _ _ _ i (tick s')).
    + rewrite (clock_at c i w), Htk by done. unfold tick_target. simpl. lia.
    + intros k. rewrite Hp. case_decide; [|done]. by rewrite (waiting_at c k i w).
    + intros k Hk. by rewrite Hv, decide_False.
    + intros k Hk. rewrite Hv, decide_True by done. specialize (Hsp k). by rewrite Hvs in Hsp by done.
    + intros j. apply Ht.
  - exists bs. change (batch s0) with (batch (w_shard w)) in Hcc. rewrite Hb in Hcc. simpl in Hcc. rewrite Hcc. split_and!; [done..|].
    intros ev. rewrite Hin. split; intros (k & d & -> & H1 & H2); exists k, d; (split; [done|]).
    + assert (Hk : place (number c) k = Some i) by (apply Hpl; rewrite <- Hv0; congruence).
      rewrite Hv, decide_True, <- Hvs by done. done.
    + rewrite Hv in H2. case_decide as Hk; [|congruence]. by rewrite Hvs.
Qed.
End invariant.

(** ** The properties *)

Section properties.
Context {K : Type} `{EqDecision K} (hash : K → N).
Context {CC EC : Type} `{!Channel (Command K) CC, !Channel (list (CacheEvent K)) EC}.
Context `{!ChannelLaws (Command K) CC, !ChannelLaws (list (CacheEvent K)) EC}.
Notation Cache := (Cache (K := K) (CC := CC) (EC := EC)).
Implicit Types (c : Cache).

(** The reader is there: the cache holds it. *)
Definition events_ok c : Prop := ch_cap (event_rx c) = CHANNEL ∧ ch_open (event_rx c) = true.

(** Batches get lost only when the channel is full. *)
Lemma offered_items (ev : EC) bs : ch_cap ev = CHANNEL → ch_open ev = true →
  let ev' := offered event_try_send ev bs in
  ch_cap ev' = CHANNEL ∧ ch_open ev' = true ∧
  ∃ kept, sublist kept bs ∧ ch_items ev' = ch_items ev ++ kept ∧
    (length (ch_items ev) + length bs ≤ CHANNEL → kept = bs).
Proof.
  revert ev. induction bs as [|b bs IH]; intros ev Hc Ho; cbv zeta.
  { split_and!; [done..|]. exists []. split_and!; [done| |done]. by rewrite app_nil_r. }
  unfold offered. cbn [foldl]. unfold event_try_send at 2 4 6.
  pose proof (ch_try_send_spec ev b) as Hs. destruct (ch_try_send ev b) as [r ev1].
  destruct Hs as (Hc1 & Ho1 & Hr). cbn [fst].
  destruct (IH ev1) as (Hc2 & Ho2 & kept & Hk & Hi & Hall); [congruence..|].
  split_and!; [exact Hc2|exact Ho2|].
  destruct r; [destruct Hr as (_ & Hlt & Hr)|destruct Hr as (_ & Hge & Hr)|destruct Hr; congruence].
  - exists (b :: kept). split_and!; [by apply sublist_skip|unfold offered in Hi; by rewrite Hi, Hr, <- app_assoc|].
    simpl. intros Hle. f_equal. apply Hall. rewrite Hr, length_app. simpl. lia.
  - exists kept. split_and!; [by apply sublist_cons|unfold offered in Hi; by rewrite Hi, Hr|]. simpl. lia.
Qed.

Lemma step_ok cap c r : cache_ok hash cap c → events_ok c → step hash c r →
  ∃ c', r = Ret c' ∧ cache_ok hash cap c' ∧ events_ok c' ∧ number c' = number c ∧
    abs_step cap (place hash (number c)) (abs hash c) (abs hash c').
Proof.
  intros Hc He Hs.
  assert (Hcall : ∀ cmd, cmd_ok cmd →
    returns (r ← with_shards (send_to cmd_try_send (shards c) (hash (cmd_key cmd)) cmd) c; Ret r.1)
      (λ c', cache_ok hash cap c' ∧ events_ok c' ∧ number c' = number c ∧
        abs_step cap (place hash (number c)) (abs hash c) (abs hash c'))).
  { intros cmd Hcmd. apply returns_bind. eapply returns_mono; [by apply (call_spec hash cap)|].
    intros [c' res] (Hc' & Hn & Hev & Ha & Hp & Ht). simpl. split_and!; [done|by unfold events_ok; rewrite Hev|done|].
    destruct res as [u|e]; [by apply (abs_accept _ _ _ _ cmd)|]. destruct Ha as (_ & Ha & _). by apply abs_stay. }
  apply returns_Ret. destruct Hs as [key ttl|key|key| |i w Hw _|i w now Hw _].
  - apply (Hcall (Insert key (ttl_to_tick ttl))). apply (ttl_to_tick_bounds ttl).
  - by apply (Hcall (Refresh key)).
  - by apply (Hcall (Delete key)).
  - unfold next_batch. pose proof (ch_recv_spec (event_rx c)) as Hr. destruct (ch_recv (event_rx c)) as [b ev].
    destruct Hr as (Hcap & Hop & _). destruct He. cbn [returns snd]. split_and!; [|split; simpl; congruence|done|by apply abs_stay].
    destruct Hc as [Hn Hws]. by split.
  - apply returns_bind. eapply returns_mono; [by apply (worker_recv_spec hash cap c i w)|]. intros w' [Hc' Ha].
    cbn [returns]. split_and!; [done|done|apply number_insert|done].
  - eapply returns_mono; [by apply (tick_shard_spec hash cap c i w now)|].
    intros c' (Hc' & Hn & Ha & bs & Hev & _). split_and!; [done| |done..].
    destruct (offered_items (event_rx c) bs) as (H1 & H2 & _); [apply He..|]. unfold events_ok. by rewrite Hev.
Qed.

Lemma reachable_cache_ok cap starts c :
  (N.of_nat cap < u32_mod)%N → (0 < N.of_nat (length starts) < u64_mod)%N → reachable hash cap starts c →
  cache_ok hash cap c ∧ events_ok c ∧ number c = N.of_nat (length starts).
Proof.
  intros Hcap Hn. induction 1 as [|c c' _ (Hc & He & Hnum) Hs].
  - split_and!; [by apply with_capacity_ok| |by unfold number; simpl; rewrite length_fmap].
    destruct (ch_new_spec (A := list (CacheEvent K)) (C := EC) CHANNEL) as (_ & ? & ?). done.
  - destruct (step_ok cap c _ Hc He Hs) as (c1 & Heq & Hc1 & He1 & Hn1 & _). injection Heq as <-.
    split_and!; [done..|congruence].
Qed.

(** C2: However client calls, the tasks of the shards and the reader of the
    events interleave, the cache with all its shards is one expiring map:
    nothing panics; a call is accepted, and its command joins those waiting
    for its key, unless 65536 commands wait at the key's shard; a shard
    applies the oldest command to its key alone, with the capacity of the
    shard; and a tick takes due keys of its shard only. *)
Theorem cache_refines cap starts c :
  (N.of_nat cap < u32_mod)%N → (0 < N.of_nat (length starts) < u64_mod)%N → reachable hash cap starts c →
  (∀ r, step hash c r → ∃ c', r = Ret c' ∧
    abs_step cap (place hash (N.of_nat (length starts))) (abs hash c) (abs hash c')) ∧
  (∀ key ttl, returns (insert hash key ttl c) (λ '(c', res), accepts hash c (Insert key (ttl_to_tick ttl)) res c')) ∧
  (∀ key, returns (refresh hash key c) (λ '(c', res), accepts hash c (Refresh key) res c')) ∧
  (∀ key, returns (delete hash key c) (λ '(c', res), accepts hash c (Delete key) res c')).
Proof.
  intros Hcap Hn Hr. destruct (reachable_cache_ok cap starts c Hcap Hn Hr) as (Hc & He & Hnum). rewrite <- Hnum.
  assert (Hcall : ∀ cmd, cmd_ok cmd →
    returns (with_shards (send_to cmd_try_send (shards c) (hash (cmd_key cmd)) cmd) c)
      (λ '(c', res), accepts hash c cmd res c')).
  { intros cmd Hcmd. eapply returns_mono; [by apply (call_spec hash cap)|]. by intros [c' res] (_ & _ & _ & ? & _). }
  split_and!.
  - intros r Hs. destruct (step_ok cap c r Hc He Hs) as (c' & -> & _ & _ & _ & Ha). by exists c'.
  - intros key ttl. apply (Hcall (Insert key (ttl_to_tick ttl))). apply (ttl_to_tick_bounds ttl).
  - intros key. by apply (Hcall (Refresh key)).
  - intros key. by apply (Hcall (Delete key)).
Qed.

(** C4: A tick of a shard offers to the shared channel one event for each key
    that leaves the cache, in batches of 1 to 64, no key twice; the channel
    takes the batches in order behind those that wait, all of them while there
    is room for them; and the reader takes the oldest. *)
Theorem cache_events cap starts c i w now :
  (N.of_nat cap < u32_mod)%N → (0 < N.of_nat (length starts) < u64_mod)%N → reachable hash cap starts c →
  shards c !! i = Some w →
  returns (tick_shard i now w c) (λ c', ∃ bs kept,
    Forall batch_ok bs ∧ NoDup (ev_key <$> concat bs) ∧
    (∀ ev, ev ∈ concat bs ↔ ∃ k d, ev = event_for hash k d ∧
      a_present (abs hash c) k = Some d ∧ a_present (abs hash c') k = None) ∧
    sublist kept bs ∧ ch_items (event_rx c') = ch_items (event_rx c) ++ kept ∧
    (length (ch_items (event_rx c)) + length bs ≤ CHANNEL → kept = bs)) ∧
  ch_items (event_rx c) = option_list (next_batch c).1 ++ ch_items (event_rx (next_batch c).2).
Proof.
  intros Hcap Hn Hr Hw. destruct (reachable_cache_ok cap starts c Hcap Hn Hr) as (Hc & He & _). split.
  - eapply returns_mono; [by apply (tick_shard_spec hash cap c i w now)|].
    intros c' (_ & _ & _ & bs & Hev & Hbs & Hnd & Hin).
    destruct (offered_items (event_rx c) bs) as (_ & _ & kept & Hk & Hi & Hall); [apply He..|].
    exists bs, kept. rewrite Hev. done.
  - unfold next_batch. pose proof (ch_recv_spec (event_rx c)) as Hq. destruct (ch_recv (event_rx c)) as [b ev].
    destruct Hq as (_ & _ & Hq & _). destruct b; simpl in *; done.
Qed.
End properties.

(** ** Witnesses *)

(** Two shards of two keys each; key 7 lives on shard 1. *)
Module CacheModel.
Import BusExample.
Definition hash (k : N) : N := k mod 4.
Notation cache := (Cache (K := N) (CC := chan (Command N)) (EC := chan (list (CacheEvent N)))).
Definition or (c : cache) (r : exec cache) : cache := match r with Ret c => c | _ => c end.

Definition c0 : cache := with_capacity 2 [0; 0]%N.
(** Key 7 for 400 ms, handled; the channel found empty. *)
Definition c1 : cache := or c0 (r ← insert hash 7%N 400000000 c0; Ret r.1).
Definition on (c : cache) (f : Worker → exec cache) : cache :=
  match shards c !! 1%nat with Some w => or c (f w) | None => c end.
Definition c2 : cache := on c1 (λ w, w ← worker_recv hash w; Ret (set_worker 1 w c1)).
Definition c3 : cache := on c2 (λ w, w ← worker_recv hash w; Ret (set_worker 1 w c2)).
(** The tick after one second takes key 7. *)
Definition c4 : cache := on c3 (λ w, tick_shard 1 1000000000 w c3).

Definition is_ret {A : Type} (r : exec A) : bool := match r with Ret _ => true | _ => false end.
Lemma or_ret c r : is_ret r = true → r = Ret (or c r).
Proof. by destruct r. Qed.

Lemma reachable1 : reachable hash 2 [0; 0]%N c1.
Proof.
  eapply reachable_step; [apply reachable_start|]. unfold c1.
  rewrite <- (or_ret c0) by by vm_compute. apply step_insert.
Qed.

Definition idle_worker (c : cache) : bool :=
  match shards c !! 1%nat with Some w => negb (w_drained w) | None => false end.
Lemma reachable_recv c : reachable hash 2 [0; 0]%N c → idle_worker c = true →
  is_ret (match shards c !! 1%nat with
          | Some w => w ← worker_recv hash w; Ret (set_worker 1 w c)
          | None => Panic
          end) = true →
  reachable hash 2 [0; 0]%N (on c (λ w, w ← worker_recv hash w; Ret (set_worker 1 w c))).
Proof.
  intros Hc Hi Hr. unfold on, idle_worker in *. destruct (shards c !! 1%nat) as [w|] eqn:Hw; [|done].
  eapply reachable_step; [exact Hc|]. rewrite <- (or_ret c) by done. apply step_recv; [done|].
  by destruct (w_drained w).
Qed.
Lemma reachable3 : reachable hash 2 [0; 0]%N c3.
Proof. apply reachable_recv; [apply reachable_recv; [apply reachable1|by vm_compute..]|by vm_compute..]. Qed.

Lemma values :
  a_pending (abs hash c1) 7%N = [Insert 7 2]%N ∧ a_present (abs hash c1) 7%N = None ∧
  a_pending (abs hash c3) 7%N = [] ∧ a_present (abs hash c3) 7%N = Some (mkDeadline 2 2 1) ∧
  a_present (abs hash c4) 7%N = None ∧ (next_batch c4).1 = Some [mkEvent 7 3 1]%N.
Proof. by vm_compute. Qed.
End CacheModel.
#[local] Existing Instances BusExample.chan_ops BusExample.chan_laws.

Lemma cache_refines_witness :
  (∀ r, step CacheModel.hash CacheModel.c1 r → ∃ c', r = Ret c' ∧
    abs_step 2 (place CacheModel.hash 2) (abs CacheModel.hash CacheModel.c1) (abs CacheModel.hash c')) ∧
  returns (insert CacheModel.hash 7%N 1 CacheModel.c1) (λ '(c', res),
    accepts CacheModel.hash CacheModel.c1 (Insert 7%N (ttl_to_tick 1)) res c').
Proof.
  destruct (cache_refines CacheModel.hash 2 [0; 0]%N CacheModel.c1 eq_refl (conj eq_refl eq_refl)
    CacheModel.reachable1) as (Hs & Hi & _).
  split; [exact Hs|apply Hi].
Defined.

Lemma cache_events_witness :
  ∃ w, shards CacheModel.c3 !! 1%nat = Some w ∧
  returns (tick_shard 1 1000000000 w CacheModel.c3) (λ c', ∃ bs kept,
    Forall batch_ok bs ∧ NoDup (ev_key <$> concat bs) ∧
    (∀ ev, ev ∈ concat bs ↔ ∃ k d, ev = event_for CacheModel.hash k d ∧
      a_present (abs CacheModel.hash CacheModel.c3) k = Some d ∧ a_present (abs CacheModel.hash c') k = None) ∧
    sublist kept bs ∧ ch_items (event_rx c') = ch_items (event_rx CacheModel.c3) ++ kept ∧
    (length (ch_items (event_rx CacheModel.c3)) + length bs ≤ CHANNEL → kept = bs)).
Proof.
  destruct (shards CacheModel.c3 !! 1%nat) as [w|] eqn:Hw.
  2:{ assert (match shards CacheModel.c3 !! 1%nat with Some _ => true | None => false end = true) as Hs by by vm_compute.
      by rewrite Hw in Hs. }
  exists w. split; [reflexivity|].
  exact (proj1 (cache_events CacheModel.hash 2 [0; 0]%N CacheModel.c3 1 w 1000000000 eq_refl (conj eq_refl eq_refl)
    CacheModel.reachable3 Hw)).
Defined.
