(* ===== verification/WheelTrace.v ===== *)
(** * The expiring key set over time (base/src/cache/c100k.rs)

    The abstract cache of [WheelCache] up to pointwise equality, its steps as
    a relation that respects that equality, the runs of the cache as runs of
    the abstract one, and from the abstract runs alone the life of a key
    nobody touches: it stays until its deadline and is gone after it. *)
From S2P Require Import Prelude Wheel WheelSlab WheelTime WheelInv WheelSpec WheelProps Bus WheelCache.

(** ** Abstract caches up to pointwise equality *)

Section equivalence.
Context {K : Type} `{EqDecision K}.
Notation Abs := (Abs (K := K)).

#[global] Instance abs_equiv : Equiv Abs := λ a b,
  (∀ k, a_pending a k = a_pending b k) ∧ (∀ k, a_present a k = a_present b k) ∧ (∀ i, a_clock a i = a_clock b i).

#[global] Instance abs_equivalence : Equivalence (≡@{Abs}).
Proof.
  split.
  - intros a. by split_and!.
  - intros a b (H1 & H2 & H3). by split_and!.
  - intros a b c (H1 & H2 & H3) (G1 & G2 & G3). split_and!; intros x; [rewrite H1|rewrite H2|rewrite H3]; auto.
Qed.

#[global] Instance a_pending_proper : Proper ((≡) ==> (=) ==> (=)) (a_pending (K := K)).
Proof. intros a b (H & _) k _ <-. apply H. Qed.
#[global] Instance a_present_proper : Proper ((≡) ==> (=) ==> (=)) (a_present (K := K)).
Proof. intros a b (_ & H & _) k _ <-. apply H. Qed.
#[global] Instance a_clock_proper : Proper ((≡) ==> (=) ==> (=)) (a_clock (K := K)).
Proof. intros a b (_ & _ & H) i _ <-. apply H. Qed.

#[global] Instance keys_at_proper pl i : Proper (pointwise_relation K (=) ==> (=) ==> iff) (keys_at pl i).
Proof.
  assert (Hone : ∀ m m' n, pointwise_relation K (=) m m' → keys_at pl i m n → keys_at pl i m' n).
  { intros m m' n Hm (l & Hnd & Hl & Hk). exists l. split_and!; [done..|]. intros k. by rewrite <- Hk, Hm. }
  intros m m' Hm n _ <-. split; apply Hone; [done|]. intros k. by rewrite Hm.
Qed.

#[global] Instance spec_handle_proper now n cap cmd :
  Proper (pointwise_relation K (=) ==> pointwise_relation K (=)) (spec_handle now n cap cmd).
Proof.
  intros m m' Hm k. unfold spec_handle. destruct cmd as [key ttl|key|key].
  - case_decide; [|apply Hm]. by rewrite (Hm key).
  - case_decide; [|apply Hm]. by rewrite (Hm key).
  - case_decide; [done|apply Hm].
Qed.

Lemma abs_step_respects cap pl (a a' b b' : Abs) : a ≡ b → a' ≡ b' → abs_step cap pl a a' → abs_step cap pl b b'.
Proof.
  intros Ha Ha'. destruct 1 as [Hp Hv Ht|cmd Hc Hp Hv Ht|i n cmd Hi Hn Hp Hv Ht|i t Hle Hp Hv Hi Ht].
  - apply abs_stay; intros x; rewrite <- Ha, <- Ha'; auto.
  - apply (abs_accept _ _ _ _ cmd); [done|..]; intros x; rewrite <- Ha, <- Ha'; auto.
  - assert (Hm : pointwise_relation K (=) (a_present a) (a_present b)) by (intros k; by rewrite Ha).
    apply (abs_apply _ _ _ _ i n cmd); [done|by rewrite <- Hm|..].
    + intros x. rewrite <- Ha, <- Ha'. auto.
    + intros x. rewrite <- Ha', Hv, (a_clock_proper a b Ha i i eq_refl). by apply spec_handle_proper.
    + intros x. rewrite <- Ha, <- Ha'. auto.
  - apply (abs_time _ _ _ _ i t); [by rewrite <- Ha|..].
    + intros x. rewrite <- Ha, <- Ha'. auto.
    + intros k Hk. rewrite <- Ha, <- Ha'. auto.
    + intros k Hk. specialize (Hi k Hk).
      by rewrite (a_present_proper a' b' Ha' k k eq_refl), (a_present_proper a b Ha k k eq_refl) in Hi.
    + intros x. by rewrite <- (a_clock_proper a' b' Ha' x x eq_refl), <- (a_clock_proper a b Ha x x eq_refl).
Qed.

#[global] Instance abs_step_proper cap pl : Proper ((≡) ==> (≡) ==> iff) (abs_step (K := K) cap pl).
Proof. intros a b Hab a' b' Hab'. split; by apply abs_step_respects. Qed.

(** ** A key nobody touches *)

Context (cap : nat) (pl : K → option nat) (k : K) (i : nat).

(** A step with no command for the key waiting before or after it. *)
Definition untouched (a a' : Abs) : Prop :=
  abs_step cap pl a a' ∧ a_pending a k = [] ∧ a_pending a' k = [].

(** At deadline or before, with the tick of grace at multiples of 512. *)
Definition not_over (t : N) (d : Deadline) : Prop :=
  (t < d_expire d ∨ t = d_expire d ∧ t mod WHEEL_L1 = 0)%N.

Definition stays (a a' : Abs) : Prop :=
  (a_clock a i ≤ a_clock a' i)%N ∧
  (∀ d, a_present a k = Some d →
     match a_present a' k with
     | Some d' => d' = d ∧ (a_clock a' i = a_clock a i ∨ not_over (a_clock a' i) d)
     | None => (d_expire d ≤ a_clock a' i)%N
     end) ∧
  (a_present a k = None → a_present a' k = None).

Lemma spec_handle_other now n cmd m : cmd_key cmd ≠ k → spec_handle now n cap cmd m k = m k.
Proof. intros Hk. unfold spec_handle. destruct cmd; simpl in Hk; by rewrite decide_False. Qed.

Lemma stays_same a a' : a_present a' k = a_present a k → a_clock a' i = a_clock a i → stays a a'.
Proof.
  intros Hv Ht. split; [by rewrite Ht|]. rewrite Hv. split; [|done]. intros d ->. split; [done|]. by left.
Qed.

Lemma untouched_stays a a' : pl k = Some i → untouched a a' → stays a a'.
Proof.
  intros Hpl (Hs & H0 & H1). destruct Hs as [Hp Hv Ht|cmd Hc Hp Hv Ht|j n cmd Hj Hn Hp Hv Ht|j t Hle Hp Hv Hj Ht].
  - by apply stays_same.
  - by apply stays_same.
  - apply stays_same; [|done]. rewrite Hv. apply spec_handle_other. intros Hk.
    specialize (Hp k). rewrite H0, decide_True in Hp by done. done.
  - destruct (decide (j = i)) as [->|Hne].
    + assert (Hti : a_clock a' i = t) by (by rewrite Ht, decide_True).
      specialize (Hj k Hpl). unfold stays. rewrite Hti. split; [done|]. split.
      * intros d Hd. destruct (a_present a' k) as [d'|]; [|by apply Hj].
        destruct Hj as [Hd' Ho]. assert (d' = d) as -> by congruence. split; [done|by right].
      * intros Hnone. destruct (a_present a' k) as [d'|]; [|done]. destruct Hj. congruence.
    + apply stays_same; [apply Hv; congruence|]. rewrite Ht. by rewrite decide_False.
Qed.

Lemma stays_trans a1 a2 a3 : stays a1 a2 → stays a2 a3 → stays a1 a3.
Proof.
  intros (T1 & P1 & N1) (T2 & P2 & N2). split; [lia|]. split; [|auto]. intros d Hd. specialize (P1 d Hd).
  destruct (a_present a2 k) as [d2|] eqn:H2.
  - destruct P1 as [-> Ho]. specialize (P2 d eq_refl). destruct (a_present a3 k) as [d3|]; [|done].
    destruct P2 as [-> [Heq|Ho2]]; [|by split; [|right]]. split; [done|]. rewrite Heq. exact Ho.
  - rewrite N2 by done. lia.
Qed.

Lemma untouched_run a a' : pl k = Some i → rtc untouched a a' → stays a a'.
Proof.
  intros Hpl. induction 1 as [a|a a1 a2 H1 _ IH]; [by apply stays_same|].
  eapply stays_trans; [by apply untouched_stays|done].
Qed.
End equivalence.

(** ** Runs of the cache *)

Section runs.
Context {K : Type} `{EqDecision K} (hash : K → N).
Context {CC EC : Type} `{!Channel (Command K) CC, !Channel (list (CacheEvent K)) EC}.
Context `{!ChannelLaws (Command K) CC, !ChannelLaws (list (CacheEvent K)) EC}.
Notation Cache := (Cache (K := K) (CC := CC) (EC := EC)).
Implicit Types c : Cache.

Definition run_step c c' : Prop := step hash c (Ret c').

(** Nothing for the key waits in its shard's command channel. *)
Definition settled (k : K) c : Prop := a_pending (abs hash c) k = [].

(** A run during which nobody sends a command for the key. *)
Definition quiet_step (k : K) c c' : Prop := run_step c c' ∧ settled k c ∧ settled k c'.

(** The clock of the key's shard. *)
Definition key_clock (k : K) c : N :=
  match place hash (number c) k with Some i => a_clock (abs hash c) i | None => 0%N end.

Lemma run_abs cap starts c c' :
  (N.of_nat cap < u32_mod)%N → (0 < N.of_nat (length starts) < u64_mod)%N → reachable hash cap starts c →
  run_step c c' → reachable hash cap starts c' ∧
    abs_step cap (place hash (N.of_nat (length starts))) (abs hash c) (abs hash c').
Proof.
  intros Hcap Hn Hr Hs. destruct (reachable_cache_ok hash cap starts c Hcap Hn Hr) as (Hc & He & <-).
  split; [by eapply reachable_step|].
  destruct (step_ok hash cap c (Ret c') Hc He Hs) as (c1 & [= <-] & _ & _ & _ & Ha). done.
Qed.

Lemma quiet_run_abs cap starts k c c' :
  (N.of_nat cap < u32_mod)%N → (0 < N.of_nat (length starts) < u64_mod)%N → reachable hash cap starts c →
  rtc (quiet_step k) c c' → reachable hash cap starts c' ∧
    rtc (untouched cap (place hash (N.of_nat (length starts))) k) (abs hash c) (abs hash c').
Proof.
  intros Hcap Hn Hr Hs. induction Hs as [c|c c1 c2 (H1 & S0 & S1) _ IH]; [done|].
  destruct (run_abs cap starts c c1 Hcap Hn Hr H1) as [Hr1 Ha]. destruct (IH Hr1) as [Hr2 Hrun].
  split; [done|]. by eapply rtc_l.
Qed.

(** C3: The life of a key: while nobody sends a command for it, whatever
    happens to the others, a key stays in the cache with its deadline until
    the clock of its shard reaches that deadline, and once the clock has moved
    past it the key is gone; a key that is absent stays absent. *)
Theorem key_lifecycle cap starts c c' k :
  (N.of_nat cap < u32_mod)%N → (0 < N.of_nat (length starts) < u64_mod)%N → reachable hash cap starts c →
  rtc (quiet_step k) c c' →
  (key_clock k c ≤ key_clock k c')%N ∧
  (∀ d, a_present (abs hash c) k = Some d →
     ((key_clock k c' < d_expire d)%N → a_present (abs hash c') k = Some d) ∧
     ((key_clock k c < key_clock k c')%N → (d_expire d < key_clock k c')%N → a_present (abs hash c') k = None)) ∧
  (a_present (abs hash c) k = None → a_present (abs hash c') k = None).
Proof.
  intros Hcap Hn Hr Hs. destruct (quiet_run_abs cap starts k c c' Hcap Hn Hr Hs) as [Hr' Ha].
  destruct (reachable_cache_ok hash cap starts c Hcap Hn Hr) as (Hc & _ & Hnum).
  destruct (reachable_cache_ok hash cap starts c' Hcap Hn Hr') as (_ & _ & Hnum').
  destruct (place_spec hash c k) as (i & w & Hp & _ & _); [rewrite Hnum; lia|].
  unfold key_clock. rewrite Hnum', Hnum in *. rewrite Hp.
  destruct (untouched_run cap _ k i _ _ Hp Ha) as (Ht & Hv & Hno). split_and!; [done| |done].
  intros d Hd. specialize (Hv d Hd). destruct (a_present (abs hash c') k) as [d'|].
  - destruct Hv as [-> Ho]. split; [done|]. unfold not_over in Ho. lia.
  - split; [lia|done].
Qed.
End runs.

(** ** Witness *)

#[local] Existing Instances BusExample.chan_ops BusExample.chan_laws.

Module TraceExample.
Import CacheModel.
Definition tick_ok : bool := match shards c3 !! 1%nat with Some w => w_drained w && is_ret (tick_shard 1 1000000000 w c3) | None => false end.

(** The tick after a second, with nothing for key 7 waiting. *)
Lemma quiet_tick : quiet_step hash 7%N c3 c4.
Proof.
  assert (tick_ok = true) as Hok by by vm_compute. unfold tick_ok in Hok.
  split; [|by split; vm_compute]. unfold run_step, c4, on. destruct (shards c3 !! 1%nat) as [w|] eqn:Hw; [|done].
  apply andb_true_iff in Hok as [Hd Hr]. rewrite <- (or_ret c3) by done. by apply step_tick.
Qed.
End TraceExample.

(** Key 7, with deadline 2, is gone when the clock of its shard shows 5. *)
Lemma key_lifecycle_witness :
  (0 ≤ 5)%N ∧
  (∀ d, Some (mkDeadline 2 2 1) = Some d →
     ((5 < d_expire d)%N → a_present (abs CacheModel.hash CacheModel.c4) 7%N = Some d) ∧
     ((0 < 5)%N → (d_expire d < 5)%N → a_present (abs CacheModel.hash CacheModel.c4) 7%N = None)) ∧
  (Some (mkDeadline 2 2 1) = None → a_present (abs CacheModel.hash CacheModel.c4) 7%N = None).
Proof.
  assert (Hv : key_clock CacheModel.hash 7%N CacheModel.c3 = 0%N ∧ key_clock CacheModel.hash 7%N CacheModel.c4 = 5%N ∧
    a_present (abs CacheModel.hash CacheModel.c3) 7%N = Some (mkDeadline 2 2 1)) by by vm_compute.
  destruct Hv as (<- & <- & <-).
  apply (key_lifecycle CacheModel.hash 2 [0; 0]%N CacheModel.c3 CacheModel.c4 7%N); [done|done|apply CacheModel.reachable3|].
  apply rtc_once, TraceExample.quiet_tick.
Defined.
