(* ===== verification/Episode.v ===== *)
(** * Failure episodes (base/src/logger/episode.rs)

    Which failures in a row are worth a log line: the first one, and one
    summary per interval.  An [Instant] is its nanoseconds since some start;
    the source takes it as an argument. *)
From stdpp Require Import sorting.
From S2P Require Import Prelude.

Definition DEFAULT_SUMMARY_INTERVAL : N := 60000000000.

Inductive EpisodeDecision :=
  | Started
  | Suppressed
  | Summary (total since_last_summary suppressed duration : N)
  | Recovered (total suppressed duration : N)
  | Healthy.

Record FailureEpisode := mkEpisode {
  summary_interval : N;
  started_at : option N;
  last_summary_at : option N;
  total : N;
  suppressed_total : N;
  suppressed_since_summary : N
}.

(** The [assert!] panics on a zero interval. *)
Definition new (summary_interval : N) : exec FailureEpisode :=
  if (summary_interval =? 0)%N then Panic
  else Ret (mkEpisode summary_interval None None 0 0 0).

(** [checked_duration_since(earlier).unwrap_or_default()]. *)
Definition elapsed (now earlier : N) : N := (now - earlier)%N.

Definition record_failure (e : FailureEpisode) (now : N) : EpisodeDecision * FailureEpisode :=
  match started_at e with
  | None =>
      (Started, mkEpisode (summary_interval e) (Some now) (Some now) 1
                  (suppressed_total e) (suppressed_since_summary e))
  | Some started =>
      let total := sat_add64 (total e) 1 in
      let last := default started (last_summary_at e) in
      if (summary_interval e <=? elapsed now last)%N then
        (Summary total (sat_add64 (suppressed_since_summary e) 1) (suppressed_since_summary e)
           (elapsed now started),
         mkEpisode (summary_interval e) (Some started) (Some now) total (suppressed_total e) 0)
      else
        (Suppressed,
         mkEpisode (summary_interval e) (Some started) (last_summary_at e) total
           (sat_add64 (suppressed_total e) 1) (sat_add64 (suppressed_since_summary e) 1))
  end.

Definition reset (e : FailureEpisode) : FailureEpisode :=
  mkEpisode (summary_interval e) None None 0 0 0.

Definition record_success (e : FailureEpisode) (now : N) : EpisodeDecision * FailureEpisode :=
  match started_at e with
  | None => (Healthy, e)
  | Some started => (Recovered (total e) (suppressed_total e) (elapsed now started), reset e)
  end.

Definition is_active (e : FailureEpisode) : bool := bool_decide (is_Some (started_at e)).

(** The failures at the given times, one after the other. *)
Fixpoint failures (e : FailureEpisode) (ts : list N) : list EpisodeDecision * FailureEpisode :=
  match ts with
  | [] => ([], e)
  | t :: ts =>
      let '(d, e) := record_failure e t in
      let '(ds, e) := failures e ts in (d :: ds, e)
  end.

(** How many failures a decision tells the log about. *)
Definition told (d : EpisodeDecision) : N :=
  match d with
  | Started => 1
  | Summary _ since _ _ => since
  | _ => 0
  end.
Definition sum_told (ds : list EpisodeDecision) : N := foldr (λ d acc, told d + acc)%N 0%N ds.

#[export] Instance decision_eq_dec : EqDecision EpisodeDecision.
Proof. solve_decision. Defined.

Definition is_summary (d : EpisodeDecision) : Prop := if d is Summary _ _ _ _ then True else False.
#[export] Instance is_summary_dec d : Decision (is_summary d).
Proof. destruct d; apply _. Defined.

Definition summaries (ds : list EpisodeDecision) : N := N.of_nat (length (filter is_summary ds)).
Definition suppressions (ds : list EpisodeDecision) : N :=
  N.of_nat (length (filter (λ d, d = Suppressed) ds)).

(** A decision that writes a line, the recovery's apart, and the times of
    those lines. *)
Definition is_line (d : EpisodeDecision) : bool :=
  match d with Started | Summary _ _ _ _ => true | _ => false end.
Fixpoint lines_at (ts : list N) (ds : list EpisodeDecision) : list N :=
  match ts, ds with
  | t :: ts, d :: ds => if is_line d then t :: lines_at ts ds else lines_at ts ds
  | _, _ => []
  end.

(** ** Lemmas *)

(** The counters of an episode that is under way, below saturation. *)
Definition running (e : FailureEpisode) (start : N) (rest : nat) : Prop :=
  started_at e = Some start ∧ is_Some (last_summary_at e) ∧
  (total e + N.of_nat rest < u64_max ∧ suppressed_total e + N.of_nat rest < u64_max ∧
   suppressed_since_summary e + N.of_nat rest < u64_max)%N.

Lemma failures_running ts e start :
  running e start (length ts) →
  let '(ds, e') := failures e ts in
  running e' start 0 ∧ summary_interval e' = summary_interval e ∧
  (total e' = total e + N.of_nat (length ts) ∧
   suppressed_total e' = suppressed_total e + suppressions ds ∧
   sum_told ds + suppressed_since_summary e' = suppressed_since_summary e + N.of_nat (length ts))%N.
Proof.
  revert e. induction ts as [|t ts IH]; intros e Hr; simpl.
  { unfold suppressions. simpl. split_and!; [done|done|lia..]. }
  assert (Hsum : ∀ d ds, suppressions (d :: ds) = ((if decide (d = Suppressed) then 1 else 0) + suppressions ds)%N).
  { intros d ds. unfold suppressions. rewrite filter_cons. case_decide; simpl; lia. }
  destruct Hr as (Hs & [l Hl] & Hb). cbn [length] in *. rewrite Nat2N.inj_succ in *. unfold record_failure. rewrite Hs, Hl. simpl.
  assert (Hsat : ∀ x, (x + N.succ (N.of_nat (length ts)) < u64_max)%N → sat_add64 x 1 = (x + 1)%N).
  { intros x Hx. unfold_machine. lia. }
  rewrite !Hsat by lia.
  case_N; match goal with |- context [failures ?e0 ts] =>
    specialize (IH e0); simpl in IH; destruct (failures e0 ts) as [ds e'] end;
    (destruct IH as (? & ? & ? & ? & ?); [split_and!; simpl; [done|by eexists|lia..]|]);
    rewrite Hsum; (split_and!; [done|done|simpl; lia..]).
Qed.

Lemma last_cons {A : Type} (l : list A) (x d : A) : List.last (x :: l) d = List.last l x.
Proof. revert x. induction l as [|y l IH]; intros x; [done|]. simpl in *. destruct l; [done|]. apply (IH x). Qed.

(** With time going forward, a summary comes at least an interval after the
    report before it. *)
Lemma failures_rate ts e start last :
  started_at e = Some start → last_summary_at e = Some last →
  Sorted N.le (last :: ts) →
  ∃ last', last_summary_at (failures e ts).2 = Some last' ∧
    (last + summaries (failures e ts).1 * summary_interval e ≤ last')%N ∧
    (last' ≤ List.last ts last)%N.
Proof.
  revert e last. induction ts as [|t ts IH]; intros e last Hs Hl Hsort.
  { exists last. unfold summaries. simpl. split_and!; [done|lia..]. }
  apply Sorted_inv in Hsort as [Hsort Hhd]. apply HdRel_inv in Hhd.
  rewrite last_cons. simpl. unfold record_failure. rewrite Hs, Hl. simpl. case_N.
  - match goal with |- context [failures ?e0 ts] => specialize (IH e0 t) end.
    simpl in IH. destruct IH as (last' & ? & ? & ?); [done..|].
    destruct (failures _ ts) as [ds e']. simpl in *. exists last'.
    unfold summaries, elapsed in *. rewrite filter_cons_True by done. simpl.
    split_and!; [done|nia|done].
  - match goal with |- context [failures ?e0 ts] => specialize (IH e0 last) end.
    simpl in IH. destruct IH as (last' & ? & ? & Hle); [done..| |].
    { apply Sorted_cons; [by apply Sorted_inv in Hsort as [? _]|].
      destruct ts as [|t' ts]; [constructor|]. apply Sorted_inv in Hsort as [_ Ht].
      apply HdRel_inv in Ht. constructor. lia. }
    destruct (failures _ ts) as [ds e']. simpl in *. exists last'.
    unfold summaries. rewrite filter_cons_False by auto. split_and!; [done..|].
    destruct ts; [simpl in *; lia|]. by rewrite !last_cons in *.
Qed.

(** Each line is at least an interval after the line before it, and every
    failure is less than an interval after a line that is not later. *)
Lemma failures_lines ts e start last :
  started_at e = Some start → last_summary_at e = Some last → summary_interval e ≠ 0%N →
  let lines := last :: lines_at ts (failures e ts).1 in
  Sorted (λ a b, a + summary_interval e ≤ b)%N lines ∧
  (Sorted N.le (last :: ts) →
    ∀ x, x ∈ ts → ∃ y, y ∈ lines ∧ (y ≤ x)%N ∧ (x < y + summary_interval e)%N).
Proof.
  revert e last. induction ts as [|t ts IH]; intros e last Hs Hl Hi; simpl.
  { split; [by repeat constructor|]. intros _ x Hx. by apply elem_of_nil in Hx. }
  unfold record_failure. rewrite Hs, Hl. simpl. case_N.
  - match goal with |- context [failures ?e0 ts] => specialize (IH e0 t) end.
    simpl in IH. destruct IH as [IH1 IH2]; [done..|].
    destruct (failures _ ts) as [ds e']. simpl in *. unfold elapsed in *. split.
    + constructor; [done|]. constructor. lia.
    + intros Hsort x [->|Hx]%elem_of_cons.
      { exists t. split_and!; [by right; left|done|lia]. }
      apply Sorted_inv in Hsort as [Hsort _].
      destruct (IH2 Hsort x Hx) as (y & Hy & ?). exists y. split; [by right|done].
  - match goal with |- context [failures ?e0 ts] => specialize (IH e0 last) end.
    simpl in IH. destruct IH as [IH1 IH2]; [done..|].
    destruct (failures _ ts) as [ds e']. simpl in *. unfold elapsed in *. split; [done|].
    intros Hsort. apply Sorted_inv in Hsort as [Hsort Hhd%HdRel_inv].
    intros x [->|Hx]%elem_of_cons.
    { exists last. split_and!; [by left|done|lia]. }
    apply IH2; [|done]. apply Sorted_cons; [by apply Sorted_inv in Hsort as [? _]|].
    destruct ts as [|t' ts]; [constructor|]. apply Sorted_inv in Hsort as [_ Ht%HdRel_inv].
    constructor. lia.
Qed.

(** C39: In an episode of failures every failure is told about exactly once, in
    the line of the first one or in a summary, or is still counted as
    suppressed since the last one; the recovery reports the number of
    failures and of suppressed ones, and leaves the tracker as new.  Each
    line comes at least an interval after the line before it, be it the
    episode's first or a summary, so there is at most one summary per
    interval; and if time goes forward, every failure comes less than an
    interval after a line, so none waits longer for its summary. *)
Theorem episode_accounts interval e0 t ts now :
  new interval = Ret e0 → (N.of_nat (length ts) + 1 < u64_max)%N →
  let '(ds, e) := failures e0 (t :: ts) in
  (sum_told ds + suppressed_since_summary e = N.of_nat (length (t :: ts)))%N ∧
  record_success e now = (Recovered (N.of_nat (length (t :: ts))) (suppressions ds) (now - t), e0) ∧
  Sorted (λ a b, a + interval ≤ b)%N (lines_at (t :: ts) ds) ∧
  (Sorted N.le (t :: ts) →
    (summaries ds * interval ≤ List.last ts t - t)%N ∧
    ∀ x, x ∈ t :: ts → ∃ y, y ∈ lines_at (t :: ts) ds ∧ (y ≤ x)%N ∧ (x < y + interval)%N).
Proof.
  unfold new. intros Hnew Hlen. revert Hnew. case_N; [done|]. intros [= <-].
  set (e1 := mkEpisode interval (Some t) (Some t) 1 0 0).
  change (failures _ (t :: ts)) with
    (let '(ds, e) := failures e1 ts in (Started :: ds, e)).
  pose proof (failures_lines ts e1 t t eq_refl eq_refl) as Hlines.
  pose proof (failures_running ts e1 t) as Hrun. pose proof (failures_rate ts e1 t t eq_refl eq_refl) as Hrate.
  destruct (failures e1 ts) as [ds e]. simpl in *.
  destruct Hrun as ((Hst & _) & Hi & Ht & Hsup & Hsum).
  { split_and!; simpl; [done|by eexists|lia..]. }
  split_and!.
  - lia.
  - unfold record_success, reset. rewrite Hst, Hi, Ht, Hsup. simpl.
    unfold suppressions. rewrite filter_cons_False by done. repeat f_equal; lia.
  - by apply Hlines.
  - intros Hsort. destruct (Hrate Hsort) as (last' & _ & ? & ?). split.
    + unfold summaries in *. rewrite filter_cons_False by auto. lia.
    + intros x [->|Hx]%elem_of_cons; [exists t; split_and!; [by left|lia..]|by apply Hlines].
Qed.

Lemma episode_accounts_witness :
  let e0 := mkEpisode 60 None None 0 0 0 in
  let '(ds, e) := failures e0 [0; 3; 59; 60; 120]%N in
  (sum_told ds + suppressed_since_summary e = 5)%N ∧
  record_success e 123 = (Recovered 5 (suppressions ds) 123, e0) ∧
  Sorted (λ a b, a + 60 ≤ b)%N (lines_at [0; 3; 59; 60; 120]%N ds) ∧
  (Sorted N.le [0; 3; 59; 60; 120]%N →
    (summaries ds * 60 ≤ 120)%N ∧
    ∀ x, x ∈ [0; 3; 59; 60; 120]%N →
      ∃ y, y ∈ lines_at [0; 3; 59; 60; 120]%N ds ∧ (y ≤ x)%N ∧ (x < y + 60)%N).
Proof. apply (episode_accounts 60 _ 0 [3; 59; 60; 120] 123)%N; [reflexivity|reflexivity]. Defined.

(** The lines of that run: the first failure, and those an interval later. *)
Example episode_lines :
  lines_at [0; 3; 59; 60; 120]%N (failures (mkEpisode 60 None None 0 0 0) [0; 3; 59; 60; 120]%N).1
  = [0; 60; 120]%N.
Proof. reflexivity. Qed.
