(* ===== verification/Interceptor.v ===== *)
(** * Request metadata (base_rpc/src/interceptor.rs, base_rpc/src/error.rs)

    The client interceptor writes identity fields into a request's metadata,
    the server reads them back.  tonic's metadata is a map from header names
    to values; how values are parsed from text and printed is an argument,
    with the law that printing a parsed value gives the text back. *)
From stdpp Require Import strings.
From S2P Require Import Prelude Errors.

Definition REQUEST_ID : string := "x-request-id".
Definition TRACE_ID : string := "x-trace-id".
Definition NODE_ID : string := "x-node-id".
Definition INSTANCE_ID : string := "x-instance-id".
Definition PROTOCOL_VERSION : string := "x-protocol-version".
Definition AUTHORIZATION : string := "authorization".

Record RpcMetadata := mkMetadata {
  request_id : option string;
  trace_id : option string;
  node_id : option string;
  instance_id : option string;
  protocol_version : option string;
  bearer_token : option string
}.

(** The errors of the crate; those of other crates by their text. *)
Inductive RpcError :=
  | InvalidEndpoint (text : string)
  | Transport (text : string)
  | Io (text : string)
  | InvalidMetadata (name value : string)
  | Connection (text : string).

Definition rpc_error_display (e : RpcError) : string :=
  match e with
  | InvalidEndpoint t => "invalid endpoint: " +:+ t
  | Transport t => "transport error: " +:+ t
  | Io t => "io error: " +:+ t
  | InvalidMetadata name value => "invalid metadata value for " +:+ name +:+ ": " +:+ value
  | Connection t => "connection task failed: " +:+ t
  end.

Fixpoint strip_prefix_str (p s : string) : option string :=
  match p, s with
  | EmptyString, _ => Some s
  | String a p, String b s => if Ascii.eqb a b then strip_prefix_str p s else None
  | String _ _, EmptyString => None
  end.

Section interceptor.
Context {Value : Type} (from_str : string → option Value) (to_str : Value → option string).
Notation MetadataMap := (gmap string Value).

Definition insert_value (metadata : MetadataMap) (name value : string) :
    result MetadataMap (Status Value) :=
  match from_str value with
  | Some v => Ok (<[name := v]> metadata)
  | None => Err (mkStatus CInvalidArgument (rpc_error_display (InvalidMetadata name value)) ∅)
  end.

Definition insert_optional (metadata : MetadataMap) (name : string) (value : option string) :
    result MetadataMap (Status Value) :=
  match value with
  | Some value => insert_value metadata name value
  | None => Ok metadata
  end.

(** [ClientMetadataInterceptor::call]; the request is consumed, so an error
    leaves nothing behind. *)
Definition call (md : RpcMetadata) (request : MetadataMap) : result MetadataMap (Status Value) :=
  let? r := insert_optional request REQUEST_ID (request_id md) in
  let? r := insert_optional r TRACE_ID (trace_id md) in
  let? r := insert_optional r NODE_ID (node_id md) in
  let? r := insert_optional r INSTANCE_ID (instance_id md) in
  let? r := insert_optional r PROTOCOL_VERSION (protocol_version md) in
  match bearer_token md with
  | Some token => insert_value r AUTHORIZATION ("Bearer " +:+ token)
  | None => Ok r
  end.

Definition get_value (metadata : MetadataMap) (name : string) : option string :=
  metadata !! name ≫= to_str.

Definition extract_rpc_metadata (metadata : MetadataMap) : RpcMetadata :=
  mkMetadata (get_value metadata REQUEST_ID) (get_value metadata TRACE_ID)
    (get_value metadata NODE_ID) (get_value metadata INSTANCE_ID)
    (get_value metadata PROTOCOL_VERSION)
    (get_value metadata AUTHORIZATION ≫= strip_prefix_str "Bearer ").

(** ** Lemmas *)

(** What a request carries of a field after the interceptor. *)
Definition over (new old : option string) : option string := if new is Some s then Some s else old.

Definition overlay (md old : RpcMetadata) : RpcMetadata :=
  mkMetadata (over (request_id md) (request_id old)) (over (trace_id md) (trace_id old))
    (over (node_id md) (node_id old)) (over (instance_id md) (instance_id old))
    (over (protocol_version md) (protocol_version old)) (over (bearer_token md) (bearer_token old)).

(** The headers to write, in order. *)
Definition headers (md : RpcMetadata) : list (string * option string) :=
  [(REQUEST_ID, request_id md); (TRACE_ID, trace_id md); (NODE_ID, node_id md);
   (INSTANCE_ID, instance_id md); (PROTOCOL_VERSION, protocol_version md);
   (AUTHORIZATION, (λ t, "Bearer " +:+ t) <$> bearer_token md)].

Fixpoint insert_all (r : MetadataMap) (hs : list (string * option string)) :
    result MetadataMap (Status Value) :=
  match hs with
  | [] => Ok r
  | (name, v) :: hs => let? r := insert_optional r name v in insert_all r hs
  end.

Lemma call_insert_all md r : call md r = insert_all r (headers md).
Proof.
  unfold call, headers. cbn [insert_all].
  repeat (destruct (insert_optional _ _ _); [cbn|done]).
  destruct (bearer_token md); [|done]. cbn. by destruct (insert_value _ _ _).
Qed.

(** A field that is absent or can be a header value. *)
Definition sendable (v : option string) : Prop := ∀ s, v = Some s → is_Some (from_str s).

Context (law : ∀ s v, from_str s = Some v → to_str v = Some s).

Lemma insert_all_spec hs r : NoDup hs.*1 →
  match insert_all r hs with
  | Ok r' => Forall (λ h, sendable h.2) hs ∧
      ∀ name, get_value r' name =
        match list_to_map (M:=gmap string (option string)) hs !! name with
        | Some v => over v (get_value r name)
        | None => get_value r name
        end
  | Err st => st_code st = CInvalidArgument ∧ ∃ name s, (name, Some s) ∈ hs ∧ from_str s = None ∧
      st_message st = rpc_error_display (InvalidMetadata name s)
  end.
Proof.
  revert r. induction hs as [|[name v] hs IH]; intros r Hnd; cbn [insert_all].
  { split; [constructor|]. intros name. cbn. by rewrite lookup_empty. }
  rewrite fmap_cons in Hnd. apply NoDup_cons in Hnd as [Hni Hnd]. cbn in Hni.
  destruct v as [s|]; cbn [insert_optional].
  2:{ cbn. specialize (IH r Hnd). destruct (insert_all r hs) as [r'|st].
      - destruct IH as [Hs Hr]. split; [by constructor|]. intros n. cbn.
        destruct (decide (name = n)) as [<-|Hn].
        + rewrite lookup_insert_eq, Hr, not_elem_of_list_to_map_1 by done. done.
        + rewrite lookup_insert_ne by done. apply Hr.
      - destruct IH as (Hc & n & s & Hin & ?). split; [done|]. exists n, s. split; [by right|done]. }
  unfold insert_value. destruct (from_str s) as [v|] eqn:Hv; cbn [result_bind].
  2:{ split; [done|]. exists name, s. split; [by left|done]. }
  specialize (IH (<[name := v]> r) Hnd). destruct (insert_all _ hs) as [r'|st].
  - destruct IH as [Hs Hr]. split.
    { constructor; [|done]. intros s' [= <-]. by eexists. }
    intros n. rewrite Hr, list_to_map_cons. destruct (decide (name = n)) as [<-|Hn].
    + rewrite lookup_insert_eq, not_elem_of_list_to_map_1 by done.
      unfold get_value. rewrite lookup_insert_eq. cbn. by apply law.
    + rewrite lookup_insert_ne by done.
      assert (get_value (<[name := v]> r) n = get_value r n) as ->; [|done].
      unfold get_value. by rewrite lookup_insert_ne.
  - destruct IH as (Hc & n & s' & Hin & ?). split; [done|]. exists n, s'. split; [by right|done].
Qed.

Lemma strip_prefix_str_app p s : strip_prefix_str p (p +:+ s) = Some s.
Proof. induction p as [|a p IH]; [by destruct s|]. change (String a p +:+ s) with (String a (p +:+ s)).
  cbn [strip_prefix_str]. by rewrite Ascii.eqb_refl. Qed.

(** A request that passes the interceptor carries on the other side every
    field of the client's metadata, keeps its own fields where the client has
    none, and all its other headers; it is refused, with an invalid-argument
    status that names the field, exactly when a field is no header value. *)
Theorem metadata_roundtrip md request :
  match call md request with
  | Ok request' =>
      extract_rpc_metadata request' = overlay md (extract_rpc_metadata request) ∧
      Forall (λ h, sendable h.2) (headers md) ∧
      ∀ name, name ∉ (headers md).*1 → get_value request' name = get_value request name
  | Err st => st_code st = CInvalidArgument ∧
      ∃ name s, (name, Some s) ∈ headers md ∧ from_str s = None ∧
        st_message st = rpc_error_display (InvalidMetadata name s)
  end.
Proof.
  rewrite call_insert_all. pose proof (insert_all_spec (headers md) request) as Hspec.
  destruct (insert_all request (headers md)) as [r'|st]; [|by apply Hspec, (bool_decide_unpack _)].
  destruct Hspec as [Hs Hr]; [by apply (bool_decide_unpack _)|]. split_and!; [|done|].
  - unfold extract_rpc_metadata, overlay. rewrite !Hr. cbn. f_equal.
    destruct (bearer_token md) as [t|]; [|done]. cbn. exact (strip_prefix_str_app "Bearer " t).
  - intros name Hname. rewrite Hr. by rewrite not_elem_of_list_to_map_1.
Qed.
End interceptor.

(** ** Witness *)

Module InterceptorExample.
(** Values are the texts without a newline. *)
Definition from_str (s : string) : option string :=
  if bool_decide (Ascii.ascii_of_nat 10 ∈ String.list_ascii_of_string s) then None else Some s.
Lemma law s v : from_str s = Some v → Some v = Some s.
Proof. unfold from_str. case_bool_decide; naive_solver. Qed.
Definition md : RpcMetadata := mkMetadata (Some "r1") None (Some "n1") None None (Some "secret").
Definition request : gmap string string := {["x-trace-id" := "t0"; "accept" := "any"]}.
End InterceptorExample.
Import InterceptorExample.

Lemma metadata_roundtrip_witness :
  match call from_str md request with
  | Ok request' =>
      extract_rpc_metadata Some request' = overlay md (extract_rpc_metadata Some request) ∧
      Forall (λ h, sendable from_str h.2) (headers md) ∧
      ∀ name, name ∉ (headers md).*1 → get_value Some request' name = get_value Some request name
  | Err st => st_code st = CInvalidArgument ∧
      ∃ name s, (name, Some s) ∈ headers md ∧ from_str s = None ∧
        st_message st = rpc_error_display (InvalidMetadata name s)
  end.
Proof. apply (metadata_roundtrip from_str Some law md request). Defined.

(** The call of the witness goes through, and this is what the server reads. *)
Example metadata_read :
  match call from_str md request with
  | Ok r => extract_rpc_metadata Some r =
      mkMetadata (Some "r1") (Some "t0") (Some "n1") None None (Some "secret")
  | Err _ => False
  end.
Proof. by vm_compute. Qed.
