(* ===== verification/Supervisor.v ===== *)
(** * Supervised streams (base_rpc/src/stream_supervisor.rs, retry.rs)

    A task that keeps one connection running: it announces each attempt with
    a new generation, runs the connector, announces the loss, waits and tries
    again, until it is cancelled or out of attempts.  The watched state is
    also written by the reporters the connector holds.  Each await of the task
    is the end of a step; a reporter's call is one step when the connector's
    own future makes it (it then runs inside the task), and two when another
    task makes it, since it reads the state and writes it afterwards. *)
From S2P Require Import Prelude.

Definition u32_sat_succ (n : N) : N := N.min (n + 1) u32_max.

(** The [f64] fields of the policy only determine the length of the waits. *)
Record RetryPolicy := mkPolicy { max_attempts : option N }.

Definition retry_default : RetryPolicy := mkPolicy None.

Definition permits (p : RetryPolicy) (attempt : N) : bool :=
  match max_attempts p with
  | Some max => (attempt <=? max)%N
  | None => true
  end.

Inductive ConnectionState :=
  | Idle
  | Connecting (generation attempt : N)
  | Connected (generation : N)
  | Disconnected (generation : N) (reason : string)
  | Stopped.

#[export] Instance state_eq_dec : EqDecision ConnectionState.
Proof. solve_decision. Defined.

(** Where the task is: at the top of its loop, awaiting the connector,
    awaiting the delay, or finished. *)
Inductive Phase := Top | Running | Sleeping | Done.

(** [tokens] are the connection tokens that are not cancelled yet, by
    generation; [cancelled] is the task's own token, whose cancellation
    cancels its children. [checked] are reporters' calls between their read
    and their write. *)
Record Sup := mkSup {
  phase : Phase;
  generation : N;
  attempt : N;
  state : ConnectionState;
  cancelled : bool;
  tokens : gset N;
  checked : list N
}.

(** [StreamSupervisor::spawn], before the task runs. *)
Definition spawn : Sup := mkSup Top 0 0 Idle false ∅ [].

(** The end of the task. *)
Definition stop (s : Sup) : Sup :=
  mkSup Done (generation s) (attempt s) Stopped (cancelled s) (tokens s) (checked s).

(** From the top of the loop to the await of the connector. *)
Definition loop_top (p : RetryPolicy) (s : Sup) : Sup :=
  if cancelled s then stop s
  else
    let attempt := u32_sat_succ (attempt s) in
    if negb (permits p attempt) then
      stop (mkSup (phase s) (generation s) attempt (state s) (cancelled s) (tokens s) (checked s))
    else
      let generation := sat_add64 (generation s) 1 in
      mkSup Running generation attempt (Connecting generation attempt) (cancelled s)
        ({[generation]} ∪ tokens s) (checked s).

(** The connector has come back: its token is cancelled. *)
Definition connection_end (result : result unit string) (s : Sup) : Sup :=
  let s := mkSup (phase s) (generation s) (attempt s) (state s) (cancelled s)
             (tokens s ∖ {[generation s]}) (checked s) in
  if cancelled s then stop s
  else
    let reason := match result with Ok _ => "connection ended" | Err e => e end in
    mkSup Sleeping (generation s) (attempt s) (Disconnected (generation s) reason) (cancelled s)
      (tokens s) (checked s).

(** The [select!] of the delay and the cancellation. *)
Definition sleep_end (elapsed : bool) (s : Sup) : Sup :=
  if elapsed then mkSup Top (generation s) (attempt s) (state s) (cancelled s) (tokens s) (checked s)
  else stop s.

(** [StreamSupervisorHandle::shutdown], its first half; the second awaits
    the task. *)
Definition shutdown (s : Sup) : Sup :=
  mkSup (phase s) (generation s) (attempt s) (state s) true ∅ (checked s).

(** [ConnectionReporter::connected]: the read and the write. *)
Definition is_current (g : N) (st : ConnectionState) : bool :=
  match st with
  | Connecting generation _ | Connected generation => (generation =? g)%N
  | _ => false
  end.
Definition report_check (g : N) (s : Sup) : Sup :=
  if is_current g (state s) then
    mkSup (phase s) (generation s) (attempt s) (state s) (cancelled s) (tokens s) (g :: checked s)
  else s.
Definition report_commit (g : N) (rest : list N) (s : Sup) : Sup :=
  mkSup (phase s) (generation s) (attempt s) (Connected g) (cancelled s) (tokens s) rest.
Definition connected (g : N) (s : Sup) : Sup :=
  if is_current g (state s) then report_commit g (checked s) s else s.

(** ** Executions *)

Section executions.
Context (p : RetryPolicy).

(** What the task itself does next. *)
Inductive task_step (s : Sup) : Sup → Prop :=
  | step_top : phase s = Top → task_step s (loop_top p s)
  | step_end result : phase s = Running → task_step s (connection_end result s)
  | step_slept : phase s = Sleeping → task_step s (sleep_end true s)
  | step_woken : phase s = Sleeping → cancelled s = true → task_step s (sleep_end false s).

(** With reports made from the connector's future. *)
Inductive step (s : Sup) : Sup → Prop :=
  | step_task s' : task_step s s' → step s s'
  | step_shutdown : step s (shutdown s)
  | step_report g : (g ≤ generation s)%N → step s (connected g s).

(** With reports made from any task. *)
Inductive step_any (s : Sup) : Sup → Prop :=
  | any_step s' : step s s' → step_any s s'
  | any_check g : (g ≤ generation s)%N → step_any s (report_check g s)
  | any_commit g l1 l2 : checked s = l1 ++ g :: l2 → step_any s (report_commit g (l1 ++ l2) s).

(** ** Invariant *)


Definition limit_ok (s : Sup) : Prop :=
  match max_attempts p with Some max => (generation s ≤ max)%N | None => True end.

(** The attempt counter stays at [u32::MAX], so a limit of [u32::MAX] is none. *)
Definition finite_limit : Prop := if max_attempts p is Some max then (max < u32_max)%N else True.

(** What holds whoever calls the reporters. *)
Definition bounded (s : Sup) : Prop :=
  limit_ok s ∧ tokens s ⊆ (if phase s is Running then {[generation s]} else ∅) ∧
  (phase s ≠ Done → attempt s = N.min (generation s) u32_max ∧ (generation s ≤ u64_max)%N).

Lemma stop_bounded s : limit_ok s → tokens s ⊆ ∅ → bounded (stop s).
Proof. intros Hl Ht. split; [exact Hl|split]; [exact Ht|]. by intros []. Qed.

Lemma task_step_bounded s s' :
  finite_limit →
  bounded s → task_step s s' → bounded s'.
Proof.
  unfold finite_limit. intros Hmax (Hl & Ht & Ha) [Hp|r Hp|Hp|Hp _]; rewrite Hp in Ht, Ha.
  - destruct (Ha ltac:(discriminate)) as [Ha' Hg]. clear Ha. unfold loop_top.
    destruct (cancelled s); [by apply stop_bounded|].
    destruct (permits p _) eqn:Hper; [|by apply stop_bounded].
    split; [|split]; cbn.
    + unfold limit_ok, permits in *. cbn. destruct (max_attempts p) as [max|]; [|done].
      apply N.leb_le in Hper. unfold u32_sat_succ in Hper. rewrite Ha' in Hper. clear -Hper Hmax.
      unfold_machine. lia.
    + set_solver.
    + intros _. rewrite Ha'. clear -Hg. unfold u32_sat_succ. unfold_machine. lia.
  - unfold connection_end. cbn zeta. cbn [cancelled].
    destruct (cancelled s); [apply stop_bounded; [done|cbn; set_solver]|].
    split; [done|split]; cbn; [set_solver|]. intros _. by apply Ha.
  - split; [done|split]; cbn; [done|]. intros _. by apply Ha.
  - by apply stop_bounded.
Qed.

Lemma step_any_bounded s s' :
  finite_limit →
  bounded s → step_any s s' → bounded s'.
Proof.
  intros Hmax Hb [s'' Hs|g Hg|g l1 l2 Hc].
  - destruct Hs as [s'' Hs| |g Hg]; [by eapply task_step_bounded|..].
    + destruct Hb as (? & ? & ?). split_and!; simpl; [done|set_solver|done].
    + unfold connected. by case_match.
  - unfold report_check. by case_match.
  - done.
Qed.

Lemma step_any_cancelled s s' :
  (cancelled s = true → tokens s = ∅) → step_any s s' → cancelled s' = true → tokens s' = ∅.
Proof.
  intros Hc [s'' [s3 [Hp|r Hp|Hp|Hp _]| |g Hg]|g Hg|g l1 l2 Hl]; try done.
  - unfold loop_top. destruct (cancelled s) eqn:Hcs; [by intros; apply Hc|].
    destruct (permits _ _); simpl; congruence.
  - unfold connection_end. cbn zeta. cbn [cancelled]. destruct (cancelled s) eqn:Hcs; simpl; [|congruence].
    intros _. rewrite Hc by done. set_solver.
  - unfold connected. by case_match.
  - unfold report_check. by case_match.
Qed.




(** Whoever calls the reporters, the supervisor starts no more connections
    than the policy permits (below [u32::MAX]), and at most one connection has a live token: the
    current one, while it runs. *)
Theorem supervisor_bounded s :
  finite_limit →
  rtc step_any spawn s →
  (if max_attempts p is Some max then (generation s ≤ max)%N else True) ∧
  ∀ g, g ∈ tokens s → phase s = Running ∧ g = generation s ∧ cancelled s = false.
Proof.
  intros Hmax Hs.
  assert (bounded s ∧ (cancelled s = true → tokens s = ∅)) as [(Hl & Ht & _) Hc].
  { revert Hs. apply (rtc_ind_r (λ s, bounded s ∧ (cancelled s = true → tokens s = ∅)) spawn).
    - split; [|done]. split; [|split]; [|done|done]. unfold limit_ok. destruct (max_attempts p); [apply N.le_0_l|done].
    - intros s1 s2 _ Hst [Hb Hc]. split; [by eapply step_any_bounded|].
      by eapply step_any_cancelled. }
  split; [done|]. intros g Hg. destruct (phase s); [set_solver| |set_solver..].
  pose proof (Ht _ Hg) as Hg'%elem_of_singleton. split_and!; [done..|].
  destruct (cancelled s); [|done]. rewrite Hc in Hg by done. set_solver.
Qed.
End executions.

(** ** Witnesses *)

Module SupervisorExample.
Definition two : RetryPolicy := mkPolicy (Some 2%N).
(** One failed connection, a second one that has reported. *)
Definition s1 : Sup := connected 1 (loop_top two spawn).
Definition s2 : Sup := sleep_end true (connection_end (Err "reset") s1).
Definition s3 : Sup := connected 2 (connected 1 (loop_top two s2)).
Lemma run3 : rtc (step two) spawn s3.
Proof.
  eapply rtc_l; [by apply step_task, step_top|]. eapply rtc_l; [by apply (step_report _ _ 1)|].
  eapply rtc_l; [by apply step_task, (step_end _ _ (Err "reset"))|].
  eapply rtc_l; [by apply step_task, step_slept|]. eapply rtc_l; [by apply step_task, step_top|].
  eapply rtc_l; [by apply (step_report _ _ 1)|]. eapply rtc_l; [by apply (step_report _ _ 2)|]. done.
Qed.
End SupervisorExample.
Import SupervisorExample.


Lemma supervisor_bounded_witness :
  (generation s3 ≤ 2)%N ∧
  ∀ g, g ∈ tokens s3 → phase s3 = Running ∧ g = generation s3 ∧ cancelled s3 = false.
Proof.
  apply (supervisor_bounded two s3); [reflexivity|].
  apply (rtc_subrel (step two)); [intros ?? Hs; by apply any_step|apply run3].
Defined.

(** The second connection is announced with its own generation. *)
Example second_connection : state s3 = Connected 2 ∧ tokens s3 = {[2%N]} ∧ attempt s3 = 2%N.
Proof. vm_compute. done. Qed.

(** ** What modelling showed *)

(** A reporter called from another task can write after the state it read has
    passed: the task has stopped, and the state says connected, for good. *)
Example stale_report :
  ∃ s, rtc (step_any two) spawn s ∧ phase s = Done ∧ state s = Connected 1 ∧ checked s = [].
Proof.
  exists (report_commit 1 [] (connection_end (Ok ()) (shutdown (report_check 1 (loop_top two spawn))))).
  split; [|by vm_compute].
  eapply rtc_l; [by apply any_step, step_task, step_top|].
  eapply rtc_l; [by apply (any_check _ _ 1)|].
  eapply rtc_l; [by apply any_step, step_shutdown|].
  eapply rtc_l; [by apply any_step, step_task, (step_end _ _ (Ok ()))|].
  eapply rtc_l; [|done]. by apply (any_commit _ _ 1 [] []).
Qed.
