(* ===== verification/SupervisorWatch.v ===== *)
(** * The supervisor's progress and its watched state (base_rpc/src/stream_supervisor.rs)

    [Supervisor] writes the watched state as if someone always looked.
    tokio's [watch::Sender::send] keeps the value it has once the last
    receiver is gone; the receivers come from the handle, whose own end
    cancels nothing.  Here the handle and the receivers are part of the
    state, and the task of [Supervisor] is what anyone who can look sees.
    The first part is the task's progress: how far it gets in how many turns. *)
From S2P Require Import Prelude Supervisor.

(** ** Progress *)

Section progress.
Context (p : RetryPolicy).

(** Turns of the task so far: three for a connection that ended and whose
    delay has passed. *)
Definition turns (s : Sup) : N :=
  match phase s with
  | Top | Done => 3 * generation s
  | Running => 3 * generation s - 2
  | Sleeping => 3 * generation s - 1
  end%N.

(** A task that has ended without a shutdown has used up its attempts. *)
Definition spent (s : Sup) : Prop :=
  (phase s = Done → cancelled s = false → max_attempts p = Some (generation s)) ∧
  (phase s = Running ∨ phase s = Sleeping → (0 < generation s)%N).

Lemma loop_top_spent s : finite_limit p → bounded p s → phase s = Top → spent (loop_top p s).
Proof.
  intros Hfin (Hl & _ & Ha) Hp. destruct Ha as [Ha Hg]; [congruence|]. unfold loop_top.
  destruct (cancelled s) eqn:Hc; [split; simpl; [congruence|by intros []]|].
  unfold permits. destruct (max_attempts p) as [max|] eqn:Hm; simpl.
  - case_N; split; simpl; [done|unfold sat_add64; unfold_machine; lia| |by intros []]. intros _ _.
    unfold limit_ok, finite_limit in *. rewrite Hm in *. unfold u32_sat_succ in *. f_equal. lia.
  - split; simpl; [done|]. unfold sat_add64. unfold_machine. lia.
Qed.

Lemma task_step_spent s s' : finite_limit p → bounded p s → spent s → task_step p s s' → spent s'.
Proof.
  intros Hfin Hb [H1 H2]. destruct 1 as [Hp|r Hp|Hp|Hp Hc]; [by apply loop_top_spent|..].
  - unfold connection_end. cbn. destruct (cancelled s) eqn:Hc; split; simpl; try congruence; [by intros []|auto].
  - split; simpl; [done|by intros []].
  - split; simpl; [congruence|by intros []].
Qed.

Lemma step_any_spent s s' : finite_limit p → bounded p s → spent s → step_any p s s' → spent s'.
Proof.
  intros Hfin Hb Hs [s'' [s3 Ht| |g Hg]|g Hg|g l1 l2 Hl].
  - by eapply task_step_spent.
  - destruct Hs as [H1 H2]. by split.
  - unfold connected. by case_match.
  - unfold report_check. by case_match.
  - done.
Qed.

Lemma reachable_spent s : finite_limit p → rtc (step_any p) spawn s → bounded p s ∧ spent s.
Proof.
  intros Hfin Hr. revert Hr. apply (rtc_ind_r (λ s, bounded p s ∧ spent s) spawn).
  - split; [|by split; [|intros []]]. split; [|split]; [|done|done].
    unfold limit_ok. destruct (max_attempts p); [apply N.le_0_l|done].
  - intros s1 s2 _ Hst [Hb Hs]. split; [by eapply step_any_bounded|by eapply step_any_spent].
Qed.

Lemma task_step_turns s s' : spent s → (generation s < u64_max)%N → cancelled s = false → task_step p s s' →
  cancelled s' = false ∧ (generation s' ≤ generation s + 1)%N ∧
  (phase s' ≠ Done → turns s' = (turns s + 1)%N).
Proof.
  intros [_ Hpos] Hg Hc. unfold turns. destruct 1 as [Hp|r Hp|Hp|Hp Hc']; [..|congruence]; rewrite Hp in *.
  - unfold loop_top. rewrite Hc. destruct (permits _ _); simpl; split_and!; try done; unfold sat_add64;
      unfold_machine; lia.
  - unfold connection_end. cbn. rewrite Hc. simpl. pose proof (Hpos (or_introl eq_refl)). split_and!; [done|lia|lia].
  - simpl. pose proof (Hpos (or_intror eq_refl)). split_and!; [done|lia|lia].
Qed.

Lemma no_step_done s s' : phase s = Done → ¬ task_step p s s'.
Proof. intros Hp. destruct 1; congruence. Qed.

(** C35: Left alone, the task goes on: until it ends every turn of it is a third
    of a connection, so [3 * n] turns are [n] more connections; it ends only
    when it has made exactly as many as the policy allows. *)
Theorem supervisor_retries s s' n :
  finite_limit p → rtc (step_any p) spawn s → cancelled s = false →
  nsteps (task_step p) n s s' → (generation s + N.of_nat n ≤ u64_max)%N →
  (phase s' ≠ Done → turns s' = (turns s + N.of_nat n)%N ∧ ∃ s'', task_step p s' s'') ∧
  (phase s' = Done → max_attempts p = Some (generation s')).
Proof.
  intros Hfin Hr Hc Hn Hg. destruct (reachable_spent s Hfin Hr) as [Hb Hs].
  assert (cancelled s' = false ∧ spent s' ∧ (phase s' ≠ Done → turns s' = (turns s + N.of_nat n)%N))
    as (Hc' & Hs' & Ht).
  { clear Hr. induction Hn as [s|n s s1 s2 H1 Hn IH]; [split_and!; [done..|simpl; lia]|].
    destruct (task_step_turns s s1 Hs) as (Hc1 & Hg1 & Ht1); [lia|done..|].
    destruct IH as (Hc2 & Hs2 & Ht2); [done|lia|by eapply task_step_bounded|by eapply task_step_spent|].
    split_and!; [done..|]. intros Hd. rewrite (Ht2 Hd), Ht1; [lia|].
    intros Hd1. inversion Hn as [|? ? ? ? Hst]; subst; [done|]. by eapply no_step_done. }
  split; [|by intros Hd; apply Hs'].
  intros Hd. split; [by apply Ht|]. destruct (phase s') eqn:Hp; [| | |done];
    eexists; [by apply step_top|by apply (step_end _ _ (Ok ()))|by apply step_slept].
Qed.
End progress.

(** ** The handle and the receivers *)

Section watch.
Context (p : RetryPolicy).

(** [w_sup] with the value of the watch channel as its state; the handle's
    own receiver is one of [receivers]. *)
Record Watched := mkWatched { w_sup : Sup; w_handle : bool; receivers : nat }.

(** [watch::Sender::send]: [Err], and the value stays, when no receiver is
    left. *)
Definition send (w : Watched) (old new : ConnectionState) : ConnectionState :=
  if (0 <? receivers w)%nat then new else old.
Definition set_state (st : ConnectionState) (s : Sup) : Sup :=
  mkSup (phase s) (generation s) (attempt s) st (cancelled s) (tokens s) (checked s).
Definition set_sup (s : Sup) (w : Watched) : Watched := mkWatched s (w_handle w) (receivers w).

(** A turn of the task that would leave the state [state s']. *)
Definition sent_to (w : Watched) (s' : Sup) : Watched :=
  set_sup (set_state (send w (state (w_sup w)) (state s')) s') w.

(** [spawn]'s result. *)
Definition watched_spawn : Watched := mkWatched spawn true 1.

(** [StreamSupervisorHandle::state], a receiver cloned or dropped, the handle
    dropped, and [shutdown], which consumes it and its receiver. *)
Definition handle_state (w : Watched) : Watched := mkWatched (w_sup w) (w_handle w) (S (receivers w)).
Definition drop_receiver (w : Watched) : Watched := mkWatched (w_sup w) (w_handle w) (pred (receivers w)).
Definition drop_handle (w : Watched) : Watched := mkWatched (w_sup w) false (pred (receivers w)).
Definition handle_shutdown (w : Watched) : Watched := drop_handle (set_sup (shutdown (w_sup w)) w).

Inductive wstep (w : Watched) : Watched → Prop :=
  | w_task s' : task_step p (w_sup w) s' → wstep w (sent_to w s')
  | w_report g : (g ≤ generation (w_sup w))%N → wstep w (sent_to w (connected g (w_sup w)))
  | w_state : w_handle w = true → wstep w (handle_state w)
  | w_clone : 0 < receivers w → wstep w (handle_state w)
  | w_drop_receiver : (if w_handle w then 1 else 0) < receivers w → wstep w (drop_receiver w)
  | w_drop_handle : w_handle w = true → wstep w (drop_handle w)
  | w_shutdown : w_handle w = true → wstep w (handle_shutdown w).

(** The abstract task: the same but for a state no one can see. *)
Record sees (w : Watched) (s : Sup) : Prop := {
  sees_rest : set_state Idle (w_sup w) = set_state Idle s;
  sees_state : 0 < receivers w → w_sup w = s;
  sees_handle : w_handle w = true → 0 < receivers w;
}.

Lemma set_state_fields s s' : set_state Idle s = set_state Idle s' →
  phase s = phase s' ∧ generation s = generation s' ∧ attempt s = attempt s' ∧ cancelled s = cancelled s' ∧
  tokens s = tokens s' ∧ checked s = checked s'.
Proof. unfold set_state. intros [= -> -> -> -> -> ->]. done. Qed.

Lemma set_state_eq s st : set_state Idle (set_state st s) = set_state Idle s.
Proof. done. Qed.

(** What a turn makes of the rest does not depend on the watched state. *)
Lemma task_step_state s s' t : task_step p s s' → set_state Idle s = set_state Idle t →
  ∃ t', task_step p t t' ∧ set_state Idle s' = set_state Idle t' ∧ (s = t → s' = t').
Proof.
  intros Hs Heq. pose proof (set_state_fields _ _ Heq) as (Hp & Hg & Ha & Hc & Ht & Hk).
  destruct Hs as [Hph|r Hph|Hph|Hph Hcc].
  - exists (loop_top p t). split; [apply step_top; congruence|]. split; [|by intros ->].
    unfold loop_top. rewrite Hc, Ha, Hg. repeat case_match; unfold stop, set_state; simpl; congruence.
  - exists (connection_end r t). split; [apply step_end; congruence|]. split; [|by intros ->].
    unfold connection_end. cbn. rewrite Hc. destruct (cancelled t); unfold stop, set_state; simpl; congruence.
  - exists (sleep_end true t). split; [apply step_slept; congruence|]. split; [|by intros ->].
    unfold sleep_end, set_state. simpl. congruence.
  - exists (sleep_end false t). split; [apply step_woken; congruence|]. split; [|by intros ->].
    unfold sleep_end, stop, set_state. simpl. congruence.
Qed.

Lemma connected_state g s : set_state Idle (connected g s) = set_state Idle s.
Proof. unfold connected. by destruct (is_current g (state s)). Qed.

Lemma sent_to_sees w s' t' : (w_handle w = true → 0 < receivers w) →
  set_state Idle s' = set_state Idle t' → (0 < receivers w → s' = t') → sees (sent_to w s') t'.
Proof.
  intros Hh Hr Hs. split; simpl; [done| |done]. intros Hpos. rewrite <- (Hs Hpos). unfold send.
  destruct (Nat.ltb_spec 0 (receivers w)); [by destruct s'|lia].
Qed.

Lemma wstep_refines w w' s : sees w s → wstep w w' → ∃ s', rtc (step p) s s' ∧ sees w' s'.
Proof.
  intros [Hr Hst Hh]. destruct 1 as [s' Ht|g Hg|Hw|Hw|Hw|Hw|Hw].
  - destruct (task_step_state _ _ s Ht Hr) as (t' & Ht' & Hr' & Heq). exists t'.
    split; [by apply rtc_once, step_task|]. apply sent_to_sees; [done..|]. intros Hpos. by apply Heq, Hst.
  - exists (connected g s). pose proof (set_state_fields _ _ Hr) as (_ & Hgen & _).
    split; [apply rtc_once, step_report; by rewrite <- Hgen|].
    apply sent_to_sees; [done|by rewrite !connected_state|]. intros Hpos. by rewrite (Hst Hpos).
  - exists s. split; [done|]. split; simpl; [done| |lia]. intros _. by apply Hst, Hh.
  - exists s. split; [done|]. split; simpl; [done| |lia]. intros _. by apply Hst.
  - exists s. split; [done|]. split; simpl; [done| |].
    + intros Hpos. apply Hst. destruct (w_handle w); lia.
    + intros Hw'. rewrite Hw' in Hw. lia.
  - exists s. split; [done|]. split; simpl; [done| |done]. intros Hpos. apply Hst. lia.
  - exists (shutdown s). split; [by apply rtc_once, step_shutdown|].
    pose proof (set_state_fields _ _ Hr) as (Hp & Hg & Ha & Hc & Ht & Hk). split; simpl; [| |done].
    + unfold shutdown, set_state. simpl. congruence.
    + intros Hpos. rewrite Hst; [done|lia].
Qed.

Lemma wsteps_refine w w' s : rtc wstep w w' → sees w s → ∃ s', rtc (step p) s s' ∧ sees w' s'.
Proof.
  intros Hw. revert s. induction Hw as [w|w w1 w2 H1 _ IH]; intros s Hs; [by exists s|].
  destruct (wstep_refines w w1 s Hs H1) as (s1 & R1 & Hs1). destruct (IH s1 Hs1) as (s2 & R2 & Hs2).
  exists s2. split; [by etrans|done].
Qed.

(** The task of a dropped handle cannot be cancelled any more. *)
Lemma wstep_dropped w w' : w_handle w = false → cancelled (w_sup w) = false → wstep w w' →
  w_handle w' = false ∧ cancelled (w_sup w') = false.
Proof.
  intros Hh Hc. destruct 1 as [s' Ht|g Hg|Hw|Hw|Hw|Hw|Hw]; simpl; try congruence; try done; (split; [done|]).
  - destruct Ht as [Hp|r Hp|Hp|Hp Hcc]; [..|congruence]; simpl.
    + unfold loop_top. rewrite Hc. by destruct (permits p _).
    + unfold connection_end. cbn. by rewrite Hc.
    + done.
  - unfold connected. by destruct (is_current _ _).
Qed.

(** C34: Whatever becomes of the handle and of the receivers, the supervisor
    behaves like the one whose state is always written: it is in a state that
    one reaches, and whoever still holds a receiver sees that state, no
    matter who let go of his before.  Only [shutdown] ends the task early: a
    handle that was dropped leaves it running until the attempts are used up. *)
Theorem watched_refines w :
  finite_limit p → rtc wstep watched_spawn w →
  ∃ s, rtc (step p) spawn s ∧ phase (w_sup w) = phase s ∧ generation (w_sup w) = generation s ∧
    (0 < receivers w → w_sup w = s) ∧
    (w_handle w = false → cancelled (w_sup w) = false → ∀ w', rtc wstep w w' →
       phase (w_sup w') = Done → max_attempts p = Some (generation (w_sup w'))).
Proof.
  intros Hfin Hw. destruct (wsteps_refine _ _ spawn Hw) as (s & Hs & Hsees); [split; simpl; [done|done|lia]|].
  pose proof (set_state_fields _ _ (sees_rest _ _ Hsees)) as (Hp & Hg & _).
  exists s. split_and!; [done..|by apply Hsees|]. intros Hh Hc w' Hw' Hd.
  assert (cancelled (w_sup w') = false) as Hc'.
  { clear -Hh Hc Hw'. induction Hw' as [w|w w1 w2 H1 _ IH]; [done|].
    destruct (wstep_dropped w w1 Hh Hc H1). by apply IH. }
  destruct (wsteps_refine _ _ s Hw' Hsees) as (s' & Hs' & Hsees').
  pose proof (set_state_fields _ _ (sees_rest _ _ Hsees')) as (Hp' & Hg' & _ & Hcc & _).
  destruct (reachable_spent p s' Hfin) as [_ [Hsp _]].
  { apply (rtc_subrel (step p)); [intros ?? H; by apply any_step|]. by etrans. }
  rewrite Hg'. apply Hsp; congruence.
Qed.
End watch.

(** ** Witnesses *)

Module WatchExample.
Definition two : RetryPolicy := mkPolicy (Some 2%N).
Definition s1 : Sup := loop_top two spawn.
Definition s2 : Sup := sleep_end true (connection_end (Err "reset") s1).
(** The handle is gone before the first attempt. *)
Definition w1 : Watched := drop_handle watched_spawn.
Definition w2 : Watched := sent_to w1 (loop_top two (w_sup w1)).
End WatchExample.
Import WatchExample.

Lemma supervisor_retries_witness :
  (phase s2 ≠ Done → turns s2 = 3%N ∧ ∃ s'', task_step two s2 s'') ∧
  (phase s2 = Done → Some 2%N = Some (generation s2)).
Proof.
  apply (supervisor_retries two spawn s2 3); [reflexivity|done|reflexivity| |vm_compute; discriminate].
  apply (nsteps_l _ _ _ s1); [by apply step_top|].
  apply (nsteps_l _ _ _ (connection_end (Err "reset") s1)); [by apply step_end|].
  apply nsteps_once. by apply step_slept.
Defined.

Lemma watched_refines_witness :
  ∃ s, rtc (step two) spawn s ∧ Running = phase s ∧ 1%N = generation s ∧ (0 < 0 → w_sup w2 = s) ∧
    (false = false → false = false → ∀ w', rtc (wstep two) w2 w' →
       phase (w_sup w') = Done → Some 2%N = Some (generation (w_sup w'))).
Proof.
  apply (watched_refines two w2); [reflexivity|].
  apply (rtc_l _ _ w1); [by apply w_drop_handle|]. apply rtc_once. apply w_task. by apply step_top.
Defined.

(** The state that no one watches any more stays what it was. *)
Example unwatched_state_stays : state (w_sup w2) = Idle ∧ phase (w_sup w2) = Running.
Proof. done. Qed.
