(* ===== verification/Dig62.v ===== *)
(** * Base-62 packing of digit strings (base/src/utils/dig62.rs)

    A character is its code point.  The intermediate strings of ['0'] and
    ['1'] are lists of booleans. *)
From Stdlib Require Import ZifyNat.
From S2P Require Import Prelude Errors.

Definition char : Type := N.

(** The code points of an ASCII literal. *)
Definition chars (s : string) : list char := Ascii.N_of_ascii <$> String.list_ascii_of_string s.

Definition D_DIC : list char := chars "0123456789".
Definition A_DIC : list char := chars "qazwsxedcrfvtgbyhnujmikolpQAZWSXEDCRFVTGBYHNUJMIKOLP".

(** [char::to_digit(10)] and [char::is_ascii_digit]. *)
Definition to_digit (c : char) : option N :=
  if (48 <=? c)%N && (c <=? 57)%N then Some (c - 48)%N else None.
Definition is_ascii_digit (c : char) : bool := (48 <=? c)%N && (c <=? 57)%N.
(** [char::from_digit(n, 10)]. *)
Definition from_digit (n : N) : option char := if (n <? 10)%N then Some (n + 48)%N else None.

(** The binary digits of a number, [{:b}], and [{:0wb}], at least [w] wide. *)
Fixpoint pos_bits (p : positive) (acc : list bool) : list bool :=
  match p with
  | xH => true :: acc
  | xO p => pos_bits p (false :: acc)
  | xI p => pos_bits p (true :: acc)
  end.
Definition fmt_bin (w : nat) (n : N) : list bool :=
  let d := match n with N0 => [false] | Npos p => pos_bits p [] end in
  replicate (w - length d) false ++ d.

(** [from_str_radix(_, 2)] on a non-empty string of binary digits. *)
Definition from_bin (l : list bool) : N :=
  foldl (λ a (b : bool), 2 * a + if b then 1 else 0)%N 0%N l.

(** [slice::chunks(n)]: pieces of [n], the last one possibly shorter; every
    piece takes one element at least, so the length is enough fuel. *)
Fixpoint chunks_go {A : Type} (fuel n : nat) (l : list A) : list (list A) :=
  match fuel, l with
  | O, _ | _, [] => []
  | S fuel, _ => take n l :: chunks_go fuel n (drop n l)
  end.
Definition chunks {A : Type} (n : nat) (l : list A) : list (list A) := chunks_go (length l) n l.

Notation sys_err msg := (SysErr msg).

(** The first loop of [en]. *)
Fixpoint digits_bits (cs : list char) : GlobalResult (list bool) :=
  match cs with
  | [] => Ok []
  | ch :: cs =>
      match to_digit ch with
      | None => Err (sys_err "Invalid digit_str")
      | Some digit =>
          let? rest := digits_bits cs in Ok (fmt_bin 4 digit ++ rest)
      end
  end.

(** [dic[i]]. *)
Definition dic_at (dic : list char) (i : N) : exec char :=
  match dic !! N.to_nat i with Some c => Ret c | None => Panic end.

(** The loop body of [en] over the groups of nine. *)
Definition push_group (dst : list char) (chunk : list bool) : exec (list char) :=
  let val := from_bin chunk in
  let circle := (val / 52)%N in
  let index := (val mod 52)%N in
  dst ← (if (0 <? circle)%N then c ← dic_at D_DIC circle; Ret (dst ++ [c]) else Ret dst);
  a ← dic_at A_DIC index;
  Ret (dst ++ [a]).

Definition en (digit_str : list char) : exec (GlobalResult (list char)) :=
  match digits_bits digit_str with
  | Err e => Ret (Err e)
  | Ok key =>
      let remainder := length key mod 9 in
      let pad_len := 9 - remainder in
      let key' := if (remainder =? 0)%nat then key else replicate pad_len false ++ key in
      header ← dic_at A_DIC (if (remainder =? 0)%nat then 0 else N.of_nat pad_len)%N;
      dst ← exec_fold push_group [header] (chunks 9 key');
      Ret (Ok dst)
  end%nat.

(** The map [de] builds from a dictionary. *)
Definition dic_map (dic : list char) : gmap char N :=
  foldl (λ m '(i, ch), <[ch := N.of_nat i]> m) ∅ (imap pair dic).

(** The decoding loop of [de], on the characters after the header. *)
Fixpoint groups_bits (cs : list char) : GlobalResult (list bool) :=
  let finish circle a_ch rest :=
    match dic_map A_DIC !! a_ch with
    | None => Err (sys_err "Illegal alphabet character")
    | Some index => let? bits := rest in Ok (fmt_bin 9 (circle * 52 + index)%N ++ bits)
    end in
  match cs with
  | [] => Ok []
  | c :: rest =>
      if is_ascii_digit c then
        match dic_map D_DIC !! c with
        | None => Err (sys_err "Illegal digit character")
        | Some circle =>
            match rest with
            | [] => Err (sys_err "Digit num cannot be at the end")
            | a_ch :: rest => finish circle a_ch (groups_bits rest)
            end
        end
      else finish 0%N c (groups_bits rest)
  end.

(** The last loop of [de]: four bits back to a digit, [expect] otherwise. *)
Definition push_digit (res : list char) (chunk : list bool) : exec (list char) :=
  match from_digit (from_bin chunk) with
  | Some c => Ret (res ++ [c])
  | None => Panic
  end.

Definition de (num62 : list char) : exec (GlobalResult (list char)) :=
  match num62 with
  | [] => Ret (Err (sys_err "Too short to miss header"))
  | header :: rest =>
      match dic_map A_DIC !! header with
      | None => Ret (Err (sys_err "Illegal alphabet character by header"))
      | Some pad_len =>
          match groups_bits rest with
          | Err e => Ret (Err e)
          | Ok bits =>
              res ← exec_fold push_digit [] (chunks 4 (drop (N.to_nat pad_len) bits));
              Ret (Ok res)
          end
      end
  end.

(** ** Chunks *)

Section chunks.
Context {A : Type}.
Implicit Types l : list A.

Lemma chunks_go_concat n l fuel :
  0 < n → length l ≤ fuel → concat (chunks_go fuel n l) = l.
Proof.
  intros Hn. revert l. induction fuel as [|fuel IH]; intros [|x l] Hl; simpl in *; try done; [lia|].
  rewrite IH; [by rewrite take_drop|]. rewrite length_drop. simpl. lia.
Qed.

Lemma chunks_go_length n l fuel k :
  0 < n → length l = k * n → Forall (λ c, length c = n) (chunks_go fuel n l).
Proof.
  intros Hn. revert l k. induction fuel as [|fuel IH]; intros [|x l] k Hl; simpl; try by constructor.
  destruct k as [|k]; [done|]. constructor.
  - rewrite length_take, Hl. lia.
  - apply (IH _ k). rewrite length_drop, Hl. lia.
Qed.

Lemma chunks_of_concat n cs fuel :
  0 < n → Forall (λ c, length c = n) cs → length (concat cs) ≤ fuel →
  chunks_go fuel n (concat cs : list A) = cs.
Proof.
  intros Hn Hcs. revert fuel. induction Hcs as [|c cs Hc _ IH]; intros fuel Hf; simpl in *.
  - by destruct fuel.
  - rewrite length_app in Hf. destruct fuel as [|fuel]; [lia|].
    destruct c as [|x c]; [simpl in *; lia|]. cbn [chunks_go app]. f_equal.
    + change (x :: c ++ concat cs) with ((x :: c) ++ concat cs). by apply take_app_length'.
    + change (x :: c ++ concat cs) with ((x :: c) ++ concat cs). rewrite drop_app_length' by done.
      apply IH. simpl in *. lia.
Qed.
End chunks.

(** ** Groups of bits *)

Fixpoint all_bits (n : nat) : list (list bool) :=
  match n with
  | O => [[]]
  | S n => (cons true <$> all_bits n) ++ (cons false <$> all_bits n)
  end.

Lemma all_bits_complete l : l ∈ all_bits (length l).
Proof.
  induction l as [|b l IH]; simpl; [by left|]. apply elem_of_app.
  destruct b; [left|right]; by apply list_elem_of_fmap_2.
Qed.

Lemma forall_bits (P : list bool → bool) n l :
  forallb P (all_bits n) = true → length l = n → P l = true.
Proof.
  intros Hall <-. rewrite forallb_forall in Hall. apply Hall, list_elem_of_In, all_bits_complete.
Qed.

(** What [en] writes for a group reads back as the group. *)
Definition group_ok (chunk : list bool) : bool :=
  match push_group [] chunk with
  | Ret [a] =>
      negb (is_ascii_digit a) &&
      match dic_map A_DIC !! a with Some i => bool_decide (fmt_bin 9 (0 * 52 + i)%N = chunk) | None => false end
  | Ret [d; a] =>
      is_ascii_digit d &&
      match dic_map D_DIC !! d, dic_map A_DIC !! a with
      | Some circle, Some i => bool_decide (fmt_bin 9 (circle * 52 + i)%N = chunk)
      | _, _ => false
      end
  | _ => false
  end.

Lemma all_groups_ok : forallb group_ok (all_bits 9) = true.
Proof. vm_compute. done. Qed.

Lemma push_group_app dst chunk :
  push_group dst chunk = (out ← push_group [] chunk; Ret (dst ++ out)).
Proof.
  unfold push_group. set (ci := dic_at D_DIC _). set (ai := dic_at A_DIC _).
  destruct (0 <? _)%N, ci, ai; cbn; by rewrite <- ?app_assoc.
Qed.

Lemma groups_roundtrip cs dst :
  Forall (λ c, length c = 9) cs →
  ∃ out, exec_fold push_group dst cs = Ret (dst ++ out) ∧ groups_bits out = Ok (concat cs) ∧
    length cs ≤ length out ≤ 2 * length cs.
Proof.
  intros Hcs. revert dst. induction Hcs as [|c cs Hc _ IH]; intros dst.
  - exists []. by rewrite app_nil_r.
  - pose proof (forall_bits group_ok 9 c all_groups_ok Hc) as Hok. unfold group_ok in Hok.
    simpl. rewrite push_group_app. destruct (push_group [] c) as [o| |]; [|done..]. cbn [mbind exec_bind].
    destruct (IH (dst ++ o)) as (out & -> & Hout & Hl). exists (o ++ out). rewrite <- app_assoc.
    split; [done|]. destruct o as [|a [|a' [|]]]; try done; cbn [app groups_bits length].
    + apply andb_true_iff in Hok as [->%negb_true_iff Hok].
      destruct (dic_map A_DIC !! a) as [i|]; [|done].
      apply bool_decide_eq_true in Hok. rewrite Hok, Hout. split; [done|lia].
    + apply andb_true_iff in Hok as [-> Hok].
      destruct (dic_map D_DIC !! a) as [ci|]; [|done]. destruct (dic_map A_DIC !! a') as [i|]; [|done].
      apply bool_decide_eq_true in Hok. rewrite Hok, Hout. split; [done|lia].
Qed.

(** ** Digits *)

Definition digit (c : char) : Prop := is_ascii_digit c = true.

Lemma digit_cases c : digit c → c ∈ chars "0123456789".
Proof.
  unfold digit, is_ascii_digit. intros [H1%N.leb_le H2%N.leb_le]%andb_true_iff. unfold chars. simpl.
  repeat rewrite elem_of_cons. lia.
Qed.

Lemma digits_roundtrip cs :
  Forall digit cs →
  ∃ gs, digits_bits cs = Ok (concat gs) ∧ Forall (λ c, length c = 4) gs ∧ length gs = length cs ∧
    ∀ res, exec_fold push_digit res gs = Ret (res ++ cs).
Proof.
  induction 1 as [|c cs Hc _ (gs & Hb & Hl & Hn & Hd)].
  - exists []. split_and!; [done..|]. intros res. by rewrite app_nil_r.
  - assert (∃ n, to_digit c = Some n ∧ length (fmt_bin 4 n) = 4 ∧
      from_digit (from_bin (fmt_bin 4 n)) = Some c) as (n & Hn1 & Hn2 & Hn3).
    { apply digit_cases in Hc. simpl in Hc.
      repeat (apply elem_of_cons in Hc as [->|Hc]; [by eexists; split_and!; vm_compute|]).
      by apply not_elem_of_nil in Hc. }
    exists (fmt_bin 4 n :: gs). simpl. rewrite Hn1, Hb. split_and!; [done|by constructor|by f_equal|].
    intros res. assert (push_digit res (fmt_bin 4 n) = Ret (res ++ [c])) as -> by (unfold push_digit; by rewrite Hn3).
    cbn [mbind exec_bind]. by rewrite Hd, <- app_assoc.
Qed.

Lemma length_concat_const {A} n (cs : list (list A)) :
  Forall (λ c, length c = n) cs → length (concat cs) = length cs * n.
Proof. induction 1 as [|c cs Hc _ IH]; simpl; [done|]. rewrite length_app. lia. Qed.

(** ** Properties *)

(** C22: [de] undoes [en] on every digit string, and neither panics on it; the
    encoding has one or two characters for each started group of nine bits
    and one for the header. *)
Theorem dig62_roundtrip (cs : list char) :
  Forall digit cs →
  ∃ out, en cs = Ret (Ok out) ∧ de out = Ret (Ok cs) ∧
    let groups := (4 * length cs + 8) / 9 in
    1 + groups ≤ length out ≤ 1 + 2 * groups.
Proof.
  intros Hcs. destruct (digits_roundtrip cs Hcs) as (gs & Hb & Hl & Hn & Hd).
  pose proof (length_concat_const 4 gs Hl) as Hlen. unfold en. rewrite Hb.
  set (key := concat gs) in *.
  set (pad := if (length key mod 9 =? 0)%nat then 0 else 9 - length key mod 9).
  set (key' := if (length key mod 9 =? 0)%nat then key else replicate (9 - length key mod 9) false ++ key).
  assert (Hkey : drop pad key' = key ∧ length key' = ((4 * length cs + 8) / 9) * 9).
  { subst pad key'. rewrite <- Hn. destruct (Nat.eqb_spec (length key mod 9) 0) as [H0|H0].
    - split; [done|]. rewrite Hlen in H0 |- *. clear -H0. lia_div.
    - split; [by rewrite drop_app_length' by by rewrite length_replicate|].
      rewrite length_app, length_replicate. rewrite Hlen in H0 |- *. clear -H0. lia_div. }
  assert (∃ h, dic_at A_DIC (if (length key mod 9 =? 0)%nat then 0 else N.of_nat (9 - length key mod 9)) = Ret h ∧
    dic_map A_DIC !! h = Some (N.of_nat pad)) as (h & -> & Hh).
  { assert (Hp : pad < 9).
    { subst pad. destruct (Nat.eqb_spec (length key mod 9) 0); lia. }
    assert ((if (length key mod 9 =? 0)%nat then 0%N else N.of_nat (9 - length key mod 9)) = N.of_nat pad) as ->.
    { subst pad. by case_match. }
    clearbody pad. do 9 (destruct pad as [|pad]; [eexists; split; vm_compute; reflexivity|]). lia. }
  destruct Hkey as [Hdrop Hk9]. cbn [mbind exec_bind].
  destruct (groups_roundtrip (chunks 9 key') [h]) as (out & -> & Hout & Hlo).
  { by eapply chunks_go_length; [lia|]. }
  cbn [mbind exec_bind app]. exists (h :: out). split; [done|].
  assert (Hcc : concat (chunks 9 key') = key') by (apply chunks_go_concat; lia).
  pose proof (chunks_go_length 9 key' (length key') _ ltac:(lia) Hk9) as Hch.
  apply length_concat_const in Hch. fold (chunks 9 key') in Hch. rewrite Hcc, Hk9 in Hch.
  set (g := (4 * length cs + 8) / 9) in *. clearbody g. split; [|cbn [length]; lia].
  unfold de. rewrite Hh, Hout, Hcc, Nat2N.id, Hdrop. unfold chunks.
  rewrite (chunks_of_concat 4 gs) by (done || lia). by rewrite Hd.
Qed.

Lemma dig62_roundtrip_witness :
  ∃ out, en (chars "00420123456789") = Ret (Ok out) ∧ de out = Ret (Ok (chars "00420123456789")) ∧
    8 ≤ length out ≤ 15.
Proof. apply (dig62_roundtrip (chars "00420123456789")). repeat constructor. Defined.

(** [en] answers every string without panic, and refuses exactly the ones
    with a character that is no decimal digit. *)
Theorem en_total (cs : list char) :
  ∃ r, en cs = Ret r ∧ (is_ok r = true ↔ Forall digit cs).
Proof.
  destruct (decide (Forall digit cs)) as [Hd|Hd].
  - destruct (dig62_roundtrip cs Hd) as (out & -> & _). by eexists.
  - unfold en. assert (∃ e, digits_bits cs = Err e) as [e ->]; [|by eexists].
    induction cs as [|c cs IH]; [by destruct Hd|]. simpl.
    destruct (to_digit c) as [n|] eqn:Hc; [|by eexists].
    destruct IH as [e ->]; [|by eexists]. intros Hcs. apply Hd. constructor; [|done].
    unfold digit, is_ascii_digit, to_digit in *. by destruct (_ && _).
Qed.

(** ** What modelling showed *)

(** [de] panics, rather than answer an error, on text that does not come from
    [en]: four bits above nine, or a group above 511. *)
Example de_panics : de (chars "q6c") = Panic.
Proof. vm_compute. done. Qed.

(** The encoding of these 18 digits has 17 characters, not 58% of 18. *)
Example en_length : returns (en (chars "999999999999999999")) (λ r,
  match r with Ok out => length out = 17 | Err _ => False end).
Proof. vm_compute. done. Qed.
