(* ===== verification/Bytes.v ===== *)
(** * Bytes and text

    A [u8] is an [N] below 256, a [&str] the list of its UTF-8 bytes.  This
    file has what the components use of the standard library's text
    functions: validation, decimal and hexadecimal formatting. *)
From Stdlib Require Import ZifyNat.
From stdpp Require Import pretty.
From S2P Require Import Prelude.

Notation byte := N (only parsing).
Definition byte_ok (b : byte) : Prop := (b < 256)%N.

Definition str (s : string) : list byte := Ascii.N_of_ascii <$> String.list_ascii_of_string s.

(** [{n}] of an unsigned integer. *)
Definition fmt_dec (n : N) : list byte := str (pretty n).

(** One lowercase hexadecimal digit, and [{n:0wx}] of an [n] below [16 ^ w]. *)
Definition hex_digit (d : N) : byte := (if d <? 10 then d + 48 else d + 87)%N.
Fixpoint fmt_hex (w : nat) (n : N) : list byte :=
  match w with
  | O => []
  | S w => fmt_hex w (n / 16) ++ [hex_digit (n mod 16)]
  end.

(** [hex::encode]. *)
Definition hex_encode (bs : list byte) : list byte := bs ≫= fmt_hex 2.

(** [String::from_utf8]: the accepted sequences of bytes. *)
Definition cont (b : byte) : bool := (128 <=? b)%N && (b <=? 191)%N.
Definition between (lo hi b : N) : bool := (lo <=? b)%N && (b <=? hi)%N.

Fixpoint valid_utf8 (l : list byte) : bool :=
  match l with
  | [] => true
  | b0 :: l1 =>
      if (b0 <? 128)%N then valid_utf8 l1
      else
        match l1 with
        | [] => false
        | b1 :: l2 =>
            if between 194 223 b0 then cont b1 && valid_utf8 l2
            else
              match l2 with
              | [] => false
              | b2 :: l3 =>
                  if between 224 239 b0 then
                    (if (b0 =? 224)%N then between 160 191 b1
                     else if (b0 =? 237)%N then between 128 159 b1 else cont b1)
                    && cont b2 && valid_utf8 l3
                  else
                    match l3 with
                    | [] => false
                    | b3 :: l4 =>
                        between 240 244 b0 &&
                        (if (b0 =? 240)%N then between 144 191 b1
                         else if (b0 =? 244)%N then between 128 143 b1 else cont b1)
                        && cont b2 && cont b3 && valid_utf8 l4
                    end
              end
        end
  end.

(** ** Lemmas *)

Definition ascii (b : byte) : Prop := (b < 128)%N.

Lemma valid_utf8_ascii l : Forall ascii l → valid_utf8 l = true.
Proof.
  induction 1 as [|b l Hb _ IH]; [done|]. unfold ascii in Hb. simpl.
  destruct (N.ltb_spec b 128); [done|lia].
Qed.

Lemma valid_utf8_app l l' : valid_utf8 l = true → valid_utf8 l' = true → valid_utf8 (l ++ l') = true.
Proof.
  intros Hl Hl'. remember (length l) as n eqn:Hn. revert l Hn Hl.
  induction n as [n IH] using lt_wf_ind. intros l -> Hl.
  assert (Hrec : ∀ t, length t < length l → valid_utf8 t = true → valid_utf8 (t ++ l') = true) by eauto.
  clear IH. destruct l as [|b0 l1]; [done|]. simpl in *. case_match.
  { apply Hrec; [lia|done]. }
  destruct l1 as [|b1 l2]; [done|]. simpl in *. case_match.
  { apply andb_true_iff in Hl as [-> Hl]. apply Hrec; [lia|done]. }
  destruct l2 as [|b2 l3]; [done|]. simpl in *. case_match.
  { apply andb_true_iff in Hl as [-> Hl]. apply Hrec; [lia|done]. }
  destruct l3 as [|b3 l4]; [done|]. simpl in *.
  apply andb_true_iff in Hl as [-> Hl]. apply Hrec; [lia|done].
Qed.

Lemma hex_digit_ascii d : (d < 16)%N → ascii (hex_digit d).
Proof. unfold hex_digit, ascii. case_N; lia. Qed.

Lemma hex_digit_inj d d' : (d < 16)%N → (d' < 16)%N → hex_digit d = hex_digit d' → d = d'.
Proof. unfold hex_digit. repeat case_N; lia. Qed.

Lemma fmt_hex_length w n : length (fmt_hex w n) = w.
Proof. revert n. induction w as [|w IH]; intros n; [done|]. simpl. rewrite length_app, IH. simpl. lia. Qed.

Lemma fmt_hex_digits w n : Forall (λ b, ascii b ∧ b ≠ 46%N) (fmt_hex w n).
Proof.
  revert n. induction w as [|w IH]; intros n; simpl; [constructor|].
  apply Forall_app. split; [done|]. constructor; [|done].
  assert (n mod 16 < 16)%N by (apply N.mod_lt; done). split; [by apply hex_digit_ascii|].
  unfold hex_digit. case_N; lia.
Qed.

Lemma fmt_hex_inj w n n' : (n < 16 ^ N.of_nat w)%N → (n' < 16 ^ N.of_nat w)%N →
  fmt_hex w n = fmt_hex w n' → n = n'.
Proof.
  revert n n'. induction w as [|w IH]; intros n n' Hn Hn' Heq.
  { simpl in *. lia. }
  simpl in Heq. apply app_inj_tail in Heq as [Heq Hd].
  assert (H16 : (16 ^ N.of_nat (S w) = 16 * 16 ^ N.of_nat w)%N) by (rewrite Nat2N.inj_succ; apply N.pow_succ_r').
  rewrite H16 in Hn, Hn'.
  apply IH in Heq; [|apply N.Div0.div_lt_upper_bound; lia..].
  apply hex_digit_inj in Hd; [|apply N.mod_lt; done..].
  rewrite (N.Div0.div_mod n 16), (N.Div0.div_mod n' 16). congruence.
Qed.

(** Decimal digits are ASCII and hold no dot. *)
Lemma fmt_dec_digits n : Forall (λ b, ascii b ∧ b ≠ 46%N) (fmt_dec n).
Proof.
  unfold fmt_dec, pretty, pretty_N. case_decide; [by repeat constructor|].
  assert (∀ m acc, Forall (λ b, ascii b ∧ b ≠ 46%N) (str acc) →
    Forall (λ b, ascii b ∧ b ≠ 46%N) (str (pretty_N_go m acc))) as Hgo; [|by apply Hgo].
  intros m. induction (N.lt_wf_0 m) as [m _ IH]. intros acc Hacc.
  destruct (decide (0 < m)%N) as [Hm|Hm].
  - rewrite pretty_N_go_step by done. apply IH; [apply N.div_lt; lia|].
    unfold str. simpl. constructor; [|done]. unfold pretty_N_char.
    repeat case_match; split; done.
  - assert (m = 0%N) as -> by lia. by rewrite pretty_N_go_0.
Qed.
