(* ===== verification/Text.v ===== *)
(** * Text: what the components use of [str]

    A [&str] as the list of its code points: whitespace, lines, fields,
    prefixes and the parsing of unsigned integers, as the standard library
    documents them, with the lemmas that read back formatted text. *)
From stdpp Require Import pretty.
From S2P Require Import Prelude Bytes.

Notation char := N (only parsing).

(** [char::is_whitespace]: the Unicode property White_Space. *)
Definition is_whitespace (c : char) : bool :=
  between 9 13 c || (c =? 32)%N || (c =? 133)%N || (c =? 160)%N || (c =? 5760)%N ||
  between 8192 8202 c || (c =? 8232)%N || (c =? 8233)%N || (c =? 8239)%N || (c =? 8287)%N ||
  (c =? 12288)%N.

(** [split_whitespace]: the maximal runs of other characters; [cur] is the
    run being read. *)
Fixpoint fields_go (cur s : list char) : list (list char) :=
  match s with
  | [] => if cur is [] then [] else [cur]
  | c :: s =>
      if is_whitespace c then (if cur is [] then fields_go [] s else cur :: fields_go [] s)
      else fields_go (cur ++ [c]) s
  end.
Definition split_whitespace (s : list char) : list (list char) := fields_go [] s.

(** [lines]: cut after each newline; a terminated line loses its newline and
    a carriage return before it. *)
Definition strip_cr (l : list char) : list char :=
  match last l with
  | Some 13%N => take (length l - 1) l
  | _ => l
  end.
Fixpoint lines_go (cur s : list char) : list (list char) :=
  match s with
  | [] => if cur is [] then [] else [cur]
  | c :: s => if (c =? 10)%N then strip_cr cur :: lines_go [] s else lines_go (cur ++ [c]) s
  end.
Definition lines (s : list char) : list (list char) := lines_go [] s.

Fixpoint strip_prefix (p s : list char) : option (list char) :=
  match p, s with
  | [], _ => Some s
  | a :: p, b :: s => if (a =? b)%N then strip_prefix p s else None
  | _ :: _, [] => None
  end.
Definition starts_with (p s : list char) : bool := bool_decide (is_Some (strip_prefix p s)).

(** [split_once] at a character. *)
Fixpoint split_once (d : char) (s : list char) : option (list char * list char) :=
  match s with
  | [] => None
  | c :: s => if (c =? d)%N then Some ([], s) else
      '(a, b) ← split_once d s; Some (c :: a, b)
  end.

Fixpoint trim_start (s : list char) : list char :=
  match s with
  | c :: r => if is_whitespace c then trim_start r else s
  | [] => []
  end.
Definition trim (s : list char) : list char := reverse (trim_start (reverse (trim_start s))).

(** [parse] of an unsigned integer with the greatest value [max]: an optional
    plus sign, then digits; an empty text, a lone sign, another character and
    an overflow are errors. *)
Definition push_dec (max : N) (acc : option N) (c : char) : option N :=
  acc ≫= λ n,
    if between 48 57 c then
      let m := (n * 10 + (c - 48))%N in if (m <=? max)%N then Some m else None
    else None.
Definition parse_uint (max : N) (s : list char) : option N :=
  match s with
  | [] => None
  | 43%N :: [] => None
  | 43%N :: s => foldl (push_dec max) (Some 0%N) s
  | _ => foldl (push_dec max) (Some 0%N) s
  end.

(** [split] at a character: one piece more than there are separators. *)
Fixpoint split_go (d : char) (cur s : list char) : list (list char) :=
  match s with
  | [] => [cur]
  | c :: s => if (c =? d)%N then cur :: split_go d [] s else split_go d (cur ++ [c]) s
  end.
Definition split (d : char) (s : list char) : list (list char) := split_go d [] s.

(** [rfind]: the last position at which a pattern occurs. *)
Fixpoint rfind (p s : list char) : option nat :=
  match s with
  | [] => if p is [] then Some 0 else None
  | _ :: s' =>
      match rfind p s' with
      | Some i => Some (S i)
      | None => if starts_with p s then Some 0 else None
      end
  end.

(** [to_uppercase], exact on the characters whose upper case is ASCII; the
    upper case of any other character has a character beyond ASCII, so it is
    kept here: a comparison with an ASCII text fails either way. *)
Definition upper_char (c : char) : list char :=
  if between 97 122 c then [c - 32]%N
  else if (c =? 223)%N then [83; 83]%N          (* sharp s *)
  else if (c =? 305)%N then [73]%N              (* dotless i *)
  else if (c =? 383)%N then [83]%N              (* long s *)
  else if (c =? 64256)%N then [70; 70]%N        (* ligatures ff to st *)
  else if (c =? 64257)%N then [70; 73]%N
  else if (c =? 64258)%N then [70; 76]%N
  else if (c =? 64259)%N then [70; 70; 73]%N
  else if (c =? 64260)%N then [70; 70; 76]%N
  else if (c =? 64261)%N then [83; 84]%N
  else if (c =? 64262)%N then [83; 84]%N
  else [c].
Definition to_uppercase (s : list char) : list char := s ≫= upper_char.
(** [to_ascii_lowercase] of a character. *)
Definition lower_ascii (c : char) : char := (if between 65 90 c then c + 32 else c)%N.

(** ** Reading back *)

Definition digits (l : list char) : Prop := Forall (λ c, between 48 57 c = true) l.
(** A character that is neither whitespace nor a digit separator. *)
Definition word (l : list char) : Prop := Forall (λ c, is_whitespace c = false) l ∧ l ≠ [].

Lemma digit_not_space c : between 48 57 c = true → is_whitespace c = false.
Proof.
  unfold is_whitespace, between. intros [?%N.leb_le ?%N.leb_le]%andb_true_iff.
  repeat (apply orb_false_iff; split); try (apply andb_false_iff); repeat case_N; try lia; auto.
Qed.

Lemma pretty_digit d : (d < 10)%N → Ascii.N_of_ascii (pretty_N_char d) = (48 + d)%N.
Proof.
  intros Hd. assert (d ∈ [0; 1; 2; 3; 4; 5; 6; 7; 8; 9]%N) as Hin.
  { rewrite !elem_of_cons. lia. }
  repeat (apply elem_of_cons in Hin as [->|Hin]; [done|]). by apply elem_of_nil in Hin.
Qed.

(** The digits of [pretty], most significant first. *)
Lemma fmt_dec_go n s : ∃ l, digits l ∧ str (pretty_N_go n s) = l ++ str s ∧
  (∀ max a, (n + a * 10 ^ N.of_nat (length l) ≤ max)%N →
    foldl (push_dec max) (Some a) l = Some (n + a * 10 ^ N.of_nat (length l))%N).
Proof.
  revert s. induction (N.lt_wf_0 n) as [n _ IH]. intros s.
  destruct (decide (0 < n)%N) as [Hn|Hn].
  2:{ assert (n = 0%N) as -> by lia. rewrite pretty_N_go_0. exists []. split_and!; [constructor|done|].
      intros max a _. simpl. f_equal. lia. }
  rewrite pretty_N_go_step by done.
  assert (n / 10 < n)%N by (apply N.div_lt; [done|lia]).
  destruct (IH (n / 10)%N ltac:(done) (String (pretty_N_char (n `mod` 10)) s))
    as (l & Hl & Heq & Hfold).
  pose proof (N.mod_lt n 10 ltac:(done)) as Hmod.
  assert (Hc : str (String (pretty_N_char (n `mod` 10)) s) = ((48 + n `mod` 10) :: str s)%N).
  { unfold str. simpl. f_equal. by apply pretty_digit. }
  exists (l ++ [48 + n `mod` 10])%N. split_and!.
  - apply Forall_app. split; [done|]. constructor; [|constructor].
    unfold between. apply andb_true_iff. split; apply N.leb_le; lia.
  - rewrite Heq, Hc. by rewrite <- app_assoc.
  - intros max a. rewrite length_app, foldl_app. simpl.
    rewrite Nat.add_1_r, Nat2N.inj_succ, N.pow_succ_r'. intros Hmax.
    pose proof (N.Div0.div_mod n 10) as Hdm.
    rewrite (Hfold max a) by nia. unfold push_dec at 1. cbn.
    assert (between 48 57 (48 + n `mod` 10) = true) as ->.
    { unfold between. apply andb_true_iff. split; apply N.leb_le; lia. }
    replace ((n `div` 10 + a * 10 ^ N.of_nat (length l)) * 10 + (48 + n `mod` 10 - 48))%N
      with (n + a * (10 * 10 ^ N.of_nat (length l)))%N by nia.
    apply N.leb_le in Hmax as ->. done.
Qed.

Lemma fmt_dec_parse n max : (n ≤ max)%N →
  digits (fmt_dec n) ∧ fmt_dec n ≠ [] ∧ parse_uint max (fmt_dec n) = Some n.
Proof.
  intros Hmax. unfold fmt_dec, pretty, pretty_N. case_decide as Hz.
  { subst n. split_and!; [by repeat constructor|done|]. vm_compute. by destruct max. }
  destruct (fmt_dec_go n "") as (l & Hl & Heq & Hfold). change (str "") with (@nil N) in Heq.
  rewrite app_nil_r in Heq. rewrite Heq.
  assert (Hne : l ≠ []).
  { intros ->. specialize (Hfold n 0%N ltac:(lia)). simpl in Hfold. injection Hfold. lia. }
  split_and!; [done|done|]. pose proof (Hfold max 0%N) as Hf. rewrite N.mul_0_l, N.add_0_r in Hf.
  rewrite <- (Hf Hmax). unfold parse_uint. destruct l as [|c l]; [done|].
  apply Forall_cons in Hl as [Hc _]. apply andb_true_iff in Hc as [?%N.leb_le _].
  assert (c ≠ 43%N) by lia.
  destruct c as [|p]; [done|]. repeat (destruct p as [p|p|]; try done).
Qed.

(** ** Lines and fields of rendered text *)

Definition unbroken (l : list char) : Prop := 10%N ∉ l ∧ last l ≠ Some 13%N.

Lemma lines_go_app cur l s : 10%N ∉ l → lines_go cur (l ++ s) = lines_go (cur ++ l) s.
Proof.
  revert cur. induction l as [|c l IH]; intros cur Hl; [by rewrite app_nil_r|].
  apply not_elem_of_cons in Hl as [Hc Hl]. simpl. apply not_eq_sym, N.eqb_neq in Hc as ->.
  rewrite IH by done. by rewrite <- app_assoc.
Qed.

Lemma lines_cons l s : unbroken l → lines (l ++ 10%N :: s) = l :: lines s.
Proof.
  intros [Hl Hcr]. unfold lines. rewrite lines_go_app by done. simpl. f_equal.
  unfold strip_cr. repeat case_match; by simplify_eq.
Qed.

(** The lines of a text made of lines. *)
Definition text_of (ls : list (list char)) : list char := ls ≫= λ l, l ++ [10%N].

Lemma lines_text_of ls : Forall unbroken ls → lines (text_of ls) = ls.
Proof.
  induction 1 as [|l ls Hl _ IH]; [done|]. cbn. rewrite <- app_assoc. simpl.
  rewrite lines_cons by done. f_equal. done.
Qed.

(** The fields, each after one space. *)
Definition spaced (ws : list (list char)) : list char := ws ≫= λ w, 32%N :: w.

Lemma fields_go_word cur w s :
  Forall (λ c, is_whitespace c = false) w → fields_go cur (w ++ s) = fields_go (cur ++ w) s.
Proof.
  revert cur. induction w as [|c w IH]; intros cur Hw; [by rewrite app_nil_r|].
  apply Forall_cons in Hw as [Hc Hw]. simpl. rewrite Hc, IH by done. by rewrite <- app_assoc.
Qed.

Lemma fields_go_spaced ws cur :
  Forall word ws → fields_go cur (spaced ws) = (if cur is [] then [] else [cur]) ++ ws.
Proof.
  intros Hws. revert cur. induction Hws as [|w ws [Hw Hne] _ IH]; intros cur; [by destruct cur|].
  cbn. fold (spaced ws). change (is_whitespace 32) with true. cbn.
  assert (fields_go [] (w ++ spaced ws) = w :: ws) as ->; [|by destruct cur].
  rewrite fields_go_word by done. simpl. rewrite IH. by destruct w.
Qed.

Lemma split_spaced ws : Forall word ws → split_whitespace (spaced ws) = ws.
Proof. intros Hws. unfold split_whitespace. by rewrite fields_go_spaced. Qed.

Lemma split_word_spaced w ws : word w → Forall word ws → split_whitespace (w ++ spaced ws) = w :: ws.
Proof.
  intros [Hw Hne] Hws. unfold split_whitespace. rewrite fields_go_word, fields_go_spaced by done.
  by destruct w.
Qed.

Lemma digits_word l : digits l → l ≠ [] → word l.
Proof. intros Hl Hne. split; [|done]. eapply Forall_impl; [done|]. simpl. apply digit_not_space. Qed.

Lemma fmt_dec_word n : word (fmt_dec n).
Proof. destruct (fmt_dec_parse n n) as (? & ? & _); [lia|]. by apply digits_word. Qed.

Lemma strip_prefix_app p s : strip_prefix p (p ++ s) = Some s.
Proof. induction p as [|a p IH]; [done|]. simpl. by rewrite N.eqb_refl. Qed.

Lemma split_once_app d a b : d ∉ a → split_once d (a ++ d :: b) = Some (a, b).
Proof.
  induction a as [|c a IH]; intros Ha; simpl; [by rewrite N.eqb_refl|].
  apply not_elem_of_cons in Ha as [Hc Ha]. apply not_eq_sym, N.eqb_neq in Hc as ->. by rewrite IH.
Qed.

(** A word is not trimmed, the spaces around it are. *)
Lemma trim_word w : word w → trim (32%N :: w) = w.
Proof.
  intros [Hw Hne]. unfold trim. change (trim_start (32%N :: w)) with (trim_start w).
  assert (Hts : ∀ l, Forall (λ c, is_whitespace c = false) l → trim_start l = l).
  { intros l. destruct 1 as [|c l Hc _]; [done|]. simpl. by rewrite Hc. }
  rewrite (Hts w) by done. rewrite Hts by by apply Forall_reverse. by rewrite reverse_involutive.
Qed.

(** A line without trailing whitespace, whose only whitespace is spaces. *)
Definition plain (c : char) : Prop := c = 32%N ∨ is_whitespace c = false.
Definition neat (l : list char) : Prop :=
  Forall plain l ∧ ∃ c, last l = Some c ∧ is_whitespace c = false.

Lemma neat_app l l' : Forall plain l → neat l' → neat (l ++ l').
Proof.
  intros Hl (Hl' & c & Hc & Hw). split; [by apply Forall_app|].
  exists c. split; [|done]. rewrite last_app, Hc. done.
Qed.

Lemma word_plain w : word w → Forall plain w.
Proof. intros [Hw _]. eapply Forall_impl; [done|]. by right. Qed.

Lemma word_neat w : word w → neat w.
Proof.
  intros Hw. split; [by apply word_plain|]. destruct Hw as [Hw Hne].
  destruct (last w) as [c|] eqn:Hc; [|by apply last_None in Hc].
  exists c. split; [done|]. apply last_Some in Hc as [l ->]. apply Forall_app in Hw as [_ Hw].
  by inversion Hw.
Qed.

Lemma neat_spaced ws : ws ≠ [] → Forall word ws → neat (spaced ws).
Proof.
  intros Hne Hws. destruct ws as [|w ws _] using rev_ind; [done|].
  apply Forall_app in Hws as [Hws Hw]. apply Forall_cons in Hw as [Hw _].
  unfold spaced. rewrite bind_app. cbn. rewrite app_nil_r.
  apply neat_app.
  - clear Hne. induction Hws as [|w' ws Hw' _ IH]; [constructor|]. simpl.
    constructor; [by left|]. apply Forall_app. split; [by apply word_plain|done].
  - apply (neat_app [32%N]); [by repeat constructor|by apply word_neat].
Qed.

Lemma neat_unbroken l : neat l → unbroken l.
Proof.
  intros (Hl & c & Hc & Hw). split.
  - intros Hin. rewrite Forall_forall in Hl. by destruct (Hl _ Hin).
  - rewrite Hc. by intros [= ->].
Qed.

(** ** Searching *)

Lemma starts_with_spec p s : starts_with p s = true ↔ ∃ r, s = p ++ r.
Proof.
  unfold starts_with. rewrite bool_decide_eq_true. split.
  - revert s. induction p as [|a p IH]; intros [|b s] [r Hr]; simpl in *; try done; eauto.
    destruct (N.eqb_spec a b) as [->|]; [|done].
    destruct (IH s (ex_intro _ r Hr)) as [r' ->]. eauto.
  - intros [r ->]. rewrite strip_prefix_app. eauto.
Qed.

Lemma rfind_Some p s i : rfind p s = Some i → ∃ r, s = take i s ++ p ++ r.
Proof.
  revert i. induction s as [|c s IH]; intros i; simpl.
  - destruct p; [|done]. intros [= <-]. by exists [].
  - destruct (rfind p s) as [j|].
    + intros [= <-]. destruct (IH j eq_refl) as [r Hr]. exists r. simpl. by f_equal.
    + destruct (starts_with p (c :: s)) eqn:Hp; [|done]. intros [= <-].
      apply starts_with_spec in Hp as [r Hr]. by exists r.
Qed.

Lemma rfind_drop p s i k : rfind p s = Some i → k ≤ i → rfind p (drop k s) = Some (i - k).
Proof.
  revert i k. induction s as [|c s IH]; intros i k.
  - simpl. destruct p; [|done]. intros [= <-] ?. assert (k = 0) as -> by lia. done.
  - destruct k as [|k]; [by rewrite drop_0, Nat.sub_0_r|]. simpl.
    destruct (rfind p s) as [j|] eqn:Hj.
    + intros [= <-] ?. rewrite Nat.sub_succ. apply IH; [done|lia].
    + case_match; [|done]. intros [= <-]. lia.
Qed.

Lemma rfind_char_None d s : rfind [d] s = None → d ∉ s.
Proof.
  induction s as [|c s IH]; simpl; [intros _; apply not_elem_of_nil|].
  destruct (rfind [d] s); [done|]. destruct (starts_with [d] (c :: s)) eqn:Hs; [done|].
  intros _. rewrite not_elem_of_cons. split; [|by apply IH]. intros ->.
  assert (starts_with [c] (c :: s) = true) as Ht by (apply starts_with_spec; by exists s). congruence.
Qed.

Lemma rfind_char_last d s i : rfind [d] s = Some i → d ∉ drop (S i) s.
Proof.
  revert i. induction s as [|c s IH]; intros i; simpl; [done|].
  destruct (rfind [d] s) as [j|] eqn:Hj.
  - intros [= <-]. by apply IH.
  - destruct (starts_with [d] (c :: s)); [|done]. intros [= <-]. rewrite drop_0.
    by apply rfind_char_None.
Qed.
