(* ===== verification/Metrics.v ===== *)
(** * Host metrics on Linux (sys_metrics/src/lib.rs)

    The parsers of the procfs texts and the sampling of rates between two
    readings.  The reader of files and the clock are arguments, as in the
    source; [f64] is an abstract type with the operations the source uses.
    [Collector] has the
    variant for other systems and runs of samples. *)
From S2P Require Import Prelude Bytes Text.

(** The causes of an [io::Error] here. *)
Inductive IoError := ReadFailed (path : string) | MissingCpuLine | BadNumber | InvalidLoadavg.

Record Counters := mkCounters {
  cpu_total : N;
  cpu_idle : N;
  disk_read_bytes : N;
  disk_write_bytes : N;
  network_receive_bytes : N;
  network_transmit_bytes : N
}.

(** Rounded bytes per second between two counter readings; [elapsed] in
    nanoseconds, [u128] arithmetic saturating. *)
Definition rate (current previous elapsed : N) : N :=
  if (elapsed =? 0)%N then 0%N
  else
    let bytes := (current - previous)%N in
    let per_second := (N.min (N.min (bytes * 1000000000) u128_max + elapsed / 2) u128_max / elapsed)%N in
    if (per_second <=? u64_max)%N then per_second else u64_max.

(** [collect] into a [Result]: the first error wins. *)
Fixpoint collect {A : Type} (l : list (option A)) : result (list A) IoError :=
  match l with
  | [] => Ok []
  | None :: _ => Err BadNumber
  | Some x :: l => let? xs := collect l in Ok (x :: xs)
  end.

Definition parse_u64 : list char → option N := parse_uint u64_max.

(** [sum] of [u64] values wraps around (in the release profile). *)
Definition parse_cpu (input : list char) : result (N * N) IoError :=
  match List.find (starts_with (str "cpu ")) (lines input) with
  | None => Err MissingCpuLine
  | Some line =>
      let? values := collect (parse_u64 <$> drop 1 (split_whitespace line)) in
      let total := foldl wadd64 0%N values in
      let idle := sat_add64 (default 0%N (values !! 3)) (default 0%N (values !! 4)) in
      Ok (total, idle)
  end.

(** [find_map]. *)
Fixpoint find_map {A B : Type} (f : A → option B) (l : list A) : option B :=
  match l with
  | [] => None
  | x :: l => match f x with Some y => Some y | None => find_map f l end
  end.

(** The value in kilobytes on the first line with this prefix, in bytes. *)
Definition kb_value (input name : list char) : N :=
  sat_mul64 (default 0%N (
    rest ← find_map (strip_prefix name) (lines input);
    value ← head (split_whitespace rest);
    parse_u64 value)) 1024.

Definition parse_memory (input : list char) : N * N * N * N :=
  (kb_value input (str "MemTotal:"), kb_value input (str "MemAvailable:"),
   kb_value input (str "SwapTotal:"), kb_value input (str "SwapFree:")).

Definition sat_add_pair (acc v : N * N) : N * N := (sat_add64 acc.1 v.1, sat_add64 acc.2 v.2).

Definition disk_line (line : list char) : option (N * N) :=
  let fields := split_whitespace line in
  name ← fields !! 2;
  if starts_with (str "loop") name || starts_with (str "ram") name || starts_with (str "fd") name
  then None
  else
    read_sectors ← fields !! 5 ≫= parse_u64;
    write_sectors ← fields !! 9 ≫= parse_u64;
    Some (sat_mul64 read_sectors 512, sat_mul64 write_sectors 512).

Definition parse_disk (input : list char) : N * N :=
  foldl sat_add_pair (0, 0)%N (omap disk_line (lines input)).

Definition network_line (line : list char) : option (N * N) :=
  '(name, values) ← split_once 58%N line;
  if bool_decide (trim name = str "lo") then None
  else
    let fields := split_whitespace values in
    rx ← head fields ≫= parse_u64;
    tx ← fields !! 8 ≫= parse_u64;
    Some (rx, tx).

Definition parse_network (input : list char) : N * N :=
  foldl sat_add_pair (0, 0)%N (omap network_line (drop 2 (lines input))).

Definition parse_process (input : list char) : N * N :=
  (kb_value input (str "VmRSS:"),
   default 0%N (
     rest ← find_map (strip_prefix (str "Threads:")) (lines input);
     parse_uint u32_max (trim rest))).

Section sampling.
(** [f64]: zero, conversion from [u32], division, and the parser. *)
Context {F : Type} (f64_zero : F) (f64_from : N → F) (f64_div : F → F → F).
Context (parse_f64 : list char → option F).

Definition parse_load (input : list char) : result (F * F * F) IoError :=
  let? values := collect (parse_f64 <$> take 3 (split_whitespace input)) in
  match values with
  | [a; b; c] => Ok (a, b, c)
  | _ => Err InvalidLoadavg
  end.

Record HostMetrics := mkMetrics {
  cpu_usage_percent : F;
  load_average : F * F * F;
  memory_total_bytes : N;
  memory_used_bytes : N;
  swap_total_bytes : N;
  swap_used_bytes : N;
  disk_read_bytes_per_sec : N;
  disk_write_bytes_per_sec : N;
  network_receive_bytes_per_sec : N;
  network_transmit_bytes_per_sec : N;
  process_resident_memory_bytes : N;
  process_threads : N
}.

(** The share of busy time in hundredths of a percent, of [checked_div]. *)
Definition busy_basis_points (current before : Counters) : option N :=
  let total_delta := (cpu_total current - cpu_total before)%N in
  let idle_delta := (cpu_idle current - cpu_idle before)%N in
  if (total_delta =? 0)%N then None
  else Some (sat_mul64 (total_delta - idle_delta) 10000 / total_delta)%N.

(** What a previous reading adds to the metrics. *)
Definition with_rates (m : HostMetrics) (current before : Counters) (elapsed : N) : HostMetrics :=
  mkMetrics
    (match busy_basis_points current before with
     | Some bp => f64_div (f64_from (if (bp <=? u32_max)%N then bp else 10000)) (f64_from 100)
     | None => cpu_usage_percent m
     end)
    (load_average m) (memory_total_bytes m) (memory_used_bytes m)
    (swap_total_bytes m) (swap_used_bytes m)
    (rate (disk_read_bytes current) (disk_read_bytes before) elapsed)
    (rate (disk_write_bytes current) (disk_write_bytes before) elapsed)
    (rate (network_receive_bytes current) (network_receive_bytes before) elapsed)
    (rate (network_transmit_bytes current) (network_transmit_bytes before) elapsed)
    (process_resident_memory_bytes m) (process_threads m).

(** One sample at time [now]; the collector keeps the last reading. *)
Definition sample_from (read : string → result (list char) IoError) (now : N)
    (previous : option (N * Counters)) : result HostMetrics IoError * option (N * Counters) :=
  let run :=
    let? stat := read "/proc/stat" in
    let? cpu := parse_cpu stat in
    let? loadavg := read "/proc/loadavg" in
    let? load := parse_load loadavg in
    let? meminfo := read "/proc/meminfo" in
    let memory := parse_memory meminfo in
    let? diskstats := read "/proc/diskstats" in
    let disk := parse_disk diskstats in
    let? net := read "/proc/net/dev" in
    let network := parse_network net in
    let? status := read "/proc/self/status" in
    let process := parse_process status in
    let current := mkCounters cpu.1 cpu.2 disk.1 disk.2 network.1 network.2 in
    let '(mt, ma, st, sf) := memory in
    let metrics := mkMetrics f64_zero load mt (mt - ma) st (st - sf) 0 0 0 0 process.1 process.2 in
    Ok (current, metrics) in
  match run with
  | Err e => (Err e, previous)
  | Ok (current, metrics) =>
      let metrics :=
        match previous with
        | Some (previous_at, before) =>
            let elapsed := (now - previous_at)%N in
            if (elapsed =? 0)%N then metrics else with_rates metrics current before elapsed
        | None => metrics
        end in
      (Ok metrics, Some (now, current))
  end.
End sampling.

(** ** Lemmas *)

(** [r] is the rate of an exact quotient, rounded to the nearest integer, or
    the greatest [u64] when that does not reach it. *)
Definition rate_of (current previous elapsed r : N) : Prop :=
  let exact := ((current - previous) * 1000000000)%N in
  (2 * (r * elapsed) ≤ 2 * exact + elapsed ∧
   (2 * exact ≤ 2 * (r * elapsed) + elapsed ∨ r = u64_max))%N.

Lemma rate_rounds current previous elapsed :
  (0 < elapsed)%N → (elapsed < u64_mod * 1000000000)%N → (current ≤ u64_max)%N →
  rate_of current previous elapsed (rate current previous elapsed).
Proof.
  intros Hpos Hel Hcur. unfold rate, rate_of. destruct (N.eqb_spec elapsed 0); [lia|]. cbn zeta.
  set (x := ((current - previous) * 1000000000)%N).
  assert (Hx : (x ≤ u64_max * 1000000000)%N) by (apply N.mul_le_mono_r; lia).
  pose proof (N.Div0.div_mod elapsed 2) as Hh. pose proof (N.mod_lt elapsed 2 ltac:(done)).
  assert (x + elapsed / 2 ≤ u128_max ∧ x ≤ u128_max)%N as [? ?] by (clearbody x; unfold_machine; lia).
  rewrite (N.min_l x), (N.min_l (_ + _)) by done.
  set (q := ((x + elapsed / 2) / elapsed)%N).
  pose proof (N.Div0.div_mod (x + elapsed / 2) elapsed) as Hd. fold q in Hd.
  pose proof (N.mod_lt (x + elapsed / 2) elapsed ltac:(lia)) as Hr.
  set (h := (elapsed / 2)%N) in *. set (m := ((x + h) mod elapsed)%N) in *.
  clearbody q h m x. case_N; [|]; nia.
Qed.

Lemma sat_add_pair_bound l a :
  (a.1 ≤ u64_max ∧ a.2 ≤ u64_max)%N →
  let r := foldl sat_add_pair a l in (r.1 ≤ u64_max ∧ r.2 ≤ u64_max)%N.
Proof.
  revert a. induction l as [|v l IH]; intros a Ha; [done|]. simpl. apply IH.
  unfold sat_add_pair. simpl. unfold_machine. lia.
Qed.

(** Adding with saturation at each step is adding, then clamping once. *)
Lemma sat_add_pair_sum l a :
  foldl sat_add_pair (N.min a.1 u64_max, N.min a.2 u64_max) l =
  (N.min (a.1 + foldr N.add 0 l.*1) u64_max, N.min (a.2 + foldr N.add 0 l.*2) u64_max)%N.
Proof.
  revert a. induction l as [|v l IH]; intros a; [cbn; by rewrite !N.add_0_r|].
  cbn [foldl fmap list_fmap foldr]. specialize (IH (a.1 + v.1, a.2 + v.2)%N). cbn [fst snd] in IH.
  rewrite !N.add_assoc, <- IH. f_equal. unfold sat_add_pair, sat_add64. cbn [fst snd]. f_equal; lia.
Qed.

Lemma busy_bound current before bp :
  busy_basis_points current before = Some bp → (bp ≤ 10000)%N.
Proof.
  unfold busy_basis_points. cbn zeta. case_N; [done|]. intros [= <-].
  apply N.Div0.div_le_upper_bound. unfold sat_mul64. lia.
Qed.

(** ** Properties *)

(** A sample that fails keeps the previous reading; one that succeeds
    becomes the previous reading, never reports more memory used than there
    is nor a busy share above 100 percent, and its rates are the counters'
    differences over the elapsed time, rounded to the nearest integer, or
    zero when there is no earlier reading. *)
Theorem sample_from_spec {F : Type} zero from div parse_f64 read now previous :
  (now < u64_mod * 1000000000)%N →
  let '(r, previous') := sample_from (F:=F) zero from div parse_f64 read now previous in
  match r with
  | Err _ => previous' = previous
  | Ok m => ∃ cur, previous' = Some (now, cur) ∧
      (memory_used_bytes m ≤ memory_total_bytes m ∧ swap_used_bytes m ≤ swap_total_bytes m)%N ∧
      (cpu_usage_percent m = zero ∨
       ∃ bp, (bp ≤ 10000)%N ∧ cpu_usage_percent m = div (from bp) (from 100%N)) ∧
      match previous with
      | Some (at_, b) => (at_ < now)%N →
          rate_of (disk_read_bytes cur) (disk_read_bytes b) (now - at_) (disk_read_bytes_per_sec m) ∧
          rate_of (disk_write_bytes cur) (disk_write_bytes b) (now - at_) (disk_write_bytes_per_sec m) ∧
          rate_of (network_receive_bytes cur) (network_receive_bytes b) (now - at_)
            (network_receive_bytes_per_sec m) ∧
          rate_of (network_transmit_bytes cur) (network_transmit_bytes b) (now - at_)
            (network_transmit_bytes_per_sec m)
      | None => disk_read_bytes_per_sec m = 0%N ∧ disk_write_bytes_per_sec m = 0%N ∧
          network_receive_bytes_per_sec m = 0%N ∧ network_transmit_bytes_per_sec m = 0%N
      end
  end.
Proof.
  intros Hnow. unfold sample_from.
  destruct (read "/proc/stat") as [stat|]; [|done]. simpl.
  destruct (parse_cpu stat) as [cpu|]; [|done]. simpl.
  destruct (read "/proc/loadavg") as [la|]; [|done]. simpl.
  destruct (parse_load _ la) as [load|]; [|done]. simpl.
  destruct (read "/proc/meminfo") as [mi|]; [|done]. simpl.
  destruct (read "/proc/diskstats") as [ds|]; [|done]. simpl.
  destruct (read "/proc/net/dev") as [nd|]; [|done]. simpl.
  destruct (read "/proc/self/status") as [st|]; [|done]. simpl.
  pose proof (sat_add_pair_bound (omap disk_line (lines ds)) (0, 0)%N ltac:(done)) as [Hd1 Hd2].
  pose proof (sat_add_pair_bound (omap network_line (drop 2 (lines nd))) (0, 0)%N ltac:(done)) as [Hn1 Hn2].
  fold (parse_disk ds) in Hd1, Hd2. fold (parse_network nd) in Hn1, Hn2.
  eexists. split; [reflexivity|].
  destruct previous as [[at_ b]|]; [|simpl; split_and!; (lia || by left)].
  destruct (N.eqb_spec (now - at_) 0); [simpl; split_and!; [lia|lia|by left|lia]|].
  simpl. split_and!; [lia|lia| |intros; split_and!; apply rate_rounds; lia].
  destruct (busy_basis_points _ b) as [bp|] eqn:Hbp; [|by left].
  right. apply busy_bound in Hbp as Hle. exists bp. split; [done|].
  destruct (N.leb_spec bp u32_max); [done|]. unfold_machine. lia.
Qed.

(** ** Reading back rendered texts *)

Definition sum (l : list N) : N := foldr N.add 0%N l.

Definition cpu_text (vs : list N) (rest : list char) : list char :=
  (str "cpu " ++ spaced (fmt_dec <$> vs)) ++ 10%N :: rest.

(** An interface of [/proc/net/dev]: received bytes, seven other counters,
    transmitted bytes, and the rest. *)
Record Iface := mkIface { if_name : list char; if_rx : N; if_mid : list N; if_tx : N; if_rest : list N }.
Definition net_line (i : Iface) : list char :=
  (32%N :: if_name i) ++ 58%N :: spaced (fmt_dec <$> (if_rx i :: if_mid i ++ if_tx i :: if_rest i)).
Definition iface_ok (i : Iface) : Prop :=
  word (if_name i) ∧ 58%N ∉ if_name i ∧ length (if_mid i) = 7 ∧ (if_rx i ≤ u64_max ∧ if_tx i ≤ u64_max)%N.

Definition mem_line (m : list char * N) : list char := m.1 ++ 58%N :: spaced [fmt_dec m.2; str "kB"].
Definition mem_ok (m : list char * N) : Prop := word m.1 ∧ 58%N ∉ m.1 ∧ (m.2 ≤ u64_max)%N.

Lemma words_dec l : Forall word (fmt_dec <$> l).
Proof. apply Forall_fmap, Forall_forall. intros n _. apply fmt_dec_word. Qed.

Lemma collect_parse vs : Forall (λ v, (v ≤ u64_max)%N) vs → collect (parse_u64 <$> (fmt_dec <$> vs)) = Ok vs.
Proof.
  induction 1 as [|v vs Hv _ IH]; [done|]. rewrite !fmap_cons. cbn [collect]. rewrite IH. unfold parse_u64.
  by destruct (fmt_dec_parse v u64_max Hv) as (_ & _ & ->).
Qed.

Lemma fold_wadd l a : foldl wadd64 (a mod u64_mod)%N l = ((a + sum l) mod u64_mod)%N.
Proof.
  unfold sum. revert a. induction l as [|x l IH]; intros a; simpl; [by rewrite N.add_0_r|].
  unfold wadd64 at 2. rewrite N.Div0.add_mod_idemp_l, IH. f_equal. lia.
Qed.

Lemma network_line_spec i : iface_ok i →
  network_line (net_line i) = if bool_decide (if_name i = str "lo") then None else Some (if_rx i, if_tx i).
Proof.
  intros (Hw & Hc & Hlen & Hrx & Htx). unfold network_line, net_line.
  rewrite (split_once_app 58 (32%N :: if_name i)) by by apply not_elem_of_cons.
  cbn [mbind option_bind]. rewrite trim_word by done. case_bool_decide; [done|].
  rewrite split_spaced by apply words_dec.
  assert ((fmt_dec <$> (if_rx i :: if_mid i ++ if_tx i :: if_rest i)) !! 8 = Some (fmt_dec (if_tx i))) as ->.
  { rewrite list_lookup_fmap. change (8 : nat) with (S 7). rewrite lookup_cons_ne_0 by done. simpl.
    by rewrite lookup_app_r, Hlen by by rewrite Hlen. }
  cbn. unfold parse_u64.
  destruct (fmt_dec_parse (if_rx i) u64_max Hrx) as (_ & _ & ->). cbn.
  by destruct (fmt_dec_parse (if_tx i) u64_max Htx) as (_ & _ & ->).
Qed.

Lemma mem_unbroken m : mem_ok m → unbroken (mem_line m).
Proof.
  intros (Hw & _). apply neat_unbroken, neat_app; [by apply word_plain|].
  apply (neat_app [58%N]); [repeat constructor; by right|]. apply neat_spaced; [done|].
  constructor; [apply fmt_dec_word|]. constructor; [|done]. by split; [repeat constructor|].
Qed.

Lemma net_unbroken i : iface_ok i → unbroken (net_line i).
Proof.
  intros (Hw & _). apply neat_unbroken, neat_app.
  { constructor; [by left|by apply word_plain]. }
  apply (neat_app [58%N]); [repeat constructor; by right|]. apply neat_spaced; [done|apply words_dec].
Qed.

(** A name and its colon are a prefix of another line only if they are its
    name and its colon. *)
Lemma strip_name n n' s : 58%N ∉ n → 58%N ∉ n' →
  strip_prefix (n ++ [58%N]) (n' ++ 58%N :: s) = if bool_decide (n = n') then Some s else None.
Proof.
  revert n'. induction n as [|a n IH]; intros [|b n'] Hn Hn'; cbn [app strip_prefix].
  - by rewrite N.eqb_refl.
  - apply not_elem_of_cons in Hn' as [Hb _]. apply N.eqb_neq in Hb as ->. done.
  - apply not_elem_of_cons in Hn as [Ha _]. apply not_eq_sym, N.eqb_neq in Ha as ->. done.
  - apply not_elem_of_cons in Hn as [_ Hn]. apply not_elem_of_cons in Hn' as [_ Hn'].
    rewrite IH by done. destruct (N.eqb_spec a b) as [->|Hab]; repeat case_bool_decide; naive_solver.
Qed.

(** The first value listed under a name, or zero. *)
Fixpoint first_value (ms : list (list char * N)) (name : list char) : N :=
  match ms with
  | [] => 0
  | m :: ms => if bool_decide (name = m.1) then m.2 else first_value ms name
  end%N.

Lemma kb_value_spec ms name : Forall mem_ok ms → 58%N ∉ name →
  kb_value (text_of (mem_line <$> ms)) (name ++ [58%N]) = sat_mul64 (first_value ms name) 1024.
Proof.
  intros Hms Hname. unfold kb_value. f_equal. rewrite lines_text_of.
  2:{ apply Forall_fmap. eapply Forall_impl; [done|]. apply mem_unbroken. }
  induction Hms as [|m ms (Hw & Hc & Hm) _ IH]; [done|]. simpl.
  unfold mem_line at 1. rewrite strip_name by done. case_bool_decide; [|done].
  cbn [mbind option_bind]. rewrite split_spaced.
  2:{ constructor; [apply fmt_dec_word|]. constructor; [|done]. by split; [repeat constructor|]. }
  cbn. unfold parse_u64. by destruct (fmt_dec_parse m.2 u64_max Hm) as (_ & _ & ->).
Qed.

(** C37: The parsers read back rendered procfs texts: the processor line gives
    the total and the idle time of any list of counters, whatever follows it;
    the interface table gives the totals of all interfaces but the loopback;
    a memory value is the first one listed under exactly that name, in bytes. *)
Theorem procfs_roundtrip vs rest h1 h2 ifs ms name :
  Forall (λ v, (v ≤ u64_max)%N) vs → unbroken h1 → unbroken h2 → Forall iface_ok ifs →
  Forall mem_ok ms → 58%N ∉ name →
  parse_cpu (cpu_text vs rest) =
    Ok (sum vs mod u64_mod, N.min (default 0 (vs !! 3%nat) + default 0 (vs !! 4%nat)) u64_max)%N ∧
  (let outer := filter (λ i, if_name i ≠ str "lo") ifs in
   parse_network (text_of (h1 :: h2 :: (net_line <$> ifs))) =
     (N.min (sum (if_rx <$> outer)) u64_max, N.min (sum (if_tx <$> outer)) u64_max)%N) ∧
  kb_value (text_of (mem_line <$> ms)) (name ++ [58%N]) = N.min (first_value ms name * 1024) u64_max.
Proof.
  intros Hvs Hh1 Hh2 Hifs Hms Hname. split_and!; [| |by apply kb_value_spec].
  - unfold parse_cpu, cpu_text. rewrite lines_cons.
    2:{ destruct vs as [|v vs]; [split; [by apply (bool_decide_unpack _)|done]|].
        apply neat_unbroken, neat_app; [|by apply neat_spaced, words_dec].
        repeat constructor; solve [by left|by right]. }
    cbn [List.find]. unfold starts_with at 1. rewrite strip_prefix_app, bool_decide_true by by eexists.
    change (split_whitespace (str "cpu " ++ ?s)) with (str "cpu" :: split_whitespace s).
    rewrite split_spaced by apply words_dec. rewrite skipn_cons, drop_0. rewrite collect_parse by done.
    cbn [result_bind].
    assert (foldl wadd64 0 vs = sum vs `mod` u64_mod)%N as ->; [apply (fold_wadd vs 0)|done].
  - unfold parse_network. rewrite lines_text_of.
    2:{ constructor; [done|]. constructor; [done|]. apply Forall_fmap.
        eapply Forall_impl; [done|]. apply net_unbroken. }
    rewrite !skipn_cons, drop_0. rewrite (sat_add_pair_sum _ (0, 0)%N). cbn [fst snd]. rewrite !N.add_0_l.
    assert (omap network_line (net_line <$> ifs) =
      (λ i, (if_rx i, if_tx i)) <$> filter (λ i, if_name i ≠ str "lo") ifs) as ->.
    { clear -Hifs. induction Hifs as [|i ifs Hi _ IH]; [done|]. rewrite fmap_cons, filter_cons.
      cbn [omap list_omap]. rewrite network_line_spec by done.
      case_bool_decide; case_decide; try done. rewrite fmap_cons. f_equal. exact IH. }
    rewrite <- !list_fmap_compose. done.
Qed.

(** ** Witnesses *)

Module MetricsExample.
Definition nl : list char := [10%N].
Definition read (path : string) : result (list char) IoError :=
  if String.eqb path "/proc/stat" then Ok (str "cpu 100 2 30 400 10" ++ nl)
  else if String.eqb path "/proc/loadavg" then Ok (str "1 0 2 1/100 1")
  else if String.eqb path "/proc/meminfo" then
    Ok (str "MemTotal: 1000 kB" ++ nl ++ str "MemAvailable: 400 kB" ++ nl)
  else if String.eqb path "/proc/diskstats" then Ok (str "8 0 sda 1 2 30 4 5 6 70" ++ nl)
  else if String.eqb path "/proc/net/dev" then
    Ok (str "h1" ++ nl ++ str "h2" ++ nl ++ str " eth0: 100 0 0 0 0 0 0 0 200 0" ++ nl)
  else if String.eqb path "/proc/self/status" then Ok (str "VmRSS: 42 kB" ++ nl ++ str "Threads: 7")
  else Err (ReadFailed path).
Definition parse (l : list char) : option N := parse_uint u32_max l.
Definition before : Counters := mkCounters 42 10 0 0 40 0.
Definition sampled : result (HostMetrics (F:=N)) IoError * option (N * Counters) :=
  sample_from 0%N id N.div parse read 2000000000 (Some (0%N, before)).
End MetricsExample.
Import MetricsExample.

Lemma sample_from_spec_witness :
  let '(r, previous') := sampled in
  match r with
  | Err _ => previous' = Some (0%N, before)
  | Ok m => ∃ cur, previous' = Some (2000000000%N, cur) ∧
      (memory_used_bytes m ≤ memory_total_bytes m ∧ swap_used_bytes m ≤ swap_total_bytes m)%N ∧
      (cpu_usage_percent m = 0%N ∨
       ∃ bp, (bp ≤ 10000)%N ∧ cpu_usage_percent m = (id bp / id 100)%N) ∧
      ((0 < 2000000000)%N →
        rate_of (disk_read_bytes cur) 0 2000000000 (disk_read_bytes_per_sec m) ∧
        rate_of (disk_write_bytes cur) 0 2000000000 (disk_write_bytes_per_sec m) ∧
        rate_of (network_receive_bytes cur) 40 2000000000 (network_receive_bytes_per_sec m) ∧
        rate_of (network_transmit_bytes cur) 0 2000000000 (network_transmit_bytes_per_sec m))
  end.
Proof.
  exact (sample_from_spec 0%N id N.div parse read 2000000000 (Some (0%N, before)) eq_refl).
Defined.

(** The sample above, read in full. *)
Example sampled_values :
  match sampled.1 with
  | Ok m => cpu_usage_percent m = 20%N ∧ memory_used_bytes m = 614400%N ∧
      network_receive_bytes_per_sec m = 30%N ∧ disk_write_bytes_per_sec m = 17920%N
  | Err _ => False
  end.
Proof. by vm_compute. Qed.

Lemma procfs_roundtrip_witness :
  let eth := mkIface (str "eth0") 100 (replicate 7 0%N) 200 [0%N] in
  let lo := mkIface (str "lo") 9 (replicate 7 0%N) 9 [] in
  parse_cpu (cpu_text [100; 2; 30; 400; 10]%N []) = Ok (542, 410)%N ∧
  parse_network (text_of (str "h1" :: str "h2" :: (net_line <$> [eth; lo]))) = (100, 200)%N ∧
  kb_value (text_of (mem_line <$> [(str "MemTotal", 1000); (str "Mem", 3)]%N)) (str "Mem" ++ [58%N]) = 3072%N.
Proof.
  apply (procfs_roundtrip [100; 2; 30; 400; 10]%N [] (str "h1") (str "h2")
    [mkIface (str "eth0") 100 (replicate 7 0%N) 200 [0%N]; mkIface (str "lo") 9 (replicate 7 0%N) 9 []]
    [(str "MemTotal", 1000); (str "Mem", 3)]%N (str "Mem")).
  all: apply (bool_decide_unpack _); vm_compute; reflexivity.
Defined.
