(* ===== verification/Collector.v ===== *)
(** * The metrics collector and its other systems (sys_metrics/src/lib.rs)

    [HostMetricsCollector] on Linux is [Metrics.sample_from] with the procfs
    reader; elsewhere it copies what the [sysinfo] library tells, whose
    objects are parameters here.  Over a run of samples, failed ones among
    them, the reported rates add up to what the counters moved. *)
From S2P Require Import Prelude Bytes Text Metrics.

(** ** Systems other than Linux *)

Section sysinfo.
Context {F : Type} (f64_from_f32 : N → F) (f64_zero : F).
(** sysinfo's [System], [Networks], [Pid] and what the source asks of them. *)
Context {System Networks Pid : Type}.
Context (refresh_memory refresh_cpu_usage : System → System) (refresh_process : Pid → System → System).
Context (refresh_networks : Networks → Networks).
Context (load_average : F * F * F) (global_cpu_usage : System → N).
Context (total_memory used_memory total_swap used_swap : System → N).
(** A process: its memory, and the number of its tasks where known. *)
Context (process : System → Pid → option (N * option N)).
(** Received and transmitted bytes of each interface. *)
Context (interfaces : Networks → list (N * N)).

(** [HostMetricsCollector] there. *)
Record HostMetricsCollector := mkCollector {
  previous : option (N * Counters);
  system : System;
  networks : Networks;
  current_pid : option Pid
}.
Definition collector_new (system_new : System) (networks_new : Networks) (get_current_pid : option Pid) :
    HostMetricsCollector := mkCollector None system_new networks_new get_current_pid.

Definition process_values (s : System) (pid : option Pid) : N * N :=
  match pid ≫= process s with
  | Some (memory, tasks) => (memory, match tasks with Some n => N.min n u32_max | None => 0%N end)
  | None => (0, 0)%N
  end.

(** [sum] of [u64] wraps around in the release profile. *)
Definition network_counters (n : Networks) : Counters :=
  mkCounters 0 0 0 0 (foldl wadd64 0%N (interfaces n).*1) (foldl wadd64 0%N (interfaces n).*2).

Definition with_network_rates (m : HostMetrics (F := F)) (current before : Counters) (elapsed : N) : HostMetrics :=
  mkMetrics (cpu_usage_percent m) (Metrics.load_average m) (memory_total_bytes m) (memory_used_bytes m)
    (swap_total_bytes m) (swap_used_bytes m) (disk_read_bytes_per_sec m) (disk_write_bytes_per_sec m)
    (rate (network_receive_bytes current) (network_receive_bytes before) elapsed)
    (rate (network_transmit_bytes current) (network_transmit_bytes before) elapsed)
    (process_resident_memory_bytes m) (process_threads m).

(** [sample_from_sysinfo] at time [now]. *)
Definition sample_from_sysinfo (now : N) (c : HostMetricsCollector) : HostMetrics * HostMetricsCollector :=
  let s := refresh_cpu_usage (refresh_memory (system c)) in
  let s := match current_pid c with Some pid => refresh_process pid s | None => s end in
  let n := refresh_networks (networks c) in
  let '(memory, threads) := process_values s (current_pid c) in
  let metrics := mkMetrics (f64_from_f32 (global_cpu_usage s)) load_average (total_memory s) (used_memory s)
                   (total_swap s) (used_swap s) 0 0 0 0 memory threads in
  let current := network_counters n in
  let metrics :=
    match previous c with
    | Some (previous_at, before) =>
        let elapsed := (now - previous_at)%N in
        if (elapsed =? 0)%N then metrics else with_network_rates metrics current before elapsed
    | None => metrics
    end in
  (metrics, mkCollector (Some (now, current)) s n (current_pid c)).

Lemma foldl_wadd_bound l a : (a ≤ u64_max)%N → (foldl wadd64 a l ≤ u64_max)%N.
Proof.
  revert a. induction l as [|x l IH]; intros a Ha; [done|]. apply IH. unfold wadd64.
  pose proof (N.mod_lt (a + x) u64_mod). unfold_machine. lia.
Qed.

(** The network rates are those of the two readings; there are no disk rates,
    and the number of threads fits. *)
Lemma sysinfo_sample now c at_ b :
  previous c = Some (at_, b) → (at_ < now)%N → (now < u64_mod * 1000000000)%N →
  let '(m, c') := sample_from_sysinfo now c in
  ∃ cur, previous c' = Some (now, cur) ∧
    rate_of (network_receive_bytes cur) (network_receive_bytes b) (now - at_) (network_receive_bytes_per_sec m) ∧
    rate_of (network_transmit_bytes cur) (network_transmit_bytes b) (now - at_) (network_transmit_bytes_per_sec m) ∧
    disk_read_bytes_per_sec m = 0%N ∧ disk_write_bytes_per_sec m = 0%N ∧ (process_threads m ≤ u32_max)%N.
Proof.
  intros Hp Hlt Hnow. unfold sample_from_sysinfo. rewrite Hp.
  set (s := match current_pid c with Some _ => _ | None => _ end).
  assert (Ht : ((process_values s (current_pid c)).2 ≤ u32_max)%N).
  { unfold process_values. destruct (current_pid c ≫= process s) as [[mem [t|]]|]; simpl; lia. }
  destruct (process_values s (current_pid c)) as [memory threads]. simpl in Ht.
  destruct (N.eqb_spec (now - at_) 0); [lia|]. eexists. split; [done|]. simpl.
  split_and!; [..|done|done|done]; apply rate_rounds; try lia; by apply foldl_wadd_bound.
Qed.
End sysinfo.

(** ** A run of samples on Linux *)

Section run.
Context {F : Type} (zero : F) (from : N → F) (div : F → F → F) (parse_f64 : list char → option F).

(** What a sample that succeeded leaves: the time, the counters read, the
    metrics reported. *)
Record Sample := mkSample { s_at : N; s_counters : Counters; s_metrics : HostMetrics (F := F) }.

(** [HostMetricsCollector::sample] over and over, at the given times and
    against the files as they were: the samples that succeeded. *)
Fixpoint sample_run (previous : option (N * Counters))
    (ins : list (N * (string → result (list char) IoError))) : list Sample :=
  match ins with
  | [] => []
  | (now, read) :: ins =>
      match sample_from zero from div parse_f64 read now previous with
      | (Ok m, Some (at_, cur)) => mkSample at_ cur m :: sample_run (Some (at_, cur)) ins
      | (_, previous) => sample_run previous ins
      end
  end.

(** The four counters with their rates. *)
Definition rated : list ((Counters → N) * (HostMetrics (F := F) → N)) :=
  [(disk_read_bytes, disk_read_bytes_per_sec); (disk_write_bytes, disk_write_bytes_per_sec);
   (network_receive_bytes, network_receive_bytes_per_sec); (network_transmit_bytes, network_transmit_bytes_per_sec)].

(** Samples in order: the clock moved (and a [Duration] holds the difference),
    the counter did not go back, and the rate is no clamped one. *)
Fixpoint steady (f : Counters → N) (g : HostMetrics → N) (at_ c : N) (ss : list Sample) : Prop :=
  match ss with
  | [] => True
  | s :: ss => (at_ < s_at s < u64_mod * 1000000000 ∧ c ≤ f (s_counters s) ∧ g (s_metrics s) < u64_max)%N ∧
      steady f g (s_at s) (f (s_counters s)) ss
  end.

(** The bytes the rates stand for, in billionths. *)
Fixpoint reported (g : HostMetrics → N) (at_ : N) (ss : list Sample) : N :=
  match ss with
  | [] => 0
  | s :: ss => g (s_metrics s) * (s_at s - at_) + reported g (s_at s) ss
  end%N.

Definition end_of (at_ : N) (cs : Counters) (ss : list Sample) : N * Counters :=
  match last ss with Some s => (s_at s, s_counters s) | None => (at_, cs) end.

Definition counters_ok (c : Counters) : Prop :=
  (disk_read_bytes c ≤ u64_max ∧ disk_write_bytes c ≤ u64_max ∧
   network_receive_bytes c ≤ u64_max ∧ network_transmit_bytes c ≤ u64_max)%N.

(** A sample with an earlier reading. *)
Lemma sample_from_reading read now at_ b :
  match sample_from zero from div parse_f64 read now (Some (at_, b)) with
  | (Err _, p) => p = Some (at_, b)
  | (Ok m, p) => ∃ cur m0, p = Some (now, cur) ∧ counters_ok cur ∧
      ((at_ < now)%N → m = with_rates from div m0 cur b (now - at_))
  end.
Proof.
  unfold sample_from.
  destruct (read "/proc/stat") as [stat|]; [|done]. simpl.
  destruct (parse_cpu stat) as [cpu|]; [|done]. simpl.
  destruct (read "/proc/loadavg") as [la|]; [|done]. simpl.
  destruct (parse_load _ la) as [load|]; [|done]. simpl.
  destruct (read "/proc/meminfo") as [mi|]; [|done]. simpl.
  destruct (read "/proc/diskstats") as [ds|]; [|done]. simpl.
  destruct (read "/proc/net/dev") as [nd|]; [|done]. simpl.
  destruct (read "/proc/self/status") as [st|]; [|done]. simpl.
  pose proof (sat_add_pair_bound (omap disk_line (lines ds)) (0, 0)%N ltac:(done)) as [Hd1 Hd2].
  pose proof (sat_add_pair_bound (omap network_line (drop 2 (lines nd))) (0, 0)%N ltac:(done)) as [Hn1 Hn2].
  eexists _, _. split_and!; [done|done|]. intros Hlt. destruct (N.eqb_spec (now - at_) 0); [lia|done].
Qed.

Lemma rated_rates fg m cur b e : fg ∈ rated →
  fg.2 (with_rates from div m cur b e) = rate (fg.1 cur) (fg.1 b) e ∧ (counters_ok cur → (fg.1 cur ≤ u64_max)%N).
Proof.
  unfold rated, counters_ok. intros Hin. repeat (apply elem_of_cons in Hin as [->|Hin]; [simpl; tauto|]).
  by apply elem_of_nil in Hin.
Qed.

Lemma end_of_cons at_ cs s ss : end_of at_ cs (s :: ss) = end_of (s_at s) (s_counters s) ss.
Proof. unfold end_of. by destruct ss as [|s' ss]; [|rewrite last_cons_cons; destruct (last (s' :: ss)) eqn:Hl; [|apply last_None in Hl]]. Qed.

(** C36: Over a run of samples, failed ones among them, no transferred byte is
    lost or counted twice: for each of the four counters the reported rates,
    each times the time since the last sample that succeeded, add up to what
    the counter moved from the first reading to the last, within half a byte
    per second. *)
Theorem rates_add_up fg at_ b ins :
  fg ∈ rated →
  let ss := sample_run (Some (at_, b)) ins in
  steady fg.1 fg.2 at_ (fg.1 b) ss →
  let '(at', b') := end_of at_ b ss in
  (at_ ≤ at' ∧ fg.1 b ≤ fg.1 b' ∧
   2 * reported fg.2 at_ ss ≤ 2 * (1000000000 * (fg.1 b' - fg.1 b)) + (at' - at_) ∧
   2 * (1000000000 * (fg.1 b' - fg.1 b)) ≤ 2 * reported fg.2 at_ ss + (at' - at_))%N.
Proof.
  intros Hfg. cbv zeta. revert at_ b. induction ins as [|[now read] ins IH]; intros at_ b Hst; [simpl; lia|].
  cbn [sample_run] in *. pose proof (sample_from_reading read now at_ b) as Hs.
  destruct (sample_from zero from div parse_f64 read now (Some (at_, b))) as [[m|e] p]; [|subst p; by apply IH].
  destruct Hs as (cur & m0 & -> & Hok & Hm). rewrite end_of_cons. cbn [steady reported s_at s_counters s_metrics] in *.
  destruct Hst as (([Hlt Hbig] & Hle & Hmax) & Hst). specialize (IH now cur Hst).
  destruct (end_of now cur _) as [at' b']. rewrite (Hm Hlt) in *.
  destruct (rated_rates fg m0 cur b (now - at_) Hfg) as [Hr Hcur]. rewrite Hr in *.
  pose proof (rate_rounds (fg.1 cur) (fg.1 b) (now - at_) ltac:(lia) ltac:(lia) (Hcur Hok)) as [H1 H2].
  set (r := rate (fg.1 cur) (fg.1 b) (now - at_)) in *. set (x := (r * (now - at_))%N) in *.
  set (y := reported fg.2 now _) in *. clearbody x y. lia.
Qed.
End run.

(** ** Witness *)

(** Two samples, with one in between that fails. *)
Module CollectorExample.
Definition net (rx : string) (path : string) : result (list char) IoError :=
  if String.eqb path "/proc/net/dev" then
    Ok (str "h1" ++ MetricsExample.nl ++ str "h2" ++ MetricsExample.nl ++ str " eth0: " ++ str rx ++ str " 0 0 0 0 0 0 0 200 0")
  else MetricsExample.read path.
Definition ins : list (N * (string → result (list char) IoError)) :=
  [(1000000000, net "60"); (2500000000, λ path, Err (ReadFailed path)); (4000000000, net "100")]%N.
Definition received : (Counters → N) * (HostMetrics (F := N) → N) :=
  (network_receive_bytes, network_receive_bytes_per_sec).
Definition samples : list (Sample (F := N)) :=
  sample_run 0%N id N.div MetricsExample.parse (Some (0%N, MetricsExample.before)) ins.
End CollectorExample.
Import CollectorExample.

(** 20 bytes in the first second, 40 in the next three: 13 per second. *)
Example sampled_run : (λ s, (s_at s, received.2 (s_metrics s))) <$> samples = [(1000000000, 20); (4000000000, 13)]%N.
Proof. vm_compute. reflexivity. Qed.

Lemma rates_add_up_witness :
  let '(at', b') := end_of 0 MetricsExample.before samples in
  (0 ≤ at' ∧ 40 ≤ network_receive_bytes b' ∧
   2 * reported received.2 0 samples ≤ 2 * (1000000000 * (network_receive_bytes b' - 40)) + (at' - 0) ∧
   2 * (1000000000 * (network_receive_bytes b' - 40)) ≤ 2 * reported received.2 0 samples + (at' - 0))%N.
Proof.
  apply (rates_add_up 0%N id N.div MetricsExample.parse received 0 MetricsExample.before ins).
  - right. right. left.
  - vm_compute. done.
Defined.
