(* ===== verification/Token.v ===== *)
(** * Signed tokens (base/src/utils/token.rs)

    The clock and the process id are arguments; base64 is a third-party codec. *)
From S2P Require Import Prelude Bytes.

Definition NONCE : list byte := str "Gmv123...".
Definition dot : byte := 46%N.

(** [obfuscate] and [deobfuscate], in the order of the source. *)
Definition obfuscate (data : list byte) (mask : byte) : list byte :=
  (λ b, N.lxor b mask) <$> reverse data.
Definition deobfuscate (data : list byte) (mask : byte) : list byte :=
  reverse ((λ b, N.lxor b mask) <$> data).

(** DJB2; [<<] drops the high bits, the additions wrap. *)
Definition hash_step (hash b : N) : N :=
  wadd64 (wadd64 (N.shiftl hash 5 mod u64_mod) hash) b.
Definition simple_hash (s : list byte) : N := foldl hash_step 5381%N s.

(** [s.rsplitn(2, '.')]: the part after the last dot and the part before. *)
Fixpoint split_last_dot (s : list byte) : option (list byte * list byte) :=
  match s with
  | [] => None
  | b :: s =>
      match split_last_dot s with
      | Some (pre, post) => Some (b :: pre, post)
      | None => if (b =? dot)%N then Some ([], s) else None
      end
  end.

Section token.
Context (b64_encode : list byte → list byte) (b64_decode : list byte → option (list byte)).

Definition token_raw (id sec : list byte) (now pid : N) : list byte :=
  id ++ [dot] ++ sec ++ [dot] ++ fmt_dec now ++ [dot] ++ fmt_dec pid.

Definition encode_token (id sec noc : list byte) (now pid : N) : list byte :=
  let raw := token_raw id sec now pid in
  let sig := simple_hash (raw ++ noc) in
  b64_encode (obfuscate (raw ++ [dot] ++ fmt_hex 16 sig) 90%N).

Definition default_token (id sec : list byte) (now pid : N) : list byte :=
  encode_token id sec NONCE now pid.

(** The slice [raw[..raw.len() - sig.len() - 1]] is what precedes the dot. *)
Definition verify_token (token key : list byte) : bool :=
  match b64_decode token with
  | None => false
  | Some obf =>
      let raw := deobfuscate obf 90%N in
      if valid_utf8 raw then
        match split_last_dot raw with
        | None => false
        | Some (_, sig) =>
            let raw_str := take (length raw - length sig - 1) raw in
            bool_decide (sig = fmt_hex 16 (simple_hash (raw_str ++ key)))
        end
      else false
  end.
End token.

(** ** Lemmas *)

Lemma deobfuscate_obfuscate data mask : deobfuscate (obfuscate data mask) mask = data.
Proof.
  unfold deobfuscate, obfuscate. rewrite <- list_fmap_compose.
  rewrite (list_fmap_ext _ id); [by rewrite list_fmap_id, reverse_involutive|].
  intros i b _. simpl. by rewrite N.lxor_assoc, N.lxor_nilpotent, N.lxor_0_r.
Qed.

Lemma split_last_dot_none s : dot ∉ s → split_last_dot s = None.
Proof.
  induction s as [|b s IH]; [done|]. intros [Hb Hs]%not_elem_of_cons. simpl. rewrite IH by done.
  destruct (N.eqb_spec b dot); [congruence|done].
Qed.

Lemma split_last_dot_app pre post : dot ∉ post → split_last_dot (pre ++ dot :: post) = Some (pre, post).
Proof.
  intros Hp. induction pre as [|b pre IH]; simpl; [by rewrite split_last_dot_none|]. by rewrite IH.
Qed.

Lemma split_last_dot_spec s pre post : split_last_dot s = Some (pre, post) → s = pre ++ dot :: post.
Proof.
  revert pre. induction s as [|b s IH]; intros pre H; [done|]. simpl in H.
  destruct (split_last_dot s) as [[pre' post']|].
  - simplify_eq. simpl. by rewrite <- (IH pre').
  - destruct (N.eqb_spec b dot); [|done]. by simplify_eq.
Qed.

Lemma simple_hash_lt s : (simple_hash s < u64_mod)%N.
Proof.
  unfold simple_hash. destruct s as [|b s _] using rev_ind; [done|].
  rewrite foldl_app. simpl. unfold hash_step, wadd64. by apply N.mod_lt.
Qed.

Lemma token_raw_utf8 id sec now pid :
  valid_utf8 id = true → valid_utf8 sec = true → valid_utf8 (token_raw id sec now pid) = true.
Proof.
  intros Hid Hsec. assert (Hdec : ∀ n, valid_utf8 (fmt_dec n) = true).
  { intros n. apply valid_utf8_ascii. eapply Forall_impl; [apply fmt_dec_digits|by intros ? []]. }
  unfold token_raw. repeat (apply valid_utf8_app; [done|]). done.
Qed.

(** ** Properties *)

Section token_properties.
Context (b64_encode : list byte → list byte) (b64_decode : list byte → option (list byte)).
Hypothesis b64_roundtrip : ∀ bs, b64_decode (b64_encode bs) = Some bs.

(** A token verifies under a key exactly when that key gives the signature
    hash the token was issued with; so it verifies under its own key. *)
Theorem verify_encoded id sec noc now pid key :
  valid_utf8 id = true → valid_utf8 sec = true →
  verify_token b64_decode (encode_token b64_encode id sec noc now pid) key = true ↔
  simple_hash (token_raw id sec now pid ++ key) = simple_hash (token_raw id sec now pid ++ noc).
Proof.
  intros Hid Hsec. unfold verify_token, encode_token. rewrite b64_roundtrip, deobfuscate_obfuscate.
  set (raw := token_raw id sec now pid). set (sig := fmt_hex 16 _).
  pose proof (fmt_hex_digits 16 (simple_hash (raw ++ noc))) as Hsig.
  rewrite valid_utf8_app; [|by apply token_raw_utf8|].
  2:{ apply (valid_utf8_app [dot]); [done|]. apply valid_utf8_ascii.
      eapply Forall_impl; [exact Hsig|by intros ? []]. }
  change (raw ++ [dot] ++ sig) with (raw ++ dot :: sig). rewrite split_last_dot_app.
  2:{ intros Hin. rewrite Forall_forall in Hsig. by apply Hsig in Hin as []. }
  rewrite length_app. cbn [length].
  replace (length raw + S (length sig) - length sig - 1) with (length raw) by lia.
  rewrite take_app_length, bool_decide_eq_true. split; [|by intros ->].
  intros Heq%fmt_hex_inj; [done|apply simple_hash_lt..].
Qed.

(** What verifies under a key is the obfuscated text of some body, a dot
    and the hexadecimal hash of the body and the key; nothing else does. *)
Theorem verify_token_sound token key :
  verify_token b64_decode token key = true →
  ∃ body, b64_decode token = Some (obfuscate (body ++ [dot] ++ fmt_hex 16 (simple_hash (body ++ key))) 90%N).
Proof.
  unfold verify_token. destruct (b64_decode token) as [obf|]; [|done].
  case_match; [|done]. destruct (split_last_dot _) as [[pre sig]|] eqn:Hs; [|done].
  intros Hb%bool_decide_eq_true. apply split_last_dot_spec in Hs. exists pre. f_equal.
  assert (take (length (deobfuscate obf 90%N) - length sig - 1) (deobfuscate obf 90%N) = pre) as Ht.
  { rewrite Hs at 2. rewrite take_app_le, take_ge; [done|..]; rewrite Hs, length_app; simpl; lia. }
  rewrite Ht in Hb. rewrite <- Hb. change (pre ++ [dot] ++ sig) with (pre ++ dot :: sig). rewrite <- Hs.
  unfold obfuscate, deobfuscate. rewrite reverse_involutive, <- list_fmap_compose.
  rewrite (list_fmap_ext _ id); [by rewrite list_fmap_id|].
  intros i b _. simpl. by rewrite N.lxor_assoc, N.lxor_nilpotent, N.lxor_0_r.
Qed.
End token_properties.

Lemma verify_encoded_witness :
  verify_token Some (encode_token id (str "7") (str "s") NONCE 1700%N 42%N) NONCE = true ↔
  simple_hash (token_raw (str "7") (str "s") 1700%N 42%N ++ NONCE) =
  simple_hash (token_raw (str "7") (str "s") 1700%N 42%N ++ NONCE).
Proof. by apply (verify_encoded id Some (λ _, eq_refl)). Defined.

Lemma verify_token_sound_witness :
  ∃ body, Some (encode_token id (str "7") (str "s") NONCE 1700%N 42%N) =
    Some (obfuscate (body ++ [dot] ++ fmt_hex 16 (simple_hash (body ++ NONCE))) 90%N).
Proof.
  apply (verify_token_sound Some (encode_token id (str "7") (str "s") NONCE 1700%N 42%N) NONCE).
  vm_compute. done.
Defined.
