(* ===== verification/Crypto.v ===== *)
(** * Field ciphers (base/src/utils/crypto.rs)

    The ciphers, digests, base64 codecs and the random generator come from
    other crates: they are arguments here.  What the source adds is the
    framing: version byte, nonce or IV, and the checks on the way back. *)
From S2P Require Import Prelude Errors Bytes.

Definition BASE_STR : list byte := str "ABCDEFGHIJKLMNOPQRSTUVWXYZabcdefghijklmnopqrstuvwxyz0123456789".
Definition DEFAULT_KEY : list byte := str "1234567890All in Rust 1234567890".

(** [&v[a..b]] and [&v[a..]]; a range past the end panics. *)
Definition slice {A : Type} (a b : nat) (v : list A) : exec (list A) :=
  if (b <=? length v)%nat then Ret (take (b - a) (drop a v)) else Panic.
Definition slice_from {A : Type} (a : nat) (v : list A) : exec (list A) :=
  if (a <=? length v)%nat then Ret (drop a v) else Panic.

(** [String::from_utf8(v).hand_log(..)]. *)
Definition from_utf8 (v : list byte) : GlobalResult (list byte) :=
  if valid_utf8 v then Ok v else Err (SysErr "invalid utf-8 sequence").

(** [base64 .. decode(encoded).hand_log(..)]. *)
Definition decode_logged (b64_decode : list byte → option (list byte)) (encoded : list byte) :
    GlobalResult (list byte) :=
  match b64_decode encoded with
  | Some v => Ok v
  | None => Err (SysErr "base64")
  end.

(** ** AES-256-GCM *)

Section gcm.
Context {Cipher : Type}.
Context (b64_encode : list byte → list byte) (b64_decode : list byte → option (list byte)).
(** [Aes256Gcm::new_from_slice], [encrypt], [decrypt]. *)
Context (gcm_new : list byte → option Cipher).
Context (gcm_encrypt gcm_decrypt : Cipher → list byte → list byte → option (list byte)).

Definition from_base64_key_no_pad (encoded : list byte) : GlobalResult Cipher :=
  let? key := decode_logged b64_decode encoded in
  if negb (length key =? 32)%nat then Err (SysErr "AES-256-GCM key must decode to 32 bytes")
  else
    match gcm_new key with
    | Some cipher => Ok cipher
    | None => Err (SysErr "invalid AES-256-GCM key")
    end.

(** The fresh nonce is an argument. *)
Definition encrypt_to_base64_no_pad (cipher : Cipher) (nonce plaintext : list byte) :
    GlobalResult (list byte) :=
  match gcm_encrypt cipher nonce plaintext with
  | None => Err (SysErr "AES-256-GCM encrypt failed")
  | Some ciphertext => Ok (b64_encode ([1%N] ++ nonce ++ ciphertext))
  end.

Definition decrypt_from_base64_no_pad (cipher : Cipher) (encoded : list byte) :
    exec (GlobalResult (list byte)) :=
  match decode_logged b64_decode encoded with
  | Err e => Ret (Err e)
  | Ok payload =>
      if (length payload <? 1 + 12 + 16)%nat || negb (bool_decide (payload !! 0 = Some 1%N)) then
        Ret (Err (SysErr "invalid AES-256-GCM payload"))
      else
        nonce ← slice 1 13 payload;
        ciphertext ← slice_from 13 payload;
        match gcm_decrypt cipher nonce ciphertext with
        | None => Ret (Err (SysErr "AES-256-GCM decrypt failed"))
        | Some plaintext => Ret (from_utf8 plaintext)
        end
  end.

(** AES-GCM: decryption undoes encryption, the tag has 16 bytes; base64
    decoding undoes encoding. *)
Hypothesis gcm_roundtrip : ∀ c n p ct, gcm_encrypt c n p = Some ct → gcm_decrypt c n ct = Some p.
Hypothesis gcm_tag : ∀ c n p ct, gcm_encrypt c n p = Some ct → length ct = length p + 16.
Hypothesis b64_roundtrip : ∀ bs, b64_decode (b64_encode bs) = Some bs.

(** A field encrypted with a 12-byte nonce decrypts to the same text; the
    payload passes the length and version checks for every plaintext. *)
Theorem gcm_field_roundtrip cipher nonce plaintext encoded :
  length nonce = 12 → valid_utf8 plaintext = true →
  encrypt_to_base64_no_pad cipher nonce plaintext = Ok encoded →
  decrypt_from_base64_no_pad cipher encoded = Ret (Ok plaintext).
Proof.
  intros Hn Hp. unfold encrypt_to_base64_no_pad, decrypt_from_base64_no_pad.
  destruct (gcm_encrypt cipher nonce plaintext) as [ct|] eqn:He; [|done]. intros [= <-].
  pose proof (gcm_tag _ _ _ _ He) as Ht. unfold decode_logged. rewrite b64_roundtrip.
  change ([1%N] ++ nonce ++ ct) with (1%N :: nonce ++ ct).
  assert (Hlen : length (1%N :: nonce ++ ct) = 13 + length ct) by (simpl; rewrite length_app; lia).
  cbn beta iota. rewrite Hlen. destruct (Nat.ltb_spec (13 + length ct) (1 + 12 + 16)); [lia|].
  rewrite bool_decide_eq_true_2 by done. cbn [orb negb]. unfold slice, slice_from. rewrite Hlen.
  destruct (Nat.leb_spec 13 (13 + length ct)); [|lia]. cbn [mbind exec_bind].
  change (drop 1 (1%N :: nonce ++ ct)) with (nonce ++ ct).
  rewrite take_app_length' by lia. change (drop 13 (1%N :: nonce ++ ct)) with (drop 12 (nonce ++ ct)).
  rewrite drop_app_length' by lia. rewrite (gcm_roundtrip _ _ _ _ He). unfold from_utf8. by rewrite Hp.
Qed.

End gcm.

(** Decrypting a field never panics, whatever the encoded text is, and an
    [Ok] result is valid text that the cipher authenticated under the nonce
    of a version-1 payload. *)
Theorem gcm_decrypt_total {Cipher : Type} b64_decode
    (gcm_decrypt : Cipher → list byte → list byte → option (list byte)) cipher encoded :
  ∃ r, decrypt_from_base64_no_pad b64_decode gcm_decrypt cipher encoded = Ret r ∧
    ∀ text, r = Ok text → valid_utf8 text = true ∧ ∃ nonce ct,
      b64_decode encoded = Some ([1%N] ++ nonce ++ ct) ∧ length nonce = 12 ∧
      gcm_decrypt cipher nonce ct = Some text.
Proof.
  unfold decrypt_from_base64_no_pad, decode_logged.
  destruct (b64_decode encoded) as [payload|]; [|by eexists].
  destruct (Nat.ltb_spec (length payload) (1 + 12 + 16)) as [Hl|Hl]; [by eexists|].
  destruct payload as [|v payload]; [simpl in Hl; lia|].
  cbn [orb lookup list_lookup]. case_bool_decide as Hv; cbn [negb]; [|by eexists]. simplify_eq.
  unfold slice, slice_from. destruct (Nat.leb_spec 13 (length (1%N :: payload))); [|lia].
  cbn [mbind exec_bind]. change (drop 1 (1%N :: payload)) with payload.
  change (drop 13 (1%N :: payload)) with (drop 12 payload). change (13 - 1) with 12.
  destruct (gcm_decrypt _ _ _) as [p|] eqn:Hd; [|by eexists]. eexists. split; [done|].
  intros text. unfold from_utf8. case_match; [|done]. intros [= <-]. split; [done|].
  exists (take 12 payload), (drop 12 payload). cbn [app]. rewrite take_drop.
  split_and!; [done| |done]. rewrite length_take. simpl in Hl. lia.
Qed.

(** ** AES-256-CBC with a random alphanumeric IV *)

Section cbc.
Context {Cipher : Type}.
Context (b64_encode : list byte → list byte) (b64_decode : list byte → option (list byte)).
(** [AesCbc::new_from_slices], [encrypt_vec], [decrypt_vec]. *)
Context (cbc_new : list byte → list byte → option Cipher).
Context (cbc_encrypt : Cipher → list byte → list byte).
Context (cbc_decrypt : Cipher → list byte → option (list byte)).

(** [gen_ascii_chars]: the random choice of bytes of [BASE_STR] is an argument. *)
Definition gen_ascii_chars (choose_multiple : list byte → nat → list byte) (size : nat) :
    GlobalResult (list byte) :=
  from_utf8 (choose_multiple BASE_STR size).

Definition encrypt (choose_multiple : list byte → nat → list byte) (key data : list byte) :
    GlobalResult (list byte) :=
  let? iv := gen_ascii_chars choose_multiple 16 in
  match cbc_new key iv with
  | None => Err (SysErr "Invalid key iv length")
  | Some cipher => Ok (b64_encode (iv ++ cbc_encrypt cipher data))
  end.

Definition decrypt (key data : list byte) : exec (GlobalResult (list byte)) :=
  match decode_logged b64_decode data with
  | Err e => Ret (Err e)
  | Ok bytes =>
      iv ← slice 0 16 bytes;
      match cbc_new key iv with
      | None => Ret (Err (SysErr "Invalid key iv length"))
      | Some cipher =>
          ct ← slice_from 16 bytes;
          match cbc_decrypt cipher ct with
          | None => Ret (Err (SysErr "BlockModeError"))
          | Some plain => Ret (from_utf8 plain)
          end
      end
  end.

Definition default_encrypt choose_multiple (data : list byte) := encrypt choose_multiple DEFAULT_KEY data.
Definition default_decrypt (data : list byte) := decrypt DEFAULT_KEY data.

Hypothesis cbc_roundtrip : ∀ k iv c c' p, cbc_new k iv = Some c → cbc_new k iv = Some c' →
  cbc_decrypt c' (cbc_encrypt c p) = Some p.
Hypothesis b64_roundtrip : ∀ bs, b64_decode (b64_encode bs) = Some bs.

(** Text encrypted under a key decrypts to itself under the same key, when
    the generator picked the 16 characters asked for. *)
Theorem cbc_roundtrip_text choose_multiple key data encoded :
  length (choose_multiple BASE_STR 16) = 16 → valid_utf8 data = true →
  encrypt choose_multiple key data = Ok encoded →
  decrypt key encoded = Ret (Ok data).
Proof.
  intros Hc Hd. unfold encrypt, decrypt, gen_ascii_chars, from_utf8.
  set (iv := choose_multiple BASE_STR 16) in *. case_match; [|done]. simpl.
  destruct (cbc_new key iv) as [c|] eqn:Hn; [|done]. intros [= <-].
  unfold decode_logged. rewrite b64_roundtrip. unfold slice, slice_from. rewrite length_app, Hc.
  destruct (Nat.leb_spec 16 (16 + length (cbc_encrypt c data))); [|lia].
  cbn [mbind exec_bind]. rewrite drop_0, take_app_length' by done. rewrite Hn.
  rewrite drop_app_length' by done. rewrite (cbc_roundtrip key iv c c data Hn Hn). by rewrite Hd.
Qed.

End cbc.

(** ** Digests *)

Section digests.
Context (sha256 : list byte → list byte).
(** [Hmac::new_from_slice] (any key length is accepted, but the signature
    allows a refusal) and the tag of the concatenated updates. *)
Context {Mac : Type} (mac_new : list byte → option Mac) (mac_update : Mac → list byte → Mac)
  (mac_finalize : Mac → list byte).

Definition hmac_sha256_hex (secret : list byte) (parts : list (list byte)) : GlobalResult (list byte) :=
  match mac_new secret with
  | None => Err (SysErr "Invalid Length")
  | Some mac => Ok (hex_encode (mac_finalize (foldl mac_update mac parts)))
  end.

Definition generate_token (input : list byte) : exec (list byte) :=
  r ← slice 0 16 (sha256 input); Ret (hex_encode r).
End digests.

(** ** Witnesses and observations *)

Module CryptoExample.
(** A transparent cipher with a 16-byte tag, for the hypotheses. *)
Definition tag : list byte := replicate 16 7%N.
Definition enc (_ : unit) (_ p : list byte) : option (list byte) := Some (p ++ tag).
Definition dec (_ : unit) (_ ct : list byte) : option (list byte) := Some (take (length ct - 16) ct).

Lemma dec_enc c n p ct : enc c n p = Some ct → dec c n ct = Some p ∧ length ct = length p + 16.
Proof.
  intros [= <-]. unfold dec. rewrite length_app. simpl. split; [|done].
  rewrite Nat.add_sub. by rewrite take_app_length.
Qed.
End CryptoExample.

Lemma gcm_field_roundtrip_witness :
  decrypt_from_base64_no_pad Some CryptoExample.dec ()
    ([1%N] ++ replicate 12 9%N ++ str "secret" ++ CryptoExample.tag) = Ret (Ok (str "secret")).
Proof.
  apply (gcm_field_roundtrip id Some (λ _, Some ()) CryptoExample.enc CryptoExample.dec
    (λ c n p ct H, proj1 (CryptoExample.dec_enc c n p ct H))
    (λ c n p ct H, proj2 (CryptoExample.dec_enc c n p ct H)) (λ _, eq_refl)
    () (replicate 12 9%N) (str "secret")); reflexivity.
Defined.

Lemma cbc_roundtrip_text_witness :
  decrypt Some (λ _ _, Some ()) (λ _ ct, Some ct) DEFAULT_KEY (take 16 BASE_STR ++ str "data") =
  Ret (Ok (str "data")).
Proof.
  apply (cbc_roundtrip_text id Some (λ _ _, Some ()) (λ _ p, p) (λ _ ct, Some ct)
    (λ _ _ _ _ _ _ _, eq_refl) (λ _, eq_refl) (λ l n, take n l) DEFAULT_KEY (str "data")); reflexivity.
Defined.

(** [decrypt] panics, rather than answer an error, on encoded text that
    decodes to fewer than 16 bytes. *)
Example cbc_decrypt_panics :
  decrypt (Cipher:=unit) Some (λ _ _, Some ()) (λ _ ct, Some ct) DEFAULT_KEY (str "short") = Panic.
Proof. reflexivity. Qed.

(** The token of a 32-byte digest has 32 hexadecimal characters. *)
Example generate_token_length (sha256 : list byte → list byte) input :
  length (sha256 input) = 32 →
  returns (generate_token sha256 input) (λ t, length t = 32).
Proof.
  intros Hl. unfold generate_token, slice. rewrite Hl. cbn. rewrite drop_0.
  destruct (sha256 input) as [|b l]; [done|]. do 15 (destruct l as [|? l]; [done|]). reflexivity.
Qed.
