(* ===== verification/TtlCache.v ===== *)
(** * The shared cache with time-to-live (base/src/cache/mod.rs)

    Clients change a concurrent map and tell a worker about it through an
    unbounded command queue; the worker owns the timers and evicts the keys
    whose timer fires, handing the values to a bounded queue of expiry
    callbacks.  An insert changes the map and then sends its command, a
    remove sends its command and then changes the map, without a lock around
    the two: each is two steps here, and other clients' steps come between.
    A refresh holds its entry of the map while it sends, and is one.  The
    timers are tokio's [DelayQueue], known here by the interface
    [DelayQueue] alone. *)
From S2P Require Import Prelude.

(** ** The interface of the timer queue

    [dq_items] is what the queue holds: the key and deadline of each token.
    Removing or resetting a token that is not there panics, as documented. *)
Class DelayQueue (Q Tok : Type) `{Countable Tok} := {
  dq_new : Q;
  dq_items : Q → gmap Tok (string * N);
  dq_insert : Q → string → N → Q * Tok;
  dq_remove : Q → Tok → exec Q;
  dq_reset : Q → Tok → N → exec Q;
  dq_next : Q → N → option (string * Q);
}.

Class DelayQueueLaws (Q Tok : Type) `{DelayQueue Q Tok} : Prop := {
  dq_new_items : dq_items (dq_new (Q:=Q)) = ∅;
  dq_insert_items q k d :
    dq_items q !! (dq_insert q k d).2 = None ∧
    dq_items (dq_insert q k d).1 = <[(dq_insert q k d).2 := (k, d)]> (dq_items q);
  dq_remove_items q t x :
    dq_items q !! t = Some x → ∃ q', dq_remove q t = Ret q' ∧ dq_items q' = delete t (dq_items q);
  dq_reset_items q t k d d' :
    dq_items q !! t = Some (k, d) →
    ∃ q', dq_reset q t d' = Ret q' ∧ dq_items q' = <[t := (k, d')]> (dq_items q);
  dq_next_items q now k q' :
    dq_next q now = Some (k, q') →
    ∃ t d, dq_items q !! t = Some (k, d) ∧ (d ≤ now)%N ∧ dq_items q' = delete t (dq_items q);
}.

(** Callback queue and concurrent callbacks allowed. *)
Definition CALL_CAPACITY : nat := N.to_nat 10000.
Definition CALL_PERMITS : nat := 100.
#[global] Arguments CALL_CAPACITY : simpl never.
#[global] Arguments CALL_PERMITS : simpl never.

Section cache.
Context {V : Type} (expire_ttl : V → option N).
Context {Q Tok : Type} `{DelayQueue Q Tok}.

Inductive DelayCommand :=
  | DInsert (key : string) (ttl : option N)
  | DRemove (key : string)
  | DRefresh (key : string) (ttl : N).

(** The second half of a client's call that is under way: an insert has
    changed the map and has to send, a remove has sent and has to change the
    map. *)
Inductive Pending :=
  | PSend (key : string) (ttl : option N)
  | PUnmap (key : string).
Definition pending_key (p : Pending) : string :=
  match p with PSend key _ | PUnmap key => key end.

Record State := mkState {
  map : gmap string V;
  cmds : list DelayCommand;
  key_map : gmap string Tok;
  delay_queue : Q;
  calls : list V;          (* the queue of [call_tx] *)
  held : option V;         (* received by the callback worker, awaiting a permit *)
  running : nat;           (* permits in use *)
  called : list V;         (* values whose callback was started *)
  now : N;
  alive : bool;            (* the delay-queue worker still reads its commands *)
  calling : bool;          (* the callback worker still reads its queue *)
  pending : list Pending;
}.

Definition init : State := mkState ∅ [] ∅ dq_new [] None 0 [] 0 true true [].

Definition set_map (m : gmap string V) s : State :=
  mkState m (cmds s) (key_map s) (delay_queue s) (calls s) (held s) (running s) (called s) (now s)
    (alive s) (calling s) (pending s).
Definition set_cmds (cs : list DelayCommand) s : State :=
  mkState (map s) cs (key_map s) (delay_queue s) (calls s) (held s) (running s) (called s) (now s)
    (alive s) (calling s) (pending s).
Definition set_timers (km : gmap string Tok) (q : Q) s : State :=
  mkState (map s) (cmds s) km q (calls s) (held s) (running s) (called s) (now s)
    (alive s) (calling s) (pending s).
Definition set_calls (cs : list V) (h : option V) (r : nat) (cd : list V) s : State :=
  mkState (map s) (cmds s) (key_map s) (delay_queue s) cs h r cd (now s)
    (alive s) (calling s) (pending s).
Definition set_now (t : N) s : State :=
  mkState (map s) (cmds s) (key_map s) (delay_queue s) (calls s) (held s) (running s) (called s) t
    (alive s) (calling s) (pending s).
Definition set_pending (ps : list Pending) s : State :=
  mkState (map s) (cmds s) (key_map s) (delay_queue s) (calls s) (held s) (running s) (called s) (now s)
    (alive s) (calling s) ps.

(** ** What clients do *)

(** [cmd_tx.send]; an error (the worker is gone) is logged and dropped. *)
Definition send (c : DelayCommand) s : State :=
  if alive s then set_cmds (cmds s ++ [c]) s else s.

Definition contains_key s (key : string) : bool := bool_decide (is_Some (map s !! key)).
Definition get s (key : string) : option V := map s !! key.

(** [insert] up to the end of [map.insert]; its [send] is left. *)
Definition insert_map s (key : string) (value : V) : State :=
  set_pending (PSend key (expire_ttl value) :: pending s) (set_map (<[key := value]> (map s)) s).
(** [remove] up to the end of its [send]; [map.remove] is left. *)
Definition remove_send s (key : string) : State :=
  set_pending (PUnmap key :: pending s) (send (DRemove key) s).
(** The second halves; a remove returns what [map.remove] finds. *)
Definition insert_send s (key : string) (ttl : option N) : State := send (DInsert key ttl) s.
Definition remove_map s (key : string) : State * option V :=
  (set_map (delete key (map s)) s, map s !! key).
Definition complete (p : Pending) s : State :=
  match p with
  | PSend key ttl => insert_send s key ttl
  | PUnmap key => (remove_map s key).1
  end.

(** A call that no other step comes between. *)
Definition cache_insert s (key : string) (value : V) : State :=
  insert_send (set_pending (pending s) (insert_map s key value)) key (expire_ttl value).
Definition cache_remove s (key : string) : State * option V :=
  remove_map (set_pending (pending s) (remove_send s key)) key.

Definition cache_refresh s (key : string) : State :=
  match map s !! key with
  | Some value =>
      match expire_ttl value with Some ttl => send (DRefresh key ttl) s | None => s end
  | None => s
  end.

(** ** What the delay-queue worker does *)

Definition on_command s (c : DelayCommand) : exec State :=
  match c with
  | DInsert key None =>
      match key_map s !! key with
      | Some token =>
          q ← dq_remove (delay_queue s) token; Ret (set_timers (delete key (key_map s)) q s)
      | None => Ret s
      end
  | DInsert key (Some ttl) =>
      match key_map s !! key with
      | Some token =>
          q ← dq_reset (delay_queue s) token (now s + ttl)%N; Ret (set_timers (key_map s) q s)
      | None =>
          let '(q, token) := dq_insert (delay_queue s) key (now s + ttl)%N in
          Ret (set_timers (<[key := token]> (key_map s)) q s)
      end
  | DRemove key =>
      match key_map s !! key with
      | Some k => q ← dq_remove (delay_queue s) k; Ret (set_timers (delete key (key_map s)) q s)
      | None => Ret s
      end
  | DRefresh key ttl =>
      match key_map s !! key with
      | Some k =>
          q ← dq_reset (delay_queue s) k (now s + ttl)%N; Ret (set_timers (key_map s) q s)
      | None => Ret s
      end
  end.

(** The branch [Some(cmd) = cmd_rx.recv()]; [None] when the queue is empty. *)
Definition recv_command s : option (exec State) :=
  match cmds s with
  | c :: rest =>
      Some (on_command (set_cmds rest s) c)
  | [] => None
  end.

(** [call_tx.try_send(value)]: a full queue, or one nobody reads, drops the
    value, with a log. *)
Definition queue_call (value : V) s : State :=
  if calling s && (length (calls s) <? CALL_CAPACITY)%nat then
    set_calls (calls s ++ [value]) (held s) (running s) (called s) s
  else s.

(** The branch [Some(expired) = delay_queue.next()]. *)
Definition expire_next s : option State :=
  match dq_next (delay_queue s) (now s) with
  | Some (key, q) =>
      let s := set_timers (delete key (key_map s)) q s in
      Some (match map s !! key with
            | Some value => queue_call value (set_map (delete key (map s)) s)
            | None => s
            end)
  | None => None
  end.

(** The worker leaves its loop: everything is cleared, commands are lost. *)
Definition cancel_worker s : State :=
  mkState ∅ [] ∅ dq_new (calls s) (held s) (running s) (called s) (now s) false (calling s) (pending s).

(** ** What the callback worker does *)

(** [call_rx.recv()]: the value has left the queue before its permit is there. *)
Definition recv_call s : option State :=
  if calling s then
    match held s, calls s with
    | None, v :: rest => Some (set_calls rest (Some v) (running s) (called s) s)
    | _, _ => None
    end
  else None.

(** [acquire_owned] comes back: the callback is spawned. *)
Definition start_call s : option State :=
  match held s with
  | Some v =>
      if (running s <? CALL_PERMITS)%nat then Some (set_calls (calls s) None (S (running s)) (called s ++ [v]) s)
      else None
  | None => None
  end.

(** A callback ends or panics: its permit is given back. *)
Definition end_call s : option State :=
  match running s with
  | S n => Some (set_calls (calls s) (held s) n (called s) s)
  | O => None
  end.

(** The callback worker leaves its loop; the queued values are dropped. *)
Definition stop_calls s : option State :=
  match held s with
  | None =>
      Some (mkState (map s) (cmds s) (key_map s) (delay_queue s) [] None (running s) (called s) (now s)
              (alive s) false (pending s))
  | Some _ => None
  end.

(** Interleavings of client calls, the two workers and time.  The label is
    the key whose insert or remove the step begins. *)
Inductive step s : option string → exec State → Prop :=
  | step_insert key value : step s (Some key) (Ret (insert_map s key value))
  | step_remove key : step s (Some key) (Ret (remove_send s key))
  | step_complete l1 p l2 : pending s = l1 ++ p :: l2 →
      step s None (Ret (complete p (set_pending (l1 ++ l2) s)))
  | step_refresh key : step s None (Ret (cache_refresh s key))
  | step_command r : alive s = true → recv_command s = Some r → step s None r
  | step_expire s' : alive s = true → expire_next s = Some s' → step s None (Ret s')
  | step_cancel : alive s = true → step s None (Ret (cancel_worker s))
  | step_receive s' : recv_call s = Some s' → step s None (Ret s')
  | step_call s' : start_call s = Some s' → step s None (Ret s')
  | step_done s' : end_call s = Some s' → step s None (Ret s')
  | step_stop s' : stop_calls s = Some s' → step s None (Ret s')
  | step_time t : (now s ≤ t)%N → step s None (Ret (set_now t s)).

Inductive reachable : State → Prop :=
  | reach_init : reachable init
  | reach_step s l s' : reachable s → step s l (Ret s') → reachable s'.

(** The inserts and removes of a key that are under way. *)
Definition on_key (k : string) s : list Pending := filter (λ p, pending_key p = k) (pending s).

(** Reached without two inserts or removes of [k] overlapping; those of other
    keys may. *)
Inductive exclusive (k : string) : State → Prop :=
  | excl_init : exclusive k init
  | excl_step s l s' : exclusive k s → (l = Some k → on_key k s = []) → step s l (Ret s') → exclusive k s'.

(** ** Invariant *)

(** Whether key [k] will have a timer once [cs] is processed. *)
Fixpoint timer_after (cs : list DelayCommand) (k : string) (b : bool) : bool :=
  match cs with
  | [] => b
  | DInsert key ttl :: cs =>
      timer_after cs k (if decide (key = k) then bool_decide (is_Some ttl) else b)
  | DRemove key :: cs => timer_after cs k (if decide (key = k) then false else b)
  | DRefresh _ _ :: cs => timer_after cs k b
  end.

Definition has_timer s (k : string) : bool := bool_decide (is_Some (key_map s !! k)).

Record inv s : Prop := {
  inv_tokens : ∀ k t, key_map s !! k = Some t ↔ ∃ d, dq_items (delay_queue s) !! t = Some (k, d);
  inv_calls : length (calls s) ≤ CALL_CAPACITY;
  inv_running : running s ≤ CALL_PERMITS;
}.

(** For a key whose calls do not overlap: between them the queued commands
    lead to the timer its value asks for; in an insert the command that will
    is still to be sent; in a remove the value is about to go. *)
Definition key_inv (k : string) s : Prop := alive s = true →
  match on_key k s with
  | [] => ∀ v, map s !! k = Some v →
      timer_after (cmds s) k (has_timer s k) = bool_decide (is_Some (expire_ttl v))
  | [PSend _ ttl] => ∀ v, map s !! k = Some v → ttl = expire_ttl v
  | [PUnmap _] => True
  | _ => False
  end.

Lemma timer_after_app cs cs' k b : timer_after (cs ++ cs') k b = timer_after cs' k (timer_after cs k b).
Proof. revert b. induction cs as [|[] cs IH]; intros b; simpl; auto. Qed.

Context `{!DelayQueueLaws Q Tok}.

Definition tokens (km : gmap string Tok) (q : Q) : Prop :=
  ∀ k t, km !! k = Some t ↔ ∃ d, dq_items q !! t = Some (k, d).

Lemma tokens_remove km q k t :
  tokens km q → km !! k = Some t →
  ∃ q', dq_remove q t = Ret q' ∧ tokens (delete k km) q'.
Proof.
  intros Ht Hk. destruct (proj1 (Ht k t) Hk) as [d Hd].
  destruct (dq_remove_items q t _ Hd) as (q' & Hq & Hi). exists q'. split; [done|].
  intros k' t'. rewrite lookup_delete_Some, Hi. setoid_rewrite lookup_delete_Some. rewrite (Ht k' t').
  split.
  - intros (Hne & d' & Hd'). exists d'. split; [|done]. intros <-. congruence.
  - intros (d' & Hne & Hd'). split; [|by eexists]. intros <-.
    assert (km !! k = Some t') by (apply Ht; by eexists). congruence.
Qed.

Lemma tokens_reset km q k t d :
  tokens km q → km !! k = Some t → ∃ q', dq_reset q t d = Ret q' ∧ tokens km q'.
Proof.
  intros Ht Hk. destruct (proj1 (Ht k t) Hk) as [d0 Hd].
  destruct (dq_reset_items q t k d0 d Hd) as (q' & Hq & Hi). exists q'. split; [done|].
  intros k' t'. rewrite Hi, (Ht k' t'). destruct (decide (t = t')) as [<-|Hne].
  - rewrite lookup_insert_eq, Hd. naive_solver.
  - by rewrite lookup_insert_ne.
Qed.

Lemma tokens_insert km q k d :
  tokens km q → km !! k = None → tokens (<[k := (dq_insert q k d).2]> km) (dq_insert q k d).1.
Proof.
  intros Ht Hk k' t'. destruct (dq_insert_items q k d) as [Hf ->]. set (t := (dq_insert q k d).2) in *.
  destruct (decide (t = t')) as [<-|Hne].
  - rewrite lookup_insert_eq. destruct (decide (k = k')) as [<-|Hnk].
    + rewrite lookup_insert_eq. naive_solver.
    + rewrite lookup_insert_ne, (Ht k' t) by done. rewrite Hf. naive_solver.
  - rewrite (lookup_insert_ne (dq_items q)), <- (Ht k' t') by done. destruct (decide (k = k')) as [<-|Hnk].
    + rewrite lookup_insert_eq, Hk. naive_solver.
    + by rewrite lookup_insert_ne.
Qed.

Lemma on_command_spec s c :
  tokens (key_map s) (delay_queue s) →
  ∃ km q, on_command s c = Ret (set_timers km q s) ∧ tokens km q ∧
    ∀ k, bool_decide (is_Some (km !! k)) = timer_after [c] k (has_timer s k).
Proof.
  intros Ht. unfold has_timer.
  assert (Hdel : ∀ key t, key_map s !! key = Some t → ∃ km q,
    (q ← dq_remove (delay_queue s) t; Ret (set_timers (delete key (key_map s)) q s)) = Ret (set_timers km q s) ∧
    tokens km q ∧ ∀ k, bool_decide (is_Some (km !! k)) =
      if decide (key = k) then false else bool_decide (is_Some (key_map s !! k))).
  { intros key t Hk. destruct (tokens_remove _ _ key t Ht Hk) as (q & -> & Hq).
    exists (delete key (key_map s)), q. split_and!; [done..|]. intros k. case_decide as Hd.
    - subst. rewrite lookup_delete_eq. by apply bool_decide_eq_false_2; intros [].
    - by rewrite lookup_delete_ne. }
  assert (Hres : ∀ key t d, key_map s !! key = Some t → ∃ km q,
    (q ← dq_reset (delay_queue s) t d; Ret (set_timers (key_map s) q s)) = Ret (set_timers km q s) ∧
    tokens km q ∧ km = key_map s).
  { intros key t d Hk. destruct (tokens_reset _ _ key t d Ht Hk) as (q & -> & Hq).
    by exists (key_map s), q. }
  assert (Hsame : set_timers (key_map s) (delay_queue s) s = s) by by destruct s.
  destruct c as [key [ttl|]|key|key ttl]; cbn [on_command timer_after];
    destruct (key_map s !! key) as [t|] eqn:Hk.
  - destruct (Hres key t (now s + ttl)%N Hk) as (km & q & -> & Hq & ->). exists (key_map s), q.
    split_and!; [done..|]. intros k. case_decide; [|done]. subst. by rewrite Hk.
  - destruct (dq_insert _ key _) as [q t] eqn:Hi. exists (<[key := t]> (key_map s)), q.
    pose proof (tokens_insert _ _ key (now s + ttl)%N Ht Hk) as Hq. rewrite Hi in Hq.
    split_and!; [done..|]. intros k. case_decide as Hd.
    + subst. by rewrite lookup_insert_eq.
    + by rewrite lookup_insert_ne.
  - by destruct (Hdel key t Hk) as (km & q & -> & Hq & Hkm); eauto.
  - exists (key_map s), (delay_queue s). rewrite Hsame. split_and!; [done..|].
    intros k. case_decide; [|done]. subst. by rewrite Hk.
  - by destruct (Hdel key t Hk) as (km & q & -> & Hq & Hkm); eauto.
  - exists (key_map s), (delay_queue s). rewrite Hsame. split_and!; [done..|].
    intros k. case_decide; [|done]. subst. by rewrite Hk.
  - by destruct (Hres key t (now s + ttl)%N Hk) as (km & q & -> & Hq & ->); eauto.
  - by exists (key_map s), (delay_queue s); rewrite Hsame.
Qed.

Lemma send_inv c s : inv s → inv (send c s).
Proof. intros [Ht Hc Hr]. unfold send. by destruct (alive s). Qed.

Lemma complete_inv p s : inv s → inv (complete p s).
Proof. intros Hi. destruct p as [key ttl|key]; [by apply send_inv|by destruct Hi]. Qed.

Lemma refresh_inv s key : inv s → inv (cache_refresh s key).
Proof.
  intros Hi. unfold cache_refresh. destruct (map s !! key) as [value|]; [|done].
  destruct (expire_ttl value) as [ttl|]; [|done]. by apply send_inv.
Qed.

(** A command changes the timers alone. *)
Lemma recv_command_spec s r :
  inv s → recv_command s = Some r →
  ∃ c rest km q, cmds s = c :: rest ∧ r = Ret (set_timers km q (set_cmds rest s)) ∧ tokens km q ∧
    ∀ k, bool_decide (is_Some (km !! k)) = timer_after [c] k (has_timer s k).
Proof.
  intros [Ht _ _]. unfold recv_command. destruct (cmds s) as [|c rest] eqn:Hcs; [done|]. intros [= <-].
  destruct (on_command_spec (set_cmds rest s) c Ht) as (km & q & -> & Hq & Htm).
  by exists c, rest, km, q.
Qed.

Lemma command_inv s r : inv s → recv_command s = Some r → returns r inv.
Proof.
  intros Hi Hr. destruct (recv_command_spec s r Hi Hr) as (c & rest & km & q & _ & -> & Hq & _).
  destruct Hi as [_ Hc Hrun]. by split.
Qed.

(** What the expiry of a key does to the state. *)
Lemma expire_next_spec s s' :
  inv s → expire_next s = Some s' →
  ∃ key t d, key_map s !! key = Some t ∧ dq_items (delay_queue s) !! t = Some (key, d) ∧
    (d ≤ now s)%N ∧ tokens (key_map s') (delay_queue s') ∧
    map s' = delete key (map s) ∧ key_map s' = delete key (key_map s) ∧
    cmds s' = cmds s ∧ running s' = running s ∧ alive s' = alive s ∧ pending s' = pending s ∧
    calls s' = calls s ++ match map s !! key with
                          | Some v => if calling s && (length (calls s) <? CALL_CAPACITY)%nat then [v] else []
                          | None => [] end.
Proof.
  intros [Ht Hc Hr]. unfold expire_next. destruct (dq_next _ _) as [[key q]|] eqn:Hn; [|done].
  intros [= <-]. destruct (dq_next_items _ _ _ _ Hn) as (t & d & Hd & Hle & Hq).
  assert (Hk : key_map s !! key = Some t) by (apply Ht; by eexists).
  assert (Htok : tokens (delete key (key_map s)) q).
  { intros k' t'. rewrite lookup_delete_Some, Hq. setoid_rewrite lookup_delete_Some. split.
    - intros (Hne & (d' & Hd')%(Ht k' t')). exists d'. split; [|done]. intros <-. congruence.
    - intros (d' & Hne & Hd'). assert (key_map s !! k' = Some t') as Hk' by (apply Ht; by eexists).
      split; [|done]. intros <-. congruence. }
  exists key, t, d. split; [done|]. split; [done|]. split; [done|].
  cbn [map set_timers]. destruct (map s !! key) as [v|] eqn:Hv.
  - unfold queue_call. cbn [calls calling set_map set_timers].
    destruct (calling s && _)%nat; simpl; rewrite ?app_nil_r; split_and!; done.
  - simpl. rewrite app_nil_r, (delete_id (map s)) by done. by split_and!.
Qed.

Lemma expire_inv s s' : inv s → expire_next s = Some s' → inv s'.
Proof.
  intros Hi He. pose proof (expire_next_spec s s' Hi He) as (key & t & d & _ & _ & _ & Ht & Hm & Hk & Hcs & Hr & Ha & _ & Hc).
  split.
  - exact Ht.
  - rewrite Hc, length_app. pose proof (inv_calls _ Hi). destruct (map s !! key); simpl; [|lia].
    destruct (calling s); simpl; [|lia].
    destruct (Nat.ltb_spec (length (calls s)) CALL_CAPACITY); simpl; lia.
  - rewrite Hr. apply Hi.
Qed.

Lemma init_inv : inv init.
Proof.
  split; simpl; try done; try lia.
  intros k t. rewrite lookup_empty, dq_new_items. setoid_rewrite lookup_empty. naive_solver.
Qed.

(** The callback worker's steps touch nothing the timers depend on. *)
Definition same_cache s s' : Prop :=
  map s' = map s ∧ cmds s' = cmds s ∧ key_map s' = key_map s ∧ delay_queue s' = delay_queue s ∧
  alive s' = alive s ∧ pending s' = pending s.
Definition call_step s s' : Prop :=
  recv_call s = Some s' ∨ start_call s = Some s' ∨ end_call s = Some s' ∨ stop_calls s = Some s'.

Lemma call_step_spec s s' : call_step s s' →
  same_cache s s' ∧ length (calls s') ≤ length (calls s) ∧ (running s ≤ CALL_PERMITS → running s' ≤ CALL_PERMITS).
Proof.
  unfold call_step, recv_call, start_call, end_call, stop_calls. intros [H'|[H'|[H'|H']]].
  - destruct (calling s), (held s), (calls s); simplify_eq. simpl. by split_and!; [|lia|].
  - destruct (held s); [|done]. destruct (Nat.ltb_spec (running s) CALL_PERMITS); simplify_eq.
    simpl. by split_and!; [|lia|lia].
  - destruct (running s) as [|n] eqn:Hn; simplify_eq. simpl. by split_and!; [|lia|lia].
  - destruct (held s); simplify_eq. simpl. by split_and!; [|lia|].
Qed.

Lemma call_step_inv s s' : inv s → call_step s s' → inv s'.
Proof.
  intros [Ht Hc Hr] ((_ & _ & Hk & Hd & _) & Hl & Hrun)%call_step_spec.
  split; [by rewrite Hk, Hd|lia|by apply Hrun].
Qed.

Lemma step_inv s l r : inv s → step s l r → returns r inv.
Proof.
  intros Hi. destruct 1 as [key value|key|l1 p l2 Hp|key|r Ha Hr|s' Ha He|Ha|s' Hc|s' Hc|s' Hc|s' Hc|t Ht]; simpl.
  - by destruct Hi.
  - unfold remove_send. pose proof (send_inv (DRemove key) s Hi) as []. by split.
  - apply complete_inv. by destruct Hi.
  - by apply refresh_inv.
  - by eapply command_inv.
  - by eapply expire_inv.
  - destruct Hi as [_ Hc Hr], init_inv as [Ht _ _]. by split.
  - eapply call_step_inv; [done|]. by left.
  - eapply call_step_inv; [done|]. by right; left.
  - eapply call_step_inv; [done|]. by right; right; left.
  - eapply call_step_inv; [done|]. by right; right; right.
  - by destruct Hi.
Qed.

Lemma reachable_inv s : reachable s → inv s.
Proof. induction 1 as [|s l s' _ IH Hs]; [apply init_inv|]. by apply (step_inv s l (Ret s')) in IH. Qed.

Lemma exclusive_reachable k s : exclusive k s → reachable s.
Proof. induction 1; [apply reach_init|by eapply reach_step]. Qed.

(** ** The timers of a key whose calls do not overlap *)

Lemma on_key_cons k p s ps : pending s = p :: ps →
  on_key k s = if decide (pending_key p = k) then p :: filter (λ p, pending_key p = k) ps
               else filter (λ p, pending_key p = k) ps.
Proof. unfold on_key. intros ->. by rewrite filter_cons. Qed.

Lemma on_key_mid k l1 p l2 s : pending s = l1 ++ p :: l2 →
  on_key k s = filter (λ p, pending_key p = k) l1 ++
    (if decide (pending_key p = k) then [p] else []) ++ filter (λ p, pending_key p = k) l2.
Proof. unfold on_key. intros ->. rewrite filter_app, filter_cons. by destruct (decide _). Qed.

(** What [key_inv] looks at. *)
Lemma key_inv_same k s s' :
  key_inv k s → (alive s' = true → alive s = true) → on_key k s' = on_key k s →
  (∀ v, map s' !! k = Some v → map s !! k = Some v) →
  (∀ v, map s' !! k = Some v →
    timer_after (cmds s') k (has_timer s' k) = timer_after (cmds s) k (has_timer s k)) →
  key_inv k s'.
Proof.
  unfold key_inv. intros Hk Ha Hp Hm Ht Ha'. specialize (Hk (Ha Ha')). rewrite Hp.
  destruct (on_key k s) as [|[key ttl|key] [|]]; try done.
  - intros v Hv. rewrite (Ht v Hv). by apply Hk, Hm.
  - intros v Hv. by apply Hk, Hm.
Qed.

Lemma send_key_inv k c s : key_inv k s → (∀ b, timer_after [c] k b = b) → key_inv k (send c s).
Proof.
  intros Hk Hc. unfold send. destruct (alive s) eqn:Ha; [|done].
  apply (key_inv_same k s); [done..|]. simpl. intros v _. by rewrite timer_after_app, Hc.
Qed.

Lemma complete_key_inv k p s l1 l2 : pending s = l1 ++ p :: l2 →
  key_inv k s → key_inv k (complete p (set_pending (l1 ++ l2) s)).
Proof.
  intros Hp Hk. pose proof (on_key_mid k l1 p l2 s Hp) as Hon.
  assert (Hon' : on_key k (set_pending (l1 ++ l2) s) =
    filter (λ p, pending_key p = k) l1 ++ filter (λ p, pending_key p = k) l2) by apply filter_app.
  set (s0 := set_pending (l1 ++ l2) s) in *. destruct (decide (pending_key p = k)) as [Heq|Hne].
  - unfold key_inv in Hk. rewrite Hon in Hk.
    assert (Ha : alive (complete p s0) = alive s).
    { destruct p; simpl; [unfold insert_send, send; by destruct (alive s0) eqn:?|done]. }
    intros Ha'. rewrite Ha in Ha'. specialize (Hk Ha').
    destruct (filter _ l1) as [|? [|]] eqn:H1, (filter _ l2) as [|? [|]] eqn:H2; simpl in Hk, Hon';
      try (by destruct p); try (by case_match; case_match).
    destruct p as [key ttl|key]; simpl in Heq; subst key; simpl.
    + unfold insert_send, send. change (alive s0) with (alive s). rewrite Ha'.
      change (on_key k (set_cmds _ s0)) with (on_key k s0). rewrite Hon'. intros v Hv.
      simpl. rewrite timer_after_app. simpl. rewrite decide_True by done. by rewrite (Hk v Hv).
    + change (on_key k (set_map _ s0)) with (on_key k s0). rewrite Hon'. intros v. simpl.
      by rewrite lookup_delete_eq.
  - assert (Hs0 : key_inv k s0).
    { apply (key_inv_same k s); try done. by rewrite Hon', Hon. }
    destruct p as [key ttl|key]; simpl in Hne |- *.
    + apply send_key_inv; [done|]. intros b. simpl. by rewrite decide_False.
    + apply (key_inv_same k s0); try done. simpl. intros v. by rewrite lookup_delete_ne.
Qed.

Lemma insert_key_inv k s key value : (key = k → on_key k s = []) →
  key_inv k s → key_inv k (insert_map s key value).
Proof.
  intros Hex Hk. unfold insert_map. pose proof (on_key_cons k (PSend key (expire_ttl value))
    (insert_map s key value) (pending s) eq_refl) as Hon. simpl in Hon. unfold insert_map in Hon.
  change (filter _ (pending s)) with (on_key k s) in Hon.
  case_decide as Hd.
  - subst key. rewrite Hex in Hon by done. intros _. rewrite Hon. simpl. intros v.
    rewrite lookup_insert_eq. by intros [= ->].
  - apply (key_inv_same k s); try done. simpl. intros v. by rewrite lookup_insert_ne.
Qed.

Lemma remove_key_inv k s key : (key = k → on_key k s = []) →
  key_inv k s → key_inv k (remove_send s key).
Proof.
  intros Hex Hk. unfold remove_send. pose proof (on_key_cons k (PUnmap key)
    (remove_send s key) (pending s) eq_refl) as Hon. simpl in Hon. unfold remove_send in Hon.
  change (filter _ (pending s)) with (on_key k s) in Hon.
  case_decide as Hd.
  - subst key. rewrite Hex in Hon by done. intros _. by rewrite Hon.
  - assert (Hsend : key_inv k (send (DRemove key) s)).
    { apply send_key_inv; [done|]. intros b. simpl. by rewrite decide_False. }
    apply (key_inv_same k (send (DRemove key) s)); try done. rewrite Hon. unfold send. by destruct (alive s).
Qed.

Lemma expire_key_inv k s s' : inv s → expire_next s = Some s' → key_inv k s → key_inv k s'.
Proof.
  intros Hi He Hk.
  pose proof (expire_next_spec s s' Hi He) as (key & t & d & _ & _ & _ & _ & Hm & Hkm & Hcs & _ & Ha & Hp & _).
  assert (Hon : on_key k s' = on_key k s) by (unfold on_key; by rewrite Hp).
  apply (key_inv_same k s); [done|by rewrite Ha|done|..]; intros v; rewrite Hm, lookup_delete_Some.
  - by intros [].
  - intros [Hne _]. unfold has_timer. rewrite Hcs, Hkm. by rewrite lookup_delete_ne.
Qed.

Lemma command_key_inv k s s' : inv s → recv_command s = Some (Ret s') → key_inv k s → key_inv k s'.
Proof.
  intros Hi Hr Hk. destruct (recv_command_spec s _ Hi Hr) as (c & rest & km & q & Hcs & [= ->] & _ & Htm).
  apply (key_inv_same k s); try done. intros v _. unfold has_timer at 1. simpl. rewrite Htm, Hcs.
  change (c :: rest) with ([c] ++ rest). by rewrite timer_after_app.
Qed.

Lemma same_cache_key_inv k s s' : same_cache s s' → key_inv k s → key_inv k s'.
Proof.
  intros (Hm & Hc & Hkm & _ & Ha & Hp) Hk. unfold key_inv, on_key, has_timer in *.
  by rewrite Hm, Hc, Hkm, Ha, Hp.
Qed.

Lemma exclusive_key_inv k s : exclusive k s → key_inv k s.
Proof.
  induction 1 as [|s l s' He IH Hl Hs]; [by intros _ v|].
  pose proof (reachable_inv s (exclusive_reachable k s He)) as Hi.
  inversion Hs as [key value|key|l1 p l2 Hp|key|r Ha Hr|s'' Ha Hx|Ha|s'' Hc|s'' Hc|s'' Hc|s'' Hc|t Ht]; subst.
  - apply insert_key_inv; [|done]. intros ->. by apply Hl.
  - apply remove_key_inv; [|done]. intros ->. by apply Hl.
  - by apply complete_key_inv.
  - unfold cache_refresh. destruct (map s !! key) as [value|]; [|done].
    destruct (expire_ttl value) as [ttl|]; [|done]. by apply send_key_inv.
  - by eapply command_key_inv.
  - by eapply expire_key_inv.
  - by intros [=].
  - eapply same_cache_key_inv; [|done]. eapply call_step_spec. by left.
  - eapply same_cache_key_inv; [|done]. eapply call_step_spec. by right; left.
  - eapply same_cache_key_inv; [|done]. eapply call_step_spec. by right; right; left.
  - eapply same_cache_key_inv; [|done]. eapply call_step_spec. by right; right; right.
  - done.
Qed.

(** However client calls, the two workers and time interleave, no call on
    the timer queue panics: the worker never removes or resets a timer that
    is gone, and the callback queue and the running callbacks stay bounded. *)
Theorem cache_steps_safe s l r :
  reachable s → step s l r →
  returns r (λ s', reachable s' ∧ length (calls s') ≤ CALL_CAPACITY ∧ running s' ≤ CALL_PERMITS).
Proof.
  intros Hr Hs. pose proof (step_inv s l r (reachable_inv s Hr) Hs) as Hi.
  destruct r as [s'| |]; [|done..]. simpl in *. split; [by eapply reach_step|]. by destruct Hi.
Qed.

Lemma exclusive_timer k s v :
  exclusive k s → on_key k s = [] → alive s = true → cmds s = [] → map s !! k = Some v →
  has_timer s k = bool_decide (is_Some (expire_ttl v)).
Proof.
  intros He Hon Ha Hcs Hv. pose proof (exclusive_key_inv k s He Ha) as Hk. rewrite Hon in Hk.
  specialize (Hk v Hv). by rewrite Hcs in Hk.
Qed.

(** C23: No key ever has more than one timer, whatever overlaps.  For a key
    whose inserts and removes did not overlap one another (with refreshes,
    expiries and the calls of other keys in any order around and between
    their two halves), once none of them is under way and the worker has
    caught up with its commands, the timers agree with the map: a cached
    value has a pending timer exactly when it has a time-to-live. *)
Theorem cache_timers_agree s k :
  reachable s →
  (∀ t t' d d', dq_items (delay_queue s) !! t = Some (k, d) →
    dq_items (delay_queue s) !! t' = Some (k, d') → t = t') ∧
  (exclusive k s → on_key k s = [] → alive s = true → cmds s = [] →
    ∀ v, get s k = Some v →
    (is_Some (expire_ttl v) ↔ ∃ t d, dq_items (delay_queue s) !! t = Some (k, d))).
Proof.
  intros Hr. destruct (reachable_inv s Hr) as [Ht _ _]. split.
  - intros t t' d d' Hd Hd'. assert (key_map s !! k = Some t) as Hk by (apply Ht; by eexists).
    assert (key_map s !! k = Some t') as Hk' by (apply Ht; by eexists). congruence.
  - intros He Hon Ha Hcs v Hv. pose proof (exclusive_timer k s v He Hon Ha Hcs Hv) as Hm.
    unfold has_timer in Hm. split.
    + intros Hs. rewrite (bool_decide_eq_true_2 (is_Some (expire_ttl v))) in Hm by done.
      apply bool_decide_eq_true in Hm as [t Hkt]. exists t. by apply Ht.
    + intros (t & d & Hd). assert (key_map s !! k = Some t) as Hk by (apply Ht; by eexists).
      rewrite Hk, bool_decide_eq_true_2 in Hm by done. symmetry in Hm. by apply bool_decide_eq_true in Hm.
Qed.

(** An expiry evicts one key, whose own timer has come due, and hands its
    value to the callbacks unless their queue is full or closed; no other key
    moves. *)
Theorem cache_expiry s s' :
  reachable s → expire_next s = Some s' →
  ∃ key t d, key_map s !! key = Some t ∧ dq_items (delay_queue s) !! t = Some (key, d) ∧
    (d ≤ now s)%N ∧ get s' key = None ∧ (∀ k, k ≠ key → get s' k = get s k) ∧
    calls s' = calls s ++ match get s key with
                          | Some v => if calling s && (length (calls s) <? CALL_CAPACITY)%nat then [v] else []
                          | None => [] end.
Proof.
  intros Hr He.
  destruct (expire_next_spec s s' (reachable_inv s Hr) He)
    as (key & t & d & Hk & Hd & Hle & _ & Hm & _ & _ & _ & _ & _ & Hc).
  exists key, t, d. unfold get. rewrite Hm. split_and!; [done..| | |done].
  - by rewrite lookup_delete_eq.
  - intros k Hne. by rewrite lookup_delete_ne.
Qed.
End cache.

(** ** A concrete timer queue, witnesses and an interleaving *)

Module QueueModel.
(** Tokens are numbered; the first due item in token order is returned. *)
Definition queue : Type := gmap N (string * N) * N.

Definition due (now : N) (x : N * (string * N)) : Prop := (x.2.2 <= now)%N.
#[export] Instance due_dec now x : Decision (due now x).
Proof. unfold due. apply _. Defined.

Definition new_token (q : queue) : N := fresh (dom q.1 : gset N).

Lemma new_token_fresh (q : queue) : q.1 !! new_token q = None.
Proof. apply not_elem_of_dom. unfold new_token. apply is_fresh. Qed.

#[export] Instance queue_ops : DelayQueue queue N := {
  dq_new := (∅, 0%N);
  dq_items q := q.1;
  dq_insert q k d := let t := new_token q in ((<[t := (k, d)]> q.1, q.2), t);
  dq_remove q t := match q.1 !! t with Some _ => Ret (delete t q.1, q.2) | None => Panic end;
  dq_reset q t d :=
    match q.1 !! t with Some (k, _) => Ret (<[t := (k, d)]> q.1, q.2) | None => Panic end;
  dq_next q now :=
    match list_find (due now) (map_to_list q.1) with
    | Some (_, (t, (k, _))) => Some (k, (delete t q.1, q.2))
    | None => None
    end;
}.

#[export] Instance queue_laws : DelayQueueLaws queue N.
Proof.
  split.
  - done.
  - intros q k d. simpl. split; [|done]. apply new_token_fresh.
  - intros q t x Hx. simpl in *. rewrite Hx. by eexists.
  - intros q t k d d' Hx. simpl in *. rewrite Hx. by eexists.
  - intros q now k q'. simpl. destruct (list_find _ _) as [[i [t [k' d]]]|] eqn:Hf; [|done].
    intros [= -> <-]. apply list_find_Some in Hf as (Hi & Hd & _).
    exists t, d. split; [|done]. by apply elem_of_map_to_list, list_elem_of_lookup_2 with i.
Qed.
End QueueModel.
Import QueueModel.

Module CacheExample.
(** A value is its number and its time-to-live. *)
Definition value : Type := N * option N.
Definition St : Type := State (V:=value) (Q:=queue) (Tok:=N).
Definition run_exec {A} (m : exec A) (d : A) : A := match m with Ret a => a | _ => d end.

(** An insert that nothing comes between: its two steps. *)
Definition s1 : St := cache_insert snd init "k" (1%N, Some 10%N).
Definition s2 : St := match recv_command s1 with Some r => run_exec r s1 | None => s1 end.
Definition s3 : St := set_now 10 s2.
(** The old timer is due when the client stores a fresh value. *)
Definition s4 : St := cache_insert snd s3 "k" (2%N, Some 500%N).
Definition s5 : St := match expire_next s4 with Some s => s | None => s4 end.

Lemma insert_exclusive k (s : St) key v :
  exclusive snd k s → on_key k s = [] → exclusive snd k (cache_insert snd s key v).
Proof.
  intros He Hon. apply (excl_step _ k (insert_map snd s key v) None); [|done|].
  - by apply (excl_step _ k s (Some key)); [|intros _|constructor].
  - apply (step_complete snd (insert_map snd s key v) [] (PSend key v.2) (pending s)). done.
Qed.

Lemma excl2 : exclusive snd "k" s2.
Proof.
  apply (excl_step _ _ s1 None); [|done|].
  - apply insert_exclusive; [constructor|done].
  - apply step_command; [done|]. vm_compute. reflexivity.
Qed.

Lemma excl4 : exclusive snd "k" s4.
Proof.
  apply insert_exclusive; [|by vm_compute].
  apply (excl_step _ _ s2 None); [apply excl2|done|by apply step_time].
Qed.

Lemma reach2 : reachable snd s2.
Proof. eapply exclusive_reachable, excl2. Qed.
Lemma reach4 : reachable snd s4.
Proof. eapply exclusive_reachable, excl4. Qed.

(** Two inserts of one key, the first without a time-to-live, the second with
    one; the first sends after the second. *)
Definition r1 : St := insert_map snd init "k" (1%N, None).
Definition r2 : St := insert_map snd r1 "k" (2%N, Some 10%N).
Definition r3 : St := complete (PSend "k" (Some 10%N)) (set_pending [PSend "k" None] r2).
Definition r4 : St := complete (PSend "k" None) (set_pending [] r3).
Definition r5 : St := match recv_command r4 with Some r => run_exec r r4 | None => r4 end.
Definition r6 : St := match recv_command r5 with Some r => run_exec r r5 | None => r5 end.

Lemma reach_r6 : reachable snd r6.
Proof.
  eapply reach_step; [|apply (step_command snd r5); [reflexivity|vm_compute; reflexivity]].
  eapply reach_step; [|apply (step_command snd r4); [reflexivity|vm_compute; reflexivity]].
  eapply reach_step; [|apply (step_complete snd r3 [] (PSend "k" None) []); reflexivity].
  eapply reach_step; [|apply (step_complete snd r2 [] (PSend "k" (Some 10%N)) [PSend "k" None]); reflexivity].
  eapply reach_step; [|apply step_insert]. eapply reach_step; [apply reach_init|apply step_insert].
Qed.
End CacheExample.
Import CacheExample.

Lemma cache_steps_safe_witness :
  returns (Ret (set_now 10 s2)) (λ s', reachable snd s' ∧ length (calls s') ≤ CALL_CAPACITY ∧
    running s' ≤ CALL_PERMITS).
Proof. apply (cache_steps_safe snd s2 None (Ret s3)); [apply reach2|by apply step_time]. Defined.

Lemma cache_timers_agree_witness :
  get s2 "k" = Some (1%N, Some 10%N) ∧ ∃ t d, dq_items (delay_queue s2) !! t = Some ("k", d).
Proof.
  split; [reflexivity|].
  apply (proj2 (cache_timers_agree snd s2 "k" reach2) excl2 eq_refl eq_refl eq_refl (1%N, Some 10%N) eq_refl).
  by eexists.
Defined.

Lemma cache_expiry_witness :
  ∃ key t d, key_map s4 !! key = Some t ∧ dq_items (delay_queue s4) !! t = Some (key, d) ∧
    (d ≤ now s4)%N ∧ get s5 key = None ∧ (∀ k, k ≠ key → get s5 k = get s4 k) ∧
    calls s5 = calls s4 ++ match get s4 key with
                           | Some v => if calling s4 && (length (calls s4) <? CALL_CAPACITY)%nat then [v] else []
                           | None => [] end.
Proof. apply (cache_expiry snd s4 s5); [apply reach4|vm_compute; reflexivity]. Defined.

(** ** What modelling showed *)

(** A value stored with 500 units to live while the timer of its predecessor
    is due is evicted at once: the worker may take the timer branch before
    the insert command that resets the timer. *)
Example stale_timer_evicts_fresh_value :
  reachable snd s5 ∧ now s5 = 10%N ∧ get s4 "k" = Some (2%N, Some 500%N) ∧ get s5 "k" = None.
Proof.
  split; [|by vm_compute]. apply (reach_step _ s4 None); [apply reach4|].
  apply step_expire; [done|]. vm_compute. reflexivity.
Qed.

(** Two inserts of one key change the map in one order and send in the other:
    the value with a time-to-live stays without a timer, with nothing left to
    do for the worker. *)
Example racing_inserts_lose_timer :
  reachable snd r6 ∧ cmds r6 = [] ∧ pending r6 = [] ∧ alive r6 = true ∧
  get r6 "k" = Some (2%N, Some 10%N) ∧ dq_items (delay_queue r6) = ∅.
Proof. split; [apply reach_r6|]. by vm_compute. Qed.
