(* ===== verification/Runtime.v ===== *)
(** * Managed runtimes and ordered shutdown (base/src/utils/rt.rs)

    The registry of runtimes, the book-keeping of their tasks, and the
    ordered shutdown with its reports.  What an [Arc] shares between the
    registry and the handles lives in a heap; while the shutdown awaits, the
    tasks go on: an await is an arbitrary run of task steps.  Thread pools,
    trackers and cancellation tokens are tokio's: a token is a flag, the
    tracker's [wait] answers whether it finished in time. *)
From stdpp Require Import pretty sorting.
From S2P Require Import Prelude Errors.

Definition APPLICATION_SHUTDOWN_TIMEOUT : N := 8000000000.
Definition DAEMON_STOP_TIMEOUT_SECS : N := 10.

Inductive RuntimeType :=
  | Main | CommonNetwork | HttpApi | WebSocket | RpcService | MessageQueue | CommonIO
  | FileProcessing | Database | CacheService | CommonCompute | DataProcessing
  | ImageProcessing | MachineLearning
  | Custom (s : string).

#[export] Instance RuntimeType_eq_dec : EqDecision RuntimeType.
Proof. solve_decision. Defined.

Definition as_thread_name (t : RuntimeType) : string :=
  match t with
  | Main => "main"
  | CommonNetwork => "common-network"
  | HttpApi => "http-api"
  | WebSocket => "websocket"
  | RpcService => "rpc-service"
  | MessageQueue => "message-queue"
  | CommonIO => "common-io"
  | FileProcessing => "file-processing"
  | Database => "database"
  | CacheService => "cache-service"
  | CommonCompute => "common-compute"
  | DataProcessing => "data-processing"
  | ImageProcessing => "image-processing"
  | MachineLearning => "machine-learning"
  | Custom s => "custom-" +:+ s
  end.

(** Thread names tell runtimes apart; they also serve to index maps. *)
Definition of_thread_name (n : string) : option RuntimeType :=
  if decide (n = "main") then Some Main
  else if decide (n = "common-network") then Some CommonNetwork
  else if decide (n = "http-api") then Some HttpApi
  else if decide (n = "websocket") then Some WebSocket
  else if decide (n = "rpc-service") then Some RpcService
  else if decide (n = "message-queue") then Some MessageQueue
  else if decide (n = "common-io") then Some CommonIO
  else if decide (n = "file-processing") then Some FileProcessing
  else if decide (n = "database") then Some Database
  else if decide (n = "cache-service") then Some CacheService
  else if decide (n = "common-compute") then Some CommonCompute
  else if decide (n = "data-processing") then Some DataProcessing
  else if decide (n = "image-processing") then Some ImageProcessing
  else if decide (n = "machine-learning") then Some MachineLearning
  else match n with
       | String _ (String _ (String _ (String _ (String _ (String _ (String _ s)))))) => Some (Custom s)
       | _ => None
       end.

Lemma of_as_thread_name t : of_thread_name (as_thread_name t) = Some t.
Proof. by destruct t. Qed.

#[export] Instance as_thread_name_inj : Inj (=) (=) as_thread_name.
Proof. intros t t' Heq. apply (inj Some). by rewrite <- !of_as_thread_name, Heq. Qed.

#[export] Instance RuntimeType_countable : Countable RuntimeType :=
  inj_countable as_thread_name of_thread_name of_as_thread_name.

Inductive ShutdownOutcome := Graceful | TimedOut | Incomplete.

#[export] Instance ShutdownOutcome_eq_dec : EqDecision ShutdownOutcome.
Proof. solve_decision. Defined.

Record RuntimeShutdownReport := mkReport {
  rp_runtime_type : RuntimeType;
  rp_outcome : ShutdownOutcome;
  rp_elapsed : N;
  rp_completed : N;
  rp_cancelled : N;
  rp_panicked : N;
  rp_remaining : list string;
}.

(** ** Tasks *)

Record TaskState := mkTasks {
  accepting : bool;
  next_id : N;
  active : gmap N string;
  completed : N;
  cancelled : N;
  panicked : N;
}.

Definition tasks_new : TaskState := mkTasks true 0 ∅ 0 0 0.

(** [start_locked]: the new task's guard is its id. *)
Definition start_locked (t : TaskState) (name : string) : N * TaskState :=
  (next_id t, mkTasks (accepting t) (wadd64 (next_id t) 1) (<[next_id t := name]> (active t))
                (completed t) (cancelled t) (panicked t)).

Definition tasks_close (t : TaskState) : TaskState :=
  mkTasks false (next_id t) (active t) (completed t) (cancelled t) (panicked t).

Definition string_le (a b : string) : Prop := String.leb a b = true.
#[export] Instance string_le_dec a b : Decision (string_le a b).
Proof. unfold string_le. apply _. Defined.

Definition active_names (t : TaskState) : list string :=
  merge_sort string_le (map_to_list (active t)).*2.

(** A guard owned by a task: its id and whether it was finished. *)
Definition guard : Type := N * bool.

Definition guard_complete (g : guard) (cancel : bool) (t : TaskState) : guard * TaskState :=
  ((g.1, true),
   if cancel then mkTasks (accepting t) (next_id t) (delete g.1 (active t)) (completed t)
                    (wadd64 (cancelled t) 1) (panicked t)
   else mkTasks (accepting t) (next_id t) (delete g.1 (active t)) (wadd64 (completed t) 1)
          (cancelled t) (panicked t)).

Definition guard_panic (g : guard) (t : TaskState) : guard * TaskState :=
  ((g.1, true),
   mkTasks (accepting t) (next_id t) (delete g.1 (active t)) (completed t) (cancelled t)
     (wadd64 (panicked t) 1)).

Definition guard_drop (g : guard) (t : TaskState) : TaskState :=
  if g.2 then t
  else mkTasks (accepting t) (next_id t) (delete g.1 (active t)) (completed t)
         (wadd64 (cancelled t) 1) (panicked t).

(** ** Registry *)

(** What an entry shares with its handles. *)
Record Shared := mkShared {
  sh_cancel : bool;
  sh_tracker_closed : bool;
  sh_tasks : TaskState;
}.

Definition shared_new : Shared := mkShared false false tasks_new.

(** [RuntimeRegistry], with the heap of what its entries share. *)
Record App := mkApp {
  runtimes : gmap RuntimeType N;
  heap : gmap N Shared;
  shutting_down : bool;
  failed : bool;
  shutdown_requested : bool;
}.

(** [RuntimeEntry::new]: a new allocation. *)
Definition alloc_entry (a : App) (ty : RuntimeType) : N * App :=
  let loc := fresh (dom (heap a) : gset N) in
  (loc, mkApp (<[ty := loc]> (runtimes a)) (<[loc := shared_new]> (heap a))
          (shutting_down a) (failed a) (shutdown_requested a)).

Definition registry_new : App := (alloc_entry (mkApp ∅ ∅ false false false) Main).2.

(** A [GlobalRuntime]: its type and the shared state it points to. *)
Definition GlobalRuntime : Type := RuntimeType * N.

Definition register (a : App) (ty : RuntimeType) : GlobalResult GlobalRuntime * App :=
  if shutting_down a then (Err (SysErr "application is shutting down"), a)
  else
    match runtimes a !! ty with
    | Some _ => (Err (SysErr ("runtime already exists: " +:+ as_thread_name ty)), a)
    | None => let '(loc, a) := alloc_entry a ty in (Ok (ty, loc), a)
    end.

Definition get (a : App) (ty : RuntimeType) : option GlobalRuntime :=
  loc ← runtimes a !! ty; Some (ty, loc).

(** The keys of the map but [Main], in the map's iteration order. *)
Definition runtime_types (a : App) : list RuntimeType :=
  filter (λ ty, ty ≠ Main) (map_to_list (runtimes a)).*1.

Definition set_shared (loc : N) (s : Shared) (a : App) : App :=
  mkApp (runtimes a) (<[loc := s]> (heap a)) (shutting_down a) (failed a) (shutdown_requested a).

Definition shared_at (a : App) (loc : N) : Shared := default shared_new (heap a !! loc).
Definition tasks_at (a : App) (loc : N) : TaskState := sh_tasks (shared_at a loc).

Definition set_tasks (loc : N) (t : TaskState) (a : App) : App :=
  let s := shared_at a loc in
  set_shared loc (mkShared (sh_cancel s) (sh_tracker_closed s) t) a.

(** [GlobalRuntime::spawn] and [spawn_blocking] up to the start of the task;
    both hold the gate, so they are one step. *)
Definition spawn (a : App) (h : GlobalRuntime) (name : string) : GlobalResult N * App :=
  let t := tasks_at a h.2 in
  if accepting t then
    let '(id, t) := start_locked t name in (Ok id, set_tasks h.2 t a)
  else (Err (SysErr ("runtime no longer accepts tasks: runtime_type=" +:+
               as_thread_name h.1 +:+ ", task=" +:+ name)), a).

(** How a task's future ends: with a value, with a panic, or dropped. *)
Inductive ending := Finished | Panicked | Dropped.

(** The rest of [spawn]: the guard's fate, and the flags a panic raises. *)
Definition end_task (a : App) (loc : N) (id : N) (e : ending) : App :=
  let t := tasks_at a loc in
  match e with
  | Finished =>
      let '(g, t) := guard_complete (id, false) (sh_cancel (shared_at a loc)) t in
      set_tasks loc (guard_drop g t) a
  | Panicked =>
      let '(g, t) := guard_panic (id, false) t in
      let a := set_tasks loc (guard_drop g t) a in
      mkApp (runtimes a) (heap a) (shutting_down a) true true
  | Dropped => set_tasks loc (guard_drop (id, false) t) a
  end.

Definition fail (a : App) : App :=
  mkApp (runtimes a) (heap a) (shutting_down a) true true.

(** What the tasks of the program do while the registry is used: a guard is
    owned by its task, so it ends once, while its id is active; a runtime
    starts fewer than [2 ^ 64] tasks. *)
Inductive task_step : App → App → Prop :=
  | ts_spawn a h name :
      is_Some (heap a !! h.2) → (next_id (tasks_at a h.2) < u64_max)%N →
      task_step a (spawn a h name).2
  | ts_end a loc id e : is_Some (active (tasks_at a loc) !! id) → task_step a (end_task a loc id e)
  | ts_fail a : task_step a (fail a).

(** ** Shutdown *)

(** One await of [shutdown_runtime]: how the tasks went on, whether the
    tracker finished within the timeout, whether the pool's own shutdown
    came back, and the time it took. *)
Record Stage := mkStage {
  sr_env_wait : App → App;
  sr_wait_ok : bool;
  sr_env_stop : App → App;
  sr_stop_ok : bool;
  sr_elapsed : N;
}.

(** Closing: no new task, tracker closed, cancellation signalled. *)
Definition close_runtime (loc : N) (a : App) : App :=
  set_shared loc (mkShared true true (tasks_close (tasks_at a loc))) a.

Definition remove_runtime (ty : RuntimeType) (a : App) : App :=
  mkApp (delete ty (runtimes a)) (heap a) (shutting_down a) (failed a) (shutdown_requested a).

Definition shutdown_runtime (a : App) (ty : RuntimeType) (st : Stage) :
    option RuntimeShutdownReport * App :=
  match get a ty with
  | None => (None, a)
  | Some (_, loc) =>
      let a := sr_env_wait st (close_runtime loc a) in
      let remaining_before_shutdown := active_names (tasks_at a loc) in
      match runtimes a !! ty with
      | None => (None, a)
      | Some _ =>
          let a := sr_env_stop st (remove_runtime ty a) in
          let t := tasks_at a loc in
          let remaining := active_names t in
          let outcome :=
            if negb (sr_wait_ok st) then TimedOut
            else if negb (sr_stop_ok st) || negb (bool_decide (remaining = [])) || (0 <? panicked t)%N
                 then Incomplete
            else Graceful in
          (Some (mkReport ty outcome (sr_elapsed st) (completed t) (cancelled t) (panicked t)
                   (if decide (remaining = [])
                    then (if decide (outcome = Graceful) then [] else remaining_before_shutdown)
                    else remaining)), a)
      end
  end.

Definition prepare_main_shutdown (a : App) (st : Stage) : option RuntimeShutdownReport * App :=
  match get a Main with
  | None => (None, a)
  | Some (_, loc) =>
      let a := sr_env_wait st (close_runtime loc a) in
      let t := tasks_at a loc in
      let remaining := active_names t in
      let outcome :=
        if negb (sr_wait_ok st) then TimedOut
        else if bool_decide (remaining = []) && (panicked t =? 0)%N then Graceful
        else Incomplete in
      (Some (mkReport Main outcome (sr_elapsed st) (completed t) (cancelled t) (panicked t) remaining), a)
  end.

(** The listed runtimes once each, without [Main]. *)
Definition dedup_orders (orders : list RuntimeType) : list RuntimeType :=
  foldl (λ ordered ty, if decide (ty ≠ Main ∧ ty ∉ ordered) then ordered ++ [ty] else ordered) [] orders.

Definition name_le (a b : RuntimeType) : Prop := string_le (as_thread_name a) (as_thread_name b).
#[export] Instance name_le_dec a b : Decision (name_le a b).
Proof. unfold name_le. apply _. Defined.

(** Then the registered ones that were left out, by thread name. *)
Definition shutdown_order (orders present : list RuntimeType) : list RuntimeType :=
  foldl (λ ordered ty, if decide (ty ∈ ordered) then ordered else ordered ++ [ty])
    (dedup_orders orders) (merge_sort name_le present).

(** [deadline.saturating_duration_since(now).checked_div(stages_left)]. *)
Definition stage_timeout (deadline now : N) (stages_left : N) : N :=
  if (as_u32 stages_left =? 0)%N then 0%N else ((deadline - now) / as_u32 stages_left)%N.

(** The loop over the stages; what happens in a stage depends on its runtime
    and on the timeout it was given.  Also the timeouts are collected. *)
Fixpoint shutdown_stages (run : RuntimeType → N → Stage) (deadline now : N)
    (ordered : list RuntimeType) (a : App) :
    list N * list RuntimeShutdownReport * App * N :=
  match ordered with
  | [] => ([], [], a, now)
  | ty :: rest =>
      let timeout := stage_timeout deadline now (N.of_nat (length ordered) + 1) in
      let st := run ty timeout in
      let '(r, a) := shutdown_runtime a ty st in
      let now := match r with Some r => (now + rp_elapsed r)%N | None => now end in
      let '(ts, rs, a, now) := shutdown_stages run deadline now rest a in
      (timeout :: ts, option_list r ++ rs, a, now)
  end.

Definition set_shutting_down (a : App) : App :=
  mkApp (runtimes a) (heap a) true (failed a) (shutdown_requested a).

Definition shutdown (run : RuntimeType → N → Stage) (now total_timeout : N)
    (orders : list RuntimeType) (a : App) : list RuntimeShutdownReport * App :=
  let a := set_shutting_down a in
  let deadline := (now + total_timeout)%N in
  let ordered := shutdown_order orders (runtime_types a) in
  let '(_, reports, a, now) := shutdown_stages run deadline now ordered a in
  let '(main, a) := prepare_main_shutdown a (run Main (deadline - now)%N) in
  (reports ++ option_list main, a).

Definition take_main_runtime (a : App) : App := remove_runtime Main a.

(** The overall outcome of [order_shutdown]. *)
Definition overall (has_failed : bool) (rs : list RuntimeShutdownReport) : ShutdownOutcome :=
  if has_failed then Incomplete
  else if forallb (λ r, bool_decide (rp_outcome r = Graceful)) rs then Graceful
  else if existsb (λ r, bool_decide (rp_outcome r = TimedOut)) rs then TimedOut
  else Incomplete.

(** [order_shutdown] once the exit signal came; [stop] is what goes on while
    the main runtime is shut down. *)
Definition stop_all (run : RuntimeType → N → Stage) (stop : App → App) (now : N)
    (orders : list RuntimeType) (a : App) : ShutdownOutcome * list RuntimeShutdownReport * App :=
  let '(reports, a) := shutdown run now APPLICATION_SHUTDOWN_TIMEOUT orders a in
  let a := stop (take_main_runtime a) in
  (overall (failed a) reports, reports, a).

(** [get_main_runtime] panics without a main runtime, as in a second call. *)
Definition get_main_runtime (a : App) : exec GlobalRuntime :=
  match get a Main with Some h => Ret h | None => Panic end.

(** [order_shutdown] once the exit signal came, without its log lines: the
    wait and the log are in [RuntimeExit]. *)
Definition order_shutdown (run : RuntimeType → N → Stage) (stop : App → App) (now : N)
    (orders : list RuntimeType) (a : App) :
    exec (ShutdownOutcome * list RuntimeShutdownReport * App) :=
  _ ← get_main_runtime a; Ret (stop_all run stop now orders a).

(** ** The order of shutdown *)

Lemma dedup_orders_spec orders :
  NoDup (dedup_orders orders) ∧ ∀ ty, ty ∈ dedup_orders orders ↔ ty ≠ Main ∧ ty ∈ orders.
Proof.
  unfold dedup_orders.
  assert (∀ acc, NoDup acc → Main ∉ acc →
    let r := foldl (λ ordered ty, if decide (ty ≠ Main ∧ ty ∉ ordered) then ordered ++ [ty] else ordered)
      acc orders in
    NoDup r ∧ ∀ ty, ty ∈ r ↔ ty ∈ acc ∨ (ty ≠ Main ∧ ty ∈ orders)) as H.
  { induction orders as [|o orders IH]; intros acc Hn Hm; simpl.
    { split; [done|]. set_solver. }
    case_decide as Hd.
    - destruct (IH (acc ++ [o])) as [H1 H2].
      { apply NoDup_app. split_and!; [done|set_solver|apply NoDup_singleton]. }
      { set_solver. }
      split; [done|]. intros ty. rewrite H2. set_solver.
    - destruct (IH acc) as [H1 H2]; [done..|]. split; [done|]. intros ty. rewrite H2.
      destruct (decide (o = Main)), (decide (o ∈ acc)); set_solver. }
  destruct (H []) as [H1 H2]; [constructor|set_solver|]. split; [done|]. intros ty. rewrite H2. set_solver.
Qed.

#[export] Instance name_le_total : Total name_le.
Proof.
  intros a b. unfold name_le, string_le. destruct (String.leb_total (as_thread_name a) (as_thread_name b)); auto.
Qed.

Lemma string_compare_cons c s d t :
  String.compare (String c s) (String d t) =
  match N.compare (Ascii.N_of_ascii c) (Ascii.N_of_ascii d) with Eq => String.compare s t | r => r end.
Proof. done. Qed.

#[export] Instance string_le_trans : Transitive string_le.
Proof.
  unfold string_le, String.leb. intros s. induction s as [|c s IH]; intros [|d t] [|e u]; try done.
  rewrite !string_compare_cons. intros H1 H2.
  destruct (N.compare_spec (Ascii.N_of_ascii c) (Ascii.N_of_ascii d)) as [Hcd|Hcd|Hcd]; [| |done];
    (destruct (N.compare_spec (Ascii.N_of_ascii d) (Ascii.N_of_ascii e)) as [Hde|Hde|Hde]; [| |done]).
  - rewrite Hcd, Hde, N.compare_refl. by apply (IH t).
  - rewrite Hcd. by apply N.compare_lt_iff in Hde as ->.
  - rewrite <- Hde. by apply N.compare_lt_iff in Hcd as ->.
  - assert (Hce : (Ascii.N_of_ascii c < Ascii.N_of_ascii e)%N) by lia.
    by apply N.compare_lt_iff in Hce as ->.
Qed.

#[export] Instance name_le_trans : Transitive name_le.
Proof. intros a b c. unfold name_le. apply string_le_trans. Qed.

#[export] Instance name_le_antisymm : AntiSymm (=) name_le.
Proof. intros a b Hab Hba. apply (inj as_thread_name). by apply String.leb_antisym. Qed.

Lemma append_fold (ordered present : list RuntimeType) :
  NoDup present →
  foldl (λ ordered ty, if decide (ty ∈ ordered) then ordered else ordered ++ [ty]) ordered present =
  ordered ++ filter (λ ty, ty ∉ ordered) present.
Proof.
  intros Hn. revert ordered. induction Hn as [|ty present Hni Hn IH]; intros ordered; simpl.
  { by rewrite app_nil_r. }
  rewrite filter_cons. case_decide as Hd.
  - rewrite decide_False by (intros H; by apply H). apply IH.
  - rewrite decide_True, IH by done. rewrite <- app_assoc. simpl. do 2 f_equal.
    
    clear -Hni. induction present as [|x present IH]; [done|].
    apply not_elem_of_cons in Hni as [Hne Hni]. rewrite !filter_cons, (IH Hni).
    repeat case_decide; set_solver.
Qed.

Lemma StronglySorted_filter (P : RuntimeType → Prop) `{!∀ x, Decision (P x)} l :
  StronglySorted name_le l → StronglySorted name_le (filter P l).
Proof.
  induction 1 as [|x l _ IH Hx]; [constructor|]. rewrite filter_cons. case_decide; [|done].
  constructor; [done|]. rewrite Forall_forall in Hx |- *. intros y [_ Hy]%list_elem_of_filter. auto.
Qed.

Lemma shutdown_order_split orders present :
  NoDup present →
  shutdown_order orders present =
  dedup_orders orders ++ filter (λ ty, ty ∉ dedup_orders orders) (merge_sort name_le present).
Proof.
  intros Hn. apply append_fold. by rewrite merge_sort_Permutation.
Qed.

(** The shutdown order lists every runtime but [Main] once: first the
    requested ones in the requested order, then the registered ones that were
    left out, sorted by thread name; it does not depend on the order in which
    the map of runtimes iterates. *)
Theorem shutdown_order_spec orders present :
  NoDup present → Main ∉ present →
  let order := shutdown_order orders present in
  NoDup order ∧ (∀ ty, ty ∈ order ↔ ty ≠ Main ∧ (ty ∈ orders ∨ ty ∈ present)) ∧
  (∃ rest, order = dedup_orders orders ++ rest ∧ Sorted name_le rest ∧ ∀ ty, ty ∈ rest → ty ∉ orders) ∧
  (∀ present', present ≡ₚ present' → shutdown_order orders present' = order).
Proof.
  intros Hn Hm. cbv zeta. rewrite shutdown_order_split by done.
  destruct (dedup_orders_spec orders) as [Hd1 Hd2]. split_and!.
  - apply NoDup_app. split_and!; [done| |].
    + intros x Hx (Hnot & _)%list_elem_of_filter. done.
    + apply NoDup_filter. by rewrite merge_sort_Permutation.
  - intros ty. rewrite elem_of_app, list_elem_of_filter, merge_sort_Permutation, Hd2.
    destruct (decide (ty ∈ orders)); set_solver.
  - eexists. split_and!; [done| |].
    + apply StronglySorted_Sorted. apply StronglySorted_filter.
      apply Sorted_StronglySorted; [apply _|apply Sorted_merge_sort, _].
    + intros ty (Hnot & Hty)%list_elem_of_filter Ho. apply Hnot, Hd2. split; [|done].
      rewrite merge_sort_Permutation in Hty. set_solver.
  - intros present' Hp. rewrite shutdown_order_split by by rewrite <- Hp. do 2 f_equal.
    apply (Sorted_unique name_le); [apply Sorted_merge_sort, _..|].
    by rewrite !merge_sort_Permutation.
Qed.

Lemma shutdown_order_spec_witness :
  let order := shutdown_order [HttpApi; Main; HttpApi] [Database; HttpApi; CacheService] in
  NoDup order ∧ (∀ ty, ty ∈ order ↔ ty ≠ Main ∧
    (ty ∈ [HttpApi; Main; HttpApi] ∨ ty ∈ [Database; HttpApi; CacheService])) ∧
  (∃ rest, order = dedup_orders [HttpApi; Main; HttpApi] ++ rest ∧ Sorted name_le rest ∧
    ∀ ty, ty ∈ rest → ty ∉ [HttpApi; Main; HttpApi]) ∧
  (∀ present', [Database; HttpApi; CacheService] ≡ₚ present' →
    shutdown_order [HttpApi; Main; HttpApi] present' = order).
Proof.
  apply (shutdown_order_spec [HttpApi; Main; HttpApi] [Database; HttpApi; CacheService]).
  - repeat (constructor; [set_solver|]). constructor.
  - set_solver.
Defined.

(** ** Accounting of tasks *)

Record tasks_ok (t : TaskState) : Prop := {
  to_count : (N.of_nat (size (active t)) + completed t + cancelled t + panicked t = next_id t)%N;
  to_ids : ∀ id, is_Some (active t !! id) → (id < next_id t)%N;
  to_next : (next_id t < u64_mod)%N;
}.

Lemma tasks_new_ok : tasks_ok tasks_new.
Proof. split; [done| |done]. intros id [? H]. cbn in H. by rewrite (lookup_empty (M:=gmap N)) in H. Qed.

Lemma start_locked_ok t name :
  tasks_ok t → (next_id t < u64_max)%N →
  tasks_ok (start_locked t name).2 ∧ active t !! (start_locked t name).1 = None.
Proof.
  intros [Hc Hi Hn] Hlt. simpl.
  assert (Hfresh : active t !! next_id t = None).
  { destruct (active t !! next_id t) eqn:Ha; [|done]. assert (next_id t < next_id t)%N; [|lia]. by apply Hi. }
  split; [|done]. assert (wadd64 (next_id t) 1 = next_id t + 1)%N as Hw.
  { apply N.mod_small. unfold u64_max, u64_mod in *. lia. }
  split; simpl; rewrite Hw.
  - rewrite map_size_insert_None by done. lia.
  - intros id Hid. destruct (decide (id = next_id t)) as [->|]; [lia|].
    rewrite lookup_insert_ne in Hid by done. apply Hi in Hid. lia.
  - unfold u64_max, u64_mod in *. lia.
Qed.

(** Ending the task of an active id moves it from [active] to one counter. *)
Lemma remove_active_ok t id c1 c2 c3 :
  tasks_ok t → is_Some (active t !! id) →
  (c1 + c2 + c3 = completed t + cancelled t + panicked t + 1)%N →
  tasks_ok (mkTasks (accepting t) (next_id t) (delete id (active t)) c1 c2 c3).
Proof.
  intros [Hc Hi Hn] [name Hid] Hs. split; simpl; [| |done].
  - pose proof (map_size_delete_Some id (active t) ltac:(by eexists)) as Hsz.
    assert (size (active t) ≠ 0) as Hne.
    { intros H0%map_size_empty_inv. rewrite H0 in Hid. by rewrite lookup_empty in Hid. }
    rewrite Hsz. lia.
  - intros j Hj. apply Hi. destruct Hj as [x Hj]. apply lookup_delete_Some in Hj as [_ Hj]. by eexists.
Qed.

Lemma counter_small t id c :
  tasks_ok t → is_Some (active t !! id) →
  (c ≤ completed t + cancelled t + panicked t)%N → wadd64 c 1 = (c + 1)%N.
Proof.
  intros [Hc Hi Hn] Hid Hle. apply N.mod_small.
  assert (size (active t) ≠ 0) as Hne.
  { intros H0%map_size_empty_inv. rewrite H0 in Hid. destruct Hid as [? Hid]. by rewrite lookup_empty in Hid. }
  lia.
Qed.

Definition app_ok (a : App) : Prop :=
  (∀ loc s, heap a !! loc = Some s → tasks_ok (sh_tasks s)) ∧
  (∀ ty loc, runtimes a !! ty = Some loc → is_Some (heap a !! loc)).

Lemma tasks_at_ok a loc : app_ok a → tasks_ok (tasks_at a loc).
Proof.
  intros [Ha _]. unfold tasks_at, shared_at. destruct (heap a !! loc) as [s|] eqn:Hs; simpl.
  - by apply (Ha loc).
  - apply tasks_new_ok.
Qed.

Lemma set_shared_ok a loc s :
  app_ok a → tasks_ok (sh_tasks s) → app_ok (set_shared loc s a).
Proof.
  intros [Ha Hr] Hs. split; simpl.
  - intros l s'. rewrite lookup_insert_Some. intros [[<- <-]|[_ H]]; [done|by eapply Ha].
  - intros ty l Hl. rewrite lookup_insert_is_Some'. right. by eapply Hr.
Qed.

Lemma register_ok a ty : app_ok a → app_ok (register a ty).2.
Proof.
  intros [Ha Hr]. unfold register. destruct (shutting_down a); [done|].
  destruct (runtimes a !! ty); [done|]. simpl. split; simpl.
  - intros l s. rewrite lookup_insert_Some. intros [[_ <-]|[_ H]]; [apply tasks_new_ok|by eapply Ha].
  - intros ty' l. rewrite lookup_insert_Some, lookup_insert_is_Some'.
    intros [[_ <-]|[_ H]]; [by left|right; by eapply Hr].
Qed.

Lemma registry_new_ok : app_ok registry_new.
Proof.
  split; simpl.
  - intros l s [_ <-]%lookup_singleton_Some. apply tasks_new_ok.
  - intros ty l. rewrite insert_empty. intros [_ <-]%lookup_singleton_Some. rewrite insert_empty.
    rewrite lookup_singleton_eq. by eexists.
Qed.

Lemma task_step_ok a a' : app_ok a → task_step a a' → app_ok a'.
Proof.
  intros Ha. destruct 1 as [a h name Hh Hn|a loc id e Hid|a]; [| |done].
  - unfold spawn. destruct (accepting _); [|done].
    pose proof (start_locked_ok (tasks_at a h.2) name (tasks_at_ok a h.2 Ha) Hn) as [Hok _].
    by apply set_shared_ok.
  - pose proof (tasks_at_ok a loc Ha) as Ht. unfold end_task.
    destruct e; [|change (app_ok (set_tasks loc (guard_panic (id, false) (tasks_at a loc)).2 a))|];
      (apply set_shared_ok; [done|]); simpl.
    + case_match; simpl;
        (apply remove_active_ok; [done..|]; rewrite (counter_small (tasks_at a loc) id) by (done || lia); lia).
    + apply remove_active_ok; [done..|]. rewrite (counter_small (tasks_at a loc) id) by (done || lia). lia.
    + apply remove_active_ok; [done..|]. rewrite (counter_small (tasks_at a loc) id) by (done || lia). lia.
Qed.

(** What a task step leaves alone. *)
Lemma task_step_frame a a' :
  task_step a a' → runtimes a' = runtimes a ∧ shutting_down a' = shutting_down a ∧
    (failed a = true → failed a' = true).
Proof.
  destruct 1 as [a h name Hh Hn|a loc id e Hid|a]; [| |done].
  - unfold spawn. by destruct (accepting _).
  - by destruct e.
Qed.

Lemma task_steps_frame a a' :
  rtc task_step a a' → (app_ok a → app_ok a') ∧ runtimes a' = runtimes a ∧
    shutting_down a' = shutting_down a ∧ (failed a = true → failed a' = true).
Proof.
  induction 1 as [|a b c Hs _ (IH1 & IH2 & IH3 & IH4)]; [done|].
  destruct (task_step_frame _ _ Hs) as (H1 & H2 & H3). split_and!; try congruence; try tauto.
  intros Ha. apply IH1. by eapply task_step_ok.
Qed.

(** ** Shutdown, stage by stage *)

Lemma map_to_list_nil_fst {A} (m : gmap N A) : (map_to_list m).*2 = [] → m = ∅.
Proof. intros H%fmap_nil_inv. by apply map_to_list_empty_iff. Qed.

Lemma active_names_nil t : active_names t = [] ↔ active t = ∅.
Proof.
  unfold active_names. split.
  - intros H. apply map_to_list_nil_fst, Permutation_nil. rewrite <- H. by rewrite merge_sort_Permutation.
  - intros ->. by rewrite map_to_list_empty.
Qed.

Lemma close_runtime_ok a loc : app_ok a → app_ok (close_runtime loc a).
Proof.
  intros Ha. apply set_shared_ok; [done|]. simpl. destruct (tasks_at_ok a loc Ha). by split.
Qed.

Lemma remove_runtime_ok a ty : app_ok a → app_ok (remove_runtime ty a).
Proof.
  intros [Ha Hr]. split; [done|]. intros ty' l. simpl. intros [_ H]%lookup_delete_Some. by eapply Hr.
Qed.

Record stage_ok (st : Stage) : Prop := {
  so_wait : ∀ a, rtc task_step a (sr_env_wait st a);
  so_stop : ∀ a, rtc task_step a (sr_env_stop st a);
}.

Definition report_ok (r : RuntimeShutdownReport) : Prop :=
  rp_outcome r = Graceful → rp_remaining r = [] ∧ rp_panicked r = 0%N.

Lemma shutdown_runtime_spec a ty st :
  app_ok a → stage_ok st →
  let '(r, a') := shutdown_runtime a ty st in
  app_ok a' ∧ runtimes a' = delete ty (runtimes a) ∧ shutting_down a' = shutting_down a ∧
  (failed a = true → failed a' = true) ∧
  match runtimes a !! ty with
  | Some _ => ∃ r0, r = Some r0 ∧ rp_runtime_type r0 = ty ∧ rp_elapsed r0 = sr_elapsed st ∧ report_ok r0
  | None => r = None
  end.
Proof.
  intros Ha [Hw Hs]. unfold shutdown_runtime, get.
  destruct (runtimes a !! ty) as [loc|] eqn:Hty; cbn [mbind option_bind].
  2:{ split_and!; [done| |done..]. by rewrite delete_id. }
  pose proof (close_runtime_ok a loc Ha) as Ha1. set (a1 := close_runtime loc a) in *.
  destruct (task_steps_frame _ _ (Hw a1)) as (Hok2 & Hr2 & Hd2 & Hf2). set (a2 := sr_env_wait st a1) in *.
  rewrite Hr2. change (runtimes a1) with (runtimes a). rewrite Hty.
  pose proof (remove_runtime_ok a2 ty (Hok2 Ha1)) as Ha3.
  destruct (task_steps_frame _ _ (Hs (remove_runtime ty a2))) as (Hok4 & Hr4 & Hd4 & Hf4).
  set (a4 := sr_env_stop st (remove_runtime ty a2)) in *.
  split_and!; [by apply Hok4| | | |].
  - rewrite Hr4. simpl. by rewrite Hr2.
  - rewrite Hd4. simpl. by rewrite Hd2.
  - intros Hf. by apply Hf4, Hf2.
  - eexists. split_and!; [done..|]. unfold report_ok. cbn [rp_outcome rp_remaining rp_panicked].
    set (rem := active_names (tasks_at a4 loc)).
    destruct (sr_wait_ok st); cbn [negb]; [|done]. destruct (sr_stop_ok st); cbn [negb orb]; [|done].
    case_bool_decide as Hrem; cbn [negb orb]; [|done].
    destruct (N.ltb_spec 0 (panicked (tasks_at a4 loc))); [done|]. intros _.
    rewrite !decide_True by done. split; [done|lia].
Qed.

Lemma shutdown_stages_spec run deadline now ordered a :
  app_ok a → (∀ ty t, stage_ok (run ty t)) → NoDup ordered →
  let '(_, rs, a', _) := shutdown_stages run deadline now ordered a in
  app_ok a' ∧ shutting_down a' = shutting_down a ∧ (failed a = true → failed a' = true) ∧
  runtimes a' = filter (λ '(ty, _), ty ∉ ordered) (runtimes a) ∧
  (rp_runtime_type <$> rs) = filter (λ ty, is_Some (runtimes a !! ty)) ordered ∧
  Forall report_ok rs.
Proof.
  intros Ha Hrun Hn. revert now a Ha. induction Hn as [|ty ordered Hni Hn IH]; intros now a Ha; simpl.
  { split_and!; [done..| |done|constructor]. symmetry. apply map_filter_id. intros. apply not_elem_of_nil. }
  set (tm := stage_timeout _ _ _).
  pose proof (shutdown_runtime_spec a ty (run ty tm) Ha (Hrun ty tm)) as H.
  destruct (shutdown_runtime a ty (run ty tm)) as [r a1]. destruct H as (Ha1 & Hr1 & Hd1 & Hf1 & Hrep).
  specialize (IH (match r with Some r => (now + rp_elapsed r)%N | None => now end) a1 Ha1).
  destruct (shutdown_stages run deadline _ ordered a1) as [[[ts rs] a2] now2].
  destruct IH as (Ha2 & Hd2 & Hf2 & Hr2 & Hrs & Hall). split_and!; [done|congruence|tauto| | |].
  - rewrite Hr2, Hr1. apply map_eq. intros k. apply option_eq. intros x.
    rewrite !map_lookup_filter_Some, lookup_delete_Some, not_elem_of_cons. naive_solver.
  - rewrite fmap_app, filter_cons, Hrs.
    assert (filter (λ ty', is_Some (runtimes a1 !! ty')) ordered =
            filter (λ ty', is_Some (runtimes a !! ty')) ordered) as ->.
    { rewrite Hr1. clear -Hni. induction ordered as [|x l IH]; [done|].
      apply not_elem_of_cons in Hni as [Hne Hni]. rewrite !filter_cons, (IH Hni).
      by rewrite lookup_delete_ne. }
    destruct (runtimes a !! ty) as [loc|] eqn:Hty.
    + destruct Hrep as (r0 & -> & Hty0 & _). rewrite decide_True by by eexists. simpl. by rewrite Hty0.
    + subst r. rewrite decide_False by by intros []. done.
  - apply Forall_app. split; [|done]. destruct (runtimes a !! ty).
    + destruct Hrep as (r0 & -> & _ & _ & Hok). by apply Forall_singleton.
    + subst r. constructor.
Qed.

Lemma overall_graceful f rs :
  overall f rs = Graceful ↔ f = false ∧ ∀ r, r ∈ rs → rp_outcome r = Graceful.
Proof.
  unfold overall. destruct f; [naive_solver|].
  destruct (forallb _ rs) eqn:Hall.
  - split; [|done]. intros _. split; [done|]. rewrite forallb_forall in Hall.
    intros r Hr. apply list_elem_of_In in Hr. by apply Hall, bool_decide_eq_true in Hr.
  - split; [by destruct (existsb _ _)|]. intros [_ Hg].
    assert (forallb (λ r, bool_decide (rp_outcome r = Graceful)) rs = true); [|congruence].
    apply forallb_forall. intros r Hr. apply bool_decide_eq_true, Hg. by apply list_elem_of_In.
Qed.

Lemma runtime_types_spec a : NoDup (runtime_types a) ∧ ∀ ty, ty ∈ runtime_types a ↔ ty ≠ Main ∧ is_Some (runtimes a !! ty).
Proof.
  unfold runtime_types. split; [apply NoDup_filter, NoDup_fst_map_to_list|].
  intros ty. rewrite list_elem_of_filter, list_elem_of_fmap. split.
  - intros (? & [ty' l] & -> & Hl%elem_of_map_to_list). split; [done|by eexists].
  - intros (? & [l Hl]). split; [done|]. exists (ty, l). split; [done|]. by apply elem_of_map_to_list.
Qed.

(** What [stop_all] leaves and reports. *)
Lemma stop_all_spec run stop now orders a :
  app_ok a → is_Some (runtimes a !! Main) →
  (∀ ty t, stage_ok (run ty t)) → (∀ a, rtc task_step a (stop a)) →
  let '(outcome, reports, a') := stop_all run stop now orders a in
  runtimes a' = ∅ ∧ (∀ ty, is_ok (register a' ty).1 = false) ∧
  (rp_runtime_type <$> reports) =
    filter (λ ty, is_Some (runtimes a !! ty)) (shutdown_order orders (runtime_types a)) ++ [Main] ∧
  Forall report_ok reports ∧ outcome = overall (failed a') reports ∧
  (failed a = true → failed a' = true).
Proof.
  intros Ha [lm Hm] Hrun Hstop. unfold stop_all, shutdown. destruct (runtime_types_spec a) as [Hnd Hin].
  change (runtime_types (set_shutting_down a)) with (runtime_types a).
  set (order := shutdown_order orders (runtime_types a)).
  assert (Hnm : Main ∉ runtime_types a) by (rewrite Hin; naive_solver).
  assert (Hord : NoDup order ∧ ∀ ty, ty ∈ order ↔ ty ≠ Main ∧ (ty ∈ orders ∨ ty ∈ runtime_types a)).
  { subst order. rewrite shutdown_order_split by done. destruct (dedup_orders_spec orders) as [Hd1 Hd2]. split.
    - apply NoDup_app. split_and!; [done| |apply NoDup_filter; by rewrite merge_sort_Permutation].
      by intros x Hx (Hnot & _)%list_elem_of_filter.
    - intros ty. rewrite elem_of_app, list_elem_of_filter, merge_sort_Permutation, Hd2.
      destruct (decide (ty ∈ orders)), (decide (ty = Main)); naive_solver. }
  destruct Hord as [Hon Hoin].
  pose proof (shutdown_stages_spec run (now + APPLICATION_SHUTDOWN_TIMEOUT)%N now order (set_shutting_down a)
    Ha Hrun Hon) as H.
  destruct (shutdown_stages _ _ _ _ _) as [[[ts rs] a1] now1]. destruct H as (Ha1 & Hd1 & Hf1 & Hr1 & Hrs & Hall).
  assert (Hm1 : runtimes a1 !! Main = Some lm).
  { rewrite Hr1. apply map_lookup_filter_Some. split; [done|]. rewrite Hoin. naive_solver. }
  unfold prepare_main_shutdown, get. rewrite Hm1. cbn [mbind option_bind].
  set (st := run Main _). destruct (Hrun Main (now + APPLICATION_SHUTDOWN_TIMEOUT - now1)%N) as [Hw Hs].
  fold st in Hw, Hs. pose proof (close_runtime_ok a1 lm Ha1) as Ha2. set (a2 := close_runtime lm a1) in *.
  destruct (task_steps_frame _ _ (Hw a2)) as (Hok3 & Hr3 & Hd3 & Hf3). set (a3 := sr_env_wait st a2) in *.
  destruct (task_steps_frame _ _ (Hstop (take_main_runtime a3))) as (_ & Hr4 & Hd4 & Hf4).
  set (a4 := stop (take_main_runtime a3)) in *. cbn beta iota zeta delta [returns].
  split_and!; [| | | |done|by intros Hf; apply Hf4, Hf3, Hf1].
  - rewrite Hr4. simpl. rewrite Hr3. change (runtimes a2) with (runtimes a1). rewrite Hr1.
    apply map_eq. intros k. rewrite lookup_empty. apply eq_None_not_Some. intros [x Hx].
    apply lookup_delete_Some in Hx as [Hne [Hx Hk]%map_lookup_filter_Some].
    apply Hk, Hoin. split; [done|]. right. apply Hin. split; [done|by eexists].
  - intros ty. unfold register. rewrite Hd4. simpl. rewrite Hd3. change (shutting_down a2) with (shutting_down a1).
    by rewrite Hd1.
  - by rewrite fmap_app, Hrs.
  - apply Forall_app. split; [done|]. apply Forall_singleton.
    unfold report_ok. cbn [rp_outcome rp_remaining rp_panicked].
      destruct (sr_wait_ok st); cbn [negb]; [|done]. case_bool_decide as Hrem; cbn [andb]; [|done].
      destruct (N.eqb_spec (panicked (tasks_at a3 lm)) 0); done.
Qed.

(** C14: An ordered shutdown leaves no runtime registered and refuses new ones;
    it reports every runtime that was registered, in the shutdown order, and
    [Main] last; a graceful report means no task was left and none panicked;
    the overall outcome is graceful exactly when nothing failed and every
    report is. *)
Theorem order_shutdown_spec run stop now orders a :
  app_ok a → is_Some (runtimes a !! Main) →
  (∀ ty t, stage_ok (run ty t)) → (∀ a, rtc task_step a (stop a)) →
  returns (order_shutdown run stop now orders a) (λ '(outcome, reports, a'),
    runtimes a' = ∅ ∧ (∀ ty, is_ok (register a' ty).1 = false) ∧
    (rp_runtime_type <$> reports) =
      filter (λ ty, is_Some (runtimes a !! ty)) (shutdown_order orders (runtime_types a)) ++ [Main] ∧
    (∀ r, r ∈ reports → rp_outcome r = Graceful → rp_remaining r = [] ∧ rp_panicked r = 0%N) ∧
    (outcome = Graceful ↔ failed a' = false ∧ ∀ r, r ∈ reports → rp_outcome r = Graceful)).
Proof.
  intros Ha [lm Hm] Hrun Hstop. unfold order_shutdown, get_main_runtime, get. rewrite Hm. cbn [mbind option_bind].
  pose proof (stop_all_spec run stop now orders a Ha ltac:(by eexists) Hrun Hstop) as H.
  destruct (stop_all _ _ _ _ _) as [[outcome rs] a']. destruct H as (Hr & Hd & Hty & Hok & -> & _).
  cbn. rewrite overall_graceful. split_and!; [done..| |done].
  intros r Hin. by apply (proj1 (Forall_forall _ _) Hok).
Qed.

(** ** Runs of the program *)

Inductive app_step : App → App → Prop :=
  | as_register a ty : app_step a (register a ty).2
  | as_task a a' : task_step a a' → app_step a a'
  | as_shutdown a run now t orders :
      (∀ ty t, stage_ok (run ty t)) → app_step a (shutdown run now t orders a).2.

Lemma shutdown_ok run now t orders a :
  app_ok a → (∀ ty t, stage_ok (run ty t)) → app_ok (shutdown run now t orders a).2.
Proof.
  intros Ha Hrun. unfold shutdown.
  assert (Hd : NoDup (shutdown_order orders (runtime_types (set_shutting_down a)))).
  { rewrite shutdown_order_split by apply runtime_types_spec. apply NoDup_app. split_and!.
    - apply dedup_orders_spec.
    - by intros x Hx (Hnot & _)%list_elem_of_filter.
    - apply NoDup_filter. rewrite merge_sort_Permutation. apply runtime_types_spec. }
  pose proof (shutdown_stages_spec run (now + t)%N now _ (set_shutting_down a) Ha Hrun Hd) as H.
  destruct (shutdown_stages _ _ _ _ _) as [[[ts rs] a1] now1]. destruct H as (Ha1 & _).
  unfold prepare_main_shutdown. destruct (get a1 Main) as [[ty loc]|] eqn:Hg; [|done].
  simpl. by apply (task_steps_frame _ _ (so_wait _ (Hrun _ _) _)), close_runtime_ok.
Qed.

Lemma app_step_ok a a' : app_ok a → app_step a a' → app_ok a'.
Proof.
  intros Ha. destruct 1; [by apply register_ok|by eapply task_step_ok|by apply shutdown_ok].
Qed.

(** C25: In every run of the program, tasks of a runtime that are active,
    completed, cancelled or panicked add up to the tasks it ever started:
    no task is lost or counted twice, across panics and shutdown. *)
Theorem task_accounting a loc s :
  rtc app_step registry_new a → heap a !! loc = Some s →
  let t := sh_tasks s in
  (N.of_nat (size (active t)) + completed t + cancelled t + panicked t = next_id t)%N.
Proof.
  intros Hr Hs. assert (Ha : app_ok a).
  { remember registry_new as a0 eqn:H0. assert (Ha0 : app_ok a0) by (subst; apply registry_new_ok).
    clear H0 Hs. induction Hr as [|x y z Hxy _ IH]; [done|]. eapply IH, app_step_ok; done. }
  destruct (proj1 Ha loc s Hs) as [Hc _ _]. exact Hc.
Qed.

(** The registry after one task of the main runtime panicked and another
    was started. *)
Module AccountingExample.
Definition a1 : App := (spawn registry_new (Main, 0%N) "t0").2.
Definition a2 : App := end_task a1 0 0 Panicked.
Definition a3 : App := (spawn a2 (Main, 0%N) "t1").2.

Lemma steps : rtc app_step registry_new a3.
Proof.
  eapply rtc_l; [apply as_task, (ts_spawn _ (Main, 0%N) "t0"); [by eexists|done]|].
  eapply rtc_l; [apply as_task, (ts_end _ 0 0 Panicked); by eexists|].
  eapply rtc_l; [apply as_task, (ts_spawn _ (Main, 0%N) "t1"); [by eexists|done]|]. apply rtc_refl.
Qed.
End AccountingExample.

Lemma task_accounting_witness :
  let t := tasks_at AccountingExample.a3 0 in
  (N.of_nat (size (active t)) + completed t + cancelled t + panicked t = next_id t)%N ∧ next_id t = 2%N.
Proof.
  split; [|reflexivity].
  apply (task_accounting AccountingExample.a3 0%N (shared_at AccountingExample.a3 0));
    [apply AccountingExample.steps|reflexivity].
Defined.

Lemma accepting_closed a a' loc :
  task_step a a' → accepting (tasks_at a loc) = false → accepting (tasks_at a' loc) = false.
Proof.
  assert (Hset : ∀ b l t, accepting (tasks_at b loc) = false → accepting t = accepting (tasks_at b l) →
    accepting (tasks_at (set_tasks l t b) loc) = false).
  { intros b l t Hb Ht. unfold tasks_at, shared_at, set_tasks, set_shared in *. cbn [heap].
    destruct (decide (l = loc)) as [->|Hne].
    - rewrite lookup_insert_eq. simpl in *. congruence.
    - by rewrite lookup_insert_ne. }
  intros Hs Hc. destruct Hs as [a h name Hh Hn|a l id e Hid|a]; [| |done].
  - unfold spawn. destruct (accepting (tasks_at a h.2)) eqn:Hacc; [|done]. by apply Hset.
  - unfold end_task. destruct e.
    + apply Hset; [done|]. simpl. by case_match.
    + change (accepting (tasks_at (set_tasks l (guard_panic (id, false) (tasks_at a l)).2 a) loc) = false).
      by apply Hset.
    + by apply Hset.
Qed.

(** Once the shutdown has closed a runtime, however its tasks go on, every
    spawn on it is refused and changes nothing. *)
Theorem spawn_after_close a a' h name :
  rtc task_step (close_runtime h.2 a) a' →
  ∃ e, spawn a' h name = (Err e, a').
Proof.
  intros Hr. assert (Hc : accepting (tasks_at a' h.2) = false).
  { assert (accepting (tasks_at (close_runtime h.2 a) h.2) = false) as H0.
    { unfold tasks_at, shared_at, close_runtime, set_shared. cbn [heap]. by rewrite lookup_insert_eq. }
    induction Hr as [|x y z Hxy _ IH]; [done|]. by eapply IH, accepting_closed. }
  unfold spawn. rewrite Hc. by eexists.
Qed.

Lemma spawn_after_close_witness :
  ∃ e, spawn (close_runtime 0 registry_new) (Main, 0%N) "late" = (Err e, close_runtime 0 registry_new).
Proof. apply (spawn_after_close registry_new). apply rtc_refl. Defined.

(** ** Time *)

(** If every stage comes back within the time it was given, every stage
    was given at least an equal share of the total, and the stages are over
    by the deadline. *)
Theorem shutdown_timeouts run now total ordered a :
  (∀ ty t, sr_elapsed (run ty t) ≤ t)%N →
  (N.of_nat (length ordered) + 1 < u32_mod)%N →
  let '(ts, _, _, now') := shutdown_stages run (now + total) now ordered a in
  (Forall (λ t, total / (N.of_nat (length ordered) + 1) ≤ t) ts ∧ now' ≤ now + total)%N.
Proof.
  intros Hrun. set (deadline := (now + total)%N). set (n := (N.of_nat (length ordered) + 1)%N).
  assert (∀ share now a, now ≤ deadline → share * (N.of_nat (length ordered) + 1) ≤ deadline - now →
    N.of_nat (length ordered) + 1 < u32_mod →
    let '(ts, _, _, now') := shutdown_stages run deadline now ordered a in
    Forall (λ t, share ≤ t) ts ∧ now' ≤ deadline)%N as Hgo.
  { intros share. clear n. induction ordered as [|ty ordered IH]; intros nw b Hnow Hsh Hlen; simpl; [done|].
    cbn [length] in Hsh, Hlen. set (k := (N.of_nat (S (length ordered)) + 1)%N) in *.
    set (tm := stage_timeout deadline nw k).
    assert (Htm : tm = ((deadline - nw) / k)%N).
    { unfold tm, stage_timeout, as_u32. rewrite N.mod_small by done.
      destruct (N.eqb_spec k 0); [unfold k in *; lia|done]. }
    assert (Hshare : (share ≤ tm)%N) by (rewrite Htm; apply N.div_le_lower_bound; lia).
    assert (Hk : (tm * k ≤ deadline - nw)%N) by (rewrite Htm, N.mul_comm; apply N.Div0.mul_div_le).
    destruct (shutdown_runtime b ty (run ty tm)) as [r b1] eqn:Hs.
    set (nw1 := match r with Some r => (nw + rp_elapsed r)%N | None => nw end).
    assert (Hn1 : (nw1 ≤ nw + tm)%N).
    { unfold nw1. destruct r as [r|]; [|lia]. specialize (Hrun ty tm). revert Hs. unfold shutdown_runtime.
      destruct (get b ty) as [[]|]; [|done]. destruct (runtimes _ !! ty); [|done].
      intros [= <- _]. simpl. lia. }
    assert (Hkk : k = (N.of_nat (length ordered) + 1 + 1)%N) by (unfold k; lia).
    specialize (IH nw1 b1). destruct (shutdown_stages run deadline nw1 ordered b1) as [[[ts rs] b2] nw2].
    destruct IH as [Hts Hn2]; [nia|nia|lia|]. split; [by constructor|done]. }
  intros Hlen. apply Hgo; [lia| |done]. unfold deadline, n. rewrite N.mul_comm.
  replace (now + total - now)%N with total by lia. apply N.Div0.mul_div_le.
Qed.

(** ** Witnesses *)

Module RuntimeExample.
Definition quiet (ty : RuntimeType) (t : N) : Stage := mkStage id true id true (N.min t 5).
Definition app : App := (register (register registry_new HttpApi).2 Database).2.

Lemma quiet_ok ty t : stage_ok (quiet ty t).
Proof. split; intros; apply rtc_refl. Qed.

Lemma app_fine : app_ok app.
Proof. apply register_ok, register_ok, registry_new_ok. Qed.

(** Both runtimes are reported in order, then [Main]. *)
Lemma runs :
  returns (order_shutdown quiet id 0 [Database] app) (λ '(outcome, reports, _),
    outcome = Graceful ∧ (rp_runtime_type <$> reports) = [Database; HttpApi; Main]).
Proof. vm_compute. done. Qed.
End RuntimeExample.

Lemma order_shutdown_spec_witness :
  returns (order_shutdown RuntimeExample.quiet id 0 [Database] RuntimeExample.app)
    (λ '(outcome, reports, a'),
    runtimes a' = ∅ ∧ (∀ ty, is_ok (register a' ty).1 = false) ∧
    (rp_runtime_type <$> reports) =
      filter (λ ty, is_Some (runtimes RuntimeExample.app !! ty))
        (shutdown_order [Database] (runtime_types RuntimeExample.app)) ++ [Main] ∧
    (∀ r, r ∈ reports → rp_outcome r = Graceful → rp_remaining r = [] ∧ rp_panicked r = 0%N) ∧
    (outcome = Graceful ↔ failed a' = false ∧ ∀ r, r ∈ reports → rp_outcome r = Graceful)).
Proof.
  apply order_shutdown_spec; [apply RuntimeExample.app_fine|by eexists|apply RuntimeExample.quiet_ok|].
  intros a. apply rtc_refl.
Defined.

Lemma shutdown_timeouts_witness :
  let '(ts, _, _, now') := shutdown_stages RuntimeExample.quiet (100 + 90) 100 [Database; HttpApi]
                             RuntimeExample.app in
  (Forall (λ t, 90 / (N.of_nat 2 + 1) ≤ t) ts ∧ now' ≤ 100 + 90)%N.
Proof.
  apply (shutdown_timeouts RuntimeExample.quiet 100 90 [Database; HttpApi] RuntimeExample.app).
  - intros ty t. unfold RuntimeExample.quiet. simpl. apply N.le_min_l.
  - reflexivity.
Defined.
