(* ===== verification/RuntimeGraceful.v ===== *)
(** * When a shutdown is graceful (base/src/utils/rt.rs)

    The converse of [Runtime.order_shutdown_spec]: if nothing has failed, no
    task panics, and the tasks of every runtime end within the stage of their
    runtime, then the shutdown is graceful, and each report accounts for
    every task the runtime ever started.  What happens while a shutdown goes
    on is a preorder on applications ([evolves]) under which a runtime that
    was closed and came to rest never changes again. *)
From S2P Require Import Prelude Errors Runtime.

(** ** Runs without panics *)

(** [task_step] without panics and without a service that reports a failure. *)
Inductive calm_step : App → App → Prop :=
  | cs_spawn a h name :
      is_Some (heap a !! h.2) → (next_id (tasks_at a h.2) < u64_max)%N →
      calm_step a (spawn a h name).2
  | cs_end a loc id e :
      is_Some (active (tasks_at a loc) !! id) → e ≠ Panicked → calm_step a (end_task a loc id e).

Lemma calm_task_step a a' : calm_step a a' → task_step a a'.
Proof. destruct 1; by constructor. Qed.

Definition calm (a : App) : Prop := failed a = false ∧ ∀ loc, panicked (tasks_at a loc) = 0%N.

(** A runtime that takes no task any more and has none left. *)
Definition settled (a : App) (loc : N) : Prop :=
  accepting (tasks_at a loc) = false ∧ active (tasks_at a loc) = ∅.

Lemma tasks_at_set_shared a l s loc :
  tasks_at (set_shared l s a) loc = if decide (l = loc) then sh_tasks s else tasks_at a loc.
Proof.
  unfold tasks_at, shared_at. simpl.
  case_decide as Hl; [subst l; by rewrite lookup_insert_eq|by rewrite lookup_insert_ne].
Qed.

(** ** How an application evolves *)

Record evolves (a a' : App) : Prop := {
  ev_ok : app_ok a → app_ok a';
  ev_calm : calm a → calm a';
  ev_runtimes : runtimes a' ⊆ runtimes a;
  ev_settled loc : settled a loc → tasks_at a' loc = tasks_at a loc;
}.

#[export] Instance evolves_preorder : PreOrder evolves.
Proof.
  split.
  - intros a. by split.
  - intros a b c [H1 H2 H3 H4] [K1 K2 K3 K4]. split; [tauto|tauto|by etrans|]. intros loc Hl.
    rewrite K4; [by apply H4|]. unfold settled. by rewrite (H4 loc Hl).
Qed.

(** Writing a runtime's tasks that did not panic evolves the application,
    if a settled runtime is written back as it was. *)
Lemma set_shared_evolves a l s :
  (app_ok a → tasks_ok (sh_tasks s)) →
  panicked (sh_tasks s) = panicked (tasks_at a l) →
  (settled a l → sh_tasks s = tasks_at a l) → evolves a (set_shared l s a).
Proof.
  intros Hok Hp Hs. split; [|intros [Hf Hc]|done|].
  - intros Ha. apply set_shared_ok; [done|by apply Hok].
  - split; [done|]. intros loc. rewrite tasks_at_set_shared. case_decide; [by subst; rewrite Hp|done].
  - intros loc Hl. rewrite tasks_at_set_shared. case_decide as He; [|done]. subst loc. by apply Hs.
Qed.

Lemma calm_step_evolves a a' : calm_step a a' → evolves a a'.
Proof.
  intros Hs. pose proof (task_step_ok a a') as Hok. pose proof (calm_task_step _ _ Hs) as Ht.
  destruct (task_step_frame _ _ Ht) as (Hr & _ & _). split; [by intros; apply Hok|..|by rewrite Hr|].
  - intros Hc. destruct Hs as [a h name Hh Hn|a loc id e Hid He].
    + unfold spawn. destruct (accepting _); [|done]. split; [apply Hc|]. intros l. cbn -[tasks_at].
      unfold set_tasks. rewrite tasks_at_set_shared. case_decide; [|apply Hc]. apply Hc.
    + destruct e; [|done|]; (split; [apply Hc|]); intros l; unfold end_task, set_tasks; cbn -[tasks_at];
        rewrite tasks_at_set_shared; (case_decide; [|apply Hc]); simpl; [case_match|]; apply Hc.
  - intros l [Hacc Hact]. destruct Hs as [a h name Hh Hn|a loc id e Hid He].
    + unfold spawn. destruct (accepting (tasks_at a h.2)) eqn:E; [|done]. cbn -[tasks_at].
      unfold set_tasks. rewrite tasks_at_set_shared. case_decide; [congruence|done].
    + assert (loc ≠ l) as Hne.
      { intros ->. rewrite Hact in Hid. destruct Hid as [? Hid]. by rewrite (lookup_empty (M:=gmap N)) in Hid. }
      destruct e; [|done|]; unfold end_task, set_tasks; cbn -[tasks_at]; rewrite tasks_at_set_shared;
        by rewrite decide_False.
Qed.

Lemma calm_steps_evolve a a' : rtc calm_step a a' → evolves a a'.
Proof. induction 1; [done|]. etrans; [by apply calm_step_evolves|done]. Qed.

Lemma calm_steps_runtimes a a' : rtc calm_step a a' → runtimes a' = runtimes a.
Proof. intros Hr. by apply (task_steps_frame a a'), (rtc_subrel _ _ _ _ calm_task_step). Qed.

Lemma close_runtime_evolves loc a : evolves a (close_runtime loc a).
Proof.
  apply set_shared_evolves; simpl; [|done|].
  - intros Ha. destruct (tasks_at_ok a loc Ha). by split.
  - intros [Hacc _]. unfold tasks_close. rewrite <- Hacc. by destruct (tasks_at a loc).
Qed.

Lemma remove_runtime_evolves ty a : evolves a (remove_runtime ty a).
Proof. split; [apply remove_runtime_ok|done|apply delete_subseteq|done]. Qed.

(** ** Reports that tell of everything *)

(** A graceful report of a settled runtime that accounts for all its tasks. *)
Definition accounts (a : App) (loc : N) (r : RuntimeShutdownReport) : Prop :=
  rp_outcome r = Graceful ∧ rp_remaining r = [] ∧ rp_panicked r = 0%N ∧ settled a loc ∧
  (rp_completed r + rp_cancelled r = next_id (tasks_at a loc))%N.

Lemma accounts_evolves a a' loc r : evolves a a' → accounts a loc r → accounts a' loc r.
Proof.
  intros He (H1 & H2 & H3 & Hs & H4). pose proof (ev_settled _ _ He loc Hs) as Ht.
  split_and!; [done..| |by rewrite Ht]. unfold settled. by rewrite Ht.
Qed.

(** A settled runtime of a calm application has completed or cancelled
    every task. *)
Lemma settled_total a loc : app_ok a → calm a → settled a loc →
  (completed (tasks_at a loc) + cancelled (tasks_at a loc) = next_id (tasks_at a loc))%N.
Proof.
  intros Ha [_ Hc] [_ Hs]. destruct (tasks_at_ok a loc Ha) as [Hn _ _]. specialize (Hc loc).
  rewrite Hs, map_size_empty in Hn. lia.
Qed.

(** What a stage of [ty] does when all goes well: nothing panics, both awaits
    come back, and, as [TaskTracker::wait] promises, no task of the runtime is
    left once the tracker that was closed has come back. *)
Record timely (ty : RuntimeType) (st : Stage) : Prop := {
  ti_wait a : rtc calm_step a (sr_env_wait st a);
  ti_stop a : rtc calm_step a (sr_env_stop st a);
  ti_wait_ok : sr_wait_ok st = true;
  ti_stop_ok : sr_stop_ok st = true;
  ti_tracker a loc : runtimes a !! ty = Some loc → sh_tracker_closed (shared_at a loc) = true →
    active (tasks_at (sr_env_wait st a) loc) = ∅;
}.

Section stage.
Context (ty : RuntimeType) (st : Stage) (Hst : timely ty st).

(** The runtime has settled when the wait of its stage is over. *)
Lemma wait_settles a loc : runtimes a !! ty = Some loc →
  settled (sr_env_wait st (close_runtime loc a)) loc.
Proof.
  intros Hty. split.
  - pose proof (rtc_subrel _ _ _ _ calm_task_step (ti_wait _ _ Hst (close_runtime loc a))) as Hr.
    assert (H0 : accepting (tasks_at (close_runtime loc a) loc) = false).
    { unfold close_runtime. rewrite tasks_at_set_shared. by rewrite decide_True. }
    induction Hr as [|x y z Hxy _ IH]; [done|]. by eapply IH, accepting_closed.
  - apply (ti_tracker _ _ Hst); [done|]. unfold shared_at, close_runtime. simpl. by rewrite lookup_insert_eq.
Qed.

Lemma shutdown_runtime_graceful a : app_ok a → calm a →
  let '(r, a') := shutdown_runtime a ty st in
  evolves a a' ∧
  match r with
  | Some r => ∃ loc, runtimes a !! rp_runtime_type r = Some loc ∧ accounts a' loc r
  | None => True
  end.
Proof.
  intros Ha Hc. unfold shutdown_runtime, get.
  destruct (runtimes a !! ty) as [loc|] eqn:Hty; cbn [mbind option_bind]; [|done].
  pose proof (wait_settles a loc Hty) as Hs. pose proof (close_runtime_evolves loc a) as E1.
  pose proof (calm_steps_evolve _ _ (ti_wait _ _ Hst (close_runtime loc a))) as E2.
  rewrite (calm_steps_runtimes _ _ (ti_wait _ _ Hst (close_runtime loc a))).
  change (runtimes (close_runtime loc a)) with (runtimes a). rewrite Hty.
  set (a2 := sr_env_wait st (close_runtime loc a)) in *.
  pose proof (remove_runtime_evolves ty a2) as E3.
  pose proof (calm_steps_evolve _ _ (ti_stop _ _ Hst (remove_runtime ty a2))) as E4.
  set (a4 := sr_env_stop st (remove_runtime ty a2)) in *.
  assert (E24 : evolves a2 a4) by by etrans. assert (E : evolves a a4) by (do 2 (etrans; [done|]); done).
  assert (Hs4 : settled a4 loc) by (unfold settled; by rewrite (ev_settled _ _ E24 loc Hs)).
  split; [done|]. exists loc. split; [done|]. destruct (ev_calm _ _ E Hc) as [_ Hp].
  rewrite (ti_wait_ok _ _ Hst), (ti_stop_ok _ _ Hst), (Hp loc).
  rewrite (proj2 (active_names_nil (tasks_at a4 loc)) (proj2 Hs4)). cbn.
  split_and!; [done..|]. apply settled_total; [by apply E|by apply E|done].
Qed.
End stage.

Lemma main_graceful st a : timely Main st → app_ok a → calm a →
  let '(r, a') := prepare_main_shutdown a st in
  evolves a a' ∧
  match r with
  | Some r => ∃ loc, runtimes a !! rp_runtime_type r = Some loc ∧ accounts a' loc r
  | None => True
  end.
Proof.
  intros Hst Ha Hc. unfold prepare_main_shutdown, get.
  destruct (runtimes a !! Main) as [loc|] eqn:Hty; cbn [mbind option_bind]; [|done].
  pose proof (wait_settles Main st Hst a loc Hty) as Hs.
  assert (E : evolves a (sr_env_wait st (close_runtime loc a))).
  { etrans; [apply close_runtime_evolves|apply calm_steps_evolve, (ti_wait _ _ Hst)]. }
  set (a2 := sr_env_wait st (close_runtime loc a)) in *.
  split; [done|]. exists loc. split; [done|]. destruct (ev_calm _ _ E Hc) as [_ Hp].
  rewrite (ti_wait_ok _ _ Hst), (Hp loc), (proj2 (active_names_nil (tasks_at a2 loc)) (proj2 Hs)). cbn.
  split_and!; [done..|]. apply settled_total; [by apply E|by apply E|done].
Qed.

Lemma shutdown_stages_graceful run deadline now ordered a :
  (∀ ty t, timely ty (run ty t)) → app_ok a → calm a →
  let '(_, rs, a', _) := shutdown_stages run deadline now ordered a in
  evolves a a' ∧
  Forall (λ r, ∃ loc, runtimes a !! rp_runtime_type r = Some loc ∧ accounts a' loc r) rs.
Proof.
  intros Hrun. revert now a. induction ordered as [|ty ordered IH]; intros now a Ha Hc; simpl; [done|].
  set (t := stage_timeout _ _ _). pose proof (shutdown_runtime_graceful ty (run ty t) (Hrun ty t) a Ha Hc) as H.
  destruct (shutdown_runtime a ty (run ty t)) as [r a1]. destruct H as [E1 Hr].
  specialize (IH (match r with Some r => (now + rp_elapsed r)%N | None => now end) a1
    (ev_ok _ _ E1 Ha) (ev_calm _ _ E1 Hc)).
  destruct (shutdown_stages run deadline _ ordered a1) as [[[ts rs] a2] now2]. destruct IH as [E2 Hrs].
  split; [by etrans|]. apply Forall_app. split.
  - destruct r as [r|]; [|constructor]. apply Forall_singleton. destruct Hr as (loc & Hl & Hacc).
    exists loc. split; [done|by eapply accounts_evolves].
  - eapply Forall_impl; [exact Hrs|]. intros r' (loc & Hl & Hacc). exists loc. split; [|done].
    by eapply lookup_weaken, ev_runtimes.
Qed.

(** C15: An ordered shutdown of an application in which nothing failed is
    graceful if no task panics and every stage comes back in time, with the
    tasks of its runtime ended: each report is graceful, and its completed and
    cancelled tasks are all the tasks its runtime had ever started by the end
    of the shutdown. *)
Theorem graceful_shutdown run stop now orders a :
  app_ok a → is_Some (runtimes a !! Main) → calm a →
  (∀ ty t, timely ty (run ty t)) → (∀ a, rtc calm_step a (stop a)) →
  returns (order_shutdown run stop now orders a) (λ '(outcome, reports, a'),
    outcome = Graceful ∧
    ∀ r, r ∈ reports → ∃ loc, runtimes a !! rp_runtime_type r = Some loc ∧ accounts a' loc r).
Proof.
  intros Ha [lm Hm] Hc Hrun Hstop. unfold order_shutdown, get_main_runtime, get. rewrite Hm. cbn [mbind option_bind].
  unfold stop_all, shutdown. change (runtime_types (set_shutting_down a)) with (runtime_types a).
  set (a0 := set_shutting_down a). set (order := shutdown_order orders (runtime_types a)).
  pose proof (shutdown_stages_graceful run (now + APPLICATION_SHUTDOWN_TIMEOUT)%N now order a0 Hrun Ha Hc) as H.
  destruct (shutdown_stages _ _ _ _ _) as [[[ts rs] a1] now1]. destruct H as [E1 Hrs].
  set (st := run Main _). pose proof (Hrun Main (now + APPLICATION_SHUTDOWN_TIMEOUT - now1)%N : timely Main st) as Hst.
  pose proof (main_graceful st a1 Hst (ev_ok _ _ E1 Ha) (ev_calm _ _ E1 Hc)) as H.
  destruct (prepare_main_shutdown a1 st) as [rm a2]. destruct H as [E2 Hrm].
  assert (E3 : evolves a2 (stop (take_main_runtime a2))).
  { etrans; [apply (remove_runtime_evolves Main)|by apply calm_steps_evolve]. }
  set (a3 := stop (take_main_runtime a2)) in *.
  assert (E : evolves a0 a3) by (etrans; [done|by etrans]).
  assert (Hall : ∀ r, r ∈ rs ++ option_list rm →
    ∃ loc, runtimes a !! rp_runtime_type r = Some loc ∧ accounts a3 loc r).
  { apply Forall_forall, Forall_app. split.
    - eapply Forall_impl; [exact Hrs|]. intros r (loc & Hl & Hacc). exists loc. split; [done|].
      apply (accounts_evolves a1 a3); [by etrans|done].
    - destruct rm as [r|]; [|constructor]. apply Forall_singleton. destruct Hrm as (loc & Hl & Hacc).
      exists loc. split; [exact (lookup_weaken _ _ _ _ Hl (ev_runtimes _ _ E1))|exact (accounts_evolves _ _ _ _ E3 Hacc)]. }
  cbn. split; [|done]. apply overall_graceful. split.
  - by apply (ev_calm _ _ E).
  - intros r Hr. by destruct (Hall r Hr) as (loc & _ & Hg & _).
Qed.

(** ** Witness: tasks that end when they are told to *)

Module GracefulExample.
(** The runtime's tasks with these ids end, one after the other. *)
Definition finish (loc : N) (a : App) (id : N) : App :=
  if decide (is_Some (active (tasks_at a loc) !! id)) then end_task a loc id Finished else a.
Definition drain (loc : N) (a : App) : App :=
  foldl (finish loc) a (map_to_list (active (tasks_at a loc))).*1.
Definition obedient (ty : RuntimeType) (t : N) : Stage :=
  mkStage (λ a, match runtimes a !! ty with Some loc => drain loc a | None => a end) true id true (N.min t 5).

Lemma finish_calm loc ids a : rtc calm_step a (foldl (finish loc) a ids).
Proof.
  revert a. induction ids as [|id ids IH]; intros a; [done|]. simpl. unfold finish at 2. case_decide as Hd; [|apply IH].
  eapply rtc_l; [by apply (cs_end a loc id Finished)|apply IH].
Qed.

Lemma finish_active loc ids a id :
  active (tasks_at (foldl (finish loc) a ids) loc) !! id =
  if decide (id ∈ ids) then None else active (tasks_at a loc) !! id.
Proof.
  revert a. induction ids as [|i ids IH]; intros a; [by rewrite decide_False by apply not_elem_of_nil|]. simpl. rewrite IH.
  assert (Hf : active (tasks_at (finish loc a i) loc) = delete i (active (tasks_at a loc))).
  { unfold finish. destruct (decide (is_Some (active (tasks_at a loc) !! i))) as [Hd|Hd].
    - change (end_task a loc i Finished) with
        (set_tasks loc (guard_complete (i, false) (sh_cancel (shared_at a loc)) (tasks_at a loc)).2 a).
      unfold set_tasks. rewrite tasks_at_set_shared, decide_True by done.
      by destruct (sh_cancel (shared_at a loc)).
    - symmetry. apply delete_id. by apply eq_None_not_Some. }
  rewrite Hf. destruct (decide (id ∈ ids)), (decide (id ∈ i :: ids)) as [Hin|Hni]; [done|set_solver|..].
  - apply elem_of_cons in Hin as [->|]; [|done]. by rewrite lookup_delete_eq.
  - apply not_elem_of_cons in Hni as [Hne _]. by rewrite lookup_delete_ne.
Qed.

Lemma obedient_timely ty t : timely ty (obedient ty t).
Proof.
  split; [|intros; apply rtc_refl|done..|].
  - intros a. simpl. destruct (runtimes a !! ty); [apply finish_calm|apply rtc_refl].
  - intros a loc Hl _. simpl. rewrite Hl. apply map_eq. intros id. unfold drain. rewrite finish_active, lookup_empty.
    case_decide as Hd; [done|]. apply eq_None_not_Some. intros [x Hx]. apply Hd, list_elem_of_fmap.
    exists (id, x). split; [done|]. by apply elem_of_map_to_list.
Qed.

(** Three runtimes, two tasks at work. *)
Definition app1 : App := (spawn RuntimeExample.app (Main, 0%N) "main").2.
Definition app : App := (spawn app1 (HttpApi, 1%N) "serve").2.

Lemma app_steps : rtc calm_step RuntimeExample.app app.
Proof.
  eapply rtc_l; [apply (cs_spawn _ (Main, 0%N) "main"); [by eexists|done]|].
  eapply rtc_l; [apply (cs_spawn _ (HttpApi, 1%N) "serve"); [by eexists|done]|]. apply rtc_refl.
Qed.

Lemma app_calm : calm RuntimeExample.app.
Proof.
  split; [done|]. intros loc. unfold tasks_at, shared_at.
  destruct (heap RuntimeExample.app !! loc) as [s|] eqn:Hs; [|done].
  apply elem_of_map_to_list in Hs. vm_compute in Hs.
  repeat (apply elem_of_cons in Hs as [[= -> ->]|Hs]; [done|]). by apply elem_of_nil in Hs.
Qed.
End GracefulExample.

Lemma graceful_shutdown_witness :
  returns (order_shutdown GracefulExample.obedient id 0 [Database] GracefulExample.app) (λ '(outcome, reports, a'),
    outcome = Graceful ∧
    ∀ r, r ∈ reports → ∃ loc, runtimes GracefulExample.app !! rp_runtime_type r = Some loc ∧ accounts a' loc r).
Proof.
  pose proof (calm_steps_evolve _ _ GracefulExample.app_steps) as E. apply graceful_shutdown.
  - apply E, RuntimeExample.app_fine.
  - by eexists.
  - apply E, GracefulExample.app_calm.
  - apply GracefulExample.obedient_timely.
  - intros a. apply rtc_refl.
Defined.

(** Evaluated: both tasks are reported as completed or cancelled. *)
Example reports_evaluated :
  returns (order_shutdown GracefulExample.obedient id 0 [Database] GracefulExample.app) (λ '(outcome, reports, _),
    outcome = Graceful ∧
    (λ r, (rp_runtime_type r, (rp_completed r + rp_cancelled r)%N)) <$> reports =
      [(Database, 0%N); (HttpApi, 1%N); (Main, 1%N)]).
Proof. vm_compute. done. Qed.
