(* ===== verification/NetFrame.v ===== *)
(** * Framing and vectored writes (base/src/net/rw.rs, first and last part)

    Inline prefixes, packet encoders, the write loop over two slices, the
    accept back-off and the read-buffer policy.  A socket is known by what an
    [AsyncWrite] promises: a write takes a prefix of what it is given, and an
    error takes nothing. *)
From stdpp Require Import pretty.
From S2P Require Import Prelude Errors Bytes.

Definition MAX_BUF_SIZE : N := 2 * 1024 * 1024.
Definition TCP_READ_BUF_SIZE : N := 64 * 1024.
Definition TCP_MIN_READ_SPARE : N := 4 * 1024.
Definition TCP_ACCEPT_ERROR_BACKOFF_MIN : N := 10000000.
Definition TCP_ACCEPT_ERROR_BACKOFF_MAX : N := 1000000000.
Definition TCP_WRITE_QUEUE_SIZE : N := 1024.
Definition INLINE_PREFIX_CAPACITY : nat := 16.
(** [Duration::MAX], in nanoseconds. *)
Definition DURATION_MAX : N := u64_max * 1000000000 + 999999999.

(** ** Inline prefixes *)

Record InlinePrefix := mkPrefix { ip_len : N; ip_data : list byte }.

(** [data[idx] = *byte] for every byte of the prefix. *)
Fixpoint fill (data : list byte) (idx : nat) (prefix : list byte) : exec (list byte) :=
  match prefix with
  | [] => Ret data
  | b :: prefix =>
      match data !! idx with
      | Some _ => fill (<[idx := b]> data) (S idx) prefix
      | None => Panic
      end
  end.

Definition prefix_new (prefix : list byte) : exec (GlobalResult InlinePrefix) :=
  if (INLINE_PREFIX_CAPACITY <? length prefix)%nat then
    Ret (Err (SysErr "inline packet prefix exceeds capacity"))
  else
    data ← fill (replicate INLINE_PREFIX_CAPACITY 0%N) 0 prefix;
    Ret (Ok (mkPrefix (N.of_nat (length prefix) mod u8_mod) data)).

Definition from_number_bytes (prefix : list byte) : exec InlinePrefix :=
  data ← fill (replicate INLINE_PREFIX_CAPACITY 0%N) 0 prefix;
  Ret (mkPrefix (N.of_nat (length prefix) mod u8_mod) data).

(** [&self.data[..self.len()]]. *)
Definition as_slice (p : InlinePrefix) : exec (list byte) :=
  if (N.to_nat (ip_len p) <=? length (ip_data p))%nat
  then Ret (take (N.to_nat (ip_len p)) (ip_data p)) else Panic.

Definition is_empty_prefix (p : InlinePrefix) : bool := (ip_len p =? 0)%N.

(** [to_le_bytes] and [to_be_bytes] of an integer of [w] bytes. *)
Fixpoint le_bytes (w : nat) (n : N) : list byte :=
  match w with
  | O => []
  | S w => (n mod 256)%N :: le_bytes w (n / 256)
  end.
Definition be_bytes (w : nat) (n : N) : list byte := reverse (le_bytes w n).

(** [impl InlinePrefixNumber for u8, u16, u32, u64, u128], by width; the
    native order is the target's. *)
Definition from_be (w : nat) (n : N) : exec InlinePrefix := from_number_bytes (be_bytes w n).
Definition from_le (w : nat) (n : N) : exec InlinePrefix := from_number_bytes (le_bytes w n).
Definition from_ne (target_is_le : bool) (w : nat) (n : N) : exec InlinePrefix :=
  from_number_bytes (if target_is_le then le_bytes w n else be_bytes w n).

(** The macro [inline_prefix]: the order may be left out. *)
Inductive ByteOrder := OrderBe | OrderLe | OrderNe.
Definition inline_prefix (target_is_le : bool) (order : option ByteOrder) (w : nat) (n : N) : exec InlinePrefix :=
  match order with
  | None | Some OrderBe => from_be w n
  | Some OrderLe => from_le w n
  | Some OrderNe => from_ne target_is_le w n
  end.

(** ** Packets and encoders *)

Inductive EncodedPacket :=
  | Single (data : list byte)
  | WithInlinePrefix (prefix : InlinePrefix) (payload : list byte).

(** The trait [PacketEncoder] with its default methods. *)
Class PacketEncoder (E : Type) := {
  encode_udp : E → list byte → GlobalResult (list byte);
  encode_tcp : E → list byte → exec (GlobalResult EncodedPacket);
}.

Inductive RawPacketEncoder := Raw.
#[export] Instance raw_encoder : PacketEncoder RawPacketEncoder := {
  encode_udp _ data := Ok data;
  encode_tcp _ data := Ret (Ok (Single data));
}.

Inductive U16BeLengthPrefixEncoder := U16Be.
Definition u16be_encode_tcp (data : list byte) : exec (GlobalResult EncodedPacket) :=
  if (u16_max <? N.of_nat (length data))%N then
    Ret (Err (SysErr "packet length exceeds u16 max"))
  else
    prefix ← from_be 2 (N.of_nat (length data) mod 65536);
    Ret (Ok (WithInlinePrefix prefix data)).
#[export] Instance u16be_encoder : PacketEncoder U16BeLengthPrefixEncoder := {
  encode_udp _ data := Ok data;
  encode_tcp _ data := u16be_encode_tcp data;
}.

(** The bytes a packet puts on the wire. *)
Definition wire (p : EncodedPacket) : exec (list byte) :=
  match p with
  | Single data => Ret data
  | WithInlinePrefix prefix payload => pre ← as_slice prefix; Ret (pre ++ payload)
  end.

Inductive TcpWriteMode := Queued (queue_size : N) | Direct.
Definition default_write_mode : TcpWriteMode := Queued TCP_WRITE_QUEUE_SIZE.
Definition queue_size (m : TcpWriteMode) : option N :=
  match m with Queued n => Some (N.max n 1) | Direct => None end.

(** ** Writing *)

(** [io::Error], as far as the loops tell errors apart. *)
Inductive IoError := WriteZero | OtherIo.

Section writing.
(** [stream.write], [stream.write_vectored] and [stream.write_all]. *)
Context {W : Type}.
Context (write : W → list byte → W * result nat IoError).
Context (write_vectored : W → list (list byte) → W * result nat IoError).
Context (write_all : W → list byte → W * result unit IoError).

(** The write of one turn of the loop. *)
Definition write_turn (w : W) (first second : list byte) : W * result nat IoError :=
  match first, second with
  | [], _ => write w second
  | _, [] => write w first
  | _, _ => write_vectored w [first; second]
  end.

(** The loop of [write_all_vectored_2]; each turn sends a byte at least, so
    the number of bytes is enough fuel; [None] is running out of it. *)
Fixpoint vectored_loop (fuel : nat) (w : W) (first second : list byte) :
    option (W * result unit IoError) :=
  match first, second with
  | [], [] => Some (w, Ok ())
  | _, _ =>
      match fuel with
      | O => None
      | S fuel =>
          let '(w, r) := write_turn w first second in
          match r with
          | Err e => Some (w, Err e)
          | Ok O => Some (w, Err WriteZero)
          | Ok written =>
              if (written <? length first)%nat
              then vectored_loop fuel w (drop written first) second
              else vectored_loop fuel w []
                     (drop (Nat.min (written - length first) (length second)) second)
          end
      end
  end.

Definition write_all_vectored_2 (w : W) (first second : list byte) :
    option (W * result unit IoError) :=
  vectored_loop (length first + length second) w first second.

Definition write_encoded_packet (w : W) (p : EncodedPacket) :
    exec (option (W * result unit IoError)) :=
  match p with
  | Single data => Ret (Some (write_all w data))
  | WithInlinePrefix prefix payload =>
      pre ← as_slice prefix; Ret (write_all_vectored_2 w pre payload)
  end.
End writing.

(** The contract of [AsyncWrite], on the bytes a stream has accepted. *)
Class AsyncWrite {W : Type} (write : W → list byte → W * result nat IoError)
    (write_vectored : W → list (list byte) → W * result nat IoError)
    (write_all : W → list byte → W * result unit IoError) (sent : W → list byte) : Prop := {
  aw_write w buf :
    match write w buf with
    | (w', Ok n) => n ≤ length buf ∧ sent w' = sent w ++ take n buf
    | (w', Err _) => sent w' = sent w
    end;
  aw_vectored w bufs :
    match write_vectored w bufs with
    | (w', Ok n) => n ≤ length (concat bufs) ∧ sent w' = sent w ++ take n (concat bufs)
    | (w', Err _) => sent w' = sent w
    end;
  aw_all w buf :
    match write_all w buf with
    | (w', Ok _) => sent w' = sent w ++ buf
    | (w', Err _) => ∃ n, sent w' = sent w ++ take n buf
    end;
}.

(** ** Back-off and read buffer *)

Definition next_accept_error_backoff (current : N) : N :=
  if (current =? 0)%N then TCP_ACCEPT_ERROR_BACKOFF_MIN
  else N.min (N.min (current * 2) DURATION_MAX) TCP_ACCEPT_ERROR_BACKOFF_MAX.

(** [ensure_spare_capacity]: the capacity of a buffer of [len] bytes;
    [reserve] is the buffer's own growth. *)
Definition ensure_spare_capacity (reserve : N → N → N → N) (cap len min_spare reserve_size : N) : N :=
  if (cap - len <? min_spare)%N then reserve cap len reserve_size else cap.

(** ** Lemmas *)

Lemma fill_spec pre data :
  ∀ done, length done + length pre ≤ length data →
  fill (done ++ drop (length done) data) (length done) pre =
  Ret (done ++ pre ++ drop (length done + length pre) data).
Proof.
  induction pre as [|b pre IH]; intros dn Hl; simpl in *.
  { by rewrite Nat.add_0_r. }
  rewrite lookup_app_r, Nat.sub_diag by lia.
  destruct (drop (length dn) data) as [|x rest] eqn:Hd.
  { apply (f_equal length) in Hd. rewrite length_drop in Hd. simpl in Hd. lia. }
  simpl. rewrite insert_app_r_alt, Nat.sub_diag by lia. simpl.
  assert (Hrest : rest = drop (length (dn ++ [b])) data).
  { rewrite length_app. simpl. replace rest with (drop 1 (drop (length dn) data)) by by rewrite Hd.
    rewrite drop_drop. f_equal; lia. }
  replace (dn ++ b :: rest) with ((dn ++ [b]) ++ drop (length (dn ++ [b])) data)
    by by rewrite <- Hrest, <- app_assoc.
  replace (S (length dn)) with (length (dn ++ [b])) by (rewrite length_app; simpl; lia).
  rewrite IH by (rewrite length_app; simpl; lia). rewrite <- app_assoc, length_app. simpl.
  by replace (length dn + 1 + length pre) with (length dn + S (length pre)) by lia.
Qed.

Lemma fill_prefix pre :
  length pre ≤ INLINE_PREFIX_CAPACITY →
  fill (replicate INLINE_PREFIX_CAPACITY 0%N) 0 pre =
  Ret (pre ++ replicate (INLINE_PREFIX_CAPACITY - length pre) 0%N).
Proof.
  intros Hl. set (data := replicate INLINE_PREFIX_CAPACITY 0%N).
  assert (Hd : length data = INLINE_PREFIX_CAPACITY) by apply length_replicate.
  pose proof (fill_spec pre data [] ltac:(cbn [length]; lia)) as H. cbn [length app Nat.add] in H.
  rewrite drop_0 in H. rewrite H. subst data. by rewrite drop_replicate.
Qed.

Lemma from_number_bytes_slice pre :
  length pre ≤ INLINE_PREFIX_CAPACITY →
  ∃ p, from_number_bytes pre = Ret p ∧ as_slice p = Ret pre.
Proof.
  intros Hl. unfold from_number_bytes. rewrite fill_prefix by done. cbn [mbind exec_bind].
  eexists. split; [done|]. unfold as_slice. simpl.
  assert (N.of_nat (length pre) mod u8_mod = N.of_nat (length pre))%N as ->.
  { apply N.mod_small. unfold INLINE_PREFIX_CAPACITY, u8_mod in *. lia. }
  rewrite Nat2N.id, length_app. destruct (Nat.leb_spec (length pre) (length pre +
    length (replicate (INLINE_PREFIX_CAPACITY - length pre) 0%N))); [|lia].
  by rewrite take_app_length.
Qed.

Lemma le_bytes_length w n : length (le_bytes w n) = w.
Proof. revert n. induction w; simpl; auto. Qed.
Lemma be_bytes_length w n : length (be_bytes w n) = w.
Proof. unfold be_bytes. by rewrite length_reverse, le_bytes_length. Qed.

Lemma le_bytes_ok w n : Forall byte_ok (le_bytes w n).
Proof.
  revert n. induction w as [|w IH]; intros n; constructor; [|done].
  unfold byte_ok. by apply N.mod_lt.
Qed.

(** The number little-endian bytes stand for. *)
Definition le_value (l : list byte) : N := foldr (λ b acc, b + 256 * acc)%N 0%N l.

Lemma le_value_bytes w n : (n < 256 ^ N.of_nat w)%N → le_value (le_bytes w n) = n.
Proof.
  revert n. induction w as [|w IH]; intros n Hn.
  { simpl in *. lia. }
  assert (H16 : (256 ^ N.of_nat (S w) = 256 * 256 ^ N.of_nat w)%N) by (rewrite Nat2N.inj_succ; apply N.pow_succ_r').
  rewrite H16 in Hn. simpl. rewrite IH by (apply N.Div0.div_lt_upper_bound; lia).
  rewrite (N.Div0.div_mod n 256) at 3. lia.
Qed.

(** ** Frames on the wire *)

(** A reader of length-prefixed frames: what a peer's splitter must do. *)
Fixpoint read_frames (fuel : nat) (s : list byte) : option (list (list byte)) :=
  match fuel, s with
  | _, [] => Some []
  | S fuel, hi :: lo :: s =>
      let n := N.to_nat (le_value [lo; hi]) in
      if (n <=? length s)%nat
      then rest ← read_frames fuel (drop n s); Some (take n s :: rest)
      else None
  | _, _ => None
  end.

Lemma u16be_encode data :
  (N.of_nat (length data) ≤ u16_max)%N →
  ∃ p hi lo, u16be_encode_tcp data = Ret (Ok p) ∧ wire p = Ret (hi :: lo :: data) ∧
    le_value [lo; hi] = N.of_nat (length data).
Proof.
  intros Hl. unfold u16be_encode_tcp. destruct (N.ltb_spec u16_max (N.of_nat (length data))); [lia|].
  set (n := (N.of_nat (length data) mod 65536)%N).
  assert (Hn : n = N.of_nat (length data)) by (apply N.mod_small; unfold u16_max in *; lia).
  destruct (from_number_bytes_slice (be_bytes 2 n)) as (p & Hp & Hs).
  { rewrite be_bytes_length. unfold INLINE_PREFIX_CAPACITY. lia. }
  unfold from_be. rewrite Hp. cbn [mbind exec_bind].
  exists (WithInlinePrefix p data), (n / 256 mod 256)%N, (n mod 256)%N. split; [done|]. split.
  - unfold wire. rewrite Hs. done.
  - rewrite <- Hn. apply (le_value_bytes 2 n). rewrite Hn. unfold u16_max in *. simpl. lia.
Qed.

Definition u16be_frame (d b : list byte) : Prop := ∃ p, encode_tcp U16Be d = Ret (Ok p) ∧ wire p = Ret b.

(** Frames one after the other read back as the packets. *)
Lemma u16be_frames_read (packets frames : list (list byte)) :
  Forall2 u16be_frame packets frames → read_frames (length packets) (concat frames) = Some packets.
Proof.
  induction 1 as [|d b packets frames (p & Hp & Hw) _ IH]; [done|].
  assert (Hd : (N.of_nat (length d) ≤ u16_max)%N).
  { simpl in Hp. unfold u16be_encode_tcp in Hp. destruct (N.ltb_spec u16_max (N.of_nat (length d))); [done|lia]. }
  destruct (u16be_encode d Hd) as (p' & hi & lo & Hp' & Hw' & Hv). simpl in Hp.
  assert (p' = p) as -> by congruence. assert (b = hi :: lo :: d) as -> by congruence.
  cbn [concat app length read_frames]. rewrite Hv, Nat2N.id, length_app.
  destruct (Nat.leb_spec (length d) (length d + length (concat frames))); [|lia].
  by rewrite drop_app_length, IH, take_app_length.
Qed.

(** The length-prefix encoder frames every packet of at most 65535 bytes,
    refuses longer ones, never panics, and the frames of any sequence of
    packets, one after the other on the wire, read back as the packets. *)
Theorem u16be_frames_roundtrip (packets : list (list byte)) :
  Forall (λ d, (N.of_nat (length d) ≤ u16_max)%N) packets →
  ∃ frames, Forall2 (λ d b, ∃ p, encode_tcp U16Be d = Ret (Ok p) ∧ wire p = Ret b) packets frames ∧
    read_frames (length packets) (concat frames) = Some packets ∧
    ∀ d, (u16_max < N.of_nat (length d))%N → ∃ e, encode_tcp U16Be d = Ret (Err e).
Proof.
  intros Hp. cut (∃ frames, Forall2 u16be_frame packets frames).
  { intros (frames & Hf). exists frames. split_and!; [done|by apply u16be_frames_read|]. intros d Hd. simpl.
    unfold u16be_encode_tcp. destruct (N.ltb_spec u16_max (N.of_nat (length d))); [by eexists|lia]. }
  induction Hp as [|d packets Hd _ (frames & Hf)]; [by exists []|].
  destruct (u16be_encode d Hd) as (p & hi & lo & Hp & Hw & _).
  exists ((hi :: lo :: d) :: frames). constructor; [by exists p|done].
Qed.

Lemma u16be_frames_roundtrip_witness :
  ∃ frames, Forall2 (λ d b, ∃ p, encode_tcp U16Be d = Ret (Ok p) ∧ wire p = Ret b) [str "ab"; []; str "c"] frames ∧
    read_frames 3 (concat frames) = Some [str "ab"; []; str "c"] ∧
    ∀ d, (u16_max < N.of_nat (length d))%N → ∃ e, encode_tcp U16Be d = Ret (Err e).
Proof. apply (u16be_frames_roundtrip [str "ab"; []; str "c"]). repeat constructor; done. Defined.

(** An inline prefix made from an integer of up to 16 bytes gives back, in
    either byte order, exactly the bytes of the integer; a prefix made from a
    slice gives back the slice, or an error when it has more than 16 bytes. *)
Theorem inline_prefix_bytes w n (bs : list byte) :
  w ≤ INLINE_PREFIX_CAPACITY → (n < 256 ^ N.of_nat w)%N →
  (∃ p, from_be w n = Ret p ∧ ∃ b, as_slice p = Ret b ∧ length b = w ∧ le_value (reverse b) = n) ∧
  (∃ p, from_le w n = Ret p ∧ ∃ b, as_slice p = Ret b ∧ length b = w ∧ le_value b = n) ∧
  (∃ r, prefix_new bs = Ret r ∧
     match r with
     | Ok p => length bs ≤ INLINE_PREFIX_CAPACITY ∧ as_slice p = Ret bs
     | Err _ => INLINE_PREFIX_CAPACITY < length bs
     end).
Proof.
  intros Hw Hn. split_and!.
  - destruct (from_number_bytes_slice (be_bytes w n)) as (p & Hp & Hs); [by rewrite be_bytes_length|].
    exists p. split; [done|]. exists (be_bytes w n). split_and!; [done|apply be_bytes_length|].
    unfold be_bytes. rewrite reverse_involutive. by apply le_value_bytes.
  - destruct (from_number_bytes_slice (le_bytes w n)) as (p & Hp & Hs); [by rewrite le_bytes_length|].
    exists p. split; [done|]. exists (le_bytes w n). split_and!; [done|apply le_bytes_length|].
    by apply le_value_bytes.
  - unfold prefix_new. destruct (Nat.ltb_spec INLINE_PREFIX_CAPACITY (length bs)); [by eexists|].
    destruct (from_number_bytes_slice bs) as (p & Hp & Hs); [done|].
    unfold from_number_bytes in Hp. destruct (fill _ _ _) as [data| |]; [|done..].
    cbn [mbind exec_bind] in *. simplify_eq. by eexists.
Qed.

Lemma inline_prefix_bytes_witness :
  (∃ p, from_be 4 66051 = Ret p ∧ ∃ b, as_slice p = Ret b ∧ length b = 4 ∧ le_value (reverse b) = 66051%N) ∧
  (∃ p, from_le 4 66051 = Ret p ∧ ∃ b, as_slice p = Ret b ∧ length b = 4 ∧ le_value b = 66051%N) ∧
  (∃ r, prefix_new (str "0123456789abcdefg") = Ret r ∧
     match r with
     | Ok p => length (str "0123456789abcdefg") ≤ INLINE_PREFIX_CAPACITY ∧
               as_slice p = Ret (str "0123456789abcdefg")
     | Err _ => INLINE_PREFIX_CAPACITY < length (str "0123456789abcdefg")
     end).
Proof. apply inline_prefix_bytes; [unfold INLINE_PREFIX_CAPACITY; lia|done]. Defined.

(** ** The write loop *)

Section write_loop.
Context {W : Type} (write : W → list byte → W * result nat IoError).
Context (write_vectored : W → list (list byte) → W * result nat IoError).
Context (write_all : W → list byte → W * result unit IoError) (sent : W → list byte).
Context `{!AsyncWrite write write_vectored write_all sent}.

(** [r] is the answer of a write of [all], and the stream now holds what it
    should. *)
Definition wrote (w : W) (all : list byte) (w' : W) (r : result unit IoError) : Prop :=
  match r with
  | Ok _ => sent w' = sent w ++ all
  | Err _ => ∃ n, sent w' = sent w ++ take n all
  end.

Lemma wrote_step w w1 w' n all r :
  n ≤ length all → sent w1 = sent w ++ take n all → wrote w1 (drop n all) w' r → wrote w all w' r.
Proof.
  intros Hn Hs. unfold wrote. rewrite Hs. destruct r.
  - intros ->. by rewrite <- app_assoc, take_drop.
  - intros [m ->]. exists (n + m). rewrite <- app_assoc. f_equal.
    rewrite <- (take_drop n all) at 3. rewrite take_app. rewrite length_take, Nat.min_l by done.
    rewrite take_take. f_equal; [f_equal; lia|]. f_equal. lia.
Qed.

(** What one turn of the loop does, whichever call it makes. *)
Lemma turn_spec w first second :
  first ++ second ≠ [] →
  match write_turn write write_vectored w first second with
  | (w', Ok n) => n ≤ length (first ++ second) ∧ sent w' = sent w ++ take n (first ++ second)
  | (w', Err _) => sent w' = sent w
  end.
Proof.
  intros Hne. destruct first as [|b first].
  - apply (aw_write w second).
  - destruct second as [|c second].
    + rewrite app_nil_r. apply (aw_write w (b :: first)).
    + pose proof (aw_vectored w [b :: first; c :: second]) as H. simpl in H.
      rewrite app_nil_r in H. exact H.
Qed.

Lemma vectored_loop_spec fuel w first second :
  length first + length second ≤ fuel →
  ∃ w' r, vectored_loop write write_vectored fuel w first second = Some (w', r) ∧
    wrote w (first ++ second) w' r.
Proof.
  revert w first second. induction fuel as [|fuel IH]; intros w first second Hf.
  { destruct first, second; simpl in *; try lia. exists w, (Ok ()). split; [done|]. simpl. by rewrite app_nil_r. }
  destruct (decide (first ++ second = [])) as [Hnil|Hne].
  { apply app_nil in Hnil as [-> ->]. exists w, (Ok ()). split; [done|]. simpl. by rewrite app_nil_r. }
  pose proof (turn_spec w first second Hne) as Hturn.
  assert (Heq : vectored_loop write write_vectored (S fuel) w first second =
    let '(w, r) := write_turn write write_vectored w first second in
    match r with
    | Err e => Some (w, Err e)
    | Ok O => Some (w, Err WriteZero)
    | Ok written =>
        if (written <? length first)%nat
        then vectored_loop write write_vectored fuel w (drop written first) second
        else vectored_loop write write_vectored fuel w []
               (drop (Nat.min (written - length first) (length second)) second)
    end) by by destruct first, second.
  rewrite Heq. clear Heq. destruct (write_turn _ _ _ _ _) as [w1 [[|n]|e]].
  - exists w1, (Err WriteZero). split; [done|]. exists 0. destruct Hturn as [_ ->]. done.
  - destruct Hturn as [Hle Hs]. rewrite length_app in Hle.
    destruct (Nat.ltb_spec (S n) (length first)) as [Hlt|Hge].
    + destruct (IH w1 (drop (S n) first) second) as (w' & r & Hr & Hw); [rewrite length_drop; lia|].
      exists w', r. split; [done|]. eapply (wrote_step w w1 w' (S n)); [rewrite length_app; lia|done|].
      by rewrite drop_app_le by lia.
    + rewrite Nat.min_l by lia.
      destruct (IH w1 [] (drop (S n - length first) second)) as (w' & r & Hr & Hw).
      { rewrite length_drop. simpl. lia. }
      exists w', r. split; [done|]. eapply (wrote_step w w1 w' (S n)); [rewrite length_app; lia|done|].
      by rewrite drop_app_ge by lia.
  - exists w1, (Err e). split; [done|]. exists 0. by rewrite Hturn, take_0, app_nil_r.
Qed.

Lemma write_encoded w p bytes :
  wire p = Ret bytes →
  ∃ w' r, write_encoded_packet write write_vectored write_all w p = Ret (Some (w', r)) ∧ wrote w bytes w' r.
Proof.
  destruct p as [data|prefix payload]; simpl.
  - intros [= <-]. pose proof (aw_all w data) as H. destruct (write_all w data) as [w' r].
    exists w', r. by destruct r.
  - destruct (as_slice prefix) as [pre| |]; [|done..]. cbn [mbind exec_bind]. intros [= <-].
    destruct (vectored_loop_spec (length pre + length payload) w pre payload) as (w' & r & Hr & Hw); [done|].
    exists w', r. unfold write_all_vectored_2. by rewrite Hr.
Qed.

(** Writing an encoded packet always comes back; on success the stream has
    accepted exactly the prefix and the payload, on failure a first part of
    them, whatever the sizes of the partial writes were. *)
Theorem write_encoded_packet_spec w p bytes :
  wire p = Ret bytes →
  ∃ w' r, write_encoded_packet write write_vectored write_all w p = Ret (Some (w', r)) ∧
    match r with
    | Ok _ => sent w' = sent w ++ bytes
    | Err _ => ∃ n, sent w' = sent w ++ take n bytes
    end.
Proof. apply write_encoded. Qed.
End write_loop.

(** ** Back-off *)

Fixpoint backoff_after (n : nat) : N :=
  match n with O => 0%N | S n => next_accept_error_backoff (backoff_after n) end.

(** The delay after [n] accept errors in a row is 10 ms doubled [n - 1]
    times, capped at one second. *)
Theorem backoff_after_spec n :
  backoff_after (S n) = N.min (TCP_ACCEPT_ERROR_BACKOFF_MIN * 2 ^ N.of_nat n) TCP_ACCEPT_ERROR_BACKOFF_MAX.
Proof.
  induction n as [|n IH]; [done|]. cbn [backoff_after] in *. rewrite IH. unfold next_accept_error_backoff.
  rewrite Nat2N.inj_succ, N.pow_succ_r'. set (p := (2 ^ N.of_nat n)%N).
  assert (0 < p)%N by (apply N.neq_0_lt_0, N.pow_nonzero; done).
  unfold TCP_ACCEPT_ERROR_BACKOFF_MIN, TCP_ACCEPT_ERROR_BACKOFF_MAX, DURATION_MAX, u64_max in *.
  case_N; lia.
Qed.

(** ** A stream for the witnesses: it takes at most three bytes at a time. *)

Module SlowStream.
Definition write (w buf : list byte) : list byte * result nat IoError :=
  (w ++ take 3 buf, Ok (Nat.min 3 (length buf))).
Definition write_vectored (w : list byte) (bufs : list (list byte)) := write w (concat bufs).
Definition write_all (w buf : list byte) : list byte * result unit IoError := (w ++ buf, Ok ()).

#[export] Instance contract : AsyncWrite write write_vectored write_all id.
Proof.
  assert (H : ∀ w buf, match write w buf with
    | (w', Ok n) => n ≤ length buf ∧ id w' = id w ++ take n buf
    | (w', Err _) => id w' = id w end).
  { intros w buf. unfold write. split; [lia|]. simpl. f_equal.
    destruct buf as [|? [|? [|? [|]]]]; reflexivity. }
  split; [exact H|intros w bufs; apply H|done].
Qed.
End SlowStream.

Lemma write_encoded_packet_spec_witness :
  ∃ w' r, write_encoded_packet SlowStream.write SlowStream.write_vectored SlowStream.write_all []
      (WithInlinePrefix (mkPrefix 2 ([0; 5] ++ replicate 14 0)%N) (str "hello")) = Ret (Some (w', r)) ∧
    match r with
    | Ok _ => w' = [] ++ ([0; 5]%N ++ str "hello")
    | Err _ => ∃ n, w' = [] ++ take n ([0; 5]%N ++ str "hello")
    end.
Proof.
  apply (@write_encoded_packet_spec _ _ _ _ _ SlowStream.contract). reflexivity.
Defined.

(** It does send all seven bytes, in three writes. *)
Example slow_write_succeeds :
  write_encoded_packet SlowStream.write SlowStream.write_vectored SlowStream.write_all []
    (WithInlinePrefix (mkPrefix 2 ([0; 5] ++ replicate 14 0)%N) (str "hello")) =
  Ret (Some ([0; 5]%N ++ str "hello", Ok ())).
Proof. reflexivity. Qed.
