(* ===== verification/NetWriter.v ===== *)
(** * The packet writer: TCP sinks and their registry (base/src/net/rw.rs)

    One [PacketWriter] value stands for all the clones of a writer, which
    share everything.  Cancellation tokens and channels are shared objects:
    a token is a number in [cancelled] or not, a channel a number in [chans].
    The steps at which tasks interleave are the lock sections of the source:
    [insert_begin] / [insert_commit], [remove_tcp_writer_inner], and
    [close_begin] / [close_drain]. *)
From S2P Require Import Prelude Errors Bytes NetFrame.

Inductive Protocol := UDP | TCP | ALL.

#[export] Instance Protocol_eq_dec : EqDecision Protocol.
Proof. solve_decision. Defined.

Section writer.
Context {Ip : Type} `{Countable Ip} {E : Type} `{PacketEncoder E}.

Notation SocketAddr := (Ip * N)%type.

Record TcpWriterRegistration := mkReg {
  reg_remote_addr : SocketAddr;
  writer_id : N;
}.

#[export] Instance TcpWriterRegistration_eq_dec : EqDecision TcpWriterRegistration.
Proof. solve_decision. Defined.

(** [QueuedTcpSink] and [DirectTcpSink]; a direct sink owns a stream. *)
Inductive TcpPacketSink :=
  | QueuedSink (remote_addr : SocketAddr) (sender : N) (cancel : N)
  | DirectSink (remote_addr : SocketAddr) (stream : N) (cancel : N).

Definition sink_remote_addr (s : TcpPacketSink) : SocketAddr :=
  match s with QueuedSink a _ _ | DirectSink a _ _ => a end.
Definition is_direct (s : TcpPacketSink) : bool :=
  match s with QueuedSink _ _ _ => false | DirectSink _ _ _ => true end.
Definition sink_cancel (s : TcpPacketSink) : N :=
  match s with QueuedSink _ _ c | DirectSink _ _ c => c end.

(** A bounded mpsc channel, as its senders see it. *)
Record Chan := mkChan { ch_queue : list EncodedPacket; ch_cap : nat; ch_closed : bool }.

Record PacketWriter := mkWriter {
  udp_socket : option N;
  tcp_writers : gmap SocketAddr (TcpWriterRegistration * TcpPacketSink);
  tcp_writer_addrs_by_ip : gmap Ip (list TcpWriterRegistration);
  next_tcp_writer_id : N;
  encoder : E;
  tcp_write_mode : TcpWriteMode;
  closed : bool;
  cancelled : gset N;
  chans : gmap N Chan;
}.
Implicit Types w : PacketWriter.

Definition writer_new (udp : option N) (enc : E) (mode : TcpWriteMode) : PacketWriter :=
  mkWriter udp ∅ ∅ 1 enc mode false ∅ ∅.

Definition set_registry tw bi w : PacketWriter :=
  mkWriter (udp_socket w) tw bi (next_tcp_writer_id w) (encoder w) (tcp_write_mode w)
    (closed w) (cancelled w) (chans w).
Definition set_next_id n w : PacketWriter :=
  mkWriter (udp_socket w) (tcp_writers w) (tcp_writer_addrs_by_ip w) n (encoder w)
    (tcp_write_mode w) (closed w) (cancelled w) (chans w).
Definition set_chans c w : PacketWriter :=
  mkWriter (udp_socket w) (tcp_writers w) (tcp_writer_addrs_by_ip w) (next_tcp_writer_id w)
    (encoder w) (tcp_write_mode w) (closed w) (cancelled w) c.

(** [CancellationToken::cancel]. *)
Definition cancel (t : N) w : PacketWriter :=
  mkWriter (udp_socket w) (tcp_writers w) (tcp_writer_addrs_by_ip w) (next_tcp_writer_id w)
    (encoder w) (tcp_write_mode w) (closed w) ({[t]} ∪ cancelled w) (chans w).
Definition is_cancelled w (t : N) : bool := bool_decide (t ∈ cancelled w).

(** [TcpPacketSink::close]. *)
Definition close_sink (s : TcpPacketSink) w : PacketWriter := cancel (sink_cancel s) w.

(** ** Registry *)

Definition tcp_sink w (addr : SocketAddr) : option TcpPacketSink :=
  match tcp_writers w !! addr with Some (_, s) => Some s | None => None end.

(** The most recent registration of the address that is still current. *)
Definition tcp_sink_by_ip w (ip : Ip) : option TcpPacketSink :=
  regs ← tcp_writer_addrs_by_ip w !! ip;
  head (omap (λ r : TcpWriterRegistration,
    '(r', sink) ← tcp_writers w !! reg_remote_addr r;
    if decide (r' = r) then Some sink else None) (reverse regs)).

Definition has_tcp_writer w (addr : SocketAddr) : bool :=
  bool_decide (is_Some (tcp_writers w !! addr)).

(** [insert_tcp_sink] up to the registry lock: the id of the registration. *)
Definition insert_begin w (sink : TcpPacketSink) : option N * PacketWriter :=
  if closed w then (None, close_sink sink w)
  else (Some (next_tcp_writer_id w), set_next_id (wadd64 (next_tcp_writer_id w) 1) w).

(** The rest of it: the lock section, then the close of the previous sink. *)
Definition insert_commit w (addr : SocketAddr) (sink : TcpPacketSink) (id : N) :
    option TcpWriterRegistration * PacketWriter :=
  if closed w then (None, close_sink sink w)
  else
    let registration := mkReg addr id in
    let previous := tcp_writers w !! addr in
    let regs := default [] (tcp_writer_addrs_by_ip w !! addr.1) in
    let regs := filter (λ r, reg_remote_addr r ≠ addr) regs ++ [registration] in
    let w := set_registry (<[addr := (registration, sink)]> (tcp_writers w))
               (<[addr.1 := regs]> (tcp_writer_addrs_by_ip w)) w in
    (Some registration,
     match previous with Some (_, old) => close_sink old w | None => w end).

Definition insert_tcp_sink w (addr : SocketAddr) (sink : TcpPacketSink) :
    option TcpWriterRegistration * PacketWriter :=
  let '(id, w) := insert_begin w sink in
  match id with Some id => insert_commit w addr sink id | None => (None, w) end.

Definition remove_tcp_writer_inner w (addr : SocketAddr) (expected : option N) :
    option TcpPacketSink * PacketWriter :=
  match tcp_writers w !! addr with
  | None => (None, w)
  | Some (reg, sink) =>
      if (match expected with Some e => negb (e =? writer_id reg)%N | None => false end) then (None, w)
      else
        let by_ip := tcp_writer_addrs_by_ip w in
        let by_ip :=
          match by_ip !! addr.1 with
          | Some regs =>
              let regs := filter (λ r, r ≠ reg) regs in
              if decide (regs = []) then delete addr.1 by_ip else <[addr.1 := regs]> by_ip
          | None => by_ip
          end in
        (Some sink, set_registry (delete addr (tcp_writers w)) by_ip w)
  end.

Definition remove_and_close w addr expected : PacketWriter :=
  let '(sink, w) := remove_tcp_writer_inner w addr expected in
  match sink with Some sink => close_sink sink w | None => w end.

Definition remove_tcp_writer w (addr : SocketAddr) : PacketWriter := remove_and_close w addr None.
Definition remove_registered_tcp_writer w (r : TcpWriterRegistration) : PacketWriter :=
  remove_and_close w (reg_remote_addr r) (Some (writer_id r)).

(** [close]: the flag first, then the lock section, then the sinks. *)
Definition close_begin w : PacketWriter :=
  mkWriter (udp_socket w) (tcp_writers w) (tcp_writer_addrs_by_ip w) (next_tcp_writer_id w)
    (encoder w) (tcp_write_mode w) true (cancelled w) (chans w).
Definition close_drain w : list TcpPacketSink * PacketWriter :=
  ((map_to_list (tcp_writers w)).*2.*2, set_registry ∅ ∅ w).
(** Closing the sinks; [shutdown] is what the stream of a direct sink says,
    and the first error is kept. *)
Fixpoint close_sinks (shutdown : TcpPacketSink → GlobalResult unit) (sinks : list TcpPacketSink)
    (err : option GlobalError) w : option GlobalError * PacketWriter :=
  match sinks with
  | [] => (err, w)
  | s :: sinks =>
      let err :=
        if is_direct s then
          match shutdown s, err with Err e, None => Some e | _, _ => err end
        else err in
      close_sinks shutdown sinks err (close_sink s w)
  end.
Definition take_udp w : PacketWriter :=
  mkWriter None (tcp_writers w) (tcp_writer_addrs_by_ip w) (next_tcp_writer_id w) (encoder w)
    (tcp_write_mode w) (closed w) (cancelled w) (chans w).
Definition writer_close (shutdown : TcpPacketSink → GlobalResult unit) w :
    GlobalResult unit * PacketWriter :=
  let '(sinks, w) := close_drain (close_begin w) in
  let '(err, w) := close_sinks shutdown sinks None w in
  let w := take_udp w in
  (match err with Some e => Err e | None => Ok () end, w).

(** ** Writing *)

Definition packet_writer_closed : GlobalError := SysErr "packet writer is closed".
Definition ensure_open w : GlobalResult unit :=
  if closed w then Err packet_writer_closed else Ok ().

(** [mpsc::Sender::try_send]. *)
Inductive TrySend := Sent | FullChan | ClosedChan.
Definition try_send w (ch : N) (p : EncodedPacket) : TrySend * PacketWriter :=
  match chans w !! ch with
  | None => (ClosedChan, w)
  | Some c =>
      if ch_closed c then (ClosedChan, w)
      else if (length (ch_queue c) <? ch_cap c)%nat
           then (Sent, set_chans (<[ch := mkChan (ch_queue c ++ [p]) (ch_cap c) false]> (chans w)) w)
           else (FullChan, w)
  end.

(** [QueuedTcpSink::try_write]. *)
Definition queued_try_write w (ch tok : N) (data : list byte) :
    exec (GlobalResult unit * PacketWriter) :=
  if is_cancelled w tok then Ret (Err (SysErr "tcp sink is closed"), w)
  else
    r ← encode_tcp (encoder w) data;
    Ret (match r with
         | Err e => (Err e, w)
         | Ok packet =>
             match try_send w ch packet with
             | (Sent, w) => (Ok (), w)
             | (FullChan, w) => (Err (SysErr "tcp write channel is full"), w)
             | (ClosedChan, w) => (Err (SysErr "tcp write channel closed"), w)
             end
         end).

Definition sink_try_write w (s : TcpPacketSink) (data : list byte) :
    exec (GlobalResult unit * PacketWriter) :=
  match s with
  | QueuedSink _ ch tok => queued_try_write w ch tok data
  | DirectSink _ _ _ => Ret (Err (SysErr "direct tcp sink requires async write"), w)
  end.

Definition tcp_sink_or_err w (addr : SocketAddr) : GlobalResult TcpPacketSink :=
  match tcp_sink w addr with
  | Some s => Ok s
  | None => Err (SysErr "tcp writer is not available")
  end.

(** [udp_send] is the UDP socket's answer to [try_send_to]. *)
Definition try_write_to (udp_send : N → list byte → SocketAddr → GlobalResult unit) w (data : list byte) (addr : SocketAddr) (p : Protocol) :
    exec (GlobalResult unit * PacketWriter) :=
  match ensure_open w with
  | Err e => Ret (Err e, w)
  | Ok _ =>
      match p with
      | UDP =>
          Ret (let? packet := encode_udp (encoder w) data in
               match udp_socket w with
               | None => Err (SysErr "udp socket is not available")
               | Some sock => udp_send sock packet addr
               end, w)
      | TCP =>
          match tcp_sink_or_err w addr with
          | Err e => Ret (Err e, w)
          | Ok s => sink_try_write w s data
          end
      | ALL => Ret (Err (SysErr "protocol ALL cannot be used to write a packet"), w)
      end
  end.

(** One poll of [QueuedTcpSink::write] at its await: [None] is pending. *)
Definition queued_write_poll w (ch tok : N) (packet : EncodedPacket) :
    option (GlobalResult unit * PacketWriter) :=
  if is_cancelled w tok then Some (Err (SysErr "tcp sink is closed"), w)
  else
    match try_send w ch packet with
    | (Sent, w) => Some (Ok (), w)
    | (ClosedChan, w) => Some (Err (SysErr "tcp write channel closed"), w)
    | (FullChan, _) => None
    end.

(** [DirectTcpSink::write]: [lock] is what happens while the stream's lock
    is awaited, [io] how the write went ([None]: cancelled meanwhile). *)
Definition direct_write w (tok : N) (data : list byte) (lock : PacketWriter → PacketWriter)
    (io : EncodedPacket → option (GlobalResult unit)) : exec (GlobalResult unit * PacketWriter) :=
  if is_cancelled w tok then Ret (Err (SysErr "tcp sink is closed"), w)
  else
    r ← encode_tcp (encoder w) data;
    Ret (match r with
         | Err e => (Err e, w)
         | Ok packet =>
             let w := lock w in
             if is_cancelled w tok then (Err (SysErr "tcp sink is closed"), w)
             else
               let result := match io packet with
                             | Some result => result
                             | None => Err (SysErr "tcp sink is closed")
                             end in
               (result, if is_ok result then w else cancel tok w)
         end).

(** [QueuedTcpSink::write]: [wait] is what happens until its await ends;
    [None] is an await that has not ended. *)
Definition queued_write w (ch tok : N) (data : list byte) (wait : PacketWriter → PacketWriter) :
    exec (option (GlobalResult unit * PacketWriter)) :=
  if is_cancelled w tok then Ret (Some (Err (SysErr "tcp sink is closed"), w))
  else
    r ← encode_tcp (encoder w) data;
    Ret (match r with
         | Err e => Some (Err e, w)
         | Ok packet => queued_write_poll (wait w) ch tok packet
         end).

(** [TcpPacketSink::write]. *)
Definition sink_write w (s : TcpPacketSink) (data : list byte) (wait : PacketWriter → PacketWriter)
    (io : EncodedPacket → option (GlobalResult unit)) :
    exec (option (GlobalResult unit * PacketWriter)) :=
  match s with
  | QueuedSink _ ch tok => queued_write w ch tok data wait
  | DirectSink _ _ tok => r ← direct_write w tok data wait io; Ret (Some r)
  end.

(** The select of a UDP write: the writer may be closed before the socket
    took the datagram. *)
Definition udp_select w (wait : PacketWriter → PacketWriter) (sent : GlobalResult unit) :
    GlobalResult unit * PacketWriter :=
  let w := wait w in
  if closed w then (Err packet_writer_closed, w) else (sent, w).

Definition write_to w (data : list byte) (addr : SocketAddr) (p : Protocol)
    (wait : PacketWriter → PacketWriter) (udp_send : N → list byte → SocketAddr → GlobalResult unit)
    (io : EncodedPacket → option (GlobalResult unit)) :
    exec (option (GlobalResult unit * PacketWriter)) :=
  match ensure_open w with
  | Err e => Ret (Some (Err e, w))
  | Ok _ =>
      match p with
      | UDP =>
          Ret (Some (match encode_udp (encoder w) data with
                     | Err e => (Err e, w)
                     | Ok packet =>
                         match udp_socket w with
                         | None => (Err (SysErr "udp socket is not available"), w)
                         | Some sock => udp_select w wait (udp_send sock packet addr)
                         end
                     end))
      | TCP =>
          match tcp_sink_or_err w addr with
          | Err e => Ret (Some (Err e, w))
          | Ok s => sink_write w s data wait io
          end
      | ALL => Ret (Some (Err (SysErr "protocol ALL cannot be used to write a packet"), w))
      end
  end.

Definition write_slice_to w (data : list byte) (addr : SocketAddr) (p : Protocol)
    (wait : PacketWriter → PacketWriter) (udp_send : N → list byte → SocketAddr → GlobalResult unit) :
    GlobalResult unit * PacketWriter :=
  match ensure_open w with
  | Err e => (Err e, w)
  | Ok _ =>
      match p with
      | UDP =>
          match udp_socket w with
          | None => (Err (SysErr "udp socket is not available"), w)
          | Some sock => udp_select w wait (udp_send sock data addr)
          end
      | TCP => (Err (SysErr "write_slice_to cannot write TCP without copy; use write_to with Bytes"), w)
      | ALL => (Err (SysErr "protocol ALL cannot be used to write a packet"), w)
      end
  end.

Definition write_tcp_to_ip w (data : list byte) (ip : Ip) (wait : PacketWriter → PacketWriter)
    (io : EncodedPacket → option (GlobalResult unit)) :
    exec (option (GlobalResult unit * PacketWriter)) :=
  match ensure_open w with
  | Err e => Ret (Some (Err e, w))
  | Ok _ =>
      match tcp_sink_by_ip w ip with
      | None => Ret (Some (Err (SysErr "tcp writer is not available"), w))
      | Some s => sink_write w s data wait io
      end
  end.

(** [DirectTcpSink::shutdown] before it awaits the stream. *)
Definition direct_shutdown w (tok : N) : PacketWriter := cancel tok w.

(** ** Invariant *)

Record registry_ok w : Prop := {
  ro_addr : ∀ addr r s, tcp_writers w !! addr = Some (r, s) →
    reg_remote_addr r = addr ∧ sink_remote_addr s = addr;
  ro_listed : ∀ addr r s, tcp_writers w !! addr = Some (r, s) →
    ∃ regs, tcp_writer_addrs_by_ip w !! addr.1 = Some regs ∧ r ∈ regs;
  ro_index : ∀ ip regs, tcp_writer_addrs_by_ip w !! ip = Some regs →
    regs ≠ [] ∧ NoDup (reg_remote_addr <$> regs) ∧
    ∀ r, r ∈ regs → (reg_remote_addr r).1 = ip ∧
      ∃ s, tcp_writers w !! reg_remote_addr r = Some (r, s);
}.

Lemma close_sink_frame s w :
  tcp_writers (close_sink s w) = tcp_writers w ∧
  tcp_writer_addrs_by_ip (close_sink s w) = tcp_writer_addrs_by_ip w ∧
  closed (close_sink s w) = closed w.
Proof. done. Qed.

Lemma registry_ok_ext w w' :
  tcp_writers w' = tcp_writers w → tcp_writer_addrs_by_ip w' = tcp_writer_addrs_by_ip w →
  registry_ok w → registry_ok w'.
Proof. intros H1 H2 [Ha Hl Hi]. split; rewrite ?H1, ?H2; done. Qed.

Lemma writer_new_ok udp enc mode : registry_ok (writer_new udp enc mode).
Proof. split; simpl; intros *; by rewrite lookup_empty. Qed.

(** The index lists after a registration. *)
Lemma regs_insert w addr id regs :
  registry_ok w → regs = default [] (tcp_writer_addrs_by_ip w !! addr.1) →
  NoDup (reg_remote_addr <$> (filter (λ r, reg_remote_addr r ≠ addr) regs ++ [mkReg addr id])).
Proof.
  intros Hok ->. rewrite fmap_app. apply NoDup_app. split_and!.
  - destruct (tcp_writer_addrs_by_ip w !! addr.1) as [regs|] eqn:Hr; [|constructor].
    apply NoDup_fmap_filter. by destruct (ro_index w Hok _ _ Hr) as (_ & Hn & _).
  - intros a (x & -> & Hin)%list_elem_of_fmap Ha. apply list_elem_of_filter in Hin as [Hne _].
    by apply list_elem_of_singleton in Ha.
  - apply NoDup_singleton.
Qed.

Lemma insert_commit_ok w addr sink id :
  registry_ok w → sink_remote_addr sink = addr → registry_ok (insert_commit w addr sink id).2.
Proof.
  intros Hok Hs. unfold insert_commit. destruct (closed w); [by apply (registry_ok_ext w)|].
  cbn [snd]. set (regs := filter _ _ ++ _). set (w1 := set_registry _ _ w).
  cut (registry_ok w1). { intros Hw1. destruct (tcp_writers w !! addr) as [[]|]; [|done]. by apply (registry_ok_ext w1). }
  assert (Hin : ∀ r, r ∈ regs ↔ r = mkReg addr id ∨
    (reg_remote_addr r ≠ addr ∧ r ∈ default [] (tcp_writer_addrs_by_ip w !! addr.1))).
  { intros r. subst regs. rewrite elem_of_app, list_elem_of_filter, list_elem_of_singleton. tauto. }
  split; simpl.
  - intros a r s. rewrite lookup_insert_Some. intros [[<- [= <- <-]]|[_ Ha]]; [done|by eapply ro_addr].
  - intros a r s. rewrite lookup_insert_Some. intros [[<- [= <- <-]]|[Hne Ha]].
    + exists regs. rewrite lookup_insert_eq. split; [done|]. apply Hin. by left.
    + destruct (ro_listed w Hok _ _ _ Ha) as (regs' & Hr & Hir).
      destruct (decide (addr.1 = a.1)) as [He|Hne'].
      * exists regs. rewrite He, lookup_insert_eq. split; [done|]. apply Hin. right.
        rewrite He, Hr. split; [|done]. destruct (ro_addr w Hok _ _ _ Ha) as [-> _]. done.
      * exists regs'. by rewrite lookup_insert_ne.
  - intros ip rs. rewrite lookup_insert_Some. intros [[<- <-]|[Hne Hr]].
    + split_and!; [by destruct (filter _ _)|by eapply regs_insert|].
      intros r [->|[Hne Hr]]%Hin; simpl.
      * split; [done|]. exists sink. by rewrite lookup_insert_eq.
      * destruct (tcp_writer_addrs_by_ip w !! addr.1) as [rs'|] eqn:Hrs; [|by apply not_elem_of_nil in Hr].
        destruct (ro_index w Hok _ _ Hrs) as (_ & _ & Hx). destruct (Hx r Hr) as (Hip & s & Hs').
        split; [done|]. exists s. by rewrite lookup_insert_ne.
    + destruct (ro_index w Hok _ _ Hr) as (Hnil & Hnd & Hx). split_and!; [done..|].
      intros r Hir. destruct (Hx r Hir) as (Hip & s & Hs'). split; [done|]. exists s.
      rewrite lookup_insert_ne; [done|]. intros Heq. apply Hne. by rewrite Heq.
Qed.

Lemma insert_tcp_sink_ok w addr sink :
  registry_ok w → sink_remote_addr sink = addr → registry_ok (insert_tcp_sink w addr sink).2.
Proof.
  intros Hok Hs. unfold insert_tcp_sink, insert_begin. destruct (closed w); [by apply (registry_ok_ext w)|].
  apply insert_commit_ok; [|done]. by apply (registry_ok_ext w).
Qed.

Lemma remove_inner_ok w addr expected :
  registry_ok w → registry_ok (remove_tcp_writer_inner w addr expected).2.
Proof.
  intros Hok. unfold remove_tcp_writer_inner. destruct (tcp_writers w !! addr) as [[reg sink]|] eqn:Ha; [|done].
  destruct (match expected with Some e => _ | None => _ end); [done|]. cbn [snd].
  destruct (ro_addr w Hok _ _ _ Ha) as [Hra _].
  destruct (ro_listed w Hok _ _ _ Ha) as (regs & Hregs & Hin). rewrite Hregs.
  destruct (ro_index w Hok _ _ Hregs) as (_ & Hnd & Hx).
  assert (Huniq : ∀ r, r ∈ regs → r ≠ reg → reg_remote_addr r ≠ addr).
  { intros r Hr Hne Heq. destruct (Hx r Hr) as (_ & s & Hs). rewrite Heq in Hs. congruence. }
  set (f := filter (λ r, r ≠ reg) regs).
  assert (Hf : ∀ r, r ∈ f ↔ r ≠ reg ∧ r ∈ regs) by (intros r; subst f; by rewrite list_elem_of_filter).
  split; simpl.
  - intros a r s [_ Hs]%lookup_delete_Some. by eapply ro_addr.
  - intros a r s [Hne Hs]%lookup_delete_Some. destruct (ro_listed w Hok _ _ _ Hs) as (regs' & Hr' & Hin').
    assert (Hrr : r ≠ reg). { intros ->. destruct (ro_addr w Hok _ _ _ Hs) as [Hx' _]. congruence. }
    destruct (decide (addr.1 = a.1)) as [He|Hne'].
    + rewrite <- He in *. assert (regs' = regs) as -> by congruence.
      assert (Hrf : r ∈ f) by by apply Hf. case_decide as Hnil; [rewrite Hnil in Hrf; by apply not_elem_of_nil in Hrf|].
      exists f. by rewrite lookup_insert_eq.
    + exists regs'. case_decide; [by rewrite lookup_delete_ne|by rewrite lookup_insert_ne].
  - intros ip rs Hrs.
    assert (Hcase : (ip = addr.1 ∧ rs = f ∧ f ≠ []) ∨ (ip ≠ addr.1 ∧ tcp_writer_addrs_by_ip w !! ip = Some rs)).
    { case_decide as Hnil.
      - apply lookup_delete_Some in Hrs as [Hne Hrs]. by right.
      - apply lookup_insert_Some in Hrs as [[<- <-]|[Hne Hrs]]; [by left|by right]. }
    destruct Hcase as [(-> & -> & Hnil)|[Hne Hrs']].
    + split_and!; [done| |].
      * by apply NoDup_fmap_filter.
      * intros r [Hrne Hr]%Hf. destruct (Hx r Hr) as (Hip & s & Hs). split; [done|]. exists s.
        rewrite lookup_delete_ne; [done|]. intros Heq. by apply (Huniq r).
    + destruct (ro_index w Hok _ _ Hrs') as (Hnil & Hnd' & Hx'). split_and!; [done..|].
      intros r Hr. destruct (Hx' r Hr) as (Hip & s & Hs). split; [done|]. exists s.
      rewrite lookup_delete_ne; [done|]. intros Heq. apply Hne. by rewrite Heq, Hip.
Qed.

Lemma remove_and_close_ok w addr expected :
  registry_ok w → registry_ok (remove_and_close w addr expected).
Proof.
  intros Hok. unfold remove_and_close. pose proof (remove_inner_ok w addr expected Hok) as H'.
  destruct (remove_tcp_writer_inner w addr expected) as [[s|] w']; [|done]. by apply (registry_ok_ext w').
Qed.

(** ** Interleavings *)

(** What the tasks that share a writer, the channel readers and the owners
    of cancellation tokens do, lock section by lock section. *)
Inductive wstep : PacketWriter → PacketWriter → Prop :=
  | ws_begin w sink : wstep w (insert_begin w sink).2
  | ws_commit w addr sink id :
      sink_remote_addr sink = addr → wstep w (insert_commit w addr sink id).2
  | ws_remove w addr expected : wstep w (remove_and_close w addr expected)
  | ws_close_begin w : wstep w (close_begin w)
  | ws_close_drain w : closed w = true → wstep w (close_drain w).2
  | ws_cancel w t : wstep w (cancel t w)
  | ws_chans w c : wstep w (set_chans c w)
  | ws_udp w : wstep w (take_udp w).

Lemma wstep_ok w w' : registry_ok w → wstep w w' → registry_ok w'.
Proof.
  intros Hok. destruct 1 as [w sink|w addr sink id Hs|w addr e|w|w Hc|w t|w c|w].
  - unfold insert_begin. destruct (closed w); by apply (registry_ok_ext w).
  - by apply insert_commit_ok.
  - by apply remove_and_close_ok.
  - by apply (registry_ok_ext w).
  - split; simpl; intros *; by rewrite lookup_empty.
  - by apply (registry_ok_ext w).
  - by apply (registry_ok_ext w).
  - by apply (registry_ok_ext w).
Qed.

Definition drained w : Prop := closed w = true ∧ tcp_writers w = ∅ ∧ tcp_writer_addrs_by_ip w = ∅.

Lemma wstep_drained w w' : drained w → wstep w w' → drained w'.
Proof.
  unfold drained. intros (Hc & Ht & Hb).
  destruct 1 as [w sink|w addr sink id Hs|w addr e|w|w Hcl|w t|w c|w]; try done.
  - unfold insert_begin. by rewrite Hc.
  - unfold insert_commit. by rewrite Hc.
  - unfold remove_and_close, remove_tcp_writer_inner. rewrite Ht, lookup_empty. done.
Qed.

(** ** Lookup by address and by ip *)

Lemma tcp_sink_by_ip_last w ip regs :
  registry_ok w → tcp_writer_addrs_by_ip w !! ip = Some regs →
  ∃ r s, last regs = Some r ∧ tcp_writers w !! reg_remote_addr r = Some (r, s) ∧
    tcp_sink_by_ip w ip = Some s.
Proof.
  intros Hok Hr. destruct (ro_index w Hok _ _ Hr) as (Hnil & _ & Hx).
  destruct (last regs) as [r|] eqn:Hl; [|by apply last_None in Hl].
  apply last_Some in Hl as [l ->]. destruct (Hx r) as (_ & s & Hs); [set_solver|].
  exists r, s. split; [done|]. split; [done|]. unfold tcp_sink_by_ip. rewrite Hr. cbn [mbind option_bind].
  rewrite reverse_snoc. cbn [omap list_omap]. rewrite Hs. cbn [mbind option_bind].
  by rewrite decide_True.
Qed.

Lemma tcp_sink_Some w addr s : tcp_sink w addr = Some s ↔ ∃ r, tcp_writers w !! addr = Some (r, s).
Proof. unfold tcp_sink. destruct (tcp_writers w !! addr) as [[]|]; naive_solver. Qed.

Lemma tcp_sink_by_ip_none w ip :
  registry_ok w → tcp_writer_addrs_by_ip w !! ip = None →
  tcp_sink_by_ip w ip = None ∧ ∀ addr, addr.1 = ip → tcp_sink w addr = None.
Proof.
  intros Hok Hn. split; [unfold tcp_sink_by_ip; by rewrite Hn|]. intros addr Ha.
  destruct (tcp_sink w addr) as [s|] eqn:Hs; [|done]. apply tcp_sink_Some in Hs as [r Hs].
  destruct (ro_listed w Hok _ _ _ Hs) as (regs & Hregs & _). rewrite Ha in Hregs. congruence.
Qed.

(** C7: Whatever registrations, removals and closes interleave, the two maps
    of the registry agree, and once a close has drained it no writer is
    registered any more, not even by a registration that had begun before. *)
Theorem registry_interleavings udp enc mode w w' :
  rtc wstep (writer_new udp enc mode) w → rtc wstep w w' →
  registry_ok w' ∧ (drained w → drained w').
Proof.
  intros H1 H2. assert (Hw : ∀ a b, rtc wstep a b → (registry_ok a → registry_ok b) ∧ (drained a → drained b)).
  { induction 1 as [|a b c Hs _ [IH1 IH2]]; [done|]. split; intros Ha.
    - apply IH1. by eapply wstep_ok.
    - apply IH2. by eapply wstep_drained. }
  destruct (Hw _ _ H1) as [Hok _], (Hw _ _ H2) as [Hok' Hd]. split; [|done].
  apply Hok', Hok, writer_new_ok.
Qed.

(** A lookup by ip finds a sink exactly when some address of that ip is
    registered, and then one of those; just after a registration it finds
    the sink just registered. *)
Theorem tcp_sink_by_ip_spec w ip :
  registry_ok w →
  match tcp_sink_by_ip w ip with
  | Some s => ∃ addr, addr.1 = ip ∧ tcp_sink w addr = Some s
  | None => ∀ addr, addr.1 = ip → tcp_sink w addr = None
  end ∧
  ∀ addr sink id, addr.1 = ip → sink_remote_addr sink = addr → closed w = false →
    tcp_sink_by_ip (insert_commit w addr sink id).2 ip = Some sink.
Proof.
  intros Hok. split.
  - destruct (tcp_writer_addrs_by_ip w !! ip) as [regs|] eqn:Hr.
    + destruct (tcp_sink_by_ip_last w ip regs Hok Hr) as (r & s & Hl & Hs & ->).
      exists (reg_remote_addr r). destruct (ro_index w Hok _ _ Hr) as (_ & _ & Hx).
      apply last_Some in Hl as [l ->]. destruct (Hx r) as [Hip _]; [set_solver|].
      split; [done|]. unfold tcp_sink. by rewrite Hs.
    + by destruct (tcp_sink_by_ip_none w ip Hok Hr) as [-> Hn].
  - intros addr sink id Hip Hsink Hcl. pose proof (insert_commit_ok w addr sink id Hok Hsink) as Hok'.
    assert (Hreg : ∃ regs, tcp_writer_addrs_by_ip (insert_commit w addr sink id).2 !! ip =
      Some (regs ++ [mkReg addr id]) ∧
      tcp_writers (insert_commit w addr sink id).2 !! addr = Some (mkReg addr id, sink)).
    { unfold insert_commit. rewrite Hcl. cbn [snd].
      destruct (tcp_writers w !! addr) as [[]|]; simpl; rewrite <- Hip, !lookup_insert_eq; eauto. }
    destruct Hreg as (regs & Hr & Hs).
    destruct (tcp_sink_by_ip_last _ ip _ Hok' Hr) as (r & s & Hl & Hs' & ->).
    rewrite last_snoc in Hl. injection Hl as <-. simpl in Hs'. congruence.
Qed.

(** Registering an address replaces its sink and cancels the one before;
    removing a registration that was replaced meanwhile changes nothing,
    removing the current one removes and cancels it; other addresses keep
    their sinks. *)
Theorem registration_replaced w addr sink id :
  closed w = false →
  let w' := (insert_commit w addr sink id).2 in
  tcp_sink w' addr = Some sink ∧
  (∀ old, tcp_sink w addr = Some old → is_cancelled w' (sink_cancel old) = true) ∧
  (∀ a, a ≠ addr → tcp_sink w' a = tcp_sink w a) ∧
  (∀ old, old ≠ id → remove_registered_tcp_writer w' (mkReg addr old) = w') ∧
  (let w'' := remove_registered_tcp_writer w' (mkReg addr id) in
   tcp_sink w'' addr = None ∧ is_cancelled w'' (sink_cancel sink) = true ∧
   ∀ a, a ≠ addr → tcp_sink w'' a = tcp_sink w a).
Proof.
  intros Hcl. cbv zeta. unfold insert_commit. rewrite Hcl. cbn [snd].
  set (w1 := set_registry _ _ w).
  set (w2 := match tcp_writers w !! addr with Some (_, old) => close_sink old w1 | None => w1 end).
  assert (Htw : tcp_writers w2 = <[addr := (mkReg addr id, sink)]> (tcp_writers w)).
  { subst w2. by destruct (tcp_writers w !! addr) as [[]|]. }
  assert (Hlk : tcp_writers w2 !! addr = Some (mkReg addr id, sink)) by by rewrite Htw, lookup_insert_eq.
  assert (Hoth : ∀ a, a ≠ addr → tcp_writers w2 !! a = tcp_writers w !! a).
  { intros a Hne. by rewrite Htw, lookup_insert_ne. }
  split_and!.
  - unfold tcp_sink. by rewrite Hlk.
  - unfold tcp_sink. intros old Hold. subst w2. destruct (tcp_writers w !! addr) as [[r o]|]; [|done].
    simpl in Hold. simplify_eq. apply bool_decide_eq_true. simpl. set_solver.
  - intros a Hne. unfold tcp_sink. by rewrite Hoth.
  - intros old Hne. unfold remove_registered_tcp_writer, remove_and_close, remove_tcp_writer_inner.
    simpl. rewrite Hlk. simpl. destruct (N.eqb_spec old id); [done|]. done.
  - unfold remove_registered_tcp_writer, remove_and_close, remove_tcp_writer_inner, tcp_sink.
    simpl. rewrite Hlk. simpl. rewrite N.eqb_refl. simpl. by rewrite lookup_delete_eq.
  - unfold remove_registered_tcp_writer, remove_and_close, remove_tcp_writer_inner.
    simpl. rewrite Hlk. simpl. rewrite N.eqb_refl. apply bool_decide_eq_true. simpl. set_solver.
  - intros a Hne. unfold remove_registered_tcp_writer, remove_and_close, remove_tcp_writer_inner, tcp_sink.
    simpl. rewrite Hlk. simpl. rewrite N.eqb_refl. simpl. by rewrite lookup_delete_ne, Hoth.
Qed.

Lemma close_sinks_spec shutdown sinks err w :
  let '(e, w') := close_sinks shutdown sinks err w in
  tcp_writers w' = tcp_writers w ∧ tcp_writer_addrs_by_ip w' = tcp_writer_addrs_by_ip w ∧
  closed w' = closed w ∧ (∀ t, t ∈ cancelled w → t ∈ cancelled w') ∧
  (∀ s, s ∈ sinks → sink_cancel s ∈ cancelled w') ∧
  (e = None ↔ err = None ∧ ∀ s, s ∈ sinks → is_direct s = true → is_ok (shutdown s) = true).
Proof.
  revert err w. induction sinks as [|s sinks IH]; intros err w; simpl.
  { split_and!; try done; [set_solver|]. split; [|naive_solver]. intros ->. split; [done|]. set_solver. }
  set (err' := if is_direct s then _ else err). specialize (IH err' (close_sink s w)).
  destruct (close_sinks shutdown sinks err' (close_sink s w)) as [e w'].
  destruct IH as (H1 & H2 & H3 & H4 & H5 & H6). split_and!; try done.
  - intros t Ht. apply H4. simpl. set_solver.
  - intros x [->|Hx]%elem_of_cons; [|by apply H5]. apply H4. simpl. set_solver.
  - assert (Herr : err' = None ↔ err = None ∧ (is_direct s = true → is_ok (shutdown s) = true)).
    { subst err'. destruct (is_direct s), (shutdown s), err; simpl; intuition congruence. }
    rewrite H6, Herr. split.
    + intros [[He Hs] Ha]. split; [done|]. by intros x [->|Hx]%elem_of_cons; [|apply Ha].
    + intros [He Ha]. split; [split; [done|]|].
      * apply Ha. by left.
      * intros x Hx. apply Ha. by right.
Qed.

(** Closing a writer cancels every registered sink, empties the registry,
    drops the UDP socket, and succeeds exactly when every direct stream shut
    down; afterwards every write is refused and changes nothing. *)
Theorem writer_close_spec shutdown w :
  let '(r, w') := writer_close shutdown w in
  drained w' ∧ udp_socket w' = None ∧
  (∀ addr s, tcp_sink w addr = Some s → is_cancelled w' (sink_cancel s) = true) ∧
  (is_ok r = true ↔ ∀ addr s, tcp_sink w addr = Some s → is_direct s = true → is_ok (shutdown s) = true) ∧
  (∀ udp_send wait io data addr p,
     try_write_to udp_send w' data addr p = Ret (Err packet_writer_closed, w') ∧
     write_to w' data addr p wait udp_send io = Ret (Some (Err packet_writer_closed, w')) ∧
     write_slice_to w' data addr p wait udp_send = (Err packet_writer_closed, w') ∧
     write_tcp_to_ip w' data addr.1 wait io = Ret (Some (Err packet_writer_closed, w'))).
Proof.
  unfold writer_close, close_drain. simpl. set (sinks := (map_to_list (tcp_writers w)).*2.*2).
  assert (Hin : ∀ s, s ∈ sinks ↔ ∃ addr, tcp_sink w addr = Some s).
  { intros s. subst sinks. setoid_rewrite tcp_sink_Some. rewrite list_elem_of_fmap. split.
    - intros ([r s'] & -> & Hin). apply list_elem_of_fmap in Hin as ([a [r' s'']] & [= -> ->] & Hin).
      apply elem_of_map_to_list in Hin. by exists a, r'.
    - intros (addr & r & Hs). exists (r, s). split; [done|]. apply list_elem_of_fmap. exists (addr, (r, s)).
      split; [done|]. by apply elem_of_map_to_list. }
  pose proof (close_sinks_spec shutdown sinks None (set_registry ∅ ∅ (close_begin w))) as H'.
  destruct (close_sinks _ _ _ _) as [e w1]. destruct H' as (H1 & H2 & H3 & H4 & H5 & H6).
  cbn [closed set_registry close_begin tcp_writers tcp_writer_addrs_by_ip] in *.
  split; [by repeat split|]. split; [done|]. split_and!.
  - intros addr s Hs. apply bool_decide_eq_true. simpl. apply H5, Hin. by eexists.
  - destruct e as [e|]; simpl.
    + split; [done|]. intros Hall. assert (Some e = None); [|done]. apply H6. split; [done|].
      intros s [addr Hs]%Hin Hd. by eapply Hall.
    + destruct (proj1 H6 eq_refl) as [_ Hall]. split; [|done]. intros _ addr s Hs Hd.
      apply Hall; [|done]. apply Hin. by eexists.
  - intros *. unfold try_write_to, write_to, write_slice_to, write_tcp_to_ip, ensure_open. simpl.
    by rewrite H3.
Qed.

(** A non-blocking TCP write answers success exactly by putting one packet,
    the encoding of the data, at the end of the queue of the address's sink;
    when it answers an error, it changed nothing. *)
Theorem try_write_tcp_spec udp_send w data addr :
  returns (encode_tcp (encoder w) data) (λ _, True) →
  returns (try_write_to udp_send w data addr TCP) (λ '(r, w'),
    match r with
    | Err _ => w' = w
    | Ok _ => closed w = false ∧ ∃ ch tok c p,
        (∃ a, tcp_sink w addr = Some (QueuedSink a ch tok)) ∧
        is_cancelled w tok = false ∧ encode_tcp (encoder w) data = Ret (Ok p) ∧
        chans w !! ch = Some c ∧ ch_closed c = false ∧ length (ch_queue c) < ch_cap c ∧
        w' = set_chans (<[ch := mkChan (ch_queue c ++ [p]) (ch_cap c) false]> (chans w)) w
    end).
Proof.
  intros He. unfold try_write_to, ensure_open. destruct (closed w) eqn:Hcl; [done|]. cbn beta iota.
  unfold tcp_sink_or_err. destruct (tcp_sink w addr) as [[a ch tok|a st tok]|] eqn:Hs; [|done..].
  cbn [sink_try_write]. unfold queued_try_write. destruct (is_cancelled w tok) eqn:Htok; [done|].
  destruct (encode_tcp (encoder w) data) as [[p|e]| |] eqn:Hp; [|done..]. cbn [mbind exec_bind returns].
  unfold try_send. destruct (chans w !! ch) as [c|] eqn:Hch; [|done].
  destruct (ch_closed c) eqn:Hcc; [done|]. destruct (Nat.ltb_spec (length (ch_queue c)) (ch_cap c)); [|done].
  split; [done|]. exists ch, tok, c, p. split_and!; by eauto.
Qed.
End writer.

(** ** Witnesses *)

Module WriterExample.
Definition enc : RawPacketEncoder := Raw.
Definition start : PacketWriter (Ip:=N) := writer_new (Some 0%N) enc default_write_mode.
Definition with_chan : PacketWriter (Ip:=N) := set_chans {[7%N := mkChan [] 2 false]} start.
Definition s1 : TcpPacketSink (Ip:=N) := QueuedSink (10, 80)%N 7 70.
Definition s2 : TcpPacketSink (Ip:=N) := DirectSink (10, 81)%N 8 71.
Definition w1 : PacketWriter := (insert_tcp_sink with_chan (10, 80)%N s1).2.
Definition w2 : PacketWriter := (insert_tcp_sink w1 (10, 81)%N s2).2.

Lemma writer_run2 : rtc wstep start w2.
Proof.
  eapply rtc_l; [apply ws_chans|]. eapply rtc_l; [apply (ws_begin _ s1)|].
  eapply rtc_l; [by apply (ws_commit _ (10, 80)%N s1 1)|]. eapply rtc_l; [apply (ws_begin _ s2)|].
  eapply rtc_l; [by apply (ws_commit _ (10, 81)%N s2 2)|]. apply rtc_refl.
Qed.

Lemma ok2 : registry_ok w2.
Proof.
  apply insert_tcp_sink_ok; [|done]. apply insert_tcp_sink_ok; [|done].
  apply (registry_ok_ext start); [done..|]. apply writer_new_ok.
Qed.

Definition closed2 : PacketWriter := (close_drain (close_begin w2)).2.
End WriterExample.
Import WriterExample.

Lemma registry_interleavings_witness :
  registry_ok (insert_commit closed2 (10, 82)%N (QueuedSink (10, 82)%N 9 72) 3).2 ∧
  (drained closed2 → drained (insert_commit closed2 (10, 82)%N (QueuedSink (10, 82)%N 9 72) 3).2).
Proof.
  apply (registry_interleavings (Some 0%N) enc default_write_mode).
  - etrans; [apply writer_run2|]. eapply rtc_l; [apply ws_close_begin|].
    eapply rtc_l; [by apply ws_close_drain|]. apply rtc_refl.
  - apply rtc_once. by apply ws_commit.
Defined.

Lemma tcp_sink_by_ip_spec_witness :
  match tcp_sink_by_ip w2 10%N with
  | Some s => ∃ addr, addr.1 = 10%N ∧ tcp_sink w2 addr = Some s
  | None => ∀ addr, addr.1 = 10%N → tcp_sink w2 addr = None
  end ∧
  ∀ addr sink id, addr.1 = 10%N → sink_remote_addr sink = addr → closed w2 = false →
    tcp_sink_by_ip (insert_commit w2 addr sink id).2 10%N = Some sink.
Proof. apply tcp_sink_by_ip_spec, ok2. Defined.

Lemma registration_replaced_witness :
  let w' := (insert_commit w2 (10, 80)%N (QueuedSink (10, 80)%N 9 72) 3).2 in
  tcp_sink w' (10, 80)%N = Some (QueuedSink (10, 80)%N 9 72) ∧
  (∀ old, tcp_sink w2 (10, 80)%N = Some old → is_cancelled w' (sink_cancel old) = true) ∧
  (∀ a, a ≠ (10, 80)%N → tcp_sink w' a = tcp_sink w2 a) ∧
  (∀ old, old ≠ 3%N → remove_registered_tcp_writer w' (mkReg (10, 80)%N old) = w') ∧
  (let w'' := remove_registered_tcp_writer w' (mkReg (10, 80)%N 3) in
   tcp_sink w'' (10, 80)%N = None ∧ is_cancelled w'' 72 = true ∧
   ∀ a, a ≠ (10, 80)%N → tcp_sink w'' a = tcp_sink w2 a).
Proof. apply (registration_replaced w2 (10, 80)%N (QueuedSink (10, 80)%N 9 72) 3). reflexivity. Defined.

Lemma try_write_tcp_spec_witness :
  returns (try_write_to (λ _ _ _, Ok ()) w2 [1; 2]%N (10, 80)%N TCP) (λ '(r, w'),
    match r with
    | Err _ => w' = w2
    | Ok _ => closed w2 = false ∧ ∃ ch tok c p,
        (∃ a, tcp_sink w2 (10, 80)%N = Some (QueuedSink a ch tok)) ∧
        is_cancelled w2 tok = false ∧ encode_tcp (encoder w2) [1; 2]%N = Ret (Ok p) ∧
        chans w2 !! ch = Some c ∧ ch_closed c = false ∧ length (ch_queue c) < ch_cap c ∧
        w' = set_chans (<[ch := mkChan (ch_queue c ++ [p]) (ch_cap c) false]> (chans w2)) w2
    end).
Proof. apply (try_write_tcp_spec (λ _ _ _, Ok ()) w2 [1; 2]%N (10, 80)%N). exact I. Defined.
