(* ===== verification/NetSinks.v ===== *)
(** * Every sink that was handed out (base/src/net/rw.rs)

    A sink leaves the registry under its lock and is closed afterwards, by
    the task that took it out: here the two are separate steps, with the
    sinks in between held by removals and registrations ([pending]) or by the
    close of the writer ([closing]).  [issued] is every sink that was ever
    registered, clones of which anybody may still have. *)
From S2P Require Import Prelude Errors Bytes NetFrame NetWriter.

Section sinks.
Context {Ip : Type} `{Countable Ip} {E : Type} `{PacketEncoder E}.
Notation SocketAddr := (Ip * N)%type.
Notation PacketWriter := (PacketWriter (Ip := Ip) (E := E)).
Notation TcpPacketSink := (TcpPacketSink (Ip := Ip)).
Implicit Types w : PacketWriter.

(** The lock section of [insert_tcp_sink]: the sink it replaced. *)
Definition commit_locked w (addr : SocketAddr) (sink : TcpPacketSink) (id : N) : option TcpPacketSink * PacketWriter :=
  if closed w then (None, close_sink sink w)
  else
    let registration := mkReg addr id in
    let regs := default [] (tcp_writer_addrs_by_ip w !! addr.1) in
    let regs := filter (λ r, reg_remote_addr r ≠ addr) regs ++ [registration] in
    (snd <$> tcp_writers w !! addr,
     set_registry (<[addr := (registration, sink)]> (tcp_writers w)) (<[addr.1 := regs]> (tcp_writer_addrs_by_ip w)) w).

Record Shared := mkShared {
  writer : PacketWriter;
  begun : list (SocketAddr * TcpPacketSink * N);   (* registrations before the lock *)
  pending : list TcpPacketSink;
  closing : list TcpPacketSink;
  issued : list TcpPacketSink
}.
Definition shared_new w : Shared := mkShared w [] [] [] [].
Definition with_writer (n : Shared) w : Shared := mkShared w (begun n) (pending n) (closing n) (issued n).

(** The begin of a registration that went on, the lock section, a removal,
    the parts of the writer's close, the closes of the sinks, a token that is
    cancelled elsewhere, a channel that moved. *)
Inductive sstep (n : Shared) : Shared → Prop :=
  | s_begin addr sink id w :
      sink_remote_addr sink = addr → insert_begin (writer n) sink = (Some id, w) →
      sstep n (mkShared w ((addr, sink, id) :: begun n) (pending n) (closing n) (issued n))
  | s_refused sink w :
      insert_begin (writer n) sink = (None, w) → sstep n (with_writer n w)
  | s_commit addr sink id l1 l2 previous w :
      begun n = l1 ++ (addr, sink, id) :: l2 → commit_locked (writer n) addr sink id = (previous, w) →
      sstep n (mkShared w (l1 ++ l2) (pending n ++ option_list previous) (closing n)
                 (if closed (writer n) then issued n else sink :: issued n))
  | s_remove addr expected sink w :
      remove_tcp_writer_inner (writer n) addr expected = (sink, w) →
      sstep n (mkShared w (begun n) (pending n ++ option_list sink) (closing n) (issued n))
  | s_close_sink l1 s l2 :
      pending n = l1 ++ s :: l2 →
      sstep n (mkShared (close_sink s (writer n)) (begun n) (l1 ++ l2) (closing n) (issued n))
  | s_close_begin : sstep n (with_writer n (close_begin (writer n)))
  | s_close_drain sinks w :
      closed (writer n) = true → close_drain (writer n) = (sinks, w) →
      sstep n (mkShared w (begun n) (pending n) (closing n ++ sinks) (issued n))
  | s_closing s rest :
      closing n = s :: rest →
      sstep n (mkShared (close_sink s (writer n)) (begun n) (pending n) rest (issued n))
  | s_take_udp : sstep n (with_writer n (take_udp (writer n)))
  | s_cancel t : sstep n (with_writer n (cancel t (writer n)))
  | s_chans c : sstep n (with_writer n (set_chans c (writer n))).

(** The lock section and the close of the replaced sink are [insert_commit]. *)
Lemma commit_locked_commit w addr sink id :
  (insert_commit w addr sink id).2 =
  let '(previous, w) := commit_locked w addr sink id in
  match previous with Some old => close_sink old w | None => w end.
Proof.
  unfold insert_commit, commit_locked. destruct (closed w); [done|].
  by destruct (tcp_writers w !! addr) as [[r old]|].
Qed.

(** ** Invariant *)

Definition registered w (s : TcpPacketSink) : Prop := ∃ a r, tcp_writers w !! a = Some (r, s).
Definition accounted (n : Shared) (s : TcpPacketSink) : Prop :=
  registered (writer n) s ∨ s ∈ pending n ∨ s ∈ closing n ∨ is_cancelled (writer n) (sink_cancel s) = true.

Lemma is_cancelled_cancel w t t' : is_cancelled (cancel t w) t' = bool_decide (t = t') || is_cancelled w t'.
Proof. unfold is_cancelled. simpl. repeat case_bool_decide; simpl; set_solver. Qed.

(** The sinks of the registry that a change of it took out. *)
Lemma registered_insert w addr r sink s tw bi :
  tw = <[addr := (r, sink)]> (tcp_writers w) → registered w s →
  registered (set_registry tw bi w) s ∨ snd <$> tcp_writers w !! addr = Some s.
Proof.
  intros -> (a & r' & Ha). destruct (decide (a = addr)) as [->|Hne]; [right; by rewrite Ha|left].
  exists a, r'. simpl. by rewrite lookup_insert_ne.
Qed.

Lemma remove_registered w addr e o w' s :
  remove_tcp_writer_inner w addr e = (o, w') → registered w s →
  (registered w' s ∨ o = Some s) ∧ cancelled w' = cancelled w.
Proof.
  unfold remove_tcp_writer_inner. intros Hr Hs. destruct (tcp_writers w !! addr) as [[r s0]|] eqn:Ha; [|injection Hr as _ <-; by split; [left|]].
  destruct (match e with Some _ => _ | None => _ end); injection Hr as <- <-; [by split; [left|]|]. split; [|done].
  destruct Hs as (a & r' & Ha'). destruct (decide (a = addr)) as [->|Hne]; [right; congruence|left].
  exists a, r'. simpl. by rewrite lookup_delete_ne.
Qed.

(** Whatever keeps the registry and un-cancels nothing keeps the account. *)
Lemma accounted_mono n n' s :
  accounted n s → tcp_writers (writer n') = tcp_writers (writer n) →
  (∀ t, is_cancelled (writer n) t = true → is_cancelled (writer n') t = true) →
  (s ∈ pending n → s ∈ pending n' ∨ is_cancelled (writer n') (sink_cancel s) = true) →
  (s ∈ closing n → s ∈ closing n' ∨ is_cancelled (writer n') (sink_cancel s) = true) →
  accounted n' s.
Proof. unfold accounted, registered. intros Ha -> Hc Hp Hcl. naive_solver. Qed.

Lemma cancel_mono t w t' : is_cancelled w t' = true → is_cancelled (cancel t w) t' = true.
Proof. intros Ht. by rewrite is_cancelled_cancel, Ht, orb_true_r. Qed.
Lemma cancel_self t w : is_cancelled (cancel t w) t = true.
Proof. by rewrite is_cancelled_cancel, bool_decide_eq_true_2. Qed.
#[local] Hint Resolve cancel_mono cancel_self : core.

Lemma sstep_accounted n n' : (∀ s, s ∈ issued n → accounted n s) → sstep n n' → ∀ s, s ∈ issued n' → accounted n' s.
Proof.
  intros Hi Hs s. destruct Hs as [addr sink id w Ha Hb|sink w Hb|addr sink id l1 l2 prev w Hb Hc|addr e o w Hr
    |l1 s0 l2 Hp| |sinks w Hcl Hd|s0 rest Hc| |t|c]; simpl; intros Hin.
  - apply Hi in Hin. unfold insert_begin in Hb. destruct (closed (writer n)); [done|]. injection Hb as _ <-.
    apply (accounted_mono n); auto.
  - apply Hi in Hin. unfold insert_begin in Hb. destruct (closed (writer n)); [|done]. injection Hb as <-.
    apply (accounted_mono n); simpl; auto. intros t Ht. by apply cancel_mono.
  - unfold commit_locked in Hc. destruct (closed (writer n)).
    + injection Hc as <- <-. apply Hi in Hin. apply (accounted_mono n); simpl; auto; [intros t; apply cancel_mono|].
      intros Hp. left. set_solver.
    + injection Hc as <- <-. apply elem_of_cons in Hin as [->|Hin].
      { left. exists addr, (mkReg addr id). simpl. by rewrite lookup_insert_eq. }
      destruct (Hi s Hin) as [Hreg|[Hp|[Hp|Hp]]]; unfold accounted; simpl; [|set_solver..|by right; right; right].
      destruct (registered_insert (writer n) addr (mkReg addr id) sink s _
        (<[addr.1 := filter (λ r, reg_remote_addr r ≠ addr) (default [] (tcp_writer_addrs_by_ip (writer n) !! addr.1)) ++ [mkReg addr id]]>
           (tcp_writer_addrs_by_ip (writer n))) eq_refl Hreg) as [Hx| ->]; [by left|right; left; simpl; set_solver].
  - destruct (Hi s Hin) as [Hreg|[Hp|[Hp|Hp]]]; unfold accounted; simpl; [|set_solver..|].
    + destruct (remove_registered _ _ _ _ _ s Hr Hreg) as [[Hx| ->] _]; [by left|right; left; simpl; set_solver].
    + right; right; right. unfold is_cancelled in *.
      assert (cancelled w = cancelled (writer n)) as ->; [|done].
      unfold remove_tcp_writer_inner in Hr. repeat case_match; by injection Hr as _ <-.
  - apply Hi in Hin. apply (accounted_mono n); simpl; auto; [intros t; apply cancel_mono|].
    rewrite Hp. intros Hx. assert (s = s0 ∨ s ∈ l1 ++ l2) as [->|?] by set_solver; [right; apply cancel_self|by left].
  - apply Hi in Hin. by apply (accounted_mono n); auto.
  - unfold close_drain in Hd. injection Hd as <- <-.
    destruct (Hi s Hin) as [(a & r & Hreg)|[Hp|[Hp|Hp]]]; unfold accounted; simpl; [|set_solver..|by right; right; right].
    right; right; left. apply elem_of_app. right. apply list_elem_of_fmap. exists (r, s). split; [done|].
    apply list_elem_of_fmap. exists (a, (r, s)). split; [done|]. by apply elem_of_map_to_list.
  - apply Hi in Hin. apply (accounted_mono n); simpl; auto; [intros t; apply cancel_mono|].
    rewrite Hc. intros [->|?]%elem_of_cons; [right; apply cancel_self|by left].
  - apply Hi in Hin. by apply (accounted_mono n); auto.
  - apply Hi in Hin. apply (accounted_mono n); simpl; auto.
  - apply Hi in Hin. by apply (accounted_mono n); auto.
Qed.

(** ** After the close *)

Definition quiet (n : Shared) : Prop := drained (writer n) ∧ pending n = [] ∧ closing n = [].

Lemma sstep_quiet n n' : quiet n → sstep n n' → quiet n' ∧ issued n' = issued n.
Proof.
  intros [(Hc & Ht & Hb) [Hp Hcl]]. destruct 1 as [addr sink id w Ha Hbe|sink w Hbe|addr sink id l1 l2 prev w Hbe Hco|addr e o w Hr
    |l1 s0 l2 Hp0| |sinks w Hcl0 Hd|s0 rest Hc0| |t|c].
  - unfold insert_begin in Hbe. by rewrite Hc in Hbe.
  - unfold insert_begin in Hbe. rewrite Hc in Hbe. injection Hbe as <-. by repeat split.
  - unfold commit_locked in Hco. rewrite Hc in Hco. injection Hco as <- <-. rewrite Hc. simpl.
    by repeat split; simpl; rewrite ?app_nil_r.
  - unfold remove_tcp_writer_inner in Hr. rewrite Ht, lookup_empty in Hr. injection Hr as <- <-.
    by repeat split; simpl; rewrite ?app_nil_r.
  - rewrite Hp in Hp0. by destruct l1.
  - by repeat split.
  - unfold close_drain in Hd. rewrite Ht, map_to_list_empty in Hd. injection Hd as <- <-.
    by repeat split; simpl; rewrite ?app_nil_r.
  - congruence.
  - by repeat split.
  - by repeat split.
  - by repeat split.
Qed.

Lemma ssteps_quiet n n' : rtc sstep n n' → quiet n → quiet n' ∧ issued n' = issued n.
Proof.
  induction 1 as [|n n1 n2 H1 _ IH]; [done|]. intros Hq.
  destruct (sstep_quiet n n1 Hq H1) as [Hq1 Hi1], (IH Hq1) as [? Hi2]. split; [done|congruence].
Qed.

Lemma ssteps_accounted n n' : rtc sstep n n' → (∀ s, s ∈ issued n → accounted n s) → ∀ s, s ∈ issued n' → accounted n' s.
Proof. induction 1 as [|n n1 n2 H1 _ IH]; [done|]. intros Hn. by apply IH, (sstep_accounted n). Qed.

Lemma cancelled_sink_refuses w s data wait io : is_cancelled w (sink_cancel s) = true →
  (∃ e, sink_try_write w s data = Ret (Err e, w)) ∧
  sink_write w s data wait io = Ret (Some (Err (SysErr "tcp sink is closed"), w)).
Proof.
  destruct s as [a ch tok|a st tok]; simpl; intros Hc.
  - unfold queued_try_write, queued_write. rewrite Hc. split; [by eexists|done].
  - unfold direct_write. rewrite Hc. split; [by eexists|done].
Qed.

(** C8: Once a close has emptied the registry and the tasks that took sinks out
    of it have closed them, no sink that was ever handed out takes data, in
    whatever order registrations, replacements, removals and the close
    happened; and it stays so whatever is tried afterwards, nothing being
    registered any more. *)
Theorem issued_sinks_dead udp enc mode n n' :
  rtc sstep (shared_new (writer_new udp enc mode)) n →
  drained (writer n) → pending n = [] → closing n = [] → rtc sstep n n' →
  drained (writer n') ∧ issued n' = issued n ∧
  ∀ s, s ∈ issued n' → ∀ data wait io,
    (∃ e, sink_try_write (writer n') s data = Ret (Err e, writer n')) ∧
    sink_write (writer n') s data wait io = Ret (Some (Err (SysErr "tcp sink is closed"), writer n')).
Proof.
  intros Hr Hd Hp Hcl Hr'. destruct (ssteps_quiet n n' Hr' (conj Hd (conj Hp Hcl))) as [(Hd' & Hp' & Hcl') Hi].
  split; [done|]. split; [done|]. intros s Hs data wait io. apply cancelled_sink_refuses.
  assert (accounted n' s) as [(a & r & Ha)|[Hx|[Hx|Hx]]].
  { apply (ssteps_accounted (shared_new (writer_new udp enc mode))); [by etrans| |done]. intros x Hx. by apply elem_of_nil in Hx. }
  - destruct Hd' as (_ & Ht & _). by rewrite Ht, lookup_empty in Ha.
  - rewrite Hp' in Hx. by apply elem_of_nil in Hx.
  - rewrite Hcl' in Hx. by apply elem_of_nil in Hx.
  - done.
Qed.

(** A close whose future is dropped at one of its awaits: the sinks it has not
    come to go with it. *)
Definition drop_close (n : Shared) : Shared := mkShared (writer n) (begun n) (pending n) [] (issued n).
End sinks.

(** ** Witness and observation *)

Module SinksExample.
Definition sink1 : TcpPacketSink (Ip := N) := DirectSink (10, 80)%N 7 70.
Definition sink2 : TcpPacketSink (Ip := N) := DirectSink (10, 81)%N 8 71.
Notation Shared := (Shared (Ip := N) (E := RawPacketEncoder)).
Definition new : Shared := shared_new (writer_new None Raw Direct).
Definition reg (sink : TcpPacketSink) (n : Shared) : Shared :=
  match insert_begin (writer n) sink with
  | (Some id, w) =>
      let '(previous, w) := commit_locked w (sink_remote_addr sink) sink id in
      mkShared w (begun n) (pending n ++ option_list previous) (closing n) (sink :: issued n)
  | (None, w) => with_writer n w
  end.
Definition n2 : Shared := reg sink2 (reg sink1 new).
Definition drained2 : Shared :=
  let '(sinks, w) := close_drain (close_begin (writer n2)) in
  mkShared w (begun n2) (pending n2) (closing n2 ++ sinks) (issued n2).
Definition close_one (n : Shared) : Shared :=
  match closing n with
  | s :: rest => mkShared (close_sink s (writer n)) (begun n) (pending n) rest (issued n)
  | [] => n
  end.
Definition closed2 : Shared := close_one (close_one drained2).
(** The close is dropped while it awaits the first stream's shutdown. *)
Definition dropped2 : Shared := drop_close (close_one drained2).

Lemma reg_steps sink n : closed (writer n) = false → begun n = [] → rtc sstep n (reg sink n).
Proof.
  intros Hc Hb. unfold reg. destruct (insert_begin (writer n) sink) as [[id|] w] eqn:Hi.
  - destruct (commit_locked w (sink_remote_addr sink) sink id) as [prev w'] eqn:Hl.
    assert (closed w = false) as Hcw by (unfold insert_begin in Hi; rewrite Hc in Hi; by injection Hi as _ <-).
    eapply rtc_l; [by apply (s_begin n (sink_remote_addr sink) sink id w)|]. rewrite Hb.
    eapply rtc_l; [by apply (s_commit _ (sink_remote_addr sink) sink id [] [] prev w')|]. simpl. by rewrite Hcw.
  - apply rtc_once. by eapply s_refused.
Qed.

Lemma run_drained2 : rtc sstep new drained2.
Proof.
  etrans; [apply (reg_steps sink1 new); reflexivity|]. etrans; [apply (reg_steps sink2); reflexivity|].
  apply (rtc_l _ _ (with_writer n2 (close_begin (writer n2)))); [apply s_close_begin|]. apply rtc_once.
  apply (s_close_drain (with_writer n2 (close_begin (writer n2))) [sink1; sink2] (close_drain (close_begin (writer n2))).2);
    reflexivity.
Qed.
End SinksExample.

Lemma issued_sinks_dead_witness :
  drained (writer SinksExample.closed2) ∧ issued SinksExample.closed2 = [SinksExample.sink2; SinksExample.sink1] ∧
  ∀ s, s ∈ [SinksExample.sink2; SinksExample.sink1] → ∀ data wait io,
    (∃ e, sink_try_write (writer SinksExample.closed2) s data = Ret (Err e, writer SinksExample.closed2)) ∧
    sink_write (writer SinksExample.closed2) s data wait io =
      Ret (Some (Err (SysErr "tcp sink is closed"), writer SinksExample.closed2)).
Proof.
  apply (issued_sinks_dead None Raw Direct SinksExample.closed2 SinksExample.closed2).
  - etrans; [apply SinksExample.run_drained2|].
    eapply rtc_l; [by apply (s_closing SinksExample.drained2 SinksExample.sink1 [SinksExample.sink2])|].
    apply rtc_once. by apply (s_closing (SinksExample.close_one SinksExample.drained2) SinksExample.sink2 []).
  - repeat split; reflexivity.
  - reflexivity.
  - reflexivity.
  - apply rtc_refl.
Defined.

(** Dropping the close before it is through leaves a sink that still writes,
    though the registry is empty and a second close finds nothing to do. *)
Example dropped_close_leaves_sink :
  let w := writer SinksExample.dropped2 in
  quiet SinksExample.dropped2 ∧ SinksExample.sink2 ∈ issued SinksExample.dropped2 ∧
  is_cancelled w 71 = false ∧
  (writer_close (λ _, Err (SysErr "shutdown")) w).1 = Ok () ∧
  is_cancelled (writer_close (λ _, Err (SysErr "shutdown")) w).2 71 = false ∧
  sink_write w SinksExample.sink2 (str "data") id (λ _, Some (Ok ())) = Ret (Some (Ok (), w)).
Proof. split_and!; [repeat split; vm_compute; reflexivity|by left|vm_compute; reflexivity..]. Qed.
