(* ===== verification/NetWait.v ===== *)
(** * Waiting for a peer's sink (base/src/net/rw.rs)

    [wait_tcp_sink] looks at the registry, takes a ticket of the writer's
    [Notify], looks again, and sleeps until the ticket is called, the writer
    closes or the deadline passes; a registration calls all tickets after its
    lock section, in a step of its own.  What can go wrong is a lost wakeup: a
    waiter that looks before the registration and sleeps after its call. *)
From S2P Require Import Prelude Errors Bytes NetFrame NetWriter.

(** tokio's [Notify]: a ticket is called by every [notify_waiters] since it
    was created, whether it was polled or not, and stays called. *)
Class Notify (Nt Ticket : Type) := {
  notified : Nt → Ticket;
  notify_waiters : Nt → Nt;
  called : Nt → Ticket → bool;
}.
Class NotifyLaws (Nt Ticket : Type) `{Notify Nt Ticket} : Prop := {
  called_next n : called (notify_waiters n) (notified n) = true;
  called_stays n t : called n t = true → called (notify_waiters n) t = true;
}.

Section wait.
Context {Ip : Type} `{Countable Ip} {E : Type} `{PacketEncoder E} {Nt Ticket : Type} `{Notify Nt Ticket}.
Notation SocketAddr := (Ip * N)%type.
Notation PacketWriter := (PacketWriter (Ip := Ip) (E := E)).
Notation TcpPacketSink := (TcpPacketSink (Ip := Ip)).
Implicit Types w : PacketWriter.

(** Where a call is: before [ensure_open], before the first look, before the
    ticket, before the second look, asleep, or back. *)
Inductive Phase :=
  | AtTop
  | Looking
  | Creating
  | LookingAgain (t : Ticket)
  | Sleeping (t : Ticket)
  | Returned (r : GlobalResult TcpPacketSink).

Definition timed_out_error : GlobalError := SysErr "tcp writer wait timed out".

(** The call up to its loop; a timeout of nothing is refused. *)
Definition wait_begin (timeout : N) : Phase :=
  if (timeout =? 0)%N then Returned (Err (SysErr "tcp writer wait timeout must be greater than zero")) else AtTop.

(** The next step of a call that waits for [addr]; [None]: it sleeps on. *)
Definition wait_next w (n : Nt) (addr : SocketAddr) (timed_out : bool) (ph : Phase) : option Phase :=
  match ph with
  | AtTop => Some (match ensure_open w with Ok _ => Looking | Err e => Returned (Err e) end)
  | Looking => Some (match tcp_sink w addr with Some s => Returned (Ok s) | None => Creating end)
  | Creating => Some (LookingAgain (notified n))
  | LookingAgain t => Some (match tcp_sink w addr with Some s => Returned (Ok s) | None => Sleeping t end)
  | Sleeping t =>
      if closed w then Some (Returned (Err packet_writer_closed))
      else if called n t then Some AtTop
      else if timed_out then Some (Returned (Err timed_out_error))
      else None
  | Returned r => Some (Returned r)
  end.

(** The writer with its [Notify], the registrations that have not called the
    tickets yet, and the calls by number. *)
Record Waits := mkWaits { writer : PacketWriter; ready : Nt; owed : nat; waiters : gmap N (SocketAddr * Phase) }.
Definition set_waiter (i : N) (p : SocketAddr * Phase) (n : Waits) : Waits :=
  mkWaits (writer n) (ready n) (owed n) (<[i := p]> (waiters n)).

Definition registers_nothing w w' : Prop := ∀ a s, tcp_sink w' a = Some s → tcp_sink w a = Some s.

Inductive nstep (n : Waits) : Waits → Prop :=
  | n_commit addr sink id reg w' :
      sink_remote_addr sink = addr → insert_commit (writer n) addr sink id = (Some reg, w') →
      nstep n (mkWaits w' (ready n) (Datatypes.S (owed n)) (waiters n))
  | n_notify k :
      owed n = Datatypes.S k → nstep n (mkWaits (writer n) (notify_waiters (ready n)) k (waiters n))
  | n_writer w' :
      wstep (writer n) w' → registers_nothing (writer n) w' →
      nstep n (mkWaits w' (ready n) (owed n) (waiters n))
  | n_begin i addr timeout :
      waiters n !! i = None → nstep n (set_waiter i (addr, wait_begin timeout) n)
  | n_next i addr ph ph' timed_out :
      waiters n !! i = Some (addr, ph) → wait_next (writer n) (ready n) addr timed_out ph = Some ph' →
      nstep n (set_waiter i (addr, ph') n)
  | n_drop i : nstep n (mkWaits (writer n) (ready n) (owed n) (delete i (waiters n))).

(** No step of the writer is left out: it registers a sink in the lock
    section of a registration, or registers nothing. *)
Lemma wstep_registers w w' : wstep w w' →
  (∃ addr sink id reg, sink_remote_addr sink = addr ∧ insert_commit w addr sink id = (Some reg, w')) ∨
  registers_nothing w w'.
Proof.
  unfold registers_nothing, tcp_sink. destruct 1 as [w sink|w addr sink id Hs|w addr e|w|w Hc|w t|w c|w]; try by right.
  - right. unfold insert_begin. by destruct (closed w).
  - destruct (insert_commit w addr sink id) as [[reg|] w'] eqn:Hi; [left; by exists addr, sink, id, reg|].
    right. unfold insert_commit in Hi. destruct (closed w); [|by destruct (tcp_writers w !! addr) as [[]|]].
    by injection Hi as <-.
  - right. unfold remove_and_close, remove_tcp_writer_inner. destruct (tcp_writers w !! addr) as [[r0 s0]|] eqn:Ha; [|done].
    destruct (match e with Some _ => _ | None => _ end); [done|]. intros a s. simpl.
    destruct (decide (a = addr)) as [->|Hne]; [by rewrite lookup_delete_eq|by rewrite lookup_delete_ne].
Qed.

(** ** No wakeup is lost *)

(** A ticket is called already, or it will be by the next call; then what
    the waiter found still holds, or a registration owes a call. *)
Definition ticket_ok (n : Waits) (t : Ticket) (asleep_for : option SocketAddr) : Prop :=
  called (ready n) t = true ∨
  (t = notified (ready n) ∧ from_option (λ a, tcp_sink (writer n) a = None ∨ owed n ≠ 0) True asleep_for).

Definition waiter_ok (n : Waits) (p : SocketAddr * Phase) : Prop :=
  match p.2 with
  | LookingAgain t => ticket_ok n t None
  | Sleeping t => ticket_ok n t (Some p.1)
  | Returned (Ok s) => sink_remote_addr s = p.1
  | _ => True
  end.

Record waits_ok (n : Waits) : Prop := {
  wo_registry : registry_ok (writer n);
  wo_waiters i p : waiters n !! i = Some p → waiter_ok n p
}.

Context `{!NotifyLaws Nt Ticket}.

Lemma sink_address w a s : registry_ok w → tcp_sink w a = Some s → sink_remote_addr s = a.
Proof.
  intros Hok. unfold tcp_sink. destruct (tcp_writers w !! a) as [[r s']|] eqn:Ha; [|done].
  intros [= <-]. by destruct (ro_addr w Hok _ _ _ Ha).
Qed.

Lemma wait_next_ok n addr timed_out ph ph' :
  registry_ok (writer n) → waiter_ok n (addr, ph) →
  wait_next (writer n) (ready n) addr timed_out ph = Some ph' → waiter_ok n (addr, ph').
Proof.
  intros Hok Hw. destruct ph as [| | |t|t|r]; simpl.
  - intros [= <-]. unfold ensure_open. by destruct (closed (writer n)).
  - intros [= <-]. destruct (tcp_sink (writer n) addr) eqn:Hs; [by apply (sink_address _ _ _ Hok)|done].
  - intros [= <-]. by right.
  - intros [= <-]. destruct (tcp_sink (writer n) addr) eqn:Hs; [by apply (sink_address _ _ _ Hok)|].
    destruct Hw as [Hc|[Ht _]]; [by left|]. right. split; [done|by left].
  - destruct (closed (writer n)); [by intros [= <-]|]. destruct (called (ready n) t); [by intros [= <-]|].
    destruct timed_out; [by intros [= <-]|done].
  - by intros [= <-].
Qed.

(** Another state that calls no less and registers only what it owes. *)
Lemma waiter_ok_mono n n' p : waiter_ok n p →
  (∀ t, called (ready n) t = true → called (ready n') t = true) →
  (∀ t, t = notified (ready n) → called (ready n') t = true ∨
     t = notified (ready n') ∧ ∀ a, tcp_sink (writer n) a = None ∨ owed n ≠ 0 → tcp_sink (writer n') a = None ∨ owed n' ≠ 0) →
  waiter_ok n' p.
Proof.
  intros Hw Hc Ht. destruct p as [addr [| | |t|t|[s|e]]]; try done; simpl in *.
  all: destruct Hw as [Hw|[Hw Ha]]; [left; by apply Hc|]; destruct (Ht t Hw) as [?|[? Hall]]; [by left|right].
  - done.
  - split; [done|by apply Hall].
Qed.

Lemma nstep_ok n n' : waits_ok n → nstep n n' → waits_ok n'.
Proof.
  intros [Hok Hw] Hs. destruct Hs as [addr sink id reg w' Hsa Hi|k Hk|w' Hst Hnr|i addr timeout Hi|i addr ph ph' b Hi Hn|i].
  - assert (Heq : w' = (insert_commit (writer n) addr sink id).2) by by rewrite Hi.
    split; simpl; [rewrite Heq; by apply insert_commit_ok|].
    intros i p Hp. eapply waiter_ok_mono; [by eapply Hw|done|]. intros t ->. right. split; [done|]. intros a _. by right.
  - split; simpl; [done|]. intros i p Hp. eapply waiter_ok_mono; [by eapply Hw|apply called_stays|].
    intros t ->. left. apply called_next.
  - split; simpl; [by eapply wstep_ok|]. intros i p Hp. eapply waiter_ok_mono; [by eapply Hw|done|].
    intros t ->. right. split; [done|]. simpl. intros a [Ha|Ha]; [|by right]. left.
    destruct (tcp_sink w' a) eqn:Hs; [|done]. apply Hnr in Hs. congruence.
  - split; simpl; [done|]. intros j p. rewrite lookup_insert_Some. intros [[_ <-]|[_ Hp]]; [|by apply (Hw _ _ Hp)].
    unfold wait_begin. by destruct (timeout =? 0)%N.
  - split; simpl; [done|]. intros j p. rewrite lookup_insert_Some. intros [[_ <-]|[_ Hp]]; [|by apply (Hw _ _ Hp)].
    eapply (wait_next_ok n); [done|by apply (Hw _ _ Hi)|done].
  - split; simpl; [done|]. intros j p [_ Hp]%lookup_delete_Some. by apply (Hw _ _ Hp).
Qed.

Lemma nsteps_ok n n' : waits_ok n → rtc nstep n n' → waits_ok n'.
Proof. intros Hn. induction 1; [done|]. eauto using nstep_ok. Qed.

Definition waits_new w (n : Nt) : Waits := mkWaits w n 0 ∅.

(** The steps of one call while the rest stands still. *)
Fixpoint wait_run (fuel : nat) w (n : Nt) (addr : SocketAddr) (timed_out : bool) (ph : Phase) : Phase :=
  match fuel with
  | O => ph
  | Datatypes.S fuel =>
      match wait_next w n addr timed_out ph with
      | Some ph => wait_run fuel w n addr timed_out ph
      | None => ph
      end
  end.

(** C10: No wakeup is lost: however registrations, their notifications,
    removals, closes and waiting calls interleave, once no registration owes
    its notification, a call that waits for an address with a sink is back
    within three steps of its own, with that sink unless the writer is closed,
    whether its deadline has passed or not; a close brings every call back
    within four; and a sink that is returned has the address asked for. *)
Theorem no_lost_wakeup w0 nt n i addr ph timed_out :
  registry_ok w0 → rtc nstep (waits_new w0 nt) n → waiters n !! i = Some (addr, ph) →
  (∀ s, owed n = 0 → tcp_sink (writer n) addr = Some s →
     ∃ r, wait_run 3 (writer n) (ready n) addr timed_out ph = Returned r ∧
       (closed (writer n) = false → (∀ r0, ph ≠ Returned r0) → r = Ok s)) ∧
  (closed (writer n) = true → ∃ r, wait_run 4 (writer n) (ready n) addr timed_out ph = Returned r) ∧
  (∀ s, ph = Returned (Ok s) → sink_remote_addr s = addr).
Proof.
  intros Hw0 Hs Hi. assert (Hok : waits_ok n).
  { apply (nsteps_ok (waits_new w0 nt)); [|done]. split; [done|]. intros j p. simpl. by rewrite lookup_empty. }
  pose proof (wo_waiters n Hok _ _ Hi) as Hph. unfold waiter_ok in Hph. simpl in Hph. split_and!.
  - intros s Hd Hsink. destruct ph as [| | |t|t|r]; simpl; unfold ensure_open.
    + destruct (closed (writer n)); simpl; [by eexists|]. rewrite Hsink. by exists (Ok s).
    + rewrite Hsink. by exists (Ok s).
    + rewrite Hsink. by exists (Ok s).
    + rewrite Hsink. by exists (Ok s).
    + destruct (closed (writer n)) eqn:Hc; [by eexists|]. destruct Hph as [->|[_ [Hn|Hn]]]; [|congruence|lia].
      simpl. unfold ensure_open. rewrite Hc. simpl. rewrite Hsink. by exists (Ok s).
    + exists r. split; [done|]. intros _ Hr. by destruct (Hr r).
  - intros Hc. destruct (tcp_sink (writer n) addr) eqn:Hsink; destruct ph; cbn; unfold ensure_open;
      do 3 (rewrite ?Hc, ?Hsink; cbn); by eexists.
  - by intros s ->.
Qed.
End wait.

(** ** Witness *)

(** A [Notify] that counts its calls; a ticket is the count it was made at. *)
#[export] Instance counting_notify : Notify N N := {
  notified n := n;
  notify_waiters n := (n + 1)%N;
  called n t := (t <? n)%N;
}.
#[export] Instance counting_notify_laws : NotifyLaws N N.
Proof.
  split; simpl; [intros n; apply N.ltb_lt; lia|]. intros n t Ht%N.ltb_lt. apply N.ltb_lt. lia.
Qed.

(** A call has looked twice and sleeps; the sink comes, and then its
    notification. *)
Module WaitExample.
Definition w0 : PacketWriter (Ip := N) (E := RawPacketEncoder) := writer_new None Raw default_write_mode.
Definition addr : N * N := (10, 80)%N.
Definition sink : TcpPacketSink (Ip := N) := QueuedSink addr 5 9.
Definition w1 := (insert_commit w0 addr sink 1).2.
Definition sleeps : Phase (Ip := N) (Ticket := N) := Sleeping 0%N.
Definition asleep : Waits (Ip := N) (E := RawPacketEncoder) (Nt := N) (Ticket := N) :=
  mkWaits w0 0%N 0 {[7%N := (addr, Sleeping 0%N)]}.
Definition late : Waits := mkWaits w1 1%N 0 {[7%N := (addr, Sleeping 0%N)]}.

Lemma asleep_steps : rtc nstep (waits_new w0 0%N) asleep.
Proof.
  eapply rtc_l; [by apply (n_begin _ 7%N addr 5%N)|].
  eapply rtc_l; [by eapply (n_next _ 7%N addr AtTop _ false)|].
  eapply rtc_l; [by eapply (n_next _ 7%N addr Looking _ false)|].
  eapply rtc_l; [by eapply (n_next _ 7%N addr Creating _ false)|].
  eapply rtc_l; [by eapply (n_next _ 7%N addr (LookingAgain 0%N) _ false)|].
  apply rtc_refl.
Qed.
Lemma late_steps : rtc nstep (waits_new w0 0%N) late.
Proof.
  etrans; [apply asleep_steps|].
  eapply rtc_l; [by eapply (n_commit asleep addr sink 1)|].
  eapply rtc_l; [by eapply n_notify|]. apply rtc_refl.
Qed.
End WaitExample.
Import WaitExample.

Lemma no_lost_wakeup_witness :
  (∀ s, 0 = 0 → tcp_sink w1 addr = Some s →
     ∃ r, wait_run 3 w1 1%N addr true sleeps = Returned r ∧
       (closed w1 = false → (∀ r0, sleeps ≠ Returned r0) → r = Ok s)) ∧
  (closed w1 = true → ∃ r, wait_run 4 w1 1%N addr true sleeps = Returned r) ∧
  (∀ s : TcpPacketSink (Ip := N), sleeps = Returned (Ok s) → sink_remote_addr s = addr).
Proof.
  apply (no_lost_wakeup w0 0%N late 7%N addr sleeps true).
  - apply writer_new_ok.
  - apply late_steps.
  - reflexivity.
Defined.

(** Evaluated: the call gets the sink although its deadline has passed. *)
Example wakes_with_sink : wait_run 3 w1 1%N addr true sleeps = Returned (Ok sink).
Proof. vm_compute. done. Qed.

(** Between a registration's lock section and its notification a call sleeps
    on, and its deadline may pass with the sink there. *)
Example times_out_with_sink : wait_next w1 0%N addr true sleeps = Some (Returned (Err timed_out_error)).
Proof. vm_compute. done. Qed.
