(* ===== verification/NetClose.v ===== *)
(** * Managed network endpoints: reports and deterministic close (base/src/net/rw.rs)

    [ManagedPacketIo] owns a root task and active connections; closing it
    awaits all of them and adds up their reports.  A close future may be
    dropped at any await, and a later call resumes: the steps between awaits
    are separate definitions, and [expected] is the report that a close from
    a state ends with.  A close that is dropped while the packet writer closes
    has emptied the writer's registry already, and a failed shutdown of one of
    its streams is in no report then.  How tasks and shutdowns end is given by
    the functions that stand for their join handles and their results.  Counts
    of tasks are natural numbers. *)
From stdpp Require Import pretty.
From S2P Require Import Prelude Errors.

(** ** Reports *)

(** [NetworkCloseReport] and [ManagedTaskReport] have the same fields. *)
Record Report := mkReport {
  completed : N;
  cancelled : N;
  failed : N;
  panicked : N;
  remaining : N;
}.

Definition report_default : Report := mkReport 0 0 0 0 0.

Definition is_complete (r : Report) : bool :=
  (failed r =? 0)%N && (panicked r =? 0)%N && (remaining r =? 0)%N.

(** [merge] and [merge_network]. *)
Definition merge (a b : Report) : Report :=
  mkReport (completed a + completed b) (cancelled a + cancelled b) (failed a + failed b)
    (panicked a + panicked b) (remaining a + remaining b).

Definition add_completed (r : Report) : Report := merge r (mkReport 1 0 0 0 0).
Definition add_cancelled (r : Report) : Report := merge r (mkReport 0 1 0 0 0).
Definition add_failed (r : Report) : Report := merge r (mkReport 0 0 1 0 0).
Definition add_panicked (r : Report) : Report := merge r (mkReport 0 0 0 1 0).
Definition add_aborted (r : Report) : Report := merge r (mkReport 0 1 0 0 1).

(** [JoinError], by what its methods answer. *)
Inductive JoinError := JPanic | JCancelled | JOther.

Definition record_join_error (r : Report) (e : JoinError) : Report :=
  match e with
  | JPanic => add_panicked r
  | JCancelled => add_aborted r
  | JOther => add_failed r
  end.

Definition record_protocol_join (r : Report) (joined : result Report JoinError) : Report :=
  match joined with
  | Ok task_report => merge r task_report
  | Err JPanic => add_panicked r
  | Err JCancelled => add_aborted r
  | Err JOther => add_failed r
  end.

Definition record_connection_join (r : Report) (joined : result (GlobalResult unit) JoinError) : Report :=
  match joined with
  | Ok (Ok _) => add_completed r
  | Ok (Err _) => add_failed r
  | Err JPanic => add_panicked r
  | Err JCancelled => add_aborted r
  | Err JOther => add_failed r
  end.

Definition report_text (r : Report) : string :=
  "managed network close incomplete: completed=" +:+ pretty (completed r) +:+ ", cancelled=" +:+
  pretty (cancelled r) +:+ ", failed=" +:+ pretty (failed r) +:+ ", panicked=" +:+
  pretty (panicked r) +:+ ", remaining=" +:+ pretty (remaining r).

(** The result and the error lines it logs. *)
Definition close_report_result (r : Report) (log_failure : bool) : logged (GlobalResult Report) :=
  if is_complete r then (Ok r, [])
  else (Err (SysErr (report_text r)), if log_failure then [report_text r] else []).

(** ** The accept loop *)

(** What a turn of the select of [run_tcp_listener] finds. *)
Inductive Accept :=
  | Cancelled                                  (* [cancel.cancelled()] *)
  | Joined (j : result (GlobalResult unit) JoinError)   (* a connection ended *)
  | Accepted (cancelled_now : bool)            (* [accept] gave a stream *)
  | AcceptError (cancelled_asleep : bool).     (* and the back-off sleep *)

Record Listener := mkListener { l_report : Report; l_connections : nat; l_backoff : N }.

Definition listener_new : Listener := mkListener report_default 0 0.

(** One turn: go on with a new state, or leave the loop. *)
Definition accept_turn (backoff : N → N) (l : Listener) (e : Accept) : Listener * bool :=
  match e with
  | Cancelled => (mkListener (add_cancelled (l_report l)) (l_connections l) (l_backoff l), false)
  | Joined j =>
      match l_connections l with
      | S n => (mkListener (record_connection_join (l_report l) j) n (l_backoff l), true)
      | O => (l, true)
      end
  | Accepted false => (mkListener (l_report l) (S (l_connections l)) 0, true)
  | Accepted true => (l, false)
  | AcceptError cancelled_asleep =>
      let l := mkListener (l_report l) (l_connections l) (backoff (l_backoff l)) in
      if cancelled_asleep
      then (mkListener (add_cancelled (l_report l)) (l_connections l) (l_backoff l), false)
      else (l, true)
  end.

(** The loop over the turns that happened; [false] when it was left. *)
Fixpoint accept_loop (backoff : N → N) (l : Listener) (es : list Accept) : Listener * bool :=
  match es with
  | [] => (l, true)
  | e :: es =>
      let '(l, go) := accept_turn backoff l e in
      if go then accept_loop backoff l es else (l, false)
  end.

(** After the loop: every connection left is awaited. *)
Fixpoint drain (l : Listener) (joins : list (result (GlobalResult unit) JoinError)) : Listener :=
  match joins, l_connections l with
  | j :: joins, S n => drain (mkListener (record_connection_join (l_report l) j) n (l_backoff l)) joins
  | _, _ => l
  end.

Definition run_tcp_listener (backoff : N → N) (es : list Accept)
    (joins : list (result (GlobalResult unit) JoinError)) : Report :=
  l_report (drain (accept_loop backoff listener_new es).1 joins).

(** ** The root task *)

(** The loop of [run_managed_packet_io] over its protocol tasks' results, in
    the order they end; with none, the root counts as completed. *)
Definition run_managed_packet_io (protocol_tasks : list (result Report JoinError)) : Report :=
  match protocol_tasks with
  | [] => add_completed report_default
  | _ => foldl record_protocol_join report_default protocol_tasks
  end.

(** ** Connections and their owner *)

Record Conn := mkConn {
  c_task : bool;              (* [task: Some(_)] *)
  c_cancel : bool;
  c_report : Report;
  c_completed : bool;
  c_failure_logged : bool;
  c_owner_registered : bool;
}.

Definition conn_new : Conn := mkConn true false report_default false false false.

Record Endpoint := mkEndpoint {
  conns : gmap N Conn;        (* every connection handed out *)
  active : gset N;            (* [active_connections] *)
  completed_report : Report;  (* [completed_connection_report] *)
  next_connection_id : N;
  e_cancel : bool;
  root_task : bool;
  e_report : Report;
  writer_closed : bool;
  e_completed : bool;
  e_failure_logged : bool;
  (* of the packet writer: its own [closed] token, and the streams of the
     direct sinks in its registry *)
  writer_closing : bool;
  registry : list N;
}.

(** [managed_rw_with_tcp_write_mode], once the root task is spawned. *)
Definition endpoint_new : Endpoint :=
  mkEndpoint ∅ ∅ report_default 1 false true report_default false false false false [].

Definition set_conns (cs : gmap N Conn) (act : gset N) (cr : Report) (e : Endpoint) : Endpoint :=
  mkEndpoint cs act cr (next_connection_id e) (e_cancel e) (root_task e) (e_report e)
    (writer_closed e) (e_completed e) (e_failure_logged e) (writer_closing e) (registry e).
Definition set_report (root wc : bool) (cr r : Report) (e : Endpoint) : Endpoint :=
  mkEndpoint (conns e) (active e) cr (next_connection_id e) (e_cancel e) root r wc
    (e_completed e) (e_failure_logged e) (writer_closing e) (registry e).
Definition cancel_endpoint (e : Endpoint) : Endpoint :=
  mkEndpoint (conns e) (active e) (completed_report e) (next_connection_id e) true (root_task e)
    (e_report e) (writer_closed e) (e_completed e) (e_failure_logged e) (writer_closing e) (registry e).
Definition set_writer (closing : bool) (reg : list N) (e : Endpoint) : Endpoint :=
  mkEndpoint (conns e) (active e) (completed_report e) (next_connection_id e) (e_cancel e) (root_task e)
    (e_report e) (writer_closed e) (e_completed e) (e_failure_logged e) closing reg.

Section endpoint.
(** How the task of a connection ends, how the root task ends, and whether
    the shutdown of a direct sink's stream succeeds. *)
Context (conn_join : N → result (GlobalResult unit) JoinError).
Context (root_join : result Report JoinError).
Context (shutdown : N → bool).
Implicit Types e : Endpoint.

(** [finalize_owner]: the swap makes it happen once. *)
Definition finalize_owner e (id : N) (c : Conn) : Endpoint :=
  if c_owner_registered c then
    set_conns (<[id := mkConn (c_task c) (c_cancel c) (c_report c) (c_completed c)
                         (c_failure_logged c) false]> (conns e))
      (active e ∖ {[id]}) (merge (completed_report e) (c_report c)) e
  else set_conns (<[id := c]> (conns e)) (active e) (completed_report e) e.

(** The report once the task was awaited. *)
Definition conn_final (id : N) (c : Conn) : Report :=
  if c_completed c then c_report c
  else if c_task c then record_connection_join (c_report c) (conn_join id) else c_report c.

(** [ManagedTcpConnection::close_and_wait]. *)
Definition conn_close e (id : N) : logged (GlobalResult Report) * Endpoint :=
  match conns e !! id with
  | None => ((Ok report_default, []), e)
  | Some c =>
      if c_completed c then
        (close_report_result (c_report c) false, finalize_owner e id c)
      else
        let report := conn_final id c in
        let log_failure := negb (c_failure_logged c) in
        let c := mkConn false true report true
                   (c_failure_logged c || negb (is_complete report)) (c_owner_registered c) in
        (close_report_result report log_failure, finalize_owner e id c)
  end.

(** The spawned connection gets its number. *)
Definition alloc_conn e : N * Endpoint :=
  let id := next_connection_id e in
  (id, mkEndpoint (<[id := conn_new]> (conns e)) (active e) (completed_report e)
         (wadd64 id 1) (e_cancel e) (root_task e) (e_report e) (writer_closed e)
         (e_completed e) (e_failure_logged e) (writer_closing e) (registry e)).

(** [owner_registered.store(true)], and the entry in the endpoint's table. *)
Definition register_conn e (id : N) : Endpoint :=
  match conns e !! id with
  | Some c =>
      set_conns (<[id := mkConn (c_task c) (c_cancel c) (c_report c) (c_completed c) (c_failure_logged c) true]> (conns e))
        ({[id]} ∪ active e) (completed_report e) e
  | None => e
  end.

(** The end of [connect_tcp], under the close lock: the connection that was
    spawned is given to the endpoint, or closed when it is too late. *)
Definition connect_register e (id : N) : option N * Endpoint :=
  if e_cancel e || e_completed e then (None, (conn_close e id).2) else (Some id, register_conn e id).

(** ** [connect_tcp] *)

Section connect.
Context {Addr : Type} `{Countable Addr}.

Record ConnectOptions := mkOptions {
  remote_addr : Addr;
  remote_is_ipv4 : bool;
  local_is_ipv4 : option bool;      (* [local_addr], by its family *)
  timeout : N;
}.

(** [reserve_tcp_connect]: an address with a writer, or one that is being
    connected, is refused; the reservation lasts as long as its guard. *)
Definition reserve_tcp_connect (has_tcp_writer : Addr → bool) (connecting : gset Addr) (addr : Addr) :
    GlobalResult unit * gset Addr :=
  if has_tcp_writer addr then (Err (SysErr "managed tcp connection already exists"), connecting)
  else if decide (addr ∈ connecting)
       then (Err (SysErr "managed tcp connection already exists"), connecting)
       else (Ok (), {[addr]} ∪ connecting).

Definition managed_tcp_connect_cancelled : GlobalError := SysErr "managed tcp connect cancelled".

(** After the await of [ready_rx], which tells whether the task registered
    its writer before the endpoint was cancelled. *)
Definition connect_finish e (id : N) (ready : bool) : GlobalResult N * Endpoint :=
  if ready then
    match connect_register e id with
    | (Some id, e) => (Ok id, e)
    | (None, e) => (Err managed_tcp_connect_cancelled, e)
    end
  else (Err managed_tcp_connect_cancelled, (conn_close e id).2).

(** The connection once its socket is connected and its task spawned;
    [env_ready] is what happens while [ready_rx] and the close lock are
    awaited. *)
Definition connect_spawned e (env_ready : Endpoint → Endpoint) (ready : bool) : GlobalResult N * Endpoint :=
  let '(id, e) := alloc_conn e in
  connect_finish (env_ready e) id ready.

Definition families_differ (opts : ConnectOptions) : bool :=
  match local_is_ipv4 opts with
  | Some b => negb (Bool.eqb b (remote_is_ipv4 opts))
  | None => false
  end.

(** [connect_tcp]: [finished] are the connections reaped on the way,
    [dial] the socket's creation, binding and connection (or the timeout,
    or the cancellation), and [env] what happens while it is awaited. *)
Definition connect_tcp e (opts : ConnectOptions) (has_tcp_writer : Addr → bool)
    (connecting : gset Addr) (finished : list N) (dial : GlobalResult unit)
    (env env_ready : Endpoint → Endpoint) (ready : bool) : GlobalResult N * Endpoint :=
  if (timeout opts =? 0)%N then
    (Err (SysErr "managed tcp connect timeout must be greater than zero"), e)
  else if families_differ opts then
    (Err (SysErr "managed tcp local and remote address families differ"), e)
  else if e_cancel e then (Err managed_tcp_connect_cancelled, e)
  else
    match reserve_tcp_connect has_tcp_writer connecting (remote_addr opts) with
    | (Err err, _) => (Err err, e)
    | (Ok _, _) =>
        let e := env (foldl (λ e id, (conn_close e id).2) e finished) in
        match dial with
        | Err err => (Err err, e)
        | Ok _ => connect_spawned e env_ready ready
        end
    end.
End connect.

(** ** [ManagedPacketIo::close_and_wait], between its awaits *)

(** [PacketWriter::close] up to its first await: no sink is registered any
    more, and the registry is empty. *)
Definition writer_begin e : Endpoint := set_writer true [] e.
(** Its result: the first error of the streams' shutdowns, if any. *)
Definition writer_result e : bool := forallb shutdown (registry e).

Definition close_writer e : Endpoint :=
  let e := cancel_endpoint e in
  if writer_closed e then e
  else
    let close_result := writer_result e in
    let e := writer_begin e in
    set_report (root_task e) true (completed_report e)
      (if close_result then e_report e else add_failed (e_report e)) e.

(** [ManagedTcpConnection::close_and_wait] up to the await of the task. *)
Definition begin_conn_close e (id : N) : Endpoint :=
  match conns e !! id with
  | Some c =>
      if c_completed c then e
      else set_conns (<[id := mkConn (c_task c) true (c_report c) (c_completed c) (c_failure_logged c)
                                (c_owner_registered c)]> (conns e)) (active e) (completed_report e) e
  | None => e
  end.

(** One pass over the active connections. *)
Definition close_pass e (ids : list N) : Endpoint := foldl (λ e id, (conn_close e id).2) e ids.

(** [loop { .. if active_connections.is_empty() { break; } .. }]. *)
Fixpoint close_connections (fuel : nat) e : option Endpoint :=
  if decide (active e = ∅) then Some e
  else match fuel with
       | O => None
       | S fuel => close_connections fuel (close_pass e (elements (active e)))
       end.

Definition merge_completed e : Endpoint :=
  set_report (root_task e) (writer_closed e) report_default
    (merge (e_report e) (completed_report e)) e.

Definition join_root e : Endpoint :=
  if root_task e then
    set_report false (writer_closed e) (completed_report e)
      (match root_join with
       | Ok task_report => merge (e_report e) task_report
       | Err je => record_join_error (e_report e) je
       end) e
  else e.

Definition finish_close e : logged (GlobalResult Report) * Endpoint :=
  let log_failure := negb (e_failure_logged e) in
  (close_report_result (e_report e) log_failure,
   mkEndpoint (conns e) (active e) (completed_report e) (next_connection_id e) (e_cancel e)
     (root_task e) (e_report e) (writer_closed e) true
     (e_failure_logged e || negb (is_complete (e_report e))) (writer_closing e) (registry e)).

(** The whole call; one pass is enough, see [close_connections_spec]. *)
Definition close_and_wait e : option (logged (GlobalResult Report) * Endpoint) :=
  if e_completed e then Some (close_report_result (e_report e) false, e)
  else
    e ← close_connections 1 (close_writer e);
    Some (finish_close (join_root (merge_completed e))).

(** A close that is dropped at one of its awaits: inside the writer's close,
    inside the pass (after some connections, at the lock of the next or at its
    task), or while the root task is awaited.  The flag tells of the first. *)
Inductive interrupted e : bool → Endpoint → Prop :=
  | int_writer : writer_closed e = false → interrupted e true (writer_begin (cancel_endpoint e))
  | int_pass ids : (∀ id, id ∈ ids → id ∈ active e) → interrupted e false (close_pass (close_writer e) ids)
  | int_conn ids id : (∀ id, id ∈ ids → id ∈ active e) →
      interrupted e false (begin_conn_close (close_pass (close_writer e) ids) id)
  | int_root e' : close_connections 1 (close_writer e) = Some e' → interrupted e false (merge_completed e').
End endpoint.

(** ** Reports add up *)

Lemma report_eq a b :
  completed a = completed b → cancelled a = cancelled b → failed a = failed b →
  panicked a = panicked b → remaining a = remaining b → a = b.
Proof. destruct a, b; simpl; congruence. Qed.

#[export] Instance merge_assoc : Assoc (=) merge.
Proof. intros a b c. apply report_eq; simpl; lia. Qed.
#[export] Instance merge_comm : Comm (=) merge.
Proof. intros a b. apply report_eq; simpl; lia. Qed.
Lemma merge_0_l r : merge report_default r = r.
Proof. by destruct r. Qed.
Lemma merge_0_r r : merge r report_default = r.
Proof. by rewrite (comm merge), merge_0_l. Qed.

Definition sum_reports (rs : list Report) : Report := foldr merge report_default rs.

#[export] Instance sum_reports_perm : Proper ((≡ₚ) ==> (=)) sum_reports.
Proof.
  induction 1 as [|x l l' _ IH|x y l|l1 l2 l3 _ IH1 _ IH2]; simpl; [done|by rewrite IH| |congruence].
  by rewrite !(assoc merge), (comm merge y x).
Qed.

(** ** Closing an endpoint *)

Section close.
Context (conn_join : N → result (GlobalResult unit) JoinError).
Context (root_join : result Report JoinError) (shutdown : N → bool).
Implicit Types e : Endpoint.

Record endpoint_ok e : Prop := {
  eo_active : ∀ id, id ∈ active e ↔ ∃ c, conns e !! id = Some c ∧ c_owner_registered c = true;
  eo_ids : ∀ id c, conns e !! id = Some c → (id < next_connection_id e)%N;
}.

Definition final_of e (id : N) : Report :=
  match conns e !! id with Some c => conn_final conn_join id c | None => report_default end.

Definition root_part : Report :=
  match root_join with Ok r => r | Err je => record_join_error report_default je end.

(** The report the close of the endpoint will end with. *)
Definition expected e : Report :=
  merge (merge (merge (e_report e)
    (if writer_closed e || writer_result shutdown e then report_default else add_failed report_default))
    (merge (completed_report e) (sum_reports (final_of e <$> elements (active e)))))
    (if root_task e then root_part else report_default).

Lemma sum_final_ext e e' (ids : list N) :
  (∀ id, id ∈ ids → conns e' !! id = conns e !! id) →
  sum_reports (final_of e' <$> ids) = sum_reports (final_of e <$> ids).
Proof.
  intros Hc. f_equal. apply list_fmap_ext. intros i id Hid. unfold final_of.
  by rewrite (Hc id) by by eapply list_elem_of_lookup_2.
Qed.

Lemma sum_final_remove e id :
  id ∈ active e →
  sum_reports (final_of e <$> elements (active e)) =
  merge (final_of e id) (sum_reports (final_of e <$> elements (active e ∖ {[id]}))).
Proof.
  intros Hin. rewrite (union_difference_L {[id]} (active e)) at 1 by set_solver.
  rewrite elements_union_singleton by set_solver. by rewrite fmap_cons.
Qed.

Lemma conn_close_spec e id :
  endpoint_ok e → is_Some (conns e !! id) →
  let e' := (conn_close conn_join e id).2 in
  endpoint_ok e' ∧ expected e' = expected e ∧ active e' = active e ∖ {[id]} ∧
  writer_closed e' = writer_closed e ∧ root_task e' = root_task e ∧ e_report e' = e_report e ∧
  e_completed e' = e_completed e ∧ e_failure_logged e' = e_failure_logged e ∧
  (∀ j, is_Some (conns e !! j) → is_Some (conns e' !! j)) ∧ e_cancel e' = e_cancel e.
Proof.
  intros [Ha Hi] [c Hc]. cbv zeta.
  assert (∃ c', (conn_close conn_join e id).2 = finalize_owner e id c' ∧
    c_owner_registered c' = c_owner_registered c ∧ c_report c' = conn_final conn_join id c ∧
    conn_final conn_join id c' = conn_final conn_join id c) as (c' & -> & Hreg & Hrep & Hfin).
  { unfold conn_close. rewrite Hc. destruct (c_completed c) eqn:Hcc; simpl.
    - exists c. unfold conn_final. by rewrite Hcc.
    - eexists. split; [done|]. simpl. done. }
  assert (Hact : id ∈ active e ↔ c_owner_registered c' = true).
  { rewrite Ha, Hreg. split; [intros (c0 & H1 & H2); congruence|by exists c]. }
  assert (Hno : ∀ j, is_Some (conns e !! j) → ∀ x, is_Some (<[id := x]> (conns e) !! j)).
  { intros j Hj x. rewrite lookup_insert_is_Some'. by right. }
  unfold finalize_owner. destruct (c_owner_registered c') eqn:Hr.
  - assert (id ∈ active e) as Hin by by apply Hact.
    split_and!; try done; [| |intros j Hj; by apply Hno].
    + split; simpl.
      * intros j. rewrite elem_of_difference, elem_of_singleton, Ha. destruct (decide (j = id)) as [->|Hne].
        -- rewrite lookup_insert_eq. naive_solver.
        -- rewrite lookup_insert_ne by done. naive_solver.
      * intros j cj. rewrite lookup_insert_Some. intros [[<- _]|[_ H]]; by eapply Hi.
    + unfold expected. simpl. f_equal. f_equal. rewrite (sum_final_remove e id Hin).
      rewrite (sum_final_ext e).
      * assert (final_of e id = c_report c') as -> by (unfold final_of; by rewrite Hc, Hrep).
        by rewrite (assoc merge).
      * simpl. intros j Hj. rewrite lookup_insert_ne; [done|]. set_solver.
  - assert (id ∉ active e) as Hin by (rewrite Hact; done).
    split_and!; try done; [| | |intros j Hj; by apply Hno].
    + split; simpl.
      * intros j. rewrite Ha. destruct (decide (j = id)) as [->|Hne].
        -- rewrite lookup_insert_eq, Hc. naive_solver congruence.
        -- by rewrite lookup_insert_ne.
      * intros j cj. rewrite lookup_insert_Some. intros [[<- _]|[_ H]]; by eapply Hi.
    + unfold expected. simpl. do 3 f_equal. apply sum_final_ext. simpl.
      intros j Hj. rewrite lookup_insert_ne; [done|]. set_solver.
    + set_solver.
Qed.

Lemma close_pass_spec e ids :
  endpoint_ok e → (∀ id, id ∈ ids → is_Some (conns e !! id)) →
  let e' := close_pass conn_join e ids in
  endpoint_ok e' ∧ expected e' = expected e ∧ active e' = active e ∖ list_to_set ids ∧
  writer_closed e' = writer_closed e ∧ root_task e' = root_task e ∧ e_completed e' = e_completed e ∧
  e_failure_logged e' = e_failure_logged e ∧ e_cancel e' = e_cancel e.
Proof.
  cbv zeta. unfold close_pass. revert e. induction ids as [|id ids IH]; intros e Hok Hc; simpl.
  { split_and!; try done. set_solver. }
  destruct (conn_close_spec e id Hok) as (H1 & H2 & H3 & H4 & H5 & _ & H7 & H8 & H9 & H10); [apply Hc; by left|].
  destruct (IH (conn_close conn_join e id).2 H1) as (G1 & G2 & G3 & G4 & G5 & G6 & G7 & G8).
  { intros j Hj. apply H9, Hc. by right. }
  split_and!; try done; try congruence. rewrite G3, H3. set_solver.
Qed.

Lemma close_writer_spec e :
  let e' := close_writer shutdown e in
  (endpoint_ok e → endpoint_ok e') ∧ expected e' = expected e ∧ active e' = active e ∧ conns e' = conns e ∧
  writer_closed e' = true ∧ e_completed e' = e_completed e.
Proof.
  unfold close_writer. simpl. destruct (writer_closed e) eqn:Hw; simpl.
  - split_and!; try done. intros [Ha Hi]. by split.
  - split_and!; try done; [intros [Ha Hi]; by split|]. unfold expected. simpl. rewrite Hw.
    change (writer_result shutdown (cancel_endpoint e)) with (writer_result shutdown e).
    do 2 f_equal. destruct (writer_result shutdown e); simpl; by rewrite ?merge_0_r.
Qed.

Lemma close_connections_spec e :
  endpoint_ok e → ∃ e', close_connections conn_join 1 e = Some e' ∧ endpoint_ok e' ∧
    expected e' = expected e ∧ active e' = ∅ ∧ writer_closed e' = writer_closed e ∧
    root_task e' = root_task e ∧ e_completed e' = e_completed e.
Proof.
  intros Hok. cbn [close_connections]. case_decide as Hact; [by exists e|].
  destruct (close_pass_spec e (elements (active e)) Hok) as (G1 & G2 & G3 & G4 & G5 & G6 & _).
  { intros id Hid. apply elem_of_elements, (eo_active e Hok) in Hid as (c & Hc & _). by exists c. }
  exists (close_pass conn_join e (elements (active e))). rewrite decide_True; [|rewrite G3; set_solver].
  split_and!; try done. rewrite G3. set_solver.
Qed.

(** The close, as far as its result goes. *)
Lemma close_spec e :
  endpoint_ok e → e_completed e = false →
  ∃ res e', close_and_wait conn_join root_join shutdown e = Some (res, e') ∧
    e_report e' = expected e ∧ e_completed e' = true ∧ active e' = ∅ ∧ root_task e' = false ∧
    writer_closed e' = true ∧ res.1 = (close_report_result (expected e) false).1.
Proof.
  intros Hok Hc. unfold close_and_wait. rewrite Hc.
  destruct (close_writer_spec e) as (W1 & W2 & W3 & W4 & W5 & W6).
  destruct (close_connections_spec _ (W1 Hok)) as (e1 & -> & H1 & H2 & H3 & H4 & H5 & H6).
  cbn [mbind option_bind]. eexists _, _. split; [done|].
  assert (Hrep : e_report (join_root root_join (merge_completed e1)) = expected e).
  { rewrite <- W2, <- H2. unfold expected. rewrite H4, W5, H3, elements_empty. simpl.
    unfold join_root, merge_completed, root_part. simpl.
    destruct (root_task e1); simpl; rewrite ?merge_0_r; [|done].
    destruct root_join as [r|[]]; simpl; [done|..]; apply report_eq; simpl; lia. }
  assert (Hfr : root_task (join_root root_join (merge_completed e1)) = false ∧
    active (join_root root_join (merge_completed e1)) = ∅ ∧
    writer_closed (join_root root_join (merge_completed e1)) = true).
  { unfold join_root. destruct (root_task (merge_completed e1)) eqn:Hr; simpl in *; split_and!; congruence. }
  unfold finish_close. cbn [fst e_report e_completed active root_task writer_closed]. rewrite Hrep.
  destruct Hfr as (F1 & F2 & F3). split_and!; try done.
  unfold close_report_result. by destruct (is_complete (expected e)).
Qed.

Lemma begin_conn_close_expected e id :
  endpoint_ok e →
  let e' := begin_conn_close e id in
  endpoint_ok e' ∧ expected e' = expected e ∧ e_completed e' = e_completed e.
Proof.
  intros [Ha Hi]. cbv zeta. unfold begin_conn_close. destruct (conns e !! id) as [c|] eqn:Hc; [|by split_and!].
  destruct (c_completed c) eqn:Hcc; [by split_and!|]. split_and!; [split; simpl|..|done].
  - intros j. rewrite Ha. destruct (decide (j = id)) as [->|Hne].
    + rewrite lookup_insert_eq, Hc. naive_solver.
    + by rewrite lookup_insert_ne.
  - intros j c'. rewrite lookup_insert_Some. intros [[<- _]|[_ H]]; by eapply Hi.
  - unfold expected. simpl. do 4 f_equal. apply list_fmap_ext. intros _ j _. unfold final_of. simpl.
    destruct (decide (j = id)) as [->|Hne]; [|by rewrite lookup_insert_ne].
    rewrite lookup_insert_eq, Hc. unfold conn_final. simpl. by rewrite Hcc.
Qed.

(** What a close that was dropped has lost: a failure of the writer's close. *)
Definition lost (in_writer : bool) e : bool := in_writer && negb (writer_result shutdown e).

Lemma interrupted_expected b e e' :
  endpoint_ok e → e_completed e = false → interrupted conn_join shutdown e b e' →
  endpoint_ok e' ∧ e_completed e' = false ∧
  expected e = (if lost b e then add_failed (expected e') else expected e').
Proof.
  intros Hok Hc. destruct (close_writer_spec e) as (W1 & W2 & W3 & W4 & W5 & W6).
  assert (Hpass : ∀ ids, (∀ id, id ∈ ids → id ∈ active e) →
    let e' := close_pass conn_join (close_writer shutdown e) ids in
    endpoint_ok e' ∧ e_completed e' = false ∧ expected e = expected e').
  { intros ids Hids. destruct (close_pass_spec (close_writer shutdown e) ids (W1 Hok)) as (G1 & G2 & _ & _ & _ & G6 & _).
    { intros id Hid. rewrite W4. apply Hids, (eo_active e Hok) in Hid as (c & H & _). by exists c. }
    simpl in *. split_and!; [done|congruence|congruence]. }
  destruct 1 as [Hw|ids Hids|ids id Hids|e1 He1].
  - destruct Hok as [Ha Hi]. split; [by split|]. split; [done|]. unfold expected, lost. simpl.
    rewrite Hw. change (final_of (writer_begin (cancel_endpoint e))) with (final_of e).
    change (writer_result shutdown (writer_begin (cancel_endpoint e))) with true.
    destruct (writer_result shutdown e); simpl; [done|].
    set (x := sum_reports _). set (z := if root_task e then _ else _). apply report_eq; simpl; lia.
  - destruct (Hpass ids Hids) as (G1 & G2 & G3). by split_and!.
  - destruct (Hpass ids Hids) as (G1 & G2 & G3). destruct (begin_conn_close_expected _ id G1) as (B1 & B2 & B3).
    split_and!; [done|congruence|simpl; congruence].
  - destruct (close_connections_spec _ (W1 Hok)) as (e2 & He2 & H1 & H2 & H3 & H4 & H5 & H6).
    assert (e2 = e1) as -> by congruence. split_and!; [by destruct H1|simpl; congruence|].
    simpl. rewrite <- W2, <- H2. unfold expected.
    change (final_of (merge_completed e1)) with (final_of e1). simpl. rewrite merge_0_l.
    change (writer_result shutdown (merge_completed e1)) with (writer_result shutdown e1).
    set (x := sum_reports _). set (y := if writer_closed e1 || _ then _ else _).
    set (z := if root_task e1 then _ else _). apply report_eq; simpl; lia.
Qed.

Lemma alloc_conn_ok e :
  endpoint_ok e → (next_connection_id e < u64_max)%N →
  let '(id, e1) := alloc_conn e in
  endpoint_ok e1 ∧ conns e !! id = None ∧ id ∉ active e ∧ (id < next_connection_id e1)%N ∧
  conns e1 = <[id := conn_new]> (conns e) ∧ active e1 = active e.
Proof.
  intros [Ha Hi] Hn. unfold alloc_conn. set (id := next_connection_id e).
  assert (Hfresh : conns e !! id = None).
  { destruct (conns e !! id) eqn:Hx; [|done]. exfalso. apply (N.lt_irrefl id). by eapply Hi. }
  assert (Hw : wadd64 id 1 = (id + 1)%N).
  { apply N.mod_small. unfold u64_max, u64_mod, id in *. lia. }
  split_and!; try done; simpl; [|rewrite Ha, Hfresh; naive_solver|rewrite Hw; lia].
  split; simpl.
  - intros j. rewrite Ha. destruct (decide (j = id)) as [->|Hne].
    + rewrite lookup_insert_eq, Hfresh. naive_solver.
    + by rewrite lookup_insert_ne.
  - intros j c. rewrite Hw, lookup_insert_Some. intros [[<- _]|[_ H]]; [lia|].
    apply Hi in H. unfold id. lia.
Qed.

(** What becomes of the connection of a [connect_tcp] whose task is spawned. *)
Lemma register_conn_ok e id c :
  endpoint_ok e → conns e !! id = Some c → endpoint_ok (register_conn e id).
Proof.
  intros [Ha Hi] Hc. unfold register_conn. rewrite Hc. split; simpl.
  - intros j. rewrite elem_of_union, elem_of_singleton, Ha. destruct (decide (j = id)) as [->|Hne].
    + rewrite lookup_insert_eq. naive_solver.
    + rewrite lookup_insert_ne by done. naive_solver.
  - intros j c'. rewrite lookup_insert_Some. intros [[<- _]|[_ H]]; [by eapply Hi|by apply Hi in H].
Qed.

Lemma connect_finish_ok e id ready :
  endpoint_ok e → conns e !! id = Some conn_new → endpoint_ok (connect_finish conn_join e id ready).2.
Proof.
  intros Hok Hc. assert (endpoint_ok (conn_close conn_join e id).2) as Hcl.
  { apply conn_close_spec; [done|by eexists]. }
  unfold connect_finish, connect_register. destruct ready; [|done].
  destruct (e_cancel e || e_completed e); [done|]. by eapply register_conn_ok.
Qed.

(** A connection that nobody was given, once it is closed. *)
Definition conn_closed (id : N) : Conn :=
  mkConn false true (conn_final conn_join id conn_new) true
    (negb (is_complete (conn_final conn_join id conn_new))) false.

Lemma conn_close_new e id : conns e !! id = Some conn_new →
  (conn_close conn_join e id).2 =
  set_conns (<[id := conn_closed id]> (conns e)) (active e) (completed_report e) e.
Proof. intros Hc. unfold conn_close. rewrite Hc. done. Qed.

(** What the owners of an endpoint and of its connections do, what a connect
    does between its awaits, and what the tasks do to the packet writer's
    registry as long as it is open. *)
Inductive ep_step : Endpoint → Endpoint → Prop :=
  | eps_alloc e : (next_connection_id e < u64_max)%N → ep_step e (alloc_conn e).2
  | eps_finish e id ready :
      conns e !! id = Some conn_new → ep_step e (connect_finish conn_join e id ready).2
  | eps_conn_close e id :
      is_Some (conns e !! id) → ep_step e (conn_close conn_join e id).2
  | eps_registry e reg : writer_closing e = false → ep_step e (set_writer false reg e)
  | eps_interrupted b e e' :
      e_completed e = false → interrupted conn_join shutdown e b e' → ep_step e e'
  | eps_close e res e' :
      close_and_wait conn_join root_join shutdown e = Some (res, e') → ep_step e e'.

Lemma endpoint_new_ok : endpoint_ok endpoint_new.
Proof. split; simpl; [|intros *; by rewrite lookup_empty]. intros id. rewrite lookup_empty. set_solver. Qed.

Lemma close_ok e res e' :
  endpoint_ok e → close_and_wait conn_join root_join shutdown e = Some (res, e') → endpoint_ok e'.
Proof.
  intros Hok. unfold close_and_wait. destruct (e_completed e); [by intros [= _ <-]|].
  destruct (close_writer_spec e) as (W1 & _).
  destruct (close_connections_spec _ (W1 Hok)) as (e1 & -> & [Ha Hi] & _). intros [= _ <-].
  unfold join_root. destruct (root_task (merge_completed e1)); by split.
Qed.

Lemma reachable_ok e : rtc ep_step endpoint_new e → endpoint_ok e.
Proof.
  intros Hr. assert (Hgo : ∀ a b, rtc ep_step a b → endpoint_ok a → endpoint_ok b).
  { induction 1 as [|a b c Hs _ IH]; [done|]. intros Ha. apply IH.
    destruct Hs as [a Hn|a id ready Hc|a id Hid|a reg Hw|f a b Hc Hi|a res b Hcl].
    - pose proof (alloc_conn_ok a Ha Hn) as H. by destruct (alloc_conn a), H.
    - by apply connect_finish_ok.
    - by apply conn_close_spec.
    - destruct Ha. by split.
    - by apply (interrupted_expected f a b Ha Hc Hi).
    - by eapply close_ok. }
  by apply (Hgo endpoint_new); [|apply endpoint_new_ok].
Qed.

(** Closing finished connections on the way is a run of steps. *)
Lemma reap_steps ids e :
  endpoint_ok e → Forall (λ id, is_Some (conns e !! id)) ids →
  rtc ep_step e (foldl (λ e id, (conn_close conn_join e id).2) e ids).
Proof.
  revert e. induction ids as [|id ids IH]; intros e Hok Hids; [done|].
  apply Forall_cons in Hids as [Hid Hids]. simpl. eapply rtc_l; [by apply eps_conn_close|].
  destruct (conn_close_spec e id Hok Hid) as (Hok' & _ & _ & _ & _ & _ & _ & _ & Hkeep & _).
  apply IH; [done|]. eapply Forall_impl; [done|]. exact Hkeep.
Qed.

(** C32: What a connect does, case by case, whatever happens meanwhile at its
    awaits.  Refused, by its options, by a cancelled endpoint, by a writer of
    that address or by another connect to it: it changes nothing.  If the
    dial fails, it has only reaped what was finished.  Else a task was
    spawned, under a new number: if it got ready and the endpoint was
    neither cancelled nor closed meanwhile, the endpoint owns the connection
    and the caller has it; if not, the connection's token was cancelled and
    its task awaited, the endpoint does not own it, and the connect touched
    no other connection.  Either way the endpoint goes on as its close
    expects. *)
Theorem connect_tcp_spec `{Countable Addr} e opts (has_writer : Addr → bool) connecting finished dial
    env env_ready ready :
  rtc ep_step endpoint_new e → Forall (λ id, id ∈ active e) finished →
  (∀ a, rtc ep_step a (env a)) → (∀ a, rtc ep_step a (env_ready a)) →
  let e1 := env (foldl (λ e id, (conn_close conn_join e id).2) e finished) in
  let '(id, e2) := alloc_conn e1 in
  let e3 := env_ready e2 in
  (next_connection_id e1 < u64_max)%N → conns e3 !! id = conns e2 !! id →
  let '(r, e') := connect_tcp conn_join e opts has_writer connecting finished dial env env_ready ready in
  rtc ep_step e e' ∧ conns e1 !! id = None ∧
  if (timeout opts =? 0)%N || families_differ opts || e_cancel e || has_writer (remote_addr opts) ||
     bool_decide (remote_addr opts ∈ connecting)
  then (∃ err, r = Err err) ∧ e' = e
  else match dial with
  | Err err => r = Err err ∧ e' = e1
  | Ok _ =>
      if ready && negb (e_cancel e3 || e_completed e3) then
        r = Ok id ∧ conns e' !! id = Some (mkConn true false report_default false false true) ∧
        active e' = {[id]} ∪ active e3 ∧ e_cancel e' = false ∧ e_completed e' = false ∧
        ∀ j, j ≠ id → conns e' !! j = conns e3 !! j
      else
        r = Err managed_tcp_connect_cancelled ∧ id ∉ active e' ∧ active e' = active e3 ∧
        (∃ c, conns e' !! id = Some c ∧ c_completed c = true ∧ c_task c = false ∧ c_cancel c = true ∧
          c_report c = record_connection_join report_default (conn_join id)) ∧
        ∀ j, j ≠ id → conns e' !! j = conns e3 !! j
  end.
Proof.
  intros Hr Hfin Henv Henvr e1. destruct (alloc_conn e1) as [id e2] eqn:Hal. intros e3 Hn Hid.
  pose proof (reachable_ok e Hr) as Hok.
  assert (Hreap : rtc ep_step e (foldl (λ e id, (conn_close conn_join e id).2) e finished)).
  { apply reap_steps; [done|]. eapply Forall_impl; [done|]. intros j Hj.
    apply (eo_active e Hok) in Hj as (c & Hc & _). by exists c. }
  assert (H1 : rtc ep_step e e1) by (etrans; [exact Hreap|apply Henv]).
  assert (H3 : rtc ep_step e e3).
  { etrans; [eapply rtc_r; [exact H1|by apply eps_alloc]|]. rewrite Hal. apply Henvr. }
  pose proof (alloc_conn_ok e1 (reachable_ok e1 ltac:(by etrans)) Hn) as Hsp. rewrite Hal in Hsp.
  destruct Hsp as (_ & Hfresh & _ & _ & Hconns & _).
  assert (Hnew : conns e3 !! id = Some conn_new) by (by rewrite Hid, Hconns, lookup_insert_eq).
  assert (Hni : id ∉ active e3).
  { intros (c & Hc & Ho)%(eo_active e3 (reachable_ok e3 ltac:(by etrans))). rewrite Hnew in Hc. by injection Hc as <-. }
  unfold connect_tcp. destruct (timeout opts =? 0)%N; simpl; [by split_and!; eauto|].
  destruct (families_differ opts); simpl; [by split_and!; eauto|].
  destruct (e_cancel e); simpl; [by split_and!; eauto|].
  unfold reserve_tcp_connect. destruct (has_writer (remote_addr opts)); simpl; [by split_and!; eauto|].
  case_decide as Hin; [rewrite bool_decide_eq_true_2 by done; by split_and!; eauto|].
  rewrite bool_decide_eq_false_2 by done. simpl. destruct dial as [[]|err]; [|by split_and!].
  pose proof (eps_finish e3 id ready Hnew) as Hst.
  unfold connect_spawned. fold e1. rewrite Hal. fold e3. unfold connect_finish, connect_register in *.
  pose proof (conn_close_new e3 id Hnew) as Hclose.
  destruct ready; [destruct (e_cancel e3 || e_completed e3) eqn:Hce|]; simpl in *;
    (split; [by eapply rtc_r|]); (split; [done|]).
  - rewrite Hclose. simpl. split_and!; try done; [eexists; by rewrite lookup_insert_eq|].
    intros j Hj. by rewrite lookup_insert_ne.
  - apply orb_false_iff in Hce as [Hce Hco]. unfold register_conn. rewrite Hnew. simpl.
    split_and!; try done; [by rewrite lookup_insert_eq|]. intros j Hj. by rewrite lookup_insert_ne.
  - rewrite Hclose. simpl. split_and!; try done; [eexists; by rewrite lookup_insert_eq|].
    intros j Hj. by rewrite lookup_insert_ne.
Qed.

(** C5: Closing an endpoint, after any history of connections and dropped
    closes, comes back with every connection and the root task awaited, and
    its report is the sum of their results, each counted once; it is [Ok]
    exactly when nothing failed, panicked or remained.  A second close gives
    the same result, logs nothing and changes nothing, and a connection can
    no longer be registered. *)
Theorem close_and_wait_spec e :
  rtc ep_step endpoint_new e → e_completed e = false →
  ∃ res e', close_and_wait conn_join root_join shutdown e = Some (res, e') ∧
    e_report e' = expected e ∧ active e' = ∅ ∧ root_task e' = false ∧
    (is_ok res.1 = is_complete (expected e)) ∧
    close_and_wait conn_join root_join shutdown e' = Some ((res.1, []), e') ∧
    (∀ id, (connect_register conn_join e' id).1 = None).
Proof.
  intros Hr Hc. pose proof (reachable_ok e Hr) as Hok.
  destruct (close_spec e Hok Hc) as (res & e' & Heq & Hrep & Hcomp & Hact & Hroot & Hw & Hres).
  exists res, e'. split_and!; try done.
  - rewrite Hres. unfold close_report_result. by destruct (is_complete (expected e)).
  - unfold close_and_wait. rewrite Hcomp, Hrep, Hres. unfold close_report_result.
    by destruct (is_complete (expected e)).
  - intros id. unfold connect_register. by rewrite Hcomp, orb_true_r.
Qed.

(** C31: A close that is dropped at one of its awaits and called again ends with
    the same report, and the same result, as one that ran through; but when
    it was dropped inside the packet writer's close, and the shutdown of a
    stream in the writer's registry failed, the report of the resumed close
    has that one failure less. *)
Theorem close_resumes e b e1 :
  rtc ep_step endpoint_new e → e_completed e = false → interrupted conn_join shutdown e b e1 →
  ∃ res e' res1 e1',
    close_and_wait conn_join root_join shutdown e = Some (res, e') ∧
    close_and_wait conn_join root_join shutdown e1 = Some (res1, e1') ∧
    e_report e' = (if lost b e then add_failed (e_report e1') else e_report e1') ∧
    res.1 = (close_report_result (e_report e') false).1 ∧
    res1.1 = (close_report_result (e_report e1') false).1.
Proof.
  intros Hr Hc Hi. pose proof (reachable_ok e Hr) as Hok.
  destruct (interrupted_expected b e e1 Hok Hc Hi) as (Hok1 & Hc1 & He1).
  destruct (close_spec e Hok Hc) as (res & e' & Heq & Hrep & _ & _ & _ & _ & Hres).
  destruct (close_spec e1 Hok1 Hc1) as (res1 & e1' & Heq1 & Hrep1 & _ & _ & _ & _ & Hres1).
  exists res, e', res1, e1'. rewrite Hrep, Hrep1. by split_and!.
Qed.
End close.

(** ** The accept loop *)

(** Connections a run of the loop spawned, and whether it left on a
    cancellation. *)
Fixpoint spawned (backoff : N → N) (l : Listener) (es : list Accept) : nat :=
  match es with
  | [] => 0
  | e :: es =>
      let n := match e with Accepted false => 1 | _ => 0 end in
      let '(l, go) := accept_turn backoff l e in
      if go then n + spawned backoff l es else n
  end.

(** Connections whose end the report tells of; a cancelled join is counted
    twice by the source, as cancelled and as remaining. *)
Definition ended (r : Report) : N := (completed r + failed r + panicked r + remaining r)%N.

Lemma ended_join r j : ended (record_connection_join r j) = (ended r + 1)%N.
Proof. unfold ended. destruct j as [[]|[]]; simpl; lia. Qed.

Lemma accept_loop_count backoff l es :
  (ended (l_report (accept_loop backoff l es).1) + N.of_nat (l_connections (accept_loop backoff l es).1) =
   ended (l_report l) + N.of_nat (l_connections l) + N.of_nat (spawned backoff l es))%N.
Proof.
  revert l. induction es as [|e es IH]; intros l; [simpl; lia|].
  cbn [accept_loop spawned].
  assert (Ht : (ended (l_report (accept_turn backoff l e).1) + N.of_nat (l_connections (accept_turn backoff l e).1) =
    ended (l_report l) + N.of_nat (l_connections l) +
    N.of_nat (match e with Accepted false => 1 | _ => 0 end))%N).
  { destruct e as [|j|[]|[]]; simpl; try (unfold ended; simpl; lia).
    destruct (l_connections l) as [|n] eqn:Hn; simpl; rewrite ?ended_join, ?Hn; lia. }
  destruct (accept_turn backoff l e) as [l' go]. cbn [fst] in Ht. destruct go; [|cbn [fst]; lia].
  rewrite IH. lia.
Qed.

(** The listener accounts for every connection it accepted: when its task
    ends, each of them was awaited and counted once, as completed, failed,
    panicked or remaining. *)
Theorem listener_accounts backoff es joins :
  length joins = l_connections (accept_loop backoff listener_new es).1 →
  ended (run_tcp_listener backoff es joins) = N.of_nat (spawned backoff listener_new es).
Proof.
  intros Hl. unfold run_tcp_listener.
  pose proof (accept_loop_count backoff listener_new es) as Hc.
  set (l := (accept_loop backoff listener_new es).1) in *. change (ended (l_report listener_new)) with 0%N in Hc.
  cbn [l_connections listener_new] in Hc.
  assert (Hd : ∀ joins l, length joins = l_connections l →
    ended (l_report (drain l joins)) = (ended (l_report l) + N.of_nat (l_connections l))%N).
  { clear. induction joins as [|j joins IH]; intros l Hl; simpl in *.
    - rewrite <- Hl. lia.
    - destruct (l_connections l) as [|n]; [done|]. rewrite IH by (simpl; lia). simpl.
      rewrite ended_join. lia. }
  rewrite Hd by done. lia.
Qed.

(** ** Witnesses *)

Module CloseExample.
Definition conn_join (id : N) : result (GlobalResult unit) JoinError :=
  if (id =? 1)%N then Ok (Ok ()) else Err JPanic.
Definition root : result Report JoinError := Ok (mkReport 0 1 0 0 0).
(** The shutdown of stream 3 fails. *)
Definition shutdown (stream : N) : bool := negb (stream =? 3)%N.
Definition e1 : Endpoint := (connect_spawned conn_join endpoint_new id true).2.
Definition e2 : Endpoint := (connect_spawned conn_join e1 id true).2.
(** Two direct sinks are registered. *)
Definition e3 : Endpoint := set_writer false [4; 3]%N e2.

(** A close begins, and is dropped while the writer closes. *)
Definition late (e : Endpoint) : Endpoint :=
  if decide (e_completed e = false ∧ writer_closed e = false) then writer_begin (cancel_endpoint e) else e.

Lemma run2 : rtc (ep_step conn_join root shutdown) endpoint_new e2.
Proof.
  eapply rtc_l; [by apply eps_alloc|]. eapply rtc_l; [by apply (eps_finish _ _ _ _ 1 true)|].
  eapply rtc_l; [by apply eps_alloc|]. eapply rtc_l; [by apply (eps_finish _ _ _ _ 2 true)|]. apply rtc_refl.
Qed.
Lemma run_sinks : rtc (ep_step conn_join root shutdown) endpoint_new e3.
Proof. eapply rtc_r; [apply run2|]. by apply eps_registry. Qed.

(** One connection completed, one panicked, the root was cancelled. *)
Lemma report2 :
  match close_and_wait conn_join root shutdown e2 with
  | Some (_, e) => e_report e = mkReport 1 1 0 1 0
  | None => False
  end.
Proof. reflexivity. Qed.
(** With the sinks, one shutdown failed too. *)
Lemma report3 :
  match close_and_wait conn_join root shutdown e3 with
  | Some (_, e) => e_report e = mkReport 1 1 1 1 0
  | None => False
  end.
Proof. reflexivity. Qed.
End CloseExample.
Import CloseExample.

Lemma close_and_wait_spec_witness :
  ∃ res e', close_and_wait conn_join root shutdown e3 = Some (res, e') ∧
    e_report e' = expected conn_join root shutdown e3 ∧ active e' = ∅ ∧ root_task e' = false ∧
    (is_ok res.1 = is_complete (expected conn_join root shutdown e3)) ∧
    close_and_wait conn_join root shutdown e' = Some ((res.1, []), e') ∧
    (∀ id, (connect_register conn_join e' id).1 = None).
Proof. apply close_and_wait_spec; [apply run_sinks|reflexivity]. Defined.

(** Dropped while the streams shut down: the failed shutdown is not reported
    by the close that resumes. *)
Lemma close_resumes_witness :
  ∃ res e' res1 e1',
    close_and_wait conn_join root shutdown e3 = Some (res, e') ∧
    close_and_wait conn_join root shutdown (writer_begin (cancel_endpoint e3)) = Some (res1, e1') ∧
    e_report e' = add_failed (e_report e1') ∧
    res.1 = (close_report_result (e_report e') false).1 ∧
    res1.1 = (close_report_result (e_report e1') false).1.
Proof.
  apply (close_resumes conn_join root shutdown e3 true); [apply run_sinks|reflexivity|]. by apply int_writer.
Defined.

Lemma listener_accounts_witness :
  ended (run_tcp_listener id [Accepted false; AcceptError false; Accepted false; Joined (Ok (Ok ())); Cancelled]
    [Err JPanic]) = N.of_nat (spawned id listener_new
      [Accepted false; AcceptError false; Accepted false; Joined (Ok (Ok ())); Cancelled]).
Proof. apply listener_accounts. reflexivity. Defined.

(** A connect that is late: the endpoint is cancelled while its task gets
    ready. *)
Lemma connect_tcp_spec_witness :
  let opts := mkOptions 7%N true None 1 in
  let '(r, e') := connect_tcp conn_join e2 opts (λ _, false) {[8%N]} [2%N] (Ok ()) id late true in
  rtc (ep_step conn_join root shutdown) e2 e' ∧ r = Err managed_tcp_connect_cancelled ∧ 3%N ∉ active e' ∧
  ∃ c, conns e' !! 3%N = Some c ∧ c_completed c = true ∧ c_task c = false ∧ c_cancel c = true.
Proof.
  pose proof (connect_tcp_spec conn_join root shutdown e2 (mkOptions 7%N true None 1) (λ _, false) {[8%N]} [2%N] (Ok ())
    id late true run2) as H.
  cbv zeta. destruct (connect_tcp _ _ _ _ _ _ _ _ _ _) as [r e'] eqn:Hc.
  revert H. cbv zeta.
  destruct (alloc_conn (id (foldl (λ e id, (conn_close conn_join e id).2) e2 [2%N]))) as [j e3'] eqn:Hal.
  vm_compute in Hal. injection Hal as <- <-. intros H. destruct H as (Hs & _ & H).
  - apply (bool_decide_unpack _). vm_compute. reflexivity.
  - intros a. apply rtc_refl.
  - intros a. unfold late. case_decide as Hd; [|apply rtc_refl]. destruct Hd.
    apply rtc_once. eapply eps_interrupted; [done|]. by apply int_writer.
  - vm_compute. reflexivity.
  - vm_compute. reflexivity.
  - split; [exact Hs|]. vm_compute in H. destruct H as (-> & Ha & _ & (c & Hc' & H1 & H2 & H3 & _) & _).
    split; [reflexivity|]. split; [exact Ha|]. exists c. by split_and!.
Defined.

(** The connect succeeds, after both earlier connections went. *)
Example connect_after_reap :
  let env := λ e, if decide (is_Some (conns e !! 1%N)) then (conn_close conn_join e 1).2 else e in
  let '(r, e') := connect_tcp conn_join e2 (mkOptions 7%N true None 1) (λ _, false) ∅ [2%N] (Ok ()) env id true in
  r = Ok 3%N ∧ active e' = {[3%N]}.
Proof. vm_compute. done. Qed.

(** ** What modelling showed *)

(** With tasks that end well and a stream that fails to shut down, a close
    fails; dropped inside the writer's close and called again, it is [Ok]. *)
Example dropped_close_loses_failure :
  let close e := (λ p, is_ok p.1.1) <$> close_and_wait (λ _, Ok (Ok ())) root shutdown e in
  close e3 = Some false ∧ close (writer_begin (cancel_endpoint e3)) = Some true.
Proof. vm_compute. done. Qed.
