(* ===== verification/NetConn.v ===== *)
(** * Connections: read loop, write loop, datagrams (base/src/net/rw.rs)

    What one connection's task does, turn by turn of its select loops.  The
    splitter and the dispatcher are the application's: [feed_owned] drives
    the dispatcher with the packets it cuts from the buffer.  A stream is the
    list of what its reads gave. *)
From S2P Require Import Prelude Errors Bytes NetFrame NetWriter NetClose.

Section conn.
Context {Ip : Type} `{Countable Ip} {E : Type} `{PacketEncoder E}.
(** The splitter [S], the dispatcher [D], and their methods. *)
Context {S D : Type}.
Context (dispatch_owned : D → list byte → Ip * N → Protocol → D * GlobalResult unit).
Context (dispatcher_close : D → Ip * N → Protocol → D * GlobalResult unit).
Context (feed_owned : S → list byte → (D → list byte → D * GlobalResult unit) → D →
           S * list byte * D * GlobalResult unit).

(** What a turn of the read select finds. *)
Inductive Read :=
  | Data (chunk : list byte)
  | ReadError
  | ReadCancelled.

(** How the read loop ends: by a [break], or by the [?] on the splitter. *)
Inductive Exit := Broke | Failed (e : GlobalError).

(** One turn: the splitter, the buffer and the dispatcher after it, or the
    end of the loop.  An empty chunk is the peer's end of stream. *)
Definition read_turn (addr : Ip * N) (s : S) (buf : list byte) (d : D) (r : Read) :
    S * list byte * D * option Exit :=
  match r with
  | Data [] => (s, buf, d, Some Broke)
  | Data chunk =>
      let buf := buf ++ chunk in
      if (MAX_BUF_SIZE <? N.of_nat (length buf))%N then (s, buf, d, Some Broke)
      else
        let '(s, buf, d, res) := feed_owned s buf (λ d pkt, dispatch_owned d pkt addr TCP) d in
        (s, buf, d, match res with Ok _ => None | Err e => Some (Failed e) end)
  | ReadError | ReadCancelled => (s, buf, d, Some Broke)
  end.

(** The loop over the reads that happened; [None]: still running. *)
Fixpoint read_loop (addr : Ip * N) (s : S) (buf : list byte) (d : D) (rs : list Read) :
    S * list byte * D * option Exit :=
  match rs with
  | [] => (s, buf, d, None)
  | r :: rs =>
      let '(s, buf, d, e) := read_turn addr s buf d r in
      match e with
      | Some e => (s, buf, d, Some e)
      | None => read_loop addr s buf d rs
      end
  end.

(** [handle_tcp] and [handle_tcp_owned], the same code: [None] while the
    connection runs. *)
Definition handle_tcp (addr : Ip * N) (s : S) (d : D) (rs : list Read) :
    option (GlobalResult unit) * D :=
  let '(_, _, d, e) := read_loop addr s [] d rs in
  match e with
  | None => (None, d)
  | Some (Failed e) => (Some (Err e), d)
  | Some Broke => let '(d, r) := dispatcher_close d addr TCP in (Some r, d)
  end.

(** [handle_tcp_read_owned_half]; [w] is the writer when the loop ends. *)
Definition handle_tcp_read_owned_half (addr : Ip * N) (s : S) (d : D) (rs : list Read)
    (w : PacketWriter (Ip:=Ip) (E:=E)) (registration : TcpWriterRegistration (Ip:=Ip)) :
    option (GlobalResult unit) * D * PacketWriter :=
  let '(_, _, d, e) := read_loop addr s [] d rs in
  match e with
  | None => (None, d, w)
  | Some (Failed e) => (Some (Err e), d, w)
  | Some Broke =>
      let w := remove_registered_tcp_writer w registration in
      let '(d, r) := dispatcher_close d addr TCP in (Some r, d, w)
  end.

(** What a turn of the write select finds: a packet and how writing it
    went, the end of the queue, or the cancellation. *)
Inductive WriteTurn :=
  | Item (packet : EncodedPacket) (written : result unit IoError)
  | QueueEnd
  | WriteCancelled.

(** The packets written in full, and whether the loop was left. *)
Fixpoint write_loop (ts : list WriteTurn) : list EncodedPacket * bool :=
  match ts with
  | [] => ([], false)
  | Item p (Ok _) :: ts => let '(ps, b) := write_loop ts in (p :: ps, b)
  | Item _ (Err _) :: _ | QueueEnd :: _ | WriteCancelled :: _ => ([], true)
  end.

(** [handle_tcp_write]: after the loop the token is cancelled, the
    registration removed, the stream shut down. *)
Definition handle_tcp_write (ts : list WriteTurn) (tok : N) (shutdown : GlobalResult unit)
    (w : PacketWriter (Ip:=Ip) (E:=E)) (registration : TcpWriterRegistration (Ip:=Ip)) :
    option (GlobalResult unit) * PacketWriter :=
  if (write_loop ts).2
  then (Some shutdown, remove_registered_tcp_writer (cancel tok w) registration)
  else (None, w).

(** [run_managed_tcp_connection]: registration first; [None] as long as one
    of the joined halves runs.  [mid] is what the other tasks do to the
    writer before the halves end. *)
Definition run_managed_tcp_connection (addr : Ip * N) (chan stream tok : N) (s : S) (d : D)
    (rs : list Read) (ts : list WriteTurn) (shutdown : GlobalResult unit)
    (mid : PacketWriter → PacketWriter) (w : PacketWriter (Ip:=Ip) (E:=E)) :
    option (GlobalResult unit) * D * PacketWriter :=
  match queue_size (tcp_write_mode w) with
  | Some size =>
      let w := set_chans (<[chan := mkChan [] (N.to_nat size) false]> (chans w)) w in
      let '(reg, w) := insert_tcp_sink w addr (QueuedSink addr chan tok) in
      match reg with
      | None => (Some (Err packet_writer_closed), d, w)
      | Some reg =>
          let '(read_result, d, w) := handle_tcp_read_owned_half addr s d rs (mid w) reg in
          let '(write_result, w) := handle_tcp_write ts tok shutdown w reg in
          (match read_result, write_result with
           | Some (Err e), Some _ => Some (Err e)
           | Some (Ok _), Some r => Some r
           | _, _ => None
           end, d, w)
      end
  | None =>
      let '(reg, w) := insert_tcp_sink w addr (DirectSink addr stream tok) in
      match reg with
      | None => (Some (Err packet_writer_closed), d, w)
      | Some reg => handle_tcp_read_owned_half addr s d rs (mid w) reg
      end
  end.

(** What a turn of the UDP select finds. *)
Inductive Datagram :=
  | UdpCancelled
  | Received (data : list byte) (from : Ip * N)
  | UdpError.

(** [run_udp_receiver]: empty datagrams are skipped, a failing dispatch is
    only logged. *)
Fixpoint run_udp_receiver (report : Report) (d : D) (us : list Datagram) : Report * D :=
  match us with
  | [] => (report, d)
  | UdpCancelled :: _ => (add_cancelled report, d)
  | UdpError :: _ => (add_failed report, d)
  | Received [] _ :: us => run_udp_receiver report d us
  | Received data from :: us =>
      run_udp_receiver report (dispatch_owned d data from UDP).1 us
  end.

(** The loop of [spawn_udp_owned], with no report. *)
Definition spawn_udp_owned (d : D) (us : list Datagram) : D := (run_udp_receiver report_default d us).2.

(** ** The buffer bound *)

(** The buffers the splitter was fed during a run. *)
Fixpoint fed (addr : Ip * N) (s : S) (buf : list byte) (d : D) (rs : list Read) : list (list byte) :=
  match rs with
  | [] => []
  | r :: rs =>
      let '(s', buf', d', e) := read_turn addr s buf d r in
      (match r with
       | Data (_ :: _ as chunk) =>
           if (MAX_BUF_SIZE <? N.of_nat (length (buf ++ chunk)))%N then [] else [buf ++ chunk]
       | _ => []
       end) ++ match e with Some _ => [] | None => fed addr s' buf' d' rs end
  end.

(** Whatever a peer sends and whatever the splitter leaves in the buffer,
    the splitter is never given more than [MAX_BUF_SIZE] bytes. *)
Theorem read_buffer_bound addr s d rs :
  Forall (λ b, (N.of_nat (length b) ≤ MAX_BUF_SIZE)%N) (fed addr s [] d rs).
Proof.
  generalize (@nil N) as buf. revert s d. induction rs as [|r rs IH]; intros s d buf; [constructor|].
  cbn [fed]. destruct (read_turn addr s buf d r) as [[[s' buf'] d'] e]. apply Forall_app. split.
  - destruct r as [[|b chunk]| |]; try constructor.
    case_N; [constructor|]. apply Forall_singleton. lia.
  - destruct e; [constructor|apply IH].
Qed.

(** A connection whose splitter never failed cleans up when its read loop
    ends: its registration is gone, its sink's token is cancelled unless the
    address was taken over meanwhile, and the dispatcher is told once. *)
Theorem read_half_cleanup addr s d rs w reg sink :
  reg_remote_addr reg = addr →
  (∃ s' buf' d', read_loop addr s [] d rs = (s', buf', d', Some Broke)) →
  let '(r, d'', w') := handle_tcp_read_owned_half addr s d rs w reg in
  (∃ d', (d'', r) = ((dispatcher_close d' addr TCP).1, Some (dispatcher_close d' addr TCP).2)) ∧
  (∀ s0, tcp_writers w' !! addr ≠ Some (reg, s0)) ∧
  (tcp_writers w !! addr = Some (reg, sink) → is_cancelled w' (sink_cancel sink) = true) ∧
  (∀ r0 s0, tcp_writers w !! addr = Some (r0, s0) → writer_id r0 ≠ writer_id reg → w' = w).
Proof.
  intros Hreg (s' & buf' & d' & Hl). unfold handle_tcp_read_owned_half. rewrite Hl.
  destruct (dispatcher_close d' addr TCP) as [d2 r2] eqn:Hd. split; [by exists d'; rewrite Hd|].
  unfold remove_registered_tcp_writer, remove_and_close, remove_tcp_writer_inner. rewrite Hreg.
  destruct (tcp_writers w !! addr) as [[r0 s0]|] eqn:Ha; [|by rewrite Ha].
  cbn [negb]. destruct (N.eqb_spec (writer_id reg) (writer_id r0)) as [Hid|Hid].
  - cbn [negb]. split_and!.
    + intros s1. simpl. by rewrite lookup_delete_eq.
    + intros [= <- <-]. apply bool_decide_eq_true. simpl. set_solver.
    + intros ? ? [= <- <-] Hne. congruence.
  - cbn [negb]. split_and!; [|congruence|done]. intros s1. congruence.
Qed.

(** ** Cancellation *)

(** Removing a registration leaves no entry of that registration. *)
Lemma removed_registration (w : PacketWriter (Ip:=Ip) (E:=E)) (reg : TcpWriterRegistration (Ip:=Ip)) r0 s0 :
  tcp_writers (remove_registered_tcp_writer w reg) !! reg_remote_addr reg = Some (r0, s0) → writer_id r0 ≠ writer_id reg.
Proof.
  unfold remove_registered_tcp_writer, remove_and_close, remove_tcp_writer_inner.
  destruct (tcp_writers w !! reg_remote_addr reg) as [[r1 s1]|] eqn:Ha; [|congruence].
  cbn [negb]. destruct (N.eqb_spec (writer_id reg) (writer_id r1)) as [Hid|Hid]; cbn [negb].
  - simpl. by rewrite lookup_delete_eq.
  - rewrite Ha. intros [= <- <-]. congruence.
Qed.

Lemma remove_registered_cancelled (w : PacketWriter (Ip:=Ip) (E:=E)) reg t : is_cancelled w t = true →
  is_cancelled (remove_registered_tcp_writer w reg) t = true.
Proof.
  unfold remove_registered_tcp_writer, remove_and_close, remove_tcp_writer_inner, is_cancelled.
  intros Ht%bool_decide_eq_true. apply bool_decide_eq_true. repeat case_match; simplify_eq; simpl; set_solver.
Qed.

(** A loop that comes to the cancelled branch has ended. *)
Lemma read_loop_cancelled addr s buf d rs : ReadCancelled ∈ rs → ∃ e, (read_loop addr s buf d rs).2 = Some e.
Proof.
  revert s buf d. induction rs as [|r rs IH]; intros s buf d Hin; [by apply elem_of_nil in Hin|]. cbn [read_loop].
  destruct (read_turn addr s buf d r) as [[[s' buf'] d'] [e|]] eqn:Hr; [by exists e|].
  apply elem_of_cons in Hin as [<-|Hin]; [done|by apply IH].
Qed.

Lemma write_loop_cancelled ts : WriteCancelled ∈ ts → (write_loop ts).2 = true.
Proof.
  induction ts as [|[p [[]|e]| |] ts IH]; intros Hin; [by apply elem_of_nil in Hin| |done..].
  apply elem_of_cons in Hin as [|Hin]; [done|]. simpl. specialize (IH Hin). by destruct (write_loop ts).
Qed.

Lemma read_half_cancelled addr s d rs (w : PacketWriter (Ip:=Ip) (E:=E)) reg :
  ReadCancelled ∈ rs → is_Some (handle_tcp_read_owned_half addr s d rs w reg).1.1.
Proof.
  intros Hrs. unfold handle_tcp_read_owned_half. destruct (read_loop_cancelled addr s [] d rs Hrs) as [e He].
  destruct (read_loop addr s [] d rs) as [[[s' buf'] d'] e']. simpl in He. subst e'.
  destruct e; [|by eexists]. destruct (dispatcher_close d' addr TCP). by eexists.
Qed.

(** The result of a connection's task whose halves have come to the
    cancelled branch of their selects. *)
Lemma cancelled_run_ends addr chan stream tok s d rs ts shutdown mid (w : PacketWriter (Ip:=Ip) (E:=E)) :
  ReadCancelled ∈ rs → WriteCancelled ∈ ts →
  is_Some (run_managed_tcp_connection addr chan stream tok s d rs ts shutdown mid w).1.1.
Proof.
  intros Hrs Hts. unfold run_managed_tcp_connection. destruct (queue_size _).
  - destruct (insert_tcp_sink _ _ _) as [[reg|] w2]; [|by eexists].
    destruct (read_half_cancelled addr s d rs (mid w2) reg Hrs) as [r Hr].
    destruct (handle_tcp_read_owned_half addr s d rs (mid w2) reg) as [[r' d'] w3]. simpl in Hr. subst r'.
    unfold handle_tcp_write. rewrite (write_loop_cancelled ts Hts). by destruct r; eexists.
  - destruct (insert_tcp_sink _ _ _) as [[reg|] w2]; [|by eexists]. by apply read_half_cancelled.
Qed.

(** A connection whose token is cancelled comes to its end, however much
    was read and written before and however the splitter, the dispatcher and
    the stream behaved: once the selects of its halves have come to the
    cancelled branch, its task has a result; and with a queue its writer is
    closed and no longer registered, whatever happened to the registry
    meanwhile. *)
Theorem cancelled_connection_ends addr chan stream tok s d rs ts shutdown mid
    (w : PacketWriter (Ip:=Ip) (E:=E)) :
  ReadCancelled ∈ rs → WriteCancelled ∈ ts →
  let '(r, _, w') := run_managed_tcp_connection addr chan stream tok s d rs ts shutdown mid w in
  is_Some r ∧
  (queue_size (tcp_write_mode w) ≠ None →
     is_cancelled w' tok = true ∧
     (closed w = false → ∀ r0 s0, tcp_writers w' !! addr = Some (r0, s0) → writer_id r0 ≠ next_tcp_writer_id w)).
Proof.
  intros Hrs Hts. pose proof (cancelled_run_ends addr chan stream tok s d rs ts shutdown mid w Hrs Hts) as Hres.
  pose proof (write_loop_cancelled ts Hts) as Hw. revert Hres. unfold run_managed_tcp_connection.
  destruct (queue_size (tcp_write_mode w)) as [size|] eqn:Hq.
  - set (w1 := set_chans _ w). unfold insert_tcp_sink, insert_begin. change (closed w1) with (closed w).
    destruct (closed w) eqn:Hcl.
    { intros _. split; [by eexists|]. intros _. split; [|done]. apply bool_decide_eq_true. simpl. set_solver. }
    unfold insert_commit. change (closed (set_next_id _ w1)) with (closed w). rewrite Hcl.
    set (reg := mkReg addr (next_tcp_writer_id w1)).
    match goal with |- context [mid ?x] => generalize x; intros w2 end.
    destruct (handle_tcp_read_owned_half addr s d rs (mid w2) reg) as [[r d'] w3].
    unfold handle_tcp_write. rewrite Hw. intros Hres. split; [done|]. intros _. split.
    + apply remove_registered_cancelled. apply bool_decide_eq_true. simpl. set_solver.
    + intros _ r0 s0 Hr0. apply (removed_registration (cancel tok w3) reg r0 s0 Hr0).
  - destruct (insert_tcp_sink w addr (DirectSink addr stream tok)) as [[reg|] w2]; [|by intros; split].
    destruct (handle_tcp_read_owned_half addr s d rs (mid w2) reg) as [[r d'] w3]. by intros; split.
Qed.
End conn.

(** ** Witness and observation *)

Module ConnExample.
(** A splitter that passes every byte on and fails on a zero byte. *)
Definition feed (s : unit) (buf : list byte) (f : nat → list byte → nat * GlobalResult unit) (d : nat) :
    unit * list byte * nat * GlobalResult unit :=
  if decide (0%N ∈ buf) then (s, buf, d, Err (SysErr "bad frame"))
  else let '(d, r) := f d buf in (s, [], d, r).
Definition dispatch (d : nat) (_ : list byte) (_ : N * N) (_ : Protocol) : nat * GlobalResult unit :=
  (d + 1, Ok ()).
Definition on_close (d : nat) (_ : N * N) (_ : Protocol) : nat * GlobalResult unit := (d + 100, Ok ()).
Definition addr : N * N := (10, 80)%N.
Definition direct : PacketWriter (Ip:=N) := writer_new None Raw Direct.
Definition queued : PacketWriter (Ip:=N) := writer_new None Raw default_write_mode.
End ConnExample.
Import ConnExample.

Lemma read_half_cleanup_witness :
  let w := (insert_tcp_sink direct addr (DirectSink addr 0 9)).2 in
  let reg := mkReg addr 1 in
  let '(r, d'', w') := handle_tcp_read_owned_half dispatch on_close feed addr () 0
                         [Data [1; 2]%N; Data []] w reg in
  (∃ d', (d'', r) = ((on_close d' addr TCP).1, Some (on_close d' addr TCP).2)) ∧
  (∀ s0, tcp_writers w' !! addr ≠ Some (reg, s0)) ∧
  (tcp_writers w !! addr = Some (reg, DirectSink addr 0 9) → is_cancelled w' 9 = true) ∧
  (∀ r0 s0, tcp_writers w !! addr = Some (r0, s0) → writer_id r0 ≠ writer_id reg → w' = w).
Proof.
  apply (read_half_cleanup dispatch on_close feed addr () 0 [Data [1; 2]%N; Data []]
    (insert_tcp_sink direct addr (DirectSink addr 0 9)).2 (mkReg addr 1) (DirectSink addr 0 9)).
  - reflexivity.
  - by eexists _, _, _.
Defined.

(** The splitter fails on the first chunk; the cancellation still ends both
    halves and clears the registry. *)
Lemma cancelled_connection_ends_witness :
  let '(r, _, w') := run_managed_tcp_connection dispatch on_close feed addr 5 0 9 () 0
    [Data [0]%N; ReadCancelled] [WriteCancelled] (Ok ()) id queued in
  is_Some r ∧
  (queue_size default_write_mode ≠ None →
     is_cancelled w' 9 = true ∧
     (false = false → ∀ r0 s0, tcp_writers w' !! addr = Some (r0, s0) → writer_id r0 ≠ 1%N)).
Proof.
  apply (cancelled_connection_ends dispatch on_close feed addr 5 0 9 () 0 [Data [0]%N; ReadCancelled] [WriteCancelled] (Ok ()) id queued).
  - right. left.
  - left.
Defined.

(** When the splitter fails, the connection's task ends with the error but
    its writer stays registered and open, and the dispatcher is not told. *)
Example splitter_error_leaks_registration :
  let '(r, d, w) := run_managed_tcp_connection dispatch on_close feed addr 5 0 9 () 0
                      [Data [1]%N; Data [0]%N] [] (Ok ()) id direct in
  r = Some (Err (SysErr "bad frame")) ∧ d = 1 ∧ has_tcp_writer w addr = true ∧ is_cancelled w 9 = false.
Proof. vm_compute. done. Qed.

(** With a queue the read half has failed too, but the task waits for a write
    half that nothing stops. *)
Example splitter_error_keeps_task :
  let '(r, d, w) := run_managed_tcp_connection dispatch on_close feed addr 5 0 9 () 0
                      [Data [0]%N] [] (Ok ()) id queued in
  r = None ∧ has_tcp_writer w addr = true ∧ is_cancelled w 9 = false.
Proof. vm_compute. done. Qed.
