(* ===== verification/NetDelivery.v ===== *)
(** * From a write call to the peer (base/src/net/rw.rs)

    A queued connection as a whole: any number of tasks write to its sink,
    the write task of [handle_tcp_write] takes packets from the channel and
    puts them on the stream, and everything else may happen to the writer
    meanwhile.  What the stream accepted is compared with the calls that
    returned [Ok]. *)
From S2P Require Import Prelude Errors Bytes NetFrame NetWriter.

Section delivery.
Context {Ip : Type} `{Countable Ip} {E : Type} `{PacketEncoder E}.
Context {W : Type} (write : W → list byte → W * result nat IoError).
Context (write_vectored : W → list (list byte) → W * result nat IoError).
Context (write_all : W → list byte → W * result unit IoError) (sent : W → list byte).
Notation PacketWriter := (PacketWriter (Ip := Ip) (E := E)).
Implicit Types w : PacketWriter.

(** [rx.recv()] with a packet there. *)
Definition recv_packet (ch : N) w : option (EncodedPacket * PacketWriter) :=
  match chans w !! ch with
  | Some c =>
      match ch_queue c with
      | p :: q => Some (p, set_chans (<[ch := mkChan q (ch_cap c) (ch_closed c)]> (chans w)) w)
      | [] => None
      end
  | None => None
  end.

(** A turn of the write task that found a packet: whether the loop goes on. *)
Definition write_item (ch : N) (stream : W) w : exec (option (W * PacketWriter * bool)) :=
  match recv_packet ch w with
  | None => Ret None
  | Some (p, w) =>
      r ← write_encoded_packet write write_vectored write_all stream p;
      Ret ('(stream, res) ← r; Some (stream, w, is_ok res))
  end.

(** The task's end drops the receiver, and with it what still waits. *)
Definition drop_receiver (ch : N) w : PacketWriter :=
  match chans w !! ch with
  | Some c => set_chans (<[ch := mkChan [] (ch_cap c) true]> (chans w)) w
  | None => w
  end.

(** The connection: [accepted] are the data of the calls that returned [Ok],
    [running] whether the write loop still runs. *)
Record Conn := mkConn { c_writer : PacketWriter; c_stream : W; c_running : bool; accepted : list (list byte) }.
Definition note (r : GlobalResult ()) (data : list byte) (acc : list (list byte)) : list (list byte) :=
  if is_ok r then acc ++ [data] else acc.

Inductive step (ch tok : N) (c : Conn) : Conn → Prop :=
  | step_try_write data r w' :
      queued_try_write (c_writer c) ch tok data = Ret (r, w') →
      step ch tok c (mkConn w' (c_stream c) (c_running c) (note r data (accepted c)))
  | step_write data packet r w' :
      encode_tcp (encoder (c_writer c)) data = Ret (Ok packet) →
      queued_write_poll (c_writer c) ch tok packet = Some (r, w') →
      step ch tok c (mkConn w' (c_stream c) (c_running c) (note r data (accepted c)))
  | step_item s' w' go :
      c_running c = true → write_item ch (c_stream c) (c_writer c) = Ret (Some (s', w', go)) →
      step ch tok c (mkConn w' s' go (accepted c))
  | step_leave : c_running c = true →
      step ch tok c (mkConn (c_writer c) (c_stream c) false (accepted c))
  | step_drop : c_running c = false →
      step ch tok c (mkConn (drop_receiver ch (c_writer c)) (c_stream c) false (accepted c))
  | step_other w' :
      chans w' !! ch = chans (c_writer c) !! ch → encoder w' = encoder (c_writer c) →
      step ch tok c (mkConn w' (c_stream c) (c_running c) (accepted c)).

(** ** Invariant *)

Definition queue (ch : N) w : list EncodedPacket :=
  match chans w !! ch with Some c => ch_queue c | None => [] end.

Definition encodes (e : E) (d : list byte) (p : EncodedPacket) : Prop := encode_tcp e d = Ret (Ok p).
Definition wires (p : EncodedPacket) (b : list byte) : Prop := wire p = Ret b.

(** [done] went out in full; the next one, [part], in part if the loop was
    left there; [rest] waits while the loop runs. *)
Record inv (ch : N) (s0 : list byte) (e : E) (c : Conn) (done part rest : list EncodedPacket) : Prop := {
  inv_encoder : encoder (c_writer c) = e;
  inv_accepted : Forall2 (encodes e) (accepted c) (done ++ part ++ rest);
  inv_running : c_running c = true → part = [] ∧ rest = queue ch (c_writer c);
  inv_sent : ∃ bs ps n, Forall2 wires done bs ∧ Forall2 wires part ps ∧
    sent (c_stream c) = s0 ++ concat bs ++ take n (concat ps)
}.

Lemma try_send_queue w ch p r w' : try_send w ch p = (r, w') →
  encoder w' = encoder w ∧ queue ch w' = queue ch w ++ (match r with Sent => [p] | _ => [] end).
Proof.
  unfold try_send, queue. destruct (chans w !! ch) as [c|] eqn:Hc; [|intros [= <- <-]; by rewrite Hc].
  destruct (ch_closed c); [intros [= <- <-]; by rewrite Hc, app_nil_r|].
  destruct (_ <? _)%nat; intros [= <- <-]; [|by rewrite Hc, app_nil_r].
  split; [done|]. simpl. by rewrite lookup_insert_eq.
Qed.

(** A call's packet is queued exactly when it returns [Ok]. *)
Lemma poll_queue w ch tok p r w' : queued_write_poll w ch tok p = Some (r, w') →
  encoder w' = encoder w ∧ queue ch w' = queue ch w ++ (if is_ok r then [p] else []).
Proof.
  unfold queued_write_poll. destruct (is_cancelled w tok); [intros [= <- <-]; by rewrite app_nil_r|].
  destruct (try_send w ch p) as [[] w1] eqn:Ht; [intros [= <- <-]|done|intros [= <- <-]]; by apply try_send_queue in Ht.
Qed.

Lemma try_write_queue w ch tok data r w' : queued_try_write w ch tok data = Ret (r, w') →
  encoder w' = encoder w ∧ if is_ok r then ∃ p, encodes (encoder w) data p ∧ queue ch w' = queue ch w ++ [p]
                           else queue ch w' = queue ch w.
Proof.
  unfold queued_try_write. destruct (is_cancelled w tok); [by intros [= <- <-]|].
  unfold encodes. destruct (encode_tcp (encoder w) data) as [[p|e]| |]; [|by intros [= <- <-]|done..].
  cbn [mbind exec_bind]. destruct (try_send w ch p) as [t w1] eqn:Ht. apply try_send_queue in Ht as [He Hq].
  destruct t; intros [= <- <-]; (split; [done|]); cbn [is_ok]; [by exists p|by rewrite Hq, app_nil_r..].
Qed.

Context `{!AsyncWrite write write_vectored write_all sent}.

Lemma write_returned s p s' r :
  write_encoded_packet write write_vectored write_all s p = Ret (Some (s', r)) →
  ∃ b, wires p b ∧ wrote sent s b s' r.
Proof.
  intros Hw. assert (Hb : ∃ b, wire p = Ret b).
  { destruct p as [data|prefix payload]; [by eexists|]. simpl in *. destruct (as_slice prefix); [by eexists|done..]. }
  destruct Hb as [b Hb]. exists b. split; [done|].
  destruct (write_encoded write write_vectored write_all sent s p b Hb) as (s1 & r1 & H1 & H2). congruence.
Qed.

(** An accepted call. *)
Lemma note_inv ch s0 e c w' r data done part rest : inv ch s0 e c done part rest →
  encoder w' = encoder (c_writer c) →
  (if is_ok r then ∃ p, encodes e data p ∧ queue ch w' = queue ch (c_writer c) ++ [p]
   else queue ch w' = queue ch (c_writer c)) →
  ∃ rest', inv ch s0 e (mkConn w' (c_stream c) (c_running c) (note r data (accepted c))) done part rest'.
Proof.
  intros [He Ha Hr Hs] He' Hq. unfold note. destruct (is_ok r).
  - destruct Hq as (p & Hp & Hq). exists (rest ++ [p]). split; simpl; [congruence| | |done].
    + rewrite !app_assoc in *. apply Forall2_app; [done|]. by constructor.
    + intros Hrun. destruct (Hr Hrun) as [-> ->]. by rewrite Hq.
  - exists rest. split; simpl; [congruence|done| |done]. intros Hrun. by rewrite Hq; apply Hr.
Qed.

(** The write task sent a packet, or failed to. *)
Lemma item_inv ch s0 e c s' w' go done rest : inv ch s0 e c done [] rest → c_running c = true →
  write_item ch (c_stream c) (c_writer c) = Ret (Some (s', w', go)) →
  ∃ done' part' rest', inv ch s0 e (mkConn w' s' go (accepted c)) done' part' rest'.
Proof.
  intros [He Ha Hr Hs] Hrun Hw. destruct (Hr Hrun) as [_ ->]. unfold write_item, recv_packet in Hw. unfold queue in Ha.
  destruct (chans (c_writer c) !! ch) as [k|] eqn:Hk; [|done].
  destruct (ch_queue k) as [|p q] eqn:Hqk; [done|]. cbn [mbind exec_bind] in Hw.
  destruct (write_encoded_packet _ _ _ _ _) as [[[s1 res]|]| |] eqn:Hwe; [|done..].
  simpl in Hw. injection Hw as <- <- <-. apply write_returned in Hwe as (b & Hb & Hwr).
  destruct Hs as (bs & ps & n & Hbs & Hps & Hsent). apply Forall2_nil_inv_l in Hps as ->.
  cbn [concat] in Hsent. rewrite take_nil, app_nil_r in Hsent.
  assert (Hqueue : queue ch (set_chans (<[ch:=mkChan q (ch_cap k) (ch_closed k)]> (chans (c_writer c))) (c_writer c)) = q).
  { unfold queue. simpl. by rewrite lookup_insert_eq. }
  destruct res as [u|er]; cbn [is_ok].
  - exists (done ++ [p]), [], q. split; simpl; [done|by rewrite <- app_assoc|by rewrite Hqueue|].
    exists (bs ++ [b]), [], 0. split_and!; [by apply Forall2_app; [|repeat constructor]|constructor|].
    rewrite Hwr, Hsent, concat_app. simpl. by rewrite !app_nil_r, app_assoc.
  - exists done, [p], q. split; simpl; [done..|].
    destruct Hwr as [m Hwr]. exists bs, [b], m. split_and!; [done|by repeat constructor|].
    rewrite Hwr, Hsent. simpl. by rewrite app_nil_r, app_assoc.
Qed.

Lemma delivery_step_inv ch tok s0 e c c' done part rest : inv ch s0 e c done part rest → step ch tok c c' →
  ∃ done' part' rest', inv ch s0 e c' done' part' rest'.
Proof.
  intros Hi Hst. pose proof (inv_encoder _ _ _ _ _ _ _ Hi) as He.
  destruct Hst as [data r w' Hw|data packet r w' Hp Hw|s' w' go Hrun Hw|Hrun|Hrun|w' Hq Hen].
  - apply try_write_queue in Hw as [He' Hq]. rewrite He in Hq. eexists _, _. by eapply note_inv.
  - apply poll_queue in Hw as [He' Hq]. rewrite He in Hp. eexists _, _. eapply note_inv; [done..|].
    destruct (is_ok r); [by exists packet|by rewrite app_nil_r in Hq].
  - destruct (inv_running _ _ _ _ _ _ _ Hi Hrun) as [-> ->]. by eapply item_inv.
  - destruct Hi as [_ Ha Hr Hs]. exists done, part, rest. by split.
  - destruct Hi as [_ Ha Hr Hs]. exists done, part, rest. split; simpl; try done.
    unfold drop_receiver. by destruct (chans (c_writer c) !! ch).
  - destruct Hi as [_ Ha Hr Hs]. exists done, part, rest. split; simpl; [congruence|done| |done].
    intros Hrun. unfold queue. rewrite Hq. by apply Hr.
Qed.

Lemma delivery_steps_inv ch tok s0 e c c' : rtc (step ch tok) c c' → (∃ done part rest, inv ch s0 e c done part rest) →
  ∃ done part rest, inv ch s0 e c' done part rest.
Proof. induction 1 as [|c1 c2 c3 H1 _ IH]; [done|]. intros (done & part & rest & Hi). by eapply IH, delivery_step_inv. Qed.
End delivery.

(** ** Delivery of length-prefixed packets *)

Lemma encoded_frames acc ps : Forall2 (encodes U16Be) acc ps →
  ∃ frames, Forall2 u16be_frame acc frames ∧ Forall2 wires ps frames.
Proof.
  induction 1 as [|d p acc ps Hp _ (frames & H1 & H2)]; [by exists []|].
  assert (Hd : (N.of_nat (length d) ≤ u16_max)%N).
  { unfold encodes in Hp. simpl in Hp. unfold u16be_encode_tcp in Hp.
    destruct (N.ltb_spec u16_max (N.of_nat (length d))); [done|lia]. }
  destruct (u16be_encode d Hd) as (p' & hi & lo & Hp' & Hw & _).
  assert (p' = p) as -> by (unfold encodes in Hp; simpl in Hp; congruence).
  exists ((hi :: lo :: d) :: frames). split; constructor; try done. by exists p.
Qed.

Lemma wires_functional ps bs bs' : Forall2 wires ps bs → Forall2 wires ps bs' → bs = bs'.
Proof.
  intros H1. revert bs'. induction H1 as [|p b ps bs Hp _ IH]; intros bs' H2.
  - by apply Forall2_nil_inv_l in H2.
  - apply Forall2_cons_inv_l in H2 as (b' & bs2 & Hb' & H2 & ->).
    assert (b = b') as -> by (unfold wires in *; congruence). f_equal. by apply IH.
Qed.

Section frames.
Context {Ip : Type} `{Countable Ip}.
Context {W : Type} (write : W → list byte → W * result nat IoError).
Context (write_vectored : W → list (list byte) → W * result nat IoError).
Context (write_all : W → list byte → W * result unit IoError) (sent : W → list byte).
Context `{!AsyncWrite write write_vectored write_all sent}.
Notation Conn := (Conn (Ip := Ip) (E := U16BeLengthPrefixEncoder) (W := W)).

(** What is on the stream: a beginning of the frames of the accepted data,
    and while the write task runs, whole frames of all but the queued ones. *)
Lemma stream_frames (ch tok : N) (c0 c : Conn) :
  encoder (c_writer c0) = U16Be → queue ch (c_writer c0) = [] → accepted c0 = [] →
  rtc (step write write_vectored write_all ch tok) c0 c →
  ∃ frames bytes, Forall2 u16be_frame (accepted c) frames ∧
    sent (c_stream c) = sent (c_stream c0) ++ bytes ∧ bytes `prefix_of` concat frames ∧
    (c_running c = true → ∃ k, k + length (queue ch (c_writer c)) = length (accepted c) ∧
      bytes = concat (take k frames)).
Proof.
  intros He Hq Ha Hs.
  destruct (delivery_steps_inv write write_vectored write_all sent ch tok (sent (c_stream c0)) U16Be c0 c Hs)
    as (done & part & rest & [_ Hacc Hrun (bs & ps & n & Hbs & Hps & Hsent)]).
  { exists [], [], []. split; [done|by rewrite Ha|done|]. exists [], [], 0. by rewrite app_nil_r. }
  destruct (encoded_frames _ _ Hacc) as (frames & Hf & Hw). exists frames.
  apply Forall2_app_inv_l in Hw as (f1 & f23 & H1 & H23 & ->).
  apply Forall2_app_inv_l in H23 as (f2 & f3 & H2 & H3 & ->).
  rewrite (wires_functional _ _ _ Hbs H1), (wires_functional _ _ _ Hps H2) in Hsent.
  exists (concat f1 ++ take n (concat f2)). split_and!; [done|done| |].
  - rewrite !concat_app. apply prefix_app. by apply prefix_app_r, prefix_take.
  - intros Hr. destruct (Hrun Hr) as [-> Hrest]. apply Forall2_nil_inv_l in H2 as ->. simpl. rewrite take_nil, app_nil_r.
    exists (length done). simpl in *. pose proof (Forall2_length _ _ _ Hacc) as Hl. rewrite length_app, Hrest in Hl.
    split; [lia|]. by rewrite (Forall2_length _ _ _ H1), take_app_length.
Qed.

(** However writers, the write task, and whatever else happens to the
    writer interleave, the stream holds a beginning of the frames of the
    accepted data, in the order of the calls; and while the write task runs,
    the peer reads from it exactly the accepted data but those that still
    wait in the channel. *)
Theorem frames_delivered (ch tok : N) (c0 c : Conn) :
  encoder (c_writer c0) = U16Be → queue ch (c_writer c0) = [] → accepted c0 = [] →
  rtc (step write write_vectored write_all ch tok) c0 c →
  ∃ frames bytes, Forall2 u16be_frame (accepted c) frames ∧
    sent (c_stream c) = sent (c_stream c0) ++ bytes ∧ bytes `prefix_of` concat frames ∧
    (c_running c = true → ∃ k, k + length (queue ch (c_writer c)) = length (accepted c) ∧
      read_frames k bytes = Some (take k (accepted c))).
Proof.
  intros He Hq Ha Hs. destruct (stream_frames ch tok c0 c He Hq Ha Hs) as (frames & bytes & Hf & Hb & Hp & Hr).
  exists frames, bytes. split_and!; [done..|]. intros Hrun. destruct (Hr Hrun) as (k & Hk & ->).
  exists k. split; [done|]. replace k with (length (take k (accepted c))) at 1 by (rewrite length_take; lia).
  by apply u16be_frames_read, Forall2_take.
Qed.
End frames.

(** ** Witness *)

(** A writer with one queued connection on channel 5, over the slow stream;
    two calls are accepted, the first packet is sent. *)
Module DeliveryExample.
Definition conn := Conn (Ip := N) (E := U16BeLengthPrefixEncoder) (W := list byte).
Definition step := step (Ip := N) (E := U16BeLengthPrefixEncoder)
  SlowStream.write SlowStream.write_vectored SlowStream.write_all.
Definition c0 : conn :=
  mkConn (set_chans {[5%N := mkChan [] 2 false]} (writer_new None U16Be default_write_mode)) [] true [].
Definition try_write (data : list byte) (c : conn) : conn :=
  match queued_try_write (c_writer c) 5 9 data with
  | Ret (r, w) => mkConn w (c_stream c) (c_running c) (note r data (accepted c))
  | _ => c
  end.
Definition item (c : conn) : conn :=
  match write_item SlowStream.write SlowStream.write_vectored SlowStream.write_all 5 (c_stream c) (c_writer c) with
  | Ret (Some (s, w, go)) => mkConn w s go (accepted c)
  | _ => c
  end.
(** The third call finds the channel full. *)
Definition ca : conn := try_write (str "hello") c0.
Definition cb : conn := try_write (str "world") ca.
Definition cc : conn := try_write (str "no") cb.
Definition c1 : conn := item cc.

Lemma try_write_step data c : match queued_try_write (c_writer c) 5 9 data with Ret _ => True | _ => False end →
  step 5 9 c (try_write data c).
Proof.
  intros Hr. unfold try_write. destruct (queued_try_write _ _ _ _) as [[r w]| |] eqn:Hq; [|done..].
  by apply step_try_write.
Qed.
Lemma item_step c : c_running c = true →
  match write_item SlowStream.write SlowStream.write_vectored SlowStream.write_all 5 (c_stream c) (c_writer c)
  with Ret (Some _) => True | _ => False end → step 5 9 c (item c).
Proof.
  intros Hr Hi. unfold item. destruct (write_item _ _ _ _ _ _) as [[[[s w] go]|]| |] eqn:Hq; [|done..].
  by apply (step_item _ _ _ _ _ _ s w go).
Qed.
Lemma steps1 : rtc (step 5 9) c0 c1.
Proof.
  apply (rtc_l _ c0 ca); [apply try_write_step; vm_compute; exact I|].
  apply (rtc_l _ ca cb); [apply try_write_step; vm_compute; exact I|].
  apply (rtc_l _ cb cc); [apply try_write_step; vm_compute; exact I|].
  apply (rtc_l _ cc c1); [apply item_step; [reflexivity|vm_compute; exact I]|apply rtc_refl].
Qed.
End DeliveryExample.

Lemma frames_delivered_witness :
  accepted DeliveryExample.c1 = [str "hello"; str "world"] ∧ c_stream DeliveryExample.c1 = [0; 5]%N ++ str "hello" ∧
  ∃ frames bytes, Forall2 u16be_frame [str "hello"; str "world"] frames ∧
    c_stream DeliveryExample.c1 = [] ++ bytes ∧ bytes `prefix_of` concat frames ∧
    (true = true → ∃ k, k + 1 = 2 ∧ read_frames k bytes = Some (take k [str "hello"; str "world"])).
Proof.
  split_and!; [reflexivity|reflexivity|].
  exact (@frames_delivered N _ _ _ _ _ _ id SlowStream.contract 5 9 DeliveryExample.c0 DeliveryExample.c1
    eq_refl eq_refl eq_refl DeliveryExample.steps1).
Defined.

(** ** What modelling showed *)

(** A call that returned [Ok] has queued its packet, no more: the write task
    may have left its loop already, before it cancels the sink's token, and
    the packet is never sent. *)
Example accepted_after_leave :
  let c := mkConn (c_writer DeliveryExample.c0) [] false [] in
  let c' := DeliveryExample.try_write (str "late") c in
  accepted c' = [str "late"] ∧ c_stream c' = [].
Proof. by vm_compute. Qed.
