(* ===== verification/NetInbound.v ===== *)
(** * From the stream to the dispatcher (base/src/net/rw.rs)

    The read loop of a connection gets its peer's bytes in chunks of any
    size and hands them to the application's splitter; what it means to do is
    that the dispatcher sees the packets of the stream, wherever the chunks
    were cut.  [Splitter] is what that needs of a splitter: a framing [cut]
    of the stream, and that the splitter's state and buffer stand for the
    bytes not cut yet.  The read loop is proved against the class; the
    length-prefixed framing has an instance, and with [NetDelivery] the whole
    way from a write call to the peer's dispatcher. *)
From S2P Require Import Prelude Errors Bytes NetFrame NetWriter NetClose NetConn NetDelivery.

(** ** The reference: packets one after the other *)

Section deliver.
Context {D : Type} (f : D → list byte → D * GlobalResult unit).

(** The packets go to [f] in order, up to the first one it refuses. *)
Fixpoint deliver (d : D) (pkts : list (list byte)) : D * GlobalResult unit :=
  match pkts with
  | [] => (d, Ok ())
  | p :: pkts =>
      let '(d, r) := f d p in
      match r with Ok _ => deliver d pkts | Err e => (d, Err e) end
  end.

Lemma deliver_app d ps qs :
  deliver d (ps ++ qs) =
  let '(d', r) := deliver d ps in match r with Ok _ => deliver d' qs | Err e => (d', Err e) end.
Proof.
  revert d. induction ps as [|p ps IH]; intros d; [done|].
  cbn [app deliver]. destruct (f d p) as [d1 [[]|e]]; [apply IH|done].
Qed.
End deliver.

(** What cutting the stream [buf] gives: its packets and what is left. *)
Definition framing := list byte → list (list byte) * list byte.

(** [holds s buf r]: the splitter's state and the buffer stand for the bytes
    [r] that are not cut yet. *)
Class Splitter {S D : Type} (s0 : S) (cut : framing) (holds : S → list byte → list byte → Prop)
    (feed_owned : S → list byte → (D → list byte → D * GlobalResult unit) → D →
       S * list byte * D * GlobalResult unit) : Prop := {
  cut_nil : cut [] = ([], []);
  cut_app a b : cut (a ++ b) = ((cut a).1 ++ (cut ((cut a).2 ++ b)).1, (cut ((cut a).2 ++ b)).2);
  holds_new : holds s0 [] [];
  holds_length s buf r : holds s buf r → length buf ≤ length r;
  feed_cuts s buf r chunk f d : holds s buf r →
    let '(s', buf', d', res) := feed_owned s (buf ++ chunk) f d in
    deliver f d (cut (r ++ chunk)).1 = (d', res) ∧
    (is_ok res = true → holds s' buf' (cut (r ++ chunk)).2);
}.

(** ** The read loop against the reference *)

Section inbound.
Context {Ip : Type} {S D : Type}.
Context (dispatch_owned : D → list byte → Ip * N → Protocol → D * GlobalResult unit).
Context (s0 : S) (cut : framing) (holds : S → list byte → list byte → Prop).
Context (feed_owned : S → list byte → (D → list byte → D * GlobalResult unit) → D →
           S * list byte * D * GlobalResult unit).
Context `{!Splitter s0 cut holds feed_owned}.
Notation read_loop := (read_loop dispatch_owned feed_owned).
Notation to_dispatcher addr := (λ d pkt, dispatch_owned d pkt addr TCP).

(** How a run over [chunks] ended, with [r] not cut before it: everything
    was delivered, or the dispatcher refused a packet, or a chunk overflowed
    the buffer. *)
Definition outcome (addr : Ip * N) (d : D) (r : list byte) (chunks : list (list byte))
    (d' : D) (e : option Exit) : Prop :=
  match e with
  | None => deliver (to_dispatcher addr) d (cut (r ++ concat chunks)).1 = (d', Ok ())
  | Some (Failed err) => deliver (to_dispatcher addr) d (cut (r ++ concat chunks)).1 = (d', Err err)
  | Some Broke => ∃ before c after, chunks = before ++ c :: after ∧
      deliver (to_dispatcher addr) d (cut (r ++ concat before)).1 = (d', Ok ()) ∧
      (MAX_BUF_SIZE < N.of_nat (length (cut (r ++ concat before)).2 + length c))%N
  end.

(** A splitter has nothing left to cut in what it left. *)
Lemma cut_again a : (cut (cut a).2).1 = [] ∧ (cut (cut a).2).2 = (cut a).2.
Proof.
  pose proof (cut_app a []) as H. rewrite !app_nil_r in H. destruct (cut a) as [ps r]. simpl in *.
  injection H as H1 H2. split; [|done]. by rewrite <- (app_nil_r ps) in H1 at 1; apply app_inv_head in H1.
Qed.

Lemma outcome_cons addr d c a chunks d1 d' e :
  deliver (to_dispatcher addr) d (cut a).1 = (d1, Ok ()) →
  outcome addr d1 (cut a).2 chunks d' e →
  ∀ r, a = r ++ c → outcome addr d r (c :: chunks) d' e.
Proof.
  intros Hd Ho r ->.
  assert (Hx : ∀ x, deliver (to_dispatcher addr) d (cut (r ++ concat (c :: x))).1 =
    deliver (to_dispatcher addr) d1 (cut ((cut (r ++ c)).2 ++ concat x)).1 ∧
    (cut (r ++ concat (c :: x))).2 = (cut ((cut (r ++ c)).2 ++ concat x)).2).
  { intros x. cbn [concat]. rewrite app_assoc, (cut_app (r ++ c) (concat x)). simpl. by rewrite deliver_app, Hd. }
  destruct e as [[|err]|]; simpl in *; [|by rewrite (proj1 (Hx _))..].
  destruct Ho as (before & c' & after & -> & Hb & Hm). exists (c :: before), c', after. split; [done|].
  cbn [concat] in *. destruct (Hx before) as [-> Hx2]. split; [done|]. by rewrite Hx2.
Qed.

Lemma read_loop_outcome addr chunks s buf r d :
  Forall (.≠ []) chunks → holds s buf r → (cut r).1 = [] → (cut r).2 = r →
  let '(s', buf', d', e) := read_loop addr s buf d (Data <$> chunks) in
  outcome addr d r chunks d' e ∧ (e = None → holds s' buf' (cut (r ++ concat chunks)).2).
Proof.
  intros Hne. revert s buf r d. induction Hne as [|c chunks Hc _ IH]; intros s buf r d Hh Hr1 Hr2.
  { simpl. rewrite app_nil_r, Hr1, Hr2. by simpl. }
  cbn [fmap list_fmap NetConn.read_loop read_turn]. destruct c as [|b c]; [done|]. set (chunk := b :: c) in *.
  destruct (N.ltb_spec MAX_BUF_SIZE (N.of_nat (length (buf ++ chunk)))) as [Hbig|_].
  { split; [|done]. exists [], chunk, chunks. split; [done|]. simpl. rewrite app_nil_r, Hr1, Hr2. split; [done|].
    rewrite length_app in Hbig. pose proof (holds_length _ _ _ Hh) as Hl. subst chunk. cbn [length] in *. lia. }
  pose proof (feed_cuts s buf r chunk (to_dispatcher addr) d Hh) as Hf.
  destruct (feed_owned s (buf ++ chunk) (to_dispatcher addr) d) as [[[s1 buf1] d1] [[]|err]] eqn:Hfe; destruct Hf as [Hd Hh1].
  - destruct (cut_again (r ++ chunk)) as [Hc1 Hc2]. pose proof (IH s1 buf1 _ d1 (Hh1 eq_refl) Hc1 Hc2) as HI.
    destruct (NetConn.read_loop _ _ _ _ _ _ _) as [[[s2 buf2] d2] e]. destruct HI as [Ho Hh2]. split.
    + by eapply outcome_cons.
    + intros He. cbn [concat]. rewrite app_assoc, (cut_app (r ++ chunk)). by apply Hh2.
  - split; [|done]. cbn [outcome concat]. rewrite app_assoc, (cut_app (r ++ chunk)). cbn [fst]. by rewrite deliver_app, Hd.
Qed.

(** C12: However the peer's bytes are cut into reads, the dispatcher gets the
    packets of the whole stream in order: all of them while the loop runs, up
    to the first one it refuses when the loop fails with its error; the loop
    gives up only when the bytes not cut yet and the next chunk are more than
    the buffer bound, and by then every packet before has been delivered. *)
Theorem read_loop_reassembles addr d chunks :
  Forall (.≠ []) chunks →
  let '(_, _, d', e) := read_loop addr s0 [] d (Data <$> chunks) in
  match e with
  | None => deliver (to_dispatcher addr) d (cut (concat chunks)).1 = (d', Ok ())
  | Some (Failed err) => deliver (to_dispatcher addr) d (cut (concat chunks)).1 = (d', Err err)
  | Some Broke => ∃ before c after, chunks = before ++ c :: after ∧
      deliver (to_dispatcher addr) d (cut (concat before)).1 = (d', Ok ()) ∧
      (MAX_BUF_SIZE < N.of_nat (length (cut (concat before)).2 + length c))%N
  end.
Proof.
  intros Hne. pose proof (read_loop_outcome addr chunks s0 [] [] d Hne holds_new) as H.
  rewrite cut_nil in H. specialize (H eq_refl eq_refl).
  destruct (NetConn.read_loop _ _ _ _ _ _ _) as [[[s' buf'] d'] e]. apply H.
Qed.

Context (dispatcher_close : D → Ip * N → Protocol → D * GlobalResult unit).

(** A run that is not stopped by the buffer bound, and the end of stream. *)
Lemma handle_tcp_outcome addr d chunks bound :
  Forall (.≠ []) chunks →
  (∀ a, a `prefix_of` concat chunks → (N.of_nat (length (cut a).2) ≤ bound)%N) →
  Forall (λ c, (bound + N.of_nat (length c) ≤ MAX_BUF_SIZE)%N) chunks →
  handle_tcp dispatch_owned dispatcher_close feed_owned addr s0 d ((Data <$> chunks) ++ [Data []]) =
  let '(d1, res) := deliver (to_dispatcher addr) d (cut (concat chunks)).1 in
  match res with
  | Ok _ => let '(d2, r) := dispatcher_close d1 addr TCP in (Some r, d2)
  | Err e => (Some (Err e), d1)
  end.
Proof.
  intros Hne Hb Hc. pose proof (read_loop_outcome addr chunks s0 [] [] d Hne holds_new) as H.
  rewrite cut_nil in H. specialize (H eq_refl eq_refl). unfold handle_tcp.
  assert (Happ : ∀ rs s buf d, read_loop addr s buf d (rs ++ [Data []]) =
    let '(s', buf', d', e) := read_loop addr s buf d rs in (s', buf', d', Some (default Broke e))).
  { clear. induction rs as [|x rs IH]; intros s buf d; [done|]. cbn [app NetConn.read_loop].
    destruct (read_turn _ _ _ _ _ _ _) as [[[s1 b1] d1] [e|]]; [done|apply IH]. }
  rewrite Happ. destruct (NetConn.read_loop _ _ _ _ _ _ _) as [[[s' buf'] d'] e]. destruct H as [H _].
  destruct e as [[|err]|]; simpl in *; [|by rewrite H..].
  destruct H as (before & c & after & -> & _ & Hm).
  apply Forall_app in Hc as [_ [Hc _]%Forall_cons].
  assert (Hp : concat before `prefix_of` concat (before ++ c :: after)) by (rewrite concat_app; by apply prefix_app_r).
  specialize (Hb _ Hp). lia.
Qed.
End inbound.

(** ** The length-prefixed framing *)

(** The packets of length-prefixed frames at the head of the stream; the
    fuel counts its bytes. *)
Fixpoint cut_frames (fuel : nat) (buf : list byte) : list (list byte) * list byte :=
  match fuel, buf with
  | S fuel, hi :: lo :: rest =>
      let n := N.to_nat (le_value [lo; hi]) in
      if (n <=? length rest)%nat
      then let '(ps, r) := cut_frames fuel (drop n rest) in (take n rest :: ps, r)
      else ([], buf)
  | _, _ => ([], buf)
  end.
Definition u16be_cut : framing := λ buf, cut_frames (length buf) buf.

Lemma cut_frames_fuel n m buf : length buf ≤ n → length buf ≤ m → cut_frames n buf = cut_frames m buf.
Proof.
  revert m buf. induction n as [|n IH]; intros m buf Hn Hm; [destruct buf; [by destruct m|simpl in *; lia]|].
  destruct m as [|m]; [destruct buf; [done|simpl in *; lia]|].
  destruct buf as [|hi [|lo rest]]; [done..|]. cbn [cut_frames]. case_match; [|done].
  rewrite (IH m); [done|rewrite length_drop; simpl in *; lia..].
Qed.

Lemma u16be_cut_frame hi lo rest :
  u16be_cut (hi :: lo :: rest) =
  let n := N.to_nat (le_value [lo; hi]) in
  if (n <=? length rest)%nat
  then (take n rest :: (u16be_cut (drop n rest)).1, (u16be_cut (drop n rest)).2)
  else ([], hi :: lo :: rest).
Proof.
  assert (Hs : ∀ fuel, cut_frames (S fuel) (hi :: lo :: rest) =
    let n := N.to_nat (le_value [lo; hi]) in
    if (n <=? length rest)%nat
    then let '(ps, r) := cut_frames fuel (drop n rest) in (take n rest :: ps, r)
    else ([], hi :: lo :: rest)) by done.
  unfold u16be_cut. cbn [length]. rewrite Hs. cbv zeta. case_match; [|done].
  rewrite (cut_frames_fuel (S (length rest)) (length (drop (N.to_nat (le_value [lo; hi])) rest)))
    by (rewrite length_drop; lia).
  by destruct (cut_frames _ _).
Qed.

Lemma u16be_cut_short buf : length buf < 2 → u16be_cut buf = ([], buf).
Proof. destruct buf as [|? [|? ?]]; [done..|simpl; lia]. Qed.

(** The head of the stream: nothing to cut, or a frame to take off. *)
Inductive u16be_view (buf : list byte) : Prop :=
  | view_frame data rest hi lo : buf = hi :: lo :: data ++ rest → le_value [lo; hi] = N.of_nat (length data) →
      u16be_cut buf = (data :: (u16be_cut rest).1, (u16be_cut rest).2) → u16be_view buf
  | view_rest : u16be_cut buf = ([], buf) → u16be_view buf.

Lemma u16be_cut_view buf : u16be_view buf.
Proof.
  destruct buf as [|hi [|lo rest]]; [by apply view_rest..|].
  pose proof (u16be_cut_frame hi lo rest) as H. cbv zeta in H.
  destruct (Nat.leb_spec (N.to_nat (le_value [lo; hi])) (length rest)) as [Hle|]; [|by apply view_rest].
  eapply (view_frame _ (take (N.to_nat (le_value [lo; hi])) rest) (drop (N.to_nat (le_value [lo; hi])) rest) hi lo); [|..|done].
  - by rewrite take_drop.
  - rewrite length_take, Nat.min_l, N2Nat.id; done.
Qed.

Lemma u16be_cut_cons hi lo data rest : le_value [lo; hi] = N.of_nat (length data) →
  u16be_cut (hi :: lo :: data ++ rest) = (data :: (u16be_cut rest).1, (u16be_cut rest).2).
Proof.
  intros Hv. rewrite u16be_cut_frame. cbv zeta. rewrite Hv, Nat2N.id, length_app, take_app_length, drop_app_length.
  destruct (Nat.leb_spec (length data) (length data + length rest)); [done|lia].
Qed.

Lemma u16be_cut_app a b :
  u16be_cut (a ++ b) = ((u16be_cut a).1 ++ (u16be_cut ((u16be_cut a).2 ++ b)).1, (u16be_cut ((u16be_cut a).2 ++ b)).2).
Proof.
  revert b. remember (length a) as n eqn:Hn. revert a Hn. induction (lt_wf n) as [n _ IH]. intros a -> b.
  destruct (u16be_cut_view a) as [data rest hi lo -> Hv Hc|Hc].
  - rewrite Hc. cbn [app fst snd]. rewrite <- app_assoc, u16be_cut_cons by done.
    rewrite (IH (length rest)); [done| |done]. simpl. rewrite length_app. lia.
  - rewrite Hc. simpl. by destruct (u16be_cut (a ++ b)).
Qed.

(** What is left is less than one frame. *)
Lemma u16be_cut_rest a : Forall byte_ok a → (N.of_nat (length (u16be_cut a).2) ≤ 65536)%N.
Proof.
  remember (length a) as n eqn:Hn. revert a Hn. induction (lt_wf n) as [n _ IH]. intros a -> Ha.
  destruct (u16be_cut_view a) as [data rest hi lo -> Hv ->|Hc].
  - simpl. apply (IH (length rest)); [simpl; rewrite length_app; lia|done|].
    by apply Forall_cons in Ha as [_ [_ [_ Ha]%Forall_app]%Forall_cons].
  - rewrite Hc. destruct a as [|hi [|lo rest]]; [done..|]. cbn [snd]. rewrite u16be_cut_frame in Hc. cbv zeta in Hc.
    destruct (Nat.leb_spec (N.to_nat (le_value [lo; hi])) (length rest)) as [|Hlt]; [done|].
    apply Forall_cons in Ha as [Hhi [Hlo _]%Forall_cons]. unfold byte_ok in *. simpl in *. lia.
Qed.

Lemma u16be_cut_frames packets frames : Forall2 u16be_frame packets frames →
  u16be_cut (concat frames) = (packets, []).
Proof.
  induction 1 as [|d b packets frames (p & Hp & Hw) _ IH]; [done|].
  assert (Hd : (N.of_nat (length d) ≤ u16_max)%N).
  { simpl in Hp. unfold u16be_encode_tcp in Hp. destruct (N.ltb_spec u16_max (N.of_nat (length d))); [done|lia]. }
  destruct (u16be_encode d Hd) as (p' & hi & lo & Hp' & Hw' & Hv). simpl in Hp.
  assert (p' = p) as -> by congruence. assert (b = hi :: lo :: d) as -> by congruence.
  cbn [concat app]. by rewrite u16be_cut_cons, IH.
Qed.

(** The packets in a beginning of the stream are the first packets. *)
Lemma u16be_cut_prefix bytes packets frames : Forall2 u16be_frame packets frames → bytes `prefix_of` concat frames →
  (u16be_cut bytes).1 `prefix_of` packets.
Proof.
  intros Hf [x Hx]. apply u16be_cut_frames in Hf. rewrite Hx, u16be_cut_app in Hf. injection Hf as <- _. by eexists.
Qed.

(** ** A splitter for the length-prefixed framing

    It takes the length off the buffer as soon as it is there and remembers
    it until the packet is complete. *)
Module LengthSplitter.
Definition state := option nat.
Definition header (st : state) (buf : list byte) : option (nat * list byte) :=
  match st, buf with
  | Some n, _ => Some (n, buf)
  | None, hi :: lo :: rest => Some (N.to_nat (le_value [lo; hi]), rest)
  | None, _ => None
  end.

Section feed.
Context {D : Type}.
Fixpoint feed (fuel : nat) (st : state) (buf : list byte) (f : D → list byte → D * GlobalResult unit) (d : D) :
    state * list byte * D * GlobalResult unit :=
  match fuel, header st buf with
  | S fuel, Some (n, rest) =>
      if (n <=? length rest)%nat
      then
        let '(d, r) := f d (take n rest) in
        match r with
        | Ok _ => feed fuel None (drop n rest) f d
        | Err e => (None, drop n rest, d, Err e)
        end
      else (Some n, rest, d, Ok ())
  | _, _ => (st, buf, d, Ok ())
  end.
(** The fuel: a turn takes two bytes, but the first one when the length was
    taken before. *)
Definition feed_owned (st : state) (buf : list byte) (f : D → list byte → D * GlobalResult unit) (d : D) :
    state * list byte * D * GlobalResult unit := feed (S (length buf)) st buf f d.

Definition holds (st : state) (buf r : list byte) : Prop :=
  match st with
  | None => r = buf
  | Some n => ∃ hi lo, le_value [lo; hi] = N.of_nat n ∧ r = hi :: lo :: buf
  end.

Lemma header_holds st buf r : holds st buf r →
  match header st buf with
  | Some (n, rest) => ∃ hi lo, le_value [lo; hi] = N.of_nat n ∧ r = hi :: lo :: rest
  | None => u16be_cut r = ([], r)
  end.
Proof.
  destruct st as [n|]; [done|]. intros ->. destruct buf as [|hi [|lo rest]]; [done..|]. simpl header.
  exists hi, lo. by rewrite N2Nat.id.
Qed.

Lemma feed_spec fuel st buf r f d : holds st buf r → length r ≤ 2 * fuel + 1 →
  let '(st', buf', d', res) := feed fuel st buf f d in
  deliver f d (u16be_cut r).1 = (d', res) ∧ (is_ok res = true → holds st' buf' (u16be_cut r).2).
Proof.
  revert st buf r d. induction fuel as [|fuel IH]; intros st buf r d Hh Hl.
  { simpl. by rewrite u16be_cut_short by (simpl in *; lia). }
  cbn [feed]. apply header_holds in Hh as Hr. destruct (header st buf) as [[n rest]|]; [|by rewrite Hr].
  destruct Hr as (hi & lo & Hv & ->). rewrite u16be_cut_frame. cbv zeta. rewrite Hv, Nat2N.id.
  destruct (n <=? length rest)%nat; [|by split; [|exists hi, lo]].
  cbn [fst snd deliver]. destruct (f d (take n rest)) as [d1 [[]|e]]; [|done].
  apply IH; [done|]. rewrite length_drop. simpl in Hl. lia.
Qed.

#[global] Instance splitter : Splitter None u16be_cut holds feed_owned.
Proof.
  split; [done|apply u16be_cut_app|done| |].
  - intros [n|] buf r; [intros (hi & lo & _ & ->); simpl; lia|by intros ->].
  - intros st buf r chunk f d Hh. apply feed_spec; [|rewrite length_app].
    + destruct st as [n|]; [|by rewrite Hh]. destruct Hh as (hi & lo & Hv & ->). by exists hi, lo.
    + destruct st as [n|]; [destruct Hh as (hi & lo & _ & ->)|rewrite Hh]; simpl; rewrite ?length_app; lia.
Qed.
End feed.
End LengthSplitter.

(** ** The whole way *)

Section end_to_end.
Context {Ip : Type} `{Countable Ip}.
Context {W : Type} (write : W → list byte → W * result nat IoError).
Context (write_vectored : W → list (list byte) → W * result nat IoError).
Context (write_all : W → list byte → W * result unit IoError) (sent : W → list byte).
Context `{!AsyncWrite write write_vectored write_all sent}.
Notation Conn := (Conn (Ip := Ip) (E := U16BeLengthPrefixEncoder) (W := W)).
Context {S D : Type}.
Context (dispatch_owned : D → list byte → Ip * N → Protocol → D * GlobalResult unit).
Context (dispatcher_close : D → Ip * N → Protocol → D * GlobalResult unit).
Context (s0 : S) (holds : S → list byte → list byte → Prop).
Context (feed_owned : S → list byte → (D → list byte → D * GlobalResult unit) → D →
           S * list byte * D * GlobalResult unit).
Context `{!Splitter s0 u16be_cut holds feed_owned}.

(** A beginning of the frames of [acc], cut into reads anyhow, reaches the
    dispatcher as a beginning of [acc]: as far as its frames are whole. *)
Lemma frames_dispatched acc frames chunks addr d :
  Forall2 u16be_frame acc frames → concat chunks `prefix_of` concat frames →
  Forall (λ chunk, chunk ≠ [] ∧ Forall byte_ok chunk ∧ (N.of_nat (length chunk) ≤ MAX_BUF_SIZE - 65536)%N) chunks →
  ∃ k, k ≤ length acc ∧
    (∀ j, j ≤ length acc → concat (take j frames) `prefix_of` concat chunks → j ≤ k) ∧
    (∀ j, j ≤ length acc → concat chunks = concat (take j frames) → k = j) ∧
    handle_tcp dispatch_owned dispatcher_close feed_owned addr s0 d ((Data <$> chunks) ++ [Data []]) =
    let '(d1, res) := deliver (λ d pkt, dispatch_owned d pkt addr TCP) d (take k acc) in
    match res with
    | Ok _ => let '(d2, r) := dispatcher_close d1 addr TCP in (Some r, d2)
    | Err e => (Some (Err e), d1)
    end.
Proof.
  intros Hf Hp Hc. destruct (u16be_cut_prefix _ _ _ Hf Hp) as [x Hx].
  assert (Hk : (u16be_cut (concat chunks)).1 = take (length (u16be_cut (concat chunks)).1) acc)
    by (rewrite Hx; by rewrite take_app_length).
  exists (length (u16be_cut (concat chunks)).1). split_and!.
  - rewrite Hx, length_app. lia.
  - intros j Hj [y Hy]. rewrite Hy, u16be_cut_app. cbn [fst]. rewrite length_app.
    rewrite (u16be_cut_frames (take j acc)) by by apply Forall2_take. simpl. rewrite length_take. lia.
  - intros j Hj Heq. rewrite Heq, (u16be_cut_frames (take j acc)) by by apply Forall2_take. simpl. rewrite length_take. lia.
  - apply Forall_and in Hc as [Hne Hc]. apply Forall_and in Hc as [Hok Hlen]. rewrite <- Hk.
    rewrite (handle_tcp_outcome dispatch_owned s0 u16be_cut holds feed_owned dispatcher_close addr d chunks 65536); [done|done| |].
    + intros a [y Hy]. apply u16be_cut_rest. assert (Hall : Forall byte_ok (concat chunks)) by by apply Forall_concat.
      rewrite Hy in Hall. by apply Forall_app in Hall as [? _].
    + eapply Forall_impl; [exact Hlen|]. intros y Hy. simpl in *. unfold MAX_BUF_SIZE in *. lia.
Qed.

(** C9: From the calls to the peer's dispatcher: whatever tasks write to a
    queued connection with the length-prefix encoder, and however the bytes
    its stream took are cut into reads at the other end, the dispatcher there
    is handed the data of the first [k] accepted calls, each once and in
    order (all that have left the channel while the write task runs), up to
    the first packet it refuses; it is told of the end of stream unless it
    refused one. *)
Theorem accepted_data_dispatched (ch tok : N) (c0 c : Conn) chunks addr d :
  encoder (c_writer c0) = U16Be → queue ch (c_writer c0) = [] → accepted c0 = [] →
  rtc (step write write_vectored write_all ch tok) c0 c →
  sent (c_stream c) = sent (c_stream c0) ++ concat chunks →
  Forall (λ chunk, chunk ≠ [] ∧ Forall byte_ok chunk ∧ (N.of_nat (length chunk) ≤ MAX_BUF_SIZE - 65536)%N) chunks →
  ∃ k, k ≤ length (accepted c) ∧
    (c_running c = true → k + length (queue ch (c_writer c)) = length (accepted c)) ∧
    handle_tcp dispatch_owned dispatcher_close feed_owned addr s0 d ((Data <$> chunks) ++ [Data []]) =
    let '(d1, res) := deliver (λ d pkt, dispatch_owned d pkt addr TCP) d (take k (accepted c)) in
    match res with
    | Ok _ => let '(d2, r) := dispatcher_close d1 addr TCP in (Some r, d2)
    | Err e => (Some (Err e), d1)
    end.
Proof.
  intros He Hq Ha Hs Hb Hc.
  destruct (stream_frames write write_vectored write_all sent ch tok c0 c He Hq Ha Hs)
    as (frames & bytes & Hf & Hb' & Hp & Hr).
  rewrite Hb in Hb'. apply app_inv_head in Hb' as <-. clear Hb.
  destruct (frames_dispatched (accepted c) frames chunks addr d Hf Hp Hc) as (k & Hle & _ & Hj & Hd).
  exists k. split_and!; [done| |done]. intros Hrun. destruct (Hr Hrun) as (j & Hlen & Heq).
  by rewrite (Hj j ltac:(lia) Heq).
Qed.
End end_to_end.

(** ** Witnesses *)

Module InboundExample.
(** A dispatcher that keeps the packets, and refuses an empty one. *)
Definition dispatch (d : list (list byte)) (pkt : list byte) (_ : N * N) (_ : Protocol) :
    list (list byte) * GlobalResult unit :=
  if decide (pkt = []) then (d, Err (SysErr "empty packet")) else (d ++ [pkt], Ok ()).
Definition on_close (d : list (list byte)) (_ : N * N) (_ : Protocol) : list (list byte) * GlobalResult unit :=
  (d ++ [str "bye"], Ok ()).
Definition addr : N * N := (10, 80)%N.
(** Two frames, cut inside the length and inside the data. *)
Definition chunks : list (list byte) := [[0]; [2; 7; 8; 0]; [1]; [9]]%N.
End InboundExample.
Import InboundExample.

Lemma read_loop_reassembles_witness :
  let '(_, _, d', e) := read_loop dispatch LengthSplitter.feed_owned addr None [] [] (Data <$> chunks) in
  match e with
  | None => deliver (λ d pkt, dispatch d pkt addr TCP) [] [[7; 8]; [9]]%N = (d', Ok ())
  | Some (Failed err) => deliver (λ d pkt, dispatch d pkt addr TCP) [] [[7; 8]; [9]]%N = (d', Err err)
  | Some Broke => ∃ before c after, chunks = before ++ c :: after ∧
      deliver (λ d pkt, dispatch d pkt addr TCP) [] (u16be_cut (concat before)).1 = (d', Ok ()) ∧
      (MAX_BUF_SIZE < N.of_nat (length (u16be_cut (concat before)).2 + length c))%N
  end.
Proof.
  apply (read_loop_reassembles dispatch None u16be_cut LengthSplitter.holds LengthSplitter.feed_owned addr [] chunks).
  repeat constructor; done.
Defined.

(** The first of the two accepted calls of the delivery example is on the
    stream; its seven bytes arrive in two reads. *)
Lemma accepted_data_dispatched_witness :
  ∃ k, k ≤ 2 ∧ (true = true → k + 1 = 2) ∧
    handle_tcp dispatch on_close LengthSplitter.feed_owned addr None []
      ((Data <$> [[0; 5; 104]; [101; 108; 108; 111]]%N) ++ [Data []]) =
    let '(d1, res) := deliver (λ d pkt, dispatch d pkt addr TCP) [] (take k [str "hello"; str "world"]) in
    match res with
    | Ok _ => let '(d2, r) := on_close d1 addr TCP in (Some r, d2)
    | Err e => (Some (Err e), d1)
    end.
Proof.
  apply (accepted_data_dispatched (Ip := N) (AsyncWrite0 := SlowStream.contract) SlowStream.write SlowStream.write_vectored SlowStream.write_all id
    dispatch on_close None LengthSplitter.holds LengthSplitter.feed_owned 5 9
    DeliveryExample.c0 DeliveryExample.c1 [[0; 5; 104]; [101; 108; 108; 111]]%N addr []
    eq_refl eq_refl eq_refl DeliveryExample.steps1 eq_refl).
  repeat constructor; try done; unfold byte_ok, MAX_BUF_SIZE; simpl; lia.
Defined.

(** ** What modelling showed *)

(** A packet the dispatcher refuses ends the read loop with its error, and
    the dispatcher is not told that the connection ends. *)
Example refused_packet_ends_loop :
  handle_tcp dispatch on_close LengthSplitter.feed_owned addr None [] [Data [0; 1; 9; 0; 0]%N; Data []] =
  (Some (Err (SysErr "empty packet")), [[9%N]]).
Proof. vm_compute. done. Qed.
