(* ===== verification/NetDirect.v ===== *)
(** * Direct writes of many tasks (base/src/net/rw.rs)

    Without a queue every clone of a [DirectTcpSink] writes to the stream
    itself, under its lock: a call looks at the token, encodes, waits for the
    lock, looks at the token again, and writes in turns of any size until all
    is written, the stream fails, or the token is cancelled; on an error it
    cancels the token before it gives the lock back.  That keeps the stream
    in whole packets: nothing follows a packet that broke off.  A call whose
    future is dropped between two turns cancels nothing, and the next packet
    goes behind the torn one. *)
From S2P Require Import Prelude Errors Bytes NetFrame NetWriter NetClose NetConn NetDelivery NetInbound.

Section direct.
Context {E : Type} `{PacketEncoder E}.
Context {W : Type} (write : W → list byte → W * result nat IoError).
Context (write_vectored : W → list (list byte) → W * result nat IoError).
Context (write_all : W → list byte → W * result unit IoError) (sent : W → list byte).

(** A call of [write]: it awaits the lock with its packet, or it holds the
    lock and has [first] and [second] left to write. *)
Inductive Call :=
  | Awaiting (data : list byte) (packet : EncodedPacket)
  | Writing (data first second : list byte).

(** The sink with its stream, the calls under way, the lock's holder, and
    the data of the calls that returned [Ok]. *)
Record DirectSink := mkDirect {
  d_encoder : E; d_stream : W; d_cancelled : bool;
  d_calls : gmap N Call; d_lock : option N; d_accepted : list (list byte)
}.
Implicit Types d : DirectSink.

Definition set_call (id : N) (c : Call) d : DirectSink :=
  mkDirect (d_encoder d) (d_stream d) (d_cancelled d) (<[id := c]> (d_calls d)) (d_lock d) (d_accepted d).
Definition set_stream (s : W) d : DirectSink :=
  mkDirect (d_encoder d) s (d_cancelled d) (d_calls d) (d_lock d) (d_accepted d).
Definition cancel_sink d : DirectSink :=
  mkDirect (d_encoder d) (d_stream d) true (d_calls d) (d_lock d) (d_accepted d).

(** The call is over: with its data when it returned [Ok]. *)
Definition leave (id : N) (lock : option N) (ok : option (list byte)) d : DirectSink :=
  mkDirect (d_encoder d) (d_stream d) (d_cancelled d) (delete id (d_calls d)) lock
    (d_accepted d ++ option_list ok).

(** [write] up to the wait for the lock. *)
Definition call_begin d (data : list byte) : exec (GlobalResult EncodedPacket) :=
  if d_cancelled d then Ret (Err (SysErr "tcp sink is closed")) else encode_tcp (d_encoder d) data.

(** What [write_encoded_packet] has to write, as its loops hold it. *)
Definition slices (p : EncodedPacket) : exec (list byte * list byte) :=
  match p with
  | Single data => Ret ([], data)
  | WithInlinePrefix prefix payload => pre ← as_slice prefix; Ret (pre, payload)
  end.

(** The call got the lock. *)
Definition call_locked (id : N) (data : list byte) (p : EncodedPacket) d : exec DirectSink :=
  if d_cancelled d then Ret (leave id None None d)
  else
    '(first, second) ← slices p;
    Ret (mkDirect (d_encoder d) (d_stream d) (d_cancelled d) (<[id := Writing data first second]> (d_calls d))
           (Some id) (d_accepted d)).

(** A turn of the write; the end of it, in full or with an error, which
    cancels the token. *)
Definition call_turn (id : N) (data first second : list byte) d : DirectSink :=
  match first, second with
  | [], [] => leave id None (Some data) d
  | _, _ =>
      let '(s, r) := write_turn write write_vectored (d_stream d) first second in
      match r with
      | Err _ | Ok O => leave id None None (cancel_sink (set_stream s d))
      | Ok written =>
          set_call id
            (if (written <? length first)%nat then Writing data (drop written first) second
             else Writing data [] (drop (Nat.min (written - length first) (length second)) second))
            (set_stream s d)
      end
  end.

(** The select of [write] found its token cancelled. *)
Definition call_cancelled (id : N) d : DirectSink := leave id None None (cancel_sink d).

(** Calls, their turns, and cancellations from anywhere, interleaved; a call
    that still waits may be dropped. *)
Inductive dstep d : DirectSink → Prop :=
  | ds_begin id data p :
      d_calls d !! id = None → call_begin d data = Ret (Ok p) → dstep d (set_call id (Awaiting data p) d)
  | ds_lock id data p d' :
      d_calls d !! id = Some (Awaiting data p) → d_lock d = None → call_locked id data p d = Ret d' → dstep d d'
  | ds_turn id data first second :
      d_calls d !! id = Some (Writing data first second) → dstep d (call_turn id data first second d)
  | ds_cancelled id data first second :
      d_calls d !! id = Some (Writing data first second) → d_cancelled d = true → dstep d (call_cancelled id d)
  | ds_drop_waiting id data p :
      d_calls d !! id = Some (Awaiting data p) → dstep d (leave id (d_lock d) None d)
  | ds_cancel : dstep d (cancel_sink d).

(** A call whose future is dropped while it writes: the guard of the lock
    goes with it. *)
Definition drop_writing (id : N) d : DirectSink := leave id None None d.

(** ** The stream stays in whole packets *)

Definition framed (e : E) (data b : list byte) : Prop := ∃ p, encodes e data p ∧ wires p b.

(** [frames] went out in full, then [part] of the packet whose call holds
    the lock, or of one that broke off. *)
Record dinv (s0 : list byte) (e : E) d (frames : list (list byte)) (part : list byte) : Prop := {
  di_encoder : d_encoder d = e;
  di_accepted : Forall2 (framed e) (d_accepted d) frames;
  di_sent : sent (d_stream d) = s0 ++ concat frames ++ part;
  di_awaiting id data p : d_calls d !! id = Some (Awaiting data p) → encodes e data p;
  di_holder id data first second : d_calls d !! id = Some (Writing data first second) → d_lock d = Some id;
  di_lock : match d_lock d with
    | Some id => ∃ data first second, d_calls d !! id = Some (Writing data first second) ∧
        framed e data (part ++ first ++ second)
    | None => part = [] ∨ (d_cancelled d = true ∧ ∃ data b, framed e data b ∧ part `prefix_of` b)
    end
}.

Lemma slices_wires p first second : slices p = Ret (first, second) → wires p (first ++ second).
Proof.
  destruct p as [data|prefix payload]; simpl; [by intros [= <- <-]|]. unfold wires. simpl.
  destruct (as_slice prefix); [|done..]. by intros [= <- <-].
Qed.

Lemma delete_call (m : gmap N Call) (i id : N) c : delete id m !! i = Some c → i ≠ id ∧ m !! i = Some c.
Proof. intros [Hne Hc]%lookup_delete_Some. split; [congruence|done]. Qed.

(** A call that gives the lock back. *)
Lemma leave_inv s0 e d frames part id ok frames' part' :
  dinv s0 e d frames part →
  Forall2 (framed e) (d_accepted d ++ option_list ok) frames' →
  concat frames' ++ part' = concat frames ++ part →
  d_lock d = Some id →
  (part' = [] ∨ (d_cancelled d = true ∧ ∃ data b, framed e data b ∧ part' `prefix_of` b)) →
  dinv s0 e (leave id None ok d) frames' part'.
Proof.
  intros [He Ha Hs Hw Hh Hl] Hacc Hcat Hlock Hpart. split; simpl; [done|done| | | |done].
  - by rewrite Hs, Hcat.
  - intros i data p [_ Hc]%delete_call. by eapply Hw.
  - intros i data f s [Hne Hc]%delete_call. apply Hh in Hc. congruence.
Qed.

Lemma cancel_inv s0 e d frames part : dinv s0 e d frames part → dinv s0 e (cancel_sink d) frames part.
Proof.
  intros [He Ha Hs Hw Hh Hl]. split; try done. simpl. destruct (d_lock d); [done|].
  destruct Hl as [->|[_ Hl]]; [by left|by right].
Qed.

Context `{!AsyncWrite write write_vectored write_all sent}.

Lemma call_turn_eq id data first second d : first ++ second ≠ [] →
  call_turn id data first second d =
  let '(s, r) := write_turn write write_vectored (d_stream d) first second in
  match r with
  | Err _ | Ok O => leave id None None (cancel_sink (set_stream s d))
  | Ok written =>
      set_call id
        (if (written <? length first)%nat then Writing data (drop written first) second
         else Writing data [] (drop (Nat.min (written - length first) (length second)) second))
        (set_stream s d)
  end.
Proof. by destruct first, second. Qed.

(** What is left after a turn that wrote [n] bytes. *)
Lemma slices_left n (first second : list byte) : n ≤ length (first ++ second) →
  ∃ first' second', drop n (first ++ second) = first' ++ second' ∧ ∀ data : list byte,
    (if (n <? length first)%nat then Writing data (drop n first) second
     else Writing data [] (drop (Nat.min (n - length first) (length second)) second)) = Writing data first' second'.
Proof.
  rewrite length_app. intros Hn. rewrite drop_app. destruct (Nat.ltb_spec n (length first)).
  - eexists _, _. split; [|done]. by replace (n - length first) with 0 by lia.
  - eexists [], _. split; [|done]. rewrite (drop_ge first) by lia. by rewrite Nat.min_l by lia.
Qed.

Lemma turn_inv s0 e d frames part id data first second :
  dinv s0 e d frames part → d_calls d !! id = Some (Writing data first second) →
  ∃ frames' part', dinv s0 e (call_turn id data first second d) frames' part'.
Proof.
  intros Hi Hc. pose proof (di_holder _ _ _ _ _ Hi _ _ _ _ Hc) as Hlock. pose proof (di_lock _ _ _ _ _ Hi) as Hl.
  rewrite Hlock in Hl. destruct Hl as (data' & f' & s' & Hc' & Hfr). rewrite Hc in Hc'. injection Hc' as <- <- <-.
  destruct (decide (first ++ second = [])) as [Hnil|Hne].
  { rewrite Hnil, app_nil_r in Hfr. apply app_nil in Hnil as [-> ->]. exists (frames ++ [part]), [].
    eapply leave_inv; [done| | |done|by left].
    - apply Forall2_app; [apply Hi|]. by repeat constructor.
    - by rewrite concat_app, app_nil_r; simpl; rewrite app_nil_r. }
  rewrite call_turn_eq by done. pose proof (turn_spec write write_vectored write_all sent (d_stream d) first second Hne) as Ht.
  destruct (write_turn _ _ _ _ _) as [w r].
  assert (Hgone : sent w = sent (d_stream d) → dinv s0 e (leave id None None (cancel_sink (set_stream w d))) frames part).
  { intros Hw. eapply (leave_inv s0 e (cancel_sink (set_stream w d)) frames part); [|by rewrite app_nil_r; apply Hi|done|done|].
    - apply cancel_inv. destruct Hi as [He Ha Hs Hw' Hh Hl]. split; simpl; try done. congruence.
    - right. split; [done|]. exists data, (part ++ first ++ second). split; [done|by apply prefix_app_r]. }
  destruct r as [[|n]|err].
  - exists frames, part. apply Hgone. destruct Ht as [_ ->]. by rewrite take_0, app_nil_r.
  - destruct Ht as [Hn Hw]. destruct (slices_left (Datatypes.S n) first second Hn) as (f' & s' & Hleft & Heq). rewrite Heq.
    exists frames, (part ++ take (Datatypes.S n) (first ++ second)). destruct Hi as [He Ha Hs Hw' Hh Hl].
    split; simpl; [done|done|by rewrite Hw, Hs, !app_assoc| | |].
    + intros i dt p. rewrite lookup_insert_Some. intros [[_ ?]|[_ ?]]; [done|by eapply Hw'].
    + intros i dt f s. rewrite lookup_insert_Some. intros [[<- _]|[_ ?]]; [done|by eapply Hh].
    + rewrite Hlock. exists data, f', s'. rewrite lookup_insert_eq. split; [done|].
      by rewrite <- Hleft, <- app_assoc, take_drop.
  - exists frames, part. by apply Hgone.
Qed.

Lemma lock_inv s0 e d frames part id data p d' :
  dinv s0 e d frames part → d_calls d !! id = Some (Awaiting data p) → d_lock d = None →
  call_locked id data p d = Ret d' → dinv s0 e d' frames part.
Proof.
  intros Hi Hc Hlock. pose proof (di_lock _ _ _ _ _ Hi) as Hl. rewrite Hlock in Hl. unfold call_locked.
  destruct Hi as [He Ha Hs Hw Hh Hl']. destruct (d_cancelled d) eqn:Hcan.
  - intros [= <-]. split; simpl; [done|by rewrite app_nil_r|done| | |by rewrite Hcan].
    + intros i dt q [_ ?]%delete_call. by eapply Hw.
    + intros i dt f s [_ ?%Hh]%delete_call. congruence.
  - destruct (slices p) as [[f s]| |] eqn:Hsl; [|done..]. intros [= <-].
    destruct Hl as [->|[? _]]; [|done]. split; simpl; try done.
    + intros i dt q. rewrite lookup_insert_Some. intros [[_ ?]|[_ ?]]; [done|by eapply Hw].
    + intros i dt f' s'. rewrite lookup_insert_Some. intros [[<- _]|[_ ?%Hh]]; [done|congruence].
    + exists data, f, s. rewrite lookup_insert_eq. split; [done|]. exists p. split; [by eapply Hw|by apply slices_wires].
Qed.

Lemma dstep_inv s0 e d d' frames part : dinv s0 e d frames part → dstep d d' →
  ∃ frames' part', dinv s0 e d' frames' part'.
Proof.
  intros Hi Hst. destruct Hst as [id data p Hn Hb|id data p d' Hc Hlock Hd|id data f s Hc|id data f s Hc Hcan|id data p Hc|].
  - exists frames, part. destruct Hi as [He Ha Hs Hw Hh Hl]. split; simpl; try done.
    + intros i dt q. rewrite lookup_insert_Some. intros [[<- [= <- <-]]|[_ ?]]; [|by eapply Hw].
      unfold call_begin in Hb. destruct (d_cancelled d); [done|]. by rewrite He in Hb.
    + intros i dt f s. rewrite lookup_insert_Some. intros [[_ ?]|[_ ?]]; [done|by eapply Hh].
    + destruct (d_lock d) as [j|]; [|done]. destruct Hl as (dt & f & s & Hj & Hfr). exists dt, f, s.
      rewrite lookup_insert_ne by congruence. done.
  - exists frames, part. by eapply lock_inv.
  - by eapply turn_inv.
  - exists frames, part. pose proof (di_holder _ _ _ _ _ Hi _ _ _ _ Hc) as Hlock. pose proof (di_lock _ _ _ _ _ Hi) as Hl.
    rewrite Hlock in Hl. destruct Hl as (data' & f' & s' & _ & Hfr).
    eapply (leave_inv s0 e (cancel_sink d) frames part); [by apply cancel_inv|by rewrite app_nil_r; apply Hi|done|done|].
    right. split; [done|]. exists data', (part ++ f' ++ s'). split; [done|by apply prefix_app_r].
  - exists frames, part. destruct Hi as [He Ha Hs Hw Hh Hl]. split; simpl; [done|by rewrite app_nil_r|done| | |].
    + intros i dt q [_ ?]%delete_call. by eapply Hw.
    + intros i dt f s [_ ?]%delete_call. by eapply Hh.
    + destruct (d_lock d) as [j|]; [|done]. destruct Hl as (dt & f & s & Hj & Hfr). exists dt, f, s.
      rewrite lookup_delete_ne by congruence. done.
  - exists frames, part. by apply cancel_inv.
Qed.

Lemma dsteps_inv s0 e d d' : rtc dstep d d' → (∃ frames part, dinv s0 e d frames part) →
  ∃ frames part, dinv s0 e d' frames part.
Proof. induction 1 as [|a b c Hs _ IH]; [done|]. intros (frames & part & Hi). by eapply IH, dstep_inv. Qed.
End direct.

(** ** To the peer's dispatcher *)

Section end_to_end.
Context {W : Type} (write : W → list byte → W * result nat IoError).
Context (write_vectored : W → list (list byte) → W * result nat IoError).
Context (write_all : W → list byte → W * result unit IoError) (sent : W → list byte).
Context `{!AsyncWrite write write_vectored write_all sent}.
Context {Ip S D : Type}.
Context (dispatch_owned : D → list byte → Ip * N → Protocol → D * GlobalResult unit).
Context (dispatcher_close : D → Ip * N → Protocol → D * GlobalResult unit).
Context (s0 : S) (holds : S → list byte → list byte → Prop).
Context (feed_owned : S → list byte → (D → list byte → D * GlobalResult unit) → D →
           S * list byte * D * GlobalResult unit).
Context `{!Splitter s0 u16be_cut holds feed_owned}.
Notation DirectSink := (DirectSink (E := U16BeLengthPrefixEncoder) (W := W)).

(** What is on the stream: the frames of the accepted data, and at most the
    beginning of one frame more, while a call writes it or after it broke
    off. *)
Lemma direct_frames (d0 d : DirectSink) :
  d_encoder d0 = U16Be → d_calls d0 = ∅ → d_lock d0 = None → d_accepted d0 = [] →
  rtc (dstep write write_vectored) d0 d →
  ∃ frames part more, Forall2 u16be_frame (d_accepted d) frames ∧
    sent (d_stream d) = sent (d_stream d0) ++ concat frames ++ part ∧
    match more with
    | Some (data, b) => u16be_frame data b ∧ part `prefix_of` b ∧ (d_lock d = None → d_cancelled d = true)
    | None => part = []
    end.
Proof.
  intros He Hc Hl Ha Hs.
  destruct (dsteps_inv write write_vectored write_all sent (sent (d_stream d0)) U16Be d0 d Hs)
    as (frames & part & [He' Ha' Hs' Hw Hh Hlk]).
  { exists [], []. split; [done|by rewrite Ha|by rewrite !app_nil_r|by rewrite Hc; intros *; rewrite lookup_empty..|].
    rewrite Hl. by left. }
  exists frames, part. destruct (d_lock d) as [id|] eqn:Hlock.
  - destruct Hlk as (data & f & s & _ & Hfr). exists (Some (data, part ++ f ++ s)).
    split_and!; [done|done|done|by apply prefix_app_r|done].
  - destruct Hlk as [->|(Hcan & data & b & Hfr & Hp)]; [by exists None|]. by exists (Some (data, b)).
Qed.

(** C11: However many tasks write to a direct sink with the length-prefix
    encoder, wait for its lock, are cancelled or give up waiting, and however
    the stream takes its bytes and they are cut into reads at the other end,
    the dispatcher there is handed the data of every call that returned [Ok],
    each once and in order, and at most one packet more: that of a call under
    way, or of one after which the sink is cancelled. *)
Theorem direct_data_dispatched (d0 d : DirectSink) chunks addr x :
  d_encoder d0 = U16Be → d_calls d0 = ∅ → d_lock d0 = None → d_accepted d0 = [] →
  rtc (dstep write write_vectored) d0 d →
  sent (d_stream d) = sent (d_stream d0) ++ concat chunks →
  Forall (λ chunk, chunk ≠ [] ∧ Forall byte_ok chunk ∧ (N.of_nat (length chunk) ≤ MAX_BUF_SIZE - 65536)%N) chunks →
  ∃ more, length more ≤ 1 ∧ (d_lock d = None → d_cancelled d = false → more = []) ∧
    handle_tcp dispatch_owned dispatcher_close feed_owned addr s0 x ((Data <$> chunks) ++ [Data []]) =
    let '(x1, res) := deliver (λ x pkt, dispatch_owned x pkt addr TCP) x (d_accepted d ++ more) in
    match res with
    | Ok _ => let '(x2, r) := dispatcher_close x1 addr TCP in (Some r, x2)
    | Err e => (Some (Err e), x1)
    end.
Proof.
  intros He Hc Hl Ha Hs Hsent Hch.
  destruct (direct_frames d0 d He Hc Hl Ha Hs) as (frames & part & more & Hf & Hst & Hm).
  rewrite Hsent in Hst. apply app_inv_head in Hst. pose proof (Forall2_length _ _ _ Hf) as Hlen.
  destruct more as [[data b]|].
  - destruct Hm as (Hfb & Hp & Hcan).
    destruct (frames_dispatched dispatch_owned dispatcher_close s0 holds feed_owned
      (d_accepted d ++ [data]) (frames ++ [b]) chunks addr x) as (k & Hk & Hj & Heq & ->); [|by rewrite Hst, concat_app; simpl;
      rewrite app_nil_r; apply prefix_app|done|].
    { apply Forall2_app; [done|by repeat constructor]. }
    rewrite length_app in *. simpl in *.
    assert (length (d_accepted d) ≤ k) as Hle.
    { apply Hj; [lia|]. rewrite Hlen, take_app_length, Hst. by apply prefix_app_r. }
    exists (take (k - length (d_accepted d)) [data]). split_and!; [rewrite length_take; lia| |].
    + intros Hlk Hcn. rewrite Hcan in Hcn by done. done.
    + rewrite take_app. by rewrite (take_ge (d_accepted d)) by lia.
  - subst part. rewrite app_nil_r in Hst.
    destruct (frames_dispatched dispatch_owned dispatcher_close s0 holds feed_owned
      (d_accepted d) frames chunks addr x Hf) as (k & Hk & _ & Heq & ->); [by rewrite Hst|done|].
    rewrite (Heq (length (d_accepted d))); [|done|by rewrite Hlen, firstn_all].
    exists []. split_and!; [simpl; lia|done|]. by rewrite app_nil_r, take_ge.
Qed.
End end_to_end.

(** ** Witness and observation *)

(** Two tasks write over the slow stream: the second waits for the lock, and
    has its turns when the first is through. *)
Module DirectExample.
Definition sink := DirectSink (E := U16BeLengthPrefixEncoder) (W := list byte).
Definition step := dstep (E := U16BeLengthPrefixEncoder) SlowStream.write SlowStream.write_vectored.
Definition d0 : sink := mkDirect U16Be [] false ∅ None [].
Definition begin (id : N) (data : list byte) (d : sink) : sink :=
  match call_begin d data with Ret (Ok p) => set_call id (Awaiting data p) d | _ => d end.
Definition lock (id : N) (d : sink) : sink :=
  match d_calls d !! id, d_lock d with
  | Some (Awaiting data p), None => match call_locked id data p d with Ret d => d | _ => d end
  | _, _ => d
  end.
Definition turn (id : N) (d : sink) : sink :=
  match d_calls d !! id with
  | Some (Writing data f s) => call_turn SlowStream.write SlowStream.write_vectored id data f s d
  | _ => d
  end.

Lemma begin_step id data d : d_calls d !! id = None → rtc step d (begin id data d).
Proof.
  intros Hn. unfold begin. destruct (call_begin d data) as [[p|]| |] eqn:Hb; [|apply rtc_refl..].
  by apply rtc_once, ds_begin.
Qed.
Lemma lock_step id d : rtc step d (lock id d).
Proof.
  unfold lock. destruct (d_calls d !! id) as [[data p|]|] eqn:Hc; [|apply rtc_refl..].
  destruct (d_lock d) eqn:Hl; [apply rtc_refl|].
  destruct (call_locked id data p d) eqn:Hd; [|apply rtc_refl..]. by apply rtc_once; eapply ds_lock.
Qed.
Lemma turn_step id d : rtc step d (turn id d).
Proof.
  unfold turn. destruct (d_calls d !! id) as [[|data f s]|] eqn:Hc; [apply rtc_refl| |apply rtc_refl].
  by apply rtc_once, ds_turn.
Qed.

Definition d1 : sink := turn 1 (lock 1 (begin 2 (str "bye") (begin 1 (str "hello") d0))).
Definition d2 : sink := lock 2 (turn 1 (turn 1 (turn 1 (lock 2 d1)))).
Definition d3 : sink := turn 2 d2.
Lemma direct_steps : rtc step d0 d3.
Proof.
  unfold d3, d2, d1. repeat (etrans; [|apply turn_step || apply lock_step]).
  etrans; apply begin_step; reflexivity.
Qed.
End DirectExample.
Import DirectExample.

(** The first call is through, the second has three of its five bytes out. *)
Lemma direct_data_dispatched_witness :
  d_accepted d3 = [str "hello"] ∧ d_stream d3 = [0; 5]%N ++ str "hello" ++ [0; 3; 98]%N ∧
  ∃ more, length more ≤ 1 ∧ (d_lock d3 = None → d_cancelled d3 = false → more = []) ∧
    handle_tcp InboundExample.dispatch InboundExample.on_close LengthSplitter.feed_owned InboundExample.addr None []
      ((Data <$> [[0; 5; 104; 101]; [108; 108; 111; 0; 3; 98]]%N) ++ [Data []]) =
    let '(x1, res) := deliver (λ x pkt, InboundExample.dispatch x pkt InboundExample.addr TCP) []
                        (d_accepted d3 ++ more) in
    match res with
    | Ok _ => let '(x2, r) := InboundExample.on_close x1 InboundExample.addr TCP in (Some r, x2)
    | Err e => (Some (Err e), x1)
    end.
Proof.
  split_and!; [vm_compute; reflexivity|vm_compute; reflexivity|].
  apply (direct_data_dispatched (AsyncWrite0 := SlowStream.contract) SlowStream.write SlowStream.write_vectored
    SlowStream.write_all id InboundExample.dispatch InboundExample.on_close None LengthSplitter.holds
    LengthSplitter.feed_owned d0 d3 [[0; 5; 104; 101]; [108; 108; 111; 0; 3; 98]]%N InboundExample.addr []
    eq_refl eq_refl eq_refl eq_refl direct_steps).
  - vm_compute. reflexivity.
  - repeat constructor; try done; unfold byte_ok, MAX_BUF_SIZE; simpl; lia.
Defined.

(** ** What modelling showed *)

(** A call that is dropped while it writes, by a timeout around it say, gives
    the lock back without a cancellation: the sink stays open, the next call
    succeeds behind the torn packet, and its data never reach the peer's
    dispatcher. *)
Example dropped_write_tears_stream :
  let d := turn 2 (turn 2 (turn 2 (lock 2 (drop_writing 1 d1)))) in
  d_accepted d = [str "bye"] ∧ d_cancelled d = false ∧ d_stream d = [0; 5; 104; 0; 3]%N ++ str "bye" ∧
  handle_tcp InboundExample.dispatch InboundExample.on_close LengthSplitter.feed_owned InboundExample.addr None []
    [Data (d_stream d); Data []] =
  (let '(x, r) := InboundExample.on_close [[104; 0; 3; 98; 121]%N] InboundExample.addr TCP in (Some r, x)).
Proof. vm_compute. done. Qed.
