(* ===== verification/NetEndpoint.v ===== *)
(** * An endpoint's close and the tasks it awaits (base/src/net/rw.rs)

    [NetClose] takes the results of an endpoint's tasks and of its writer's
    shutdowns as given; [NetConn] runs the tasks.  Here they are put together:
    the close awaits the shutdowns and the runs, one after the other, and is
    pending as long as one of them has no result.  What a task has come to
    depends on its token: the endpoint's, which the close cancels before it
    awaits anything, or its child that a connection's close cancels; a select
    takes its cancelled branch only then.  The close comes back exactly when
    everything it awaits has ended, with what [NetClose] computes from the
    results; and since it cancelled the tasks it awaits, they all end, unless
    a write is under way that the peer does not take. *)
From S2P Require Import Prelude Errors Bytes NetFrame NetWriter NetClose NetConn.

(** ** The close, await by await *)

Section await.
(** The results of the connections' tasks and of the root task, by whether
    their token is cancelled; those of the streams' shutdowns so far, and
    whether the datagram socket's lock is free. *)
Context (awaited : bool → N → option (result (GlobalResult unit) JoinError)).
Context (root : bool → option (result Report JoinError)).
Context (shut : N → option bool) (udp_free : bool).
Implicit Types e : Endpoint.

(** Whether closing the connection awaits its task. *)
Definition awaits_task e (id : N) : bool :=
  match conns e !! id with Some c => negb (c_completed c) && c_task c | None => false end.

(** The connection's token is a child of the endpoint's. *)
Definition conn_token e (id : N) : bool :=
  e_cancel e || match conns e !! id with Some c => c_cancel c | None => false end.

(** [ManagedTcpConnection::close_and_wait] with its await; [None] is pending. *)
Definition conn_close_await e (id : N) : option (logged (GlobalResult Report) * Endpoint) :=
  let e := begin_conn_close e id in
  if awaits_task e id then j ← awaited (conn_token e id) id; Some (conn_close (λ _, j) e id)
  else Some (conn_close (λ _, Ok (Ok ())) e id).

Fixpoint close_pass_await e (ids : list N) : option Endpoint :=
  match ids with
  | [] => Some e
  | id :: ids => '(_, e) ← conn_close_await e id; close_pass_await e ids
  end.

Fixpoint close_connections_await (fuel : nat) e : option Endpoint :=
  if decide (active e = ∅) then Some e
  else match fuel with
       | O => None
       | S fuel => close_pass_await e (elements (active e)) ≫= close_connections_await fuel
       end.

Definition join_root_await e : option Endpoint :=
  if root_task e then r ← root (e_cancel e); Some (join_root r e) else Some e.

(** The writer's close awaits the shutdown of every direct sink it drained,
    and then the lock of the datagram socket. *)
Definition total_shut (stream : N) : bool := default true (shut stream).
Definition writer_returns e : Prop := Forall (λ s, is_Some (shut s)) (registry e) ∧ udp_free = true.
#[export] Instance writer_returns_dec e : Decision (writer_returns e).
Proof. unfold writer_returns. apply _. Defined.
Definition close_writer_await e : option Endpoint :=
  if decide (writer_closed e = true ∨ writer_returns e) then Some (close_writer total_shut e) else None.

(** [ManagedPacketIo::close_and_wait]. *)
Definition close_await e : option (logged (GlobalResult Report) * Endpoint) :=
  if e_completed e then Some (close_report_result (e_report e) false, e)
  else
    e ← close_writer_await e;
    e ← close_connections_await 1 e;
    e ← join_root_await (merge_completed e);
    Some (finish_close e).

(** ** It is the close of [NetClose], once the tasks have ended *)

Definition total_join (id : N) : result (GlobalResult unit) JoinError := default (Ok (Ok ())) (awaited true id).
Definition total_root : result Report JoinError := default (Ok report_default) (root true).

Definition task_ready e (id : N) : Prop := awaits_task e id = true → is_Some (awaited true id).
#[export] Instance task_ready_dec e id : Decision (task_ready e id).
Proof. unfold task_ready. apply _. Defined.

Definition ready e : Prop :=
  (writer_closed e = true ∨ writer_returns e) ∧
  (∀ id, id ∈ active e → task_ready e id) ∧ (root_task e = true → is_Some (root true)).

(** A connection's close cancels its token first, and nothing else. *)
Lemma begin_conn_close_spec e id :
  awaits_task (begin_conn_close e id) id = awaits_task e id ∧
  (awaits_task e id = true → conn_token (begin_conn_close e id) id = true) ∧
  ∀ f, conn_close f (begin_conn_close e id) id = conn_close f e id.
Proof.
  unfold begin_conn_close, awaits_task, conn_token, conn_close, conn_final.
  destruct (conns e !! id) as [c|] eqn:Hc; [|by rewrite Hc].
  destruct (c_completed c) eqn:Hcc; [by rewrite Hc, Hcc|]. simpl. rewrite lookup_insert_eq. simpl. rewrite ?Hcc.
  split_and!; [done|by rewrite orb_true_r|]. intros f. unfold finalize_owner. simpl.
  destruct (c_owner_registered c); simpl; by rewrite insert_insert_eq.
Qed.

Lemma conn_close_ext (f g : N → result (GlobalResult unit) JoinError) e id :
  (awaits_task e id = true → f id = g id) → conn_close f e id = conn_close g e id.
Proof.
  unfold conn_close, awaits_task, conn_final. destruct (conns e !! id) as [c|]; [|done].
  destruct (c_completed c); [done|]. destruct (c_task c); [|done]. intros Hj. by rewrite Hj.
Qed.

Lemma conn_close_await_ready e id :
  task_ready e id → conn_close_await e id = Some (conn_close total_join e id).
Proof.
  destruct (begin_conn_close_spec e id) as (Ha & Ht & Hc).
  unfold task_ready, conn_close_await. rewrite Ha. destruct (awaits_task e id) eqn:Hw.
  - rewrite Ht by done. intros [j Hj]; [done|]. rewrite Hj. simpl. f_equal. rewrite Hc.
    apply conn_close_ext. intros _. unfold total_join. by rewrite Hj.
  - intros _. f_equal. rewrite Hc. apply conn_close_ext. congruence.
Qed.

Lemma conn_close_await_pending e id : ¬ task_ready e id → conn_close_await e id = None.
Proof.
  destruct (begin_conn_close_spec e id) as (Ha & Ht & _).
  unfold task_ready, conn_close_await. rewrite Ha. intros Hn.
  destruct (awaits_task e id); [|by exfalso; apply Hn]. rewrite Ht by done.
  destruct (awaited true id); [|done]. exfalso. apply Hn. by eexists.
Qed.

(** Closing a connection leaves the others alone. *)
Lemma conn_close_other f e id j : j ≠ id → conns (conn_close f e id).2 !! j = conns e !! j.
Proof.
  intros Hne. unfold conn_close, finalize_owner.
  destruct (conns e !! id) as [c|]; [|done]. destruct (c_completed c), (c_owner_registered c);
    simpl; by rewrite lookup_insert_ne.
Qed.

Lemma task_ready_other f e id j : j ≠ id → task_ready (conn_close f e id).2 j ↔ task_ready e j.
Proof. intros Hne. unfold task_ready, awaits_task. by rewrite conn_close_other. Qed.

Lemma close_pass_await_spec e ids :
  NoDup ids →
  close_pass_await e ids =
  if decide (Forall (task_ready e) ids) then Some (close_pass total_join e ids) else None.
Proof.
  intros Hnd. revert e. induction Hnd as [|id ids Hni Hnd IH]; intros e; cbn [close_pass_await].
  { by rewrite decide_True by constructor. }
  destruct (decide (task_ready e id)) as [Hr|Hr].
  - rewrite (conn_close_await_ready e id Hr). cbn [mbind option_bind].
    change (close_pass total_join e (id :: ids)) with (close_pass total_join (conn_close total_join e id).2 ids).
    destruct (conn_close total_join e id) as [x e1] eqn:He. cbn [snd]. rewrite IH.
    apply decide_ext. rewrite Forall_cons, !Forall_forall. replace e1 with (conn_close total_join e id).2 by by rewrite He.
    split.
    + intros H. split; [done|]. intros j Hj. specialize (H j Hj). rewrite task_ready_other in H; [done|set_solver].
    + intros [_ H] j Hj. rewrite task_ready_other; [by apply H|set_solver].
  - rewrite (conn_close_await_pending e id Hr). rewrite decide_False; [done|]. by intros [? _]%Forall_cons.
Qed.

Lemma close_connections_await_spec e :
  endpoint_ok e →
  close_connections_await 1 e =
  if decide (Forall (task_ready e) (elements (active e))) then close_connections total_join 1 e else None.
Proof.
  intros Hok. cbn [close_connections_await]. unfold close_connections. destruct (decide (active e = ∅)) as [He|He].
  { rewrite decide_True; [done|]. rewrite He, elements_empty. constructor. }
  rewrite close_pass_await_spec by apply NoDup_elements.
  destruct (decide (Forall _ _)); [|done]. cbn [mbind option_bind].
  destruct (close_pass_spec total_join total_root total_shut e (elements (active e)) Hok) as (_ & _ & Ha & _).
  { intros id Hid. apply elem_of_elements, (eo_active e Hok) in Hid as (c & Hc & _). by exists c. }
  by rewrite !decide_True by (rewrite Ha; set_solver).
Qed.

Lemma join_root_await_ready e :
  e_cancel e = true → (root_task e = true → is_Some (root true)) → join_root_await e = Some (join_root total_root e).
Proof.
  unfold join_root_await, total_root, join_root. intros ->. destruct (root_task e); [|done].
  intros [r Hr]; [done|]. by rewrite Hr.
Qed.

Lemma join_root_await_pending e :
  e_cancel e = true → ¬ (root_task e = true → is_Some (root true)) → join_root_await e = None.
Proof.
  unfold join_root_await. intros -> Hn. destruct (root_task e); [|by exfalso; apply Hn].
  destruct (root true); [|done]. exfalso. apply Hn. by eexists.
Qed.

(** The close cancels the endpoint's token, and no connection's close takes
    that back. *)
Lemma close_writer_cancels e : e_cancel (close_writer total_shut e) = true.
Proof. unfold close_writer. simpl. by destruct (writer_closed e). Qed.
Lemma close_connections_cancel e e' : endpoint_ok e →
  close_connections total_join 1 e = Some e' → e_cancel e' = e_cancel e.
Proof.
  intros Hok. cbn [close_connections]. case_decide; [by intros [= <-]|].
  destruct (close_pass_spec total_join total_root total_shut e (elements (active e)) Hok)
    as (_ & _ & _ & _ & _ & _ & _ & Hc).
  { intros id Hid. apply elem_of_elements, (eo_active e Hok) in Hid as (c & Hc & _). by exists c. }
  case_decide; [|done]. by intros [= <-].
Qed.

(** The close comes back exactly when everything it awaits has ended, given
    that it cancelled the tasks; and then it is the close of [NetClose]. *)
Lemma close_await_spec e :
  endpoint_ok e → e_completed e = false →
  (ready e → close_await e = close_and_wait total_join total_root total_shut e) ∧
  (¬ ready e → close_await e = None).
Proof.
  intros Hok Hc. destruct (close_writer_spec total_join total_root total_shut e) as (W1 & _ & W3 & W4 & _).
  pose proof (close_writer_cancels e) as Hcan.
  unfold close_await, close_and_wait, close_writer_await, ready. rewrite Hc.
  set (e1 := close_writer total_shut e) in *.
  assert (Hroot : root_task e1 = root_task e) by (unfold e1, close_writer; simpl; by destruct (writer_closed e)).
  assert (Hall : Forall (task_ready e1) (elements (active e1)) ↔ ∀ id, id ∈ active e → task_ready e id).
  { rewrite Forall_forall, W3. unfold task_ready, awaits_task. rewrite W4. set_solver. }
  destruct (close_connections_spec total_join total_root total_shut e1 (W1 Hok)) as (e2 & He2 & _ & _ & _ & _ & Hr2 & _).
  assert (Hm : root_task (merge_completed e2) = root_task e) by by rewrite <- Hroot, <- Hr2.
  assert (Hcm : e_cancel (merge_completed e2) = true).
  { change (e_cancel (merge_completed e2)) with (e_cancel e2). by rewrite (close_connections_cancel e1 e2 (W1 Hok) He2). }
  split.
  - intros (H0 & H1 & H2). rewrite decide_True by done. cbn [mbind option_bind].
    rewrite (close_connections_await_spec e1 (W1 Hok)), He2, decide_True by by apply Hall. cbn [mbind option_bind].
    rewrite join_root_await_ready; [done|done|by rewrite Hm].
  - intros Hn. destruct (decide _) as [H0|]; [|done]. cbn [mbind option_bind].
    rewrite (close_connections_await_spec e1 (W1 Hok)), He2.
    destruct (decide _) as [Hd|]; [|done]. cbn [mbind option_bind].
    rewrite join_root_await_pending; [done|done|]. rewrite Hm. intros Hr. apply Hn.
    split; [done|]. split; [by apply Hall|done].
Qed.
End await.

(** ** Connections an endpoint owns have not been awaited *)

Definition fresh e : Prop :=
  ∀ id, id ∈ active e → ∃ cancelled, conns e !! id = Some (mkConn true cancelled report_default false false true).

Lemma conn_close_fresh f e id : fresh e → fresh (conn_close f e id).2.
Proof.
  intros Hf j. destruct (decide (j = id)) as [->|Hne].
  - unfold conn_close. destruct (conns e !! id) as [c|] eqn:Hc; [|simpl; intros Hin; by destruct (Hf id Hin) as [? ?]; congruence].
    assert (c_owner_registered c = false → id ∉ active e) as Hreg.
    { intros Ho Hin. destruct (Hf id Hin) as [k Hk]. rewrite Hk in Hc. by injection Hc as <-. }
    unfold finalize_owner. destruct (c_completed c), (c_owner_registered c); simpl; set_solver.
  - rewrite conn_close_other by done. intros Hin. apply Hf. revert Hin. unfold conn_close, finalize_owner.
    destruct (conns e !! id) as [c|]; [|done]. destruct (c_completed c), (c_owner_registered c); simpl; set_solver.
Qed.

Lemma close_pass_fresh f e ids : fresh e → fresh (close_pass f e ids).
Proof.
  revert e. induction ids as [|id ids IH]; intros e Hf; [done|]. apply IH. by apply conn_close_fresh.
Qed.

Lemma begin_conn_close_fresh e id : fresh e → fresh (begin_conn_close e id).
Proof.
  intros Hf. unfold begin_conn_close. destruct (conns e !! id) as [c|] eqn:Hc; [|done].
  destruct (c_completed c) eqn:Hcc; [done|]. intros j Hj. simpl in *. destruct (Hf j Hj) as [k Hk].
  destruct (decide (j = id)) as [->|Hne]; [|rewrite lookup_insert_ne by done; eauto].
  rewrite lookup_insert_eq. rewrite Hk in Hc. injection Hc as <-. by eexists.
Qed.

Lemma close_connections_fresh f e e' : fresh e → close_connections f 1 e = Some e' → fresh e'.
Proof.
  intros Hf. cbn [close_connections]. case_decide; [by intros [= <-]|].
  case_decide; [|done]. intros [= <-]. by apply close_pass_fresh.
Qed.

Lemma close_writer_fresh sh e : fresh e → fresh (close_writer sh e).
Proof. unfold close_writer. simpl. by destruct (writer_closed e). Qed.

Lemma alloc_fresh e : endpoint_ok e → fresh e → fresh (alloc_conn e).2.
Proof.
  intros Hok Hf. assert (next_connection_id e ∉ active e) as Hni.
  { intros (c & Hc & _)%(eo_active e Hok). apply (eo_ids e Hok) in Hc. lia. }
  intros j Hj. simpl in *. rewrite lookup_insert_ne by (intros <-; done). by apply Hf.
Qed.

Lemma finish_fresh f e id b : conns e !! id = Some conn_new → fresh e → fresh (connect_finish f e id b).2.
Proof.
  intros Hc Hf. unfold connect_finish, connect_register.
  destruct b; [|by apply conn_close_fresh]. destruct (e_cancel e || e_completed e); [by apply conn_close_fresh|].
  simpl. unfold register_conn. rewrite Hc. intros j. simpl.
  destruct (decide (j = id)) as [->|Hne]; [intros _; exists false; by rewrite lookup_insert_eq|].
  intros [?%elem_of_singleton|Hj]%elem_of_union; [done|].
  rewrite lookup_insert_ne by done. by apply Hf.
Qed.

Lemma reachable_fresh f rj sh e : rtc (ep_step f rj sh) endpoint_new e → fresh e.
Proof.
  revert e. apply (rtc_ind_r (λ e, fresh e)); [intros id Hid; by apply elem_of_empty in Hid|].
  intros a b Ha Hs Hf. pose proof (reachable_ok f rj sh a Ha) as Hok.
  destruct Hs as [a Hn|a id ready Hc|a id Hid|a reg Hw|l a b Hc Hi|a res b Hcl].
  - by apply alloc_fresh.
  - by apply finish_fresh.
  - by apply conn_close_fresh.
  - done.
  - destruct Hi as [Hw|ids Hids|ids id Hids|e1 He1]; [done|by apply close_pass_fresh, close_writer_fresh| |].
    { by apply begin_conn_close_fresh, close_pass_fresh, close_writer_fresh. }
    by apply (close_connections_fresh f) in He1; [|apply close_writer_fresh].
  - unfold close_and_wait in Hcl. destruct (e_completed a); [by injection Hcl as _ <-|].
    destruct (close_connections f 1 (close_writer sh a)) as [e1|] eqn:He1; [|done]. injection Hcl as _ <-.
    apply (close_connections_fresh f) in He1; [|by apply close_writer_fresh].
    unfold join_root. by destruct (root_task (merge_completed e1)).
Qed.

(** ** What makes the report complete *)

Definition joined_ok (j : result (GlobalResult unit) JoinError) : bool :=
  match j with Ok (Ok _) => true | _ => false end.

Lemma is_complete_merge a b : is_complete (merge a b) = is_complete a && is_complete b.
Proof. destruct a, b. unfold is_complete. simpl. apply eq_true_iff_eq. rewrite !andb_true_iff, !N.eqb_eq. lia. Qed.

Lemma is_complete_join j : is_complete (record_connection_join report_default j) = joined_ok j.
Proof. by destruct j as [[]|[]]. Qed.

Lemma is_complete_sum rs : is_complete (sum_reports rs) = forallb is_complete rs.
Proof. induction rs as [|r rs IH]; [done|]. simpl. by rewrite is_complete_merge, IH. Qed.

(** The close of an endpoint that owns fresh connections is complete if
    everything before it was, the writer closes, and all tasks ended well. *)
Lemma expected_complete f rj sh e :
  fresh e →
  is_complete (expected f rj sh e) =
  is_complete (e_report e) && (writer_closed e || writer_result sh e) && is_complete (completed_report e) &&
  forallb (λ id, joined_ok (f id)) (elements (active e)) && (negb (root_task e) || is_complete (root_part rj)).
Proof.
  intros Hf. unfold expected. rewrite !is_complete_merge, is_complete_sum.
  assert (∀ ids, (∀ id, id ∈ ids → id ∈ active e) →
    forallb is_complete (final_of f e <$> ids) = forallb (λ id, joined_ok (f id)) ids) as ->.
  { induction ids as [|id ids IH]; intros Hids; [done|]. rewrite fmap_cons. cbn [forallb].
    rewrite IH by (intros; apply Hids; by right). f_equal. unfold final_of. destruct (Hf id) as [k ->]; [apply Hids; by left|].
    apply is_complete_join. }
  2:{ intros id. by rewrite elem_of_elements. }
  destruct (writer_closed e || writer_result sh e), (root_task e); simpl; rewrite ?andb_true_r, ?andb_false_r, <- ?andb_assoc; done.
Qed.

(** ** The tasks and their runs *)

Section tasks.
Context {Ip : Type} `{Countable Ip} {E : Type} {S D : Type}.
Context (dispatch_owned : D → list byte → Ip * N → Protocol → D * GlobalResult unit).
Context (dispatcher_close : D → Ip * N → Protocol → D * GlobalResult unit).
Context (feed_owned : S → list byte → (D → list byte → D * GlobalResult unit) → D →
           S * list byte * D * GlobalResult unit).
Context (backoff : N → N).

(** A run of [run_managed_tcp_connection]: the turns that its selects made at
    the stream and at the queue.  When both branches of a select are ready,
    tokio picks one at random, so such turns are made after a cancellation
    too, until the cancelled branch is picked.  [r_writing] is the packet of a
    write that is under way and does not end, and [r_shutdown] what the
    stream's shutdown comes back with, if it does. *)
Record Run := mkRun {
  r_addr : Ip * N; r_chan : N; r_stream : N; r_tok : N;
  r_splitter : S; r_dispatcher : D;
  r_reads : list Read; r_turns : list WriteTurn;
  r_writing : option EncodedPacket;
  r_shutdown : option (GlobalResult unit);
  r_mid : PacketWriter (Ip:=Ip) (E:=E) → PacketWriter (Ip:=Ip) (E:=E);
  r_writer : PacketWriter (Ip:=Ip) (E:=E)
}.

(** With its token cancelled, a half that comes back to its select leaves by
    the cancelled branch; only then is there one. *)
Definition all_reads (cancelled : bool) (r : Run) : list Read :=
  r_reads r ++ if cancelled then [ReadCancelled] else [].
Definition all_turns (cancelled : bool) (r : Run) : list WriteTurn :=
  r_turns r ++ if cancelled then match r_writing r with None => [WriteCancelled] | Some _ => [] end else [].
(** Whether the run has a write half, whose last await is the shutdown. *)
Definition has_write_half (r : Run) : bool :=
  negb (closed (r_writer r)) && match queue_size (tcp_write_mode (r_writer r)) with Some _ => true | None => false end.
Definition run_result (cancelled : bool) (r : Run) : option (GlobalResult unit) :=
  let result shutdown :=
    (run_managed_tcp_connection dispatch_owned dispatcher_close feed_owned (r_addr r) (r_chan r) (r_stream r) (r_tok r)
       (r_splitter r) (r_dispatcher r) (all_reads cancelled r) (all_turns cancelled r) shutdown (r_mid r)
       (r_writer r)).1.1 in
  match r_shutdown r with
  | Some shutdown => result shutdown
  | None => if has_write_half r then None else result (Ok ())
  end.

(** A task runs, or it has panicked or was aborted. *)
Inductive Task := Runs (r : Run) | Crashed (e : JoinError).
Definition joined (cancelled : bool) (t : Task) : option (result (GlobalResult unit) JoinError) :=
  match t with Runs r => Ok <$> run_result cancelled r | Crashed e => Some (Err e) end.

(** Neither a write nor the shutdown is stuck: every await of the task but
    those of its selects comes back. *)
Definition flows (t : Task) : Prop :=
  match t with Runs r => r_writing r = None ∧ is_Some (r_shutdown r) | Crashed _ => True end.

Lemma flows_joined t : flows t → is_Some (joined true t).
Proof.
  destruct t as [r|e]; [|by eexists]. intros [Hw [sh Hsh]]. simpl in *. apply fmap_is_Some.
  unfold run_result. rewrite Hsh. apply cancelled_run_ends.
  - unfold all_reads. rewrite elem_of_app. right. left.
  - unfold all_turns. rewrite Hw, elem_of_app. right. left.
Qed.

(** The listener's task: its accept loop, and the tasks left in its set in
    the order in which they end.  After its loop it cancels the token that
    theirs are children of. *)
Definition all_accepts (cancelled : bool) (es : list Accept) : list Accept :=
  es ++ if cancelled then [NetClose.Cancelled] else [].
Definition listener_report (cancelled : bool) (es : list Accept) (left : list Task) : option Report :=
  let '(l, go) := accept_loop backoff listener_new (all_accepts cancelled es) in
  if go then None
  else if decide (length left = l_connections l) then joins ← mapM (joined true) left; Some (l_report (drain l joins))
  else None.

Definition udp_left (us : list (Datagram (Ip:=Ip))) : bool :=
  existsb (λ u, match u with UdpCancelled | UdpError => true | Received _ _ => false end) us.
Definition udp_report (cancelled : bool) (d : D) (us : list Datagram) : option Report :=
  let us := us ++ if cancelled then [UdpCancelled] else [] in
  if udp_left us then Some (run_udp_receiver dispatch_owned report_default d us).1 else None.

(** The root task with its protocol tasks, and which of them ends first. *)
Record Root := mkRoot {
  tcp_task : option (list Accept * list Task);
  udp_task : option (D * list (Datagram (Ip:=Ip)));
  udp_first : bool
}.
Definition root_result (cancelled : bool) (rt : Root) : option Report :=
  let tcp := (λ p, listener_report cancelled p.1 p.2) <$> tcp_task rt in
  let udp := (λ p, udp_report cancelled p.1 p.2) <$> udp_task rt in
  rs ← mapM id (if udp_first rt then option_list udp ++ option_list tcp else option_list tcp ++ option_list udp);
  Some (run_managed_packet_io (Ok <$> rs)).

(** The tasks left to the listener are as many as it still has, and none of
    them is stuck in a write. *)
Definition root_flows (rt : Root) : Prop := ∀ es left, tcp_task rt = Some (es, left) →
  length left = l_connections (accept_loop backoff listener_new (all_accepts true es)).1 ∧ Forall flows left.

Lemma accept_loop_cancelled l es : NetClose.Cancelled ∈ es → (accept_loop backoff l es).2 = false.
Proof.
  revert l. induction es as [|e es IH]; intros l Hin; [by apply elem_of_nil in Hin|]. cbn [accept_loop].
  destruct (accept_turn backoff l e) as [l' go] eqn:He. destruct go; [|done].
  apply elem_of_cons in Hin as [<-|Hin]; [done|by apply IH].
Qed.

Lemma listener_ends es left :
  length left = l_connections (accept_loop backoff listener_new (all_accepts true es)).1 → Forall flows left →
  is_Some (listener_report true es left).
Proof.
  intros Hl Hh. unfold listener_report.
  assert (Hg : (accept_loop backoff listener_new (all_accepts true es)).2 = false).
  { apply accept_loop_cancelled. unfold all_accepts. rewrite elem_of_app. right. left. }
  destruct (accept_loop backoff listener_new (all_accepts true es)) as [l go]. simpl in *. subst go.
  rewrite decide_True by done. assert (is_Some (mapM (joined true) left)) as [js ->]; [|by eexists].
  apply mapM_is_Some. eapply Forall_impl; [exact Hh|]. apply flows_joined.
Qed.

Lemma root_ends rt : root_flows rt → is_Some (root_result true rt).
Proof.
  intros Ht. unfold root_result.
  set (tcps := option_list ((λ p, listener_report true p.1 p.2) <$> tcp_task rt)).
  set (udps := option_list ((λ p, udp_report true p.1 p.2) <$> udp_task rt)).
  assert (H1 : Forall is_Some tcps).
  { unfold tcps. destruct (tcp_task rt) as [[es left]|] eqn:Htcp; [|constructor]. apply Forall_singleton.
    destruct (Ht es left Htcp) as (? & ?). by apply listener_ends. }
  assert (H2 : Forall is_Some udps).
  { unfold udps. destruct (udp_task rt) as [[d us]|]; [|constructor]. apply Forall_singleton.
    simpl. unfold udp_report, udp_left. rewrite existsb_app, orb_true_r. by eexists. }
  assert (is_Some (mapM id (if udp_first rt then udps ++ tcps else tcps ++ udps))) as [rs ->]; [|by eexists].
  apply mapM_is_Some. destruct (udp_first rt); by apply Forall_app.
Qed.

(** ** The close ends *)

(** C13: Closing an endpoint comes back, after any history, because it cancels
    what it awaits: its own token, which the listener, its connections and the
    receiver of datagrams watch, before it awaits anything, and the token of
    each connection before it awaits that one.  What has to be given is that
    no await other than those of the tasks' selects is stuck: no write or
    shutdown of a connection is under way that does not end, and if the writer is still to be closed, the
    shutdowns of its streams come back and the datagram socket's lock is
    free.  Nothing is left then, and the result is [Ok] exactly when the
    shutdowns succeeded, all of these tasks ended well, and so did everything
    that was awaited before. *)
Theorem endpoint_close_ends f rj sh e (task : N → Task) rt shut udp_free :
  rtc (ep_step f rj sh) endpoint_new e → e_completed e = false →
  (∀ id, id ∈ active e → flows (task id)) → root_flows rt →
  (writer_closed e = false → udp_free = true ∧ ∀ s, s ∈ registry e → is_Some (shut s)) →
  ∃ res e', close_await (λ c id, joined c (task id)) (λ c, Ok <$> root_result c rt) shut udp_free e = Some (res, e') ∧
    active e' = ∅ ∧ root_task e' = false ∧
    (is_ok res.1 = true ↔
       is_complete (e_report e) = true ∧ is_complete (completed_report e) = true ∧
       (writer_closed e = false → ∀ s, s ∈ registry e → shut s = Some true) ∧
       (∀ id, id ∈ active e → joined true (task id) = Some (Ok (Ok ()))) ∧
       (root_task e = true → ∃ r, root_result true rt = Some r ∧ is_complete r = true)).
Proof.
  intros Hr Hc Ht Hroot Hwr. pose proof (reachable_ok _ _ _ e Hr) as Hok. pose proof (reachable_fresh _ _ _ e Hr) as Hf.
  destruct (root_ends rt Hroot) as [rr Hrr].
  set (aw := λ c id, joined c (task id)). set (rt' := λ c, Ok <$> root_result c rt).
  assert (Hrt : rt' true = Some (Ok rr)) by (unfold rt'; by rewrite Hrr).
  assert (Hready : ready aw rt' shut udp_free e).
  { split_and!.
    - destruct (writer_closed e) eqn:Hw; [by left|]. right. destruct (Hwr eq_refl) as [Hu Hs].
      split; [by apply Forall_forall|done].
    - intros id Hid _. by apply flows_joined, Ht.
    - intros _. rewrite Hrt. by eexists. }
  rewrite (proj1 (close_await_spec aw rt' shut udp_free e Hok Hc) Hready).
  destruct (close_spec (total_join aw) (total_root rt') (total_shut shut) e Hok Hc)
    as (res & e' & -> & _ & _ & Ha & Hrtk & _ & Hres).
  exists res, e'. split_and!; [done..|].
  replace (is_ok res.1) with (is_complete (expected (total_join aw) (total_root rt') (total_shut shut) e))
    by (rewrite Hres; unfold close_report_result; by destruct (is_complete _)).
  rewrite expected_complete by done. rewrite !andb_true_iff, forallb_forall.
  assert (Hj : (∀ id, List.In id (elements (active e)) → joined_ok (total_join aw id) = true) ↔
               ∀ id, id ∈ active e → joined true (task id) = Some (Ok (Ok ()))).
  { assert (Hin : ∀ id, List.In id (elements (active e)) ↔ id ∈ active e)
      by (intros; by rewrite <- list_elem_of_In, elem_of_elements).
    split; intros Hall id Hid; [specialize (Hall id (proj2 (Hin id) Hid))|specialize (Hall id (proj1 (Hin id) Hid))].
    - unfold total_join, aw in Hall. destruct (flows_joined _ (Ht id Hid)) as [j Hj]. rewrite Hj in Hall |- *.
      by destruct j as [[[]|]|].
    - unfold total_join, aw. by rewrite Hall. }
  assert (Hs : writer_closed e || writer_result (total_shut shut) e = true ↔
               (writer_closed e = false → ∀ s, s ∈ registry e → shut s = Some true)).
  { rewrite orb_true_iff. unfold writer_result. rewrite forallb_forall. setoid_rewrite <- list_elem_of_In.
    destruct (writer_closed e); [naive_solver|]. destruct (Hwr eq_refl) as [_ Hsome]. unfold total_shut. split.
    - intros [|Hall] _ s Hs; [done|]. specialize (Hall s Hs). destruct (Hsome s Hs) as [b Hb].
      rewrite Hb in Hall |- *. simpl in Hall. by subst b.
    - intros Hall. right. intros s Hs. by rewrite (Hall eq_refl s Hs). }
  rewrite Hj, Hs. unfold total_root. rewrite Hrt. simpl. destruct (root_task e); naive_solver.
Qed.

(** ** What modelling showed: a write under way is not cancelled *)

(** The write half between its awaits: at the select, writing a packet it
    took from the queue, or out of the loop. *)
Inductive WriteState := AtSelect | Writing (p : EncodedPacket) | LeftLoop.
Inductive write_step (token_cancelled : bool) : WriteState → list WriteTurn → WriteState → Prop :=
  | ws_recv p : write_step token_cancelled AtSelect [] (Writing p)
  | ws_written p r : write_step token_cancelled (Writing p) [Item p r]
      (match r with Ok _ => AtSelect | Err _ => LeftLoop end)
  | ws_end : write_step token_cancelled AtSelect [QueueEnd] LeftLoop
  | ws_cancelled : token_cancelled = true → write_step token_cancelled AtSelect [WriteCancelled] LeftLoop.

(** Its runs, with the turns they made; the token may be cancelled on the way. *)
Inductive write_run : WriteState → list WriteTurn → WriteState → Prop :=
  | wr_refl st : write_run st [] st
  | wr_step b st ts st1 us st2 : write_step b st ts st1 → write_run st1 us st2 → write_run st (ts ++ us) st2.

(** The turns of the runs are those of [write_loop]. *)
Lemma write_run_loop st ts st' : write_run st ts st' → st ≠ LeftLoop →
  ((write_loop ts).2 = true ↔ st' = LeftLoop).
Proof.
  induction 1 as [st|b st ts st1 us st2 Hs Hr IH]; intros Hne; [by split|].
  assert (Hend : st1 = LeftLoop → us = [] ∧ st2 = LeftLoop).
  { clear -Hr. induction Hr as [|b' ? ? ? ? ? Hs]; [done|]. intros ->. inversion Hs. }
  destruct Hs as [p|p [[]|err]| |Hb]; simpl; try (destruct Hend as [-> ->]; [done|]; by split).
  - by apply IH.
  - destruct (write_loop us) eqn:Hu. simpl in *. by apply IH.
Qed.

(** While a packet is being written, the end of that write is the only step,
    cancelled or not. *)
Lemma writing_only_written b p ts st : write_step b (Writing p) ts st → ∃ r, ts = [Item p r].
Proof. inversion 1; by eexists. Qed.

(** A connection that is writing a packet its peer does not take has no
    result, whatever was cancelled and whatever its read half did, so the
    close of its endpoint does not come back. *)
Theorem stuck_write_blocks_close f rj sh e (task : N → Task) rt shut udp_free id r p :
  rtc (ep_step f rj sh) endpoint_new e → e_completed e = false →
  id ∈ active e → task id = Runs r → r_writing r = Some p →
  queue_size (tcp_write_mode (r_writer r)) ≠ None → closed (r_writer r) = false →
  write_run AtSelect (r_turns r) (Writing p) →
  close_await (λ c id, joined c (task id)) (λ c, Ok <$> root_result c rt) shut udp_free e = None.
Proof.
  intros Hr Hc Hid Ht Hst Hq Hcl Hw. pose proof (reachable_ok _ _ _ e Hr) as Hok. pose proof (reachable_fresh _ _ _ e Hr) as Hf.
  apply close_await_spec; [done..|]. intros (_ & Hall & _). specialize (Hall id Hid). unfold task_ready, awaits_task in Hall.
  destruct (Hf id Hid) as [k Hk]. rewrite Hk, Ht in Hall. destruct Hall as [j Hj]; [done|]. revert Hj. simpl.
  assert (Hts : (write_loop (all_turns true r)).2 = false).
  { unfold all_turns. rewrite Hst, app_nil_r. apply not_true_iff_false. rewrite (write_run_loop _ _ _ Hw); done. }
  unfold run_result, has_write_half, run_managed_tcp_connection.
  destruct (queue_size (tcp_write_mode (r_writer r))) as [n|]; [|done].
  destruct (r_shutdown r) as [sh0|]; [|by rewrite Hcl].
  set (w1 := set_chans _ _). unfold insert_tcp_sink, insert_begin. change (closed w1) with (closed (r_writer r)).
  rewrite Hcl. unfold insert_commit. change (closed (set_next_id _ w1)) with (closed (r_writer r)). rewrite Hcl.
  destruct (handle_tcp_read_owned_half _ _ _ _ _ _ _ _ _) as [[[[]|] ?] ?]; unfold handle_tcp_write; by rewrite Hts.
Qed.
End tasks.

(** ** The writer's part *)

(** What [NetClose] says of the packet writer's close is what [NetWriter] does:
    its result is [Ok] exactly when the streams of the registered direct sinks
    shut down. *)
Lemma writer_result_close {Ip : Type} `{Countable Ip} {E : Type} `{PacketEncoder E} (w : PacketWriter (Ip:=Ip) (E:=E)) sh
    (shutdown : TcpPacketSink (Ip:=Ip) → GlobalResult unit) e :
  (∀ s, s ∈ registry e ↔ ∃ addr a tok, tcp_sink w addr = Some (DirectSink a s tok)) →
  (∀ a s tok, is_ok (shutdown (DirectSink a s tok)) = sh s) →
  writer_result sh e = is_ok (writer_close shutdown w).1.
Proof.
  intros Hreg Hsh. pose proof (writer_close_spec shutdown w) as Hspec.
  destruct (writer_close shutdown w) as [r w']. destruct Hspec as (_ & _ & _ & Hok & _). simpl.
  apply eq_true_iff_eq. rewrite Hok. unfold writer_result. rewrite forallb_forall. setoid_rewrite <- list_elem_of_In.
  setoid_rewrite Hreg. split.
  - intros Hall addr [a ch tok|a s tok] Hs Hd; [done|]. rewrite Hsh. apply Hall. eauto.
  - intros Hall s (addr & a & tok & Hs). rewrite <- (Hsh a s tok). by eapply Hall.
Qed.

(** ** Witness and observation *)

Module EndpointExample.
Import ConnExample CloseExample.
Definition run (reads : list Read) (turns : list WriteTurn) (writing : option EncodedPacket) : Run :=
  mkRun addr 5 0 9 () 0 reads turns writing (Some (Ok ())) id queued.
(** Connection 1 ends well; the splitter of connection 2 fails. *)
Definition task (id : N) : Task :=
  Runs (run [Data [if (id =? 1)%N then 7%N else 0%N]] [] None).
(** The listener took a connection that ended, and one that goes on. *)
Definition root_ok : Root :=
  mkRoot (Some ([Accepted false; Joined (Ok (Ok ())); AcceptError false; Accepted false],
                [Runs (run [Data [7%N]] [] None)]))
         (Some (0, [Received [1%N] addr])) true.
(** The peer of this connection does not read. *)
Definition stuck : Run := run [] [Item (Single [1%N]) (Ok ())] (Some (Single [2%N])).
Definition shut (s : N) : option bool := Some (CloseExample.shutdown s).
End EndpointExample.
Import EndpointExample ConnExample.

Lemma endpoint_close_ends_witness :
  let close := close_await (λ c id, joined dispatch on_close feed c (task id))
                 (λ c, Ok <$> root_result dispatch on_close feed id c root_ok) shut true CloseExample.e3 in
  ∃ res e', close = Some (res, e') ∧ active e' = ∅ ∧ NetClose.root_task e' = false ∧
    (is_ok res.1 = true ↔
       is_complete (e_report CloseExample.e3) = true ∧ is_complete (completed_report CloseExample.e3) = true ∧
       (writer_closed CloseExample.e3 = false → ∀ s, s ∈ registry CloseExample.e3 → shut s = Some true) ∧
       (∀ id, id ∈ active CloseExample.e3 → joined dispatch on_close feed true (task id) = Some (Ok (Ok ()))) ∧
       (NetClose.root_task CloseExample.e3 = true →
          ∃ r, root_result dispatch on_close feed id true root_ok = Some r ∧ is_complete r = true)).
Proof.
  apply (endpoint_close_ends dispatch on_close feed id CloseExample.conn_join CloseExample.root CloseExample.shutdown
    CloseExample.e3 task root_ok shut true).
  - apply CloseExample.run_sinks.
  - reflexivity.
  - intros id _. split; [reflexivity|by eexists].
  - intros es left [= <- <-]. split; [reflexivity|]. apply Forall_singleton. split; [reflexivity|by eexists].
  - intros _. split; [reflexivity|]. intros s _. by eexists.
Defined.

(** Evaluated: three connections end well, one fails, as does one of the two
    shutdowns; the listener and the receiver were cancelled. *)
Example endpoint_close_report :
  match close_await (λ c id, joined dispatch on_close feed c (task id))
          (λ c, Ok <$> root_result dispatch on_close feed id c root_ok) shut true CloseExample.e3 with
  | Some (_, e) => e_report e = mkReport 3 2 2 0 0
  | None => False
  end.
Proof. vm_compute. done. Qed.

(** These tasks end because they are cancelled: with their token as it was,
    neither the root task nor connection 1 has a result. *)
Example uncancelled_tasks_run :
  root_result dispatch on_close feed id false root_ok = None ∧
  joined dispatch on_close feed false (task 1) = None.
Proof. vm_compute. done. Qed.

(** The peer of connection 1 stops reading: everything is cancelled, all
    other tasks have ended, and the close does not come back. *)
Example stuck_peer_blocks_close :
  close_await (λ c id, if (id =? 1)%N then joined dispatch on_close feed c (Runs stuck) else Some (Ok (Ok ())))
    (λ c, Ok <$> root_result dispatch on_close feed id c root_ok) shut true CloseExample.e2 = None.
Proof. vm_compute. done. Qed.

Lemma stuck_write_blocks_close_witness :
  close_await (λ c id, joined dispatch on_close feed c ((λ _, Runs stuck) id))
    (λ c, Ok <$> root_result dispatch on_close feed id c root_ok) shut true CloseExample.e2 = None.
Proof.
  apply (stuck_write_blocks_close dispatch on_close feed id CloseExample.conn_join CloseExample.root CloseExample.shutdown
    CloseExample.e2 (λ _, Runs stuck) root_ok shut true 1%N stuck (Single [2%N])).
  - apply CloseExample.run2.
  - reflexivity.
  - vm_compute. reflexivity.
  - reflexivity.
  - reflexivity.
  - discriminate.
  - reflexivity.
  - change (r_turns stuck) with ([] ++ [Item (Single [1%N]) (Ok ())] ++ [] ++ [] : list WriteTurn).
    eapply (wr_step true); [apply ws_recv|]. eapply (wr_step true); [apply ws_written|].
    eapply (wr_step true); [apply ws_recv|]. apply wr_refl.
Defined.
