(* ===== verification/NetStart.v ===== *)
(** * Starting packet input and output (base/src/net/rw.rs)

    The entry points that turn bound sockets into tasks: readers, writers and
    managed endpoints, the accept loop of the plain readers, and the
    registration front ends of the writer.  Handing a socket to tokio is two
    calls that can fail; a socket whose owner goes away is closed. *)
From S2P Require Import Prelude Errors Bytes NetFrame NetWriter NetClose NetConn.

Section start.
Context {Ip : Type} `{Countable Ip} {E : Type} `{PacketEncoder E}.
Notation SocketAddr := (Ip * N)%type.
Notation PacketWriter := (PacketWriter (Ip := Ip) (E := E)).

(** Sockets by number.  A task owns the sockets it was given. *)
Inductive Task :=
  | AcceptTcp (owned : bool) (tcp : N)          (* [spawn_tcp], [spawn_tcp_owned] *)
  | ReceiveUdp (udp : N)                        (* [spawn_udp_owned] *)
  | TcpListener (tcp : N)                       (* [run_tcp_listener] *)
  | UdpReceiver (udp : N)                       (* [run_udp_receiver] *)
  | Root (name : string) (tcp udp : option N).  (* [run_managed_packet_io] *)

Record Net := mkNet { tasks : list Task; closed_sockets : gset N }.
Definition spawn_task (t : Task) (n : Net) : Net := mkNet (tasks n ++ [t]) (closed_sockets n).
Definition drop_socket (s : N) (n : Net) : Net := mkNet (tasks n) ({[s]} ∪ closed_sockets n).
Definition drop_opt (s : option N) (n : Net) : Net :=
  match s with Some s => drop_socket s n | None => n end.

(** The pair [(tcp, udp)] the entry points take. *)
Definition Sockets : Type := option N * option N.

(** tokio's calls on a socket: what they fail with. *)
Context {IoError : Type} (display debug : IoError → string).
Context (set_nonblocking from_std : N → result () IoError).

(** [into_tokio_tcp_listener] and [into_tokio_udp_socket]: on an error the
    socket is dropped. *)
Definition into_tokio (s : N) (n : Net) : logged (GlobalResult N) * Net :=
  match set_nonblocking s with
  | Err e => (hand_log display debug (Err e), drop_socket s n)
  | Ok _ =>
      match from_std s with
      | Err e => (hand_log display debug (Err e), drop_socket s n)
      | Ok _ => ((Ok s, []), n)
      end
  end.
Definition into_tokio_tcp_listener : N → Net → logged (GlobalResult N) * Net := into_tokio.
Definition into_tokio_udp_socket : N → Net → logged (GlobalResult N) * Net := into_tokio.

(** [map(..).transpose()]. *)
Definition transpose (f : N → Net → logged (GlobalResult N) * Net) (s : option N) (n : Net) :
    logged (GlobalResult (option N)) * Net :=
  match s with
  | None => ((Ok None, []), n)
  | Some s => let '((r, l), n) := f s n in ((let? x := r in Ok (Some x), l), n)
  end.

(** [prepare_packet_io]: an error drops the other socket too. *)
Definition prepare_packet_io (tu : Sockets) (enc : E) (mode : TcpWriteMode) (n : Net) :
    logged (GlobalResult (option N * option N * PacketWriter)) * Net :=
  let '((r, l), n) := transpose into_tokio_tcp_listener tu.1 n in
  match r with
  | Err e => ((Err e, l), drop_opt tu.2 n)
  | Ok tcp =>
      let '((r, l'), n) := transpose into_tokio_udp_socket tu.2 n in
      match r with
      | Err e => ((Err e, l ++ l'), drop_opt tcp n)
      | Ok udp => ((Ok (tcp, udp, writer_new udp enc mode), l ++ l'), n)
      end
  end.

Definition rw_with_tcp_write_mode (tu : Sockets) (enc : E) (mode : TcpWriteMode) (n : Net) :
    logged (GlobalResult PacketWriter) * Net :=
  let '((r, l), n) := prepare_packet_io tu enc mode n in
  match r with
  | Err e => ((Err e, l), n)
  | Ok (tcp, udp, w) =>
      let n := match tcp with Some s => spawn_task (TcpListener s) n | None => n end in
      let n := match udp with Some s => spawn_task (UdpReceiver s) n | None => n end in
      ((Ok w, l), n)
  end.
Definition rw (tu : Sockets) (enc : E) : Net → logged (GlobalResult PacketWriter) * Net :=
  rw_with_tcp_write_mode tu enc default_write_mode.
Definition direct_rw (tu : Sockets) (enc : E) : Net → logged (GlobalResult PacketWriter) * Net :=
  rw_with_tcp_write_mode tu enc Direct.

(** [managed_rw_with_tcp_write_mode]; [runtime_spawn] is what the runtime says
    to a task of that name.  A refused task is dropped with its sockets, and
    the writer with its share of the datagram socket. *)
Definition managed_rw_with_tcp_write_mode (runtime_spawn : string → GlobalResult ()) (name : string)
    (tu : Sockets) (enc : E) (mode : TcpWriteMode) (n : Net) :
    logged (GlobalResult (PacketWriter * Endpoint)) * Net :=
  let '((r, l), n) := prepare_packet_io tu enc mode n in
  match r with
  | Err e => ((Err e, l), n)
  | Ok (tcp, udp, w) =>
      match runtime_spawn name with
      | Err e => ((Err e, l), drop_opt udp (drop_opt tcp n))
      | Ok _ => ((Ok (w, endpoint_new), l), spawn_task (Root name tcp udp) n)
      end
  end.
Definition managed_rw runtime_spawn name (tu : Sockets) (enc : E) :
    Net → logged (GlobalResult (PacketWriter * Endpoint)) * Net :=
  managed_rw_with_tcp_write_mode runtime_spawn name tu enc default_write_mode.
Definition managed_direct_rw runtime_spawn name (tu : Sockets) (enc : E) :
    Net → logged (GlobalResult (PacketWriter * Endpoint)) * Net :=
  managed_rw_with_tcp_write_mode runtime_spawn name tu enc Direct.

(** ** Plain readers *)

Definition spawn_tcp (owned : bool) (tcp : N) (n : Net) : logged (GlobalResult ()) * Net :=
  let '((r, l), n) := into_tokio tcp n in
  match r with
  | Err e => ((Err e, l), n)
  | Ok s => ((Ok (), l), spawn_task (AcceptTcp owned s) n)
  end.
Definition spawn_udp (udp : N) (n : Net) : logged (GlobalResult ()) * Net :=
  let '((r, l), n) := into_tokio udp n in
  match r with
  | Err e => ((Err e, l), n)
  | Ok s => ((Ok (), l), spawn_task (ReceiveUdp s) n)
  end.

Definition spawn_tcp_owned : N → Net → logged (GlobalResult ()) * Net := spawn_tcp true.

(** [reader] and [owned_reader]: a failure of the first drops the second. *)
Definition reader_with (owned : bool) (tu : Sockets) (n : Net) : logged (GlobalResult ()) * Net :=
  match tu with
  | (Some tcp, None) => spawn_tcp owned tcp n
  | (None, Some udp) => spawn_udp udp n
  | (Some tcp, Some udp) =>
      let '((r, l), n) := spawn_tcp owned tcp n in
      match r with
      | Err e => ((Err e, l), drop_socket udp n)
      | Ok _ => let '((r, l'), n) := spawn_udp udp n in ((r, l ++ l'), n)
      end
  | (None, None) => ((Ok (), []), n)
  end.
Definition reader : Sockets → Net → logged (GlobalResult ()) * Net := reader_with false.
Definition owned_reader : Sockets → Net → logged (GlobalResult ()) * Net := reader_with true.

(** ** The accept loop of the plain readers *)

(** What a turn finds: [accept]'s result if it is ready, and whether the
    token is cancelled, at the select and during the back-off.  The select is
    biased: it looks at [accept] first. *)
Record AcceptTurn := mkAcceptTurn {
  at_accept : option (result SocketAddr IoError);
  at_cancelled : bool;
  at_cancelled_asleep : bool
}.
(** The connections that got a task, the back-off, and whether the loop goes
    on; a turn in which nothing is ready waits on. *)
Definition spawn_accept_turn (backoff : N → N) (st : list SocketAddr * N) (t : AcceptTurn) :
    (list SocketAddr * N) * bool :=
  match at_accept t with
  | Some (Ok addr) => ((st.1 ++ [addr], 0%N), true)
  | Some (Err _) => ((st.1, backoff st.2), negb (at_cancelled_asleep t))
  | None => (st, negb (at_cancelled t))
  end.
Fixpoint spawn_accept_loop (backoff : N → N) (st : list SocketAddr * N) (ts : list AcceptTurn) :
    (list SocketAddr * N) * bool :=
  match ts with
  | [] => (st, true)
  | t :: ts =>
      let '(st, go) := spawn_accept_turn backoff st t in
      if go then spawn_accept_loop backoff st ts else (st, false)
  end.

(** ** Registering from outside *)

Definition insert_registered_tcp_writer (w : PacketWriter) (addr : SocketAddr) (sender cancel : N) :
    option TcpWriterRegistration * PacketWriter :=
  insert_tcp_sink w addr (QueuedSink addr sender cancel).
Definition insert_tcp_writer (w : PacketWriter) (addr : SocketAddr) (sender cancel : N) : PacketWriter :=
  (insert_registered_tcp_writer w addr sender cancel).2.
Definition insert_registered_direct_tcp_writer (w : PacketWriter) (addr : SocketAddr) (stream cancel : N) :
    option TcpWriterRegistration * PacketWriter :=
  insert_tcp_sink w addr (DirectSink addr stream cancel).
Definition insert_direct_tcp_writer (w : PacketWriter) (addr : SocketAddr) (stream cancel : N) : PacketWriter :=
  (insert_registered_direct_tcp_writer w addr stream cancel).2.

(** ** Connection handles and the reaper *)

(** [task_is_finished]: [None] is a close state that someone holds; the task
    of a handle may have ended. *)
Definition task_is_finished (c : Conn) (locked task_ended : bool) : bool :=
  if locked then false else c_completed c || negb (c_task c) || task_ended.

(** [reap_finished_connections]: the finished ones are collected, then closed
    one after the other. *)
Definition reap_finished_connections (conn_join : N → result (GlobalResult ()) JoinError)
    (locked ended : N → bool) (e : Endpoint) : Endpoint :=
  let finished := filter (λ id, match conns e !! id with
                                | Some c => task_is_finished c (locked id) (ended id)
                                | None => false
                                end = true) (elements (active e)) in
  close_pass conn_join e finished.

(** Dropping the endpoint's handle, or the last one of a connection, cancels. *)
Definition drop_endpoint (e : Endpoint) : Endpoint := cancel_endpoint e.

(** ** Theorems *)

Definition given (tu : Sockets) : gset N :=
  match tu.1 with Some s => {[s]} | None => ∅ end ∪ match tu.2 with Some s => {[s]} | None => ∅ end.
Definition usable (s : N) : bool := is_ok (set_nonblocking s) && is_ok (from_std s).
Definition usable_opt (s : option N) : bool := match s with Some s => usable s | None => true end.

Lemma into_tokio_spec s n :
  let '((r, l), n') := into_tokio s n in
  if usable s then r = Ok s ∧ l = [] ∧ n' = n
  else is_ok r = false ∧ length l = 1 ∧ n' = drop_socket s n.
Proof.
  unfold into_tokio, usable. destruct (set_nonblocking s) as [[]|e]; simpl; [|done].
  by destruct (from_std s) as [[]|e].
Qed.

Lemma transpose_spec s n :
  let '((r, l), n') := transpose into_tokio s n in
  if usable_opt s then r = Ok s ∧ l = [] ∧ n' = n
  else is_ok r = false ∧ length l = 1 ∧ n' = drop_opt s n.
Proof.
  destruct s as [s|]; [|done]. simpl. pose proof (into_tokio_spec s n) as Hs.
  destruct (into_tokio s n) as [[r l] n']. destruct (usable s).
  - by destruct Hs as (-> & -> & ->).
  - destruct Hs as (Hr & Hl & ->). by destruct r.
Qed.

Lemma prepare_spec tu enc mode n :
  let '((r, l), n') := prepare_packet_io tu enc mode n in
  if usable_opt tu.1 && usable_opt tu.2
  then r = Ok (tu.1, tu.2, writer_new tu.2 enc mode) ∧ l = [] ∧ n' = n
  else is_ok r = false ∧ length l = 1 ∧ tasks n' = tasks n ∧ closed_sockets n' = given tu ∪ closed_sockets n.
Proof.
  unfold prepare_packet_io, into_tokio_tcp_listener, into_tokio_udp_socket, given.
  pose proof (transpose_spec tu.1 n) as Ht. destruct (transpose into_tokio tu.1 n) as [[r l] n1].
  destruct (usable_opt tu.1); simpl.
  - destruct Ht as (-> & -> & ->). pose proof (transpose_spec tu.2 n) as Hu.
    destruct (transpose into_tokio tu.2 n) as [[r' l'] n2]. destruct (usable_opt tu.2).
    + by destruct Hu as (-> & -> & ->).
    + destruct Hu as (Hr & Hl & ->). destruct r'; [done|]. simpl. split_and!; [done|done| |].
      * by destruct tu as [[] []].
      * destruct tu as [[] []]; simpl; set_solver.
  - destruct Ht as (Hr & Hl & ->). destruct r; [done|]. split_and!; [done|done| |].
    + by destruct tu as [[] []].
    + destruct tu as [[] []]; simpl; set_solver.
Qed.

(** The tasks [rw] starts. *)
Definition rw_tasks (tu : Sockets) : list Task :=
  match tu.1 with Some s => [TcpListener s] | None => [] end ++
  match tu.2 with Some s => [UdpReceiver s] | None => [] end.

(** C26: the writer's entry points start all of it or nothing: either every
    socket works for tokio (and the runtime takes the root task), the tasks
    for exactly the given sockets run and the writer holds the datagram
    socket, or an error is returned, no task was started, and every given
    socket is closed. *)
Theorem start_all_or_nothing (tu : Sockets) (enc : E) (mode : TcpWriteMode) (n : Net)
    (runtime_spawn : string → GlobalResult ()) (name : string) :
  (let '((r, _), n') := rw_with_tcp_write_mode tu enc mode n in
   match r with
   | Ok w => w = writer_new tu.2 enc mode ∧ tasks n' = tasks n ++ rw_tasks tu ∧
       closed_sockets n' = closed_sockets n
   | Err _ => usable_opt tu.1 && usable_opt tu.2 = false ∧ tasks n' = tasks n ∧
       closed_sockets n' = given tu ∪ closed_sockets n
   end) ∧
  (let '((r, _), n') := managed_rw_with_tcp_write_mode runtime_spawn name tu enc mode n in
   match r with
   | Ok (w, e) => w = writer_new tu.2 enc mode ∧ e = endpoint_new ∧
       tasks n' = tasks n ++ [Root name tu.1 tu.2] ∧ closed_sockets n' = closed_sockets n
   | Err _ => usable_opt tu.1 && usable_opt tu.2 && is_ok (runtime_spawn name) = false ∧
       tasks n' = tasks n ∧ closed_sockets n' = given tu ∪ closed_sockets n
   end).
Proof.
  unfold rw_with_tcp_write_mode, managed_rw_with_tcp_write_mode.
  pose proof (prepare_spec tu enc mode n) as Hp.
  destruct (prepare_packet_io tu enc mode n) as [[r l] n1].
  destruct (usable_opt tu.1 && usable_opt tu.2).
  - destruct Hp as (-> & _ & ->). split.
    + unfold rw_tasks. destruct tu as [[] []]; simpl; by rewrite ?app_nil_r, <- ?app_assoc.
    + destruct (runtime_spawn name) as [[]|e]; simpl; [done|]. split; [done|].
      unfold given. destruct tu as [[] []]; simpl; split; try done; set_solver.
  - destruct Hp as (Hr & _ & Ht & Hc). by destruct r.
Qed.

(** The plain readers are not: with both sockets, and a datagram socket that
    tokio refuses, the error comes with the accept task running. *)
Lemma reader_half_started owned tcp udp n : usable tcp = true → usable udp = false →
  let '((r, _), n') := reader_with owned (Some tcp, Some udp) n in
  is_ok r = false ∧ tasks n' = tasks n ++ [AcceptTcp owned tcp] ∧ udp ∈ closed_sockets n'.
Proof.
  intros Ht Hu. unfold reader_with, spawn_tcp, spawn_udp.
  pose proof (into_tokio_spec tcp n) as H1. rewrite Ht in H1. destruct (into_tokio tcp n) as [[r l] n1].
  destruct H1 as (-> & -> & ->). simpl.
  pose proof (into_tokio_spec udp (spawn_task (AcceptTcp owned tcp) n)) as H2. rewrite Hu in H2.
  destruct (into_tokio udp _) as [[r' l'] n2]. destruct H2 as (Hr & _ & ->). destruct r'; [done|].
  simpl. split_and!; [done|done|set_solver].
Qed.

(** A cancelled plain reader goes on as long as connections are waiting: the
    biased select finds [accept] ready first. *)
Lemma accepts_after_cancel backoff (addrs : list SocketAddr) st :
  spawn_accept_loop backoff st ((λ a, mkAcceptTurn (Some (Ok a)) true true) <$> addrs) =
  ((st.1 ++ addrs, match addrs with [] => st.2 | _ => 0%N end), true).
Proof.
  revert st. induction addrs as [|a addrs IH]; intros [as_ b]; simpl; [by rewrite app_nil_r|].
  rewrite IH. simpl. rewrite <- app_assoc. by destruct addrs.
Qed.

(** The loop is left in the first turn in which no connection waits and the
    token is cancelled. *)
Lemma accept_loop_leaves backoff st ts t ts' :
  at_accept t = None → at_cancelled t = true → (spawn_accept_loop backoff st (ts ++ t :: ts')).2 = false.
Proof.
  intros Ha Hc. revert st. induction ts as [|t0 ts IH]; intros st; simpl.
  - unfold spawn_accept_turn. rewrite Ha, Hc. done.
  - destruct (spawn_accept_turn backoff st t0) as [st' []]; [apply IH|done].
Qed.
End start.
