(* ===== verification/NetHandle.v ===== *)
(** * Handles: sinks, reservations, connections and their owners (base/src/net/rw.rs)

    What the values an application holds promise by being held: a clone of a
    sink names the same channel and token, a connect's reservation lasts as
    long as its guard, and a connection's inner value lives as long as one of
    its handles, of which the endpoint's table holds one.  [Owned] adds the
    counts of these handles and the endpoint's own life to the state of
    [NetClose]. *)
From S2P Require Import Prelude Errors Bytes NetFrame NetWriter NetClose NetStart.

(** [raw_rw]: packets as they are. *)
Definition raw_rw {Ip : Type} `{Countable Ip} {IoError : Type} (display debug : IoError → string)
    (set_nonblocking from_std : N → result () IoError) (tu : Sockets) :
    Net → logged (GlobalResult (PacketWriter (Ip := Ip))) * Net :=
  rw display debug set_nonblocking from_std tu Raw.

(** ** Sinks *)

Section sinks.
Context {Ip : Type} `{Countable Ip} {E : Type} `{PacketEncoder E}.
Notation PacketWriter := (PacketWriter (Ip := Ip) (E := E)).
Implicit Types w : PacketWriter.

(** [QueuedTcpSink::new] and [DirectTcpSink::new]; the encoder is the
    writer's. *)
Definition queued_new (remote_addr : Ip * N) (sender cancel : N) : TcpPacketSink := QueuedSink remote_addr sender cancel.
Definition direct_new (remote_addr : Ip * N) (stream cancel : N) : TcpPacketSink := DirectSink remote_addr stream cancel.

(** [QueuedTcpSink] and [DirectTcpSink]: [close], [is_closed].  A clone is
    the same value: it shares the channel or stream, and the token. *)
Definition queued_close w (tok : N) : PacketWriter := cancel tok w.
Definition sender_is_closed w (ch : N) : bool :=
  match chans w !! ch with Some c => ch_closed c | None => true end.
Definition queued_is_closed w (ch tok : N) : bool := is_cancelled w tok || sender_is_closed w ch.
Definition direct_close w (tok : N) : PacketWriter := cancel tok w.
Definition direct_is_closed w (tok : N) : bool := is_cancelled w tok.

(** A closed sink takes nothing: neither write queues a packet, whatever the
    data (unless the encoder panics first), and it stays closed. *)
Lemma queued_closed_refuses w ch tok data :
  queued_is_closed w ch tok = true → (∃ r, encode_tcp (encoder w) data = Ret r) →
  (∃ e, queued_try_write w ch tok data = Ret (Err e, w)) ∧
  (∃ e, queued_write w ch tok data id = Ret (Some (Err e, w))).
Proof.
  intros Hc [r Hr]. unfold queued_try_write, queued_write. unfold queued_is_closed in Hc.
  destruct (is_cancelled w tok) eqn:Htok; [by split; eexists|]. rewrite Hr. cbn [mbind exec_bind].
  unfold sender_is_closed in Hc. destruct r as [p|e]; [|by split; eexists].
  unfold queued_write_poll, try_send. cbn [id]. rewrite Htok. destruct (chans w !! ch) as [c|]; [|by split; eexists].
  simpl in Hc. rewrite Hc. by split; eexists.
Qed.

Lemma close_sink_closes w ch tok : queued_is_closed (queued_close w tok) ch tok = true ∧
  direct_is_closed (direct_close w tok) tok = true.
Proof.
  unfold queued_is_closed, direct_is_closed, is_cancelled.
  rewrite !bool_decide_eq_true_2; [done|simpl; set_solver..].
Qed.

(** [ManagedTcpConnection]: the addresses are the inner value's; a write goes
    to whatever sink the address has. *)
Record ManagedTcpConnection := mkHandle {
  h_connection_id : N;
  h_local_addr : Ip * N;
  h_remote_addr : Ip * N;
}.
Definition managed_write w (h : ManagedTcpConnection) (data : list byte) (wait : PacketWriter → PacketWriter)
    (udp_send : N → list byte → Ip * N → GlobalResult unit) (io : EncodedPacket → option (GlobalResult unit)) :
    exec (option (GlobalResult unit * PacketWriter)) :=
  write_to w data (h_remote_addr h) TCP wait udp_send io.
End sinks.

(** ** Reservations of connects *)

Section reservations.
Context {Addr : Type} `{Countable Addr}.
Context (has_tcp_writer : Addr → bool).

(** The set of [connecting_tcp_peers] and the guards that are alive, one per
    connect under way. *)
Record Reservations := mkReservations { connecting : gset Addr; guards : list Addr }.

(** [Drop for TcpConnectReservation]. *)
Definition drop_reservation (addr : Addr) (s : gset Addr) : gset Addr := s ∖ {[addr]}.

Inductive rsv_step (r : Reservations) : Reservations → Prop :=
  | rsv_reserve addr s :
      reserve_tcp_connect has_tcp_writer (connecting r) addr = (Ok (), s) →
      rsv_step r (mkReservations s (addr :: guards r))
  | rsv_refused addr e s :
      reserve_tcp_connect has_tcp_writer (connecting r) addr = (Err e, s) →
      rsv_step r (mkReservations s (guards r))
  | rsv_drop i addr :
      guards r !! i = Some addr →
      rsv_step r (mkReservations (drop_reservation addr (connecting r)) (delete i (guards r))).

Record rsv_ok (r : Reservations) : Prop := {
  ro_nodup : NoDup (guards r);
  ro_set : connecting r = list_to_set (guards r);
}.

Lemma rsv_step_ok r r' : rsv_ok r → rsv_step r r' → rsv_ok r'.
Proof.
  intros [Hn Hs]. destruct 1 as [addr s Hr|addr e s Hr|i addr Hi]; unfold reserve_tcp_connect in *.
  - destruct (has_tcp_writer addr); [done|]. case_decide as Hin; [done|]. injection Hr as <-.
    split; simpl; [|by rewrite Hs]. constructor; [|done]. intros Hg. apply Hin. rewrite Hs. set_solver.
  - destruct (has_tcp_writer addr); [|case_decide; [|done]]; injection Hr as _ <-; by split.
  - pose proof (delete_Permutation (guards r) i addr Hi) as Hp. rewrite Hp in Hn.
    apply NoDup_cons in Hn as [Hnin Hn]. split; simpl; [done|].
    unfold drop_reservation. rewrite Hs, (list_to_set_perm_L _ _ Hp). set_solver.
Qed.

(** At any moment the addresses reserved are exactly those of the connects
    under way, each once: two connects to one address never run together, and
    a connect that ends, however it ends, leaves its address free. *)
Theorem reservations_exclusive r :
  rtc rsv_step (mkReservations ∅ []) r →
  NoDup (guards r) ∧ connecting r = list_to_set (guards r) ∧
  (∀ addr, has_tcp_writer addr = false →
     is_ok (reserve_tcp_connect has_tcp_writer (connecting r) addr).1 = bool_decide (addr ∉ guards r)).
Proof.
  intros Hr. assert (rsv_ok r) as [Hn Hs].
  { assert (Hgo : ∀ a b, rtc rsv_step a b → rsv_ok a → rsv_ok b).
    { induction 1 as [|a b c Hst _ IH]; [done|]. intros Ha. by eapply IH, rsv_step_ok. }
    apply (Hgo _ _ Hr). split; [constructor|done]. }
  split_and!; [done..|]. intros addr Hw. unfold reserve_tcp_connect. rewrite Hw, Hs.
  case_decide as Hin; simpl; symmetry; [apply bool_decide_eq_false|apply bool_decide_eq_true]; set_solver.
Qed.
End reservations.

(** ** Connections and their owners *)

(** The endpoint, whether its [ManagedPacketIo] is still held, and the handles
    to each connection outside the endpoint's table. *)
Record Owned := mkOwned { ep : Endpoint; io_alive : bool; refs : gmap N nat }.

Section owned.
Context (conn_join : N → result (GlobalResult unit) JoinError).
Context (root_join : result Report JoinError) (shutdown : N → bool).
Implicit Types o : Owned.

Definition handles o (id : N) : nat := default 0 (refs o !! id).

(** [Arc<ManagedTcpConnectionInner>]: alive while a handle or the table of a
    live endpoint holds it. *)
Definition inner_alive o (id : N) : bool :=
  (0 <? handles o id)%nat || (io_alive o && bool_decide (id ∈ active (ep o))).

(** The connection's token is a child of the endpoint's. *)
Definition token_cancelled o (id : N) : bool :=
  e_cancel (ep o) || match conns (ep o) !! id with Some c => c_cancel c | None => false end.

Definition cancel_conn (c : Conn) : Conn :=
  mkConn (c_task c) true (c_report c) (c_completed c) (c_failure_logged c) (c_owner_registered c).
Definition set_conn_map (cs : gmap N Conn) (act : gset N) (e : Endpoint) : Endpoint :=
  set_conns cs act (completed_report e) e.

(** [Drop for ManagedTcpConnectionInner], when the last handle has gone. *)
Definition drop_inner o (id : N) : Owned :=
  if inner_alive o id then o
  else mkOwned (set_conn_map (alter cancel_conn id (conns (ep o))) (active (ep o)) (ep o)) (io_alive o) (refs o).

(** [Clone for ManagedTcpConnection], and the end of a clone. *)
Definition clone_handle o (id : N) : Owned :=
  mkOwned (ep o) (io_alive o) (<[id := S (handles o id)]> (refs o)).
Definition drop_handle o (id : N) : Owned :=
  drop_inner (mkOwned (ep o) (io_alive o) (<[id := pred (handles o id)]> (refs o))) id.

(** A handle's [close_and_wait]; with the endpoint gone its table and report
    are too, and [finalize_owner] only clears the flag. *)
Definition handle_close o (id : N) : logged (GlobalResult Report) * Owned :=
  let '(res, e) := conn_close conn_join (ep o) id in
  let e := if io_alive o then e else set_conn_map (conns e) (active (ep o)) (ep o) in
  (res, drop_inner (mkOwned e (io_alive o) (refs o)) id).

(** The end of [connect_tcp]: the caller's handle, or none.  The connect's own
    handle, between its awaits, is that of its future. *)
Definition connect_owned o (ready : bool) : GlobalResult N * Owned :=
  let '(r, e) := connect_spawned conn_join (ep o) id ready in
  (r, mkOwned e (io_alive o) (match r with Ok id => <[id := 1]> (refs o) | Err _ => refs o end)).

(** [Drop for ManagedPacketIo]: the token first, then the fields, and with
    the table the handles in it. *)
Definition drop_io o : Owned :=
  let e := drop_endpoint (ep o) in
  let cs := map_imap (λ id c, Some (if bool_decide (id ∈ active e) && (handles o id =? 0)%nat
                                    then cancel_conn c else c)) (conns e) in
  mkOwned (set_conn_map cs ∅ e) false (refs o).

(** What the holders of the endpoint and of its connections do.  A close of
    the endpoint, finished or dropped, and its reaper work on clones of the
    table's handles; those they drop last are of closed connections, whose
    tokens are cancelled already. *)
Inductive own_step o : Owned → Prop :=
  | own_connect ready : io_alive o = true → (next_connection_id (ep o) < u64_max)%N →
      own_step o (connect_owned o ready).2
  | own_clone id : 0 < handles o id → own_step o (clone_handle o id)
  | own_drop id : 0 < handles o id → own_step o (drop_handle o id)
  | own_close id : 0 < handles o id → is_Some (conns (ep o) !! id) → own_step o (handle_close o id).2
  | own_reap id : io_alive o = true → id ∈ active (ep o) →
      own_step o (mkOwned (conn_close conn_join (ep o) id).2 true (refs o))
  | own_interrupted b e : io_alive o = true → e_completed (ep o) = false →
      interrupted conn_join shutdown (ep o) b e → own_step o (mkOwned e true (refs o))
  | own_close_io res e : io_alive o = true →
      close_and_wait conn_join root_join shutdown (ep o) = Some (res, e) → own_step o (mkOwned e true (refs o))
  | own_drop_io : io_alive o = true → own_step o (drop_io o).

(** ** Invariant *)

(** A connection was awaited, with its token cancelled, or its task runs and
    the endpoint still has to hear of it. *)
Definition conn_ok (c : Conn) : Prop :=
  if c_completed c then c_task c = false ∧ c_cancel c = true else c_task c = true ∧ c_owner_registered c = true.
Definition conns_ok (e : Endpoint) : Prop := map_Forall (λ _, conn_ok) (conns e).

Lemma conn_close_conns e id : conns_ok e → conns_ok (conn_close conn_join e id).2.
Proof.
  intros He. unfold conn_close. destruct (conns e !! id) as [c|] eqn:Hc; [|done].
  pose proof (He id c Hc) as Hok. unfold conn_ok in Hok.
  destruct (c_completed c) eqn:Hcc; unfold finalize_owner; simpl; destruct (c_owner_registered c); simpl;
    by apply map_Forall_insert_2; [unfold conn_ok; simpl; rewrite ?Hcc|].
Qed.

(** The token of a closed connection is cancelled. *)
Lemma conn_close_cancels e id c : conns_ok e → conns (conn_close conn_join e id).2 !! id = Some c → c_cancel c = true.
Proof.
  intros He. unfold conn_close. destruct (conns e !! id) as [c0|] eqn:Hc; [|simpl; intros; congruence].
  pose proof (He id c0 Hc) as Hok. unfold conn_ok in Hok.
  destruct (c_completed c0) eqn:Hcc; unfold finalize_owner; simpl; destruct (c_owner_registered c0); simpl;
    rewrite lookup_insert_eq; intros [= <-]; [apply Hok..|done|done].
Qed.

Lemma close_pass_conns ids e : conns_ok e → conns_ok (close_pass conn_join e ids).
Proof.
  unfold close_pass. revert e. induction ids as [|id ids IH]; intros e He; [done|]. by apply IH, conn_close_conns.
Qed.

Lemma close_writer_conns e : conns_ok e → conns_ok (close_writer shutdown e).
Proof. intros He. unfold conns_ok. by rewrite (proj1 (proj2 (proj2 (proj2 (close_writer_spec conn_join root_join shutdown e))))). Qed.

Lemma begin_conn_close_conns e id : conns_ok e → conns_ok (begin_conn_close e id).
Proof.
  intros He. unfold begin_conn_close. destruct (conns e !! id) as [c|] eqn:Hc; [|done].
  pose proof (He id c Hc) as Hok. destruct (c_completed c) eqn:Hcc; [done|].
  apply map_Forall_insert_2; [|done]. unfold conn_ok in *. simpl. by rewrite Hcc in Hok.
Qed.

Lemma close_connections_conns n e e' : conns_ok e → close_connections conn_join n e = Some e' → conns_ok e'.
Proof.
  revert e. induction n as [|n IH]; intros e He; simpl; case_decide; [by intros [= <-]|done|by intros [= <-]|].
  by apply IH, close_pass_conns.
Qed.

Lemma interrupted_conns b e e' : conns_ok e → interrupted conn_join shutdown e b e' → conns_ok e'.
Proof.
  intros He. assert (Hpass : ∀ ids, conns_ok (close_pass conn_join (close_writer shutdown e) ids)).
  { intros ids. by apply close_pass_conns, close_writer_conns. }
  destruct 1 as [|ids|ids id|e1 He1]; [done|done|by apply begin_conn_close_conns|].
  eapply close_connections_conns in He1; [exact He1|by apply close_writer_conns].
Qed.

Lemma close_conns e res e' : conns_ok e → close_and_wait conn_join root_join shutdown e = Some (res, e') → conns_ok e'.
Proof.
  intros He. unfold close_and_wait. destruct (e_completed e); [by intros [= _ <-]|].
  destruct (close_connections conn_join 1 (close_writer shutdown e)) as [e1|] eqn:Hc; [|done].
  eapply close_connections_conns in Hc; [|by apply close_writer_conns]. intros [= _ <-].
  unfold conns_ok, join_root. by destruct (root_task (merge_completed e1)).
Qed.

Lemma alloc_close_conns e : conns_ok e → conns_ok (conn_close conn_join (alloc_conn e).2 (alloc_conn e).1).2.
Proof.
  intros He. unfold conn_close, alloc_conn. simpl. rewrite lookup_insert_eq. simpl. unfold finalize_owner. simpl.
  rewrite insert_insert_eq. by apply map_Forall_insert_2.
Qed.

Lemma connect_spawned_conns e ready : conns_ok e → conns_ok (connect_spawned conn_join e id ready).2.
Proof.
  intros He. pose proof (alloc_close_conns e He) as Hc.
  unfold connect_spawned, connect_finish, connect_register, register_conn.
  destruct (alloc_conn e) as [i e1] eqn:Ha. simpl in Hc. unfold id.
  destruct ready; [|done]. destruct (e_cancel e1 || e_completed e1); [done|]. simpl.
  injection Ha as <- <-. simpl. rewrite lookup_insert_eq. simpl. rewrite insert_insert_eq. by apply map_Forall_insert_2.
Qed.
Lemma connect_spawned_endpoint_ok e ready : endpoint_ok e → (next_connection_id e < u64_max)%N →
  endpoint_ok (connect_spawned conn_join e id ready).2.
Proof.
  intros He Hn. pose proof (alloc_conn_ok conn_join shutdown e He Hn) as Ha. unfold connect_spawned.
  destruct (alloc_conn e) as [i e1]. destruct Ha as (Hok & _ & _ & _ & Hc & _).
  apply (connect_finish_ok conn_join root_join shutdown); [done|]. unfold id. by rewrite Hc, lookup_insert_eq.
Qed.

Record own_ok o : Prop := {
  oo_ep : io_alive o = true → endpoint_ok (ep o);
  oo_conns : conns_ok (ep o);
  oo_gone : io_alive o = false → e_cancel (ep o) = true ∧ active (ep o) = ∅;
  oo_inner : ∀ id c, conns (ep o) !! id = Some c → inner_alive o id = false → c_cancel c = true;
}.

Lemma token_conns e id c : conns_ok e → conns e !! id = Some c →
  c_cancel c = true ∨ (c_completed c = false ∧ c_task c = true ∧ c_owner_registered c = true).
Proof.
  intros He Hc. pose proof (He id c Hc) as H. unfold conn_ok in H.
  destruct (c_completed c); [left; apply H|right; by destruct H].
Qed.

(** With a live endpoint the table holds whatever is not cancelled. *)
Lemma own_live e rf : endpoint_ok e → conns_ok e → own_ok (mkOwned e true rf).
Proof.
  intros Hep Hc. split; try done. intros id c Hid Hin.
  destruct (token_conns e id c Hc Hid) as [?|(_ & _ & Hreg)]; [done|].
  unfold inner_alive in Hin. simpl in Hin. apply orb_false_iff in Hin as [_ Hin].
  apply bool_decide_eq_false in Hin. destruct Hin. apply (eo_active _ Hep). by exists c.
Qed.

Lemma drop_inner_ok o id : (io_alive o = true → endpoint_ok (ep o)) → conns_ok (ep o) →
  (io_alive o = false → e_cancel (ep o) = true ∧ active (ep o) = ∅) →
  (∀ j c, j ≠ id → conns (ep o) !! j = Some c → inner_alive o j = false → c_cancel c = true) →
  own_ok (drop_inner o id).
Proof.
  intros Hep Hc Hg Hi. unfold drop_inner. destruct (inner_alive o id) eqn:Hin.
  { split; try done. intros j c Hj Hn. apply (Hi j c); [congruence|done..]. }
  assert (Halt : ∀ j c, alter cancel_conn id (conns (ep o)) !! j = Some c →
    ∃ c0, conns (ep o) !! j = Some c0 ∧ (c = c0 ∧ j ≠ id ∨ c = cancel_conn c0)).
  { intros j c. destruct (decide (j = id)) as [->|Hne].
    - rewrite lookup_alter_eq. intros (c0 & -> & Hc0)%fmap_Some. exists c0. split; [done|]. by right.
    - rewrite lookup_alter_ne by done. intros Hj. exists c. split; [done|]. by left. }
  assert (Hok : conns_ok (set_conn_map (alter cancel_conn id (conns (ep o))) (active (ep o)) (ep o))).
  { intros j c (c0 & Hc0 & [[-> _]| ->])%Halt; [by apply (Hc j)|]. specialize (Hc j c0 Hc0).
    unfold conn_ok in *. simpl. by destruct (c_completed c0), Hc. }
  split; simpl; [|done|done|].
  - intros Hal. destruct (Hep Hal) as [Ha Hid]. split; simpl.
    + intros j. rewrite Ha. split; intros (c & Hj & Hr).
      * destruct (decide (j = id)) as [->|Hne].
        -- exists (cancel_conn c). rewrite lookup_alter_eq, Hj. done.
        -- exists c. by rewrite lookup_alter_ne.
      * apply Halt in Hj as (c0 & Hc0 & [[-> _]| ->]); by exists c0.
    + intros j c (c0 & Hc0 & _)%Halt. by apply (Hid j c0).
  - intros j c (c0 & Hc0 & [[-> Hne]| ->])%Halt Hn; [by apply (Hi j c0)|done].
Qed.

Lemma handle_close_ok o id : own_ok o → is_Some (conns (ep o) !! id) → own_ok (handle_close o id).2.
Proof.
  intros [Hep Hc Hg Hi] Hid. unfold handle_close.
  pose proof (conn_close_conns (ep o) id Hc) as Hc'. pose proof (conn_close_cancels (ep o) id) as Hcan.
  pose proof (λ H, conn_close_spec conn_join root_join shutdown (ep o) id H Hid) as Hsp.
  destruct (conn_close conn_join (ep o) id) as [res e] eqn:He. cbn [snd] in *.
  destruct (io_alive o) eqn:Hal.
  - apply drop_inner_ok; simpl; [intros _; by apply Hsp, Hep|done|done|].
    intros j c _ Hj Hin. destruct (Hsp (Hep eq_refl)) as (Hok & _).
    by apply (oo_inner _ (own_live e (refs o) Hok Hc') j c).
  - apply drop_inner_ok; simpl; [done|done|done|]. intros j c Hne Hj Hin.
    apply (Hi j c); [|unfold inner_alive; rewrite Hal; exact Hin].
    assert (conns e !! j = conns (ep o) !! j) as <-; [|done].
    replace e with (conn_close conn_join (ep o) id).2 by by rewrite He.
    unfold conn_close. destruct (conns (ep o) !! id) as [c0|]; [|done].
    destruct (c_completed c0); unfold finalize_owner; case_match; simpl; by rewrite lookup_insert_ne.
Qed.

Lemma drop_io_ok o : own_ok o → own_ok (drop_io o).
Proof.
  intros [Hep Hc Hg Hi]. split; simpl; [done| |done|].
  - intros id c. simpl. rewrite map_lookup_imap. intros (c0 & Hc0 & [= <-])%bind_Some.
    specialize (Hc id c0 Hc0). case_match; [|done]. unfold conn_ok in *. simpl. by destruct (c_completed c0), Hc.
  - intros id c. rewrite map_lookup_imap. intros (c0 & Hc0 & [= <-])%bind_Some Hin.
    unfold inner_alive in Hin. simpl in Hin. rewrite orb_false_r in Hin. apply Nat.ltb_ge in Hin.
    change (handles (mkOwned _ false (refs o)) id) with (handles o id) in Hin.
    case_match eqn:Hb; [done|]. apply (Hi id c0 Hc0). unfold inner_alive.
    apply orb_false_iff. split; [by apply Nat.ltb_ge|]. apply andb_false_iff in Hb as [Hb|Hb].
    + simpl in Hb. rewrite Hb. apply andb_false_r.
    + apply Nat.eqb_neq in Hb. destruct Hb. by apply Nat.le_0_r.
Qed.

Lemma own_step_ok o o' : own_ok o → own_step o o' → own_ok o'.
Proof.
  intros Hok. pose proof Hok as [Hep Hc Hg Hi].
  destruct 1 as [ready Hal Hn|id Hid|id Hid|id Hid Hs|id Hal Hid|b e Hal Hco Hin|res e Hal Hcl|Hal].
  - unfold connect_owned. pose proof (connect_spawned_endpoint_ok (ep o) ready (Hep Hal) Hn) as Hsp.
    pose proof (connect_spawned_conns (ep o) ready Hc) as Hc'.
    destruct (connect_spawned conn_join (ep o) id ready) as [r e]. rewrite Hal. by apply own_live.
  - split; simpl; try done. intros j c Hj Hn. apply (Hi j c Hj). unfold inner_alive in *. simpl in Hn.
    apply orb_false_iff in Hn as [Hn ->]. rewrite orb_false_r. unfold handles in *. simpl in Hn.
    destruct (decide (j = id)) as [->|Hne]; [by rewrite lookup_insert_eq in Hn|by rewrite lookup_insert_ne in Hn].
  - apply drop_inner_ok; simpl; [done..|]. intros j c Hne Hj Hn. apply (Hi j c Hj).
    unfold inner_alive, handles in *. simpl in Hn. by rewrite lookup_insert_ne in Hn.
  - by apply handle_close_ok.
  - apply own_live; [|by apply conn_close_conns].
    apply (conn_close_spec conn_join root_join shutdown); [by apply Hep|].
    apply (eo_active _ (Hep Hal)) in Hid as (c & Hcc & _). by exists c.
  - apply own_live; [|by eapply interrupted_conns].
    by apply (interrupted_expected conn_join root_join shutdown b (ep o) e (Hep Hal) Hco Hin).
  - apply own_live; [|by eapply close_conns]. by eapply close_ok, Hcl; apply Hep.
  - by apply drop_io_ok.
Qed.

Definition owned_new : Owned := mkOwned endpoint_new true ∅.

Lemma owned_reachable o : rtc own_step owned_new o → own_ok o.
Proof.
  assert (Hgo : ∀ a b, rtc own_step a b → own_ok a → own_ok b).
  { induction 1 as [|a b c Hst _ IH]; [done|]. intros Ha. by eapply IH, own_step_ok. }
  intros Hr. apply (Hgo _ _ Hr). by apply own_live; [apply endpoint_new_ok|].
Qed.

(** C6: No task of a connection is left without an owner: whatever the holders
    did, a task that has not been awaited either has its token cancelled or
    belongs to a live endpoint, whose close will await it; a connection that
    nothing holds any more is cancelled, and so is every connection of an
    endpoint that was dropped.  Dropping a handle, even the last, does not
    touch a connection that its endpoint still owns. *)
Theorem no_orphan_task o id c :
  rtc own_step owned_new o → conns (ep o) !! id = Some c →
  (c_task c = true → token_cancelled o id = false →
     io_alive o = true ∧ id ∈ active (ep o)) ∧
  (inner_alive o id = false → c_cancel c = true) ∧
  (io_alive o = false → token_cancelled o id = true) ∧
  (c_task c = true → io_alive o = true → ep (drop_handle o id) = ep o).
Proof.
  intros Hr Hc. destruct (owned_reachable o Hr) as [Hep Hcs Hg Hi].
  assert (Hact : c_task c = true → io_alive o = true → id ∈ active (ep o)).
  { intros Ht Hal. apply (eo_active _ (Hep Hal)). exists c. split; [done|].
    specialize (Hcs id c Hc). unfold conn_ok in Hcs. destruct (c_completed c); [destruct Hcs; congruence|apply Hcs]. }
  assert (Hdead : io_alive o = false → token_cancelled o id = true).
  { intros Hal. unfold token_cancelled. by rewrite (proj1 (Hg Hal)). }
  split_and!; [|by apply Hi|done|].
  - intros Ht Htok. assert (io_alive o = true) as Hal by (destruct (io_alive o); [done|by rewrite Hdead in Htok]).
    split; [done|by apply Hact].
  - intros Ht Hal. unfold drop_handle, drop_inner, inner_alive. simpl.
    rewrite Hal, (bool_decide_eq_true_2 _ (Hact Ht Hal)). by rewrite orb_true_r.
Qed.
End owned.

(** ** Reading from a socket *)

Section reading.
(** [BytesMut::reserve]: the capacity it grows to. *)
Context (reserve : N → N → N → N).

(** [tcp_stream_read_buf]: the capacity, and what of the [available] bytes of
    the stream the read appends: no more than the spare capacity. *)
Definition tcp_stream_read_buf (cap : N) (buf available : list byte) : N * list byte :=
  let cap := ensure_spare_capacity reserve cap (N.of_nat (length buf)) TCP_MIN_READ_SPARE TCP_READ_BUF_SIZE in
  (cap, take (N.to_nat (cap - N.of_nat (length buf))) available).

(** [udp_socket_read_owned_buf] into a buffer of [UDP_MAX_DATAGRAM_SIZE]
    bytes: a longer datagram is cut; an I/O error is logged. *)
Definition UDP_MAX_DATAGRAM_SIZE : N := u16_max.
Definition udp_socket_read_owned_buf {IoError : Type} (display debug : IoError → string) {Addr : Type}
    (recv_from : result (list byte * Addr) IoError) : logged (GlobalResult (list byte * Addr)) :=
  match recv_from with
  | Ok (data, addr) => (Ok (take (N.to_nat UDP_MAX_DATAGRAM_SIZE) data, addr), [])
  | Err e => hand_log display debug (Err e)
  end.

(** An empty read is the end of the stream and nothing else: the buffer never
    runs out of room, so a read gives at least one byte if there is one. *)
Lemma read_never_starves cap buf available :
  (∀ cap len more, len + more <= reserve cap len more)%N → available ≠ [] →
  (tcp_stream_read_buf cap buf available).2 ≠ [].
Proof.
  intros Hres Hav. unfold tcp_stream_read_buf, ensure_spare_capacity. cbn [snd].
  pose proof (Hres cap (N.of_nat (length buf)) TCP_READ_BUF_SIZE) as Hr.
  destruct available as [|b available]; [done|]. unfold TCP_MIN_READ_SPARE, TCP_READ_BUF_SIZE in *.
  case_N; intros Hn; apply (f_equal length) in Hn; rewrite length_take in Hn; cbn [length] in Hn; lia.
Qed.
End reading.

(** ** Witnesses *)

Module HandleExample.
Definition no_writer (_ : N) : bool := false.
Definition r1 : Reservations (Addr := N) := mkReservations {[7%N]} [7%N].
Definition conn_join (_ : N) : result (GlobalResult unit) JoinError := Ok (Ok ()).
Definition root : result Report JoinError := Ok (mkReport 0 1 0 0 0).
(** A connection whose only handle outside the table was dropped. *)
Definition o1 : Owned := (connect_owned conn_join owned_new true).2.
Definition o2 : Owned := drop_handle o1 1.
Definition c : Conn := mkConn true false report_default false false true.
End HandleExample.

Lemma reservations_exclusive_witness :
  NoDup [7%N] ∧ ({[7%N]} : gset N) = list_to_set [7%N] ∧
  (∀ addr, HandleExample.no_writer addr = false →
     is_ok (reserve_tcp_connect HandleExample.no_writer {[7%N]} addr).1 = bool_decide (addr ∉ [7%N])).
Proof.
  apply (reservations_exclusive HandleExample.no_writer HandleExample.r1).
  apply rtc_once. apply (rsv_reserve HandleExample.no_writer (mkReservations ∅ []) 7%N). reflexivity.
Defined.

Lemma no_orphan_task_witness :
  let o := HandleExample.o2 in
  (true = true → token_cancelled o 1 = false → io_alive o = true ∧ 1%N ∈ active (ep o)) ∧
  (inner_alive o 1 = false → c_cancel HandleExample.c = true) ∧
  (io_alive o = false → token_cancelled o 1 = true) ∧
  (true = true → io_alive o = true → ep (drop_handle o 1) = ep o).
Proof.
  apply (no_orphan_task HandleExample.conn_join HandleExample.root (λ _, true) HandleExample.o2 1 HandleExample.c); [|reflexivity].
  apply (rtc_l _ _ HandleExample.o1); [by apply own_connect|].
  apply rtc_once. apply own_drop. vm_compute. lia.
Defined.

(** The connection goes on with no handle outside the endpoint's table, and
    the endpoint's own end is what cancels it. *)
Example dropped_handle_keeps_connection :
  token_cancelled HandleExample.o2 1 = false ∧ inner_alive HandleExample.o2 1 = true ∧
  token_cancelled (drop_io HandleExample.o2) 1 = true ∧ inner_alive (drop_io HandleExample.o2) 1 = false.
Proof. vm_compute. done. Qed.
