(* ===== verification/NetState.v ===== *)
(** * Socket events and listening (base/src/net/state.rs, base/src/net/listen.rs)

    The values that travel between sockets and applications, and the binding
    of the sockets a protocol asks for.  Binding is the operating system's: a
    function of the sockets that are bound, and of the address. *)
From S2P Require Import Prelude Errors Bytes NetWriter.

Definition CHANNEL_BUFFER_SIZE : N := 10000.
Definition UDP_NAME : string := "UDP".
Definition TCP_NAME : string := "TCP".
Definition ALL_NAME : string := "ALL".

(** [Display] and [get_value] of a protocol. *)
Definition get_value (p : Protocol) : string :=
  match p with UDP => UDP_NAME | TCP => TCP_NAME | ALL => ALL_NAME end.
Definition protocol_display (p : Protocol) : string :=
  match p with UDP => "UDP" | TCP => "TCP" | ALL => "ALL" end.

Section state.
Context {SocketAddr : Type} (addr_display : SocketAddr → string) (localhost_0 : SocketAddr).

Inductive IoEventType := Close.
Record Association := mkAssociation {
  local_addr : SocketAddr;
  remote_addr : SocketAddr;
  protocol : Protocol
}.
Definition association_display (a : Association) : string :=
  protocol_display (protocol a) +:+ " " +:+ addr_display (local_addr a) +:+ "/" +:+ addr_display (remote_addr a).

Record Event := mkEvent { ev_association : Association; type_code : IoEventType }.
Record Package := mkPackage { pk_association : Association; data : list byte }.
Inductive Zip := ZData (p : Package) | ZEvent (e : Event).

Definition build_shutdown_event (association : option Association) : Event :=
  mkEvent (default (mkAssociation localhost_0 localhost_0 ALL) association) Close.
Definition build_shutdown_zip (association : option Association) : Zip :=
  ZEvent (build_shutdown_event association).
Definition is_shutdown_event (z : Zip) : bool :=
  match z with ZEvent (mkEvent _ Close) => true | _ => false end.
Definition build_data (p : Package) : Zip := ZData p.
Definition build_event (e : Event) : Zip := ZEvent e.
Definition get_association (z : Zip) : Association :=
  match z with ZData p => pk_association p | ZEvent e => ev_association e end.
Definition get_association_protocol (z : Zip) : Protocol :=
  match z with
  | ZData (mkPackage (mkAssociation _ _ p) _) => p
  | ZEvent (mkEvent (mkAssociation _ _ p) _) => p
  end.

Lemma shutdown_zip_spec (a : option Association) :
  is_shutdown_event (build_shutdown_zip a) = true ∧
  get_association (build_shutdown_zip a) = default (mkAssociation localhost_0 localhost_0 ALL) a.
Proof. done. Qed.

Lemma association_protocol (z : Zip) : get_association_protocol z = protocol (get_association z).
Proof. by destruct z as [[[] ?]|[[] ?]]. Qed.

(** ** Listening *)

(** The bound sockets, by kind ([true] is TCP) and address. *)
Context `{Countable SocketAddr} {E : Type} (display debug : E → string).
Notation Bound := (gset (bool * SocketAddr)).
Context (bind : Bound → bool → SocketAddr → option E).

(** One [bind(..).hand_log(..)]: the socket, or the error with its log line. *)
Definition bind_one (b : Bound) (tcp : bool) (a : SocketAddr) : Bound * logged (GlobalResult SocketAddr) :=
  match bind b tcp a with
  | None => ({[(tcp, a)]} ∪ b, (Ok a, []))
  | Some e => (b, hand_log display debug (Err e))
  end.

(** A socket that was bound before a failure is dropped, which unbinds it. *)
Definition listen (p : Protocol) (a : SocketAddr) (b : Bound) :
    Bound * logged (GlobalResult (option SocketAddr * option SocketAddr)) :=
  match p with
  | UDP =>
      let '(b', (r, l)) := bind_one b false a in
      (b', (let? s := r in Ok (None, Some s), l))
  | TCP =>
      let '(b', (r, l)) := bind_one b true a in
      (b', (let? s := r in Ok (Some s, None), l))
  | ALL =>
      let '(b1, (r, l)) := bind_one b false a in
      match r with
      | Err e => (b1, (Err e, l))
      | Ok u =>
          let '(b2, (r, l')) := bind_one b1 true a in
          match r with
          | Err e => (b2 ∖ {[(false, u)]}, (Err e, l ++ l'))
          | Ok t => (b2, (Ok (Some t, Some u), l ++ l'))
          end
      end
  end.

Definition wants_tcp (p : Protocol) : bool := match p with UDP => false | _ => true end.
Definition wants_udp (p : Protocol) : bool := match p with TCP => false | _ => true end.

(** [listen] binds exactly the sockets the protocol asks for, or, with one
    log line, none: a socket bound before the failure is given back. *)
Lemma listen_spec (p : Protocol) (a : SocketAddr) (b : Bound) :
  (∀ b tcp a, (tcp, a) ∈ b → bind b tcp a ≠ None) →
  let '(b', (r, l)) := listen p a b in
  match r with
  | Ok (t, u) => t = (if wants_tcp p then Some a else None) ∧ u = (if wants_udp p then Some a else None) ∧
      b' = (if wants_tcp p then {[(true, a)]} else ∅) ∪ (if wants_udp p then {[(false, a)]} else ∅) ∪ b ∧ l = []
  | Err _ => b' = b ∧ length l = 1
  end.
Proof.
  intros Hbusy. unfold listen, bind_one. destruct p.
  - destruct (bind b false a) as [e|]; simpl; [done|]. split_and!; [done|done|set_solver|done].
  - destruct (bind b true a) as [e|]; simpl; [done|]. split_and!; [done|done|set_solver|done].
  - destruct (bind b false a) as [e|] eqn:Hu; simpl; [done|].
    assert (Hnot : (false, a) ∉ b) by (intros Hin; by apply (Hbusy b false a)).
    destruct (bind _ true a) as [e|]; simpl; [split; [|done]; set_solver|].
    split_and!; [done|done|set_solver|done].
Qed.
End state.
