(* ===== verification/Logger.v ===== *)
(** * The logger (base/src/logger.rs)

    Which log records go where: the rules of the configuration, the levels
    and target patterns, and the dispatch tree that [Logger::init] builds,
    which is shown to route every record as the configuration reads.  fern's
    [Dispatch] is known by its documented laws only (class [Fern]).  Also the
    shortening of source paths. *)
From S2P Require Import Prelude Bytes Text.

Notation text := (list char) (only parsing).

Inductive LevelFilter := Off | LError | LWarn | LInfo | LDebug | LTrace.
#[export] Instance LevelFilter_eq_dec : EqDecision LevelFilter.
Proof. solve_decision. Defined.

Definition level_num (l : LevelFilter) : N :=
  match l with Off => 0 | LError => 1 | LWarn => 2 | LInfo => 3 | LDebug => 4 | LTrace => 5 end.
Definition level_max (a b : LevelFilter) : LevelFilter :=
  if (level_num a <? level_num b)%N then b else a.

(** What the filters see of a record; a record's level is never [Off], which
    no definition here depends on. *)
Record Meta := mkMeta { m_target : text; m_level : LevelFilter }.
(** [meta.level() <= filter]. *)
Definition admits_level (l : LevelFilter) (m : Meta) : bool := (level_num (m_level m) <=? level_num l)%N.

(** ** Configuration *)

Definition level_filter (level : text) : exec LevelFilter :=
  let s := to_uppercase (trim level) in
  if decide (s = str "OFF") then Ret Off
  else if decide (s = str "ERROR") then Ret LError
  else if decide (s = str "WARN") then Ret LWarn
  else if decide (s = str "INFO") then Ret LInfo
  else if decide (s = str "DEBUG") then Ret LDebug
  else if decide (s = str "TRACE") then Ret LTrace
  else Panic.

Definition validate_level (level : text) : exec text := level_filter level ≫= λ _, Ret level.
Definition validate_optional_level (level : option text) : exec (option text) :=
  match level with
  | Some l => level_filter l ≫= λ _, Ret level
  | None => Ret None
  end.

Record Specify := mkSpecify {
  crate_name : text;
  s_level : option text;
  file_name_prefix : option text;
  s_stdout : option bool
}.
Record Logger := mkLogger {
  store_path : text;
  prefix : text;
  level : text;
  stdout : bool;
  file : bool;
  specify : option (list Specify)
}.

(** The keys of the [log] section as they stand in the file: every one may be
    missing. *)
Record Given := mkGiven {
  g_store_path : option text;
  g_prefix : option text;
  g_level : option text;
  g_stdout : option bool;
  g_file : option bool;
  g_specify : option (list Specify)
}.

Definition default_prefix : text := str "app".
Definition default_level : text := str "info".
Definition default_stdout : bool := true.
Definition default_file : bool := true.

(** What the derived [Deserialize] makes of them: a given level is validated,
    which panics rather than fails. *)
Definition deserialize_specify (s : Specify) : exec Specify :=
  l ← validate_optional_level (s_level s);
  Ret (mkSpecify (crate_name s) l (file_name_prefix s) (s_stdout s)).
Definition deserialize_specifies (l : list Specify) : exec (list Specify) :=
  exec_fold (λ acc s, s ← deserialize_specify s; Ret (acc ++ [s])) [] l.
Definition deserialize (g : Given) : exec Logger :=
  l ← match g_level g with
      | Some l => validate_level l
      | None => Ret default_level
      end;
  sp ← match g_specify g with
       | Some sp => sp ← deserialize_specifies sp; Ret (Some sp)
       | None => Ret None
       end;
  Ret (mkLogger (default [] (g_store_path g)) (default default_prefix (g_prefix g)) l
    (default default_stdout (g_stdout g)) (default default_file (g_file g)) sp).

Definition parse_targets (crate_name : text) : list text :=
  filter (λ t, t ≠ []) (trim <$> split 44 crate_name).

(** One rule: [$] at its end asks for the whole target, otherwise the rule is
    a prefix. *)
Definition match_rule (target r : text) : bool :=
  match last r with
  | Some 36%N => bool_decide (target = take (length r - 1) r)
  | _ => starts_with r target
  end.
Definition match_target (target : text) (rules : list text) : bool := existsb (match_rule target) rules.

Record LogRule := mkLogRule { targets : list text; r_level : option LevelFilter }.

Definition effective_level (target : text) (dflt : LevelFilter) (rules : list LogRule) : LevelFilter :=
  default dflt (List.find (λ r, match_target target (targets r)) rules ≫= r_level).

(** ** The dispatch tree *)

Inductive Sink :=
  | Stdout
  | DateFile (dir name : text).

(** fern: a dispatch is built by [level], [filter] and the two [chain]s, and
    delivers a record to the outputs below it which admit it. *)
Class Fern (D : Type) := {
  d_new : D;
  d_level : LevelFilter → D → D;
  d_filter : (Meta → bool) → D → D;
  d_chain_sink : Sink → D → D;
  d_chain : D → D → D;   (* the child first *)
  d_admits : D → Meta → bool;
  deliver : D → Meta → list Sink
}.
Class FernLaws D `{!Fern D} := {
  admits_new m : d_admits d_new m = true;
  admits_set_level l m : d_admits (d_level l d_new) m = admits_level l m;
  admits_filter f d m : d_admits (d_filter f d) m = d_admits d m && f m;
  admits_chain_sink s d m : d_admits (d_chain_sink s d) m = d_admits d m;
  admits_chain c d m : d_admits (d_chain c d) m = d_admits d m;
  deliver_new m : deliver d_new m = [];
  deliver_level l m : deliver (d_level l d_new) m = [];
  deliver_filter f d m : deliver (d_filter f d) m = if f m then deliver d m else [];
  deliver_chain_sink s d m :
    deliver (d_chain_sink s d) m = deliver d m ++ (if d_admits d m then [s] else []);
  deliver_chain c d m :
    deliver (d_chain c d) m = deliver d m ++ (if d_admits d m then deliver c m else [])
}.

(** [format!("{}_{}.log", prefix, "%Y-%m-%d")]; the date is filled in by
    [DateBased] when it opens a file. *)
Definition date_name (prefix : text) : text := prefix ++ str "_%Y-%m-%d.log".

(** An empty path is the current directory; [push("")] adds a separator. *)
Definition store_dir (p : text) : text :=
  match last p with
  | None => str "./"
  | Some 47%N => p
  | Some _ => p ++ [47]%N
  end.

Section init.
Context {D : Type} `{!Fern D}.

Record Build := mkBuild {
  exclude_targets : list text;
  main_rules : list LogRule;
  main_max_level : LevelFilter;
  dispatch : D
}.

Definition chain_outputs (dir prefix : text) (to_stdout to_file : bool) (d : D) : D :=
  let d := if to_stdout then d_chain_sink Stdout d else d in
  if to_file then d_chain_sink (DateFile dir (date_name prefix)) d else d.

(** The body of the loop over [specify]. *)
Definition add_specify (dflt : LevelFilter) (dir : text) (log_file : bool) (b : Build) (s : Specify) :
    exec Build :=
  let ts := parse_targets (crate_name s) in
  lvl ← match s_level s with
        | Some l => f ← level_filter l; Ret (Some f)
        | None => Ret None
        end;
  let eff := default dflt lvl in
  match file_name_prefix s with
  | Some fp =>
      let file_logger :=
        chain_outputs dir fp (default true (s_stdout s)) log_file
          (d_filter (λ m, match_target (m_target m) ts) (d_level eff d_new)) in
      Ret (mkBuild (exclude_targets b ++ ts) (main_rules b) (main_max_level b)
        (d_chain file_logger (dispatch b)))
  | None =>
      Ret (mkBuild (exclude_targets b) (main_rules b ++ [mkLogRule ts lvl])
        (level_max (main_max_level b) eff) (dispatch b))
  end.

Definition build (log : Logger) : exec D :=
  dflt ← level_filter (level log);
  let dir := store_dir (store_path log) in
  b ← exec_fold (add_specify dflt dir (file log)) (mkBuild [] [] dflt d_new) (default [] (specify log));
  let main_logger :=
    chain_outputs dir (prefix log) (stdout log) (file log)
      (d_filter (λ m, negb (match_target (m_target m) (exclude_targets b)) &&
                      admits_level (effective_level (m_target m) dflt (main_rules b)) m)
        (d_level (main_max_level b) d_new)) in
  Ret (d_chain main_logger (dispatch b)).

(** [Logger::init]: creating the directory and installing the dispatch can
    fail; the dispatch it installs, if any. *)
Definition init {E : Type} (create_dir_all : text → result () E) (apply : D → result () E) (g : Given) :
    exec (result D E) :=
  log ← deserialize g;
  _ ← level_filter (level log);
  match (if file log then create_dir_all (store_dir (store_path log)) else Ok ()) with
  | Err e => Ret (Err e)
  | Ok _ => d ← build log;
      Ret (let? _ := apply d in Ok d)
  end.
End init.

(** The text of a line; the time and the coloured level are printed by
    chrono and fern. *)
Definition format_line (time colored_level target source : text) (line : N) (msg : text) : text :=
  str "[" ++ time ++ str "] [" ++ colored_level ++ str "] [" ++ target ++ str "] " ++
  source ++ str ":" ++ fmt_dec line ++ str " >> " ++ msg.

(** ** Source paths, as bytes *)

Definition slash : N := 47%N.
Definition backslash : N := 92%N.

Definition windows_absolute (f : list byte) : bool :=
  starts_with [backslash; backslash] f ||
  match f with
  | _ :: c :: d :: _ => (c =? 58)%N && ((d =? backslash)%N || (d =? slash)%N)
  | _ => false
  end.

Definition trim_source_root (f : list byte) : option (list byte) :=
  src ← rfind (str "/src/") f;
  let crate_start := match rfind [slash] (take src f) with Some i => S i | None => 0 end in
  Some (drop crate_start f).

(** [rsplit('/').next()]: what follows the last separator. *)
Definition last_component (f : list byte) : list byte :=
  match rfind [slash] f with Some i => drop (S i) f | None => f end.

Definition shorten_absolute_source_file (f : list byte) : list byte :=
  match trim_source_root f with Some r => r | None => last_component f end.

Definition replace_backslash (f : list byte) : list byte :=
  (λ c, if (c =? backslash)%N then slash else c) <$> f.

Definition display_source_file (f : list byte) : list byte :=
  if negb (starts_with [slash] f) && negb (windows_absolute f) then f
  else if existsb (N.eqb backslash) f then shorten_absolute_source_file (replace_backslash f)
  else shorten_absolute_source_file f.

(** ** Reference: where a record goes, read off the configuration *)

Section route.
Variable dflt : LevelFilter.
Variable dir : text.
Variable log_file : bool.

Definition spec_level (s : Specify) : LevelFilter :=
  match s_level s with
  | Some l => match level_filter l with Ret f => f | _ => dflt end
  | None => dflt
  end.
Definition serves (s : Specify) (target : text) : bool := match_target target (parse_targets (crate_name s)).
Definition owned (s : Specify) (target : text) : bool := bool_decide (is_Some (file_name_prefix s)) && serves s target.
Definition shared (s : Specify) (target : text) : bool := bool_decide (file_name_prefix s = None) && serves s target.

Definition outputs (pre : text) (to_stdout : bool) : list Sink :=
  (if to_stdout then [Stdout] else []) ++ (if log_file then [DateFile dir (date_name pre)] else []).

(** The entries with a file of their own that serve the target. *)
Definition own_route (sp : list Specify) (m : Meta) : list Sink :=
  sp ≫= λ s, match file_name_prefix s with
    | Some fp => if serves s (m_target m) && admits_level (spec_level s) m
                 then outputs fp (default true (s_stdout s)) else []
    | None => []
    end.
(** The level of the common log: that of the first entry for the target. *)
Definition main_level (sp : list Specify) (target : text) : LevelFilter :=
  match List.find (λ s, shared s target) sp with
  | Some s => spec_level s
  | None => dflt
  end.
Definition main_route (sp : list Specify) (pre : text) (to_stdout : bool) (m : Meta) : list Sink :=
  if existsb (λ s, owned s (m_target m)) sp then []
  else if admits_level (main_level sp (m_target m)) m then outputs pre to_stdout else [].
End route.

Definition route (log : Logger) (m : Meta) : list Sink :=
  let dflt := match level_filter (level log) with Ret f => f | _ => Off end in
  let dir := store_dir (store_path log) in
  let sp := default [] (specify log) in
  own_route dflt dir (file log) sp m ++
  main_route dflt dir (file log) sp (prefix log) (stdout log) m.

Definition valid_level (l : text) : Prop := is_Some (match level_filter l with Ret f => Some f | _ => None end).
Definition valid (log : Logger) : Prop :=
  valid_level (level log) ∧
  Forall (λ s, ∀ l, s_level s = Some l → valid_level l) (default [] (specify log)).

Lemma valid_level_spec l : valid_level l ↔ ∃ f, level_filter l = Ret f.
Proof. unfold valid_level, is_Some. destruct (level_filter l); naive_solver. Qed.

Lemma level_max_admits a b m : admits_level a m = true → admits_level (level_max a b) m = true.
Proof. unfold admits_level, level_max. case_N; intros ?%N.leb_le; apply N.leb_le; lia. Qed.
Lemma level_max_admits_r a b m : admits_level b m = true → admits_level (level_max a b) m = true.
Proof. unfold admits_level, level_max. case_N; intros ?%N.leb_le; apply N.leb_le; lia. Qed.

Lemma match_target_app t l l' : match_target t (l ++ l') = match_target t l || match_target t l'.
Proof. apply existsb_app. Qed.

Section init_proofs.
Context {D : Type} `{!Fern D, !FernLaws D}.

Lemma admits_outputs dir pre so fo (d : D) m : d_admits (chain_outputs dir pre so fo d) m = d_admits d m.
Proof. unfold chain_outputs. by destruct so, fo; rewrite ?admits_chain_sink. Qed.

Lemma deliver_outputs dir pre so fo (d : D) m :
  deliver (chain_outputs dir pre so fo d) m =
  deliver d m ++ (if d_admits d m then outputs dir fo pre so else []).
Proof.
  unfold chain_outputs, outputs.
  destruct so, fo; rewrite ?deliver_chain_sink, ?admits_chain_sink; destruct (d_admits d m);
    simpl; by rewrite ?app_nil_r, <- ?app_assoc.
Qed.

(** A leaf of the tree: one level, one filter, its outputs. *)
Lemma deliver_leaf dir pre so fo f l (m : Meta) :
  deliver (chain_outputs dir pre so fo (d_filter f (d_level l (d_new : D)))) m =
  if admits_level l m && f m then outputs dir fo pre so else [].
Proof.
  rewrite deliver_outputs, deliver_filter, deliver_level, admits_filter, admits_set_level.
  by destruct (f m).
Qed.

Lemma find_snoc {A : Type} (f : A → bool) l x :
  List.find f (l ++ [x]) = match List.find f l with Some y => Some y | None => if f x then Some x else None end.
Proof. induction l as [|y l IH]; simpl; [done|]. by destruct (f y). Qed.

Lemma main_level_snoc dflt sp s t :
  main_level dflt (sp ++ [s]) t =
  if List.find (λ s, shared s t) sp then main_level dflt sp t
  else if shared s t then spec_level dflt s else dflt.
Proof. unfold main_level. rewrite find_snoc. by destruct (List.find _ sp), (shared s t). Qed.

(** The rules of the common log are the entries without a file of their own. *)
Definition rule_of (s : Specify) : LogRule :=
  mkLogRule (parse_targets (crate_name s))
    (s_level s ≫= λ l, match level_filter l with Ret f => Some f | _ => None end).
Definition rules_of (sp : list Specify) : list LogRule :=
  rule_of <$> filter (λ s, file_name_prefix s = None) sp.

Lemma effective_level_rules dflt sp t : effective_level t dflt (rules_of sp) = main_level dflt sp t.
Proof.
  unfold effective_level, main_level, rules_of. induction sp as [|s sp IH]; [done|].
  rewrite filter_cons. simpl. unfold shared at 1, serves at 1.
  destruct (file_name_prefix s); simpl; [exact IH|].
  destruct (match_target t _); simpl; [|exact IH].
  unfold spec_level. destruct (s_level s) as [l|]; simpl; [|done]. by destruct (level_filter l).
Qed.

(** What the loop has built after some entries. *)
Record built (dflt : LevelFilter) (dir : text) (lf : bool) (sp : list Specify) (b : Build (D := D)) : Prop := {
  built_admits m : d_admits (dispatch b) m = true;
  built_deliver m : deliver (dispatch b) m = own_route dflt dir lf sp m;
  built_exclude t : match_target t (exclude_targets b) = existsb (λ s, owned s t) sp;
  built_rules : main_rules b = rules_of sp;
  built_max_default m : admits_level dflt m = true → admits_level (main_max_level b) m = true;
  built_max s m : s ∈ sp → file_name_prefix s = None →
    admits_level (spec_level dflt s) m = true → admits_level (main_max_level b) m = true
}.

Lemma add_specify_built dflt dir lf sp b s :
  built dflt dir lf sp b → (∀ l, s_level s = Some l → valid_level l) →
  returns (add_specify dflt dir lf b s) (built dflt dir lf (sp ++ [s])).
Proof.
  intros [Ha Hd He Hl Hm Hs] Hv. unfold add_specify.
  assert (Hlv : match s_level s with Some l => f ← level_filter l; Ret (Some f) | None => Ret None end =
                Ret (r_level (rule_of s)) ∧ default dflt (r_level (rule_of s)) = spec_level dflt s).
  { unfold spec_level, rule_of. simpl. destruct (s_level s) as [l|]; [|done]. simpl.
    destruct (proj1 (valid_level_spec l) (Hv l eq_refl)) as [f ->]. done. }
  destruct Hlv as [-> Ho]. cbn [mbind exec_bind]. rewrite Ho.
  assert (Hown : ∀ m, own_route dflt dir lf (sp ++ [s]) m =
            own_route dflt dir lf sp m ++ own_route dflt dir lf [s] m).
  { intros m. apply bind_app. }
  destruct (file_name_prefix s) as [fp|] eqn:Hfp; simpl; split; simpl.
  - intros m. by rewrite admits_chain.
  - intros m. rewrite deliver_chain, Ha, Hd, deliver_leaf, Hown. f_equal.
    cbn. rewrite Hfp, app_nil_r. unfold serves. by rewrite andb_comm.
  - intros t. rewrite match_target_app, existsb_app, He. simpl. unfold owned, serves.
    by rewrite Hfp, bool_decide_true, orb_false_r.
  - unfold rules_of. rewrite filter_app, filter_cons_False, app_nil_r by congruence. done.
  - done.
  - intros s' m [Hin|Heq%list_elem_of_singleton]%elem_of_app; [by eauto|]. naive_solver.
  - done.
  - intros m. rewrite Hd, Hown. cbn. by rewrite Hfp, app_nil_r.
  - intros t. rewrite existsb_app, He. simpl. unfold owned.
    by rewrite Hfp, bool_decide_false, orb_false_r by (intros [? [=]]).
  - unfold rules_of. rewrite filter_app, filter_cons_True, filter_nil, fmap_app by done. by rewrite Hl.
  - intros m Hd'. by apply level_max_admits, Hm.
  - intros s' m [Hin|Heq%list_elem_of_singleton]%elem_of_app Hn Hadm.
    + by eapply level_max_admits, Hs.
    + subst s'. by apply level_max_admits_r.
Qed.

Lemma add_specifies_built dflt dir lf sp :
  Forall (λ s, ∀ l, s_level s = Some l → valid_level l) sp →
  returns (exec_fold (add_specify dflt dir lf) (mkBuild [] [] dflt d_new) sp) (built dflt dir lf sp).
Proof.
  intros Hv.
  assert (returns (exec_fold (add_specify dflt dir lf) (mkBuild [] [] dflt d_new) sp)
    (λ b, ∃ done, done ++ [] = sp ∧ built dflt dir lf done b)) as H.
  { apply (returns_fold _ (λ rest b, ∃ done, done ++ rest = sp ∧ built dflt dir lf done b)).
    - intros s rest b (done & <- & Hb).
      apply Forall_app in Hv as [_ [Hs _]%Forall_cons].
      eapply returns_mono; [by apply add_specify_built|]. intros b' Hb'. exists (done ++ [s]).
      by rewrite <- app_assoc.
    - exists []. split; [done|]. split; simpl; try done.
      + intros m. apply admits_new.
      + intros m. apply deliver_new.
      + intros s m []%elem_of_nil. }
  eapply returns_mono; [exact H|]. intros b (l & <- & Hb). by rewrite app_nil_r.
Qed.

(** The common log's dispatch level never refuses what its filter admits. *)
Lemma built_max_main dflt dir lf sp b m : built dflt dir lf sp b →
  admits_level (main_level dflt sp (m_target m)) m = true → admits_level (main_max_level b) m = true.
Proof.
  intros [_ _ _ _ Hm Hs]. unfold main_level.
  destruct (List.find _ sp) as [s|] eqn:Hf; [|apply Hm].
  apply List.find_some in Hf as [Hin Hsh]. apply list_elem_of_In in Hin.
  apply andb_true_iff in Hsh as [Hn%bool_decide_eq_true _]. by apply Hs.
Qed.

Lemma build_routes log : valid log → returns (build log) (λ d, ∀ m, deliver d m = route log m).
Proof.
  intros [Hv Hvs]. unfold build, route.
  destruct (proj1 (valid_level_spec _) Hv) as [dflt Hd]. rewrite Hd. cbn [mbind exec_bind].
  apply returns_bind. eapply returns_mono; [by apply add_specifies_built|]. intros b Hb m. simpl.
  rewrite deliver_chain, deliver_leaf. rewrite (built_admits _ _ _ _ _ Hb).
  rewrite (built_deliver _ _ _ _ _ Hb), (built_exclude _ _ _ _ _ Hb), (built_rules _ _ _ _ _ Hb).
  rewrite effective_level_rules. f_equal. unfold main_route.
  destruct (existsb _ _); simpl; [by rewrite andb_false_r|].
  destruct (admits_level (main_level _ _ _) m) eqn:Hadm; [|by rewrite andb_false_r].
  by rewrite (built_max_main _ _ _ _ _ m Hb Hadm).
Qed.

(** The configuration with its defaults filled in. *)
Definition with_defaults (g : Given) : Logger :=
  mkLogger (default [] (g_store_path g)) (default default_prefix (g_prefix g))
    (default default_level (g_level g)) (default default_stdout (g_stdout g))
    (default default_file (g_file g)) (g_specify g).

Lemma validate_level_spec l : valid_level l ∧ validate_level l = Ret l ∨ ¬ valid_level l ∧ validate_level l = Panic.
Proof.
  unfold validate_level. rewrite valid_level_spec. unfold level_filter.
  repeat case_decide; try (left; split; [by eexists|done]). right. split; [|done]. by intros [? [=]].
Qed.

Lemma deserialize_specify_spec s :
  (∀ l, s_level s = Some l → valid_level l) ∧ deserialize_specify s = Ret s ∨
  ¬ (∀ l, s_level s = Some l → valid_level l) ∧ deserialize_specify s = Panic.
Proof.
  destruct s as [cn [l|] fp so]; unfold deserialize_specify; simpl; [|by left].
  pose proof (validate_level_spec l) as Hl. revert Hl. unfold validate_level.
  destruct (level_filter l); cbn; intros [[Hv [=]]|[Hv [=]]].
  - left. split; [|done]. by intros ? [= <-].
  - right. split; [|done]. naive_solver.
Qed.

Lemma deserialize_specifies_spec sp acc :
  let valid := Forall (λ s, ∀ l, s_level s = Some l → valid_level l) sp in
  let r := exec_fold (λ acc s, s ← deserialize_specify s; Ret (acc ++ [s])) acc sp in
  valid ∧ r = Ret (acc ++ sp) ∨ ¬ valid ∧ r = Panic.
Proof.
  revert acc. induction sp as [|s sp IH]; intros acc; cbn zeta; simpl.
  { left. split; [constructor|by rewrite app_nil_r]. }
  destruct (deserialize_specify_spec s) as [[Hv ->]|[Hv ->]]; cbn.
  - destruct (IH (acc ++ [s])) as [[H ->]|[H ->]].
    + left. split; [by constructor|by rewrite <- app_assoc].
    + right. split; [|done]. by intros [??]%Forall_cons.
  - right. split; [|done]. by intros [??]%Forall_cons.
Qed.

(** Loading the section: the given values with the defaults, or a panic when
    a level is no level. *)
Lemma deserialize_spec g :
  valid (with_defaults g) ∧ deserialize g = Ret (with_defaults g) ∨
  ¬ valid (with_defaults g) ∧ deserialize g = Panic.
Proof.
  destruct g as [sp pre lv so fi spec]. unfold deserialize, valid. simpl.
  assert (Hl : valid_level (default default_level lv) ∧
      (match lv with Some l => validate_level l | None => Ret default_level end) = Ret (default default_level lv) ∨
      ¬ valid_level (default default_level lv) ∧
      (match lv with Some l => validate_level l | None => Ret default_level end) = Panic).
  { destruct lv as [l|]; [apply validate_level_spec|]. left. split; [|done].
    apply valid_level_spec. by exists LInfo. }
  destruct Hl as [[Hl ->]|[Hl ->]]; cbn; [|right; naive_solver].
  destruct spec as [sps|]; simpl; [|left; split; [split; [done|constructor]|done]].
  unfold deserialize_specifies.
  destruct (deserialize_specifies_spec sps []) as [[H ->]|[H ->]]; cbn; [by left|right; naive_solver].
Qed.

(** C19: [Logger::init] routes every record as the configuration reads: to the
    outputs of each entry with a file of its own that serves the target and
    admits the level, and to the common log unless such an entry serves the
    target at any level, at the level of the first entry without a file that
    serves it, or the default one.  It fails only with the directory or the
    installation of the logger, and panics exactly when a level is no level. *)
Theorem logger_routes {E : Type} (create_dir_all : text → result () E) (apply : D → result () E) (g : Given) :
  let log := with_defaults g in
  (valid log → returns (init create_dir_all apply g) (λ r, match r with
    | Ok d => apply d = Ok () ∧ ∀ m, deliver d m = route log m
    | Err e => (file log = true ∧ create_dir_all (store_dir (store_path log)) = Err e) ∨
               ∃ d, apply d = Err e ∧ ∀ m, deliver d m = route log m
    end)) ∧
  (¬ valid log → init create_dir_all apply g = Panic).
Proof.
  intros log. unfold init. destruct (deserialize_spec g) as [[Hv ->]|[Hv ->]]; (split; [intros H|intros Hn]);
    fold log in Hv; try done; try (by cbn).
  fold log. cbn [mbind exec_bind].
  destruct (proj1 (valid_level_spec _) (proj1 Hv)) as [f ->]. cbn [mbind exec_bind].
  destruct (file log) eqn:Hf; [destruct (create_dir_all _) eqn:Hc|]; cbn; eauto;
    (apply returns_bind; eapply returns_mono; [by apply build_routes|]; intros d Hd; cbn;
     destruct (apply d) as [[]|e] eqn:Ha; cbn; eauto).
Qed.
End init_proofs.

(** A concrete dispatch: what it admits and where it delivers. *)
Module FernExample.
Definition D : Type := (Meta → bool) * (Meta → list Sink).
#[global] Instance fern : Fern D := {|
  d_new := (λ _, true, λ _, []);
  d_level l d := (admits_level l, λ m, if admits_level l m then d.2 m else []);
  d_filter f d := (λ m, d.1 m && f m, λ m, if f m then d.2 m else []);
  d_chain_sink s d := (d.1, λ m, d.2 m ++ if d.1 m then [s] else []);
  d_chain c d := (d.1, λ m, d.2 m ++ if d.1 m then c.2 m else []);
  d_admits := fst;
  deliver := snd
|}.
#[global] Instance fern_laws : FernLaws D.
Proof. split; try done. intros l m. simpl. by destruct (admits_level l m). Qed.

Definition given : Given :=
  mkGiven None None (Some (str "warn")) (Some false) None
    (Some [mkSpecify (str "app::a, app::d$") (Some (str "debug")) (Some (str "a")) (Some false);
           mkSpecify (str "app::b") (Some (str " Trace ")) None None]).
End FernExample.

Lemma logger_routes_witness :
  valid (with_defaults FernExample.given) ∧
  returns (init (D := FernExample.D) (E := ()) (λ _, Ok ()) (λ _, Ok ()) FernExample.given) (λ r,
    match r with
    | Ok d => deliver d (mkMeta (str "app::a::x") LDebug) = [DateFile (str "./") (str "a_%Y-%m-%d.log")] ∧
              deliver d (mkMeta (str "app::dx") LDebug) = [] ∧
              deliver d (mkMeta (str "app::b") LTrace) = [DateFile (str "./") (str "app_%Y-%m-%d.log")]
    | Err _ => False
    end).
Proof.
  assert (Hv : valid (with_defaults FernExample.given)).
  { split; [by vm_compute; eexists|]. repeat constructor; by intros ? [= <-]; vm_compute; eexists. }
  split; [done|].
  eapply returns_mono.
  - apply (proj1 (logger_routes (D := FernExample.D) (E := ()) (λ _, Ok ()) (λ _, Ok ()) FernExample.given) Hv).
  - intros [d|[]]; [|by intros [[_ [=]]|(d & [=] & _)]].
    intros [_ Hd]. rewrite !Hd. by vm_compute.
Defined.

(** ** Source paths *)

Definition relative (f : list byte) : Prop := starts_with [slash] f = false ∧ windows_absolute f = false.

Lemma rfind_app p a r : p ≠ [] → rfind p (tail p ++ r) = None → rfind p (a ++ p ++ r) = Some (length a).
Proof.
  intros Hp Hr. induction a as [|c a IH]; simpl.
  - destruct p as [|c p]; [done|]. simpl in *. rewrite Hr.
    assert (starts_with (c :: p) (c :: p ++ r) = true) as -> by (apply starts_with_spec; by exists r). done.
  - by rewrite IH.
Qed.

Lemma rfind_not_elem d s : d ∉ s → rfind [d] s = None.
Proof.
  induction s as [|c s IH]; simpl; [done|]. intros [Hc Hs]%not_elem_of_cons. rewrite IH by done.
  destruct (starts_with [d] (c :: s)) eqn:H; [|done]. apply starts_with_spec in H as [r [= -> ->]]. done.
Qed.

Lemma rfind_lt p s i : rfind p s = Some i → i + length p ≤ length s.
Proof.
  intros H. pose proof (rfind_Some _ _ _ H) as [r Hr]. apply (f_equal length) in Hr.
  rewrite !length_app, length_take in Hr.
  destruct (decide (i ≤ length s)); [lia|]. exfalso.
  revert i H n Hr. induction s as [|c s IH]; intros i; simpl; [destruct p; [|done]; intros [= <-]; lia|].
  destruct (rfind p s) as [j|]; [|case_match; [|done]; intros [= <-]; simpl; lia].
  intros [= <-] Hn Hr. apply (IH j); [done|lia|]. simpl in *. lia.
Qed.

(** A trimmed path is trimmed already. *)
Lemma trim_source_root_trimmed f r : trim_source_root f = Some r → trim_source_root r = Some r.
Proof.
  unfold trim_source_root. destruct (rfind (str "/src/") f) as [src|] eqn:Hs; [|done]. simpl.
  destruct (rfind [slash] (take src f)) as [i|] eqn:Hi; intros [= <-].
  - pose proof (rfind_lt _ _ _ Hi) as Hlt. rewrite length_take in Hlt. simpl in Hlt.
    rewrite (rfind_drop _ _ src) by (done || lia). cbn [mbind option_bind].
    rewrite <- skipn_firstn_comm, rfind_not_elem by by apply rfind_char_last. by rewrite drop_0.
  - rewrite !drop_0, Hs. simpl. by rewrite Hi, drop_0.
Qed.

Lemma shorten_idem f : shorten_absolute_source_file (shorten_absolute_source_file f) = shorten_absolute_source_file f.
Proof.
  unfold shorten_absolute_source_file at 2 3.
  destruct (trim_source_root f) as [r|] eqn:Ht.
  { unfold shorten_absolute_source_file. by rewrite (trim_source_root_trimmed _ _ Ht). }
  assert (Hns : slash ∉ last_component f).
  { unfold last_component. destruct (rfind [slash] f) as [i|] eqn:Hi;
      [by apply rfind_char_last|by apply rfind_char_None]. }
  unfold shorten_absolute_source_file, trim_source_root.
  destruct (rfind (str "/src/") _) as [i|] eqn:Hi; simpl.
  - destruct (rfind_Some _ _ _ Hi) as [r Hr]. destruct Hns. rewrite Hr.
    apply elem_of_app. right. left.
  - unfold last_component at 1. by rewrite rfind_not_elem.
Qed.

Lemma shorten_suffix f : ∃ p, f = p ++ shorten_absolute_source_file f.
Proof.
  unfold shorten_absolute_source_file, trim_source_root, last_component.
  destruct (rfind (str "/src/") f) as [src|]; simpl;
    [exists (take (match rfind [slash] (take src f) with Some i => S i | None => 0 end) f)
    |destruct (rfind [slash] f) as [i|]; [exists (take (S i) f)|by exists []]];
    by rewrite take_drop.
Qed.

Lemma no_backslash_shorten f : backslash ∉ f → existsb (N.eqb backslash) (shorten_absolute_source_file f) = false.
Proof.
  intros Hf. destruct (shorten_suffix f) as [p Hp]. apply not_true_iff_false.
  intros (x & Hin & Hx%N.eqb_eq)%existsb_exists. subst x. apply Hf. rewrite Hp.
  apply elem_of_app. right. by apply list_elem_of_In.
Qed.

Lemma replace_backslash_none f : backslash ∉ replace_backslash f.
Proof.
  unfold replace_backslash. intros (c & Hc & _)%list_elem_of_fmap. revert Hc. cbn beta.
  destruct (c =? backslash)%N eqn:E; [done|]. intros <-. by rewrite N.eqb_refl in E.
Qed.

Lemma display_shortened f : backslash ∉ f →
  display_source_file (shorten_absolute_source_file f) = shorten_absolute_source_file f.
Proof.
  intros Hf. unfold display_source_file. case_match; [done|].
  by rewrite no_backslash_shorten, shorten_idem.
Qed.

(** a displayed source path is the given one when that is relative; for
    an absolute path with a source directory it is what starts at the crate's
    directory before the last [/src/], and displaying a displayed path changes
    nothing. *)
Theorem display_source_file_spec (f : list byte) :
  (relative f → display_source_file f = f) ∧
  (∀ root crate rest, f = slash :: root ++ slash :: crate ++ str "/src/" ++ rest →
    slash ∉ crate → rfind (str "/src/") (str "src/" ++ rest) = None → backslash ∉ f →
    display_source_file f = crate ++ str "/src/" ++ rest) ∧
  display_source_file (display_source_file f) = display_source_file f.
Proof.
  split_and!.
  - intros [H1 H2]. unfold display_source_file. by rewrite H1, H2.
  - intros root crate rest Hf Hc Hr Hb. unfold display_source_file.
    assert (starts_with [slash] f = true) as ->.
    { apply starts_with_spec. rewrite Hf. by eexists. }
    assert (existsb (N.eqb backslash) f = false) as ->.
    { apply not_true_iff_false. intros (x & Hin & Hx%N.eqb_eq)%existsb_exists. subst x.
      by apply Hb, list_elem_of_In. }
    simpl. unfold shorten_absolute_source_file, trim_source_root.
    set (dir := slash :: root). assert (Hf' : f = (dir ++ [slash] ++ crate) ++ str "/src/" ++ rest).
    { rewrite Hf. unfold dir. simpl. by rewrite <- app_assoc. }
    rewrite Hf', rfind_app by done. cbn [mbind option_bind].
    rewrite take_app_length, rfind_app by (done || by apply rfind_not_elem).
    rewrite <- app_assoc. rewrite drop_app_ge by lia.
    replace (S (length dir) - length dir) with 1 by lia. done.
  - unfold display_source_file at 2 3. destruct (negb _ && negb _) eqn:Hrel.
    + unfold display_source_file. by rewrite Hrel.
    + destruct (existsb (N.eqb backslash) f) eqn:Hb; apply display_shortened.
      * apply replace_backslash_none.
      * intros Hin. apply not_true_iff_false in Hb. apply Hb, existsb_exists. exists backslash.
        split; [by apply list_elem_of_In|done].
Qed.

Lemma display_source_file_spec_witness :
  display_source_file (str "/home/u/code/gmv_pjsip/src/io.rs") = str "gmv_pjsip/src/io.rs" ∧
  display_source_file (str "session/src/http/hook.rs") = str "session/src/http/hook.rs".
Proof.
  destruct (display_source_file_spec (str "/home/u/code/gmv_pjsip/src/io.rs")) as (_ & H & _).
  destruct (display_source_file_spec (str "session/src/http/hook.rs")) as (H' & _ & _).
  split; [|by apply H'].
  apply (H (str "home/u/code") (str "gmv_pjsip") (str "io.rs")); [done| |done|];
    refine (bool_decide_unpack _ _); by vm_compute.
Defined.

Example display_windows : display_source_file (str "C:\code\gmv_pjsip\src\io.rs") = str "gmv_pjsip/src/io.rs".
Proof. by vm_compute. Qed.

(** ** What modelling showed *)

(** Upper-casing is Unicode's: a dotless i passes for [INFO]. *)
Example dotless_info : level_filter [305; 110; 102; 111]%N = Ret LInfo.
Proof. by vm_compute. Qed.

(** An entry with a file of its own takes its targets from the common log
    even where nothing is written for it: with files and its console output
    off, its errors go nowhere. *)
Example specified_errors_lost :
  route (mkLogger [] (str "app") (str "info") true false
    (Some [mkSpecify (str "app::a") None (Some (str "a")) (Some false)]))
    (mkMeta (str "app::a") LError) = [].
Proof. by vm_compute. Qed.
