(* ===== verification/Constructor.v ===== *)
(** * The derive macros Get, Set and New (macros/constructor/src/lib.rs)

    The macros as functions from a parsed item to the syntax of the [impl]
    block they emit; rules of the language that decide whether that block is
    accepted; and what its methods compute.  syn's parsing of the attribute
    arguments is a parameter, types are opaque. *)
From stdpp Require Import pretty.
From S2P Require Import Prelude Interceptor.

(** ** The parsed item *)

(** Identifiers as they print, with [r#] where they are raw; [format_ident!]
    drops that prefix. *)
Definition unraw (x : string) : string := default x (strip_prefix_str "r#" x).

Inductive Member := Named (x : string) | Idx (i : nat).
#[export] Instance Member_eq_dec : EqDecision Member.
Proof. solve_decision. Defined.
#[export] Instance Member_countable : Countable Member.
Proof.
  apply (inj_countable' (λ m, match m with Named x => inl x | Idx i => inr i end)
    (λ s, match s with inl x => Named x | inr i => Idx i end)). by intros [].
Defined.

Inductive Kind := IDENT_GET | IDENT_SET | IDENT_NEW.
#[export] Instance Kind_eq_dec : EqDecision Kind.
Proof. solve_decision. Defined.
Definition kind_name (k : Kind) : string :=
  match k with IDENT_GET => "get" | IDENT_SET => "set" | IDENT_NEW => "new" end.

Section macros.
Context {Ty Tokens : Type}.

Inductive Meta := MPath | MList (args : Tokens) | MNameValue.
Record Attribute := mkAttribute { a_path : string; a_meta : Meta }.
Inductive Fields := FNamed (fs : list (string * Ty)) | FUnnamed (fs : list Ty) | FUnit.
Inductive Data := DStruct (fs : Fields) | DEnum | DUnion.
Record DeriveInput := mkDeriveInput { i_ident : string; i_attrs : list Attribute; i_data : Data }.

(** ** The emitted code

    [pub fn name(&self) -> &ty { &self.field }],
    [pub fn name(&mut self, param: impl Into<ty>) { self.field = param.into(); }],
    [pub fn new(params) -> Self { Self { inits, ..Default::default() } }] and
    [pub fn new(params) -> Self { Self(args) }], where [None] stands for
    [Default::default()]. *)
Inductive Method :=
  | MGet (name : string) (ty : Ty) (field : Member)
  | MSet (name param : string) (ty : Ty) (field : Member)
  | MNew (params : list (string * Ty)) (inits : list string) (rest : bool)
  | MNewTuple (params : list (string * Ty)) (args : list (option string)).
Record Impl := mkImpl { impl_for : string; methods : list Method }.

(** ** The macros *)

Section args.
Context {T : Type} `{!EqDecision T} (parse : Tokens → option (list T)).

Definition parse_args (attrs : list Attribute) (k : Kind) : exec (option (list T)) :=
  match List.find (λ a, bool_decide (a_path a = kind_name k)) attrs with
  | Some a =>
      match a_meta a with
      | MPath | MNameValue => Panic
      | MList toks => match parse toks with Some l => Ret (Some l) | None => Panic end
      end
  | None => Ret None
  end.

Definition contains_fields (args : option (list T)) (item : T) : bool :=
  match args with
  | Some l => bool_decide (item ∈ l)
  | None => true
  end.
End args.

(** [format_ident!("{ident}_{}", field)] and [format_ident!("field_{}", index)]. *)
Definition method_ident (k : Kind) (x : string) : string := kind_name k +:+ "_" +:+ x.
Definition field_ident (i : nat) : string := "field_" +:+ pretty i.

Definition build_named_get_constructor (x : string) (ty : Ty) (name : string) : Method :=
  MGet name ty (Named x).
Definition build_unnamed_get_constructor (i : nat) (ty : Ty) (name : string) : Method :=
  MGet name ty (Idx i).
Definition build_named_set_constructor (x : string) (ty : Ty) (name : string) : Method :=
  MSet name x ty (Named x).
Definition build_unnamed_set_constructor (i : nat) (ty : Ty) (name : string) : Method :=
  MSet name (field_ident i) ty (Idx i).

Context (parse_idents : Tokens → option (list string)) (parse_indices : Tokens → option (list nat)).

Definition build_et_named_fn (f : string → Ty → string → Method) (attrs : list Attribute)
    (fs : list (string * Ty)) (k : Kind) : exec (list Method) :=
  args ← parse_args parse_idents attrs k;
  Ret ((λ p, f p.1 p.2 (method_ident k (unraw p.1))) <$>
    filter (λ p, contains_fields args p.1 = true) fs).

Definition build_et_unnamed_fn (f : nat → Ty → string → Method) (attrs : list Attribute)
    (fs : list Ty) (k : Kind) : exec (list Method) :=
  args ← parse_args parse_indices attrs k;
  Ret ((λ p, f p.1 p.2 (method_ident k (pretty p.1))) <$>
    filter (λ p, contains_fields args p.1 = true) (imap pair fs)).

(** [b] of the source is [existsb]: some field was filtered out. *)
Definition build_named_new_constructor (attrs : list Attribute) (fs : list (string * Ty)) : exec (list Method) :=
  args ← parse_args parse_idents attrs IDENT_NEW;
  let chosen := filter (λ p, contains_fields args p.1 = true) fs in
  Ret [MNew chosen (chosen.*1) (existsb (λ p, negb (contains_fields args p.1)) fs)].

Definition build_unnamed_new_constructor (attrs : list Attribute) (fs : list Ty) : exec (list Method) :=
  args ← parse_args parse_indices attrs IDENT_NEW;
  let ifs := imap pair fs in
  Ret [MNewTuple ((λ p, (field_ident p.1, p.2)) <$> filter (λ p, contains_fields args p.1 = true) ifs)
    ((λ p, if contains_fields args p.1 then Some (field_ident p.1) else None) <$> ifs)].

Definition build_constructor (ast : DeriveInput) (fs : Fields) (k : Kind) : exec Impl :=
  ms ← match fs, k with
       | FNamed fs, IDENT_GET => build_et_named_fn build_named_get_constructor (i_attrs ast) fs k
       | FNamed fs, IDENT_SET => build_et_named_fn build_named_set_constructor (i_attrs ast) fs k
       | FNamed fs, IDENT_NEW => build_named_new_constructor (i_attrs ast) fs
       | FUnnamed fs, IDENT_GET => build_et_unnamed_fn build_unnamed_get_constructor (i_attrs ast) fs k
       | FUnnamed fs, IDENT_SET => build_et_unnamed_fn build_unnamed_set_constructor (i_attrs ast) fs k
       | FUnnamed fs, IDENT_NEW => build_unnamed_new_constructor (i_attrs ast) fs
       | FUnit, _ => Panic
       end;
  Ret (mkImpl (i_ident ast) ms).

Definition handle_struct (ast : DeriveInput) (fs : Fields) (k : Kind) : exec Impl :=
  match fs with
  | FUnit => Panic
  | _ => build_constructor ast fs k
  end.

(** [drive]; no item is what syn could not parse. *)
Definition drive (input : option DeriveInput) (k : Kind) : exec Impl :=
  match input with
  | None => Panic
  | Some ast =>
      match i_data ast with
      | DStruct fs => handle_struct ast fs k
      | DEnum | DUnion => Panic
      end
  end.

(** ** Which blocks the compiler accepts *)

Definition members (fs : Fields) : list (Member * Ty) :=
  match fs with
  | FNamed fs => prod_map Named id <$> fs
  | FUnnamed fs => imap (λ i ty, (Idx i, ty)) fs
  | FUnit => []
  end.
Definition wf_fields (fs : Fields) : Prop :=
  match fs with FNamed fs => NoDup (unraw <$> fs.*1) | _ => True end.

Definition method_name (m : Method) : string :=
  match m with MGet x _ _ | MSet x _ _ _ => x | MNew _ _ _ | MNewTuple _ _ => "new" end.

(** [has_default ty]: the type implements Default; [self_default]: the struct
    does. *)
Section typing.
Variable has_default : Ty → Prop.
Variable self_default : Prop.

(** The struct expression [Self { inits, ..Default::default() }] is an
    expression at all only with an initialiser before the comma. *)
Inductive well_typed (fs : Fields) : Method → Prop :=
  | wt_get x ty f : (f, ty) ∈ members fs → well_typed fs (MGet x ty f)
  | wt_set x p ty f : (f, ty) ∈ members fs → well_typed fs (MSet x p ty f)
  | wt_new params inits rest :
      NoDup (unraw <$> params.*1) → NoDup inits →
      (∀ x, x ∈ inits → ∃ ty, (x, ty) ∈ params ∧ (Named x, ty) ∈ members fs) →
      (rest = false → ∀ x, Named x ∈ (members fs).*1 → x ∈ inits) →
      (rest = true → self_default ∧ inits ≠ []) →
      well_typed fs (MNew params inits rest)
  | wt_new_tuple params args :
      NoDup params.*1 → length args = length (members fs) →
      (∀ i ty, (Idx i, ty) ∈ members fs →
        match args !! i with
        | Some (Some x) => (x, ty) ∈ params
        | Some None => has_default ty
        | None => False
        end) →
      well_typed fs (MNewTuple params args).
End typing.

(** ** What the methods compute, on structs as maps from members to values *)

Section semantics.
Context {V : Type} (default_of : Ty → V).
Notation object := (gmap Member V).

Definition run_get (m : Method) (self : object) : option V :=
  match m with MGet _ _ f => self !! f | _ => None end.
(** The argument is what [into] gave. *)
Definition run_set (m : Method) (self : object) (v : V) : option object :=
  match m with
  | MSet _ _ _ f => _ ← self !! f; Some (<[f := v]> self)
  | _ => None
  end.

Definition bind_params (params : list (string * Ty)) (vs : list V) : gmap string V :=
  list_to_map (zip params.*1 vs).

(** [self_value] is what [Default::default()] of the struct gives; a literal
    without [..] has the listed fields only. *)
Definition run_new (fs : Fields) (m : Method) (self_value : object) (vs : list V) : option object :=
  match m with
  | MNew params inits rest =>
      if decide (length vs = length params) then
        foldr (λ x acc, o ← acc; v ← bind_params params vs !! x; Some (<[Named x := v]> o))
          (Some (if rest then self_value else ∅)) inits
      else None
  | MNewTuple params args =>
      if decide (length vs = length params) then
        foldr (λ p acc, o ← acc;
            v ← match p.2.2 with
                | Some x => bind_params params vs !! x
                | None => Some (default_of p.2.1)
                end;
            Some (<[Idx p.1 := v]> o))
          (Some ∅) (imap pair (zip (members fs).*2 args))
      else None
  | _ => None
  end.
End semantics.
End macros.

(** ** Names of methods and parameters *)

Lemma append_inj (a x y : string) : a +:+ x = a +:+ y → x = y.
Proof. induction a as [|c a IH]; simpl; [done|]. intros [= H]. by apply IH. Qed.

Lemma method_ident_inj k k' x y : method_ident k x = method_ident k' y → k = k' ∧ x = y.
Proof. destruct k, k'; intros [= H]; by rewrite ?H. Qed.

Lemma method_ident_not_new k x : method_ident k x ≠ "new".
Proof. by destruct k. Qed.

Lemma field_ident_inj i j : field_ident i = field_ident j → i = j.
Proof. intros H%append_inj. by apply (inj pretty) in H. Qed.

Lemma members_named {Ty : Type} (fs : list (string * Ty)) x ty :
  (Named x, ty) ∈ members (FNamed fs) ↔ (x, ty) ∈ fs.
Proof.
  simpl. rewrite list_elem_of_fmap. split; [intros ([] & [= -> ->] & ?); done|]. intros H. by exists (x, ty).
Qed.

Lemma members_unnamed {Ty : Type} (fs : list Ty) i ty :
  (Idx i, ty) ∈ members (FUnnamed fs) ↔ fs !! i = Some ty.
Proof.
  simpl. rewrite elem_of_lookup_imap. split; [intros (j & y & [= -> ->] & ?); done|eauto].
Qed.

Lemma imap_pair_fst {A : Type} (l : list A) : (imap pair l).*1 = seq 0 (length l).
Proof.
  apply list_eq. intros i. rewrite list_lookup_fmap, list_lookup_imap.
  destruct (l !! i) eqn:Hi; simpl.
  - symmetry. apply lookup_seq. split; [done|by eapply lookup_lt_Some].
  - symmetry. rewrite lookup_seq_ge; [done|by apply lookup_ge_None].
Qed.

Lemma NoDup_fst_filter {A B C : Type} (f : A → C) (P : A * B → Prop) `{!∀ x, Decision (P x)} (l : list (A * B)) :
  NoDup (f <$> l.*1) → NoDup (f <$> (filter P l).*1).
Proof. rewrite <- !list_fmap_compose. apply NoDup_fmap_filter. Qed.

Lemma fmap_ext_in {A B : Type} (f g : A → B) (l : list A) :
  (∀ x, x ∈ l → f x = g x) → f <$> l = g <$> l.
Proof. intros H. apply list_fmap_ext. intros i x Hi. by eapply H, list_elem_of_lookup_2. Qed.

(** ** Theorems *)

Section theorems.
Context {Ty Tokens : Type}.
Context (parse_idents : Tokens → option (list string)) (parse_indices : Tokens → option (list nat)).
Notation drive := (drive (Ty := Ty) parse_idents parse_indices).

(** The members a derive works on. *)
Definition selects (ast : DeriveInput (Ty := Ty)) (k : Kind) (m : Member) : exec bool :=
  match m with
  | Named x => args ← parse_args parse_idents (i_attrs ast) k; Ret (contains_fields args x)
  | Idx i => args ← parse_args parse_indices (i_attrs ast) k; Ret (contains_fields args i)
  end.

(** What a generated [new] needs for the members it skips: their types'
    defaults in a tuple struct, the struct's own default and one member it
    does not skip otherwise. *)
Definition defaults_ok (has_default : Ty → Prop) (self_default : Prop)
    (ast : DeriveInput (Ty := Ty)) (fs : Fields) : Prop :=
  ∀ m ty, (m, ty) ∈ members fs → selects ast IDENT_NEW m = Ret false →
    match fs with
    | FNamed _ => self_default ∧ ∃ p, p ∈ members fs ∧ selects ast IDENT_NEW p.1 = Ret true
    | _ => has_default ty
    end.

Lemma drive_Ret ast k impl :
  drive (Some ast) k = Ret impl →
  ∃ fs, i_data ast = DStruct fs ∧ fs ≠ FUnit ∧ build_constructor parse_idents parse_indices ast fs k = Ret impl.
Proof. unfold drive. destruct (i_data ast) as [[]| |] eqn:H; simpl; try done; eauto. Qed.

Section derive.
Variables (has_default : Ty → Prop) (self_default : Prop).
Notation well_typed := (well_typed has_default self_default).
Implicit Types ast : DeriveInput (Ty := Ty) (Tokens := Tokens).

Lemma et_named_typed f ast fs k ms :
  (∀ x ty name, (x, ty) ∈ fs → well_typed (FNamed fs) (f x ty name) ∧ method_name (f x ty name) = name) →
  NoDup (unraw <$> fs.*1) →
  build_et_named_fn parse_idents f (i_attrs ast) fs k = Ret ms →
  Forall (well_typed (FNamed fs)) ms ∧ NoDup (method_name <$> ms) ∧
  Forall (λ m, ∃ x, method_name m = method_ident k x) ms.
Proof.
  intros Hf Hnd (args & _ & [= <-])%bind_Ret. split_and!.
  - apply Forall_fmap, Forall_forall. intros [x ty] [_ Hin]%list_elem_of_filter. by apply Hf.
  - apply (NoDup_fst_filter _ (λ p, contains_fields args p.1 = true)) in Hnd.
    rewrite <- list_fmap_compose.
    rewrite (fmap_ext_in _ (method_ident k ∘ (unraw ∘ fst))); last first.
    { intros [x ty] [_ Hin]%list_elem_of_filter. exact (proj2 (Hf x ty _ Hin)). }
    rewrite !list_fmap_compose. apply NoDup_fmap; [by intros ?? [_ ?]%method_ident_inj|done].
  - apply Forall_fmap, Forall_forall. intros [x ty] [_ Hin]%list_elem_of_filter. simpl.
    rewrite (proj2 (Hf x ty _ Hin)). eauto.
Qed.

Lemma et_unnamed_typed f ast fs k ms :
  (∀ i ty name, fs !! i = Some ty → well_typed (FUnnamed fs) (f i ty name) ∧ method_name (f i ty name) = name) →
  build_et_unnamed_fn parse_indices f (i_attrs ast) fs k = Ret ms →
  Forall (well_typed (FUnnamed fs)) ms ∧ NoDup (method_name <$> ms) ∧
  Forall (λ m, ∃ x, method_name m = method_ident k x) ms.
Proof.
  intros Hf (args & _ & [= <-])%bind_Ret.
  assert (Hin : ∀ i ty, (i, ty) ∈ filter (λ p, contains_fields args p.1 = true) (imap pair fs) → fs !! i = Some ty).
  { intros i ty [_ Hin]%list_elem_of_filter. by apply elem_of_lookup_imap in Hin as (? & ? & [= -> ->] & ?). }
  split_and!.
  - apply Forall_fmap, Forall_forall. intros [i ty] ?%Hin. by apply Hf.
  - rewrite <- list_fmap_compose. rewrite (fmap_ext_in _ (method_ident k ∘ (pretty ∘ fst))); last first.
    { intros [i ty] H. exact (proj2 (Hf i ty _ (Hin _ _ H))). }
    rewrite !list_fmap_compose. apply NoDup_fmap; [by intros ?? [_ ?]%method_ident_inj|]. apply NoDup_fmap; [apply _|].
    rewrite <- (list_fmap_id (filter _ _).*1). apply NoDup_fst_filter.
    rewrite list_fmap_id, imap_pair_fst. apply NoDup_seq.
  - apply Forall_fmap, Forall_forall. intros [i ty] H%Hin. simpl. rewrite (proj2 (Hf i ty _ H)). eauto.
Qed.

Lemma new_named_typed ast fs ms : NoDup (unraw <$> fs.*1) →
  defaults_ok has_default self_default ast (FNamed fs) →
  build_named_new_constructor parse_idents (i_attrs ast) fs = Ret ms →
  Forall (well_typed (FNamed fs)) ms ∧ method_name <$> ms = ["new"].
Proof.
  intros Hnd Hd (args & Ha & [= <-])%bind_Ret. split; [|done]. constructor; [|constructor].
  assert (Hsel : ∀ x, selects ast IDENT_NEW (Named x) = Ret (contains_fields args x)).
  { intros x. simpl. by rewrite Ha. }
  apply (NoDup_fst_filter _ (λ p, contains_fields args p.1 = true)) in Hnd.
  constructor; [done|by apply NoDup_fmap_1 in Hnd| | |].
  - intros x ([y ty] & -> & Hin)%list_elem_of_fmap. exists ty. split; [done|].
    apply members_named. by apply list_elem_of_filter in Hin as [_ ?].
  - intros Hr x ([m ty] & Hm & Hin)%list_elem_of_fmap. simpl in Hm. subst m.
    apply members_named in Hin. apply (list_elem_of_fmap_2 fst _ (x, ty)), list_elem_of_filter. split; [|done].
    apply not_false_iff_true. intros Hc. apply not_true_iff_false in Hr. apply Hr, existsb_exists.
    exists (x, ty). split; [by apply list_elem_of_In|]. simpl in *. by rewrite Hc.
  - intros (p & Hin & Hc)%existsb_exists. apply list_elem_of_In in Hin. destruct p as [x ty].
    apply negb_true_iff in Hc. destruct (Hd (Named x) ty) as [Hself ([m ty'] & Hm & Hs)].
    { by apply members_named. }
    { by rewrite Hsel, <- Hc. }
    split; [done|]. destruct m as [y|i]; [|by apply list_elem_of_fmap in Hm as ([] & [=] & _)].
    apply members_named in Hm. simpl in Hs. rewrite Ha in Hs. injection Hs as Hs.
    intros Hnil%(f_equal length). simpl in Hnil. rewrite length_fmap in Hnil.
    assert (Hin' : (y, ty') ∈ filter (λ p, contains_fields args p.1 = true) fs) by by apply list_elem_of_filter.
    destruct (filter _ fs); [by apply elem_of_nil in Hin'|done].
Qed.

Lemma new_unnamed_typed ast fs ms :
  defaults_ok has_default self_default ast (FUnnamed fs) →
  build_unnamed_new_constructor parse_indices (i_attrs ast) fs = Ret ms →
  Forall (well_typed (FUnnamed fs)) ms ∧ method_name <$> ms = ["new"].
Proof.
  intros Hd (args & Ha & [= <-])%bind_Ret. split; [|done]. constructor; [|constructor]. constructor.
  - rewrite <- list_fmap_compose. change (fst ∘ _) with (field_ident ∘ (@fst nat Ty)).
    rewrite list_fmap_compose. apply NoDup_fmap; [by intros ?? ?%field_ident_inj|].
    rewrite <- (list_fmap_id (filter _ _).*1). apply NoDup_fst_filter.
    rewrite list_fmap_id, imap_pair_fst. apply NoDup_seq.
  - simpl. by rewrite length_fmap, !length_imap.
  - intros i ty Hin. pose proof Hin as Hi%members_unnamed.
    rewrite list_lookup_fmap, list_lookup_imap, Hi. simpl.
    destruct (contains_fields args i) eqn:Hc.
    + apply (list_elem_of_fmap_2 (λ p, (field_ident p.1, p.2)) _ (i, ty)), list_elem_of_filter. split; [done|].
      apply elem_of_lookup_imap. eauto.
    + apply (Hd (Idx i) ty Hin). simpl. by rewrite Ha, <- Hc.
Qed.

Lemma drive_typed ast fs k impl : i_data ast = DStruct fs → wf_fields fs →
  (k = IDENT_NEW → defaults_ok has_default self_default ast fs) →
  drive (Some ast) k = Ret impl →
  Forall (well_typed fs) (methods impl) ∧ NoDup (method_name <$> methods impl) ∧
  (k = IDENT_NEW → method_name <$> methods impl = ["new"]) ∧
  (k ≠ IDENT_NEW → Forall (λ m, ∃ x, method_name m = method_ident k x) (methods impl)).
Proof.
  intros Hfs Hwf Hd (fs' & Hfs' & _ & Hb)%drive_Ret. rewrite Hfs in Hfs'. injection Hfs' as <-.
  apply bind_Ret in Hb as (ms & Hms & [= <-]). simpl.
  assert (Hnew : ∀ P : Prop, P ∧ method_name <$> ms = ["new"] →
    P ∧ NoDup (method_name <$> ms) ∧ (IDENT_NEW = IDENT_NEW → method_name <$> ms = ["new"]) ∧
    (IDENT_NEW ≠ IDENT_NEW → Forall (λ m, ∃ x, method_name m = method_ident IDENT_NEW x) ms)).
  { intros P [HP ->]. split_and!; try done. apply NoDup_singleton. }
  assert (Het : ∀ (P : Prop) k, k ≠ IDENT_NEW →
    P ∧ NoDup (method_name <$> ms) ∧ Forall (λ m, ∃ x, method_name m = method_ident k x) ms →
    P ∧ NoDup (method_name <$> ms) ∧ (k = IDENT_NEW → method_name <$> ms = ["new"]) ∧
    (k ≠ IDENT_NEW → Forall (λ m, ∃ x, method_name m = method_ident k x) ms)) by tauto.
  destruct fs as [fs|fs|]; [| |by destruct k]; destruct k.
  - apply Het; [done|]. eapply et_named_typed; [|done..]. intros x ty name H. split; [|done].
    constructor. by apply members_named.
  - apply Het; [done|]. eapply et_named_typed; [|done..]. intros x ty name H. split; [|done].
    constructor. by apply members_named.
  - apply Hnew. eapply new_named_typed; eauto.
  - apply Het; [done|]. eapply et_unnamed_typed; [|done]. intros x ty name H. split; [|done].
    constructor. by apply members_unnamed.
  - apply Het; [done|]. eapply et_unnamed_typed; [|done]. intros x ty name H. split; [|done].
    constructor. by apply members_unnamed.
  - apply Hnew. eapply new_unnamed_typed; eauto.
Qed.

Definition name_form (k : Kind) (n : string) : Prop :=
  if decide (k = IDENT_NEW) then n = "new" else ∃ x, n = method_ident k x.

Lemma name_form_inj k k' n : name_form k n → name_form k' n → k = k'.
Proof.
  unfold name_form. repeat case_decide; [congruence| | |].
  - intros -> [x Hx]. by destruct (method_ident_not_new k' x).
  - intros [x Hx] ->. by destruct (method_ident_not_new k x).
  - intros [x ->] [y []%method_ident_inj]. done.
Qed.

Lemma drive_name_form ast fs k impl : i_data ast = DStruct fs → wf_fields fs →
  (k = IDENT_NEW → defaults_ok has_default self_default ast fs) →
  drive (Some ast) k = Ret impl → ∀ n, n ∈ method_name <$> methods impl → name_form k n.
Proof.
  intros Hfs Hwf Hd Hdr n Hn. destruct (drive_typed ast fs k impl) as (_ & _ & Hnew & Het); [done..|].
  unfold name_form. case_decide as Hk.
  - rewrite (Hnew Hk) in Hn. by apply list_elem_of_singleton in Hn.
  - apply list_elem_of_fmap in Hn as (m & -> & Hm). specialize (Het Hk).
    rewrite Forall_forall in Het. by apply Het.
Qed.
End derive.

(** C21: whatever of Get, Set and New is derived for a struct, every generated
    method is well typed and no two have the same name, if the skipped members
    of [new] have their defaults and it skips not all of a struct with named
    fields. *)
Theorem drive_well_typed (has_default : Ty → Prop) (self_default : Prop)
    (ast : DeriveInput (Ty := Ty) (Tokens := Tokens)) (fs : Fields) (ks : list Kind) (impls : list Impl) :
  i_data ast = DStruct fs → wf_fields fs → NoDup ks →
  (IDENT_NEW ∈ ks → defaults_ok has_default self_default ast fs) →
  Forall2 (λ k impl, drive (Some ast) k = Ret impl) ks impls →
  Forall (well_typed has_default self_default fs) (impls ≫= methods) ∧
  NoDup (method_name <$> (impls ≫= methods)).
Proof.
  intros Hfs Hwf Hnd Hd Hdr. induction Hdr as [|k impl ks impls Hk Hdr IH]; [split; constructor|].
  apply NoDup_cons in Hnd as [Hni Hnd]. cbn [mbind list_bind].
  destruct IH as [IH1 IH2]; [done|by intros ?; apply Hd; right|].
  assert (Hdk : k = IDENT_NEW → defaults_ok has_default self_default ast fs) by (intros ->; apply Hd; left).
  destruct (drive_typed has_default self_default ast fs k impl) as (H1 & H2 & _); [done..|].
  split; [by apply Forall_app|]. rewrite fmap_app. apply NoDup_app. split_and!; [done| |done].
  intros n Hn%(drive_name_form has_default self_default ast fs k impl Hfs Hwf Hdk Hk) Hn'.
  apply Hni. apply list_elem_of_fmap in Hn' as (m & -> & Hm).
  apply list_elem_of_bind in Hm as (impl' & Hm & Hin).
  apply list_elem_of_lookup_1 in Hin as [j Hj].
  destruct (Forall2_lookup_r _ _ _ _ _ Hdr Hj) as (k' & Hk' & Hdr').
  apply list_elem_of_lookup_2 in Hk'.
  rewrite (name_form_inj k k' (method_name m)); [done..|].
  apply (drive_name_form has_default self_default ast fs k' impl' Hfs Hwf);
    [by intros ->; apply Hd; right|done|by apply list_elem_of_fmap_2].
Qed.

(** ** What the methods compute *)

Section run.
Context {V : Type} (default_of : Ty → V).
Notation object := (gmap Member V).
Implicit Types ast : DeriveInput (Ty := Ty) (Tokens := Tokens).

(** Struct expressions: one insertion per initialiser. *)
Lemma foldr_insert {A : Type} (key : A → Member) (val : A → option V) (base : object) (xs : list A) :
  NoDup (key <$> xs) → (∀ x, x ∈ xs → is_Some (val x)) →
  ∃ o, foldr (λ x acc, o ← acc; v ← val x; Some (<[key x := v]> o)) (Some base) xs = Some o ∧
    (∀ x, x ∈ xs → o !! key x = val x) ∧
    (∀ m, m ∉ key <$> xs → o !! m = base !! m).
Proof.
  induction xs as [|x xs IH]; intros Hnd He.
  { exists base. split; [done|]. split; [intros x []%elem_of_nil|done]. }
  rewrite fmap_cons in Hnd. apply NoDup_cons in Hnd as [Hni Hnd].
  destruct IH as (o & Ho & H1 & H2); [done|by intros y ?; apply He; right|].
  destruct (He x ltac:(left)) as [v Hv]. exists (<[key x := v]> o). split_and!.
  - cbn [foldr]. rewrite Ho. simpl. by rewrite Hv.
  - intros y [->|Hy]%elem_of_cons; [by rewrite lookup_insert_eq|].
    rewrite lookup_insert_ne; [by apply H1|]. intros Hk. apply Hni. rewrite Hk. by apply list_elem_of_fmap_2.
  - intros m. rewrite fmap_cons, not_elem_of_cons. intros [??]. rewrite lookup_insert_ne by congruence. by apply H2.
Qed.

Lemma bind_params_lookup (params : list (string * Ty)) (vs : list V) i x ty :
  NoDup params.*1 → length vs = length params → params !! i = Some (x, ty) →
  bind_params params vs !! x = vs !! i.
Proof.
  intros Hnd Hl Hi. unfold bind_params.
  destruct (lookup_lt_is_Some_2 vs i) as [v Hv]; [rewrite Hl; by eapply lookup_lt_Some|]. rewrite Hv.
  apply elem_of_list_to_map_1.
  - rewrite fst_zip by (rewrite length_fmap; lia). done.
  - apply list_elem_of_lookup. exists i. rewrite lookup_zip_with, list_lookup_fmap, Hi. simpl. by rewrite Hv.
Qed.

(** The parameters of [new], in their order. *)
Definition selected (ast : DeriveInput (Ty := Ty) (Tokens := Tokens)) (m : Member) : bool :=
  match selects ast IDENT_NEW m with Ret b => b | _ => false end.
Definition chosen (ast : DeriveInput (Ty := Ty) (Tokens := Tokens)) (fs : Fields) : list (Member * Ty) :=
  filter (λ p, selected ast p.1 = true) (members fs).

Lemma filter_fmap {A B : Type} (f : A → B) (P : B → Prop) `{!∀ x, Decision (P x)} (l : list A) :
  filter P (f <$> l) = f <$> filter (λ x, P (f x)) l.
Proof. induction l as [|x l IH]; [done|]. rewrite fmap_cons, !filter_cons. by case_decide; rewrite ?fmap_cons, IH. Qed.

Lemma chosen_named ast fs args : parse_args parse_idents (i_attrs ast) IDENT_NEW = Ret args →
  chosen ast (FNamed fs) = prod_map Named id <$> filter (λ p, contains_fields args p.1 = true) fs.
Proof.
  intros Ha. unfold chosen, selected. cbn [members]. rewrite filter_fmap. f_equal.
  apply list_filter_iff. intros [x ty]. simpl. by rewrite Ha.
Qed.

Lemma chosen_unnamed ast fs args : parse_args parse_indices (i_attrs ast) IDENT_NEW = Ret args →
  chosen ast (FUnnamed fs) = prod_map Idx id <$> filter (λ p, contains_fields args p.1 = true) (imap pair fs).
Proof.
  intros Ha. unfold chosen, selected.
  replace (members (FUnnamed fs)) with (prod_map Idx id <$> imap pair fs) by apply fmap_imap.
  rewrite filter_fmap. f_equal. apply list_filter_iff. intros [x ty]. simpl. by rewrite Ha.
Qed.

Notation run_new := (run_new default_of).

(** What [new] gives a member it does not take as a parameter. *)
Definition skipped_value (fs : Fields (Ty := Ty)) (self_value : object) (m : Member) (ty : Ty) : option V :=
  match fs with FNamed _ => self_value !! m | _ => Some (default_of ty) end.

Definition new_result (ast : DeriveInput (Ty := Ty) (Tokens := Tokens)) (fs : Fields) (self_value : object)
    (vs : list V) (o : object) : Prop :=
  (∀ i m ty, chosen ast fs !! i = Some (m, ty) → o !! m = vs !! i) ∧
  (∀ m ty, (m, ty) ∈ members fs → selected ast m = false → o !! m = skipped_value fs self_value m ty) ∧
  (∀ m, m ∉ (members fs).*1 → o !! m = None).

Lemma run_new_named ast fs ms self_value vs : NoDup (unraw <$> fs.*1) →
  build_named_new_constructor parse_idents (i_attrs ast) fs = Ret ms →
  length vs = length (chosen ast (FNamed fs)) →
  (∀ m, m ∉ (members (FNamed fs)).*1 → self_value !! m = None) →
  ∃ m o, ms = [m] ∧ run_new (FNamed fs) m self_value vs = Some o ∧ new_result ast (FNamed fs) self_value vs o.
Proof.
  intros Hnd (args & Ha & [= <-])%bind_Ret. pose proof (chosen_named ast fs args Ha) as Hch.
  set (ch := filter _ fs) in *. rewrite Hch, length_fmap. intros Hl Hself.
  assert (Hndc : NoDup ch.*1).
  { apply (NoDup_fst_filter _ (λ p, contains_fields args p.1 = true)) in Hnd. by apply NoDup_fmap_1 in Hnd. }
  set (rest := existsb _ fs).
  destruct (foldr_insert Named (λ x, bind_params ch vs !! x) (if rest then self_value else ∅) ch.*1)
    as (o & Ho & H1 & H2).
  { apply NoDup_fmap; [by intros ?? [=]|done]. }
  { intros x ([y ty] & -> & [i Hi]%list_elem_of_lookup_1)%list_elem_of_fmap. simpl.
    rewrite (bind_params_lookup ch vs i y ty) by done.
    apply lookup_lt_is_Some_2. rewrite Hl. by eapply lookup_lt_Some. }
  eexists _, o. split; [done|]. cbn [Constructor.run_new]. rewrite decide_True by done. split; [exact Ho|].
  split_and!.
  - intros i m ty Hi. rewrite Hch, list_lookup_fmap in Hi.
    destruct (ch !! i) as [[x ty']|] eqn:Hx; [|done]. injection Hi as <- <-.
    rewrite H1; [by apply bind_params_lookup with ty'|].
    by eapply (list_elem_of_fmap_2 fst _ (x, ty')), list_elem_of_lookup_2.
  - intros m ty Hm Hsel. apply list_elem_of_fmap in Hm as ([x ty'] & [= -> ->] & Hin).
    unfold selected in Hsel. simpl in Hsel. rewrite Ha in Hsel. simpl in Hsel.
    rewrite H2.
    + assert (rest = true) as ->; [|done]. apply existsb_exists. exists (x, ty'). simpl in *.
      split; [by apply list_elem_of_In|by rewrite Hsel].
    + intros (y & [= ->] & Hy)%list_elem_of_fmap. apply list_elem_of_fmap in Hy as ([z tz] & -> & Hz).
      apply list_elem_of_filter in Hz as [Hz _]. simpl in *. congruence.
  - intros m Hm. rewrite H2.
    + destruct rest; [by apply Hself|apply lookup_empty].
    + intros (y & -> & Hy)%list_elem_of_fmap. apply Hm.
      apply list_elem_of_fmap in Hy as ([z tz] & -> & [_ Hz]%list_elem_of_filter).
      apply list_elem_of_fmap. exists (Named z, tz). split; [done|]. by apply members_named.
Qed.

(** The parameters of the unnamed [new], and the arguments of its struct. *)
Lemma bind_unnamed args (fs : list Ty) (vs : list V) i j ty :
  let ch := filter (λ p, contains_fields args p.1 = true) (imap pair fs) in
  length vs = length ch → ch !! j = Some (i, ty) →
  bind_params ((λ p, (field_ident p.1, p.2)) <$> ch) vs !! field_ident i = vs !! j.
Proof.
  cbv zeta. set (ch := filter _ (imap pair fs)). intros Hl Hj.
  apply (bind_params_lookup _ vs j _ ty).
  - rewrite <- list_fmap_compose. change (fst ∘ _) with (field_ident ∘ (@fst nat Ty)).
    rewrite list_fmap_compose. apply NoDup_fmap; [by intros ?? ?%field_ident_inj|].
    rewrite <- (list_fmap_id ch.*1). apply NoDup_fst_filter.
    rewrite list_fmap_id, imap_pair_fst. apply NoDup_seq.
  - by rewrite length_fmap.
  - by rewrite list_lookup_fmap, Hj.
Qed.

Lemma elem_of_struct_items (keep : nat → bool) (fs : list Ty) i ty oa :
  (i, (ty, oa)) ∈ imap pair (zip (members (FUnnamed fs)).*2
    ((λ p, if keep p.1 then Some (field_ident p.1) else None) <$> imap pair fs)) ↔
  fs !! i = Some ty ∧ oa = if keep i then Some (field_ident i) else None.
Proof.
  assert (Ht : ∀ j, (members (FUnnamed fs)).*2 !! j = fs !! j).
  { intros j. rewrite list_lookup_fmap. simpl members. rewrite list_lookup_imap. by destruct (fs !! j). }
  set (argl := _ <$> imap pair fs).
  assert (Hg : ∀ j, argl !! j = (λ _, if keep j then Some (field_ident j) else None) <$> fs !! j).
  { intros j. unfold argl. rewrite list_lookup_fmap, list_lookup_imap. by destruct (fs !! j). }
  rewrite elem_of_lookup_imap. split.
  - intros (j & [ty' oa'] & [= -> -> ->] & (Hj1 & Hj2)%lookup_zip_Some).
    rewrite Ht in Hj1. rewrite Hg, Hj1 in Hj2. by injection Hj2 as <-.
  - intros [Hi ->]. eexists i, (ty, _). split; [done|]. apply lookup_zip_Some. by rewrite Ht, Hg, Hi.
Qed.

Lemma run_new_unnamed ast fs ms self_value vs :
  build_unnamed_new_constructor parse_indices (i_attrs ast) fs = Ret ms →
  length vs = length (chosen ast (FUnnamed fs)) →
  ∃ m o, ms = [m] ∧ run_new (FUnnamed fs) m self_value vs = Some o ∧ new_result ast (FUnnamed fs) self_value vs o.
Proof.
  intros (args & Ha & [= <-])%bind_Ret. pose proof (chosen_unnamed ast fs args Ha) as Hch.
  set (ch := filter _ (imap pair fs)) in *. rewrite Hch, length_fmap. intros Hl.
  set (params := (λ p, (field_ident p.1, p.2)) <$> ch).
  assert (Hparam : ∀ i j ty, ch !! j = Some (i, ty) → bind_params params vs !! field_ident i = vs !! j).
  { intros i j ty. by apply bind_unnamed. }
  set (val := λ p : nat * (Ty * option string), match p.2.2 with
    | Some x => bind_params params vs !! x | None => Some (default_of p.2.1) end).
  set (argl := (λ p, if contains_fields args p.1 then Some (field_ident p.1) else None) <$> imap pair fs).
  pose proof (elem_of_struct_items (contains_fields args) fs) as Hitem. fold argl in Hitem.
  destruct (foldr_insert (λ p : nat * (Ty * option string), Idx p.1) val ∅
    (imap pair (zip (members (FUnnamed fs)).*2 argl))) as (o & Ho & H1 & H2).
  { change (λ p, Idx p.1) with (Idx ∘ (@fst nat (Ty * option string))). rewrite list_fmap_compose.
    apply NoDup_fmap; [by intros ?? [=]|]. rewrite imap_pair_fst. apply NoDup_seq. }
  { intros [i [ty oa]] [Hi ->]%Hitem. unfold val. simpl. destruct (contains_fields args i) eqn:Hc; [|by eexists].
    assert ((i, ty) ∈ ch) as [j Hj]%list_elem_of_lookup_1.
    { apply list_elem_of_filter. split; [done|]. apply elem_of_lookup_imap. eauto. }
    rewrite (Hparam i j ty Hj). apply lookup_lt_is_Some_2. rewrite Hl. by eapply lookup_lt_Some. }
  eexists _, o. split; [done|]. cbn [Constructor.run_new].
  rewrite decide_True by (unfold params; by rewrite length_fmap). split; [exact Ho|].
  assert (Hsel : ∀ i, selected ast (Idx i) = contains_fields args i).
  { intros i. unfold selected. simpl. by rewrite Ha. }
  split_and!.
  - intros j m ty Hj. rewrite Hch, list_lookup_fmap in Hj.
    destruct (ch !! j) as [[i ty']|] eqn:Hx; [|done]. injection Hj as <- <-.
    assert (Hin := list_elem_of_lookup_2 _ _ _ Hx). apply list_elem_of_filter in Hin as [Hc Hin]. simpl in Hc.
    apply elem_of_lookup_imap in Hin as (? & ? & [= <- <-] & Hin).
    pose proof (proj2 (Hitem i ty' _) (conj Hin eq_refl)) as Hit. pose proof (H1 _ Hit) as H1'. simpl in H1'. rewrite H1'. unfold val. simpl.
    rewrite Hc. by apply (Hparam i j ty').
  - intros m ty Hm Hs. apply elem_of_lookup_imap in Hm as (i & ty' & [= -> ->] & Hin).
    rewrite Hsel in Hs. pose proof (proj2 (Hitem i ty' _) (conj Hin eq_refl)) as Hit.
    pose proof (H1 _ Hit) as H1'. simpl in H1'. rewrite H1'. unfold val. simpl. by rewrite Hs.
  - intros m Hm. rewrite H2; [apply lookup_empty|].
    intros ([i [ty oa]] & -> & [Hi _]%Hitem)%list_elem_of_fmap. apply Hm.
    apply (list_elem_of_fmap_2 fst _ (Idx i, ty)). by apply members_unnamed.
Qed.

(** A getter and a setter of each member the attributes select. *)
Lemma et_member ast fs k impl m ty : k ≠ IDENT_NEW → i_data ast = DStruct fs →
  drive (Some ast) k = Ret impl → (m, ty) ∈ members fs → selects ast k m = Ret true →
  ∃ name param, (if decide (k = IDENT_GET) then MGet name ty m else MSet name param ty m) ∈ methods impl.
Proof.
  intros Hk Hfs (fs' & Hfs' & _ & Hb)%drive_Ret. rewrite Hfs in Hfs'. injection Hfs' as <-.
  apply bind_Ret in Hb as (ms & Hms & [= <-]). simpl. intros Hm Hs.
  assert (Hnamed : ∀ f fs, build_et_named_fn parse_idents f (i_attrs ast) fs k = Ret ms →
      (m, ty) ∈ members (FNamed fs) → ∃ x, m = Named x ∧ f x ty (method_ident k (unraw x)) ∈ ms).
  { intros f fs' (args & Ha & [= <-])%bind_Ret ([x ty'] & [= -> ->] & Hin)%list_elem_of_fmap.
    exists x. split; [done|]. simpl in Hs. rewrite Ha in Hs. injection Hs as Hs.
    apply list_elem_of_fmap. exists (x, ty'). split; [done|]. by apply list_elem_of_filter. }
  assert (Hunnamed : ∀ f fs, build_et_unnamed_fn parse_indices f (i_attrs ast) fs k = Ret ms →
      (m, ty) ∈ members (FUnnamed fs) → ∃ i, m = Idx i ∧ f i ty (method_ident k (pretty i)) ∈ ms).
  { intros f fs' (args & Ha & [= <-])%bind_Ret (i & ty' & [= -> ->] & Hin)%elem_of_lookup_imap.
    exists i. split; [done|]. simpl in Hs. rewrite Ha in Hs. injection Hs as Hs.
    apply list_elem_of_fmap. exists (i, ty'). split; [done|]. apply list_elem_of_filter.
    split; [done|]. apply elem_of_lookup_imap. eauto. }
  destruct fs as [fs|fs|], k; try done;
    first [destruct (Hnamed _ _ Hms Hm) as (x & -> & H)|destruct (Hunnamed _ _ Hms Hm) as (x & -> & H)];
    eexists _, _; first [exact H|rewrite decide_True by done; exact H].
  Unshelve. all: exact "".
Qed.

(** C38: the generated [new], given as many arguments as it has parameters,
    returns a struct whose listed fields hold the arguments in the order of
    the fields, whose other fields hold their defaults, and which has no other
    field; a setter changes its field only, and the getter reads it back. *)
Theorem generated_methods_spec (ast : DeriveInput (Ty := Ty) (Tokens := Tokens)) (fs : Fields) (k : Kind)
    (impl : Impl) : i_data ast = DStruct fs → wf_fields fs → drive (Some ast) k = Ret impl →
  match k with
  | IDENT_NEW => ∀ self_value vs, length vs = length (chosen ast fs) →
      (∀ m, m ∉ (members fs).*1 → self_value !! m = None) →
      ∃ m o, methods impl = [m] ∧ run_new fs m self_value vs = Some o ∧ new_result ast fs self_value vs o
  | IDENT_GET => ∀ m ty, (m, ty) ∈ members fs → selects ast k m = Ret true →
      ∃ g, g ∈ methods impl ∧ ∀ self : object, run_get g self = self !! m
  | IDENT_SET => ∀ m ty, (m, ty) ∈ members fs → selects ast k m = Ret true →
      ∃ s, s ∈ methods impl ∧
        ∀ (self : object) (v : V), is_Some (self !! m) → run_set s self v = Some (<[m := v]> self)
  end.
Proof.
  intros Hfs Hwf Hdr. destruct k.
  - intros m ty Hm Hs. destruct (et_member ast fs IDENT_GET impl m ty) as (name & param & Hin); [done..|].
    eexists. split; [exact Hin|done].
  - intros m ty Hm Hs. destruct (et_member ast fs IDENT_SET impl m ty) as (name & param & Hin); [done..|].
    eexists. split; [exact Hin|]. intros self v [w Hw]. simpl. by rewrite Hw.
  - apply drive_Ret in Hdr as (fs' & Hfs' & _ & Hb). rewrite Hfs in Hfs'. injection Hfs' as <-.
    apply bind_Ret in Hb as (ms & Hms & [= <-]). simpl. intros self_value vs Hl Hself.
    destruct fs; [by eapply run_new_named|by eapply run_new_unnamed|done].
Qed.
End run.
End theorems.

(** ** Examples *)

(** [#[derive(Get, Set, New)] #[new(id, r#type)] struct T { id, name, r#type }]. *)
Module ConstructorExample.
Definition attr (l : list string) : Attribute (Tokens := list string) := mkAttribute "new" (MList l).
Definition fields : Fields := FNamed [("id", 1); ("name", 2); ("r#type", 3)].
Definition item (l : list string) : DeriveInput (Ty := nat) (Tokens := list string) :=
  mkDeriveInput "T" [attr l] (DStruct fields).
Definition drive := drive (Ty := nat) (Tokens := list string) Some (λ _, Some []).
Definition impls : list Impl :=
  omap (λ k, match drive (Some (item ["id"; "r#type"])) k with Ret i => Some i | _ => None end)
    [IDENT_GET; IDENT_SET; IDENT_NEW].
End ConstructorExample.

Lemma drive_well_typed_witness :
  Forall (well_typed (λ _, True) True ConstructorExample.fields) (ConstructorExample.impls ≫= methods) ∧
  method_name <$> (ConstructorExample.impls ≫= methods) =
    ["get_id"; "get_name"; "get_type"; "set_id"; "set_name"; "set_type"; "new"].
Proof.
  split; [|by vm_compute].
  apply (drive_well_typed (Tokens := list string) Some (λ _, Some []) (λ _, True) True
    (ConstructorExample.item ["id"; "r#type"]) ConstructorExample.fields [IDENT_GET; IDENT_SET; IDENT_NEW]).
  - done.
  - simpl. refine (bool_decide_unpack _ _); by vm_compute.
  - refine (bool_decide_unpack _ _); by vm_compute.
  - intros _ m ty _ _. split; [done|]. exists (Named "id", 1). split; [by left|by vm_compute].
  - repeat constructor.
Defined.

Lemma generated_methods_spec_witness :
  ∃ m o, run_new (V := nat) (λ _, 0) ConstructorExample.fields m
      {[Named "id" := 7; Named "name" := 8; Named "r#type" := 9]} [4; 5] = Some o ∧
    o !! Named "id" = Some 4 ∧ o !! Named "name" = Some 8 ∧ o !! Named "r#type" = Some 5.
Proof.
  assert (Hwf : wf_fields ConstructorExample.fields)
    by (simpl; refine (bool_decide_unpack _ _); by vm_compute).
  destruct (generated_methods_spec (Tokens := list string) Some (λ _, Some []) (V := nat) (λ _, 0)
    (ConstructorExample.item ["id"; "r#type"]) ConstructorExample.fields IDENT_NEW
    (mkImpl "T" [MNew [("id", 1); ("r#type", 3)] ["id"; "r#type"] true]) eq_refl
    Hwf eq_refl {[Named "id" := 7; Named "name" := 8; Named "r#type" := 9]} [4; 5] eq_refl)
    as (m & o & _ & Ho & (H1 & H2 & _)).
  { intros m Hm. simpl in Hm. rewrite !not_elem_of_cons in Hm. destruct Hm as (? & ? & ? & _).
    by rewrite !lookup_insert_ne, lookup_singleton_ne by congruence. }
  exists m, o. split; [exact Ho|]. split_and!.
  - exact (H1 0 (Named "id") 1 eq_refl).
  - exact (H2 (Named "name") 2 (list_elem_of_further _ _ _ (list_elem_of_here _ _)) eq_refl).
  - exact (H1 1 (Named "r#type") 3 eq_refl).
Defined.

(** ** What modelling showed *)

(** An empty list of fields makes [new] of a struct with named fields the
    text [Self { , ..Default::default() }], which is no expression. *)
Example new_of_nothing :
  (methods <$> match ConstructorExample.drive (Some (ConstructorExample.item [])) IDENT_NEW with
               | Ret i => Some i | _ => None end) = Some [MNew [] [] true] ∧
  ¬ well_typed (λ _, True) True ConstructorExample.fields (MNew [] [] true).
Proof. split; [by vm_compute|]. intros H. inversion H. naive_solver. Qed.

(** A name in the list that is no field is ignored. *)
Example misspelt_field_ignored :
  ConstructorExample.drive (Some (ConstructorExample.item ["id"; "nmae"])) IDENT_NEW =
  Ret (mkImpl "T" [MNew [("id", 1)] ["id"] true]).
Proof. by vm_compute. Qed.
