(* ===== verification/Config.v ===== *)
(** * Configuration (macros/cfg_lib/src/conf.rs, macros/cfg_lib/cfg_macro/src/lib.rs)

    The attribute macro [conf]: its arguments, the loading function and the
    registration it generates; and the run-time part: the configuration text
    that is set once, the registered checks, and the start-up that runs them.
    YAML values, their parsing and serde's deserialisation are parameters, as
    are the file system and the order of the hash map of checks. *)
From S2P Require Import Prelude Bytes Text Constructor.

Notation text := (list char) (only parsing).

(** ** The arguments of the attribute *)

Inductive TokenTree :=
  | TIdent (s : text)
  | TPunct (c : char)
  | TLiteral (s : text)   (* as it prints: a string with its quotes *)
  | TGroup.

Record ConAttr := mkConAttr {
  path : option text;
  prefix : option text;
  data_type : option text;
  lib : option text;
  check : bool;
  dflt : bool
}.
Definition con_attr_default : ConAttr := mkConAttr None None None None false true.

Definition set_lib (l : option text) (a : ConAttr) : ConAttr :=
  mkConAttr (path a) (prefix a) (data_type a) l (check a) (dflt a).
Definition set_default (b : bool) (a : ConAttr) : ConAttr :=
  mkConAttr (path a) (prefix a) (data_type a) (lib a) (check a) b.

(** [trim_matches] with the quotation mark. *)
Fixpoint trim_quotes_start (s : text) : text :=
  match s with
  | 34%N :: r => trim_quotes_start r
  | _ => s
  end.
Definition trim_quotes (s : text) : text := reverse (trim_quotes_start (reverse (trim_quotes_start s))).

(** One turn of the loop; the state is the last key and the attribute. *)
Definition parse_ident (s : text) (st : text * ConAttr) : text * ConAttr :=
  let '(key, a) := st in
  if decide (key = str "default" ∧ (s = str "true" ∨ s = str "false"))
  then ([], set_default (negb (bool_decide (s = str "false"))) a)
  else (s,
    if decide (s = str "lib") then set_lib (Some []) a
    else if decide (s = str "check")
      then mkConAttr (path a) (prefix a) (data_type a) (lib a) true (dflt a)
    else if decide (s = str "default") then set_default true a
    else a).

Definition parse_literal (lit : text) (st : text * ConAttr) : exec (text * ConAttr) :=
  let '(key, a) := st in
  let value := trim_quotes lit in
  if decide (key = str "lib") then Ret (key, set_lib (Some value) a)
  else if decide (key = str "path")
    then Ret (key, mkConAttr (Some value) (prefix a) (data_type a) (lib a) (check a) (dflt a))
  else if decide (key = str "prefix")
    then Ret (key, mkConAttr (path a) (Some value) (data_type a) (lib a) (check a) (dflt a))
  else if decide (key = str "data_type")
    then Ret (key, mkConAttr (path a) (prefix a) (Some (to_uppercase value)) (lib a) (check a) (dflt a))
  else if decide (key = str "default") then
    let v := lower_ascii <$> value in
    if decide (v = str "false") then Ret (key, set_default false a)
    else if decide (v = str "true") then Ret (key, set_default true a)
    else Panic
  else Panic.

Definition parse_token (st : text * ConAttr) (t : TokenTree) : exec (text * ConAttr) :=
  match t with
  | TIdent s => Ret (parse_ident s st)
  | TPunct _ => Ret st
  | TLiteral lit => parse_literal lit st
  | TGroup => Panic
  end.
Definition parse_attr (args : list TokenTree) : exec ConAttr :=
  st ← exec_fold parse_token ([], con_attr_default) args; Ret st.2.

(** ** The generated code *)

Section expansion.
Context {Ty : Type}.
(** [char::is_uppercase] beyond ASCII, and syn's parser of paths. *)
Context (unicode_upper : char → bool) (is_path : text → bool).

Definition is_uppercase (c : char) : bool := if (c <? 128)%N then between 65 90 c else unicode_upper c.
Definition snake_char (i : nat) (c : char) : text :=
  if is_uppercase c then (if (0 <? i)%nat then [95]%N else []) ++ [lower_ascii c] else [c].
Definition camel_to_snake (s : text) : text := concat (imap snake_char s).

Record Item := mkItem { ident : text; data : Data (Ty := Ty) }.

(** The crate whose [cfg_lib] and [ctor] the code names. *)
Inductive CrateRoot := BaseCrate | LibCrate (path : text) | ThisCrate.
Definition crate_root (a : ConAttr) : exec CrateRoot :=
  match lib a with
  | None => Ret BaseCrate
  | Some [] => Ret ThisCrate
  | Some l => if is_path l then Ret (LibCrate l) else Panic
  end.

(** The constructor function run before [main]: it registers the name that
    [std::any::type_name] gives of the type, with a check that loads it, and
    checks its fields on request.  [reg_type] is the type as the code spells
    it. *)
Record Register := mkRegister {
  reg_root : CrateRoot;
  reg_fn : text;
  reg_type : text;
  reg_check : bool
}.
Definition build_register_constructor (a : ConAttr) (name : text) : exec (option Register) :=
  match path a with
  | Some _ => Ret None
  | None =>
      root ← crate_root a;
      Ret (Some (mkRegister root (str "register_instance_" ++ camel_to_snake name) name (check a)))
  end.

(** [fn conf() -> Self]: where the text comes from, the keys to follow, and
    the fields copied out of a proxy struct with serde's defaults, if any. *)
Record ConfFn := mkConfFn {
  cf_root : CrateRoot;
  cf_path : option text;
  cf_prefix : option text;
  cf_proxy : option (list string)
}.
Definition build_default_data_type (d : Data (Ty := Ty)) : exec (list string) :=
  match d with
  | DStruct (FNamed fs) => Ret fs.*1
  | _ => Panic
  end.
Definition build_conf_constructor (a : ConAttr) (ast : Item) : exec ConfFn :=
  root ← crate_root a;
  if decide (data_type a = None ∨ data_type a = Some (str "YAML")) then
    proxy ← (if dflt a then fs ← build_default_data_type (data ast); Ret (Some fs) else Ret None);
    Ret (mkConfFn root (path a) (prefix a) proxy)
  else Panic.

(** [conf]: the registration and the function. *)
Definition conf (attrs : list TokenTree) (item : option Item) : exec (option Register * ConfFn) :=
  match item with
  | None => Panic
  | Some ast =>
      a ← parse_attr attrs;
      reg ← build_register_constructor a (ident ast);
      f ← build_conf_constructor a ast;
      Ret (reg, f)
  end.
End expansion.

(** ** Run time *)

Section runtime.
(** [read_file]: a readable file's text. *)
Context {Value FV : Type}.
Context (read_file : text → option text) (from_str : text → option Value).
(** [None] for a value that is no mapping, else its lookup. *)
Context (mapping_get : Value → option (text → option Value)).
Notation object := (gmap string FV).

Inductive FieldCheckError := BizError (msg : text).
Definition field_check_display (e : FieldCheckError) : text := match e with BizError msg => msg end.

Definition expect {A : Type} (o : option A) : exec A := match o with Some a => Ret a | None => Panic end.

(** The globals: the text once it is set, and the registered checks. *)
Definition Validator : Type := option text → exec (result () FieldCheckError).
Record World := mkWorld { CONF : option text; INSTANCES : gmap (list N) Validator }.

Definition register_function (name : text) (f : Validator) (w : World) : World :=
  mkWorld (CONF w) (<[name := f]> (INSTANCES w)).

Definition get_config (c : option text) : exec text := expect c.

Definition descend (v : Value) (key : text) : exec Value :=
  match mapping_get v with
  | Some get => expect (get key)
  | None => Panic
  end.
Definition target_value (prefix : option text) (v : Value) : exec Value :=
  match prefix with
  | None => Ret v
  | Some p => exec_fold descend v (split 46 p)
  end.

(** A struct under the attribute, as the generated code sees it: what
    [std::any::type_name] gives, its own [Deserialize], that of the proxy
    struct with its fields, and its [CheckFromConf]. *)
Record Struct := mkStruct {
  type_name : text;
  from_value : Value → option object;
  proxy_from_value : Value → option object;
  field_check : object → result () FieldCheckError
}.

(** [Self { field: proxy.field, .. }]. *)
Fixpoint assign_fields (fs : list string) (proxy : object) : exec object :=
  match fs with
  | [] => Ret ∅
  | f :: fs => v ← expect (proxy !! f); o ← assign_fields fs proxy; Ret (<[f := v]> o)
  end.

(** A call of [conf()] as generated for the struct, with the text set so far. *)
Definition run_conf (T : Struct) (f : ConfFn) (c : option text) : exec object :=
  yaml_content ← match cf_path f with
                 | None => get_config c
                 | Some p => expect (read_file p)
                 end;
  yaml_value ← expect (from_str yaml_content);
  target ← target_value (cf_prefix f) yaml_value;
  match cf_proxy f with
  | Some fs => proxy ← expect (proxy_from_value T target); assign_fields fs proxy
  | None => expect (from_value T target)
  end.

(** The closure that a registration stores. *)
Definition validator (T : Struct) (f : ConfFn) (chk : bool) : Validator :=
  λ c, o ← run_conf T f c; Ret (if chk then field_check T o else Ok ()).

Definition run_register (T : Struct) (r : option Register) (f : ConfFn) (w : World) : World :=
  match r with
  | Some r => register_function (type_name T) (validator T f (reg_check r)) w
  | None => w
  end.

(** The loop of [init_cfg] over the checks. *)
Definition check_one (c : option text) (err_msg : text) (p : list N * Validator) : exec text :=
  r ← p.2 c;
  Ret (match r with
       | Ok _ => err_msg
       | Err e => err_msg ++ p.1 ++ str ": " ++ field_check_display e ++ [10]%N
       end).

Inductive Start := Started | Exit1 (err_msg : text).

Context (iter : gmap (list N) Validator → list (list N * Validator)).

Definition init_cfg (p : text) (w : World) : exec (World * Start) :=
  conf ← expect (read_file p);
  match CONF w with
  | Some _ => Panic
  | None =>
      let w := mkWorld (Some conf) (INSTANCES w) in
      err_msg ← exec_fold (check_one (CONF w)) [] (iter (INSTANCES w));
      Ret (w, if decide (err_msg = []) then Started else Exit1 err_msg)
  end.
End runtime.
Arguments Struct : clear implicits.

(** ** Reading back the attribute *)

(** How a user writes an attribute: [key = value] separated by commas. *)
Definition quoted (v : text) : text := [34]%N ++ v ++ [34]%N.
Definition render_value (key : string) (v : option text) : list TokenTree :=
  match v with
  | Some v => [TIdent (str key); TPunct 61%N; TLiteral (quoted v); TPunct 44%N]
  | None => []
  end.
Definition render (a : ConAttr) : list TokenTree :=
  render_value "path" (path a) ++ render_value "prefix" (prefix a) ++
  render_value "data_type" (data_type a) ++ render_value "lib" (lib a) ++
  (if check a then [TIdent (str "check"); TPunct 44%N] else []) ++
  [TIdent (str "default"); TPunct 61%N; TIdent (if dflt a then str "true" else str "false")].

(** A value without quotation marks at its ends. *)
Definition unquoted (v : text) : Prop := head v ≠ Some 34%N ∧ last v ≠ Some 34%N.

Lemma trim_quotes_start_id v : head v ≠ Some 34%N → trim_quotes_start v = v.
Proof.
  destruct v as [|c v]; [done|]. intros Hc. simpl in *.
  assert (c ≠ 34%N) by congruence. destruct c as [|p]; [done|].
  do 6 (destruct p as [p|p|]; try done).
Qed.

Lemma trim_quotes_quoted v : unquoted v → trim_quotes (quoted v) = v.
Proof.
  intros [Hh Hl]. unfold trim_quotes, quoted. cbn [trim_quotes_start app].
  destruct v as [|c v]; [done|].
  rewrite (trim_quotes_start_id ((c :: v) ++ [34%N])) by done.
  rewrite reverse_snoc. change (trim_quotes_start (34%N :: ?r)) with (trim_quotes_start r).
  rewrite trim_quotes_start_id by by rewrite head_reverse. apply reverse_involutive.
Qed.

(** The value after a key that takes one. *)
Definition with_value (key : string) (v : text) (a : ConAttr) : ConAttr :=
  if decide (key = "path"%string) then mkConAttr (Some v) (prefix a) (data_type a) (lib a) (check a) (dflt a)
  else if decide (key = "prefix"%string) then mkConAttr (path a) (Some v) (data_type a) (lib a) (check a) (dflt a)
  else if decide (key = "data_type"%string)
    then mkConAttr (path a) (prefix a) (Some (to_uppercase v)) (lib a) (check a) (dflt a)
  else set_lib (Some v) a.

(** Reading [key = value,] sets the key's field, whatever was read before. *)
Lemma parse_render_value key v k a rest :
  key ∈ ["path"; "prefix"; "data_type"; "lib"] → (∀ v', v = Some v' → unquoted v') →
  ∃ k', exec_fold parse_token (k, a) (render_value key v ++ rest) =
    exec_fold parse_token (k', match v with Some v => with_value key v a | None => a end) rest.
Proof.
  intros Hk Hv. destruct v as [v|]; [|by exists k]. exists (str key).
  cbn [render_value app exec_fold parse_token mbind exec_bind parse_ident].
  specialize (Hv v eq_refl). unfold parse_ident, parse_literal. destruct a as [p pre dt l c d].
  rewrite !elem_of_cons in Hk. destruct Hk as [->|[->|[->|[->|[]%elem_of_nil]]]];
    (rewrite decide_False by (intros [_ [[=]|[=]]]));
    repeat first [rewrite decide_True by done|rewrite decide_False by done];
    by rewrite trim_quotes_quoted.
Qed.

(** an attribute written out parses back to itself, with its data type in
    upper case. *)
Theorem conf_attr_roundtrip (a : ConAttr) :
  Forall (λ o, ∀ v, o = Some v → unquoted v) [path a; prefix a; data_type a; lib a] →
  parse_attr (render a) =
  Ret (mkConAttr (path a) (prefix a) (to_uppercase <$> data_type a) (lib a) (check a) (dflt a)).
Proof.
  destruct a as [p pre dt l c d]; simpl. rewrite !Forall_cons. intros (Hp & Hpre & Hdt & Hl & _).
  unfold parse_attr, render. simpl.
  destruct (parse_render_value "path" p [] con_attr_default
    (render_value "prefix" pre ++ render_value "data_type" dt ++ render_value "lib" l ++
     (if c then [TIdent (str "check"); TPunct 44%N] else []) ++
     [TIdent (str "default"); TPunct 61%N; TIdent (if d then str "true" else str "false")]))
    as [k1 ->]; [set_solver|done|].
  match goal with |- context [exec_fold _ (k1, ?x) (_ ++ ?r)] =>
    destruct (parse_render_value "prefix" pre k1 x r) as [k2 ->]; [set_solver|done|] end.
  match goal with |- context [exec_fold _ (k2, ?x) (_ ++ ?r)] =>
    destruct (parse_render_value "data_type" dt k2 x r) as [k3 ->]; [set_solver|done|] end.
  match goal with |- context [exec_fold _ (k3, ?x) (_ ++ ?r)] =>
    destruct (parse_render_value "lib" l k3 x r) as [k4 ->]; [set_solver|done|] end.
  destruct c; cbn [exec_fold app parse_token mbind exec_bind parse_ident];
    (rewrite decide_False by (intros [_ [[=]|[=]]])); by destruct p, pre, dt, l, d.
Qed.

Lemma conf_attr_roundtrip_witness :
  parse_attr (render (mkConAttr None (Some (str "log")) (Some (str "yaml")) (Some []) true false)) =
  Ret (mkConAttr None (Some (str "log")) (Some (str "YAML")) (Some []) true false).
Proof.
  apply (conf_attr_roundtrip (mkConAttr None (Some (str "log")) (Some (str "yaml")) (Some []) true false)).
  rewrite !Forall_cons. split_and!; [..|done]; by intros ? [= <-].
Defined.

(** ** Start-up *)

Section startup.
Context {Value FV : Type}.
Context (read_file : text → option text) (from_str : text → option Value).
Context (mapping_get : Value → option (text → option Value)).
Context (iter : gmap (list N) Validator → list (list N * Validator)).
Notation Struct := (Struct Value FV).
Notation run_conf := (run_conf read_file from_str mapping_get).
Notation validator := (validator read_file from_str mapping_get).
Notation run_register := (run_register read_file from_str mapping_get).
Notation init_cfg := (init_cfg read_file iter).

(** A dotted prefix leads where its parts lead one after the other. *)
Lemma split_go_app d cur a b : split_go d cur (a ++ d :: b) = split_go d cur a ++ split d b.
Proof.
  revert cur. induction a as [|c a IH]; intros cur; simpl; [by rewrite N.eqb_refl|].
  destruct (c =? d)%N; [|apply IH]. by rewrite IH.
Qed.
Lemma target_value_app p q v :
  target_value mapping_get (Some (p ++ 46%N :: q)) v =
  w ← target_value mapping_get (Some p) v; target_value mapping_get (Some q) w.
Proof.
  unfold target_value. unfold split at 1. rewrite split_go_app. apply exec_fold_app.
Qed.

(** A configuration type as the macro leaves it: the struct, what it registers
    and its loading function.  The structs of a program differ. *)
Record Registered := mkRegistered {
  rg_type : Struct;
  rg_reg : option Register;
  rg_conf : ConfFn
}.
Definition registered (gs : list Registered) : World :=
  foldl (λ w g, run_register (rg_type g) (rg_reg g) (rg_conf g) w) (mkWorld None ∅) gs.
Definition names (gs : list Registered) : list (list N) :=
  omap (λ g, (λ _, type_name (rg_type g)) <$> rg_reg g) gs.

Lemma registered_CONF gs : CONF (registered gs) = None.
Proof.
  unfold registered. induction gs as [|g gs IH] using rev_ind; [done|].
  rewrite foldl_app. simpl. by destruct (rg_reg g).
Qed.

Lemma names_snoc gs g : names (gs ++ [g]) = names gs ++ names [g].
Proof. apply omap_app. Qed.

Lemma registered_lookup gs n v : NoDup (names gs) →
  INSTANCES (registered gs) !! n = Some v ↔
  ∃ g r, g ∈ gs ∧ rg_reg g = Some r ∧ type_name (rg_type g) = n ∧
    v = validator (rg_type g) (rg_conf g) (reg_check r).
Proof.
  induction gs as [|g gs IH] using rev_ind; intros Hnd.
  { split; [cbn; by rewrite lookup_empty|]. intros (? & ? & []%elem_of_nil & _). }
  rewrite names_snoc in Hnd. apply NoDup_app in Hnd as (Hnd & Hdis & _). specialize (IH Hnd).
  unfold registered. rewrite foldl_app. simpl. fold (registered gs).
  destruct (rg_reg g) as [r|] eqn:Hr; simpl.
  - rewrite lookup_insert_Some, IH. split.
    + intros [[<- <-]|[_ (g' & r' & Hin & H)]].
      * exists g, r. split; [apply elem_of_app; right; left|done].
      * exists g', r'. split; [by apply elem_of_app; left|done].
    + intros (g' & r' & [Hin|Hin%list_elem_of_singleton]%elem_of_app & Hr' & Hn & Hv).
      * right. split; [|eauto 10]. intros Heq. apply (Hdis n).
        { apply list_elem_of_omap. exists g'. rewrite Hr'. simpl. by rewrite Hn. }
        apply list_elem_of_omap. exists g. split; [left|]. rewrite Hr. simpl. by rewrite Heq.
      * subst g'. rewrite Hr in Hr'. injection Hr' as <-. left. done.
  - rewrite IH. split; intros (g' & r' & Hin & H); exists g', r'; (split; [|done]).
    + by apply elem_of_app; left.
    + apply elem_of_app in Hin as [?|Hin%list_elem_of_singleton]; [done|]. destruct H as [H _]. congruence.
Qed.

Definition line (n : list N) (e : FieldCheckError) : text := n ++ str ": " ++ field_check_display e ++ [10]%N.
Definition failure (c : option text) (p : list N * Validator) : text :=
  match p.2 c with Ret (Err e) => line p.1 e | _ => [] end.

Lemma check_one_Ret c acc p acc' : check_one c acc p = Ret acc' →
  (∃ r, p.2 c = Ret r) ∧ acc' = acc ++ failure c p.
Proof.
  unfold check_one, failure. intros (r & -> & [= <-])%bind_Ret. split; [by exists r|].
  destruct r; [by rewrite app_nil_r|done].
Qed.

Lemma check_fold c l acc msg : exec_fold (check_one c) acc l = Ret msg →
  (∀ p, p ∈ l → ∃ r, p.2 c = Ret r) ∧ msg = acc ++ (l ≫= failure c).
Proof.
  revert acc. induction l as [|p l IH]; intros acc; cbn [exec_fold].
  { intros [= <-]. split; [by intros p []%elem_of_nil|by rewrite app_nil_r]. }
  intros (acc' & [Hp ->]%check_one_Ret & Hf)%bind_Ret. destruct (IH _ Hf) as [Hall ->].
  split; [by intros q [->|?]%elem_of_cons; [|apply Hall]|]. by rewrite <- app_assoc.
Qed.

Lemma failure_part c l p : p ∈ l → ∃ l1 l2, l ≫= failure c = l1 ++ failure c p ++ l2.
Proof.
  intros (l1 & l2 & ->)%list_elem_of_split. exists (l1 ≫= failure c), (l2 ≫= failure c).
  by rewrite bind_app.
Qed.
Lemma failure_some c l : l ≫= failure c ≠ [] →
  ∃ p, p ∈ l ∧ ∃ l1 l2, l ≫= failure c = l1 ++ failure c p ++ l2 ∧ failure c p ≠ [].
Proof.
  intros Hne. assert (∃ p, p ∈ l ∧ failure c p ≠ []) as (p & Hp & Hf).
  { induction l as [|p l IH]; [done|]. simpl in Hne. destruct (failure c p) as [|x f] eqn:Hf.
    - destruct (IH Hne) as (q & Hq & ?). exists q. split; [by right|done].
    - exists p. split; [left|by rewrite Hf]. }
  exists p. split; [done|]. destruct (failure_part c l p Hp) as (l1 & l2 & Hb). eauto.
Qed.

Lemma validator_Ret (T : Struct) f chk c r : validator T f chk c = Ret r →
  ∃ o, run_conf T f c = Ret o ∧ r = if chk then field_check T o else Ok ().
Proof. unfold Config.validator. intros (o & Ho & [= <-])%bind_Ret. eauto. Qed.

(** C27: once [init_cfg] comes back, the configuration is the file's text,
    every registered type, each by its own deserialiser, loads from it, and
    [init_cfg] cannot run again.  It lets the service start just when every
    type that asks for it passes its check; if it exits, some type's check
    failed, and the message has the line of every one that did. *)
Theorem startup_checked (p : text) (gs : list Registered) (w : World) (st : Start) :
  NoDup (names gs) → (∀ m, iter m ≡ₚ map_to_list m) →
  init_cfg p (registered gs) = Ret (w, st) →
  let fails (g : Registered) r e := g ∈ gs ∧ rg_reg g = Some r ∧ reg_check r = true ∧
    ∃ o, run_conf (rg_type g) (rg_conf g) (CONF w) = Ret o ∧ field_check (rg_type g) o = Err e in
  CONF w = read_file p ∧ (∀ p', init_cfg p' w = Panic) ∧
  (∀ g r, g ∈ gs → rg_reg g = Some r → ∃ o, run_conf (rg_type g) (rg_conf g) (CONF w) = Ret o) ∧
  match st with
  | Started => ∀ g r e, ¬ fails g r e
  | Exit1 msg => (∃ g r e, fails g r e) ∧
      ∀ g r e, fails g r e → ∃ l1 l2, msg = l1 ++ line (type_name (rg_type g)) e ++ l2
  end.
Proof.
  intros Hnd Hiter. unfold Config.init_cfg. destruct (read_file p) as [conf|] eqn:Hp; cbn; [|done].
  rewrite registered_CONF. intros (msg & Hf & [= <- <-])%bind_Ret. simpl.
  destruct (check_fold _ _ _ _ Hf) as [Hall Hmsg]. simpl in Hmsg.
  assert (Hin : ∀ n v, (n, v) ∈ iter (INSTANCES (registered gs)) ↔ INSTANCES (registered gs) !! n = Some v).
  { intros n v. by rewrite Hiter, elem_of_map_to_list. }
  assert (Hreg : ∀ g r, g ∈ gs → rg_reg g = Some r →
      (type_name (rg_type g), validator (rg_type g) (rg_conf g) (reg_check r)) ∈ iter (INSTANCES (registered gs))).
  { intros g r Hg Hr. apply Hin, registered_lookup; [done|]. by exists g, r. }
  assert (Hline : ∀ g r o e, g ∈ gs → rg_reg g = Some r → reg_check r = true →
      run_conf (rg_type g) (rg_conf g) (Some conf) = Ret o → field_check (rg_type g) o = Err e →
      ∃ l1 l2, msg = l1 ++ line (type_name (rg_type g)) e ++ l2).
  { intros g r o e Hg Hr Hc Ho He. destruct (failure_part (Some conf) _ _ (Hreg g r Hg Hr)) as (l1 & l2 & Hb).
    exists l1, l2. rewrite Hmsg, Hb. unfold failure. simpl. unfold Config.validator. by rewrite Ho, Hc; simpl; rewrite He. }
  split; [done|]. split; [by intros p'; destruct (read_file p')|]. split.
  { intros g r Hg Hr. destruct (Hall _ (Hreg g r Hg Hr)) as [res Hres].
    destruct (validator_Ret _ _ _ _ _ Hres) as (o & Ho & _). eauto. }
  case_decide as Hm.
  - intros g r e (Hg & Hr & Hc & o & Ho & He).
    destruct (Hline g r o e Hg Hr Hc Ho He) as (l1 & l2 & Hb). rewrite Hm in Hb.
    destruct l1; [|done]. by destruct (type_name (rg_type g)).
  - split; [|intros g r e (Hg & Hr & Hc & o & Ho & He); by eapply Hline].
    destruct (failure_some (Some conf) (iter (INSTANCES (registered gs)))) as ([n v] & Hl & _ & _ & _ & Hne);
      [congruence|].
    pose proof (proj1 (Hin n v) Hl) as (g & r & Hg & Hr & <- & ->)%(registered_lookup gs _ _ Hnd).
    destruct (Hall _ Hl) as [res Hres]. unfold failure in Hne. simpl in Hres, Hne.
    rewrite Hres in Hne. destruct res as [[]|e]; [done|].
    pose proof (validator_Ret _ _ _ _ _ Hres) as (o & Ho & Hr').
    destruct (reg_check r) eqn:Hc; [|done]. exists g, r, e. by eauto 10.
Qed.
End startup.

(** ** Examples *)

Module ConfigExample.
(** [log: { level: warn }, db: { size: .. }]; a scalar for the size. *)
Inductive Y := YTop | YLog | YDb | YStr (s : text).
Definition mapping_get (v : Y) : option (text → option Y) :=
  match v with
  | YTop => Some (λ k, if decide (k = str "log") then Some YLog else if decide (k = str "db") then Some YDb else None)
  | YLog => Some (λ k, if decide (k = str "level") then Some (YStr (str "warn")) else None)
  | YDb => Some (λ k, if decide (k = str "size") then Some (YStr (str "4")) else None)
  | YStr _ => None
  end.
Definition read_file (p : text) : option text := if decide (p = str "config.yml") then Some (str "log: ..") else None.
Definition from_str (_ : text) : option Y := Some YTop.
Definition get (v : Y) (key : string) : option text :=
  f ← mapping_get v; match f (str key) with Some (YStr s) => Some s | _ => None end.
(** [struct LoggerConf { level: String }], with a default, and
    [struct DbConf { size: String }], without. *)
Definition logger_conf : Struct Y text := mkStruct (str "app::log::LoggerConf")
  (λ v, (λ s, {["level"%string := s]}) <$> get v "level")
  (λ v, match v with YStr _ => None | _ => Some {["level"%string := default (str "info") (get v "level")]} end)
  (λ o, if decide (o !! "level"%string = Some (str "warn")) then Ok () else Err (BizError (str "level"))).
Definition db_conf (min : string) : Struct Y text := mkStruct (str "app::db::DbConf")
  (λ v, (λ s, {["size"%string := s]}) <$> get v "size")
  (λ v, (λ s, {["size"%string := s]}) <$> get v "size")
  (λ o, if decide (o !! "size"%string = Some (str min)) then Ok () else Err (BizError (str "size"))).
Definition attrs (prefix dflt : string) : list TokenTree :=
  [TIdent (str "prefix"); TPunct 61%N; TLiteral (quoted (str prefix)); TPunct 44%N; TIdent (str "check");
   TPunct 44%N; TIdent (str "default"); TPunct 61%N; TIdent (str dflt)].
Definition logger_item : Item (Ty := nat) := mkItem (str "LoggerConf") (DStruct (FNamed [("level", 0)])).
Definition db_item : Item (Ty := nat) := mkItem (str "DbConf") (DStruct (FNamed [("size", 0)])).
Definition expand (T : Struct Y text) (prefix dflt : string) (item : Item (Ty := nat)) : list Registered :=
  match conf (λ _, false) (λ _, true) (attrs prefix dflt) (Some item) with
  | Ret (r, f) => [mkRegistered T r f]
  | _ => []
  end.
Definition types (min : string) : list (Registered (Value := Y) (FV := text)) :=
  expand logger_conf "log" "true" logger_item ++ expand (db_conf min) "db" "false" db_item.
Definition run (min : string) : exec (World * Start) :=
  init_cfg read_file map_to_list (str "config.yml") (registered read_file from_str mapping_get (types min)).
Definition logger_fn : ConfFn := mkConfFn BaseCrate None (Some (str "log")) (Some ["level"%string]).
Definition db_fn : ConfFn := mkConfFn BaseCrate None (Some (str "db")) None.
Definition reg (fn ident : string) : Register := mkRegister BaseCrate (str fn) (str ident) true.
End ConfigExample.

Example expansion_value min :
  ConfigExample.types min =
  [mkRegistered ConfigExample.logger_conf
     (Some (ConfigExample.reg "register_instance_logger_conf" "LoggerConf")) ConfigExample.logger_fn;
   mkRegistered (ConfigExample.db_conf min)
     (Some (ConfigExample.reg "register_instance_db_conf" "DbConf")) ConfigExample.db_fn].
Proof. by vm_compute. Qed.

(** A program with two structs, the second of which fails its check. *)
Lemma startup_checked_witness :
  ∃ w msg, ConfigExample.run "8" = Ret (w, Exit1 msg) ∧ CONF w = Some (str "log: ..") ∧
    (∃ o, run_conf ConfigExample.read_file ConfigExample.from_str ConfigExample.mapping_get
      ConfigExample.logger_conf ConfigExample.logger_fn (CONF w) = Ret o) ∧
    ∃ l1 l2, msg = l1 ++ line (str "app::db::DbConf") (BizError (str "size")) ++ l2.
Proof.
  assert (Hr : ∃ w msg, ConfigExample.run "8" = Ret (w, Exit1 msg)) by (by eexists _, _; vm_compute).
  destruct Hr as (w & msg & Hw). exists w, msg. split; [exact Hw|].
  destruct (startup_checked ConfigExample.read_file ConfigExample.from_str ConfigExample.mapping_get
    map_to_list (str "config.yml") (ConfigExample.types "8") w (Exit1 msg)) as (Hc & _ & Hload & _ & Hmsg);
    [refine (bool_decide_unpack _ _); by vm_compute|done|exact Hw|].
  rewrite expansion_value in Hload, Hmsg. split; [exact Hc|]. split.
  - apply (Hload (mkRegistered ConfigExample.logger_conf
      (Some (ConfigExample.reg "register_instance_logger_conf" "LoggerConf")) ConfigExample.logger_fn)
      (ConfigExample.reg "register_instance_logger_conf" "LoggerConf")); [left|done].
  - apply (Hmsg (mkRegistered (ConfigExample.db_conf "8")
      (Some (ConfigExample.reg "register_instance_db_conf" "DbConf")) ConfigExample.db_fn)
      (ConfigExample.reg "register_instance_db_conf" "DbConf")).
    split_and!; [right; left|done|done|]. rewrite Hc. eexists. split; by vm_compute.
Defined.

(** Both structs pass: the service starts. *)
Example two_structs_start :
  match ConfigExample.run "4" with Ret (_, Started) => true | _ => false end = true.
Proof. by vm_compute. Qed.

(** ** What modelling showed *)

(** The text of a literal is taken as it prints: a raw string keeps its
    prefix and its first quotation mark. *)
Example raw_literal_kept :
  parse_attr [TIdent (str "path"); TPunct 61%N; TLiteral ([114; 34]%N ++ str "a.yml" ++ [34]%N)] =
  Ret (mkConAttr (Some ([114; 34]%N ++ str "a.yml")) None None None false true).
Proof. by vm_compute. Qed.

(** The key stays in force after its value: a second value replaces the
    first, and [check] takes none. *)
Example second_value_replaces :
  parse_attr [TIdent (str "prefix"); TPunct 61%N; TLiteral (quoted (str "a")); TPunct 44%N; TLiteral (quoted (str "b"))] =
  Ret (mkConAttr None (Some (str "b")) None None false true).
Proof. by vm_compute. Qed.
