(* ===== verification/Yaml.v ===== *)
(** * Helper macros (macros/cfg_lib/src/util.rs, macros/cfg_lib/src/lib.rs, base/src/utils/macros.rs)

    [load_file_yaml_field_to_struct], [load_str_yaml_field_to_struct],
    [serde_default] and [default_cli_basic], as functions of what their
    expansions take.  YAML values, their indexing and serde are parameters as
    in [Config], whose generated [conf] the field macros are compared with. *)
From S2P Require Import Prelude Bytes Text Constructor Config.

(** [serde_default]: a function of no arguments. *)
Definition serde_default {A : Type} (value : A) : unit → A := λ _, value.

(** [CliBasic] and the macro that fills it from cargo's environment. *)
Record CliBasic := mkCliBasic { cli_name : text; cli_version : text; cli_author : text; cli_about : text }.
Definition default_cli_basic (env : string → text) : CliBasic :=
  mkCliBasic (env "CARGO_PKG_NAME") (env "CARGO_PKG_VERSION") (env "CARGO_PKG_AUTHORS") (env "CARGO_PKG_DESCRIPTION").

Section yaml.
Context {Value FV : Type}.
(** [File::open] and [read_to_string]; serde_yaml's parser, its lookup in a
    mapping, its null and [&value[key]].  The struct is the macro's argument,
    with its own [Deserialize]. *)
Context (open : text → option N) (read_to_string : N → option text) (from_str : text → option Value).
Context (mapping_get : Value → option (text → option Value)) (null : Value) (index : Value → text → Value).

Definition load_str_yaml_field_to_struct (T : Struct Value FV) (the_str field : text) : exec (gmap string FV) :=
  yaml_value ← expect (from_str the_str);
  expect (from_value T (index yaml_value field)).

Definition load_file_yaml_field_to_struct (T : Struct Value FV) (file_path field : text) : exec (gmap string FV) :=
  file ← expect (open file_path);
  contents ← expect (read_to_string file);
  yaml_value ← expect (from_str contents);
  expect (from_value T (index yaml_value field)).

(** serde_yaml documents that indexing gives null for a key that is missing,
    and for a value that is no mapping. *)
Definition index_law : Prop := ∀ v key,
  index v key = match mapping_get v with Some get => default null (get key) | None => null end.
Definition read_file (p : text) : option text := open p ≫= read_to_string.

Definition has_field (v : Value) (field : text) : bool :=
  match mapping_get v with Some get => bool_decide (is_Some (get field)) | None => false end.

Lemma split_word d s : d ∉ s → split d s = [s].
Proof.
  unfold split. intros Hd. rewrite <- (app_nil_l s) at 2. generalize (@nil char) as cur. revert Hd.
  induction s as [|c s IH]; intros Hd cur; simpl; [by rewrite app_nil_r|].
  apply not_elem_of_cons in Hd as [Hc Hd]. apply not_eq_sym, N.eqb_neq in Hc as ->.
  by rewrite IH, <- app_assoc.
Qed.

(** For a field whose name has no dot, the file macro does what the
    [conf] function generated for that file and that prefix does, whenever
    the field is there; when it is not, [conf] panics, while the macro maps
    the null value, and panics only if the struct does not take null.  The
    file macro is the string macro on the file's text. *)
Theorem field_macro_as_conf T file_path field root c :
  index_law → 46%N ∉ field →
  (let f := mkConfFn root (Some file_path) (Some field) None in
   match read_file file_path ≫= from_str with
   | Some v =>
       if has_field v field
       then load_file_yaml_field_to_struct T file_path field =
            run_conf read_file from_str mapping_get T f c
       else load_file_yaml_field_to_struct T file_path field = expect (from_value T null) ∧
            run_conf read_file from_str mapping_get T f c = Panic
   | None => load_file_yaml_field_to_struct T file_path field = Panic ∧
             run_conf read_file from_str mapping_get T f c = Panic
   end) ∧
  load_file_yaml_field_to_struct T file_path field =
    (s ← expect (read_file file_path); load_str_yaml_field_to_struct T s field).
Proof.
  intros Hix Hdot. unfold load_file_yaml_field_to_struct, load_str_yaml_field_to_struct, run_conf, read_file.
  cbn [cf_path cf_prefix cf_proxy target_value]. rewrite (split_word _ _ Hdot).
  destruct (open file_path) as [file|]; [|done]. cbn.
  destruct (read_to_string file) as [s|]; [|done]. cbn. split; [|done].
  destruct (from_str s) as [v|]; [|done]. cbn. unfold has_field, descend. rewrite Hix.
  destruct (mapping_get v) as [get|]; [|done]. destruct (get field) as [x|]; [|done]. cbn. done.
Qed.
End yaml.

(** ** Witness *)

Module YamlExample.
Import ConfigExample.
Definition open (p : text) : option N := if decide (p = str "config.yml") then Some 3%N else None.
Definition read_to_string (_ : N) : option text := Some (str "log: ..").
Definition index (v : Y) (key : text) : Y :=
  match mapping_get v with Some get => default (YStr []) (get key) | None => YStr [] end.
End YamlExample.

Lemma field_macro_as_conf_witness :
  load_file_yaml_field_to_struct YamlExample.open YamlExample.read_to_string ConfigExample.from_str YamlExample.index
    ConfigExample.logger_conf (str "config.yml") (str "log") =
  run_conf (read_file YamlExample.open YamlExample.read_to_string) ConfigExample.from_str ConfigExample.mapping_get
    ConfigExample.logger_conf (mkConfFn ThisCrate (Some (str "config.yml")) (Some (str "log")) None) None.
Proof.
  apply (field_macro_as_conf YamlExample.open YamlExample.read_to_string ConfigExample.from_str ConfigExample.mapping_get
    (ConfigExample.YStr []) YamlExample.index ConfigExample.logger_conf
    (str "config.yml") (str "log") ThisCrate None); [done|by apply (bool_decide_unpack _)].
Defined.

(** The default of the logger's level, as its module declares it. *)
Example default_level : serde_default (str "info") () = str "info".
Proof. done. Qed.
