(* ===== verification/Daemon.v ===== *)
(** * Daemon control (base/src/daemon)

    Starting, stopping and restarting a service through its pid file and
    signals, the command line's dispatch, the record of how the service was
    started, and the exit signals a service waits for.  The operating system
    is a world of its own type with the few calls the code makes; daemonize's
    fork, serde_json and chrono are parameters. *)
From S2P Require Import Prelude Bytes Text Logger Config.

Notation text := (list char) (only parsing).
Open Scope N_scope.

Definition DAEMON_STOP_TIMEOUT_SECS : N := 10.

(** ** Process ids *)

Definition parse_digits (max : N) (s : text) : option N :=
  match s with [] => None | _ => foldl (push_dec max) (Some 0) s end.
(** [parse::<i32>]: a sign, then digits. *)
Definition parse_i32 (s : text) : option Z :=
  match s with
  | 45 :: r => (λ n, (- Z.of_N n)%Z) <$> parse_digits 2147483648 r
  | 43 :: r => Z.of_N <$> parse_digits 2147483647 r
  | _ => Z.of_N <$> parse_digits 2147483647 s
  end.

(** ** The operating system *)

(** [kill(pid, 0)]: zero, or an error that tells no process or no permission. *)
Inductive KillResult := KOk | ESRCH | EPERM.

(** The calls, over worlds that carry the clock, in milliseconds, and the
    other processes. *)
Class Os (W : Type) := {
  now : W → N;
  kill0 : Z → W → KillResult;
  sleep : N → W → W;
  kill_term : Z → W → W * result () text;  (* the kill command; a failed run or exit code *)
  kill_9 : Z → W → W
}.
(** A sleep takes at least its time, a command's time is not negative. *)
Class OsLaws W `{!Os W} := {
  sleep_now d w : now w + d ≤ now (sleep d w);
  term_now p w : now w ≤ now (kill_term p w).1
}.

(** What the code prints. *)
Inductive Line :=
  | LNotRunningNoPid | LStale (pid : Z) | LStopping (pid : Z) | LTermFailed (e : text)
  | LStopped | LTimedOut | LKilled (pid : Z) | LKillFailed (pid : Z)
  | LAlreadyRunning (pid : Z) | LStaleRemoving (pid : Z) | LStarted
  | LRunError (e : text) | LPrivError (e : text) | LChildError (e : text) | LParentError (e : text)
  | LRestarting | LStartingNew | LRestartAborted
  | LRunningPid (pid : Z) | LStartedAt (t : text) | LProcessInfo (t : text) | LStaleStatus (pid : Z)
  | LStatusNone | LUnsupported | LNotDaemonMode | LUsage | LError (e : text).

Section daemon.
Context {W : Type} `{!Os W}.

(** A file: absent, or its text, or bytes that are no text. *)
Inductive File := Absent | Garbled | Contents (t : text).

Record State := mkState {
  os : W;
  exe_known : bool;         (* [current_exe] succeeds *)
  removable : bool;         (* [remove_file] succeeds *)
  meta_writable : bool;
  pid_file : File;
  meta_file : File;
  conf_world : World;
  out : list Line
}.
Definition set_os (w : W) (s : State) : State :=
  mkState w (exe_known s) (removable s) (meta_writable s) (pid_file s) (meta_file s) (conf_world s) (out s).
Definition set_pid_file (f : File) (s : State) : State :=
  mkState (os s) (exe_known s) (removable s) (meta_writable s) f (meta_file s) (conf_world s) (out s).
Definition set_meta_file (f : File) (s : State) : State :=
  mkState (os s) (exe_known s) (removable s) (meta_writable s) (pid_file s) f (conf_world s) (out s).
Definition set_conf_world (c : World) (s : State) : State :=
  mkState (os s) (exe_known s) (removable s) (meta_writable s) (pid_file s) (meta_file s) c (out s).
Definition say (l : Line) (s : State) : State :=
  mkState (os s) (exe_known s) (removable s) (meta_writable s) (pid_file s) (meta_file s) (conf_world s)
    (out s ++ [l]).
Definition do_sleep (ms : N) (s : State) : State := set_os (sleep ms (os s)) s.

Definition read_pid (s : State) : exec (option Z) :=
  if exe_known s then
    match pid_file s with
    | Absent => Ret None
    | Garbled => Panic
    | Contents t => Ret (pid ← parse_i32 (trim t); if (0 <? pid)%Z then Some pid else None)
    end
  else Panic.

Definition is_process_running (pid : Z) (w : W) : bool :=
  if (pid <=? 0)%Z then false else match kill0 pid w with KOk => true | _ => false end.

Definition remove_pid_file (s : State) : State :=
  if exe_known s && removable s then set_pid_file Absent s else s.

Definition send_terminate_signal (pid : Z) (s : State) : State * result () text :=
  let '(w, r) := kill_term pid (os s) in (set_os w s, r).

(** The polling loop; [None] when the fuel is out. *)
Fixpoint wait_loop (fuel : nat) (pid : Z) (start timeout : N) (w : W) : option (W * bool) :=
  match fuel with
  | O => None
  | S fuel =>
      if now w - start <? timeout then
        if is_process_running pid w then wait_loop fuel pid start timeout (sleep 200 w)
        else Some (w, true)
      else Some (w, false)
  end.
(** One poll per 200 ms, and the last look at the clock. *)
Definition wait_fuel (timeout_secs : N) : nat := N.to_nat (timeout_secs * 5) + 1.
Definition wait_for_process_exit (pid : Z) (timeout_secs : N) (w : W) : option (W * bool) :=
  wait_loop (wait_fuel timeout_secs) pid (now w) (timeout_secs * 1000) w.

Definition stop_service (s : State) : exec (option (State * bool)) :=
  pid ← read_pid s;
  match pid with
  | None => Ret (Some (say LNotRunningNoPid s, true))
  | Some pid =>
      if negb (is_process_running pid (os s))
      then Ret (Some (remove_pid_file (say (LStale pid) s), true))
      else
        let s := say (LStopping pid) s in
        let '(s, r) := send_terminate_signal pid s in
        match r with
        | Err e => Ret (Some (say (LTermFailed e) s, false))
        | Ok _ =>
            Ret ('(w, exited) ← wait_for_process_exit pid DAEMON_STOP_TIMEOUT_SECS (os s);
              let s := set_os w s in
              if exited : bool then Some (remove_pid_file (say LStopped s), true)
              else
                let s := say LTimedOut s in
                let s := do_sleep 200 (set_os (kill_9 pid (os s)) s) in
                if negb (is_process_running pid (os s))
                then Some (remove_pid_file (say (LKilled pid) s), true)
                else Some (say (LKillFailed pid) s, false))
        end
  end.

(** ** Starting *)

(** How a piece of the program ends: it returns, or the process exits. *)
Inductive Flow := Return | Exit (code : Z).

Section start.
Context {D T : Type} (run_app : D → T → result () text).

(** What daemonize's [execute] comes back with, in the child and in the
    parent; it writes the pid file. *)
Inductive Outcome :=
  | ChildOk (privileged_action_result : result (D * T) text)
  | ChildErr (e : text)
  | ParentErr (e : text)
  | ParentOk (first_child_exit_code : Z).
Context (execute : State → State * Outcome).

Definition after_fork (s : State) (o : Outcome) : State * Flow :=
  match o with
  | ChildOk (Ok (d, t)) =>
      (match run_app d t with Err e => say (LRunError e) s | Ok _ => s end, Return)
  | ChildOk (Err e) => (say (LPrivError e) s, Return)
  | ChildErr e => (say (LChildError e) s, Return)
  | ParentErr e => (say (LParentError e) s, Return)
  | ParentOk code => (say LStarted s, Exit code)
  end.

Definition start_service (s : State) : exec (State * Flow) :=
  pid ← read_pid s;
  let go s := if exe_known s then let '(s, o) := execute s in Ret (after_fork s o) else Panic in
  match pid with
  | Some pid =>
      if is_process_running pid (os s) then Ret (say (LAlreadyRunning pid) s, Exit 1)
      else go (remove_pid_file (say (LStaleRemoving pid) s))
  | None => go s
  end.

Definition restart_service (s : State) : exec (option (State * Flow)) :=
  r ← stop_service (say LRestarting s);
  match r with
  | None => Ret None
  | Some (s, true) =>
      r ← start_service (say LStartingNew (do_sleep 300 s)); Ret (Some r)
  | Some (s, false) => Ret (Some (say LRestartAborted s, Return))
  end.

(** ** The record of the last start *)

Record DaemonMeta := mkMeta { config_path : text; daemon : bool }.
Context (meta_to_string : DaemonMeta → text) (meta_from_str : text → option DaemonMeta).

Definition save_meta (m : DaemonMeta) (s : State) : exec State :=
  if exe_known s && meta_writable s then Ret (set_meta_file (Contents (meta_to_string m)) s) else Panic.
Definition load_meta (s : State) : exec DaemonMeta :=
  if exe_known s then
    match meta_file s with
    | Contents t => expect (meta_from_str t)
    | _ => Panic
    end
  else Panic.

(** ** The command line *)

Context (init_privilege : result (D * T) text).
Definition run_foreground : result () text :=
  match init_privilege with
  | Err e => Err (str "App init error: " ++ e)
  | Ok (d, t) =>
      match run_app d t with
      | Err e => Err (str "App runtime error: " ++ e)
      | Ok _ => Ok ()
      end
  end.

(** What a run of [ps] gives: status asks for the start time and for a table. *)
Record Output := mkOutput { o_success : bool; o_utf8 : option text; o_lossy : text }.
Inductive PsQuery := Lstart | Info.
Context (ps : Z → PsQuery → W → option Output).
Context (parse_datetime parse_naive : text → text → option text).  (* text, format; printed as asked *)

Definition lstart_formats : list text :=
  [str "%a %b %e %H:%M:%S %Y"; str "%a %b %d %H:%M:%S %Y"; str "%b %e %H:%M"; str "%b %d %H:%M"].
Definition format_start_time_friendly (s : text) : option text :=
  match list_find (λ f, is_Some (parse_datetime s f)) lstart_formats with
  | Some (_, f) => parse_datetime s f
  | None => parse_naive s (str "%a %b %e %H:%M:%S %Y")
  end.

(** [replace("  ", " ")], left to right. *)
Fixpoint collapse (s : text) : text :=
  match s with
  | 32 :: ((32 :: r) as s') => 32 :: collapse r
  | c :: r => c :: collapse r
  | [] => []
  end.
(** [trim_start_matches("PID")]. *)
Fixpoint trim_pid (fuel : nat) (s : text) : text :=
  match fuel with
  | O => s
  | S fuel => match strip_prefix (str "PID") s with Some r => trim_pid fuel r | None => s end
  end.

Definition friendly_start (pid : Z) (w : W) : option text :=
  o ← ps pid Lstart w;
  if o_success o then
    raw ← o_utf8 o;
    match trim raw with [] => None | t => format_start_time_friendly (collapse t) end
  else None.

Definition status_service (s : State) : exec State :=
  pid ← read_pid s;
  match pid with
  | None => Ret (say LStatusNone s)
  | Some pid =>
      if is_process_running pid (os s) then
        let s := say (LRunningPid pid) s in
        let s := match friendly_start pid (os s) with
                 | Some t => say (LStartedAt t) s
                 | None => match ps pid Lstart (os s) ≫= o_utf8 with
                           | Some raw => say (LStartedAt (trim raw)) s
                           | None => s
                           end
                 end in
        Ret match ps pid Info (os s) with
            | Some o =>
                match trim (o_lossy o) with
                | [] => s
                | t => say (LProcessInfo (trim_pid (length t) t)) s
                end
            | None => s
            end
      else Ret (say (LStaleStatus pid) s)
  end.

(** [get_arg_cmd]'s subcommands with the values of their arguments. *)
Inductive Subcommand := CStart (config : text) (daemon : bool) | CStop | CRestart | CStatus | COther.

Context (supported : bool).  (* Linux or macOS *)
Context (read_file : text → option text) (iter : gmap (list N) Validator → list (list N * Validator)).

Definition load_config (p : text) (s : State) (k : State → exec (option (State * Flow))) :
    exec (option (State * Flow)) :=
  r ← init_cfg read_file iter p (conf_world s);
  let s := set_conf_world r.1 s in
  match r.2 with
  | Exit1 msg => Ret (Some (say (LError msg) s, Exit 1))
  | Started => k s
  end.

Definition run (c : Subcommand) (s : State) : exec (option (State * Flow)) :=
  match c with
  | CStart config dmn =>
      load_config config s (λ s,
        s ← save_meta (mkMeta config dmn) s;
        if dmn && supported then r ← start_service s; Ret (Some r)
        else
          let s := if dmn then say LUnsupported s else s in
          Ret (Some match run_foreground with
            | Err e => (say (LError e) s, Exit 1)
            | Ok _ => (s, Return)
            end))
  | CStop =>
      m ← load_meta s;
      if daemon m then
        if supported then r ← stop_service s; Ret (r ≫= λ p, Some (p.1, Return))
        else Ret (Some (say LUnsupported s, Return))
      else Ret (Some (say LNotDaemonMode s, Return))
  | CRestart =>
      m ← load_meta s;
      if daemon m then
        load_config (config_path m) s (λ s,
          if supported then restart_service s else Ret (Some (say LUnsupported s, Return)))
      else Ret (Some (say LNotDaemonMode s, Return))
  | CStatus =>
      if supported then s ← status_service s; Ret (Some (s, Return))
      else Ret (Some (say LUnsupported s, Return))
  | COther => Ret (Some (say LUsage s, Return))
  end.
End start.
End daemon.

(** ** Exit signals (signal.rs) *)

Inductive ExitSignal := Requested | CtrlC | Terminate.
#[export] Instance ExitSignal_eq_dec : EqDecision ExitSignal.
Proof. solve_decision. Defined.
Definition as_str (e : ExitSignal) : string :=
  match e with Requested => "requested" | CtrlC => "ctrl_c" | Terminate => "sigterm" end.

(** A poll of [wait_exit_signal]: [select!] tries its branches in an order of
    its own; on leaving, the global token is cancelled.  The state is that
    token; [ready] tells which signals arrived. *)
Definition request_shutdown (cancelled : bool) : bool := true.
Definition wait_exit_signal (order : list ExitSignal) (ready : ExitSignal → bool) (cancelled : bool) :
    bool * option ExitSignal :=
  match List.find (λ e, match e with Requested => cancelled | _ => ready e end) order with
  | Some e => (true, Some e)
  | None => (cancelled, None)
  end.

(** ** The panic hook *)

Inductive Payload := PStr (s : text) | PString (s : text) | POther.
Definition panic_hook (thread : option text) (p : Payload) (location : option (list byte * N * N)) : text :=
  let name := default (str "unnamed") thread in
  let message := match p with PStr s | PString s => s | POther => str "Box<dyn Any>" end in
  match location with
  | Some (file, line, col) =>
      str "thread '" ++ name ++ str "' panicked at " ++ display_source_file file ++ str ":" ++
      fmt_dec line ++ str ":" ++ fmt_dec col ++ str ":" ++ [10] ++ message
  | None => str "thread '" ++ name ++ str "' panicked:" ++ [10] ++ message
  end.

(** ** Stopping *)

Section stop.
Context {W : Type} `{!Os W, !OsLaws W}.
Implicit Types s : State (W := W).

(** The process the pid file names. *)
Definition pid_of s : option Z :=
  match pid_file s with
  | Contents t => pid ← parse_i32 (trim t); if (0 <? pid)%Z then Some pid else None
  | _ => None
  end.

Lemma read_pid_spec s : exe_known s = true → pid_file s ≠ Garbled → read_pid s = Ret (pid_of s).
Proof. unfold read_pid, pid_of. intros ->. by destruct (pid_file s). Qed.

(** Enough fuel for the time that is left gives a result. *)
Lemma wait_loop_total fuel pid start timeout w :
  start ≤ now w → timeout ≤ now w - start + 200 * (N.of_nat fuel - 1) → fuel ≠ O →
  ∃ w' b, wait_loop fuel pid start timeout w = Some (w', b).
Proof.
  revert w. induction fuel as [|fuel IH]; intros w Hs Hf Hne; [done|]. simpl.
  case_N; [|eauto]. destruct (is_process_running pid w); [|eauto].
  pose proof (sleep_now 200 w). apply IH; [lia..|]. intros ->. lia.
Qed.

Lemma wait_loop_spec fuel pid start timeout w w' b :
  wait_loop fuel pid start timeout w = Some (w', b) →
  if b then is_process_running pid w' = false else timeout ≤ now w' - start.
Proof.
  revert w. induction fuel as [|fuel IH]; intros w; simpl; [done|].
  case_N; [|by intros [= <- <-]].
  destruct (is_process_running pid w) eqn:Hr; [apply IH|by intros [= <- <-]].
Qed.

Lemma wait_total pid t w : ∃ w' b, wait_for_process_exit pid t w = Some (w', b).
Proof. apply wait_loop_total; unfold wait_fuel; lia. Qed.

(** The worlds the polling passes through. *)
Definition later (w : W) (n : nat) : W := Nat.iter n (sleep 200) w.
Lemma later_S w n : later (sleep 200 w) n = later w (S n).
Proof. unfold later. by rewrite Nat.iter_succ_r. Qed.

(** The polling sleeps some times, sees the process at every look before the
    last, and ends at the deadline or when the process is gone. *)
Lemma wait_loop_polls fuel pid start timeout w w' b :
  wait_loop fuel pid start timeout w = Some (w', b) →
  ∃ n, w' = later w n ∧
    (∀ i, (i < n)%nat → is_process_running pid (later w i) = true ∧ now (later w i) - start < timeout) ∧
    b = (now w' - start <? timeout).
Proof.
  revert w. induction fuel as [|fuel IH]; intros w; simpl; [done|].
  destruct (now w - start <? timeout) eqn:Hn.
  2:{ intros [= <- <-]. exists O. split_and!; [done|lia|by rewrite Hn]. }
  destruct (is_process_running pid w) eqn:Hr.
  2:{ intros [= <- <-]. exists O. split_and!; [done|lia|by rewrite Hn]. }
  intros (n & -> & Hbefore & Hb)%IH. exists (S n). split_and!.
  - apply later_S.
  - intros [|i] Hi; [split; [done|by apply N.ltb_lt]|]. rewrite <- later_S. apply Hbefore. lia.
  - done.
Qed.

Lemma pid_file_removed s : exe_known s = true →
  pid_file (remove_pid_file s) = if removable s then Absent else pid_file s.
Proof. intros H. unfold remove_pid_file. rewrite H. by destruct (removable s). Qed.
Lemma out_remove_pid_file s : out (remove_pid_file s) = out s.
Proof. unfold remove_pid_file. by destruct (_ && _). Qed.
Lemma os_remove_pid_file s : os (remove_pid_file s) = os s.
Proof. unfold remove_pid_file. by destruct (_ && _). Qed.

(** C18: stopping the service always comes to an end, and what it did is this.
    No process id in the file: it says so and succeeds.  A process that is
    not there: its pid file is removed and it succeeds.  Else SIGTERM is
    sent, and if that fails the stop fails and leaves the pid file.  If it
    was sent, the process is looked at every 200 ms: either it is seen gone
    before the ten seconds are over, no kill is sent, the pid file is removed
    and the stop succeeds; or it was there at every look until ten seconds
    had passed since the SIGTERM, the kill -9 is sent after them, and the
    stop succeeds, and removes the pid file, just when the process is gone
    200 ms after the kill. *)
Theorem stop_service_spec s : exe_known s = true → pid_file s ≠ Garbled →
  ∃ s' b, stop_service s = Ret (Some (s', b)) ∧
  let rest := if removable s then Absent else pid_file s in
  match pid_of s with
  | None => b = true ∧ pid_file s' = pid_file s ∧ os s' = os s ∧ out s' = out s ++ [LNotRunningNoPid]
  | Some pid =>
      if is_process_running pid (os s) then
        let w := (kill_term pid (os s)).1 in
        match (kill_term pid (os s)).2 with
        | Err e => b = false ∧ pid_file s' = pid_file s ∧ os s' = w ∧
                   out s' = out s ++ [LStopping pid; LTermFailed e]
        | Ok _ =>
            ∃ n, (∀ i, (i < n)%nat → is_process_running pid (later w i) = true ∧
                        now (later w i) - now w < DAEMON_STOP_TIMEOUT_SECS * 1000) ∧
            let polled := later w n in
            if now polled - now w <? DAEMON_STOP_TIMEOUT_SECS * 1000 then
              b = true ∧ os s' = polled ∧ is_process_running pid polled = false ∧ pid_file s' = rest ∧
              out s' = out s ++ [LStopping pid; LStopped]
            else
              os s' = sleep 200 (kill_9 pid polled) ∧
              b = negb (is_process_running pid (os s')) ∧
              pid_file s' = (if b then rest else pid_file s) ∧
              out s' = out s ++ [LStopping pid; LTimedOut; if b then LKilled pid else LKillFailed pid]
        end
      else b = true ∧ pid_file s' = rest ∧ os s' = os s ∧ out s' = out s ++ [LStale pid]
  end.
Proof.
  intros Hexe Hg. unfold stop_service. rewrite read_pid_spec by done. cbn [mbind exec_bind].
  destruct (pid_of s) as [pid|]; [|by eexists _, _].
  destruct (is_process_running pid (os s)) eqn:Hrun; cbn [negb].
  2:{ eexists _, _. split; [done|]. rewrite pid_file_removed, os_remove_pid_file, out_remove_pid_file; done. }
  unfold send_terminate_signal. simpl. destruct (kill_term pid (os s)) as [w [[]|e]] eqn:Hk; simpl.
  2:{ eexists _, _. split; [done|]. simpl. by rewrite <- app_assoc. }
  destruct (wait_total pid DAEMON_STOP_TIMEOUT_SECS w) as (w' & b & Hw). rewrite Hw. simpl.
  pose proof (wait_loop_spec _ _ _ _ _ _ _ Hw) as Hgone.
  destruct (wait_loop_polls _ _ _ _ _ _ _ Hw) as (n & -> & Hseen & ->).
  destruct (now (later w n) - now w <? _) eqn:Hn.
  - eexists _, _. split; [done|]. exists n. split; [done|]. rewrite Hn.
    rewrite os_remove_pid_file, out_remove_pid_file, pid_file_removed by done. simpl. by rewrite <- app_assoc.
  - destruct (is_process_running pid (sleep 200 (kill_9 pid (later w n)))) eqn:Hr; simpl;
      eexists _, _; (split; [done|]); exists n; (split; [done|]); rewrite Hn;
      rewrite ?os_remove_pid_file, ?out_remove_pid_file, ?pid_file_removed by done; simpl;
      by rewrite Hr, <- !app_assoc.
Qed.

Lemma wait_loop_exits fuel pid start timeout w gone slack :
  (∀ n, gone ≤ now (later w n) → is_process_running pid (later w n) = false) →
  (∀ n, now (later w (S n)) ≤ now (later w n) + 200 + slack) →
  start ≤ now w → now w < start + timeout → gone + 200 + slack ≤ start + timeout →
  timeout ≤ now w - start + 200 * (N.of_nat fuel - 1) → fuel ≠ O →
  ∃ w', wait_loop fuel pid start timeout w = Some (w', true).
Proof.
  revert w. induction fuel as [|fuel IH]; intros w Hgone Hslack Hs Hw Hg Hf Hne; [done|]. simpl.
  assert (now w - start <? timeout = true) as -> by (apply N.ltb_lt; lia).
  destruct (is_process_running pid w) eqn:Hr; [|eauto].
  assert (now w < gone).
  { apply N.nle_gt. intros Hle. specialize (Hgone 0%nat Hle). cbn in Hgone. congruence. }
  pose proof (Hslack 0%nat) as Hsl. cbn in Hsl. pose proof (sleep_now 200 w) as Hsn.
  apply IH.
  - intros n. rewrite later_S. apply Hgone.
  - intros n. rewrite !later_S. apply Hslack.
  - lia.
  - lia.
  - done.
  - lia.
  - intros ->. lia.
Qed.

(** C30: a process that answers the termination signal by ending, and is gone
    for good at a time that leaves room for one poll before the ten seconds
    are over, is stopped gracefully: no kill is sent, the service is reported
    stopped, and its pid file is removed. *)
Theorem stop_graceful s (pid : Z) (gone slack : N) :
  exe_known s = true → removable s = true → pid_file s ≠ Garbled → pid_of s = Some pid →
  let w := (kill_term pid (os s)).1 in
  (kill_term pid (os s)).2 = Ok () →
  (∀ n, gone ≤ now (later w n) → is_process_running pid (later w n) = false) →
  (∀ n, now (later w (S n)) ≤ now (later w n) + 200 + slack) →
  gone + 200 + slack ≤ now w + DAEMON_STOP_TIMEOUT_SECS * 1000 →
  is_process_running pid (os s) = true →
  ∃ s', stop_service s = Ret (Some (s', true)) ∧ pid_file s' = Absent ∧
    is_process_running pid (os s') = false ∧
    out s' = out s ++ [LStopping pid; LStopped].
Proof.
  intros Hexe Hrm Hg Hpid w Hk Hgone Hslack Ht Hrun. unfold stop_service.
  rewrite read_pid_spec, Hpid by done. cbn [mbind exec_bind]. rewrite Hrun. simpl.
  unfold send_terminate_signal. simpl. destruct (kill_term pid (os s)) as [w' r] eqn:Hkt. simpl in w, Hk. subst w r.
  simpl. destruct (wait_loop_exits (wait_fuel DAEMON_STOP_TIMEOUT_SECS) pid (now w')
    (DAEMON_STOP_TIMEOUT_SECS * 1000) w' gone slack) as [w1 Hw1]; [done|done|unfold wait_fuel, DAEMON_STOP_TIMEOUT_SECS in *; lia..|].
  unfold wait_for_process_exit. rewrite Hw1. simpl. eexists. split; [done|].
  pose proof (wait_loop_spec _ _ _ _ _ _ _ Hw1) as Hb. simpl in Hb.
  rewrite os_remove_pid_file, pid_file_removed by done. unfold remove_pid_file. simpl. rewrite Hrm, Hexe. simpl.
  by rewrite <- app_assoc.
Qed.
End stop.

(** ** An operating system with one process *)

Module OsExample.
(** The clock; whether the process runs as another user; when it ends. *)
Record World := mkWorld { clock : N; foreign : bool; ends : option N; delay : N }.
#[global] Instance os : Os World := {|
  now := clock;
  kill0 _ w := match ends w with
    | Some t => if t <=? clock w then ESRCH else if foreign w then EPERM else KOk
    | None => if foreign w then EPERM else KOk
    end;
  sleep d w := mkWorld (clock w + d) (foreign w) (ends w) (delay w);
  kill_term _ w := (mkWorld (clock w) (foreign w) (Some (clock w + delay w)) (delay w), Ok ());
  kill_9 _ w := mkWorld (clock w) (foreign w) (Some (clock w)) (delay w)
|}.
#[global] Instance os_laws : OsLaws World.
Proof. split; intros; simpl; lia. Qed.

Definition state (w : World) (pid : string) : State :=
  mkState w true true true (Contents (str pid)) Absent (Config.mkWorld None ∅) [].
End OsExample.

(** A process that would take twenty seconds to answer SIGTERM: it is killed
    after the ten. *)
Lemma stop_service_spec_witness :
  let s := OsExample.state (OsExample.mkWorld 0 false None 20000) "42" in
  ∃ s' n, stop_service s = Ret (Some (s', true)) ∧ pid_file s' = Absent ∧
    os s' = sleep 200 (kill_9 42 (later (kill_term 42 (os s)).1 n)) ∧
    out s' = [LStopping 42; LTimedOut; LKilled 42].
Proof.
  intros s. destruct (stop_service_spec s) as (s' & b & Hs & H); [done|done|].
  assert (Hc : match stop_service s with
               | Ret (Some (s', b)) => (b, bool_decide (length (out s') = 3%nat)) | _ => (false, false) end
             = (true, true)) by by vm_compute.
  rewrite Hs in Hc. injection Hc as -> Hlen%bool_decide_eq_true.
  replace (pid_of s) with (Some 42%Z) in H by by vm_compute.
  replace (is_process_running 42 (os s)) with true in H by by vm_compute.
  change ((kill_term 42 (os s)).2) with (@Ok () text ()) in H. destruct H as (n & _ & H). cbv zeta in H.
  destruct (_ <? _).
  - destruct H as (_ & _ & _ & _ & Ho). rewrite Ho in Hlen. by vm_compute in Hlen.
  - destruct H as (Hos & _ & Hp & Ho). by exists s', n.
Defined.

Lemma stop_graceful_witness :
  ∃ s', stop_service (OsExample.state (OsExample.mkWorld 0 false None 9000) "42") = Ret (Some (s', true)) ∧
    out s' = [LStopping 42; LStopped].
Proof.
  assert (Hl : ∀ n w, OsExample.clock (later w n) = OsExample.clock w + 200 * N.of_nat n ∧
      OsExample.ends (later w n) = OsExample.ends w ∧ OsExample.foreign (later w n) = OsExample.foreign w).
  { intros n w. induction n as [|n (IH & ? & ?)]; [split_and!; [simpl; lia|done|done]|].
    change (later w (S n)) with (sleep 200 (later w n)). cbn -[later].
    rewrite IH. split_and!; [lia|done|done]. }
  destruct (stop_graceful (OsExample.state (OsExample.mkWorld 0 false None 9000) "42") 42 9000 0)
    as (s' & Hs & _ & _ & Ho); try done.
  - intros n. destruct (Hl n (OsExample.mkWorld 0 false (Some 9000) 9000)) as (Hc & He & Hf).
    change (9000 ≤ OsExample.clock (later (OsExample.mkWorld 0 false (Some 9000) 9000) n) →
      is_process_running 42 (later (OsExample.mkWorld 0 false (Some 9000) 9000) n) = false).
    unfold is_process_running. cbn -[later]. intros Hle. rewrite He. cbn -[later].
    apply N.leb_le in Hle. by rewrite Hle.
  - intros n. simpl. lia.
  - exists s'. split; [exact Hs|exact Ho].
Defined.

(** ** What modelling showed *)

(** A process of another user answers [kill(pid, 0)] with EPERM and counts
    as gone: [stop] reports success, removes the pid file and leaves it
    running. *)
Example foreign_process_stopped :
  match stop_service (OsExample.state (OsExample.mkWorld 0 true None 700) "42") with
  | Ret (Some (s', b)) => (b, pid_file s', out s', kill0 42 (os s'))
  | _ => (false, Garbled, [], ESRCH)
  end = (true, Absent, [LStale 42], EPERM).
Proof. by vm_compute. Qed.

(** A pid file without a number passes for none: the service that runs is
    reported stopped. *)
Example unreadable_pid_stopped :
  match stop_service (OsExample.state (OsExample.mkWorld 0 false None 700) "pid 42") with
  | Ret (Some (s', b)) => (b, out s')
  | _ => (false, [])
  end = (true, [LNotRunningNoPid]).
Proof. by vm_compute. Qed.

(** A foreground start rewrites the record of a running daemon, which
    [stop] and [restart] then refuse to touch. *)
Module RunExample.
Definition execute (s : State (W := OsExample.World)) : State * Outcome (D := ()) (T := ()) := (s, ParentOk 0).
Definition meta_to_string (m : DaemonMeta) : list N := (if daemon m then 1 else 0) :: config_path m.
Definition meta_from_str (t : list N) : option DaemonMeta :=
  match t with c :: p => Some (mkMeta p (c =? 1)) | [] => None end.
Definition run (c : Subcommand) (s : State) : exec (option (State * Flow)) :=
  run (λ _ _, Ok ()) execute meta_to_string meta_from_str (Ok ((), ())) (λ _ _ _, None)
    (λ _ _, None) (λ _ _, None) true (λ _, Some []) map_to_list c s.
(** A command of its own process: the configuration is not set yet. *)
Definition after (c : Subcommand) (s : State) : State :=
  match run c (set_conf_world (Config.mkWorld None ∅) s) with Ret (Some (s', _)) => s' | _ => s end.
End RunExample.
Example foreground_start_disables_stop :
  let s := OsExample.state (OsExample.mkWorld 0 false None 700) "42" in
  let s := RunExample.after (CStart (str "a.yml") true) s in
  let s := RunExample.after (CStart (str "b.yml") false) s in
  out (RunExample.after CStop s) = [LAlreadyRunning 42; LNotDaemonMode] ∧
  is_process_running 42 (os (RunExample.after CStop s)) = true.
Proof. by vm_compute. Qed.

(** ** The record of the last start *)

Section meta.
Context {W : Type} `{!Os W}.
Context (meta_to_string : DaemonMeta → list char) (meta_from_str : list char → option DaemonMeta).
Hypothesis meta_roundtrip : ∀ m, meta_from_str (meta_to_string m) = Some m.

Lemma save_load_meta (m : DaemonMeta) (s s' : State (W := W)) :
  save_meta meta_to_string m s = Ret s' → load_meta meta_from_str s' = Ret m.
Proof.
  unfold save_meta. destruct (exe_known s) eqn:He; [|done]. destruct (meta_writable s); [|done].
  intros [= <-]. unfold load_meta. simpl. by rewrite He, meta_roundtrip.
Qed.
End meta.

(** Whatever signal ends the wait, the global token is cancelled then. *)
Lemma wait_exit_signal_cancels order ready cancelled c e :
  wait_exit_signal order ready cancelled = (c, Some e) →
  c = true ∧ (e = Requested → cancelled = true) ∧ (e ≠ Requested → ready e = true).
Proof.
  unfold wait_exit_signal. destruct (List.find _ order) as [e'|] eqn:Hf; [|done].
  intros [= <- <-]. apply List.find_some in Hf as [_ Hf]. split; [done|]. by destruct e'.
Qed.
