(* ===== verification/RuntimeExit.v ===== *)
(** * Start and exit of a service (base/src/utils/rt.rs, base/src/daemon/signal.rs)

    The first runtime and the default ones, the wait for the exit signal, and
    the whole of [order_shutdown]: what it waits for, what it reports and what
    it logs.  tokio's builder is a parameter: it panics, fails, or gives a
    runtime; so is what dropping a runtime does where it is dropped. *)
From stdpp Require Import sorting.
From S2P Require Import Prelude Errors Daemon Runtime.

(** ** Creation of runtimes *)

Section create.
Context (build : string → option N → exec (result () string)).
Context (drop_runtime : exec ()).

Definition create_runtime (ty : RuntimeType) (threads : option N) : exec (GlobalResult ()) :=
  r ← build (as_thread_name ty) threads;
  Ret (match r with
       | Ok _ => Ok ()
       | Err reason => Err (SysErr ("create runtime failed: runtime_type=" +:+ as_thread_name ty +:+
                              ", reason=" +:+ reason))
       end).

(** The macro [create_default_runtime!]. *)
Definition create_default_runtime (ty : RuntimeType) (threads : option N) : exec () :=
  r ← build (as_thread_name ty) threads;
  match r with Ok _ => Ret () | Err _ => Panic end.

(** The registry is made when it is first used. *)
Definition global_runtimes : exec App :=
  r ← create_runtime Main None;
  match r with Ok _ => Ret registry_new | Err _ => Panic end.

(** A runtime that [register] refuses is dropped by it. *)
Definition register_runtime (ty : RuntimeType) (a : App) : exec (GlobalResult GlobalRuntime * App) :=
  match register a ty with
  | (Ok h, a) => Ret (Ok h, a)
  | (Err e, a) => _ ← drop_runtime; Ret (Err e, a)
  end.
Definition register_created (ty : RuntimeType) (threads : option N) (a : App) :
    exec (GlobalResult GlobalRuntime * App) :=
  r ← create_runtime ty threads;
  match r with
  | Ok _ => register_runtime ty a
  | Err e => Ret (Err e, a)
  end.
Definition register_default (ty : RuntimeType) (a : App) : exec (GlobalResult GlobalRuntime * App) :=
  register_created ty None a.
Definition register_threads_default (ty : RuntimeType) (threads : N) (a : App) :
    exec (GlobalResult GlobalRuntime * App) :=
  register_created ty (Some threads) a.
End create.

Definition get_runtime (ty : RuntimeType) (a : App) : option GlobalRuntime := get a ty.
Definition is_shutting_down (a : App) : bool := shutting_down a.
Definition has_failed (a : App) : bool := failed a.

(** ** The exit signal *)

(** The registry with its own token, and the global token of signal.rs. *)
Record Service := mkService { registry : App; SHUTDOWN : bool }.

Definition request_shutdown (s : Service) : Service :=
  mkService (registry s) (Daemon.request_shutdown (SHUTDOWN s)).
Definition request_shutdown_with_error (s : Service) : Service :=
  request_shutdown (mkService (fail (registry s)) (SHUTDOWN s)).

(** A poll: what the rest of the service did before it, which branches the
    two [select!]s try first, and which signals arrived. *)
Record Poll := mkPoll {
  p_env : Service → Service;
  p_signal_first : bool;
  p_order : list ExitSignal;
  p_ready : ExitSignal → bool
}.

Definition wait_for_exit_signal (p : Poll) (s : Service) : Service * option ExitSignal :=
  let signal s :=
    let '(g, e) := wait_exit_signal (p_order p) (p_ready p) (SHUTDOWN s) in (mkService (registry s) g, e) in
  let requested := shutdown_requested (registry s) in
  if p_signal_first p
  then match signal s with
       | (s, Some e) => (s, Some e)
       | (s, None) => (s, if requested then Some Requested else None)
       end
  else if requested then (s, Some Requested) else signal s.

Fixpoint block_on (polls : list Poll) (s : Service) : Service * option ExitSignal :=
  match polls with
  | [] => (s, None)
  | p :: polls =>
      match wait_for_exit_signal p (p_env p s) with
      | (s, Some e) => (s, Some e)
      | (s, None) => block_on polls s
      end
  end.

(** ** The log *)

Inductive Level := LevelInfo | LevelWarn | LevelError.
#[export] Instance Level_eq_dec : EqDecision Level.
Proof. solve_decision. Defined.

Definition as_millis (d : N) : N := d / 1000000.
Definition level_of (o : ShutdownOutcome) : Level :=
  match o with Graceful => LevelInfo | TimedOut => LevelWarn | Incomplete => LevelError end.
Definition outcome_text (o : ShutdownOutcome) : string :=
  match o with Graceful => "graceful" | TimedOut => "timeout" | Incomplete => "incomplete" end.

(** The fields of the lines, in the order of the texts. *)
Inductive LogLine :=
  | LogRequested (signal : string) (stage_count total_timeout_ms : N)
  | LogOmitted (runtime_type : string)
  | LogRuntime (level : Level) (runtime_type outcome : string)
      (elapsed_ms completed cancelled panicked remaining : N) (task_names : option (list string))
  | LogCompleted (level : Level) (outcome : string) (elapsed_ms : N).

Definition line_level (l : LogLine) : Level :=
  match l with
  | LogRequested _ _ _ => LevelInfo
  | LogOmitted _ => LevelWarn
  | LogRuntime l _ _ _ _ _ _ _ _ | LogCompleted l _ _ => l
  end.

(** The graceful line has its zeros in the text. *)
Definition log_runtime_report (r : RuntimeShutdownReport) : LogLine :=
  let runtime_type := as_thread_name (rp_runtime_type r) in
  match rp_outcome r with
  | Graceful => LogRuntime LevelInfo runtime_type "graceful" (as_millis (rp_elapsed r))
      (rp_completed r) (rp_cancelled r) 0 0 None
  | TimedOut => LogRuntime LevelWarn runtime_type "timeout" (as_millis (rp_elapsed r))
      (rp_completed r) (rp_cancelled r) (rp_panicked r) (N.of_nat (length (rp_remaining r)))
      (Some (rp_remaining r))
  | Incomplete => LogRuntime LevelError runtime_type "incomplete" (as_millis (rp_elapsed r))
      (rp_completed r) (rp_cancelled r) (rp_panicked r) (N.of_nat (length (rp_remaining r)))
      (Some (rp_remaining r))
  end.

(** The warnings of [RuntimeRegistry::shutdown], before its first stage. *)
Definition omitted (orders : list RuntimeType) (a : App) : list RuntimeType :=
  filter (λ ty, ty ∉ dedup_orders orders) (merge_sort name_le (runtime_types a)).

(** ** order_shutdown *)

Record ShutdownReport := mkShutdownReport {
  sd_signal : ExitSignal;
  sd_outcome : ShutdownOutcome;
  sd_elapsed : N;
  sd_runtimes : list RuntimeShutdownReport
}.
Definition is_graceful (r : ShutdownReport) : bool := bool_decide (sd_outcome r = Graceful).

Definition log_completed (r : ShutdownReport) : LogLine :=
  match sd_outcome r with
  | Graceful => LogCompleted LevelInfo "graceful" (as_millis (sd_elapsed r))
  | TimedOut => LogCompleted LevelWarn "timeout" (as_millis (sd_elapsed r))
  | Incomplete => LogCompleted LevelError "incomplete" (as_millis (sd_elapsed r))
  end.

(** The whole call; [None] is a call that still waits after these polls.
    [started] and [finished] are the two looks at the clock. *)
Definition order_shutdown (polls : list Poll) (run : RuntimeType → N → Stage) (stop : App → App)
    (started finished : N) (orders : list RuntimeType) (s : Service) :
    exec (option (ShutdownReport * list LogLine * Service)) :=
  _ ← get_main_runtime (registry s);
  match block_on polls s with
  | (_, None) => Ret None
  | (s, Some signal) =>
      let requested := LogRequested (as_str signal) (N.of_nat (length orders))
        (as_millis APPLICATION_SHUTDOWN_TIMEOUT) in
      let warnings := LogOmitted ∘ as_thread_name <$> omitted orders (registry s) in
      let '(outcome, reports, a) := stop_all run stop started orders (registry s) in
      let report := mkShutdownReport signal outcome (finished - started) reports in
      Ret (Some (report,
        requested :: warnings ++ (log_runtime_report <$> reports) ++ [log_completed report],
        mkService a (SHUTDOWN s)))
  end.

(** ** The wait for the exit signal *)

(** What the rest of the service does while the main thread waits. *)
Inductive service_step : Service → Service → Prop :=
  | ss_task a a' g : task_step a a' → service_step (mkService a g) (mkService a' g)
  | ss_register a ty g : service_step (mkService a g) (mkService (register a ty).2 g)
  | ss_request s : service_step s (request_shutdown s)
  | ss_error s : service_step s (request_shutdown_with_error s).

Record poll_ok (p : Poll) : Prop := {
  po_env : ∀ s, rtc service_step s (p_env p s);
  po_order : ∀ e, e ∈ p_order p
}.

Lemma task_step_requested a a' : task_step a a' → shutdown_requested a = true → shutdown_requested a' = true.
Proof.
  destruct 1 as [a h name _ _|a loc id e _|a]; [| |done].
  - unfold spawn. by destruct (accepting _).
  - by destruct e.
Qed.

Lemma register_frame a ty :
  (∀ ty', is_Some (runtimes a !! ty') → is_Some (runtimes (register a ty).2 !! ty')) ∧
  failed (register a ty).2 = failed a ∧ shutdown_requested (register a ty).2 = shutdown_requested a.
Proof.
  unfold register. destruct (shutting_down a); [done|]. destruct (runtimes a !! ty); [done|].
  simpl. split_and!; [|done..]. intros ty' Hty. rewrite lookup_insert_is_Some'. by right.
Qed.

Lemma service_steps_frame s s' : rtc service_step s s' →
  (app_ok (registry s) → app_ok (registry s')) ∧
  (is_Some (runtimes (registry s) !! Main) → is_Some (runtimes (registry s') !! Main)) ∧
  (failed (registry s) = true → failed (registry s') = true) ∧
  (SHUTDOWN s = true → SHUTDOWN s' = true) ∧
  (shutdown_requested (registry s) = true → shutdown_requested (registry s') = true).
Proof.
  induction 1 as [|s1 s2 s3 Hs _ (H1 & H2 & H3 & H4 & H5)]; [by split_and!|].
  destruct Hs as [a a' g Ht|a ty g|s|s]; simpl in *.
  - pose proof (task_step_ok a a') as Hok. pose proof (task_step_requested a a' Ht) as Hq.
    destruct (task_step_frame a a' Ht) as (Hr & _ & Hf). rewrite Hr in H2. split_and!; tauto.
  - pose proof (register_ok a ty) as Hok. destruct (register_frame a ty) as (Hr & Hf & Hq).
    rewrite Hf in H3. rewrite Hq in H5. specialize (Hr Main). split_and!; tauto.
  - split_and!; tauto.
  - split_and!; tauto.
Qed.

(** Nothing asks for an exit at this poll. *)
Definition quiet (p : Poll) : Prop := ∀ e, e ≠ Requested → p_ready p e = false.
Definition asked (s : Service) : Prop := SHUTDOWN s = true ∨ shutdown_requested (registry s) = true.

Lemma wait_poll_spec p s : poll_ok p →
  let '(s', e) := wait_for_exit_signal p s in
  (s' = s ∨ s' = request_shutdown s) ∧
  match e with
  | Some e => e ≠ Requested → SHUTDOWN s' = true
  | None => ¬ asked s ∧ quiet p
  end.
Proof.
  intros Hp. unfold wait_for_exit_signal, wait_exit_signal.
  destruct (List.find _ (p_order p)) as [e|] eqn:Hf.
  { destruct (p_signal_first p); [by split; [right|]|].
    destruct (shutdown_requested (registry s)); [by split; [left|]|]. by split; [right|]. }
  assert (Hno : SHUTDOWN s = false ∧ quiet p).
  { pose proof (List.find_none _ _ Hf) as Hn. split.
    - apply (Hn Requested), list_elem_of_In, Hp.
    - intros e He. specialize (Hn e (proj1 (list_elem_of_In _ _) (po_order p Hp e))). by destruct e. }
  destruct Hno as [Hg Hq]. destruct s as [a g]. simpl in *.
  destruct (p_signal_first p), (shutdown_requested a) eqn:Hr; simpl;
    (split; [by left|]); try done; (split; [|done]); unfold asked; simpl; intros [?|?]; congruence.
Qed.

(** The wait ends at the first poll at which something asks for it. *)
Lemma block_on_spec polls s : Forall poll_ok polls →
  let '(s', e) := block_on polls s in
  rtc service_step s s' ∧
  match e with
  | Some e => e ≠ Requested → SHUTDOWN s' = true
  | None => Forall (λ p, quiet p ∧ ¬ asked s) polls
  end.
Proof.
  intros Hp. revert s. induction Hp as [|p polls Hp Hps IH]; intros s; simpl; [by split|].
  pose proof (wait_poll_spec p (p_env p s) Hp) as Hw. pose proof (po_env p Hp s) as Henv.
  destruct (wait_for_exit_signal p (p_env p s)) as [s1 e]. destruct Hw as [Hs1 He].
  assert (H1 : rtc service_step s s1).
  { etrans; [exact Henv|]. destruct Hs1 as [->| ->]; [done|apply rtc_once, ss_request]. }
  destruct e as [e|]; [by split|]. destruct He as [Hna Hq]. specialize (IH s1).
  destruct (block_on polls s1) as [s2 e2]. destruct IH as [H2 He2].
  split; [by etrans|]. destruct e2 as [e2|]; [done|].
  assert (Hs : ¬ asked s).
  { intros Ha. apply Hna. destruct (service_steps_frame _ _ Henv) as (_ & _ & _ & Hg & Hr).
    destruct Ha; [left|right]; auto. }
  constructor; [done|]. eapply Forall_impl; [exact He2|]. by intros x [Hx _].
Qed.

(** ** What is reported and logged *)

(** The line of a report with all its counts. *)
Definition report_line (r : RuntimeShutdownReport) : LogLine :=
  LogRuntime (level_of (rp_outcome r)) (as_thread_name (rp_runtime_type r)) (outcome_text (rp_outcome r))
    (as_millis (rp_elapsed r)) (rp_completed r) (rp_cancelled r) (rp_panicked r)
    (N.of_nat (length (rp_remaining r)))
    (if decide (rp_outcome r = Graceful) then None else Some (rp_remaining r)).

Lemma log_runtime_report_spec r : report_ok r → log_runtime_report r = report_line r.
Proof.
  intros Hr. unfold log_runtime_report, report_line. destruct (rp_outcome r) eqn:Ho; [|done..].
  destruct (Hr Ho) as [-> ->]. done.
Qed.

(** A line that tells of no trouble. *)
Definition calm (l : LogLine) : Prop := line_level l = LevelInfo ∨ ∃ n, l = LogOmitted n.

Lemma calm_graceful rep requested warnings :
  Forall calm (requested :: warnings) →
  (sd_outcome rep = Graceful → Forall (λ r, rp_outcome r = Graceful) (sd_runtimes rep)) →
  is_graceful rep = true ↔
  Forall calm (requested :: warnings ++ (log_runtime_report <$> sd_runtimes rep) ++ [log_completed rep]).
Proof.
  intros Hc Hg. unfold is_graceful. rewrite bool_decide_eq_true. split.
  - intros Ho. rewrite app_comm_cons. apply Forall_app. split; [done|]. apply Forall_app. split.
    + apply Forall_fmap. eapply Forall_impl; [exact (Hg Ho)|]. intros r Hr. left. simpl.
      unfold log_runtime_report. by rewrite Hr.
    + apply Forall_singleton. left. unfold log_completed. by rewrite Ho.
  - rewrite app_comm_cons, !Forall_app, Forall_singleton. intros (_ & _ & Hl). unfold log_completed in Hl.
    destruct (sd_outcome rep); [done|..]; destruct Hl as [?|[? ?]]; done.
Qed.

(** C16: [order_shutdown] waits only while nothing asked for an exit.  Then its
    log has the true counts of every report, and tells of trouble exactly when
    the report it returns is not graceful; a service that failed before, by a
    panic or by [request_shutdown_with_error], is reported incomplete; a signal
    has cancelled the global token; and no runtime is left, the main one
    included. *)
Theorem exit_spec polls run stop started finished orders s :
  app_ok (registry s) → is_Some (runtimes (registry s) !! Main) → Forall poll_ok polls →
  (∀ ty t, stage_ok (run ty t)) → (∀ a, rtc task_step a (stop a)) →
  returns (order_shutdown polls run stop started finished orders s) (λ r,
    match r with
    | None => Forall (λ p, quiet p ∧ ¬ asked s) polls
    | Some (rep, lines, s') =>
        (∀ r, r ∈ sd_runtimes rep → report_line r ∈ lines) ∧
        (is_graceful rep = true ↔ Forall calm lines) ∧
        (failed (registry s) = true → sd_outcome rep = Incomplete) ∧
        (sd_signal rep ≠ Requested → SHUTDOWN s' = true) ∧
        runtimes (registry s') = ∅ ∧ get_main_runtime (registry s') = Panic
    end).
Proof.
  intros Ha Hm Hp Hrun Hstop. unfold order_shutdown, get_main_runtime at 1, get.
  destruct Hm as [lm Hm]. rewrite Hm. cbn [mbind option_bind exec_bind].
  pose proof (block_on_spec polls s Hp) as Hw. destruct (block_on polls s) as [s1 [e|]]; [|exact (proj2 Hw)].
  destruct Hw as [Hs1 He]. destruct (service_steps_frame _ _ Hs1) as (Ha1 & Hm1 & Hf1 & _).
  pose proof (stop_all_spec run stop started orders (registry s1) (Ha1 Ha) (Hm1 ltac:(by eexists)) Hrun Hstop) as H.
  destruct (stop_all _ _ _ _ _) as [[outcome rs] a]. destruct H as (Hr & _ & _ & Hok & Ho & Hf).
  cbn [returns]. split_and!; [| | |done|done|by unfold get_main_runtime, get; simpl; rewrite Hr].
  - simpl. intros r Hin. rewrite <- log_runtime_report_spec by by apply (proj1 (Forall_forall _ _) Hok).
    apply elem_of_cons. right. apply elem_of_app. right. apply elem_of_app. left. by apply list_elem_of_fmap_2.
  - apply (calm_graceful (mkShutdownReport e outcome (finished - started) rs)).
    + constructor; [by left|]. apply Forall_fmap, Forall_forall. intros ty _. right. by eexists.
    + simpl. intros Hg. rewrite Ho in Hg. apply overall_graceful in Hg as [_ Hg]. by apply Forall_forall.
  - simpl. intros Hfail. rewrite Ho, Hf by auto. done.
Qed.

(** ** Registration of new runtimes *)

Section create_spec.
Context (build : string → option N → exec (result () string)) (drop_runtime : exec ()).

(** A default runtime is registered unless the builder fails, the application
    shuts down, or its type is there already; then nothing changed.  It can
    be looked up, and accepts tasks. *)
Lemma register_created_spec ty threads a r :
  build (as_thread_name ty) threads = Ret r → drop_runtime = Ret () →
  returns (register_created build drop_runtime ty threads a) (λ '(res, a'),
    match res with
    | Ok h => r = Ok () ∧ runtimes a !! ty = None ∧ get_runtime ty a' = Some h ∧
        accepting (tasks_at a' h.2) = true ∧ ∀ ty', ty' ≠ ty → get_runtime ty' a' = get_runtime ty' a
    | Err _ => (is_ok r = false ∨ shutting_down a = true ∨ is_Some (runtimes a !! ty)) ∧ a' = a
    end).
Proof.
  intros Hb Hd. unfold register_created, create_runtime. rewrite Hb.
  destruct r as [[]|e]; simpl; [|by split; [left|]].
  unfold register_runtime, register. destruct (shutting_down a) eqn:Hs; [rewrite Hd; simpl; auto|].
  destruct (runtimes a !! ty) as [l|] eqn:Ht; [rewrite Hd; simpl; eauto|].
  simpl. unfold get_runtime, get, tasks_at, shared_at. simpl. rewrite !lookup_insert_eq.
  split_and!; [done..|]. intros ty' Hne. by rewrite lookup_insert_ne by done.
Qed.
End create_spec.

(** ** Examples *)

Module ExitExample.
Definition poll (ready : ExitSignal → bool) : Poll := mkPoll id true [CtrlC; Terminate; Requested] ready.
Definition idle : Poll := poll (λ _, false).
Definition sigterm : Poll := poll (λ e, bool_decide (e = Terminate)).
Definition service : Service := mkService RuntimeExample.app false.
(** A task of the database's runtime panics. *)
Definition panicked : Service :=
  mkService (end_task (spawn RuntimeExample.app (Database, 2%N) "job").2 2 0 Panicked) false.

Lemma poll_fine ready : poll_ok (poll ready).
Proof. split; [intros; apply rtc_refl|]. intros []; set_solver. Qed.

(** Two runtimes are left out of the order; the exit is graceful. *)
Lemma exit_runs :
  match order_shutdown [idle; sigterm] RuntimeExample.quiet id 0 15000000 [] service with
  | Ret (Some (rep, lines, _)) =>
      sd_signal rep = Terminate ∧ is_graceful rep = true ∧
      lines = [LogRequested "sigterm" 0 8000; LogOmitted "database"; LogOmitted "http-api";
        LogRuntime LevelInfo "database" "graceful" 0 0 0 0 0 None;
        LogRuntime LevelInfo "http-api" "graceful" 0 0 0 0 0 None;
        LogRuntime LevelInfo "main" "graceful" 0 0 0 0 0 None;
        LogCompleted LevelInfo "graceful" 15]
  | _ => False
  end.
Proof. by vm_compute. Qed.
End ExitExample.

Lemma exit_spec_witness :
  match order_shutdown [ExitExample.idle; ExitExample.sigterm] RuntimeExample.quiet id 0 15 []
    ExitExample.service with
  | Ret (Some (rep, lines, s')) =>
      (is_graceful rep = true ↔ Forall calm lines) ∧ get_main_runtime (registry s') = Panic
  | _ => False
  end.
Proof.
  assert (H := exit_spec [ExitExample.idle; ExitExample.sigterm] RuntimeExample.quiet id 0 15 []
    ExitExample.service RuntimeExample.app_fine ltac:(by eexists)
    (Forall_cons_2 _ _ _ (ExitExample.poll_fine _) (Forall_cons_2 _ _ _ (ExitExample.poll_fine _) (Forall_nil_2 _)))
    RuntimeExample.quiet_ok (λ a, rtc_refl _ a)).
  destruct (order_shutdown _ _ _ _ _ _ _) as [[[[rep lines] s']|]| |] eqn:Ho;
    [|by vm_compute in Ho|done|done].
  destruct H as (_ & Hg & _ & _ & _ & Hp). by split.
Defined.

(** ** What modelling showed *)

(** A shutdown that a panic asks for leaves the global token of signal.rs as
    it is: the wait takes the registry's own token, and whoever holds the
    global one is never told that the service ends. *)
Example panic_leaves_global_token :
  match order_shutdown [ExitExample.idle] RuntimeExample.quiet id 0 15 [] ExitExample.panicked with
  | Ret (Some (rep, _, s')) => (sd_signal rep, sd_outcome rep, SHUTDOWN s')
  | _ => (CtrlC, Graceful, true)
  end = (Requested, Incomplete, false).
Proof. by vm_compute. Qed.

(** The runtime is built before its type is looked up, and dropped when the
    type is taken.  Where tokio forbids to drop a runtime, inside a task, the
    call panics, though it returns a [Result]. *)
Example register_taken_in_task :
  register_default (λ _ _, Ret (Ok ())) Panic Database RuntimeExample.app = Panic.
Proof. done. Qed.
