(* ===== verification/Db.v ===== *)
(** * Database support (base_db/src)

    Migrations of a database, backups and restores of SQLite files, and the
    pool configuration.  The SQL engine, sqlx's pools and the file system are
    interfaces with the laws their documentation gives: a transaction that is
    not committed leaves SQLite's database as it was (class [EngineLaws]). *)
From Stdlib Require Import Ascii.
From S2P Require Import Prelude.

(** ** Errors and pool configuration *)

Section errors.
Context {SqlxError IoError : Type}.

Inductive DatabaseError :=
  | InvalidPoolConfig (msg : string)
  | Sqlx (e : SqlxError)
  | SqliteIo (e : IoError)
  | Integrity (msg : string)
  | MigrationConflict (version : Z) (expected actual : string).
End errors.
Arguments DatabaseError : clear implicits.

(** Durations in nanoseconds. *)
Record DatabasePoolConfig := mkPoolConfig {
  max_size : N;
  min_idle : option N;
  connection_timeout : N;
  max_lifetime : option N;
  idle_timeout : option N;
  test_on_check_out : bool
}.
Definition from_secs (s : N) : N := s * 1000000000.
Definition pool_config_default : DatabasePoolConfig :=
  mkPoolConfig 16 (Some 1%N) (from_secs 8) (Some (from_secs 1800)) (Some (from_secs 60)) false.

Definition validate {X Y : Type} (c : DatabasePoolConfig) : result () (DatabaseError X Y) :=
  if (max_size c =? 0)%N then Err (InvalidPoolConfig "max_size must be greater than zero")
  else if (match min_idle c with Some m => (max_size c <? m)%N | None => false end)
    then Err (InvalidPoolConfig "min_idle must not exceed max_size")
  else if (connection_timeout c =? 0)%N
    then Err (InvalidPoolConfig "connection_timeout must be greater than zero")
  else Ok ().

(** What a pool is built with; the connection options are the engine's. *)
Record PoolOptions (C : Type) := mkPoolOptions {
  max_connections : N;
  min_connections : N;
  acquire_timeout : N;
  po_max_lifetime : option N;
  po_idle_timeout : option N;
  test_before_acquire : bool;
  connect_lazy_with : C
}.
Arguments mkPoolOptions {C}.
Arguments connect_lazy_with {C}.

Definition build_pool {C X Y : Type} (connection : C) (pool : DatabasePoolConfig) :
    result (PoolOptions C) (DatabaseError X Y) :=
  let? _ := validate pool in
  Ok (mkPoolOptions (max_size pool) (default 0%N (min_idle pool)) (connection_timeout pool)
    (max_lifetime pool) (idle_timeout pool) (test_on_check_out pool) connection).
Definition build_mysql_pool {C X Y : Type} : C → DatabasePoolConfig → result (PoolOptions C) (DatabaseError X Y) :=
  build_pool.

Inductive SqliteJournalMode := JDelete | JWal.
Inductive SqliteSynchronous := SNormal | SFull.
Record SqliteConnectionConfig := mkSqliteConfig {
  sq_path : string;
  read_only : bool;
  create_if_missing : bool;
  foreign_keys : bool;
  journal_mode : SqliteJournalMode;
  synchronous : SqliteSynchronous;
  busy_timeout : N
}.
Definition sqlite_config_new (path : string) : SqliteConnectionConfig :=
  mkSqliteConfig path false true true JWal SNormal (from_secs 5).
(** The options sqlx is given: a read-only connection creates no file. *)
Definition connect_options (c : SqliteConnectionConfig) : SqliteConnectionConfig :=
  mkSqliteConfig (sq_path c) (read_only c) (create_if_missing c && negb (read_only c)) (foreign_keys c)
    (journal_mode c) (synchronous c) (busy_timeout c).
Definition build_sqlite_pool {X Y : Type} (c : SqliteConnectionConfig) (pool : DatabasePoolConfig) :
    result (PoolOptions SqliteConnectionConfig) (DatabaseError X Y) :=
  build_pool (connect_options c) pool.

(** ** Migrations *)

Record Migration := mkMigration { version : Z; name : string; sql : string }.

(** [now_ms]; [None] is a clock before the epoch, otherwise nanoseconds. *)
Definition i64_max : Z := 9223372036854775807.
Definition now_ms (since_epoch : option N) : Z :=
  let milliseconds := (default 0 since_epoch / 1000000)%N in
  if (Z.of_N milliseconds <=? i64_max)%Z then Z.of_N milliseconds else i64_max.

Definition ensure_migration_matches {X Y : Type} (m : Migration) (existing : string) :
    result () (DatabaseError X Y) :=
  if decide (existing = name m) then Ok ()
  else Err (MigrationConflict (version m) existing (name m)).

(** The engine: every statement may fail; [rollback] is what dropping an open
    transaction does.  A statement also yields the new state of the engine. *)
Class Engine (D X : Type) := {
  create_table : D → D * result () X;
  begin_tx : D → D * result () X;
  select_name : Z → D → D * result (option string) X;
  raw_sql : string → D → D * result () X;
  insert_row : Z → string → Z → D → D * result () X;
  commit : D → D * result () X;
  rollback : D → D;
  select_1 : D → D * result () X;
  clock : D → option N
}.

Section migrations.
Context {D X Y : Type} `{!Engine D X}.
Notation DatabaseError := (DatabaseError X Y).

(** The body of the loop; leaving it with an error drops the transaction. *)
Definition migrate_one (m : Migration) (d : D) : D * result () DatabaseError :=
  let '(d, r) := begin_tx d in
  match r with Err e => (d, Err (Sqlx e)) | Ok _ =>
  let '(d, r) := select_name (version m) d in
  match r with
  | Err e => (rollback d, Err (Sqlx e))
  | Ok (Some existing) =>
      match ensure_migration_matches m existing with
      | Err e => (rollback d, Err e)
      | Ok _ =>
          let '(d, r) := commit d in
          match r with Err e => (rollback d, Err (Sqlx e)) | Ok _ => (d, Ok ()) end
      end
  | Ok None =>
      let '(d, r) := raw_sql (sql m) d in
      match r with Err e => (rollback d, Err (Sqlx e)) | Ok _ =>
      let '(d, r) := insert_row (version m) (name m) (now_ms (clock d)) d in
      match r with Err e => (rollback d, Err (Sqlx e)) | Ok _ =>
      let '(d, r) := commit d in
      match r with Err e => (rollback d, Err (Sqlx e)) | Ok _ => (d, Ok ()) end
      end end
  end end.

Fixpoint migrate_all (ms : list Migration) (d : D) : D * result () DatabaseError :=
  match ms with
  | [] => (d, Ok ())
  | m :: ms =>
      match migrate_one m d with
      | (d, Ok _) => migrate_all ms d
      | (d, Err e) => (d, Err e)
      end
  end.

Definition run_sqlite_migrations (ms : list Migration) (d : D) : D * result () DatabaseError :=
  let '(d, r) := create_table d in
  match r with
  | Err e => (d, Err (Sqlx e))
  | Ok _ => migrate_all ms d
  end.
(** The same statements but for the types of the table's columns. *)
Definition run_mysql_migrations : list Migration → D → D * result () DatabaseError := run_sqlite_migrations.

Definition check_sqlite (d : D) : D * result () DatabaseError :=
  let '(d, r) := select_1 d in
  (d, match r with Err e => Err (Sqlx e) | Ok _ => Ok () end).
Definition check_mysql : D → D * result () DatabaseError := check_sqlite.
End migrations.

(** ** Backups, over a file system *)

Section backup.
Context {F X IoError : Type}.
Notation FS := (gmap string F).
Notation DatabaseError := (DatabaseError X IoError).

(** Opening a pool on a file and its integrity check; [VACUUM INTO]; the
    directory and copy calls; the text of a path. *)
Context (integrity_check : F → result string X).
Context (vacuum_into : string → FS → FS * result () X).
Context (create_dir_all : string → FS → result () IoError).
Context (copy : string → string → FS → FS * result () IoError).
Context (parent : string → option string) (to_string_lossy : string → string).
(** The file a path names: two paths may name one file. *)
Context (resolve : string → string).
Context (already_exists not_found : string → IoError).

(** [eq_ignore_ascii_case("ok")]. *)
Definition is_ok_text (s : string) : bool :=
  match s with
  | String a (String b EmptyString) =>
      (Ascii.eqb a "o"%char || Ascii.eqb a "O"%char) && (Ascii.eqb b "k"%char || Ascii.eqb b "K"%char)
  | _ => false
  end.

Definition check_sqlite_integrity (f : F) : result () DatabaseError :=
  match integrity_check f with
  | Err e => Err (Sqlx e)
  | Ok r => if is_ok_text r then Ok () else Err (Integrity r)
  end.

Definition ensure_parent_directory (path : string) (fs : FS) : result () DatabaseError :=
  match parent path with
  | Some p =>
      if decide (p = "") then Ok ()
      else match create_dir_all p fs with Err e => Err (SqliteIo e) | Ok _ => Ok () end
  | None => Ok ()
  end.

(** The pool is lazy: it opens its file at the first statement. *)
Definition open_read_only_pool (path : string) (fs : FS) : result (PoolOptions SqliteConnectionConfig * F) DatabaseError :=
  match fs !! resolve path with
  | None => Err (SqliteIo (not_found path))
  | Some f =>
      let c := sqlite_config_new path in
      let? p := build_sqlite_pool
        (mkSqliteConfig (sq_path c) true false (foreign_keys c) JDelete (synchronous c) (busy_timeout c))
        (mkPoolConfig 1 (Some 0%N) (connection_timeout pool_config_default) (max_lifetime pool_config_default)
          (idle_timeout pool_config_default) (test_on_check_out pool_config_default)) in
      Ok (p, f)
  end.

Definition backup_sqlite (destination : string) (fs : FS) : FS * result () DatabaseError :=
  match ensure_parent_directory destination fs with
  | Err e => (fs, Err e)
  | Ok _ =>
      match fs !! resolve destination with
      | Some _ => (fs, Err (SqliteIo (already_exists destination)))
      | None =>
          let destination := to_string_lossy destination in
          let '(fs, r) := vacuum_into destination fs in
          match r with
          | Err e => (fs, Err (Sqlx e))
          | Ok _ =>
              (fs, let? p := open_read_only_pool destination fs in check_sqlite_integrity p.2)
          end
      end
  end.

Definition restore_sqlite (source_path destination : string) (fs : FS) : FS * result () DatabaseError :=
  match (let? p := open_read_only_pool source_path fs in check_sqlite_integrity p.2) with
  | Err e => (fs, Err e)
  | Ok _ =>
      match ensure_parent_directory destination fs with
      | Err e => (fs, Err e)
      | Ok _ =>
          let '(fs, r) := copy source_path destination fs in
          match r with
          | Err e => (fs, Err (SqliteIo e))
          | Ok _ => (fs, let? p := open_read_only_pool destination fs in check_sqlite_integrity p.2)
          end
      end
  end.
End backup.

(** ** What migrations do, on the recorded names and the data *)

Section reference.
Context {U : Type} (apply : string → U → option U).
Notation V := (gmap Z string * U)%type.

Definition step (m : Migration) (v : V) : option V :=
  match v.1 !! version m with
  | Some n => if decide (n = name m) then Some v else None
  | None => u ← apply (sql m) v.2; Some (<[version m := name m]> v.1, u)
  end.
Fixpoint steps (ms : list Migration) (v : V) : option V :=
  match ms with
  | [] => Some v
  | m :: ms => v ← step m v; steps ms v
  end.

Lemma steps_app ms ms' v : steps (ms ++ ms') v = w ← steps ms v; steps ms' w.
Proof. revert v. induction ms as [|m ms IH]; intros v; [done|]. simpl. destruct (step m v); [apply IH|done]. Qed.

Definition recorded (m : Migration) (v : V) : Prop := v.1 !! version m = Some (name m).

Lemma step_recorded m v v' : step m v = Some v' →
  recorded m v' ∧ ∀ m', recorded m' v → recorded m' v'.
Proof.
  unfold step, recorded. destruct (v.1 !! version m) as [n|] eqn:Hv.
  - case_decide as Hn; [|done]. intros [= <-]. by subst n.
  - destruct (apply (sql m) v.2) as [u|]; [|done]. intros [= <-]. simpl.
    split; [by rewrite lookup_insert_eq|]. intros m' Hm'. rewrite lookup_insert_ne; [done|congruence].
Qed.

Lemma steps_recorded ms v v' : steps ms v = Some v' →
  (∀ m, m ∈ ms → recorded m v') ∧ ∀ m, recorded m v → recorded m v'.
Proof.
  revert v. induction ms as [|m ms IH]; intros v; simpl.
  { intros [= <-]. split; [by intros m []%elem_of_nil|done]. }
  destruct (step m v) as [w|] eqn:Hs; [|done]. simpl. intros H.
  destruct (step_recorded _ _ _ Hs) as [Hm Hkeep]. destruct (IH _ H) as [Hall Hkeep'].
  split; [|by eauto]. intros m' [->|?]%elem_of_cons; eauto.
Qed.

(** Recorded migrations are skipped. *)
Lemma steps_skip ms v : (∀ m, m ∈ ms → recorded m v) → steps ms v = Some v.
Proof.
  induction ms as [|m ms IH]; intros H; [done|]. simpl.
  assert (step m v = Some v) as ->.
  { unfold step. rewrite (H m ltac:(left)). by rewrite decide_True. }
  apply IH. intros m' ?. apply H. by right.
Qed.

Lemma steps_resume k ms v w : steps (take k ms) v = Some w → steps ms w = steps ms v.
Proof.
  intros H. rewrite <- (take_drop k ms), !steps_app, H.
  rewrite steps_skip; [done|]. by apply (steps_recorded _ v).
Qed.
End reference.

(** ** Migrations on SQLite *)

(** What is stored, and what the open transaction sees.  A transaction works
    on what is stored and changes that only by its commit; scripts leave the
    table of migrations alone. *)
Class EngineLaws (D X U : Type) `{!Engine D X} (apply : string → U → option U)
    (stored working : D → gmap Z string * U) := {
  create_stored d : stored (create_table d).1 = stored d;
  begin_stored d : stored (begin_tx d).1 = stored d;
  begin_working d d' : begin_tx d = (d', Ok ()) → working d' = stored d;
  select_stored v d : stored (select_name v d).1 = stored d;
  select_working v d d' r : select_name v d = (d', Ok r) → working d' = working d ∧ r = (working d).1 !! v;
  raw_stored s d : stored (raw_sql s d).1 = stored d;
  raw_working s d d' : raw_sql s d = (d', Ok ()) →
    (working d').1 = (working d).1 ∧ apply s (working d).2 = Some (working d').2;
  insert_stored v n t d : stored (insert_row v n t d).1 = stored d;
  insert_working v n t d d' : insert_row v n t d = (d', Ok ()) →
    working d' = (<[v := n]> (working d).1, (working d).2);
  commit_stored d d' r : commit d = (d', r) → stored d' = if is_ok r then working d else stored d;
  rollback_stored d : stored (rollback d) = stored d
}.

Section sqlite.
Context {D X Y U : Type} `{!Engine D X} (apply : string → U → option U).
Context (stored working : D → gmap Z string * U) `{!EngineLaws D X U apply stored working}.
Notation step := (step apply).
Notation steps := (steps apply).
Notation run := (run_sqlite_migrations (D := D) (X := X) (Y := Y)).

(** Why a migration was refused. *)
Definition conflict (e : DatabaseError X Y) (m : Migration) (v : gmap Z string * U) : Prop :=
  match e with
  | MigrationConflict n expected actual =>
      n = version m ∧ actual = name m ∧ v.1 !! n = Some expected ∧ expected ≠ actual
  | Sqlx _ => True
  | _ => False
  end.

(** A statement failed: the transaction, if any, is dropped. *)
Ltac failed := intros [= <- <-]; split; [rewrite ?rollback_stored; congruence|exact I].

Lemma migrate_one_spec m d d' r : migrate_one (Y := Y) m d = (d', r) →
  match r with
  | Ok _ => step m (stored d) = Some (stored d')
  | Err e => stored d' = stored d ∧ conflict e m (stored d)
  end.
Proof.
  unfold migrate_one. pose proof (begin_stored d) as Hb.
  destruct (begin_tx d) as [d1 [[]|e]] eqn:Hbeg; simpl in Hb; [|by failed].
  pose proof (begin_working _ _ Hbeg) as Hbw. pose proof (select_stored (version m) d1) as Hs.
  destruct (select_name (version m) d1) as [d2 [o|e]] eqn:Hsel; simpl in Hs;
    [|by failed].
  destruct (select_working _ _ _ _ Hsel) as [Hsw Ho]. rewrite Hbw in Hsw, Ho. subst o.
  unfold Db.step. destruct ((stored d).1 !! version m) as [n|] eqn:Hn.
  - unfold ensure_migration_matches. case_decide as Hd.
    + destruct (commit d2) as [d3 [[]|e]] eqn:Hc; pose proof (commit_stored _ _ _ Hc) as Hcs; simpl in Hcs;
        [intros [= <- <-]|by failed].
      by rewrite Hcs, Hsw.
    + intros [= <- <-]. rewrite rollback_stored, Hs. split; [done|]. simpl. by rewrite Hn.
  - pose proof (raw_stored (sql m) d2) as Hr.
    destruct (raw_sql (sql m) d2) as [d3 [[]|e]] eqn:Hraw; simpl in Hr;
      [|by failed].
    destruct (raw_working _ _ _ Hraw) as [Hrw1 Hrw2]. rewrite Hsw in Hrw1, Hrw2.
    pose proof (insert_stored (version m) (name m) (now_ms (clock d3)) d3) as Hi.
    destruct (insert_row _ _ _ d3) as [d4 [[]|e]] eqn:Hins; simpl in Hi;
      [|by failed].
    pose proof (insert_working _ _ _ _ _ Hins) as Hiw.
    destruct (commit d4) as [d5 [[]|e]] eqn:Hc; pose proof (commit_stored _ _ _ Hc) as Hcs; simpl in Hcs;
      [intros [= <- <-]|by failed].
    by rewrite Hcs, Hiw, Hrw1, Hrw2.
Qed.

Lemma migrate_all_spec ms d d' r : migrate_all (Y := Y) ms d = (d', r) →
  ∃ k, steps (take k ms) (stored d) = Some (stored d') ∧
  match r with
  | Ok _ => k = length ms
  | Err e => ∃ m, ms !! k = Some m ∧ conflict e m (stored d')
  end.
Proof.
  revert d. induction ms as [|m ms IH]; intros d; simpl.
  { intros [= <- <-]. by exists 0. }
  destruct (migrate_one m d) as [d1 [[]|e]] eqn:Hm; pose proof (migrate_one_spec _ _ _ _ Hm) as H1.
  - intros H. destruct (IH _ H) as (k & Hk & Hr). exists (S k). simpl. rewrite H1. split; [done|].
    destruct r as [|e]; [by subst k|done].
  - intros [= <- <-]. destruct H1 as [H1 Hc]. exists 0. simpl. split; [by rewrite H1|].
    exists m. by rewrite H1.
Qed.

Lemma run_prefix ms d d' r : run ms d = (d', r) →
  ∃ k, steps (take k ms) (stored d) = Some (stored d') ∧
  match r with
  | Ok _ => k = length ms
  | Err e => k = 0 ∧ (∃ x, e = Sqlx x) ∨ ∃ m, ms !! k = Some m ∧ conflict e m (stored d')
  end.
Proof.
  unfold run_sqlite_migrations. pose proof (create_stored d) as Hc.
  destruct (create_table d) as [d1 [[]|e]]; simpl in Hc.
  - intros (k & Hk & Hr)%migrate_all_spec. exists k. rewrite <- Hc. split; [done|].
    destruct r; [done|by right].
  - intros [= <- <-]. exists 0. simpl. split; [by rewrite Hc|]. left. eauto.
Qed.

(** C28: a run of the migrations stores the effect of an initial part of the
    list, all of it on success; on an error the rest, the failing migration
    included, left nothing behind, and a conflict tells the name recorded
    under that migration's version. *)
Theorem migrations_prefix (ms : list Migration) (d d' : D) (r : result () (DatabaseError X Y)) :
  run ms d = (d', r) →
  ∃ k, steps (take k ms) (stored d) = Some (stored d') ∧
  match r with
  | Ok _ => k = length ms
  | Err e => k = 0 ∧ (∃ x, e = Sqlx x) ∨ ∃ m, ms !! k = Some m ∧ conflict e m (stored d')
  end.
Proof. apply run_prefix. Qed.

(** C20: however often the migrations failed half way before, a run that
    succeeds leaves what one undisturbed run would have: every script takes
    effect exactly once. *)
Theorem migrations_resume (ms : list Migration) (d d1 d2 : D) :
  rtc (λ d d', ∃ e, run ms d = (d', Err e)) d d1 → run ms d1 = (d2, Ok ()) →
  steps ms (stored d) = Some (stored d2).
Proof.
  intros Hrtc Hok.
  induction Hrtc as [d|d d' d1 [e He] _ IH].
  - destruct (run_prefix _ _ _ _ Hok) as (k & Hk & ->). by rewrite firstn_all in Hk.
  - destruct (run_prefix _ _ _ _ He) as (k & Hk & _). rewrite <- (steps_resume _ k ms _ _ Hk). by apply IH.
Qed.
End sqlite.

(** ** An engine with scripted failures *)

Module EngineExample.
(** What is stored, what the transaction sees, and which of the coming
    statements fail. *)
Record D := mkD { stored : gmap Z string * list string; working : gmap Z string * list string; faults : list bool }.
Definition stmt {A : Type} (d : D) (ok : D → D * A) : D * result A string :=
  match faults d with
  | true :: fs => (mkD (stored d) (working d) fs, Err "disk I/O error"%string)
  | fs => let '(d, a) := ok (mkD (stored d) (working d) (tail fs)) in (d, Ok a)
  end.
#[global] Instance engine : Engine D string := {|
  create_table d := stmt d (λ d, (d, ()));
  begin_tx d := stmt d (λ d, (mkD (stored d) (stored d) (faults d), ()));
  select_name v d := stmt d (λ d, (d, (working d).1 !! v));
  raw_sql s d := stmt d (λ d, (mkD (stored d) ((working d).1, (working d).2 ++ [s]) (faults d), ()));
  insert_row v n _ d := stmt d (λ d, (mkD (stored d) (<[v := n]> (working d).1, (working d).2) (faults d), ()));
  commit d := stmt d (λ d, (mkD (working d) (working d) (faults d), ()));
  rollback d := mkD (stored d) (stored d) (faults d);
  select_1 d := stmt d (λ d, (d, ()));
  clock d := None
|}.
#[global] Instance engine_laws :
  EngineLaws D string (list string) (λ s u, Some (u ++ [s])) stored working.
Proof.
  split; intros; repeat match goal with d : D |- _ => destruct d as [[] [] [|[] ?]] end;
    cbv [create_table begin_tx select_name raw_sql insert_row commit rollback engine stmt] in *;
    by simplify_eq/=.
Qed.

Definition ms : list Migration := [mkMigration 1 "a" "A"; mkMigration 2 "b" "B"].
Definition fresh (fs : list bool) : D := mkD (∅, []) (∅, []) fs.
(** The second script fails in the first run. *)
Definition d1 : D := (run_sqlite_migrations (Y := ()) ms (fresh [false; false; false; false; false; false; false; false; true])).1.
End EngineExample.

Lemma migrations_prefix_witness :
  EngineExample.stored EngineExample.d1 = ({[1%Z := "a"]}, ["A"]) ∧
  ∃ k, steps (λ s u, Some (u ++ [s])) (take k EngineExample.ms) (∅, []) = Some (EngineExample.stored EngineExample.d1).
Proof.
  split; [by vm_compute|].
  destruct (migrations_prefix (Y := ()) (λ s u, Some (u ++ [s])) EngineExample.stored EngineExample.working
    EngineExample.ms (EngineExample.fresh [false; false; false; false; false; false; false; false; true])
    EngineExample.d1 (Err (Sqlx "disk I/O error"))) as (k & Hk & _); [by vm_compute|].
  exists k. exact Hk.
Defined.

Lemma migrations_resume_witness :
  ∃ d2, run_sqlite_migrations (Y := ()) EngineExample.ms EngineExample.d1 = (d2, Ok ()) ∧
    steps (λ s u, Some (u ++ [s])) EngineExample.ms (∅, []) = Some (EngineExample.stored d2) ∧
    (EngineExample.stored d2).2 = ["A"; "B"].
Proof.
  eexists. split; [by vm_compute|]. split; [|by vm_compute].
  apply (migrations_resume (X := string) (Y := ()) (λ s u, Some (u ++ [s])) EngineExample.stored EngineExample.working
    EngineExample.ms (EngineExample.fresh [false; false; false; false; false; false; false; false; true])
    EngineExample.d1); [|by vm_compute].
  apply rtc_once. exists (Sqlx "disk I/O error"). by vm_compute.
Defined.

(** ** Backups *)

Section backup_proofs.
Context {F X IoError : Type}.
Notation FS := (gmap string F).
Notation DatabaseError := (DatabaseError X IoError).
Context (integrity_check : F → result string X).
Context (vacuum_into : string → FS → FS * result () X).
Context (create_dir_all : string → FS → result () IoError).
Context (copy : string → string → FS → FS * result () IoError).
Context (parent : string → option string) (to_string_lossy resolve : string → string).
Context (already_exists not_found : string → IoError).
Notation backup := (backup_sqlite integrity_check vacuum_into create_dir_all parent to_string_lossy
  resolve already_exists not_found).
Notation restore := (restore_sqlite integrity_check create_dir_all copy parent resolve not_found).
Notation check := (check_sqlite_integrity (IoError := IoError) integrity_check).

(** Both write their target only; a copy to another file that succeeds is a
    copy.  Of a copy onto the file itself the library promises nothing. *)
Hypothesis vacuum_other : ∀ p q fs, resolve p ≠ q → (vacuum_into p fs).1 !! q = fs !! q.
Hypothesis copy_other : ∀ p p' q fs, resolve p' ≠ q → (copy p p' fs).1 !! q = fs !! q.
Hypothesis copy_Ok : ∀ p p' fs fs', resolve p ≠ resolve p' → copy p p' fs = (fs', Ok ()) →
  fs' !! resolve p' = fs !! resolve p.

Lemma open_check p fs :
  (let? q := open_read_only_pool (X := X) resolve not_found p fs in check q.2) =
  match fs !! resolve p with Some f => check f | None => Err (SqliteIo (not_found p)) end.
Proof. unfold open_read_only_pool. by destruct (fs !! resolve p). Qed.

(** C29: a backup to a path that is text changes no file that exists, refuses
    a destination that does, and reports success only for a file that passes
    the integrity check.  A restore reports success only when the source had
    passed the check and the destination passes it afterwards, and, unless
    the two paths name one file, the destination then holds the source's
    bytes; it changes no other file, and none at all while the source does
    not pass. *)
Theorem backup_restore_spec (fs : FS) (src dst : string) :
  to_string_lossy dst = dst →
  (let '(fs', r) := backup dst fs in
   (∀ p f, fs !! p = Some f → fs' !! p = Some f) ∧
   (is_Some (fs !! resolve dst) → r ≠ Ok ()) ∧
   (r = Ok () → ∃ f, fs' !! resolve dst = Some f ∧ check f = Ok ())) ∧
  (let '(fs', r) := restore src dst fs in
   (∀ p, p ≠ resolve dst → fs' !! p = fs !! p) ∧
   (r = Ok () → ∃ f f', fs !! resolve src = Some f ∧ check f = Ok () ∧
      fs' !! resolve dst = Some f' ∧ check f' = Ok () ∧ (resolve src ≠ resolve dst → f' = f)) ∧
   ((∀ f, fs !! resolve src = Some f → check f ≠ Ok ()) → fs' = fs)).
Proof.
  intros Hl. split.
  - unfold backup_sqlite. destruct (ensure_parent_directory _ _ dst fs) as [[]|e]; [|done].
    destruct (fs !! resolve dst) as [f|] eqn:Hd; [done|]. rewrite Hl.
    pose proof (λ q, vacuum_other dst q fs) as Hother.
    destruct (vacuum_into dst fs) as [fs' [[]|e]] eqn:Hv; simpl in Hother; rewrite ?open_check.
    all: assert (Hkeep : ∀ p f, fs !! p = Some f → fs' !! p = Some f)
      by (intros p f Hp; rewrite Hother; [done|congruence]).
    + split_and!; [done|by intros []|]. destruct (fs' !! resolve dst); [eauto|done].
    + by split_and!; [|intros []|].
  - unfold restore_sqlite. rewrite open_check.
    destruct (fs !! resolve src) as [f|] eqn:Hs; [|done].
    destruct (check f) as [[]|e] eqn:Hc; [|by split_and!; try done; intros ?; naive_solver].
    assert (Hno : ∀ P : Prop, (∀ g, Some f = Some g → check g ≠ Ok ()) → P).
    { intros P H. by destruct (H f eq_refl). }
    destruct (ensure_parent_directory _ _ dst fs) as [[]|e]; [|split_and!; try done; by apply Hno].
    pose proof (λ q, copy_other src dst q fs) as Hother.
    destruct (copy src dst fs) as [fs' [[]|e]] eqn:Hcp; simpl in Hother; rewrite ?open_check.
    all: split_and!; [intros p Hp; by apply Hother| |by apply Hno]; try done.
    destruct (fs' !! resolve dst) as [f'|] eqn:Hd; [|done]. intros Hc'.
    exists f, f'. split_and!; [done..|]. intros Hne.
    pose proof (copy_Ok _ _ _ _ Hne Hcp). congruence.
Qed.
End backup_proofs.

(** Files as whether they pass the check, and the texts they hold; a path that
    starts with [./] names the file of the rest. *)
Module BackupExample.
Definition F : Type := bool * string.
Definition check (f : F) : result string string := Ok (if f.1 then "ok" else "row missing from index").
Definition live : F := (true, "rows").
Definition resolve (p : string) : string :=
  match p with String "." (String "/" q) => q | _ => p end.
Definition vacuum (p : string) (fs : gmap string F) : gmap string F * result () string :=
  (<[resolve p := live]> fs, Ok ()).
(** The destination is truncated before the source is read; an empty file is
    an empty database. *)
Definition copy (p p' : string) (fs : gmap string F) : gmap string F * result () string :=
  match fs !! resolve p with
  | Some f => (<[resolve p' := if decide (resolve p = resolve p') then (true, "") else f]> fs, Ok ())
  | None => (fs, Err "no file"%string)
  end.
(** A copy that is cut short, on a full disk. *)
Definition short_copy (p p' : string) (fs : gmap string F) : gmap string F * result () string :=
  (<[resolve p' := (false, "ro")]> fs, Err "no space left"%string).
Definition mkdir (_ : string) (_ : gmap string F) : result () string := Ok ().
Definition backup := backup_sqlite check vacuum mkdir (λ _, Some ""%string) id resolve id id.
Definition restore := restore_sqlite check mkdir copy (λ _, Some ""%string) resolve id.

Lemma vacuum_other p q fs : resolve p ≠ q → (vacuum p fs).1 !! q = fs !! q.
Proof. intros Hpq. by apply lookup_insert_ne. Qed.
Lemma copy_other p p' q fs : resolve p' ≠ q → (copy p p' fs).1 !! q = fs !! q.
Proof. intros Hpq. unfold copy. destruct (fs !! resolve p); [by apply lookup_insert_ne|done]. Qed.
Lemma copy_Ok p p' fs fs' : resolve p ≠ resolve p' → copy p p' fs = (fs', Ok ()) →
  fs' !! resolve p' = fs !! resolve p.
Proof.
  intros Hne. unfold copy. destruct (fs !! resolve p); [|done].
  rewrite decide_False by done. intros [= <-]. apply lookup_insert_eq.
Qed.
End BackupExample.

Lemma backup_restore_spec_witness :
  (∃ f, (BackupExample.backup "b.db" ∅).1 !! "b.db"%string = Some f ∧
    check_sqlite_integrity (IoError := string) BackupExample.check f = Ok ()) ∧
  (BackupExample.restore "a.db" "b.db" {["a.db"%string := (true, "rows")]}).1 !! "b.db"%string
    = Some (true, "rows"%string).
Proof.
  pose proof (λ fs, backup_restore_spec BackupExample.check BackupExample.vacuum BackupExample.mkdir
    BackupExample.copy (λ _, Some ""%string) id BackupExample.resolve id id
    BackupExample.vacuum_other BackupExample.copy_other BackupExample.copy_Ok fs "a.db" "b.db" eq_refl) as H.
  split.
  - destruct (H ∅) as [Hb _].
    change (backup_sqlite _ _ _ _ _ _ _ _ "b.db" ∅) with (BackupExample.backup "b.db" ∅) in Hb.
    destruct (BackupExample.backup "b.db" ∅) as [fs' r] eqn:Hr. destruct Hb as (_ & _ & Hok).
    apply Hok. by vm_compute in Hr; injection Hr as _ <-.
  - destruct (H {["a.db"%string := (true, "rows"%string)]}) as [_ Hr].
    change (restore_sqlite _ _ _ _ _ _ "a.db" "b.db" ?fs) with (BackupExample.restore "a.db" "b.db" fs) in Hr.
    destruct (BackupExample.restore _ _ _) as [fs' r] eqn:Hrun. destruct Hr as (_ & Hok & _).
    destruct Hok as (f & f' & Hf & _ & Hf' & _ & Heq); [by vm_compute in Hrun; injection Hrun as _ <-|].
    simpl. transitivity (Some f'); [exact Hf'|]. rewrite (Heq ltac:(done)).
    vm_compute in Hf. exact (eq_sym Hf).
Defined.

(** ** What modelling showed *)

(** A restore writes over the destination before it is known to be complete:
    a copy that fails half way leaves a broken file where the old one was. *)
Example failed_restore_destroys :
  (restore_sqlite BackupExample.check BackupExample.mkdir BackupExample.short_copy (λ _, Some ""%string)
    BackupExample.resolve id
    "a.db" "b.db" {["a.db"%string := (true, "rows"); "b.db"%string := (true, "old")]}).1 !! "b.db"%string =
  Some (false, "ro"%string).
Proof. by vm_compute. Qed.

(** A restore of a file onto itself: the copy truncates it, the empty file
    passes the check, and the restore reports success. *)
Example restore_onto_itself :
  let '(fs', r) := BackupExample.restore "./a.db" "a.db" {["a.db"%string := (true, "rows"%string)]} in
  r = Ok () ∧ fs' !! "a.db"%string = Some (true, ""%string).
Proof. by vm_compute. Qed.

(** The test for an existing destination looks at the path, the backup is
    written to its text: for a path that is no text it reports success and
    nothing is at the destination. *)
Example lossy_destination_elsewhere :
  let lossy p := if decide (p = "b-raw.db") then "b-text.db" else p in
  let '(fs', r) := backup_sqlite BackupExample.check BackupExample.vacuum BackupExample.mkdir
    (λ _, Some ""%string) lossy BackupExample.resolve id id "b-raw.db" ∅ in
  r = Ok () ∧ fs' !! "b-raw.db"%string = None.
Proof. by vm_compute. Qed.

(** The configuration of a backup's pool is valid. *)
Lemma read_only_pool_valid {X Y : Type} :
  validate (X := X) (Y := Y) (mkPoolConfig 1 (Some 0%N) (connection_timeout pool_config_default)
    (max_lifetime pool_config_default) (idle_timeout pool_config_default)
    (test_on_check_out pool_config_default)) = Ok () ∧
  validate (X := X) (Y := Y) pool_config_default = Ok ().
Proof. done. Qed.

(** A pool is built exactly from a valid configuration. *)
Lemma build_pool_spec {C X Y : Type} (c : C) (p : DatabasePoolConfig) :
  is_ok (build_pool (X := X) (Y := Y) c p) =
  (0 <? max_size p)%N && (default 0 (min_idle p) <=? max_size p)%N && (0 <? connection_timeout p)%N.
Proof.
  unfold build_pool, validate. destruct (min_idle p) as [m|]; simpl; repeat case_N; simpl; try done; lia.
Qed.
