(* ===== verification/Broadcast.v ===== *)
(** * The broadcast bus (base/src/bus/broadcast.rs)

    One broadcast channel per message type, made by the first publisher or
    subscriber and taken from the map again by a clean-up task once nobody
    listens.  tokio's broadcast channel is the interface [Broadcast]: a log of
    the messages, a position in it for each receiver, and a count of senders.
    The steps are the lock sections of the map and the calls between them. *)
From S2P Require Import Prelude Errors Bus.

(** ** The interface of a broadcast channel *)

Inductive Recv (A : Type) := Got (a : A) | REmpty | RClosed | RLagged.
Arguments Got {A}.
Arguments REmpty {A}.
Arguments RClosed {A}.
Arguments RLagged {A}.

Class Broadcast (A C : Type) := {
  (** A channel with one sender; the receiver that comes with it is dropped. *)
  b_new : nat → C;
  b_send : C → A → option nat * C;   (* the number of receivers, or SendError *)
  b_clone : C → C;
  b_drop_sender : C → C;
  b_subscribe : C → nat * C;
  b_recv : C → nat → Recv A * C;
  b_drop_receiver : C → nat → C;
  b_receiver_count : C → nat;
  (** What was sent, where each receiver stands, the capacity, the senders. *)
  b_log : C → list A;
  b_pos : C → gmap nat nat;
  b_cap : C → nat;
  b_senders : C → nat
}.

Class BroadcastLaws (A C : Type) `{Broadcast A C} : Prop := {
  b_new_spec n : b_log (b_new n) = [] ∧ b_pos (b_new n) = ∅ ∧ b_cap (b_new n) = n ∧ b_senders (b_new n) = 1;
  b_count_spec c : b_receiver_count c = size (b_pos c);
  b_send_spec c a : let '(r, c') := b_send c a in
    b_pos c' = b_pos c ∧ b_cap c' = b_cap c ∧ b_senders c' = b_senders c ∧
    match r with
    | Some n => n = size (b_pos c) ∧ 0 < n ∧ b_log c' = b_log c ++ [a]
    | None => b_pos c = ∅ ∧ b_log c' = b_log c
    end;
  b_clone_spec c : b_log (b_clone c) = b_log c ∧ b_pos (b_clone c) = b_pos c ∧
    b_cap (b_clone c) = b_cap c ∧ b_senders (b_clone c) = S (b_senders c);
  b_drop_sender_spec c : b_log (b_drop_sender c) = b_log c ∧ b_pos (b_drop_sender c) = b_pos c ∧
    b_cap (b_drop_sender c) = b_cap c ∧ b_senders (b_drop_sender c) = pred (b_senders c);
  b_subscribe_spec c : let '(i, c') := b_subscribe c in
    b_pos c !! i = None ∧ b_pos c' = <[i := length (b_log c)]> (b_pos c) ∧
    b_log c' = b_log c ∧ b_cap c' = b_cap c ∧ b_senders c' = b_senders c;
  b_recv_spec c i p : b_pos c !! i = Some p → let '(r, c') := b_recv c i in
    b_log c' = b_log c ∧ b_cap c' = b_cap c ∧ b_senders c' = b_senders c ∧
    match r with
    | Got a => b_log c !! p = Some a ∧ length (b_log c) ≤ p + b_cap c ∧ b_pos c' = <[i := S p]> (b_pos c)
    | REmpty => length (b_log c) ≤ p ∧ b_senders c ≠ 0 ∧ b_pos c' = b_pos c
    | RClosed => length (b_log c) ≤ p ∧ b_senders c = 0 ∧ b_pos c' = b_pos c
    | RLagged => p + b_cap c < length (b_log c) ∧ b_pos c' = <[i := length (b_log c) - b_cap c]> (b_pos c)
    end;
  b_drop_receiver_spec c i : b_log (b_drop_receiver c i) = b_log c ∧ b_cap (b_drop_receiver c i) = b_cap c ∧
    b_senders (b_drop_receiver c i) = b_senders c ∧ b_pos (b_drop_receiver c i) = delete i (b_pos c)
}.

Section broadcast.
Context {Ty : Type} `{Countable Ty} (val : Ty → Type).
Notation any := {t : Ty & val t}.
Context {C : Type} `{!Broadcast any C}.

(** [Arc::new(msg)] as [Arc<dyn Any + Send + Sync>]. *)
Definition boxed (t : Ty) (msg : val t) : any := existT t msg.

(** A [TypedReceiver]; what it got since it was made, and whether it was told
    that it lagged, are recorded for the theorems. *)
Record TypedReceiver := mkReceiver {
  rx_ty : Ty;
  rx_ch : N;
  rx_id : nat;
  rx_start : nat;
  rx_got : list any;
  rx_lagged : bool
}.

(** The channels by number, with their type; the bus's map; the senders that
    running subscriptions hold; the receivers; what the clean-up collected. *)
Record BroadcastBus := mkBBus {
  chans : gmap N (Ty * C);
  bmap : gmap Ty N;
  next : N;
  subscribing : list (Ty * N);
  receivers : gmap N TypedReceiver;
  to_remove : list Ty
}.
Definition bus_new : BroadcastBus := mkBBus ∅ ∅ 0 [] ∅ [].

Definition set_chan (i : N) (t : Ty) (c : C) (b : BroadcastBus) : BroadcastBus :=
  mkBBus (<[i := (t, c)]> (chans b)) (bmap b) (next b) (subscribing b) (receivers b) (to_remove b).
Definition set_receiver (h : N) (r : TypedReceiver) (b : BroadcastBus) : BroadcastBus :=
  mkBBus (chans b) (bmap b) (next b) (subscribing b) (<[h := r]> (receivers b)) (to_remove b).

(** [entry(type_id).or_insert_with(..)], under the lock of the entry. *)
Definition entry (t : Ty) (b : BroadcastBus) : N * BroadcastBus :=
  match bmap b !! t with
  | Some i => (i, b)
  | None =>
      (next b, mkBBus (<[next b := (t, b_new DEFAULT_CHANNEL_SIZE)]> (chans b)) (<[t := next b]> (bmap b))
        (next b + 1) (subscribing b) (receivers b) (to_remove b))
  end.

(** [publish] keeps the entry's lock until it has sent. *)
Definition publish (t : Ty) (msg : val t) (b : BroadcastBus) : option nat * BroadcastBus :=
  let '(i, b) := entry t b in
  match chans b !! i with
  | Some (t', c) => let '(r, c) := b_send c (boxed t msg) in (r, set_chan i t' c b)
  | None => (None, b)
  end.
Definition publish_ref (t : Ty) (msg : val t) (b : BroadcastBus) : option nat * BroadcastBus := publish t msg b.

(** [sub_type_channel]: the sender is cloned under the lock, the receiver is
    made from the clone, which is dropped then. *)
Definition sub_begin (t : Ty) (b : BroadcastBus) : BroadcastBus :=
  let '(i, b) := entry t b in
  match chans b !! i with
  | Some (t', c) =>
      let b := set_chan i t' (b_clone c) b in
      mkBBus (chans b) (bmap b) (next b) ((t, i) :: subscribing b) (receivers b) (to_remove b)
  | None => b
  end.
Definition sub_end (h : N) (t : Ty) (i : N) (rest : list (Ty * N)) (b : BroadcastBus) : BroadcastBus :=
  match chans b !! i with
  | Some (t', c) =>
      let '(id, c) := b_subscribe c in
      let r := mkReceiver t i id (length (b_log c)) [] false in
      let b := set_receiver h r (set_chan i t' (b_drop_sender c) b) in
      mkBBus (chans b) (bmap b) (next b) rest (receivers b) (to_remove b)
  | None => b
  end.

(** The clean-up task visits the entries, then removes what it collected. *)
Definition collect (t : Ty) (b : BroadcastBus) : BroadcastBus :=
  match i ← bmap b !! t; chans b !! i with
  | Some (_, c) =>
      if (b_receiver_count c =? 0)%nat then
        mkBBus (chans b) (bmap b) (next b) (subscribing b) (receivers b) (to_remove b ++ [t])
      else b
  | None => b
  end.
Definition remove (b : BroadcastBus) : BroadcastBus :=
  match to_remove b with
  | [] => b
  | t :: ts =>
      let b := mkBBus (chans b) (bmap b) (next b) (subscribing b) (receivers b) ts in
      match bmap b !! t with
      | Some i =>
          let b := match chans b !! i with
                   | Some (t', c) => set_chan i t' (b_drop_sender c) b
                   | None => b
                   end in
          mkBBus (chans b) (delete t (bmap b)) (next b) (subscribing b) (receivers b) (to_remove b)
      | None => b
      end
  end.
(** A round of [spawn_cleanup_task] that nothing interrupts. *)
Definition cleanup (b : BroadcastBus) : BroadcastBus :=
  let b := foldl (λ b t, collect t b) b (map_to_list (bmap b)).*1 in
  Nat.iter (length (to_remove b)) remove b.

(** What a receiver remembers of a call: what it got, whether it lagged. *)
Definition after_recv (r : TypedReceiver) (v : Recv any) : TypedReceiver :=
  match v with
  | Got a => mkReceiver (rx_ty r) (rx_ch r) (rx_id r) (rx_start r) (rx_got r ++ [a]) (rx_lagged r)
  | RLagged => mkReceiver (rx_ty r) (rx_ch r) (rx_id r) (rx_start r) (rx_got r) true
  | _ => r
  end.

(** The receiver's call on its channel. *)
Definition recv_inner (h : N) (b : BroadcastBus) : option (Ty * Recv any * BroadcastBus) :=
  r ← receivers b !! h;
  '(t', c) ← chans b !! rx_ch r;
  let '(v, c) := b_recv c (rx_id r) in
  Some (rx_ty r, v, set_receiver h (after_recv r v) (set_chan (rx_ch r) t' c b)).

Definition recv_result (t : Ty) (v : Recv any) : result (val t) MessageBusError :=
  match v with
  | Got a => try_cast val t a
  | RClosed => Err BusChannelClosed
  | REmpty => Err BusEmpty
  | RLagged => Err BusLagged
  end.
Definition try_recv (h : N) (b : BroadcastBus) :
    option ({t : Ty & result (val t) MessageBusError} * BroadcastBus) :=
  match recv_inner h b with
  | Some (t, v, b) => Some (existT t (recv_result t v), b)
  | None => None
  end.
(** One poll of [recv]; the inner [None] waits. *)
Definition recv_poll (h : N) (b : BroadcastBus) :
    option ({t : Ty & option (result (val t) MessageBusError)} * BroadcastBus) :=
  match recv_inner h b with
  | Some (t, v, b) => Some (existT t (match v with REmpty => None | _ => Some (recv_result t v) end), b)
  | None => None
  end.
(** [timeout]: the future is polled before the time is looked at. *)
Definition recv_with_timeout_poll (h : N) (elapsed : bool) (b : BroadcastBus) :
    option ({t : Ty & option (result (val t) MessageBusError)} * BroadcastBus) :=
  match recv_inner h b with
  | Some (t, v, b) =>
      Some (existT t (match v with
                      | REmpty => if elapsed then Some (Err BusTimeout) else None
                      | _ => Some (recv_result t v)
                      end), b)
  | None => None
  end.

Definition drop_receiver (h : N) (b : BroadcastBus) : BroadcastBus :=
  match receivers b !! h with
  | Some r =>
      match chans b !! rx_ch r with
      | Some (t', c) =>
          let b := set_chan (rx_ch r) t' (b_drop_receiver c (rx_id r)) b in
          mkBBus (chans b) (bmap b) (next b) (subscribing b) (delete h (receivers b)) (to_remove b)
      | None => b
      end
  | None => b
  end.

(** ** Interleavings *)

Inductive step : BroadcastBus → BroadcastBus → Prop :=
  | step_publish t msg b : step b (publish t msg b).2
  | step_sub_begin t b : step b (sub_begin t b)
  | step_sub_end h t i l1 l2 b : subscribing b = l1 ++ (t, i) :: l2 → receivers b !! h = None →
      step b (sub_end h t i (l1 ++ l2) b)
  | step_collect t b : step b (collect t b)
  | step_remove b : step b (remove b)
  | step_recv h t v b b' : recv_inner h b = Some (t, v, b') → step b b'
  | step_drop h b : step b (drop_receiver h b).
Definition reachable (b : BroadcastBus) : Prop := rtc step bus_new b.
End broadcast.

(** ** The invariant *)

Lemma filter_none {A : Type} (P : A → Prop) `{!∀ x, Decision (P x)} (l : list A) :
  (∀ x, x ∈ l → ¬ P x) → filter P l = [].
Proof.
  induction l as [|x l IH]; intros Hl; [done|]. rewrite filter_cons_False by (apply Hl; left).
  apply IH. intros y ?. apply Hl. by right.
Qed.

Section proofs.
Context {Ty : Type} `{Countable Ty} (val : Ty → Type).
Notation any := {t : Ty & val t}.
Context {C : Type} `{!Broadcast any C, !BroadcastLaws any C}.
Notation bus := (BroadcastBus (C := C) val).

(** The senders of channel [i] of type [t] that the map and the running
    subscriptions hold. *)
Definition holders (b : bus) (t : Ty) (i : N) : nat :=
  (if decide (bmap val b !! t = Some i) then 1 else 0) +
  length (filter (λ p, p.2 = i) (subscribing val b)).

Record chan_ok (b : bus) (i : N) (t : Ty) (c : C) : Prop := {
  co_typed : Forall (λ a : any, projT1 a = t) (b_log c);
  co_cap : b_cap c = DEFAULT_CHANNEL_SIZE;
  co_senders : b_senders c = holders b t i;
  co_fresh : (i < next val b)%N;
  co_pos k p : b_pos c !! k = Some p → ∃ h r, receivers val b !! h = Some r ∧ rx_ch val r = i ∧ rx_id val r = k
}.

(** What a receiver got so far, while it did not lag. *)
Definition slice (start p : nat) (log : list any) : list any := drop start (take p log).

Record rx_ok (c : C) (r : TypedReceiver val) (p : nat) : Prop := {
  ro_pos : b_pos c !! rx_id val r = Some p;
  ro_start : rx_start val r ≤ p;
  ro_end : p ≤ length (b_log c);
  ro_got : rx_lagged val r = false → rx_got val r = slice (rx_start val r) p (b_log c)
}.

Record binv (b : bus) : Prop := {
  bi_map t i : bmap val b !! t = Some i → ∃ c, chans val b !! i = Some (t, c);
  bi_sub t i : (t, i) ∈ subscribing val b → ∃ c, chans val b !! i = Some (t, c);
  bi_chan i t c : chans val b !! i = Some (t, c) → chan_ok b i t c;
  bi_rx h r : receivers val b !! h = Some r →
    ∃ c p, chans val b !! rx_ch val r = Some (rx_ty val r, c) ∧ rx_ok c r p;
  bi_inj h h' r r' : receivers val b !! h = Some r → receivers val b !! h' = Some r' →
    rx_ch val r = rx_ch val r' → rx_id val r = rx_id val r' → h = h'
}.

Lemma binv_new : binv (bus_new val).
Proof. split; intros *; cbn; by rewrite ?lookup_empty, ?elem_of_nil. Qed.

Lemma entry_spec t (b : bus) : binv b →
  let '(i, b') := entry val t b in
  binv b' ∧ bmap val b' !! t = Some i ∧ receivers val b' = receivers val b ∧
  subscribing val b' = subscribing val b.
Proof.
  intros Hb. unfold entry. destruct (bmap val b !! t) as [i|] eqn:Ht; [done|]. cbn zeta iota.
  split_and!; [|by cbn; rewrite lookup_insert_eq|done|done].
  assert (Hfresh : ∀ i t' c, chans val b !! i = Some (t', c) → (i < next val b)%N) by (intros; by eapply co_fresh, bi_chan).
  assert (Hne : ∀ i t' c, chans val b !! i = Some (t', c) → next val b ≠ i) by (intros i t' c Hi%Hfresh; lia).
  assert (Hnorx : ∀ h r, receivers val b !! h = Some r → rx_ch val r ≠ next val b).
  { intros h r Hr. destruct (bi_rx b Hb h r Hr) as (c & p & Hc & _). by apply not_eq_sym, (Hne _ _ _ Hc). }
  destruct (b_new_spec DEFAULT_CHANNEL_SIZE) as (Hl & Hp & Hcap & Hs).
  split; simpl.
  - intros t' i. rewrite lookup_insert_Some. intros [[<- <-]|[Hd Hi]].
    + rewrite lookup_insert_eq. eauto.
    + destruct (bi_map b Hb _ _ Hi) as [c Hc]. exists c. rewrite lookup_insert_ne; [done|by eapply Hne].
  - intros t' i Hin. destruct (bi_sub b Hb _ _ Hin) as [c Hc]. exists c. rewrite lookup_insert_ne; [done|by eapply Hne].
  - intros i t' c. rewrite lookup_insert_Some. intros [[<- [= <- <-]]|[Hd Hi]].
    + split; simpl; [by rewrite Hl|done| |lia|intros k p; by rewrite Hp].
      rewrite Hs. unfold holders. simpl. rewrite decide_True by apply lookup_insert_eq.
      rewrite (proj2 (length_zero_iff_nil _)); [done|].
      apply filter_none. intros [t' j] Hin Hj. simpl in Hj. subst j.
      destruct (bi_sub b Hb _ _ Hin) as [c Hc]. by apply (Hne _ _ _ Hc).
    + destruct (bi_chan b Hb _ _ _ Hi) as [H1 H2 H3 H4 H5]. split; simpl; try done; [|lia].
      rewrite H3. unfold holders. simpl. f_equal. apply decide_ext. rewrite lookup_insert_Some.
      split; [intros Hm; right; split; [congruence|done]|].
      intros [[_ Hn]|[_ ?]]; [|done]. subst i. by destruct (Hne _ _ _ Hi).
  - intros h r Hr. destruct (bi_rx b Hb h r Hr) as (c & p & Hc & Hok). exists c, p. split; [|done].
    rewrite lookup_insert_ne; [done|by eapply Hne].
  - apply (bi_inj b Hb).
Qed.

(** A step that touches one channel, and the receivers on it. *)
Lemma binv_upd (b b' : bus) i t c c' :
  binv b → chans val b !! i = Some (t, c) →
  chans val b' = <[i := (t, c')]> (chans val b) → next val b' = next val b →
  (∀ t' j, bmap val b' !! t' = Some j → bmap val b !! t' = Some j) →
  (∀ p, p ∈ subscribing val b' → p ∈ subscribing val b ∨ p = (t, i)) →
  (∀ t' j, j ≠ i → holders b' t' j = holders b t' j) →
  Forall (λ a : any, projT1 a = t) (b_log c') → b_cap c' = b_cap c → b_senders c' = holders b' t i →
  (∀ k p, b_pos c' !! k = Some p → ∃ h r, receivers val b' !! h = Some r ∧ rx_ch val r = i ∧ rx_id val r = k) →
  (∀ h r, receivers val b' !! h = Some r →
    rx_ch val r = i ∧ rx_ty val r = t ∧ (∃ p, rx_ok c' r p) ∨ rx_ch val r ≠ i ∧ receivers val b !! h = Some r) →
  (∀ h r, receivers val b !! h = Some r → rx_ch val r ≠ i → receivers val b' !! h = Some r) →
  (∀ h h' r r', receivers val b' !! h = Some r → receivers val b' !! h' = Some r' →
    rx_ch val r = i → rx_ch val r' = i → rx_id val r = rx_id val r' → h = h') →
  binv b'.
Proof.
  intros Hb Hi Hch Hnx Hmap Hsub Hho Hty Hcap Hsn Hpos Hrx Hrx' Hinj.
  assert (Hlook : ∀ t' j, (∃ c0, chans val b !! j = Some (t', c0)) → ∃ c0, chans val b' !! j = Some (t', c0)).
  { intros t' j [c0 Hj]. rewrite Hch. destruct (decide (i = j)) as [<-|Hne].
    - exists c'. rewrite Hi in Hj. injection Hj as <- <-. apply lookup_insert_eq.
    - exists c0. by rewrite lookup_insert_ne. }
  split.
  - intros t' j Hj. by apply Hlook, (bi_map b Hb), Hmap.
  - intros t' j [Hin|[= -> ->]]%Hsub; [by apply Hlook, (bi_sub b Hb)|]. apply Hlook. eauto.
  - intros j t' c0. rewrite Hch, lookup_insert_Some. intros [[<- [= <- <-]]|[Hne Hj]].
    + destruct (bi_chan b Hb _ _ _ Hi). split; [done|congruence|done|by rewrite Hnx|done].
    + destruct (bi_chan b Hb _ _ _ Hj) as [H1 H2 H3 H4 H5]. split; [done|done|by rewrite Hho|by rewrite Hnx|].
      intros k p Hk. destruct (H5 k p Hk) as (h & r & Hr & Hrc & Hri). exists h, r.
      split; [|done]. apply Hrx'; [done|congruence].
  - intros h r Hr. rewrite Hch. destruct (Hrx h r Hr) as [(Hrc & Hrt & p & Hok)|[Hne Hold]].
    + exists c', p. rewrite Hrc, lookup_insert_eq, Hrt. done.
    + destruct (bi_rx b Hb h r Hold) as (c0 & p & Hc & Hok). exists c0, p.
      by rewrite lookup_insert_ne.
  - intros h h' r r' Hr Hr' Hc Hid.
    destruct (Hrx h r Hr) as [(Hrc & _)|[Hne Hold]]; [eapply Hinj; eauto; congruence|].
    destruct (Hrx h' r' Hr') as [(Hrc & _)|[Hne' Hold']]; [congruence|].
    by eapply (bi_inj b Hb).
Qed.

(** The receivers of a channel whose log grows. *)
Lemma rx_ok_grow c c' r p ext : b_pos c' = b_pos c → b_log c' = b_log c ++ ext → rx_ok c r p → rx_ok c' r p.
Proof.
  intros Hp Hl [H1 H2 H3 H4]. split; [by rewrite Hp|done|rewrite Hl, length_app; lia|].
  intros Hlag. rewrite H4 by done. unfold slice. by rewrite Hl, take_app_le.
Qed.

(** A channel changes in its log or its senders only. *)
Lemma binv_chan (b b' : bus) i t c c' ext :
  binv b → chans val b !! i = Some (t, c) →
  chans val b' = <[i := (t, c')]> (chans val b) → next val b' = next val b →
  (∀ t' j, bmap val b' !! t' = Some j → bmap val b !! t' = Some j) →
  (∀ p, p ∈ subscribing val b' → p ∈ subscribing val b ∨ p = (t, i)) →
  (∀ t' j, j ≠ i → holders b' t' j = holders b t' j) →
  receivers val b' = receivers val b →
  b_pos c' = b_pos c → b_cap c' = b_cap c → b_log c' = b_log c ++ ext →
  Forall (λ a : any, projT1 a = t) ext → b_senders c' = holders b' t i →
  binv b'.
Proof.
  intros Hb Hi Hch Hnx Hmap Hsub Hho Hrx Hpos Hcap Hlog Hext Hsn.
  destruct (bi_chan b Hb _ _ _ Hi) as [H1 H2 H3 H4 H5].
  apply (binv_upd b b' i t c c'); try done.
  - rewrite Hlog. by apply Forall_app.
  - intros k p. rewrite Hpos, Hrx. apply H5.
  - intros h r. rewrite Hrx. intros Hr. destruct (decide (rx_ch val r = i)) as [Hc|]; [left|by right].
    destruct (bi_rx b Hb h r Hr) as (c0 & p & Hc0 & Hok). rewrite Hc, Hi in Hc0. injection Hc0 as -> ->.
    split_and!; [done|done|]. exists p. by eapply rx_ok_grow.
  - intros h r Hr _. by rewrite Hrx.
  - intros h h' r r'. rewrite Hrx. intros. eapply (bi_inj b Hb); eauto. congruence.
Qed.

Lemma publish_inv t msg (b : bus) : binv b → binv (publish val t msg b).2.
Proof.
  intros Hb. unfold publish. pose proof (entry_spec t b Hb) as He.
  destruct (entry val t b) as [i b1]. destruct He as (Hb1 & Hm & _ & _). clear Hb b.
  destruct (bi_map b1 Hb1 _ _ Hm) as [c Hc]. rewrite Hc.
  pose proof (b_send_spec c (boxed val t msg)) as Hs. destruct (b_send c (boxed val t msg)) as [r c'].
  destruct Hs as (Hp & Hcap & Hsn & Hr). simpl.
  apply (binv_chan b1 _ i t c c' (match r with Some _ => [boxed val t msg] | None => [] end)); try done.
  - auto.
  - destruct r as [n|]; [by destruct Hr as (Hn & Hpos & Hl)|]. destruct Hr as [Hn Hl]. by rewrite app_nil_r.
  - destruct r; repeat constructor.
  - etrans; [exact Hsn|apply (bi_chan b1 Hb1 _ _ _ Hc)].
Qed.

Lemma sub_begin_inv t (b : bus) : binv b → binv (sub_begin val t b).
Proof.
  intros Hb. unfold sub_begin. pose proof (entry_spec t b Hb) as He.
  destruct (entry val t b) as [i b1]. destruct He as (Hb1 & Hm & _ & _). clear Hb b.
  destruct (bi_map b1 Hb1 _ _ Hm) as [c Hc]. rewrite Hc.
  destruct (b_clone_spec c) as (Hl & Hp & Hcap & Hsn).
  apply (binv_chan b1 _ i t c (b_clone c) []); try done; simpl.
  - intros p [->|?]%elem_of_cons; auto.
  - intros t' j Hj. unfold holders. simpl. by rewrite filter_cons_False.
  - rewrite app_nil_r. exact Hl.
  - etrans; [exact Hsn|]. rewrite (co_senders _ _ _ _ (bi_chan b1 Hb1 _ _ _ Hc)). unfold holders. simpl.
    rewrite filter_cons_True by done. simpl. lia.
Qed.

Lemma binv_to_remove (b : bus) ts : binv b →
  binv (mkBBus val (chans val b) (bmap val b) (next val b) (subscribing val b) (receivers val b) ts).
Proof.
  intros [B1 B2 B3 B4 B5]. split; try done. intros i t c Hi. by destruct (B3 i t c Hi); split.
Qed.

Lemma collect_inv t (b : bus) : binv b → binv (collect val t b).
Proof. intros Hb. unfold collect. repeat case_match; try done. by apply binv_to_remove. Qed.

Lemma remove_binv (b : bus) : binv b → binv (remove val b).
Proof.
  intros Hb. unfold remove. destruct (to_remove val b) as [|t ts]; [done|]. simpl.
  destruct (bmap val b !! t) as [i|] eqn:Ht; [|by apply binv_to_remove].
  destruct (bi_map b Hb _ _ Ht) as [c Hc]. rewrite Hc.
  destruct (b_drop_sender_spec c) as (Hl & Hp & Hcap & Hsn).
  apply (binv_chan b _ i t c (b_drop_sender c) []); try done; simpl.
  - intros t' j. rewrite lookup_delete_Some. by intros [_ ?].
  - auto.
  - intros t' j Hj. unfold holders. simpl. f_equal. apply decide_ext. rewrite lookup_delete_Some.
    split; [by intros []|]. intros Hj'. split; [congruence|done].
  - rewrite app_nil_r. exact Hl.
  - etrans; [exact Hsn|]. rewrite (co_senders _ _ _ _ (bi_chan b Hb _ _ _ Hc)). unfold holders. simpl.
    rewrite decide_True by done. rewrite decide_False by (by rewrite lookup_delete_eq). lia.
Qed.

Lemma sub_end_inv h t i l1 l2 (b : bus) : subscribing val b = l1 ++ (t, i) :: l2 →
  receivers val b !! h = None → binv b → binv (sub_end val h t i (l1 ++ l2) b).
Proof.
  intros Hsub Hh Hb. unfold sub_end.
  destruct (bi_sub b Hb t i) as [c Hc]; [rewrite Hsub; apply elem_of_app; right; left|]. rewrite Hc.
  destruct (bi_chan b Hb _ _ _ Hc) as [Hty _ Hsn _ Hpos].
  pose proof (b_subscribe_spec c) as Hs. destruct (b_subscribe c) as [id c1].
  destruct Hs as (Hid & Hp1 & Hl1 & Hcap1 & Hsn1).
  destruct (b_drop_sender_spec c1) as (Hl2 & Hp2 & Hcap2 & Hsn2).
  assert (Hold : ∀ h' r, receivers val b !! h' = Some r → rx_ch val r = i →
    rx_ty val r = t ∧ ∃ p, b_pos c !! rx_id val r = Some p ∧ rx_ok c r p).
  { intros h' r Hr Hri. destruct (bi_rx b Hb h' r Hr) as (c0 & p & Hc0 & Hok). rewrite Hri, Hc in Hc0.
    injection Hc0 as -> ->. split; [done|]. exists p. split; [apply Hok|done]. }
  apply (binv_upd b _ i t c (b_drop_sender c1)); try done; simpl.
  - intros p Hin. left. rewrite Hsub. rewrite elem_of_app in Hin. rewrite elem_of_app, elem_of_cons. naive_solver.
  - intros t' j Hj. unfold holders. simpl. rewrite Hsub, !filter_app, filter_cons_False; [done|].
    simpl. congruence.
  - by rewrite Hl2, Hl1.
  - congruence.
  - etrans; [exact Hsn2|]. rewrite Hsn1, Hsn. unfold holders. simpl.
    rewrite Hsub, !filter_app, filter_cons_True, !length_app by done. simpl. lia.
  - intros k p. rewrite Hp2, Hp1, lookup_insert_Some. intros [[<- <-]|[Hne Hk]].
    + exists h. eexists. by rewrite lookup_insert_eq.
    + destruct (Hpos k p Hk) as (h' & r & Hr & Hrc & Hri). exists h', r.
      rewrite lookup_insert_ne by congruence. done.
  - intros h' r. rewrite lookup_insert_Some. intros [[<- <-]|[Hne Hr]].
    + left. simpl. split_and!; [done|done|]. exists (length (b_log c1)).
      split; simpl; [by rewrite Hp2, Hp1, lookup_insert_eq, Hl1|done|by rewrite Hl2|].
      intros _. unfold slice. rewrite Hl2, firstn_all. by rewrite drop_all.
    + destruct (decide (rx_ch val r = i)) as [Hri|]; [left|by right].
      destruct (Hold _ _ Hr Hri) as (Hrt & p & Hp & Hok). split_and!; [done|done|]. exists p.
      apply (rx_ok_grow c1 _ r p []); [done|by rewrite Hl2, app_nil_r|].
      destruct Hok as [Hok1 Hok2 Hok3 Hok4]. split; try rewrite Hl1; try done.
      rewrite Hp1. rewrite lookup_insert_ne; [done|]. congruence.
  - intros h' r Hr _. rewrite lookup_insert_ne by congruence. done.
  - intros h1 h2 r1 r2. rewrite !lookup_insert_Some.
    intros [[<- <-]|[Hn1 Hr1]] [[<- <-]|[Hn2 Hr2]] Hc1 Hc2 Hid12; simpl in *; [done| | |].
    + destruct (Hold _ _ Hr2 Hc2) as (_ & p & Hp & _). congruence.
    + destruct (Hold _ _ Hr1 Hc1) as (_ & p & Hp & _). congruence.
    + eapply (bi_inj b Hb); eauto. congruence.
Qed.

(** What a receiver's call gives, from its position [p]. *)
Definition recv_ok (b : bus) (r : TypedReceiver val) (c : C) (p : nat) (v : Recv any) : Prop :=
  match v with
  | Got a => b_log c !! p = Some a ∧ ∃ m, recv_result val (rx_ty val r) v = Ok m ∧ a = existT (rx_ty val r) m
  | REmpty => p = length (b_log c)
  | RClosed => p = length (b_log c) ∧ bmap val b !! rx_ty val r ≠ Some (rx_ch val r)
  | RLagged => p + DEFAULT_CHANNEL_SIZE < length (b_log c)
  end.

Lemma try_cast_same (a : any) (t : Ty) : projT1 a = t → ∃ m, try_cast val t a = Ok m ∧ a = existT t m.
Proof.
  intros <-. destruct a as [t m]. exists m. split; [|done]. unfold try_cast. simpl.
  destruct (decide (t = t)) as [e|]; [|done]. by rewrite (proof_irrel e eq_refl).
Qed.

Lemma slice_snoc start p log (a : any) : start ≤ p → log !! p = Some a →
  slice start (S p) log = slice start p log ++ [a].
Proof.
  intros Hs Ha. unfold slice. rewrite (take_S_r _ _ a) by done.
  apply drop_app_le. rewrite length_take. apply lookup_lt_Some in Ha. lia.
Qed.

(** The position of this receiver alone moves. *)
Lemma recv_moves (c c' : C) r p v : rx_ok c r p → b_recv c (rx_id val r) = (v, c') →
  ∃ p', b_pos c' !! rx_id val r = Some p' ∧ rx_ok c' (after_recv val r v) p' ∧
    ∀ k, k ≠ rx_id val r → b_pos c' !! k = b_pos c !! k.
Proof.
  intros [Hp Hst Hen Hgot] Hrecv. pose proof (b_recv_spec c (rx_id val r) p Hp) as Hv. rewrite Hrecv in Hv.
  destruct Hv as (Hl & _ & _ & Hv). destruct v as [a| | |]; simpl in *.
  - destruct Hv as (Ha & _ & Hp'). exists (S p). rewrite Hp', lookup_insert_eq. split; [done|].
    split; [|intros k ?; by rewrite lookup_insert_ne]. apply lookup_lt_Some in Ha as Hlt.
    split; simpl; [by rewrite Hp', lookup_insert_eq|lia|rewrite Hl; lia|].
    intros Hlag. rewrite Hgot, Hl by done. symmetry. by apply slice_snoc.
  - destruct Hv as (_ & _ & Hp'). exists p. rewrite Hp'. split_and!; [done| |done].
    split; simpl; [by rewrite Hp'|done|by rewrite Hl|by rewrite Hl].
  - destruct Hv as (_ & _ & Hp'). exists p. rewrite Hp'. split_and!; [done| |done].
    split; simpl; [by rewrite Hp'|done|by rewrite Hl|by rewrite Hl].
  - destruct Hv as (Hlt & Hp'). exists (length (b_log c) - b_cap c). rewrite Hp', lookup_insert_eq.
    split; [done|]. split; [|intros k ?; by rewrite lookup_insert_ne].
    split; simpl; [by rewrite Hp', lookup_insert_eq|lia|rewrite Hl; lia|done].
Qed.

Lemma recv_spec h r (b : bus) : binv b → receivers val b !! h = Some r →
  ∃ c p v b', chans val b !! rx_ch val r = Some (rx_ty val r, c) ∧ rx_ok c r p ∧
    recv_inner val h b = Some (rx_ty val r, v, b') ∧ recv_ok b r c p v ∧ binv b'.
Proof.
  intros Hb Hr. destruct (bi_rx b Hb h r Hr) as (c & p & Hc & Hok).
  destruct (bi_chan b Hb _ _ _ Hc) as [Hty Hcap Hsn _ Hpos].
  destruct Hok as [Hp Hst Hen Hgot].
  pose proof (b_recv_spec c (rx_id val r) p Hp) as Hv. destruct (b_recv c (rx_id val r)) as [v c'] eqn:Hrecv.
  destruct Hv as (Hl & Hcap' & Hsn' & Hv). eexists c, p, v, _.
  split; [done|]. split; [by split|]. split.
  { unfold recv_inner. rewrite Hr. simpl. rewrite Hc. simpl. rewrite Hrecv. done. }
  split.
  { destruct v as [a| | |]; simpl in *.
    - destruct Hv as (Ha & _ & _). split; [done|]. apply try_cast_same.
      rewrite Forall_forall in Hty. by eapply Hty, list_elem_of_lookup_2.
    - destruct Hv as (? & _). lia.
    - destruct Hv as (? & Hz & _). split; [lia|]. intros Hm. rewrite Hsn in Hz. unfold holders in Hz.
      rewrite decide_True in Hz by done. lia.
    - destruct Hv as (? & _). rewrite Hcap in *. lia. }
  set (r' := after_recv val r v).
  assert (Hr' : rx_ch val r' = rx_ch val r ∧ rx_id val r' = rx_id val r ∧ rx_ty val r' = rx_ty val r)
    by (by destruct v).
  destruct Hr' as (Hrc & Hri & Hrt).
  destruct (recv_moves c c' r p v) as (p' & Hp' & Hok' & Hkeep); [by split|done|].
  apply (binv_upd b _ (rx_ch val r) (rx_ty val r) c c'); try done; simpl.
  - auto.
  - by rewrite Hl.
  - etrans; [exact Hsn'|exact Hsn].
  - intros k q Hk. destruct (decide (k = rx_id val r)) as [->|Hne].
    + exists h, r'. by rewrite lookup_insert_eq.
    + rewrite Hkeep in Hk by done. destruct (Hpos k q Hk) as (h' & r0 & Hr0 & Hc0 & Hi0).
      exists h', r0. rewrite lookup_insert_ne by congruence. done.
  - intros h' r0. rewrite lookup_insert_Some. intros [[<- <-]|[Hne Hr0]].
    + left. split_and!; [done|done|]. by exists p'.
    + destruct (decide (rx_ch val r0 = rx_ch val r)) as [Hc0|]; [left|by right].
      destruct (bi_rx b Hb h' r0 Hr0) as (c0 & q & Hc1 & [Ho1 Ho2 Ho3 Ho4]).
      rewrite Hc0, Hc in Hc1. injection Hc1 as Ht0 <-. split_and!; [done|done|]. exists q.
      split; rewrite ?Hl; try done. rewrite Hkeep; [done|]. intros Heq.
      apply Hne. eapply (bi_inj b Hb); eauto.
  - intros h' r0 Hr0 Hne. rewrite lookup_insert_ne by congruence. done.
  - intros h1 h2 r1 r2. rewrite !lookup_insert_Some.
    intros [[<- <-]|[Hn1 Hr1]] [[<- <-]|[Hn2 Hr2]] Hc1 Hc2 Hid; [done| | |];
      eapply (bi_inj b Hb); eauto; congruence.
Qed.

Lemma drop_inv h (b : bus) : binv b → binv (drop_receiver val h b).
Proof.
  intros Hb. unfold drop_receiver. destruct (receivers val b !! h) as [r|] eqn:Hr; [|done].
  destruct (bi_rx b Hb h r Hr) as (c & p & Hc & _). rewrite Hc.
  destruct (bi_chan b Hb _ _ _ Hc) as [Hty Hcap Hsn _ Hpos].
  destruct (b_drop_receiver_spec c (rx_id val r)) as (Hl & Hcap' & Hsn' & Hp').
  apply (binv_upd b _ (rx_ch val r) (rx_ty val r) c (b_drop_receiver c (rx_id val r))); try done; simpl.
  - auto.
  - by rewrite Hl.
  - etrans; [exact Hsn'|exact Hsn].
  - intros k q. rewrite Hp', lookup_delete_Some. intros [Hne Hk].
    destruct (Hpos k q Hk) as (h' & r0 & Hr0 & Hc0 & Hi0). exists h', r0.
    rewrite lookup_delete_ne by congruence. done.
  - intros h' r0. rewrite lookup_delete_Some. intros [Hne Hr0].
    destruct (decide (rx_ch val r0 = rx_ch val r)) as [Hc0|]; [left|by right].
    destruct (bi_rx b Hb h' r0 Hr0) as (c0 & q & Hc1 & [Ho1 Ho2 Ho3 Ho4]).
    rewrite Hc0, Hc in Hc1. injection Hc1 as Ht0 <-. split_and!; [done|done|]. exists q.
    split; rewrite ?Hl; try done. rewrite Hp', lookup_delete_ne; [done|]. intros Heq.
    apply Hne. eapply (bi_inj b Hb); eauto.
  - intros h' r0 Hr0 Hne. rewrite lookup_delete_ne by congruence. done.
  - intros h1 h2 r1 r2. rewrite !lookup_delete_Some. intros [_ Hr1] [_ Hr2] Hc1 Hc2 Hid.
    eapply (bi_inj b Hb); eauto. congruence.
Qed.

Lemma reachable_binv (b : bus) : reachable val b → binv b.
Proof.
  intros Hr. unfold reachable in Hr. remember (bus_new val) as b0 eqn:Hb0.
  assert (Hi : binv b0) by (subst b0; apply binv_new). clear Hb0.
  induction Hr as [b|b b1 b2 Hs _ IH]; [done|]. apply IH. destruct Hs.
  - by apply publish_inv.
  - by apply sub_begin_inv.
  - by apply sub_end_inv.
  - by apply collect_inv.
  - by apply remove_binv.
  - destruct (receivers val b !! h) as [r|] eqn:Hr; [|unfold recv_inner in *; by rewrite Hr in *].
    destruct (recv_spec h r b Hi Hr) as (c & p & v' & b'' & _ & _ & Heq & _ & Hb''). congruence.
  - by apply drop_inv.
Qed.

(** C17: under every interleaving of publishers, subscriptions, receivers and
    the clean-up task, a receiver that was not told that it lagged has got the
    messages sent on its channel since it subscribed, in order and each once,
    all of its type; it lags only with more than 64 unread, and finds the
    channel closed only when all is read and the map holds it no more.  A
    publish reaches every receiver of the map's channel, and fails only when
    there is none. *)
Theorem broadcast_delivery (b : bus) : reachable val b →
  (∀ h r, receivers val b !! h = Some r → ∃ c p v b',
    chans val b !! rx_ch val r = Some (rx_ty val r, c) ∧
    (rx_lagged val r = false → rx_got val r = slice (rx_start val r) p (b_log c)) ∧
    recv_inner val h b = Some (rx_ty val r, v, b') ∧ recv_ok b r c p v) ∧
  (∀ t msg, let '(res, b') := publish val t msg b in
    ∃ i c, bmap val b' !! t = Some i ∧ chans val b' !! i = Some (t, c) ∧
    match res with
    | Some n => n = size (b_pos c) ∧ last (b_log c) = Some (boxed val t msg) ∧
        ∀ h r, receivers val b' !! h = Some r → rx_ch val r = i →
          ∃ p, b_pos c !! rx_id val r = Some p ∧ p < length (b_log c)
    | None => ∀ h r, receivers val b' !! h = Some r → rx_ch val r ≠ i
    end).
Proof.
  intros Hb%reachable_binv. split.
  - intros h r Hr. destruct (recv_spec h r b Hb Hr) as (c & p & v & b' & Hc & Hok & Hrecv & Hv & _).
    exists c, p, v, b'. split_and!; try done. apply Hok.
  - intros t msg. unfold publish. pose proof (entry_spec t b Hb) as He.
    destruct (entry val t b) as [i b1]. destruct He as (Hb1 & Hm & _ & _).
    destruct (bi_map b1 Hb1 _ _ Hm) as [c Hc]. rewrite Hc.
    pose proof (b_send_spec c (boxed val t msg)) as Hs. destruct (b_send c (boxed val t msg)) as [res c'].
    destruct Hs as (Hp & _ & _ & Hres). exists i, c'. simpl. rewrite lookup_insert_eq. split_and!; [done|done|].
    assert (Hrx : ∀ h r, receivers val b1 !! h = Some r → rx_ch val r = i →
      ∃ p, b_pos c !! rx_id val r = Some p ∧ p ≤ length (b_log c)).
    { intros h r Hr Hri. destruct (bi_rx b1 Hb1 h r Hr) as (c0 & p & Hc0 & [Ho1 _ Ho3 _]).
      rewrite Hri, Hc in Hc0. injection Hc0 as Ht0 <-. eauto. }
    destruct res as [n|].
    + destruct Hres as (-> & _ & Hl).
      rewrite Hp, Hl, last_snoc. split_and!; [done|done|].
      intros h r Hr Hri. destruct (Hrx h r Hr Hri) as (p & Hp' & Hle). exists p. split; [done|].
      rewrite length_app. simpl. lia.
    + destruct Hres as (Hemp & _). intros h r Hr Hri. destruct (Hrx h r Hr Hri) as (p & Hp' & _).
      by rewrite Hemp, lookup_empty in Hp'.
Qed.
End proofs.

(** ** A concrete channel *)

Module BroadcastExample.
(** Message types [false] and [true], of numbers and of truth values. *)
Definition val (t : bool) : Type := if t then nat else bool.
Notation any := {t : bool & val t}.
Record C := mkC { log : list any; pos : gmap nat nat; cap : nat; senders : nat }.
#[global] Instance chan : Broadcast any C := {|
  b_new n := mkC [] ∅ n 1;
  b_send c a := if decide (pos c = ∅) then (None, c)
                else (Some (size (pos c)), mkC (log c ++ [a]) (pos c) (cap c) (senders c));
  b_clone c := mkC (log c) (pos c) (cap c) (S (senders c));
  b_drop_sender c := mkC (log c) (pos c) (cap c) (pred (senders c));
  b_subscribe c := let i := fresh (dom (pos c)) in (i, mkC (log c) (<[i := length (log c)]> (pos c)) (cap c) (senders c));
  b_recv c i :=
    let p := default 0 (pos c !! i) in
    if decide (p + cap c < length (log c)) then
      (RLagged, mkC (log c) (<[i := length (log c) - cap c]> (pos c)) (cap c) (senders c))
    else match log c !! p with
         | Some a => (Got a, mkC (log c) (<[i := S p]> (pos c)) (cap c) (senders c))
         | None => (if decide (senders c = 0) then RClosed else REmpty, c)
         end;
  b_drop_receiver c i := mkC (log c) (delete i (pos c)) (cap c) (senders c);
  b_receiver_count c := size (pos c);
  b_log := log; b_pos := pos; b_cap := cap; b_senders := senders
|}.
#[global] Instance chan_laws : BroadcastLaws any C.
Proof.
  split; try done; simpl.
  - intros c a. case_decide as Hp; simpl; [done|]. split_and!; try done.
    assert (size (pos c) ≠ 0) by by rewrite map_size_empty_iff. lia.
  - intros c. split_and!; try done. apply not_elem_of_dom, is_fresh.
  - intros c i p ->. simpl. case_decide as Hlag; simpl; [done|].
    destruct (log c !! p) as [a|] eqn:Ha; simpl; [split_and!; try done; lia|].
    apply lookup_ge_None in Ha. by case_decide.
Qed.

Notation bus := (BroadcastBus (C := C) val).
Definition subscribe (h : N) (t : bool) (b : bus) : bus :=
  let b := sub_begin val t b in
  match subscribing val b with (t, i) :: rest => sub_end val h t i rest b | [] => b end.
Definition b1 : bus := (publish val true (7 : val true) (subscribe 0 true (bus_new val))).2.
(** The clean-up sees nobody, a subscriber comes, the clean-up removes. *)
Definition b2 : bus := remove val (subscribe 0 true (collect val true (publish val true (7 : val true) (bus_new val)).2)).
End BroadcastExample.

Lemma broadcast_delivery_witness :
  reachable BroadcastExample.val BroadcastExample.b1 ∧
  ∃ c p v b', chans _ BroadcastExample.b1 !! 0%N = Some (true, c) ∧
    recv_inner BroadcastExample.val 0 BroadcastExample.b1 = Some (true, v, b') ∧
    v = Got (existT true 7) ∧ b_log c !! p = Some (existT true 7 : BroadcastExample.any).
Proof.
  assert (Hr : reachable BroadcastExample.val BroadcastExample.b1).
  { eapply rtc_l; [apply (step_sub_begin _ true)|].
    eapply rtc_l; [apply (step_sub_end _ 0 true 0 [] []); by vm_compute|].
    eapply rtc_l; [apply (step_publish _ true (7 : BroadcastExample.val true))|]. apply rtc_refl. }
  split; [exact Hr|].
  assert (Hl : ∃ r, receivers _ BroadcastExample.b1 !! 0%N = Some r) by (eexists; by vm_compute).
  destruct Hl as [r Hl].
  assert (Hrc : rx_ch _ r = 0%N ∧ rx_ty _ r = true) by (vm_compute in Hl; by simplify_eq).
  destruct (proj1 (broadcast_delivery BroadcastExample.val BroadcastExample.b1 Hr) 0%N r Hl)
    as (c & p & v & b' & Hc & _ & Hv & Hok).
  destruct Hrc as [Hrc Hrt]. rewrite Hrc, Hrt in Hc. rewrite Hrt in Hv. exists c, p, v, b'.
  assert (Hg : v = Got (existT true 7)).
  { assert (match recv_inner BroadcastExample.val 0 BroadcastExample.b1 with
      | Some (_, v, _) => v | None => REmpty end = Got (existT true 7)) as Hg by (by vm_compute).
    by rewrite Hv in Hg. }
  split_and!; [exact Hc|exact Hv|exact Hg|]. subst v. apply Hok.
Defined.

(** ** What modelling showed *)

(** The clean-up looks at the counts and removes the entries in two steps: a
    subscriber that comes between them is cut off.  The next publish makes a
    channel of its own and finds nobody, the subscriber's is closed. *)
Example cleanup_drops_subscriber :
  let b := BroadcastExample.b2 in
  (publish BroadcastExample.val true (8 : BroadcastExample.val true) b).1 = None ∧
  match recv_inner BroadcastExample.val 0 b with Some (_, v, _) => v | None => REmpty end = RClosed.
Proof. by vm_compute. Qed.
