(* ===== verification/Rpc.v ===== *)
(** * RPC channels, servers and the build script (base_rpc/src, base_rpc_build/src)

    The configuration values and their defaults, the reading of certificate
    files, what tonic is asked to build from them, the delays of the retry
    policy, the bounded queue, and the include paths of the build script.
    Files, tonic's builders and [f64] are parameters; a builder is the record
    of the settings it was given. *)
From stdpp Require Import pretty.
From S2P Require Import Prelude Interceptor Bus.

Notation bytes := (list N) (only parsing).

(** Durations in nanoseconds. *)
Definition from_secs (s : N) : N := s * 1000000000.

(** ** Configuration (config.rs) *)

Inductive ClientAuthMode := AuthDisabled | AuthRequired | AuthOptional.
#[export] Instance ClientAuthMode_eq_dec : EqDecision ClientAuthMode.
Proof. solve_decision. Defined.

Record TlsFileConfig := mkTlsFiles {
  certificate_path : option string;
  private_key_path : option string;
  ca_certificate_path : option string;
  client_certificate_path : option string;
  client_private_key_path : option string;
  domain_name : option string;
  use_native_roots : bool;
  client_auth : ClientAuthMode;
  handshake_timeout : N
}.
Definition tls_files_default : TlsFileConfig :=
  mkTlsFiles None None None None None None false AuthDisabled (from_secs 5).

Record RpcServerTlsConfig := mkServerTlsConfig {
  certificate_pem : bytes;
  private_key_pem : bytes;
  client_ca_pem : option bytes;
  client_auth_optional : bool;
  st_handshake_timeout : N
}.
Record RpcClientTlsConfig := mkClientTlsConfig {
  ct_domain_name : option string;
  ca_certificate_pem : option bytes;
  client_certificate_pem : option bytes;
  client_private_key_pem : option bytes;
  ct_use_native_roots : bool;
  ct_handshake_timeout : N
}.

Record RpcServerConfig := mkServerConfig {
  concurrency_limit_per_connection : N;
  sc_tcp_keepalive : option N;
  sc_tcp_keepalive_interval : option N;
  sc_tcp_keepalive_retries : option N;
  sc_http2_keepalive_interval : option N;
  sc_http2_keepalive_timeout : option N;
  sc_tls : option RpcServerTlsConfig
}.
Definition server_config_default : RpcServerConfig :=
  mkServerConfig 256 (Some (from_secs 60)) (Some (from_secs 30)) (Some 3%N) (Some (from_secs 30))
    (Some (from_secs 10)) None.

Record RpcChannelConfig := mkChannelConfig {
  endpoint : string;
  connect_timeout : N;
  request_timeout : N;
  tcp_keepalive : option N;
  tcp_keepalive_interval : option N;
  tcp_keepalive_retries : option N;
  http2_keepalive_interval : N;
  http2_keepalive_timeout : N;
  keep_alive_while_idle : bool;
  tls : option RpcClientTlsConfig
}.
Definition channel_config_new (endpoint : string) : RpcChannelConfig :=
  mkChannelConfig endpoint (from_secs 5) (from_secs 10) (Some (from_secs 60)) (Some (from_secs 30)) (Some 3%N)
    (from_secs 30) (from_secs 10) true None.

Definition rpc_scheme (tls_enabled : bool) : string := if tls_enabled then "grpcs" else "grpc".
Definition rpc_endpoint_uri (tls_enabled : bool) (host : string) (port : N) : string :=
  (if tls_enabled then "https" else "http") +:+ "://" +:+ host +:+ ":" +:+ pretty port.

(** ** TLS from files *)

Section rpc.
(** [fs::read]: the bytes, or the error's text. *)
Context (read : string → result bytes string).

Definition read_file (path : string) : result bytes RpcError :=
  match read path with Ok b => Ok b | Err e => Err (Io e) end.
Definition read_optional (path : option string) : result (option bytes) RpcError :=
  match path with
  | Some p => let? b := read_file p in Ok (Some b)
  | None => Ok None
  end.

Definition load_client_tls_from_files (c : TlsFileConfig) : result RpcClientTlsConfig RpcError :=
  let? ca := read_optional (ca_certificate_path c) in
  let? cert := read_optional (client_certificate_path c) in
  let? key := read_optional (client_private_key_path c) in
  Ok (mkClientTlsConfig (domain_name c) ca cert key (use_native_roots c) (handshake_timeout c)).

Definition load_server_tls_from_files (c : TlsFileConfig) : result RpcServerTlsConfig RpcError :=
  match certificate_path c with
  | None => Err (InvalidEndpoint "server TLS certificate_path is required")
  | Some certificate_path =>
      match private_key_path c with
      | None => Err (InvalidEndpoint "server TLS private_key_path is required")
      | Some private_key_path =>
          let? cert := read_file certificate_path in
          let? key := read_file private_key_path in
          let? ca := read_optional (ca_certificate_path c) in
          Ok (mkServerTlsConfig cert key ca (bool_decide (client_auth c = AuthOptional)) (handshake_timeout c))
      end
  end.

(** ** What tonic is given *)

Record ServerTls := mkServerTls {
  identity : bytes * bytes;
  timeout : N;
  client_ca_root : option bytes;
  auth_optional : bool
}.
(** [ServerTlsConfig::new]: no roots, certificates required once there are. *)
Definition build_server_tls (c : RpcServerTlsConfig) : ServerTls :=
  match client_ca_pem c with
  | Some ca => mkServerTls (certificate_pem c, private_key_pem c) (st_handshake_timeout c) (Some ca)
                 (client_auth_optional c)
  | None => mkServerTls (certificate_pem c, private_key_pem c) (st_handshake_timeout c) None false
  end.

Record Server := mkServer {
  limit_per_connection : N;
  keepalive : option N * option N * option N;
  http2_keepalive : option N * option N;
  server_tls : option ServerTls
}.
(** [tls_config] checks the certificates. *)
Context (server_tls_check : ServerTls → option string).
Definition build_server (c : RpcServerConfig) : result Server RpcError :=
  let server := mkServer (concurrency_limit_per_connection c)
    (sc_tcp_keepalive c, sc_tcp_keepalive_interval c, sc_tcp_keepalive_retries c)
    (sc_http2_keepalive_interval c, sc_http2_keepalive_timeout c) in
  match sc_tls c with
  | Some t =>
      let t := build_server_tls t in
      match server_tls_check t with Some e => Err (Transport e) | None => Ok (server (Some t)) end
  | None => Ok (server None)
  end.

Record ClientTls := mkClientTls {
  c_timeout : N;
  native_roots : bool;
  c_domain_name : option string;
  ca_certificate : option bytes;
  c_identity : option (bytes * bytes)
}.
Definition build_client_tls (c : RpcClientTlsConfig) : ClientTls :=
  mkClientTls (ct_handshake_timeout c) (ct_use_native_roots c) (ct_domain_name c) (ca_certificate_pem c)
    match client_certificate_pem c, client_private_key_pem c with
    | Some certificate, Some private_key => Some (certificate, private_key)
    | _, _ => None
    end.

Record Endpoint := mkEndpoint {
  ep_uri : string;
  ep_connect_timeout : N;
  ep_timeout : N;
  ep_keepalive : option N * option N * option N;
  ep_http2 : N * N * bool;
  ep_tls : option ClientTls
}.
Context (parse_uri : string → option string) (client_tls_check : ClientTls → option string).
Context {Chan : Type} (connect : Endpoint → result Chan string).
Definition connect_channel (c : RpcChannelConfig) : result Chan RpcError :=
  match parse_uri (endpoint c) with
  | Some e => Err (InvalidEndpoint e)
  | None =>
      let ep := mkEndpoint (endpoint c) (connect_timeout c) (request_timeout c)
        (tcp_keepalive c, tcp_keepalive_interval c, tcp_keepalive_retries c)
        (http2_keepalive_interval c, http2_keepalive_timeout c, keep_alive_while_idle c) in
      let? ep := match tls c with
        | Some t =>
            let t := build_client_tls t in
            match client_tls_check t with Some e => Err (Transport e) | None => Ok (ep (Some t)) end
        | None => Ok (ep None)
        end in
      match connect ep with Ok ch => Ok ch | Err e => Err (Transport e) end
  end.

(** [tcp_incoming_from_std]: two calls on the listener that can fail. *)
Definition tcp_incoming_from_std {L : Type} (set_nonblocking : L → result () string)
    (from_std : L → result L string) (l : L) : result L RpcError :=
  match set_nonblocking l with
  | Err e => Err (Io e)
  | Ok _ => match from_std l with Err e => Err (Io e) | Ok l => Ok l end
  end.

(** ** What a client of the server must show *)

Inductive Demand := NoCertificate | MayShow | MustShow.
Definition demand (t : ServerTls) : Demand :=
  match client_ca_root t with
  | None => NoCertificate
  | Some _ => if auth_optional t then MayShow else MustShow
  end.

(** a server built from certificate files has the files' identity, and
    demands of its clients what the certificate authority file decides: none
    without the file, and with it a certificate unless the mode is optional.
    A missing path or an unreadable file is an error. *)
Theorem server_tls_demand (c : TlsFileConfig) (sc : RpcServerConfig) :
  match load_server_tls_from_files c with
  | Ok t =>
      (∃ cp kp, certificate_path c = Some cp ∧ private_key_path c = Some kp ∧
        read cp = Ok (certificate_pem t) ∧ read kp = Ok (private_key_pem t)) ∧
      match build_server (mkServerConfig (concurrency_limit_per_connection sc) (sc_tcp_keepalive sc)
        (sc_tcp_keepalive_interval sc) (sc_tcp_keepalive_retries sc) (sc_http2_keepalive_interval sc)
        (sc_http2_keepalive_timeout sc) (Some t)) with
      | Ok s => ∃ st, server_tls s = Some st ∧ identity st = (certificate_pem t, private_key_pem t) ∧
          timeout st = handshake_timeout c ∧
          demand st = match ca_certificate_path c, client_auth c with
            | None, _ => NoCertificate
            | Some _, AuthOptional => MayShow
            | Some _, _ => MustShow
            end
      | Err e => ∃ text, e = Transport text
      end
  | Err e =>
      certificate_path c = None ∨ private_key_path c = None ∨
      ∃ p text, p ∈ [certificate_path c; private_key_path c; ca_certificate_path c] ∧
        ∃ f, p = Some f ∧ read f = Err text ∧ e = Io text
  end.
Proof.
  unfold load_server_tls_from_files.
  destruct (certificate_path c) as [cp|]; [|by left].
  destruct (private_key_path c) as [kp|]; [|by right; left].
  unfold read_optional, read_file.
  destruct (read cp) as [cert|e] eqn:Hcp; simpl.
  2:{ right; right. eexists _, e. split; [left|]. by exists cp. }
  destruct (read kp) as [key|e] eqn:Hkp; simpl.
  2:{ right; right. eexists _, e. split; [right; left|]. by exists kp. }
  destruct (ca_certificate_path c) as [ap|]; simpl.
  - destruct (read ap) as [ca|e] eqn:Hap; simpl.
    2:{ right; right. eexists _, e. split; [right; right; left|]. by exists ap. }
    split; [by exists cp, kp|]. unfold build_server. simpl.
    destruct (server_tls_check _) as [e|]; [by exists e|]. eexists. split_and!; [done|done|done|].
    unfold demand. simpl. by destruct (client_auth c).
  - split; [by exists cp, kp|]. unfold build_server. simpl.
    destruct (server_tls_check _) as [e|]; [by exists e|]. by eexists.
Qed.
End rpc.

(** ** The delays of the retry policy (retry.rs) *)

Section delay.
(** [f64] with the operations that are used; [powi]'s precision is the
    platform's, [from_secs] panics on what is no duration. *)
Context {F : Type} (zero one : F) (le : F → F → Prop).
Context (mul add : F → F → F) (fmax fmin : F → F → F) (clamp01 : F → F) (powi : F → N → F) (neg : F → F).
Context (as_secs_f64 : N → F) (from_secs_f64 : F → exec N).
Context (le_dec : ∀ a b, Decision (le a b)).

Record DelayPolicy := mkDelayPolicy {
  initial_delay : N;
  max_delay : N;
  multiplier : F;
  jitter_ratio : F
}.
(** The default policy, with 2.0 and 0.2 of [f64]. *)
Definition delay_policy_default (two point_two : F) : DelayPolicy :=
  mkDelayPolicy 250000000 (from_secs 30) two point_two.
Definition i32_max : N := 2147483647.
Definition delay_without_jitter (p : DelayPolicy) (attempt : N) : exec N :=
  let exponent := N.min (attempt - 1) i32_max in
  let seconds := mul (as_secs_f64 (initial_delay p)) (powi (fmax (multiplier p) one) exponent) in
  from_secs_f64 (fmin seconds (as_secs_f64 (max_delay p))).
(** [gen_range] gives a value of the range it is asked for. *)
Definition delay (gen_range : F → F → F) (p : DelayPolicy) (attempt : N) : exec N :=
  base ← delay_without_jitter p attempt;
  if decide (le (jitter_ratio p) zero) then Ret base
  else if (base =? 0)%N then Ret base
  else
    let jitter := mul (as_secs_f64 base) (clamp01 (jitter_ratio p)) in
    let delta := gen_range (neg jitter) jitter in
    from_secs_f64 (fmax (add (as_secs_f64 base) delta) zero).

(** The conversions are monotonic, [min] is below its second argument unless
    that is no number. *)
Hypothesis from_secs_mono : ∀ a b m n, le a b → from_secs_f64 a = Ret m → from_secs_f64 b = Ret n → (m ≤ n)%N.
Hypothesis fmin_le : ∀ a b, le (fmin a (as_secs_f64 b)) (as_secs_f64 b).

(** Without jitter no delay is longer than what the greatest delay comes to
    after its conversions. *)
Lemma delay_capped (p : DelayPolicy) (attempt d m : N) :
  from_secs_f64 (as_secs_f64 (max_delay p)) = Ret m →
  delay_without_jitter p attempt = Ret d → (d ≤ m)%N.
Proof. intros Hm Hd. by eapply from_secs_mono. Qed.
End delay.

(** ** The bounded queue (stream_supervisor.rs) *)

Section queue.
Context {A C : Type} `{!Channel A C, !ChannelLaws A C}.

Definition queue_new (capacity : nat) : exec C :=
  if (0 <? capacity)%nat then Ret (ch_new capacity) else Panic.

(** Sending until the queue is full takes as many messages as its capacity. *)
Fixpoint send_all (c : C) (ms : list A) : list TrySend * C :=
  match ms with
  | [] => ([], c)
  | m :: ms => let '(r, c) := ch_try_send c m in let '(rs, c) := send_all c ms in (r :: rs, c)
  end.

Lemma send_all_items (c : C) (ms : list A) : ch_open c = true →
  length (ch_items c) ≤ ch_cap c →
  ch_items (send_all c ms).2 = take (ch_cap c) (ch_items c ++ ms).
Proof.
  revert c. induction ms as [|m ms IH]; intros c Ho Hl; simpl.
  - by rewrite app_nil_r, take_ge.
  - pose proof (ch_try_send_spec c m) as Hs. destruct (ch_try_send c m) as [r c'].
    destruct Hs as (Hcap & Hop & Hr). specialize (IH c'). rewrite Hop, Hcap in IH.
    destruct (send_all c' ms) as [rs c'']. simpl in *. destruct r.
    + destruct Hr as (_ & Hlt & Hi). rewrite IH, Hi, <- app_assoc by (done || rewrite Hi, length_app; simpl; lia). done.
    + destruct Hr as (_ & Hge & Hi). rewrite IH, Hi by (done || by rewrite Hi).
      by rewrite !take_app_le, !take_ge by lia.
    + destruct Hr as [Hno _]. congruence.
Qed.
End queue.

(** ** The include paths of the build script *)

Section build.
Context {Path : Type} `{EqDecision Path}.

Definition include_paths (includes : list Path) (vendored_include : Path) : list Path :=
  if decide (vendored_include ∈ includes) then includes else includes ++ [vendored_include].

Record CompileOptions := mkCompileOptions { out_dir : option Path; descriptor_path : option Path }.
(** The builder as it is handed to the compiler. *)
Record Job := mkJob {
  protoc_executable : Path;
  job_out_dir : option Path;
  file_descriptor_set_path : option Path;
  job_protos : list Path;
  job_includes : list Path
}.
Context {E : Type} (not_found : E → E).
Context (protoc_bin_path include_path : result Path E) (compile_with_config : Job → result () E).

Definition vendored {A : Type} (r : result A E) : result A E :=
  match r with Ok a => Ok a | Err e => Err (not_found e) end.
Definition vendored_protoc_path : result Path E := vendored protoc_bin_path.
Definition vendored_include_path : result Path E := vendored include_path.

Definition compile_protos_with_options (protos includes : list Path) (options : CompileOptions) : result () E :=
  let? protoc := vendored protoc_bin_path in
  let? vendored_include := vendored include_path in
  compile_with_config
    (mkJob protoc (out_dir options) (descriptor_path options) protos (include_paths includes vendored_include)).
Definition compile_protos (protos includes : list Path) : result () E :=
  compile_protos_with_options protos includes (mkCompileOptions None None).

(** The vendored directory is searched last, and once. *)
Lemma include_paths_spec (includes : list Path) (v : Path) :
  v ∈ include_paths includes v ∧ includes `prefix_of` include_paths includes v ∧
  (NoDup includes → NoDup (include_paths includes v)).
Proof.
  unfold include_paths. case_decide as Hv; [split_and!; [done|by exists []; rewrite app_nil_r|done]|].
  split_and!; [apply elem_of_app; right; left|by exists [v]|]. intros Hn.
  apply NoDup_app. split_and!; [done| |apply NoDup_singleton].
  intros x Hx ->%list_elem_of_singleton. done.
Qed.
End build.

(** ** What modelling showed *)

(** The mode of the configuration is half obeyed: [Required] without an
    authority's certificate builds a server that asks for none, and
    [Disabled] with one builds a server that demands a client certificate. *)
Example required_without_ca :
  demand <$> (match load_server_tls_from_files (λ _, Ok [])
      (mkTlsFiles (Some "c.pem") (Some "k.pem") None None None None false AuthRequired 0)
    with Ok t => Some (build_server_tls t) | Err _ => None end) = Some NoCertificate.
Proof. done. Qed.
Example disabled_with_ca :
  demand <$> (match load_server_tls_from_files (λ _, Ok [])
      (mkTlsFiles (Some "c.pem") (Some "k.pem") (Some "ca.pem") None None None false AuthDisabled 0)
    with Ok t => Some (build_server_tls t) | Err _ => None end) = Some MustShow.
Proof. done. Qed.

(** A client certificate without its key is dropped without an error. *)
Example certificate_without_key :
  c_identity (build_client_tls (mkClientTlsConfig None None (Some [1%N]) None false 0)) = None.
Proof. done. Qed.
